(* ===== verification/_CoqProject ===== *)
-Q . S2P
Prelude.v
ShardId.v
SimplexTypes.v
SimplexSlots.v
SimplexWire.v
Sha256.v
SimplexFanOut.v
SimplexCert.v
SimplexCandidate.v
SimplexPool.v
Float64.v
SimplexState.v
SimplexEngine.v
SimplexFrame.v
SimplexSteps.v
SimplexPoolFrame.v
SimplexRun.v
SimplexQuorum.v
SimplexJustify.v
SimplexTotal.v
SimplexVoting.v
SimplexSafety.v
StoreKeys.v
StoreCodec.v
CollatorCodec.v
Pebble.v
Files.v
StoreWriter.v
StoreHistory.v
Keyring.v
StoreSession.v
CollatorStore.v
StoreJournal.v
StoreRecovery.v
StoreKeyring.v
StoreOpen.v
StorePack.v
StoreCandidate.v
StoreDelegation.v
CollatorMarkers.v
StoreCrash.v
Node.v
NodeRun.v
