(* ===== verification/Prelude.v ===== *)
(** * gton: verification of the TON Simplex validator

    gton is a TON node in Go.  This library is about the part of it on which the
    agreement of the network rests: the Simplex consensus engine, the store that
    keeps what a validator must not forget, and the packages these use.  The
    repository is under [src/]; file and function names below are relative to it,
    [simplex/] is [service/validator/simplex/] and [pebblestore/] is
    [service/validator/pebblestore/].

    ** The program and how its parts interact

    A validator session runs one [Engine] ([simplex/engine.go]).  It is a
    single-threaded state machine: messages, timers, candidates and completions of
    asynchronous calls enter one at a time, and each runs to the end.  The pool
    ([simplex/pool.go]) collects the votes of a slot, builds certificates and keeps
    the skip runs and the waiting candidates; the voter ([simplex/voter.go]) decides
    what the validator signs.  A vote goes to the journal first, is signed when the
    journal reports it saved, then applied and broadcast.  Certificates are
    verified by a pool of goroutines ([simplex/certificate_verify.go]); votes and
    certificates travel and are stored in the encodings of [simplex/tl.go].

    The journal ([pebblestore/journal.go]) turns saves into write requests of the
    store ([pebblestore/store.go]): one queue, one writer goroutine that commits
    batches to a Pebble database, and callback goroutines that wait for the log to
    be synced.  When the process stops, what the database then holds is what
    [Bootstrap] returns to the next engine.

    ** The files

    - [Prelude]: the [Go] monad (a state monad in which [None] is a panic) with its
      weakest preconditions, machine integers, byte strings, struct updates
      [r <| f := v |>], lemmas on lists and the tactics of the library.
    - [ShardId]: [service/shard/shard.go], every function.
    - [SimplexTypes], [SimplexSlots], [SimplexWire], [Sha256], [SimplexFanOut],
      [SimplexCert], [SimplexCandidate], [SimplexPool], [Float64]: the data of the
      engine and the pure or local operations on it ([simplex/types.go],
      [slots.go], [tl.go], [certificate_verify.go], [candidate.go],
      the vote records of [pool.go]).
    - [SimplexState], [SimplexEngine]: the record [Engine] and one definition per
      method of [engine.go], [pool.go], [voter.go] and [own_candidate_timing.go].
      Pointers to slots are slot numbers, closures put on the task queue are the
      constructors of [Task], calls of the injected services are entries of a log.
    - [SimplexFrame], [SimplexSteps], [SimplexPoolFrame]: what each handler leaves
      alone, and the induction principles that turn a property of handlers into an
      invariant of reachable states.
    - [SimplexRun]: concrete runs, used by the witnesses.
    - [SimplexQuorum], [SimplexJustify], [SimplexTotal], [SimplexVoting]: the
      invariants of one engine.
    - [SimplexSafety]: agreement in a network of engines.
    - [StoreKeys], [StoreCodec]: the key space and the records of the store
      ([pebblestore/keys.go], [codec.go], [summary.go] and others).
    - [Pebble]: the database as a class of operations with its laws, and an
      instance; [StoreWriter]: the writer as a transition system.
    - [StoreSession], [StoreJournal]: the requests and reads of [session.go] and
      [journal.go]; [StoreRecovery], [StoreCrash]: what they keep and what a crash
      leaves of it.
    - [Node], [NodeRun]: an engine on its journal on its store, through any number
      of lives, and scripts that run one.

    ** What the theorems show

    - Agreement.  [deployment_agrees]: in a network whose honest validators are
      nodes of this repository, a finalized candidate is an ancestor of every
      candidate certified at its slot or later.  It rests on [node_is_honest] and
      [node_never_equivocates] (a node through crashes is an honest validator),
      [nodes_agree] (agreement from honest validators),
      [reported_certificates_are_quorums], [notarize_votes_are_grounded],
      [no_self_equivocation], [journal_before_signature] (what one engine does) and
      [quorum_intersection].
    - Availability.  [engine_never_panics]: from every reachable state the engine
      digests any well-typed inputs; its loops end.
      [journaled_values_are_typed]: what it stores can be encoded.
    - Durability.  [journal_survives], [bootstrap_is_current],
      [commitments_are_durable], [writer_fifo], [store_drains],
      [deleteSession_exact].
    - Concurrency of the verifier.  [verifyFanOut_correct] and
      [verifyFanOut_lowest] quantify over all interleavings of the workers;
      [Verify_iff_quorum] says what a seal means.
    - Encodings.  Round trips and canonicity of votes, certificates and records,
      injectivity of what is signed, exactness of key ranges.
    - Data.  Shard prefixes as a tree, the slot map, the set of skip-run ends, the
      conflict rules of a vote record, the checks of a roster.
    - Three theorems show what the code does not do:
      [inflight_restart_equivocates], [out_of_order_saves_equivocate],
      [totalValidatorWeight_wraps].

    ** Assumptions

    Ed25519 ([Ed25519]), the TL runtime of tonutils-go ([TLRuntime], [TLLaws],
    [TLDbId]) and Pebble ([Pebble], [PebbleLaws]) are classes with the laws the code
    relies on; each has an instance that the witnesses run on.  Agreement assumes
    that an honest validator's signatures cannot be forged and that the others hold
    less than a third of the weight.  SHA-256 is computed; where a theorem needs it
    to be injective, the collision is in the conclusion or excluded by name.

    ** Bounds and fuel

    Integers keep their width: [u32], [u64] and [i64] reduce a [Z].  The loops of
    the engine that are not structural take fuel computed from the state at the
    start of the loop.  [resolve_loop] and [drain_loop] pass an element of a slice
    in every round, so its length is enough.  [present_loop] and
    [drain_pending_loop] panic when they run out of it, so [engine_never_panics]
    shows that theirs is enough.  [verifyFanOut] is a step relation with a measure.
    The writer's bounds [maxWriteBatch] and [maxWriteBatchBytes] are those of the
    source.

    ** Not modelled

    - Collation and validation of blocks ([service/validator/collator]), block
      proofs, the live view, liteserver and HTTP APIs: they work on cell trees and
      the virtual machine of tonutils-go, which is not part of the repository.
    - ADNL, overlays, DHT, RLDP and the plumbing of [service/p2p]: drivers of
      network I/O.
    - The block and state databases ([service/storage]), metrics, commands,
      configuration and genesis.
    - Of the modelled packages: logging, debug dumps, error texts, and contexts
      that expire. *)

From stdpp Require Export base numbers list gmap sorting.
From Stdlib Require Export ZArith Lia.

#[global] Open Scope Z_scope.

(** ** Machine integers

    A Go [uintN] is a [Z] in [0, 2^N); the conversion [uintN(x)] and every
    arithmetic operation on that width reduce modulo [2^N].  [intN] is the
    two's complement reading of the same bits. *)

Declare Scope go_scope.
Delimit Scope go_scope with go.

Definition u8 (x : Z) : Z := x mod 2 ^ 8.
Definition u32 (x : Z) : Z := x mod 2 ^ 32.
Definition u64 (x : Z) : Z := x mod 2 ^ 64.
Definition i32 (x : Z) : Z := (x + 2 ^ 31) mod 2 ^ 32 - 2 ^ 31.
Definition i64 (x : Z) : Z := (x + 2 ^ 63) mod 2 ^ 64 - 2 ^ 63.

Definition is_u32 (x : Z) : Prop := 0 <= x < 2 ^ 32.
Definition is_u64 (x : Z) : Prop := 0 <= x < 2 ^ 64.
Definition is_i32 (x : Z) : Prop := - 2 ^ 31 <= x < 2 ^ 31.
Definition is_i64 (x : Z) : Prop := - 2 ^ 63 <= x < 2 ^ 63.

Notation "x +₃₂ y" := (u32 (x + y)) (at level 50, left associativity) : go_scope.
Notation "x -₃₂ y" := (u32 (x - y)) (at level 50, left associativity) : go_scope.
Notation "x *₃₂ y" := (u32 (x * y)) (at level 40, left associativity) : go_scope.
Notation "x +₆₄ y" := (u64 (x + y)) (at level 50, left associativity) : go_scope.

#[global] Open Scope go_scope.

Create HintDb gton discriminated.
Create Rewrite HintDb gtonrw.

Lemma u32_small x : is_u32 x -> u32 x = x.
Proof. unfold is_u32, u32. intros. apply Z.mod_small. lia. Qed.

Lemma u64_small x : is_u64 x -> u64 x = x.
Proof. unfold is_u64, u64. intros. apply Z.mod_small. lia. Qed.

Lemma u32_range x : is_u32 (u32 x).
Proof. unfold is_u32, u32. apply Z.mod_pos_bound. lia. Qed.

Lemma u64_range x : is_u64 (u64 x).
Proof. unfold is_u64, u64. apply Z.mod_pos_bound. lia. Qed.

Lemma i64_range x : is_i64 (i64 x).
Proof.
  unfold is_i64, i64.
  pose proof (Z.mod_pos_bound (x + 2 ^ 63) (2 ^ 64)). lia.
Qed.

(** [uint64(int64(x))] and [int64(uint64(x))] keep the bits. *)
Lemma u64_i64 x : is_u64 x -> u64 (i64 x) = x.
Proof.
  unfold is_u64, u64, i64. intros.
  rewrite Zminus_mod_idemp_l. replace (x + 2 ^ 63 - 2 ^ 63) with x by lia.
  apply Z.mod_small. lia.
Qed.

Lemma i64_u64 x : is_i64 x -> i64 (u64 x) = x.
Proof.
  unfold is_i64, u64, i64. intros.
  rewrite Zplus_mod_idemp_l, Z.mod_small; lia.
Qed.

Lemma u32_i32 x : is_u32 x -> u32 (i32 x) = x.
Proof.
  unfold is_u32, u32, i32. intros.
  rewrite Zminus_mod_idemp_l. replace (x + 2 ^ 31 - 2 ^ 31) with x by lia.
  apply Z.mod_small. lia.
Qed.

Lemma i32_u32 x : is_i32 x -> i32 (u32 x) = x.
Proof.
  unfold is_i32, u32, i32. intros.
  rewrite Zplus_mod_idemp_l, Z.mod_small; lia.
Qed.

#[export] Hint Resolve u32_range u64_range i64_range : gton.

(** ** Byte strings

    A Go [[]byte] is a list of [Z] in [0, 256). *)

Abbreviation bytes := (list Z).
Definition is_byte (b : Z) : Prop := 0 <= b < 2 ^ 8.

(** [binary.LittleEndian.AppendUint32] and friends: [n] bytes, low first. *)
Fixpoint le_put (n : nat) (x : Z) : bytes :=
  match n with
  | O => []
  | S n => x mod 2 ^ 8 :: le_put n (x / 2 ^ 8)
  end.

(** [binary.LittleEndian.UintN] of a slice of exactly the width. *)
Fixpoint le_get (l : bytes) : Z :=
  match l with
  | [] => 0
  | b :: l => b + 2 ^ 8 * le_get l
  end.

Definition be_put (n : nat) (x : Z) : bytes := reverse (le_put n x).
Definition be_get (l : bytes) : Z := le_get (reverse l).

Lemma length_le_put n x : length (le_put n x) = n.
Proof. revert x; induction n; simpl; auto. Qed.

Lemma length_be_put n x : length (be_put n x) = n.
Proof. unfold be_put. by rewrite length_reverse, length_le_put. Qed.

Lemma le_put_bytes n x : Forall is_byte (le_put n x).
Proof.
  revert x; induction n; simpl; constructor; auto.
  unfold is_byte. apply Z.mod_pos_bound. lia.
Qed.

Lemma be_put_bytes n x : Forall is_byte (be_put n x).
Proof. unfold be_put. apply Forall_reverse, le_put_bytes. Qed.

Lemma le_get_put n x : le_get (le_put n x) = x mod 2 ^ (8 * Z.of_nat n).
Proof.
  revert x; induction n as [|n IH]; intros x.
  { simpl. by rewrite Z.mod_1_r. }
  cbn [le_put le_get]. rewrite IH.
  replace (8 * Z.of_nat (S n)) with (8 + 8 * Z.of_nat n) by lia.
  rewrite Z.pow_add_r, Z.rem_mul_r by lia. reflexivity.
Qed.

Lemma be_get_put n x : be_get (be_put n x) = x mod 2 ^ (8 * Z.of_nat n).
Proof. unfold be_get, be_put. by rewrite reverse_involutive, le_get_put. Qed.

Lemma le_get_range l :
  Forall is_byte l -> 0 <= le_get l < 2 ^ (8 * Z.of_nat (length l)).
Proof.
  induction 1 as [|b l Hb _ IH]; simpl length; [simpl; lia|].
  cbn [le_get]. unfold is_byte in Hb.
  replace (8 * Z.of_nat (S (length l))) with (8 + 8 * Z.of_nat (length l)) by lia.
  rewrite Z.pow_add_r by lia. nia.
Qed.

Lemma le_put_get l : Forall is_byte l -> le_put (length l) (le_get l) = l.
Proof.
  induction 1 as [|b l Hb Hl IH]; simpl; [done|]. unfold is_byte in Hb.
  rewrite (Z.mul_comm 256), Z_mod_plus_full, Z.div_add by lia.
  rewrite Z.mod_small, Z.div_small, Z.add_0_l by lia. by rewrite IH.
Qed.

Lemma be_put_get l : Forall is_byte l -> be_put (length l) (be_get l) = l.
Proof.
  intros H. unfold be_put, be_get.
  rewrite <- (length_reverse l), le_put_get by by apply Forall_reverse.
  apply reverse_involutive.
Qed.

Lemma le_put4_get x : is_u32 x -> le_get (le_put 4 x) = x.
Proof. intros. rewrite le_get_put. apply Z.mod_small. unfold is_u32 in *. lia. Qed.

Lemma le_put8_get x : is_u64 x -> le_get (le_put 8 x) = x.
Proof. intros. rewrite le_get_put. apply Z.mod_small. unfold is_u64 in *. lia. Qed.

Lemma le_put_inj n x y :
  0 <= x < 2 ^ (8 * Z.of_nat n) -> 0 <= y < 2 ^ (8 * Z.of_nat n) ->
  le_put n x = le_put n y -> x = y.
Proof.
  intros Hx Hy H%(f_equal le_get). rewrite !le_get_put in H.
  by rewrite !Z.mod_small in H.
Qed.

#[export] Hint Rewrite length_le_put length_be_put @length_app @length_replicate
  @length_reverse @length_drop @length_take : gtonrw.
#[export] Hint Resolve le_put_bytes be_put_bytes : gton.

(** ** [sort.Search]

    Go's binary search: the loop halves [i, j) until it is empty.  The result
    is only meaningful for a predicate that flips once from false to true. *)

Fixpoint search_loop (fuel : nat) (f : Z -> bool) (i j : Z) : Z :=
  match fuel with
  | O => i
  | S fuel =>
      if i <? j then
        let h := (i + j) / 2 in
        if f h then search_loop fuel f i h else search_loop fuel f (h + 1) j
      else i
  end.

Definition sort_Search (n : Z) (f : Z -> bool) : Z := search_loop (Z.to_nat n) f 0 n.

Section Search.
Context (f : Z -> bool).

Definition flips_once (n : Z) : Prop :=
  forall a b, 0 <= a <= b -> b < n -> f a = true -> f b = true.

Lemma search_loop_spec n fuel i j :
  flips_once n -> 0 <= i <= j -> j <= n -> j - i <= Z.of_nat fuel ->
  (forall k, 0 <= k < i -> f k = false) ->
  (forall k, j <= k < n -> f k = true) ->
  let r := search_loop fuel f i j in
  i <= r <= j /\ (forall k, 0 <= k < r -> f k = false) /\
  (forall k, r <= k < n -> f k = true).
Proof.
  intros Hm. revert i j. induction fuel as [|fuel IH]; intros i j Hij Hjn Hf Hlo Hhi; simpl.
  { replace j with i in * by lia. split_and!; auto; lia. }
  destruct (Z.ltb_spec i j) as [Hlt|Hge].
  2:{ replace j with i in * by lia. split_and!; auto; lia. }
  set (h := (i + j) / 2).
  assert (Hh : i <= h < j) by (subst h; split; [apply Z.div_le_lower_bound|apply Z.div_lt_upper_bound]; lia).
  destruct (f h) eqn:E.
  - destruct (IH i h) as (H1 & H2 & H3); try lia; auto.
    { intros k Hk. apply (Hm h k); auto; lia. }
    split_and!; auto; lia.
  - destruct (IH (h + 1) j) as (H1 & H2 & H3); try lia; auto.
    { intros k Hk. destruct (f k) eqn:E2; auto.
      rewrite (Hm k h) in E; auto; lia. }
    split_and!; auto; lia.
Qed.

(** The result is the first index where the predicate holds, or [n]. *)
Lemma sort_Search_spec n :
  0 <= n -> flips_once n ->
  0 <= sort_Search n f <= n /\
  (forall k, 0 <= k < sort_Search n f -> f k = false) /\
  (forall k, sort_Search n f <= k < n -> f k = true).
Proof.
  intros Hn Hm. unfold sort_Search.
  apply (search_loop_spec n); auto; lia.
Qed.

Lemma search_loop_le fuel i j : i <= j -> search_loop fuel f i j <= j.
Proof.
  revert i j. induction fuel as [|fuel IH]; intros i j Hij; simpl; [done|]. destruct (Z.ltb_spec i j); [|done].
  assert (i <= (i + j) / 2 < j) by (split; [apply Z.div_le_lower_bound|apply Z.div_lt_upper_bound]; lia).
  destruct (f _); [etrans; [apply IH|]; lia|apply IH; lia].
Qed.

(** Whatever the predicate, a result below [n] is an index where it holds. *)
Lemma sort_Search_hit n : 0 <= n -> sort_Search n f < n -> 0 <= sort_Search n f /\ f (sort_Search n f) = true.
Proof.
  intros Hn. unfold sort_Search.
  assert (forall fuel i j, 0 <= i <= j -> j - i <= Z.of_nat fuel -> (j = n \/ f j = true) ->
    let r := search_loop fuel f i j in 0 <= r /\ (r = n \/ f r = true)) as Hloop.
  { induction fuel as [|fuel IH]; intros i j Hij Hf Hj; simpl; [by replace i with j by lia; split; [lia|]|].
    destruct (Z.ltb_spec i j); [|by replace i with j by lia; split; [lia|]]. set (h := (i + j) / 2).
    assert (i <= h < j) by (subst h; split; [apply Z.div_le_lower_bound|apply Z.div_lt_upper_bound]; lia).
    destruct (f h) eqn:E; apply IH; auto; lia. }
  destruct (Hloop (Z.to_nat n) 0 n) as [H0 [Hr|Hr]]; auto; lia.
Qed.
End Search.

(** ** Imperative code: state passing with panics

    A Go routine over a shared state [S] that returns [A] is a function
    [S -> option (A * S)]; [None] is a run-time panic (nil dereference, index
    out of range, an explicit [panic]).  Loops over a finite range are
    iterations over the list of their indices. *)

Definition Go (S A : Type) : Type := S -> option (A * S).

Section GoMonad.
Context {S : Type}.

Definition ret {A} (a : A) : Go S A := fun s => Some (a, s).
Definition bind {A B} (m : Go S A) (k : A -> Go S B) : Go S B :=
  fun s => match m s with Some (a, s') => k a s' | None => None end.
Definition panic {A} : Go S A := fun _ => None.
Definition gets {A} (f : S -> A) : Go S A := fun s => Some (f s, s).
Definition modify (f : S -> S) : Go S unit := fun s => Some (tt, f s).
(** Dereference of a possibly nil pointer. *)
Definition deref {A} (o : option A) : Go S A :=
  match o with Some a => ret a | None => panic end.
Definition when (b : bool) (m : Go S unit) : Go S unit := if b then m else ret tt.
Fixpoint for_each {A} (l : list A) (body : A -> Go S unit) : Go S unit :=
  match l with
  | [] => ret tt
  | a :: l => bind (body a) (fun _ => for_each l body)
  end.
End GoMonad.

Notation "x <- m ;; k" := (bind m (fun x => k))
  (at level 100, m at next level, right associativity) : go_scope.
Notation "'let*' p := m 'in' k" := (bind m (fun x => match x with p => k end))
  (at level 100, p pattern, m at level 100, k at level 200) : go_scope.
Notation "m ;;; k" := (bind m (fun _ => k))
  (at level 100, right associativity) : go_scope.

(** [for i := lo; i < hi; i++] on [uint32] bounds that do not wrap. *)
Definition range (lo hi : Z) : list Z := seqZ lo (hi - lo).

Lemma elem_of_range i lo hi : i ∈ range lo hi <-> lo <= i < hi.
Proof. unfold range. rewrite elem_of_seqZ. lia. Qed.

(** *** Hoare triples

    [triple P m Q]: from a state in [P], [m] does not panic and ends in [Q].
    [ptriple] is the partial form that tolerates a panic. *)

Definition triple {S A} (P : S -> Prop) (m : Go S A) (Q : A -> S -> Prop) : Prop :=
  forall s, P s -> exists a s', m s = Some (a, s') /\ Q a s'.

Definition ptriple {S A} (P : S -> Prop) (m : Go S A) (Q : A -> S -> Prop) : Prop :=
  forall s a s', P s -> m s = Some (a, s') -> Q a s'.

(** [keeps R m]: every run of [m] relates its first and last state by [R]. *)
Definition keeps {S A} (R : S -> S -> Prop) (m : Go S A) : Prop :=
  forall s a s', m s = Some (a, s') -> R s s'.

Section GoRules.
Context {S : Type}.
Implicit Types (P : S -> Prop) (R : S -> S -> Prop).

Lemma triple_ret {A} P (a : A) (Q : A -> S -> Prop) :
  (forall s, P s -> Q a s) -> triple P (ret a) Q.
Proof. intros H s Hs. eexists _, _. split; [done|]. auto. Qed.

Lemma triple_bind {A B} P (m : Go S A) (k : A -> Go S B) Q' Q :
  triple P m Q' -> (forall a, triple (Q' a) (k a) Q) -> triple P (bind m k) Q.
Proof.
  intros Hm Hk s Hs. destruct (Hm s Hs) as (a & s' & E & H').
  destruct (Hk a s' H') as (b & s'' & E' & H''). exists b, s''.
  unfold bind. by rewrite E.
Qed.

Lemma triple_conseq {A} P P' (m : Go S A) Q Q' :
  triple P' m Q' -> (forall s, P s -> P' s) -> (forall a s, Q' a s -> Q a s) ->
  triple P m Q.
Proof. intros Hm HP HQ s Hs. destruct (Hm s (HP s Hs)) as (a & s' & E & H'). eauto. Qed.

Lemma triple_for_each {A} (I : S -> Prop) (l : list A) body :
  (forall a, a ∈ l -> triple I (body a) (fun _ => I)) ->
  triple I (for_each l body) (fun _ => I).
Proof.
  induction l as [|a l IH]; simpl; intros H; [by apply triple_ret|].
  eapply triple_bind; [apply H; left|]. intros ?. apply IH.
  intros b Hb. apply H. by right.
Qed.

Lemma keeps_ret (R : relation S) `{!Reflexive R} {A} (a : A) : keeps R (ret a).
Proof. by intros s b s' [= <- <-]. Qed.
Lemma keeps_gets (R : relation S) `{!Reflexive R} {A} (f : S -> A) : keeps R (gets f).
Proof. by intros s b s' [= <- <-]. Qed.
Lemma keeps_panic R {A} : keeps R (@panic S A).
Proof. by intros s b s'. Qed.
Lemma keeps_deref (R : relation S) `{!Reflexive R} {A} (o : option A) : keeps R (deref o).
Proof. destruct o; [by apply keeps_ret|apply keeps_panic]. Qed.
Lemma keeps_modify R (f : S -> S) : (forall s, R s (f s)) -> keeps R (modify f).
Proof. by intros H s b s' [= <- <-]. Qed.
Lemma keeps_bind (R : relation S) `{!Transitive R} {A B} (m : Go S A) (k : A -> Go S B) :
  keeps R m -> (forall a, keeps R (k a)) -> keeps R (bind m k).
Proof.
  intros Hm Hk s b s''. unfold bind. destruct (m s) as [[a s']|] eqn:E; [|done].
  intros E'. etrans; [by eapply Hm|by eapply Hk].
Qed.
Lemma keeps_when (R : relation S) `{!Reflexive R} b (m : Go S unit) : keeps R m -> keeps R (when b m).
Proof. destruct b; [done|intros _; by apply keeps_ret]. Qed.
Lemma keeps_for_each (R : relation S) `{!Reflexive R, !Transitive R} {A} (l : list A) body :
  (forall a, a ∈ l -> keeps R (body a)) -> keeps R (for_each l body).
Proof.
  induction l as [|a l IH]; simpl; intros H; [by apply keeps_ret|].
  apply keeps_bind; [done|apply H; left|]. intros _. apply IH. intros b Hb. apply H. by right.
Qed.
End GoRules.

#[export] Hint Resolve keeps_ret keeps_gets keeps_panic keeps_deref keeps_bind
  keeps_when keeps_for_each : gton.

(** *** Inversion of a run *)

Lemma bind_inv {S A B} (m : Go S A) (k : A -> Go S B) s b s'' :
  bind m k s = Some (b, s'') -> exists a s', m s = Some (a, s') /\ k a s' = Some (b, s'').
Proof. unfold bind. destruct (m s) as [[a s']|]; [|done]. eauto. Qed.

Lemma bind_ext {S A B} (m : Go S A) (k k' : A -> Go S B) s :
  (forall a s', m s = Some (a, s') -> k a s' = k' a s') -> bind m k s = bind m k' s.
Proof. unfold bind. destruct (m s) as [[a s']|]; [|done]. auto. Qed.

Lemma deref_inv {S A} (o : option A) (s : S) a s' : deref o s = Some (a, s') -> o = Some a /\ s' = s.
Proof. destruct o; [|done]. by intros [= <- <-]. Qed.

Lemma ptriple_bind {S A B} (P : S -> Prop) (m : Go S A) (k : A -> Go S B) Q' Q :
  ptriple P m Q' -> (forall a, ptriple (Q' a) (k a) Q) -> ptriple P (bind m k) Q.
Proof. intros Hm Hk s b s'' Hs (a & s' & E & E')%bind_inv. eapply Hk; [by eapply Hm|done]. Qed.

Lemma ptriple_for_each {S A} (I : S -> Prop) (l : list A) body :
  (forall a, a ∈ l -> ptriple I (body a) (fun _ => I)) -> ptriple I (for_each l body) (fun _ => I).
Proof.
  induction l as [|a l IH]; intros Hb s u s' Hs; simpl; [by intros [= <- <-]|].
  intros (? & s1 & E1 & E2)%bind_inv. apply IH in E2; [done| |].
  - intros y Hy. apply Hb. by right.
  - eapply Hb; [left|done|done].
Qed.

(** An invariant indexed by the elements already visited. *)
Lemma ptriple_for_each_prefix {S A} (I : list A -> S -> Prop) (l : list A) body :
  (forall P x R, l = P ++ x :: R -> ptriple (I P) (body x) (fun _ => I (P ++ [x]))) ->
  ptriple (I []) (for_each l body) (fun _ => I l).
Proof.
  intros Hb. cut (forall R P, l = P ++ R -> ptriple (I P) (for_each R body) (fun _ => I l)).
  { intros Hc. by apply Hc. }
  induction R as [|x R IH]; intros P E s u s' Hs; simpl.
  - rewrite app_nil_r in E. subst. by intros [= <- <-].
  - intros (? & s1 & E1 & E2)%bind_inv. eapply (IH (P ++ [x])); [by rewrite E, <- app_assoc| |exact E2].
    by eapply Hb.
Qed.

(** *** Total runs

    [wp m s Q]: from [s], [m] does not panic and ends in [Q]; the rules execute
    [m] step by step. *)

Definition wp {S A} (m : Go S A) (s : S) (Q : A -> S -> Prop) : Prop :=
  exists a s', m s = Some (a, s') /\ Q a s'.

Section TotalRules.
Context {S : Type}.

Lemma wp_ret {A} (a : A) (s : S) (Q : A -> S -> Prop) : Q a s -> wp (ret a) s Q.
Proof. by exists a, s. Qed.
Lemma wp_bind {A B} (m : Go S A) (k : A -> Go S B) s (Q : B -> S -> Prop) :
  wp m s (fun a s' => wp (k a) s' Q) -> wp (bind m k) s Q.
Proof. intros (a & s' & E & b & s'' & E' & HQ). exists b, s''. unfold bind. by rewrite E. Qed.
Lemma wp_gets {A} (f : S -> A) (s : S) (Q : A -> S -> Prop) : Q (f s) s -> wp (gets f) s Q.
Proof. by exists (f s), s. Qed.
Lemma wp_modify (f : S -> S) s (Q : unit -> S -> Prop) : Q tt (f s) -> wp (modify f) s Q.
Proof. by exists tt, (f s). Qed.
Lemma wp_deref {A} (o : option A) a (s : S) (Q : A -> S -> Prop) : o = Some a -> Q a s -> wp (deref o) s Q.
Proof. intros -> HQ. by apply wp_ret. Qed.
Lemma wp_when b (m : Go S unit) s (Q : unit -> S -> Prop) :
  (b = true -> wp m s Q) -> (b = false -> Q tt s) -> wp (when b m) s Q.
Proof. destruct b; intros H1 H2; [by apply H1|by apply wp_ret, H2]. Qed.
Lemma wp_mono {A} (m : Go S A) s (Q Q' : A -> S -> Prop) :
  wp m s Q -> (forall a s', Q a s' -> Q' a s') -> wp m s Q'.
Proof. intros (a & s' & E & HQ) H. exists a, s'. auto. Qed.
Lemma wp_bind_assoc {A B C} (m : Go S A) (k : A -> Go S B) (k' : B -> Go S C) s b s' (Q : C -> S -> Prop) :
  bind m k s = Some (b, s') -> wp (k' b) s' Q -> wp (bind m (fun a => bind (k a) k')) s Q.
Proof.
  unfold bind at 1. destruct (m s) as [[a s1]|] eqn:E; [|done]. intros Ek (c & s2 & E2 & HQ). exists c, s2.
  unfold bind. rewrite E, Ek. auto.
Qed.
Lemma wp_for_each {A} (I : S -> Prop) (l : list A) body s :
  (forall a s, a ∈ l -> I s -> wp (body a) s (fun _ => I)) -> I s -> wp (for_each l body) s (fun _ => I).
Proof.
  revert s. induction l as [|a l IH]; simpl; intros s Hb Hs; [by apply wp_ret|].
  apply wp_bind. eapply wp_mono; [apply Hb; [left|done]|]. intros ? s' Hs'. apply IH; [|done].
  intros b s1 Hin. apply Hb. by right.
Qed.
End TotalRules.

(** Splits the successful runs among the hypotheses into their steps. *)
Ltac run_step :=
  match goal with
  | H : bind _ _ _ = Some _ |- _ =>
      let x := fresh "x" in let s := fresh "e" in let E := fresh "E" in
      apply bind_inv in H as (x & s & E & H)
  | H : ret _ _ = Some _ |- _ => unfold ret in H; injection H as ? ?; subst
  | H : gets _ _ = Some _ |- _ => unfold gets in H; injection H as ? ?; subst
  | H : modify _ _ = Some _ |- _ => unfold modify in H; injection H as ? ?; subst
  | H : deref _ _ = Some _ |- _ =>
      let E := fresh "E" in apply deref_inv in H as [E ?]; subst
  | H : panic _ = Some _ |- _ => discriminate H
  end.
Ltac run_inv := repeat run_step.

(** ** Struct field assignment

    [r <| f := v |>] is [r] with field [f] assigned [v].  A struct declares its
    eta expansion once; the assignment of each field is derived from it. *)

Class Eta (R : Type) := eta_expand : R -> R.

Class Setter {R T : Type} (proj : R -> T) := assign : T -> R -> R.

Ltac derive_setter :=
  match goal with
  | |- @Setter ?R ?T ?p =>
      let v := fresh "v" in
      let r := fresh "r" in
      intros v r;
      let H := constr:(_ : Eta R) in
      let e := eval red in (H r) in
      match eval pattern (p r) in e with
      | ?F _ => let t := eval cbv beta in (F v) in exact t
      end
  end.

#[export] Hint Extern 0 (Setter _) => derive_setter : typeclass_instances.

Notation "r <| f := v |>" := (@assign _ _ f _ v r)
  (at level 12, left associativity, f at level 8, v at level 200) : go_scope.

(** ** 64-bit masks and bit counts ([math/bits]) *)

Fixpoint pos_ctz (p : positive) : Z :=
  match p with
  | xO q => 1 + pos_ctz q
  | _ => 0
  end.

(** [bits.TrailingZeros64] and [bits.LeadingZeros64] of a [uint64]. *)
Definition TrailingZeros64 (x : Z) : Z :=
  match x with Zpos p => pos_ctz p | _ => 64 end.
Definition LeadingZeros64 (x : Z) : Z :=
  match x with Zpos _ => 63 - Z.log2 x | _ => 64 end.

(** [^uint64(0) << k] for a shift count below 64. *)
Definition high_mask (k : Z) : Z := u64 (Z.shiftl (2 ^ 64 - 1) k).
(** Two's complement negation of a [uint64]. *)
Definition neg64 (x : Z) : Z := u64 (- x).

Lemma pos_ctz_nonneg p : 0 <= pos_ctz p.
Proof. induction p; simpl; lia. Qed.

Lemma pos_ctz_decomp p : exists q, 0 <= q /\ Zpos p = (2 * q + 1) * 2 ^ pos_ctz p.
Proof.
  induction p as [p _|p (q & Hq & IH)|].
  - exists (Zpos p). split; [lia|]. simpl pos_ctz. rewrite Z.pow_0_r. lia.
  - exists q. split; [done|]. cbn [pos_ctz].
    pose proof (pos_ctz_nonneg p). rewrite Z.pow_add_r, Pos2Z.inj_xO by lia. lia.
  - exists 0. split; [lia|]. simpl. lia.
Qed.

(** A positive number is an odd number times its lowest set bit. *)
Lemma TrailingZeros64_decomp x :
  0 < x -> exists q, 0 <= q /\ 0 <= TrailingZeros64 x /\
    x = (2 * q + 1) * 2 ^ TrailingZeros64 x.
Proof.
  intros H. destruct x as [|p|p]; try lia.
  destruct (pos_ctz_decomp p) as (q & Hq & E). exists q.
  split_and!; auto. apply pos_ctz_nonneg.
Qed.

Lemma odd_pow2_inj q q' k k' :
  0 <= k -> 0 <= k' -> (2 * q + 1) * 2 ^ k = (2 * q' + 1) * 2 ^ k' -> k = k' /\ q = q'.
Proof.
  intros Hk Hk' E.
  assert (forall a b i j, 0 <= i -> i < j -> (2 * a + 1) * 2 ^ i <> (2 * b + 1) * 2 ^ j) as Hlt.
  { intros a b i j Hi Hij. replace j with ((j - i - 1) + 1 + i) by lia.
    rewrite !Z.pow_add_r by lia. intros H.
    assert (2 * a + 1 = (2 * b + 1) * (2 ^ (j - i - 1) * 2 ^ 1)); [|lia].
    apply (Z.mul_cancel_r _ _ (2 ^ i)); [lia|]. nia. }
  destruct (Z.lt_trichotomy k k') as [H|[->|H]].
  - by apply Hlt in E.
  - split; [done|]. apply Z.mul_cancel_r in E; lia.
  - symmetry in E. by apply Hlt in E.
Qed.

Lemma TrailingZeros64_unique x q k :
  0 <= q -> 0 <= k -> x = (2 * q + 1) * 2 ^ k -> TrailingZeros64 x = k.
Proof.
  intros Hq Hk ->. assert (0 < (2 * q + 1) * 2 ^ k) by (apply Z.mul_pos_pos; lia).
  destruct (TrailingZeros64_decomp ((2 * q + 1) * 2 ^ k)) as (q' & Hq' & Ht & E); auto.
  symmetry. by eapply odd_pow2_inj in E as [? _].
Qed.

Lemma TrailingZeros64_lt x : 0 < x < 2 ^ 64 -> 0 <= TrailingZeros64 x <= 63.
Proof.
  intros H. destruct (TrailingZeros64_decomp x) as (q & Hq & Ht & E); [lia|].
  split; [done|]. destruct (Z.le_gt_cases (TrailingZeros64 x) 63) as [|Hgt]; [done|].
  assert (2 ^ 64 <= 2 ^ TrailingZeros64 x) by (apply Z.pow_le_mono_r; lia). nia.
Qed.

Lemma high_mask_land x k :
  0 <= x < 2 ^ 64 -> 0 <= k <= 64 -> Z.land x (high_mask k) = x / 2 ^ k * 2 ^ k.
Proof.
  intros Hx Hk. unfold high_mask, u64.
  rewrite <- Z.land_ones, Z.land_assoc by lia.
  rewrite <- Z.shiftr_div_pow2, <- Z.shiftl_mul_pow2 by lia.
  apply Z.bits_inj'. intros i Hi. rewrite !Z.land_spec.
  rewrite Z.shiftl_spec, Z.testbit_ones_nonneg by lia.
  rewrite (Z.shiftl_spec (Z.shiftr x k)) by lia.
  replace (2 ^ 64 - 1) with (Z.ones 64) by (rewrite Z.ones_equiv; lia).
  destruct (Z.ltb_spec i k).
  - rewrite (Z.testbit_neg_r _ (i - k)), (Z.testbit_neg_r (Z.shiftr x k)) by lia.
    by rewrite andb_false_r, andb_false_l.
  - rewrite Z.shiftr_spec by lia. replace (i - k + k) with i by lia.
    destruct (Z.ltb_spec i 64).
    + rewrite Z.testbit_ones_nonneg by lia. rewrite (proj2 (Z.ltb_lt (i - k) 64)) by lia.
      by rewrite !andb_true_r.
    + rewrite <- (Z.mod_small x (2 ^ 64)), Z.mod_pow2_bits_high by lia.
      by rewrite !andb_false_l.
Qed.

(** ** Fallible code: a Go [(A, error)] pair *)

Inductive result (E A : Type) : Type :=
| Ok (a : A)
| Err (err : E).
Arguments Ok {E A} a.
Arguments Err {E A} err.

#[export] Instance Ok_inj {E A} : Inj (=) (=) (@Ok E A).
Proof. by intros a b [= ->]. Qed.

Definition and_then {E A B} (r : result E A) (k : A -> result E B) : result E B :=
  match r with Ok a => k a | Err e => Err e end.

Notation "'try' x := r 'in' k" := (and_then r (fun x => k))
  (at level 100, x pattern, r at level 100, k at level 200) : go_scope.

Definition is_ok {E A} (r : result E A) : bool :=
  match r with Ok _ => true | Err _ => false end.

(** [x & -x] isolates the lowest set bit. *)
Lemma lowest_bit q k :
  0 <= q -> 0 <= k -> (2 * q + 1) * 2 ^ k < 2 ^ 64 ->
  Z.land ((2 * q + 1) * 2 ^ k) (neg64 ((2 * q + 1) * 2 ^ k)) = 2 ^ k.
Proof.
  intros Hq Hk Hx. set (x := (2 * q + 1) * 2 ^ k) in *.
  assert (0 < 2 ^ k) by lia. assert (0 < x) by (subst x; nia).
  unfold neg64, u64. rewrite <- Z.land_ones, (Z.land_comm (- x)), Z.land_assoc by lia.
  rewrite Z.land_ones, Z.mod_small by lia.
  apply Z.bits_inj'. intros i Hi. rewrite Z.land_spec.
  replace (- x) with (Z.lnot (x - 1)) by (unfold Z.lnot; lia).
  rewrite Z.lnot_spec, Z.pow2_bits_eqb by lia.
  destruct (Z.ltb_spec i k) as [Hlt|Hge].
  { subst x. rewrite Z.mul_pow2_bits_low by lia. symmetry. apply Z.eqb_neq. lia. }
  subst x. rewrite Z.mul_pow2_bits by lia.
  replace (Z.testbit ((2 * q + 1) * 2 ^ k - 1) i) with (Z.testbit (2 * q) (i - k)).
  2:{ replace i with ((i - k) + k) at 2 by lia. rewrite <- Z.div_pow2_bits by lia. f_equal.
      apply Z.div_unique with (2 ^ k - 1); lia. }
  destruct (Z.eqb_spec k i) as [->|Hne].
  - by rewrite Z.sub_diag, Z.testbit_odd_0, Z.testbit_even_0.
  - replace (i - k) with (Z.succ (i - k - 1)) by lia.
    rewrite Z.testbit_odd_succ, Z.testbit_even_succ by lia. apply andb_negb_r.
Qed.

(** A mask with the low [k] bits clear, joined with bit [k - 1]. *)
Lemma lor_tag a k : 0 < k -> Z.lor (a * 2 ^ k) (2 ^ (k - 1)) = (2 * a + 1) * 2 ^ (k - 1).
Proof.
  intros Hk. apply Z.bits_inj'. intros i Hi. rewrite Z.lor_spec, Z.pow2_bits_eqb by lia.
  replace (a * 2 ^ k) with (2 * a * 2 ^ (k - 1)).
  2:{ replace k with (1 + (k - 1)) at 2 by lia. rewrite Z.pow_add_r by lia. lia. }
  rewrite !Z.mul_pow2_bits by lia.
  destruct (Z.eqb_spec (k - 1) i) as [<-|].
  - by rewrite Z.sub_diag, Z.testbit_odd_0, orb_true_r.
  - rewrite orb_false_r. destruct (Z.ltb_spec i (k - 1)).
    + by rewrite !Z.testbit_neg_r by lia.
    + replace (i - (k - 1)) with (Z.succ (i - (k - 1) - 1)) by lia.
      by rewrite Z.testbit_odd_succ, Z.testbit_even_succ by lia.
Qed.

#[global] Arguments le_put : simpl never.
#[global] Arguments le_get : simpl never.
#[global] Arguments u32 : simpl never.
#[global] Arguments u64 : simpl never.
#[global] Arguments i32 : simpl never.
#[global] Arguments i64 : simpl never.
