(* ===== verification/ShardId.v ===== *)
(** * Shard prefixes ([src/service/shard/shard.go])

    A shard identifier is a 64-bit word: [d] prefix bits, a tag bit, zeros.  The
    module translates every function of the package on [int64] identifiers and
    relates each to the pair (depth, prefix) the word encodes. *)

From S2P Require Import Prelude.

#[local] Open Scope Z_scope.
#[local] Open Scope go_scope.

Module Shard.

Definition MaxPrefixLength : Z := 63.
Definition Root : Z := - 2 ^ 63.

Inductive error :=
| ErrInvalidID | ErrInvalidDepth | ErrCannotSplitID | ErrRootHasNoParent.

Definition Validate (id : Z) : result error unit :=
  if id =? 0 then Err ErrInvalidID else Ok tt.

Definition prefixLength (id : Z) : Z := u32 (63 - TrailingZeros64 id).

Definition PrefixLength (id : Z) : result error Z :=
  try _ := Validate id in Ok (prefixLength (u64 id)).

Definition Intersects (left right : Z) : bool :=
  if (left =? 0) || (right =? 0) then false else
  let leftValue := u64 left in
  let rightValue := u64 right in
  let rightDepth := prefixLength rightValue in
  let depth := if rightDepth <? prefixLength leftValue then rightDepth
               else prefixLength leftValue in
  if depth =? 0 then true else
  let mask := high_mask (64 - depth) in
  Z.land leftValue mask =? Z.land rightValue mask.

Definition IsNeighbor (leftWorkchain left rightWorkchain right : Z) : bool :=
  if (left =? 0) || (right =? 0) then false else
  if ((leftWorkchain =? -1) && (left =? Root)) || ((rightWorkchain =? -1) && (right =? Root))
  then true else
  let leftValue := u64 left in
  let rightValue := u64 right in
  let leftLowest := Z.land leftValue (neg64 leftValue) in
  let rightLowest := Z.land rightValue (neg64 rightValue) in
  let maskBoundary := u64 (Z.shiftl (Z.max leftLowest rightLowest) 1) in
  let difference := Z.land (Z.lxor leftValue rightValue) (neg64 maskBoundary) in
  if difference =? 0 then true else
  if negb (leftWorkchain =? rightWorkchain) then false else
  let leadingGroups := Z.shiftr (LeadingZeros64 difference) 2 in
  let trailingGroups := Z.shiftr (TrailingZeros64 difference) 2 in
  leadingGroups + trailingGroups =? 15.

Definition Contains (parent child : Z) : bool :=
  if (parent =? 0) || (child =? 0) then false else
  let parentValue := u64 parent in
  let childValue := u64 child in
  let parentDepth := prefixLength parentValue in
  if prefixLength childValue <? parentDepth then false else
  if parentDepth =? 0 then true else
  let mask := high_mask (64 - parentDepth) in
  Z.land parentValue mask =? Z.land childValue mask.

Definition Child (parent : Z) (left : bool) : result error Z :=
  try _ := Validate parent in
  let value := u64 parent in
  let step := Z.shiftr (Z.land value (neg64 value)) 1 in
  if step =? 0 then Err ErrCannotSplitID else
  if left then Ok (i64 (u64 (value - step))) else Ok (i64 (u64 (value + step))).

Definition IsDirectChild (parent child : Z) : bool :=
  if (parent =? 0) || (child =? 0) then false else
  (prefixLength (u64 child) =? prefixLength (u64 parent) +₃₂ 1) && Contains parent child.

Definition Ancestor (id depth : Z) : result error Z :=
  try idDepth := PrefixLength id in
  if idDepth <? depth then Err ErrInvalidDepth else
  if depth =? 0 then Ok Root else
  let value := u64 id in
  let mask := high_mask (64 - depth) in
  Ok (i64 (Z.lor (Z.land value mask) (Z.shiftl 1 (63 - depth)))).

Definition Parent (id : Z) : result error Z :=
  try depth := PrefixLength id in
  if depth =? 0 then Err ErrRootHasNoParent else Ancestor id (depth -₃₂ 1).

Definition FromAccountPrefix (prefix depth : Z) : result error Z :=
  if MaxPrefixLength <? depth then Err ErrInvalidDepth else
  if depth =? 0 then Ok Root else
  let marker := Z.shiftl 1 (63 - depth) in
  Ok (i64 (Z.lor (Z.land prefix (2 ^ 64 - 1 - u64 (marker - 1))) marker)).

Definition Prefix (id splitDepth : Z) : result error Z :=
  try _ := Validate id in
  if MaxPrefixLength <? splitDepth then Err ErrInvalidDepth else
  if splitDepth =? 0 then Ok id else
  let value := Z.lor (u64 id) 1 in
  if splitDepth =? MaxPrefixLength then Ok (i64 value) else
  let mask := high_mask (64 - splitDepth) in
  Ok (i64 (Z.lor (Z.land value mask) (Z.shiftl 1 (63 - splitDepth)))).

(** ** The encoded pair *)

Definition encode (d p : Z) : Z := (2 * p + 1) * 2 ^ (63 - d).
Definition wf (d p : Z) : Prop := 0 <= d <= 63 /\ 0 <= p < 2 ^ d.

Lemma encode_range d p : wf d p -> 0 < encode d p < 2 ^ 64.
Proof.
  unfold wf, encode. intros [Hd Hp].
  assert (2 ^ 64 = 2 * 2 ^ d * 2 ^ (63 - d)) as E.
  { replace 64 with (1 + d + (63 - d)) by lia. by rewrite !Z.pow_add_r by lia. }
  assert (0 < 2 ^ (63 - d)) by lia. nia.
Qed.

Lemma decode id :
  is_i64 id -> id <> 0 -> exists d p, wf d p /\ u64 id = encode d p.
Proof.
  intros Hid Hnz. pose proof (u64_range id) as Hr. unfold is_u64 in Hr.
  assert (0 < u64 id) as Hpos.
  { assert (u64 id <> 0); [|lia]. intros E. apply Hnz.
    rewrite <- (i64_u64 id), E by done. reflexivity. }
  destruct (TrailingZeros64_decomp (u64 id)) as (q & Hq & Ht & E); [lia|].
  pose proof (TrailingZeros64_lt (u64 id)).
  exists (63 - TrailingZeros64 (u64 id)), q. unfold wf, encode.
  replace (63 - (63 - TrailingZeros64 (u64 id))) with (TrailingZeros64 (u64 id)) by lia.
  split_and!; auto; try lia.
  assert (2 ^ 64 = 2 * 2 ^ (63 - TrailingZeros64 (u64 id)) * 2 ^ TrailingZeros64 (u64 id)) as E2.
  { replace 64 with (1 + (63 - TrailingZeros64 (u64 id)) + TrailingZeros64 (u64 id)) at 1 by lia.
    by rewrite !Z.pow_add_r by lia. }
  assert (0 < 2 ^ TrailingZeros64 (u64 id)) by lia. nia.
Qed.

Lemma encode_inj d p d' p' :
  wf d p -> wf d' p' -> encode d p = encode d' p' -> d = d' /\ p = p'.
Proof.
  unfold wf, encode. intros [? _] [? _] E.
  apply odd_pow2_inj in E as [? ?]; lia.
Qed.

(** ** Operations on the encoded pair *)

Lemma prefixLength_encode d p : wf d p -> prefixLength (encode d p) = d.
Proof.
  intros [Hd Hp]. unfold prefixLength.
  rewrite (TrailingZeros64_unique _ p (63 - d)); unfold encode; try lia.
  replace (63 - (63 - d)) with d by lia. apply u32_small. unfold is_u32. lia.
Qed.

Lemma encode_div d d' p' :
  wf d' p' -> 0 <= d <= d' -> encode d' p' / 2 ^ (64 - d) = p' / 2 ^ (d' - d).
Proof.
  intros [Hd' Hp'] Hd. unfold encode.
  replace (64 - d) with ((63 - d') + (1 + (d' - d))) by lia.
  rewrite Z.pow_add_r, <- Z.div_div, Z.div_mul by lia.
  rewrite Z.pow_add_r, <- Z.div_div by lia.
  f_equal. change (2 ^ 1) with 2. rewrite (Z.mul_comm 2), Z.div_add_l by lia.
  change (1 / 2) with 0. lia.
Qed.

Lemma masked_eq x y k :
  is_u64 x -> is_u64 y -> 0 <= k <= 64 ->
  (Z.land x (high_mask k) =? Z.land y (high_mask k)) = (x / 2 ^ k =? y / 2 ^ k).
Proof.
  unfold is_u64. intros. rewrite !high_mask_land by lia.
  apply eq_true_iff_eq. rewrite !Z.eqb_eq. split; [|congruence].
  intros E. apply Z.mul_cancel_r in E; lia.
Qed.

(** [under d p d' p']: the first [d] prefix bits of [(d', p')] are [p]. *)
Definition under (d p d' p' : Z) : bool := (d <=? d') && (p =? p' / 2 ^ (d' - d)).

Lemma under_refl d p : under d p d p = true.
Proof.
  unfold under. rewrite Z.leb_refl, Z.sub_diag, Z.pow_0_r, Z.div_1_r. apply Z.eqb_refl.
Qed.

Lemma under_trans d p d' p' d'' p'' :
  under d p d' p' = true -> under d' p' d'' p'' = true -> under d p d'' p'' = true.
Proof.
  unfold under. rewrite !andb_true_iff, !Z.leb_le, !Z.eqb_eq. intros [? ->] [? ->].
  split; [lia|]. rewrite Z.div_div, <- Z.pow_add_r by lia. do 2 f_equal; lia.
Qed.

Lemma under_antisym d p d' p' :
  under d p d' p' = true -> under d' p' d p = true -> d = d' /\ p = p'.
Proof.
  unfold under. rewrite !andb_true_iff, !Z.leb_le, !Z.eqb_eq. intros [? E] [? _].
  assert (d = d') as -> by lia. split; [done|].
  rewrite Z.sub_diag, Z.pow_0_r, Z.div_1_r in E. done.
Qed.

(** The ids below relate a Go [int64] to its pair. *)
Definition denotes (id d p : Z) : Prop := is_i64 id /\ wf d p /\ u64 id = encode d p.

Lemma denotes_nz id d p : denotes id d p -> id =? 0 = false.
Proof.
  intros (_ & Hw & E). apply Z.eqb_neq. intros ->. apply encode_range in Hw.
  unfold u64 in E. rewrite Z.mod_0_l in E by lia. lia.
Qed.

Lemma denotes_exists id : is_i64 id -> id <> 0 -> exists d p, denotes id d p.
Proof. intros Hi Hn. destruct (decode id Hi Hn) as (d & p & ? & ?). by exists d, p. Qed.

Lemma denotes_inj id id' d p : denotes id d p -> denotes id' d p -> id = id'.
Proof.
  intros (H & _ & E) (H' & _ & E'). rewrite <- (i64_u64 id), <- (i64_u64 id') by done.
  congruence.
Qed.

Lemma denotes_fun id d p d' p' : denotes id d p -> denotes id d' p' -> d = d' /\ p = p'.
Proof. intros (_ & H & E) (_ & H' & E'). apply encode_inj; auto. congruence. Qed.

Lemma denotes_i64 d p : wf d p -> denotes (i64 (encode d p)) d p.
Proof.
  intros H. split_and!; auto using i64_range. apply u64_i64.
  apply encode_range in H. unfold is_u64. lia.
Qed.

Lemma denotes_root : denotes Root 0 0.
Proof. split_and!; unfold is_i64, wf, Root; try lia. reflexivity. Qed.

Lemma PrefixLength_denotes id d p : denotes id d p -> PrefixLength id = Ok d.
Proof.
  intros H. pose proof (denotes_nz _ _ _ H) as Hz. destruct H as (_ & Hw & E).
  unfold PrefixLength, Validate. rewrite Hz, E. simpl. by rewrite prefixLength_encode.
Qed.

Lemma encode_u64 d p : wf d p -> is_u64 (encode d p).
Proof. intros H%encode_range. unfold is_u64. lia. Qed.

Lemma Contains_denotes id d p id' d' p' :
  denotes id d p -> denotes id' d' p' -> Contains id id' = under d p d' p'.
Proof.
  intros H H'. unfold Contains.
  rewrite (denotes_nz _ _ _ H), (denotes_nz _ _ _ H'). simpl.
  destruct H as (_ & Hw & ->), H' as (_ & Hw' & ->).
  rewrite !prefixLength_encode by done. unfold under. rewrite (Z.leb_antisym d' d).
  destruct (Z.ltb_spec d' d); simpl; [done|].
  pose proof Hw as [Hd Hp]. destruct (Z.eqb_spec d 0) as [->|].
  - symmetry. apply Z.eqb_eq. rewrite Z.sub_0_r. destruct Hw' as [? ?].
    rewrite Z.div_small; lia.
  - rewrite masked_eq by (try apply encode_u64; auto; lia).
    rewrite !encode_div by (auto; lia). by rewrite Z.sub_diag, Z.pow_0_r, Z.div_1_r.
Qed.

Lemma Intersects_denotes id d p id' d' p' :
  denotes id d p -> denotes id' d' p' ->
  Intersects id id' = under d p d' p' || under d' p' d p.
Proof.
  intros H H'. unfold Intersects.
  rewrite (denotes_nz _ _ _ H), (denotes_nz _ _ _ H'). simpl.
  destruct H as (_ & Hw & ->), H' as (_ & Hw' & ->).
  rewrite !prefixLength_encode by done.
  set (m := if d' <? d then d' else d).
  assert (0 <= m <= d /\ m <= d' /\ m <= 63) as Hm.
  { subst m. destruct Hw, Hw'. destruct (Z.ltb_spec d' d); lia. }
  assert ((if m =? 0 then true else Z.land (encode d p) (high_mask (64 - m)) =?
            Z.land (encode d' p') (high_mask (64 - m))) =
          (p / 2 ^ (d - m) =? p' / 2 ^ (d' - m))) as ->.
  { destruct (Z.eqb_spec m 0) as [Hm0|].
    - rewrite Hm0, !Z.sub_0_r. symmetry. apply Z.eqb_eq.
      destruct Hw as [_ ?], Hw' as [_ ?]. rewrite !Z.div_small; lia.
    - rewrite masked_eq by (try apply encode_u64; auto; lia). by rewrite !encode_div by (auto; lia). }
  unfold under. subst m. destruct (Z.ltb_spec d' d).
  - rewrite (proj2 (Z.leb_gt d d')), (proj2 (Z.leb_le d' d)) by lia. simpl.
    rewrite Z.sub_diag, Z.pow_0_r, Z.div_1_r. apply Z.eqb_sym.
  - rewrite (proj2 (Z.leb_le d d')), Z.sub_diag, Z.pow_0_r, Z.div_1_r by lia. simpl.
    destruct (Z.leb_spec d' d); simpl; [|by rewrite orb_false_r].
    assert (d = d') as -> by lia. rewrite Z.sub_diag, Z.pow_0_r, !Z.div_1_r.
    rewrite (Z.eqb_sym p' p). by rewrite orb_diag.
Qed.

Lemma wf_child d p b : wf d p -> d < 63 -> wf (d + 1) (2 * p + Z.b2z b).
Proof. intros [? ?] ?. unfold wf. rewrite Z.pow_add_r by lia. destruct b; simpl; lia. Qed.

(** Descending left appends a 0 bit to the prefix, descending right a 1 bit. *)
Lemma Child_denotes id d p left :
  denotes id d p ->
  if d =? 63 then Child id left = Err ErrCannotSplitID
  else exists c, Child id left = Ok c /\ denotes c (d + 1) (2 * p + Z.b2z (negb left)).
Proof.
  intros H. pose proof (denotes_nz _ _ _ H) as Hz. destruct H as (_ & Hw & E).
  unfold Child, Validate. rewrite Hz, E. simpl and_then.
  pose proof Hw as [Hd Hp]. pose proof (encode_range _ _ Hw) as Hr.
  unfold encode in Hr |- *. rewrite lowest_bit by lia.
  rewrite Z.shiftr_div_pow2 by lia. change (2 ^ 1) with 2.
  destruct (Z.eqb_spec d 63) as [->|Hne]; [reflexivity|].
  replace (2 ^ (63 - d) / 2) with (2 ^ (63 - (d + 1))).
  2:{ replace (63 - d) with (1 + (63 - (d + 1))) by lia.
      rewrite Z.pow_add_r, Z.mul_comm, Z.div_mul by lia. done. }
  assert (2 ^ (63 - d) = 2 * 2 ^ (63 - (d + 1))) as E2.
  { replace (63 - d) with (1 + (63 - (d + 1))) by lia. by rewrite Z.pow_add_r by lia. }
  assert (0 < 2 ^ (63 - (d + 1))) by lia.
  rewrite (proj2 (Z.eqb_neq _ 0)) by lia.
  pose proof (wf_child d p (negb left) Hw ltac:(lia)) as Hc.
  pose proof (encode_u64 _ _ Hc) as Hcr. exists (i64 (encode (d + 1) (2 * p + Z.b2z (negb left)))).
  split; [|by apply denotes_i64].
  rewrite E2. destruct left; simpl; f_equal; f_equal; unfold encode in *; simpl in *;
    (etransitivity; [|apply u64_small, Hcr]); f_equal; lia.
Qed.

Lemma Ancestor_denotes id d p depth :
  denotes id d p -> 0 <= depth ->
  if d <? depth then Ancestor id depth = Err ErrInvalidDepth
  else exists a, Ancestor id depth = Ok a /\ denotes a depth (p / 2 ^ (d - depth)).
Proof.
  intros H Hdep. unfold Ancestor. rewrite (PrefixLength_denotes _ _ _ H). simpl.
  destruct H as (_ & Hw & E). pose proof Hw as [Hd Hp].
  destruct (Z.ltb_spec d depth); [done|].
  destruct (Z.eqb_spec depth 0) as [->|].
  { exists Root. split; [done|]. rewrite Z.sub_0_r, Z.div_small by lia. apply denotes_root. }
  pose proof (encode_range _ _ Hw).
  rewrite E, high_mask_land, encode_div by (auto; lia).
  replace (63 - depth) with (64 - depth - 1) by lia.
  rewrite Z.shiftl_1_l, lor_tag by lia.
  eexists. split; [done|]. replace (64 - depth - 1) with (63 - depth) by lia.
  apply denotes_i64. split; [lia|]. split; [apply Z.div_pos; lia|].
  apply Z.div_lt_upper_bound; [lia|]. rewrite <- Z.pow_add_r by lia.
  replace (d - depth + depth) with d by lia. lia.
Qed.

Lemma FromAccountPrefix_denotes x depth :
  is_u64 x -> 0 <= depth <= 63 ->
  exists a, FromAccountPrefix x depth = Ok a /\ denotes a depth (x / 2 ^ (64 - depth)).
Proof.
  unfold is_u64. intros Hx Hd. unfold FromAccountPrefix, MaxPrefixLength.
  rewrite (proj2 (Z.ltb_ge 63 depth)) by lia.
  destruct (Z.eqb_spec depth 0) as [->|].
  { exists Root. split; [done|]. rewrite Z.div_small by lia. apply denotes_root. }
  rewrite Z.shiftl_1_l.
  assert (2 ^ (63 - depth) <= 2 ^ 63) by (apply Z.pow_le_mono_r; lia).
  rewrite u64_small by (unfold is_u64; lia).
  replace (Z.land x (2 ^ 64 - 1 - (2 ^ (63 - depth) - 1))) with (Z.land x (high_mask (63 - depth))).
  2:{ f_equal. unfold high_mask, u64. rewrite Z.shiftl_mul_pow2 by lia.
      replace ((2 ^ 64 - 1) * 2 ^ (63 - depth))
        with (2 ^ 64 - 2 ^ (63 - depth) + (2 ^ (63 - depth) - 1) * 2 ^ 64) by lia.
      rewrite Z_mod_plus_full, Z.mod_small; lia. }
  rewrite high_mask_land by lia.
  eexists. split; [done|].
  replace (Z.lor _ _) with (encode depth (x / 2 ^ (64 - depth))).
  2:{ unfold encode. apply Z.bits_inj'. intros i Hi.
      rewrite Z.lor_spec, Z.pow2_bits_eqb, !Z.mul_pow2_bits by lia.
      replace (64 - depth) with (1 + (63 - depth)) by lia.
      destruct (Z.ltb_spec i (63 - depth)).
      { rewrite !(Z.testbit_neg_r _ (i - _)) by lia. symmetry. apply Z.eqb_neq. lia. }
      destruct (Z.eqb_spec (63 - depth) i) as [<-|].
      { rewrite Z.sub_diag, Z.testbit_odd_0. by rewrite orb_true_r. }
      replace (i - (63 - depth)) with (Z.succ (i - (63 - depth) - 1)) at 1 by lia.
      rewrite Z.testbit_odd_succ, orb_false_r, !Z.div_pow2_bits by lia. f_equal. lia. }
  apply denotes_i64. split; [lia|]. split; [apply Z.div_pos; lia|].
  apply Z.div_lt_upper_bound; [lia|]. rewrite <- Z.pow_add_r by lia.
  replace (64 - depth + depth) with 64 by lia. lia.
Qed.

Lemma Parent_denotes id d p :
  denotes id d p ->
  if d =? 0 then Parent id = Err ErrRootHasNoParent
  else exists a, Parent id = Ok a /\ denotes a (d - 1) (p / 2).
Proof.
  intros H. unfold Parent. rewrite (PrefixLength_denotes _ _ _ H). simpl.
  destruct (Z.eqb_spec d 0) as [->|]; [done|].
  pose proof H as (_ & [Hd _] & _). rewrite u32_small by (unfold is_u32; lia).
  pose proof (Ancestor_denotes _ _ _ (d - 1) H ltac:(lia)) as HA.
  rewrite (proj2 (Z.ltb_ge d (d - 1))) in HA by lia.
  replace (d - (d - 1)) with 1 in HA by lia. exact HA.
Qed.

Lemma not_valid_contains a b : (a =? 0) || (b =? 0) = true -> Contains a b = false.
Proof. unfold Contains. by intros ->. Qed.

Lemma high_mask_neg k : 0 <= k < 64 -> neg64 (u64 (2 ^ k)) = high_mask k.
Proof.
  intros Hk. assert (0 < 2 ^ k < 2 ^ 64) by (split; [lia|apply Z.pow_lt_mono_r; lia]).
  rewrite u64_small by (unfold is_u64; lia).
  unfold neg64, high_mask, u64. rewrite Z.shiftl_mul_pow2 by lia.
  replace (- 2 ^ k) with ((2 ^ 64 - 2 ^ k) + (-1) * 2 ^ 64) by lia.
  replace ((2 ^ 64 - 1) * 2 ^ k) with ((2 ^ 64 - 2 ^ k) + (2 ^ k - 1) * 2 ^ 64) by lia.
  by rewrite !Z_mod_plus_full.
Qed.

Lemma lxor_div x y k : 0 <= k -> Z.lxor x y / 2 ^ k = Z.lxor (x / 2 ^ k) (y / 2 ^ k).
Proof. intros. rewrite <- !Z.shiftr_div_pow2 by lia. apply Z.shiftr_lxor. Qed.

Lemma lxor_u64 x y : is_u64 x -> is_u64 y -> is_u64 (Z.lxor x y).
Proof.
  unfold is_u64. intros Hx Hy. split; [apply Z.lxor_nonneg; lia|].
  destruct (Z.eq_dec (Z.lxor x y) 0) as [->|Hn]; [lia|].
  assert (0 < Z.lxor x y) by (pose proof (proj2 (Z.lxor_nonneg x y)); lia).
  apply Z.log2_lt_pow2; [done|].
  eapply Z.le_lt_trans; [apply Z.log2_lxor; lia|].
  apply Z.max_lub_lt; (destruct (Z.eq_dec x 0) as [->|]; destruct (Z.eq_dec y 0) as [->|];
    simpl; try lia; apply Z.log2_lt_pow2; lia).
Qed.

Lemma lowest_encode d p :
  wf d p -> Z.land (encode d p) (neg64 (encode d p)) = 2 ^ (63 - d).
Proof.
  intros Hw. pose proof (encode_range _ _ Hw). destruct Hw.
  unfold encode in *. apply lowest_bit; lia.
Qed.

(** The prefix bits above the shallower tag agree exactly when the shards
    intersect: this is the first test of [IsNeighbor]. *)
Lemma difference_zero d p d' p' :
  wf d p -> wf d' p' ->
  let x := encode d p in
  let y := encode d' p' in
  let boundary := u64 (Z.shiftl (Z.max (Z.land x (neg64 x)) (Z.land y (neg64 y))) 1) in
  Z.land (Z.lxor x y) (neg64 boundary) = 0 <-> under d p d' p' || under d' p' d p = true.
Proof.
  intros Hw Hw'. cbv zeta. pose proof Hw as [Hd Hp]. pose proof Hw' as [Hd' Hp'].
  pose proof (encode_range _ _ Hw) as Hr. pose proof (encode_range _ _ Hw') as Hr'.
  rewrite !lowest_encode by done.
  set (m := Z.min d d').
  replace (Z.max (2 ^ (63 - d)) (2 ^ (63 - d'))) with (2 ^ (63 - m)).
  2:{ subst m. destruct (Z.le_ge_cases d d').
      - rewrite Z.min_l, Z.max_l by (try apply Z.pow_le_mono_r; lia). done.
      - rewrite Z.min_r, Z.max_r by (try apply Z.pow_le_mono_r; lia). done. }
  rewrite Z.shiftl_mul_pow2, <- Z.pow_add_r by (subst m; lia).
  replace (63 - m + 1) with (64 - m) by lia.
  assert (under d p d' p' || under d' p' d p = true <->
          p / 2 ^ (d - m) = p' / 2 ^ (d' - m)) as ->.
  { unfold under. rewrite orb_true_iff, !andb_true_iff, !Z.leb_le, !Z.eqb_eq. subst m.
    destruct (Z.lt_trichotomy d d') as [?|[->|?]].
    - rewrite Z.min_l, Z.sub_diag, Z.pow_0_r, Z.div_1_r by lia. lia.
    - rewrite Z.min_id, Z.sub_diag, Z.pow_0_r, !Z.div_1_r. lia.
    - rewrite Z.min_r, Z.sub_diag, Z.pow_0_r, Z.div_1_r by lia. lia. }
  destruct (Z.eq_dec m 0) as [->|Hm].
  { rewrite !Z.sub_0_r, !Z.div_small by lia. change (neg64 (u64 (2 ^ 64))) with 0.
    by rewrite Z.land_0_r. }
  rewrite high_mask_neg, high_mask_land by
    (subst m; try (pose proof (lxor_u64 _ _ (encode_u64 _ _ Hw) (encode_u64 _ _ Hw'))); unfold is_u64 in *; lia).
  rewrite lxor_div, !encode_div by (subst m; auto; lia).
  rewrite Z.mul_eq_0, Z.lxor_eq_0_iff. assert (2 ^ (64 - m) <> 0) by (subst m; lia). tauto.
Qed.

(** ** Properties *)

Definition valid (id : Z) : Prop := is_i64 id /\ id <> 0.

Lemma valid_denotes id : valid id -> exists d p, denotes id d p.
Proof. intros [? ?]. by apply denotes_exists. Qed.

(** [Contains] orders valid shard ids: every shard contains itself, mutual
    containment is equality, and containment is transitive. *)
Theorem Contains_partial_order a b c :
  valid a -> valid b -> valid c ->
  Contains a a = true /\
  (Contains a b = true -> Contains b a = true -> a = b) /\
  (Contains a b = true -> Contains b c = true -> Contains a c = true).
Proof.
  intros (da & pa & Ha)%valid_denotes (db & pb & Hb)%valid_denotes (dc & pc & Hc)%valid_denotes.
  rewrite (Contains_denotes _ _ _ _ _ _ Ha Ha), (Contains_denotes _ _ _ _ _ _ Ha Hb),
    (Contains_denotes _ _ _ _ _ _ Hb Ha), (Contains_denotes _ _ _ _ _ _ Hb Hc),
    (Contains_denotes _ _ _ _ _ _ Ha Hc).
  split_and!; [apply under_refl| |apply under_trans].
  intros H1 H2. destruct (under_antisym _ _ _ _ H1 H2) as [-> ->].
  by eapply denotes_inj.
Qed.

(** Two shards intersect exactly when one contains the other. *)
Theorem Intersects_iff_Contains a b :
  is_i64 a -> is_i64 b -> Intersects a b = Contains a b || Contains b a.
Proof.
  intros Ha Hb. destruct (Z.eq_dec a 0) as [->|Na].
  { unfold Intersects, Contains. by rewrite orb_true_r. }
  destruct (Z.eq_dec b 0) as [->|Nb].
  { unfold Intersects, Contains. by rewrite orb_true_r. }
  destruct (denotes_exists a) as (? & ? & ?), (denotes_exists b) as (? & ? & ?); auto.
  by erewrite Intersects_denotes, !Contains_denotes by done.
Qed.

(** C38: splitting and merging are inverse.  Each child of a shard is a direct
    child inside it, its parent is the shard itself, and the two children are
    disjoint; splitting fails exactly at the deepest level. *)
Theorem Child_Parent_roundtrip id :
  valid id ->
  match Child id true, Child id false with
  | Ok l, Ok r =>
      Parent l = Ok id /\ Parent r = Ok id /\
      IsDirectChild id l = true /\ IsDirectChild id r = true /\
      Intersects l r = false
  | Err e, Err e' => e = ErrCannotSplitID /\ e' = ErrCannotSplitID /\ PrefixLength id = Ok 63
  | _, _ => False
  end.
Proof.
  intros (d & p & H)%valid_denotes.
  pose proof (Child_denotes _ _ _ true H) as Hl. pose proof (Child_denotes _ _ _ false H) as Hr.
  destruct (Z.eqb_spec d 63) as [->|Hd].
  { rewrite Hl, Hr. split_and!; auto. by eapply PrefixLength_denotes. }
  destruct Hl as (l & -> & Hl), Hr as (r & -> & Hr). simpl Z.b2z in *.
  pose proof H as (_ & [Hd' Hp] & _).
  assert (forall c b, denotes c (d + 1) (2 * p + Z.b2z b) ->
    Parent c = Ok id /\ IsDirectChild id c = true) as Hc.
  { intros c b Hc. pose proof (Parent_denotes _ _ _ Hc) as HP.
    rewrite (proj2 (Z.eqb_neq (d + 1) 0)) in HP by lia. destruct HP as (a & -> & Ha).
    assert ((2 * p + Z.b2z b) / 2 = p) as E.
    { replace (2 * p + Z.b2z b) with (Z.b2z b + p * 2) by lia.
      rewrite Z.div_add by lia. by destruct b. }
    replace (d + 1 - 1) with d in Ha by lia. rewrite E in Ha.
    split; [f_equal; by eapply denotes_inj|].
    unfold IsDirectChild. rewrite (denotes_nz _ _ _ H), (denotes_nz _ _ _ Hc). simpl.
    rewrite (Contains_denotes _ _ _ _ _ _ H Hc).
    destruct H as (_ & Hw & ->), Hc as (_ & Hwc & ->). rewrite !prefixLength_encode by done.
    rewrite u32_small by (unfold is_u32; lia). rewrite Z.eqb_refl. unfold under. simpl.
    replace (d + 1 - d) with 1 by lia. change (2 ^ 1) with 2. rewrite E, Z.eqb_refl.
    rewrite andb_true_r. apply Z.leb_le. lia. }
  destruct (Hc l false Hl) as [-> ->], (Hc r true Hr) as [-> ->]. split_and!; auto.
  rewrite (Intersects_denotes _ _ _ _ _ _ Hl Hr). unfold under.
  rewrite Z.sub_diag, Z.pow_0_r, !Z.div_1_r, Z.leb_refl. simpl.
  apply orb_false_iff. split; apply Z.eqb_neq; lia.
Qed.

(** An account belongs to one shard per depth.  The shard found by
    [FromAccountPrefix] at a shard's own depth is that shard exactly when the
    shard contains the account's deepest leaf. *)
Theorem FromAccountPrefix_covers x id depth leaf :
  is_u64 x -> valid id -> PrefixLength id = Ok depth ->
  FromAccountPrefix x MaxPrefixLength = Ok leaf ->
  Contains id leaf = true <-> FromAccountPrefix x depth = Ok id.
Proof.
  intros Hx (d & p & H)%valid_denotes Hdep Hleaf.
  rewrite (PrefixLength_denotes _ _ _ H) in Hdep. injection Hdep as <-.
  pose proof H as (_ & [Hd Hp] & _).
  destruct (FromAccountPrefix_denotes x 63 Hx) as (l & El & Hl); [lia|].
  unfold MaxPrefixLength in Hleaf. rewrite El in Hleaf. injection Hleaf as ->.
  destruct (FromAccountPrefix_denotes x d Hx) as (a & -> & Ha); [lia|].
  rewrite (Contains_denotes _ _ _ _ _ _ H Hl). unfold under.
  rewrite (proj2 (Z.leb_le d 63)) by lia. rewrite andb_true_l, Z.eqb_eq. change (64 - 63) with 1.
  rewrite Z.div_div, <- Z.pow_add_r by lia. replace (1 + (63 - d)) with (64 - d) by lia.
  split.
  - intros E. f_equal. eapply denotes_inj; [exact Ha|]. by rewrite <- E.
  - intros [= ->]. by destruct (denotes_fun _ _ _ _ _ H Ha).
Qed.

(** The neighbour relation is symmetric, and shards of one workchain that
    intersect are neighbours. *)
Theorem IsNeighbor_symmetric wa a wb b :
  is_i64 a -> is_i64 b ->
  IsNeighbor wa a wb b = IsNeighbor wb b wa a /\
  (Intersects a b = true -> IsNeighbor wa a wb b = true).
Proof.
  intros Ha Hb. unfold IsNeighbor. split.
  - rewrite (orb_comm (a =? 0) (b =? 0)),
      (orb_comm ((wa =? -1) && (a =? Root)) ((wb =? -1) && (b =? Root))),
      (Z.max_comm (Z.land (u64 a) (neg64 (u64 a))) (Z.land (u64 b) (neg64 (u64 b)))),
      (Z.lxor_comm (u64 a) (u64 b)), (Z.eqb_sym wa wb). reflexivity.
  - destruct ((a =? 0) || (b =? 0)) eqn:Ez.
    { unfold Intersects. by rewrite Ez. }
    apply orb_false_iff in Ez as [Ea%Z.eqb_neq Eb%Z.eqb_neq].
    destruct (denotes_exists a) as (d & p & H), (denotes_exists b) as (d' & p' & H'); auto.
    rewrite (Intersects_denotes _ _ _ _ _ _ H H').
    destruct H as (_ & Hw & ->), H' as (_ & Hw' & ->).
    intros HI%(difference_zero _ _ _ _ Hw Hw'). rewrite HI, Z.eqb_refl. by destruct (_ || _).
Qed.

(** *** Witnesses *)

Lemma Contains_partial_order_witness :
  Contains Root Root = true /\
  (Contains Root (2 ^ 62) = true -> Contains (2 ^ 62) Root = true -> Root = 2 ^ 62) /\
  (Contains Root (2 ^ 62) = true -> Contains (2 ^ 62) (2 ^ 61) = true -> Contains Root (2 ^ 61) = true).
Proof. apply Contains_partial_order; split; unfold is_i64, Root; lia. Defined.

Lemma Intersects_iff_Contains_witness :
  Intersects (2 ^ 62) (2 ^ 61) = Contains (2 ^ 62) (2 ^ 61) || Contains (2 ^ 61) (2 ^ 62).
Proof. apply Intersects_iff_Contains; unfold is_i64; lia. Defined.

Lemma Child_Parent_roundtrip_witness :
  Parent (2 ^ 62) = Ok Root /\ Parent (- 2 ^ 62) = Ok Root /\
  IsDirectChild Root (2 ^ 62) = true /\ IsDirectChild Root (- 2 ^ 62) = true /\
  Intersects (2 ^ 62) (- 2 ^ 62) = false.
Proof. apply (Child_Parent_roundtrip Root). split; unfold is_i64, Root; lia. Defined.

Lemma FromAccountPrefix_covers_witness :
  Contains (2 ^ 62) (2 ^ 61 + 1) = true <-> FromAccountPrefix (2 ^ 61) 1 = Ok (2 ^ 62).
Proof.
  apply FromAccountPrefix_covers; [unfold is_u64; lia|split; [unfold is_i64; lia|lia]| |];
    vm_compute; reflexivity.
Defined.

Lemma IsNeighbor_symmetric_witness :
  IsNeighbor 0 (2 ^ 62) 0 (2 ^ 61) = IsNeighbor 0 (2 ^ 61) 0 (2 ^ 62) /\
  (Intersects (2 ^ 62) (2 ^ 61) = true -> IsNeighbor 0 (2 ^ 62) 0 (2 ^ 61) = true).
Proof. apply IsNeighbor_symmetric; unfold is_i64; lia. Defined.

End Shard.
