(* ===== verification/SimplexTypes.v ===== *)
(** * Simplex data ([src/service/validator/simplex/types.go])

    Candidate and parent identifiers with their orders, votes, certificates, the
    validator roster with its weight rules, the noncritical parameters and the
    leader schedule. *)

From S2P Require Import Prelude.
From Stdlib Require Import SpecFloat.

#[local] Open Scope Z_scope.
#[local] Open Scope go_scope.

(** ** Identifiers *)

Record CandidateID := mkCandidateID { cid_Slot : Z; cid_Hash : bytes }.

#[export] Instance CandidateID_eq_dec : EqDecision CandidateID.
Proof. solve_decision. Defined.
#[export] Instance CandidateID_countable : Countable CandidateID.
Proof.
  refine (inj_countable' (fun c => (cid_Slot c, cid_Hash c))
            (fun p => mkCandidateID p.1 p.2) _).
  by intros [].
Defined.

(** The byte-lexicographic part of [CandidateID.Compare]. *)
Fixpoint compareHash (a b : bytes) : Z :=
  match a, b with
  | x :: a, y :: b =>
      if negb (x =? y) then (if x <? y then -1 else 1) else compareHash a b
  | _, _ => 0
  end.

Definition CandidateID_Compare (id o : CandidateID) : Z :=
  if negb (cid_Slot id =? cid_Slot o) then
    if cid_Slot id <? cid_Slot o then -1 else 1
  else compareHash (cid_Hash id) (cid_Hash o).

(** [[32]byte{}] and the zero [CandidateID]. *)
Definition zeroHash : bytes := replicate 32 0.
Definition zeroCandidateID : CandidateID := mkCandidateID 0 zeroHash.

Record ParentID := mkParentID { par_Exists : bool; par_ID : CandidateID }.

#[export] Instance ParentID_eq_dec : EqDecision ParentID.
Proof. solve_decision. Defined.

Definition Parent (id : CandidateID) : ParentID := mkParentID true id.
Definition Genesis : ParentID := mkParentID false zeroCandidateID.

Definition ParentID_Compare (p o : ParentID) : Z :=
  if negb (Bool.eqb (par_Exists p) (par_Exists o)) then
    if negb (par_Exists p) then -1 else 1
  else if negb (par_Exists p) then 0
  else CandidateID_Compare (par_ID p) (par_ID o).

(** ** Votes

    [VoteKind] is a [uint8]; the three valid values are the constructors and
    every other value is [VoteKindOther], the zero [Vote] included. *)

Inductive VoteKind :=
| VoteNotarize
| VoteFinalize
| VoteSkip
| VoteKindOther (k : Z).

#[export] Instance VoteKind_eq_dec : EqDecision VoteKind.
Proof. solve_decision. Defined.

Record Vote := mkVote { v_Kind : VoteKind; v_ID : CandidateID }.

#[export] Instance Vote_eq_dec : EqDecision Vote.
Proof. solve_decision. Defined.

Definition NotarizeVote (id : CandidateID) : Vote := mkVote VoteNotarize id.
Definition FinalizeVote (id : CandidateID) : Vote := mkVote VoteFinalize id.
Definition SkipVote (slot : Z) : Vote := mkVote VoteSkip (mkCandidateID slot zeroHash).
Definition Vote_Slot (v : Vote) : Z := cid_Slot (v_ID v).
Definition zeroVote : Vote := mkVote (VoteKindOther 0) zeroCandidateID.

Record SignedVote := mkSignedVote {
  sv_ValidatorIndex : Z; sv_Vote : Vote; sv_Signature : bytes }.

Record VoteSignature := mkVoteSignature { vs_ValidatorIndex : Z; vs_Signature : bytes }.

#[export] Instance VoteSignature_eq_dec : EqDecision VoteSignature.
Proof. solve_decision. Defined.

(** The cached wire form of a certificate is a pure function of the two fields
    (see [SimplexWire]), so it is not part of the value. *)
Record Certificate := mkCertificate {
  cert_Vote : Vote; cert_Signatures : list VoteSignature }.

#[export] Instance Certificate_eq_dec : EqDecision Certificate.
Proof. solve_decision. Defined.

(** ** The validator roster *)

Record Validator := mkValidator { val_PublicKey : bytes; val_Weight : Z }.

#[export] Instance Validator_eq_dec : EqDecision Validator.
Proof. solve_decision. Defined.

(** [ed25519.PublicKeySize] and [ed25519.SignatureSize]. *)
Definition PublicKeySize : nat := 32.
Definition SignatureSize : nat := 64.

Definition maxTotalWeight : Z := 2 ^ 61.

Inductive roster_error :=
| ErrInvalidPublicKey (i : nat) | ErrZeroWeight (i : nat) | ErrTotalWeight.

Fixpoint totalWeight_loop (i : nat) (total : Z) (validators : list Validator)
  : result roster_error Z :=
  match validators with
  | [] => Ok total
  | v :: validators =>
      if negb (length (val_PublicKey v) =? PublicKeySize)%nat then Err (ErrInvalidPublicKey i)
      else if val_Weight v =? 0 then Err (ErrZeroWeight i)
      else
        let total := total +₆₄ val_Weight v in
        if maxTotalWeight <? total then Err ErrTotalWeight
        else totalWeight_loop (S i) total validators
  end.

Definition totalValidatorWeight (validators : list Validator) : result roster_error Z :=
  totalWeight_loop 0 0 validators.

(** [totalWeight*2/3 + 1], the quorum threshold of [NewCertificateVerifier]. *)
Definition quorumThreshold (totalWeight : Z) : Z :=
  u64 (u64 (totalWeight * 2) / 3 + 1).

(** ** Parameters

    Durations are [int64] nanoseconds; the multipliers are binary64 values. *)

Definition f64 := spec_float.
Definition f64_is_nan (x : f64) : bool := match x with S754_nan => true | _ => false end.
Definition f64_is_inf (x : f64) : bool := match x with S754_infinity _ => true | _ => false end.
Definition f64_zero : f64 := S754_zero false.

Definition Millisecond : Z := 1000000.
Definition Second : Z := 1000000000.

Record Params := mkParams {
  p_TargetRate : Z;
  p_FirstBlockTimeout : Z;
  p_FirstBlockTimeoutMultiplier : f64;
  p_FirstBlockTimeoutCap : Z;
  p_CandidateResolveTimeout : Z;
  p_CandidateResolveTimeoutMultiplier : f64;
  p_CandidateResolveTimeoutCap : Z;
  p_CandidateResolveCooldown : Z;
  p_CandidateResolveRateLimit : Z;
  p_StandstillTimeout : Z;
  p_StandstillMaxEgressBytesPerS : Z;
  p_StandstillMinEgressBytesPerS : Z;
  p_MaxLeaderWindowDesync : Z;
  p_BadSignatureBanDuration : Z;
  p_MinBlockInterval : Z;
  p_NoEmptyBlocksOnErrTimeout : Z;
  p_CertificateGossipNeighbors : Z }.

Inductive params_error :=
| ErrTargetRate | ErrFirstBlockTimeout | ErrFirstBlockTimeoutMultiplier
| ErrCandidateResolveTimeoutMultiplier | ErrStandstillTimeout | ErrStandstillEgress.

Definition Params_Validate (p : Params) : option params_error :=
  if p_TargetRate p <=? 0 then Some ErrTargetRate
  else if p_FirstBlockTimeout p <? 0 then Some ErrFirstBlockTimeout
  else if SFltb (p_FirstBlockTimeoutMultiplier p) f64_zero
          || f64_is_nan (p_FirstBlockTimeoutMultiplier p)
          || f64_is_inf (p_FirstBlockTimeoutMultiplier p) then Some ErrFirstBlockTimeoutMultiplier
  else if SFleb (p_CandidateResolveTimeoutMultiplier p) f64_zero
          || f64_is_nan (p_CandidateResolveTimeoutMultiplier p)
          || f64_is_inf (p_CandidateResolveTimeoutMultiplier p)
       then Some ErrCandidateResolveTimeoutMultiplier
  else if p_StandstillTimeout p <=? 0 then Some ErrStandstillTimeout
  else if (p_StandstillMaxEgressBytesPerS p =? 0) && (p_StandstillMinEgressBytesPerS p =? 0)
       then Some ErrStandstillEgress
  else None.

(** The binary64 nearest to 1.2. *)
Definition f64_1_2 : f64 := S754_finite false 5404319552844595 (-52).

Definition DefaultParams : Params := {|
  p_TargetRate := 2400 * Millisecond;
  p_FirstBlockTimeout := 1000 * Millisecond;
  p_FirstBlockTimeoutMultiplier := f64_1_2;
  p_FirstBlockTimeoutCap := 100 * Second;
  p_CandidateResolveTimeout := 1000 * Millisecond;
  p_CandidateResolveTimeoutMultiplier := f64_1_2;
  p_CandidateResolveTimeoutCap := 10 * Second;
  p_CandidateResolveCooldown := 10 * Millisecond;
  p_CandidateResolveRateLimit := 10;
  p_StandstillTimeout := 10 * Second;
  p_StandstillMaxEgressBytesPerS := Z.shiftl 50 17;
  p_StandstillMinEgressBytesPerS := Z.shiftl 1 17;
  p_MaxLeaderWindowDesync := 250;
  p_BadSignatureBanDuration := 5 * Second;
  p_MinBlockInterval := 0;
  p_NoEmptyBlocksOnErrTimeout := 15 * Second;
  p_CertificateGossipNeighbors := 20 |}.

(** ** Leader schedule *)

Record RoundRobinSchedule := mkRoundRobin { rr_SlotsPerLeaderWindow : Z; rr_Validators : Z }.

(** Division by zero panics; [NewEngine] builds the schedule with both positive. *)
Definition RoundRobin_ExpectedLeader (s : RoundRobinSchedule) (slot : Z) : option Z :=
  if (rr_SlotsPerLeaderWindow s =? 0) || (rr_Validators s =? 0) then None
  else Some (slot / rr_SlotsPerLeaderWindow s mod rr_Validators s).

(** ** Leader windows and misbehaviour reports *)

Record Window := mkWindow {
  w_Base : ParentID; w_ObservedSlot : Z; w_StartSlot : Z; w_EndSlot : Z;
  w_Leader : Z; w_LocalLeader : bool; w_ObservedAt : Z; w_FirstBlockTimeout : Z }.

Inductive MisbehaviorKind :=
| MisbehaviorConflictingVotes | MisbehaviorConflictingCandidateAndCertificate.

Record Misbehavior := mkMisbehavior {
  mb_Kind : MisbehaviorKind; mb_Proof1 : bytes; mb_Proof2 : bytes }.

(** ** The order on identifiers *)

Definition wf_hash (h : bytes) : Prop := length h = 32%nat /\ Forall is_byte h.
Definition wf_id (id : CandidateID) : Prop := is_u32 (cid_Slot id) /\ wf_hash (cid_Hash id).
Definition wf_parent (p : ParentID) : Prop := wf_id (par_ID p).

Lemma wf_zeroHash : wf_hash zeroHash.
Proof. split; [done|]. unfold zeroHash. repeat constructor; unfold is_byte; lia. Qed.

Lemma compareHash_antisym a b : compareHash a b = - compareHash b a.
Proof.
  revert b. induction a as [|x a IH]; intros [|y b]; simpl; try done.
  rewrite (Z.eqb_sym y x). destruct (Z.eqb_spec x y); simpl; [apply IH|].
  destruct (Z.ltb_spec x y), (Z.ltb_spec y x); lia.
Qed.

Lemma compareHash_eq a b : length a = length b -> compareHash a b = 0 <-> a = b.
Proof.
  revert b. induction a as [|x a IH]; intros [|y b]; simpl; try done.
  intros [= Hl]. destruct (Z.eqb_spec x y) as [->|]; simpl.
  - rewrite IH by done. naive_solver.
  - destruct (x <? y); naive_solver.
Qed.

Lemma compareHash_trans a b c :
  length a = length b -> length b = length c ->
  compareHash a b <= 0 -> compareHash b c <= 0 -> compareHash a c <= 0.
Proof.
  revert b c. induction a as [|x a IH]; intros [|y b] [|z c]; simpl; try done.
  intros [= H1] [= H2].
  destruct (Z.eqb_spec x y) as [->|], (Z.eqb_spec y z) as [->|]; simpl; eauto.
  - destruct (Z.eqb_spec x z); simpl; [congruence|]. done.
  - destruct (Z.eqb_spec x z) as [->|]; simpl.
    + destruct (Z.ltb_spec z y), (Z.ltb_spec y z); lia.
    + destruct (Z.ltb_spec x y), (Z.ltb_spec y z), (Z.ltb_spec x z); lia.
Qed.

Lemma CandidateID_Compare_antisym a b : CandidateID_Compare a b = - CandidateID_Compare b a.
Proof.
  unfold CandidateID_Compare. rewrite (Z.eqb_sym (cid_Slot b)).
  destruct (Z.eqb_spec (cid_Slot a) (cid_Slot b)); simpl; [apply compareHash_antisym|].
  destruct (Z.ltb_spec (cid_Slot a) (cid_Slot b)), (Z.ltb_spec (cid_Slot b) (cid_Slot a)); lia.
Qed.

Lemma CandidateID_Compare_eq a b :
  wf_id a -> wf_id b -> CandidateID_Compare a b = 0 <-> a = b.
Proof.
  destruct a as [sa ha], b as [sb hb]. intros (_ & Ha & _) (_ & Hb & _). simpl in *.
  unfold CandidateID_Compare. simpl.
  destruct (Z.eqb_spec sa sb) as [->|]; simpl.
  - rewrite compareHash_eq by congruence. naive_solver.
  - destruct (sa <? sb); naive_solver.
Qed.

Lemma CandidateID_Compare_trans a b c :
  wf_id a -> wf_id b -> wf_id c ->
  CandidateID_Compare a b <= 0 -> CandidateID_Compare b c <= 0 -> CandidateID_Compare a c <= 0.
Proof.
  destruct a as [sa ha], b as [sb hb], c as [sc hc].
  intros (_ & Ha & _) (_ & Hb & _) (_ & Hc & _). simpl in *. unfold CandidateID_Compare. simpl.
  destruct (Z.eqb_spec sa sb), (Z.eqb_spec sb sc), (Z.eqb_spec sa sc); simpl; try lia;
    try (apply compareHash_trans; congruence);
    destruct (Z.ltb_spec sa sb), (Z.ltb_spec sb sc), (Z.ltb_spec sa sc); lia.
Qed.

(** Two parents are the same when both are genesis or both name one candidate. *)
Definition same_parent (p q : ParentID) : Prop :=
  par_Exists p = par_Exists q /\ (par_Exists p = true -> par_ID p = par_ID q).

(** [ParentID.Compare] is a total order on parents: swapping the arguments
    negates the result, zero means the same parent, "at most" is transitive,
    genesis is the least element, and a parent of a higher slot is larger. *)
Theorem ParentID_Compare_total_order p q r :
  wf_parent p -> wf_parent q -> wf_parent r ->
  ParentID_Compare p q = - ParentID_Compare q p /\
  (ParentID_Compare p q = 0 <-> same_parent p q) /\
  (ParentID_Compare p q <= 0 -> ParentID_Compare q r <= 0 -> ParentID_Compare p r <= 0) /\
  ParentID_Compare Genesis p <= 0 /\
  (par_Exists p = true -> par_Exists q = true ->
   cid_Slot (par_ID p) < cid_Slot (par_ID q) -> ParentID_Compare p q = -1).
Proof.
  destruct p as [[] p], q as [[] q], r as [[] r]; unfold wf_parent, same_parent, ParentID_Compare;
    simpl; intros Hp Hq Hr; split_and!; try done; try lia; try naive_solver;
    eauto using CandidateID_Compare_antisym, CandidateID_Compare_trans.
  all: try (rewrite CandidateID_Compare_eq by done; naive_solver).
  all: intros _ _ Hlt; unfold CandidateID_Compare;
    rewrite (proj2 (Z.eqb_neq _ _)), (proj2 (Z.ltb_lt _ _)) by lia; done.
Qed.

Lemma ParentID_Compare_total_order_witness :
  let a := Parent (mkCandidateID 3 zeroHash) in
  let b := Parent (mkCandidateID 4 zeroHash) in
  ParentID_Compare a b = - ParentID_Compare b a /\
  (ParentID_Compare a b = 0 <-> same_parent a b) /\
  (ParentID_Compare a b <= 0 -> ParentID_Compare b Genesis <= 0 -> ParentID_Compare a Genesis <= 0) /\
  ParentID_Compare Genesis a <= 0 /\
  (par_Exists a = true -> par_Exists b = true ->
   cid_Slot (par_ID a) < cid_Slot (par_ID b) -> ParentID_Compare a b = -1).
Proof.
  apply ParentID_Compare_total_order; (split; [unfold is_u32; simpl; lia|apply wf_zeroHash]).
Defined.

(** ** Weights *)

(** [wsum vs P]: the weight of the validators whose index satisfies [P]. *)
Fixpoint wsum_from (k : nat) (vs : list Validator) (P : nat -> bool) : Z :=
  match vs with
  | [] => 0
  | v :: vs => (if P k then val_Weight v else 0) + wsum_from (S k) vs P
  end.
Definition wsum (vs : list Validator) (P : nat -> bool) : Z := wsum_from 0 vs P.
Definition total_weight (vs : list Validator) : Z := wsum vs (fun _ => true).

Definition weights_nonneg (vs : list Validator) : Prop := Forall (fun v => 0 <= val_Weight v) vs.

Lemma wsum_from_ext k vs P Q :
  (forall i, (k <= i < k + length vs)%nat -> P i = Q i) -> wsum_from k vs P = wsum_from k vs Q.
Proof.
  revert k. induction vs as [|v vs IH]; intros k H; simpl; [done|].
  rewrite (H k) by (simpl; lia). f_equal. apply IH. intros i Hi. apply H. simpl. lia.
Qed.

Lemma wsum_ext vs P Q :
  (forall i, (i < length vs)%nat -> P i = Q i) -> wsum vs P = wsum vs Q.
Proof. intros H. apply wsum_from_ext. intros i Hi. apply H. lia. Qed.

Lemma wsum_from_nonneg k vs P : weights_nonneg vs -> 0 <= wsum_from k vs P.
Proof.
  intros H. revert k. induction H as [|v vs Hv _ IH]; intros k; simpl; [lia|].
  specialize (IH (S k)). destruct (P k); lia.
Qed.

Lemma wsum_nonneg vs P : weights_nonneg vs -> 0 <= wsum vs P.
Proof. apply wsum_from_nonneg. Qed.

Lemma wsum_from_or_and k vs P Q :
  wsum_from k vs P + wsum_from k vs Q =
  wsum_from k vs (fun i => P i || Q i) + wsum_from k vs (fun i => P i && Q i).
Proof.
  revert k. induction vs as [|v vs IH]; intros k; simpl; [done|].
  specialize (IH (S k)). destruct (P k), (Q k); simpl; lia.
Qed.

Lemma wsum_from_mono k vs P Q :
  weights_nonneg vs -> (forall i, (k <= i < k + length vs)%nat -> P i = true -> Q i = true) ->
  wsum_from k vs P <= wsum_from k vs Q.
Proof.
  intros H. revert k. induction H as [|v vs Hv _ IH]; intros k HPQ; simpl; [lia|].
  assert (wsum_from (S k) vs P <= wsum_from (S k) vs Q).
  { apply IH. intros i Hi. apply HPQ. simpl. lia. }
  destruct (P k) eqn:E; [rewrite (HPQ k) by (simpl; auto; lia)|destruct (Q k)]; lia.
Qed.

Lemma wsum_mono vs P Q :
  weights_nonneg vs -> (forall i, (i < length vs)%nat -> P i = true -> Q i = true) ->
  wsum vs P <= wsum vs Q.
Proof. intros H HPQ. apply wsum_from_mono; auto. intros i Hi. apply HPQ. lia. Qed.

Lemma wsum_le_total vs P : weights_nonneg vs -> wsum vs P <= total_weight vs.
Proof. intros. by apply wsum_mono. Qed.

Lemma wsum_none vs P : (forall i, (i < length vs)%nat -> P i = false) -> wsum vs P = 0.
Proof.
  intros H. rewrite (wsum_ext _ _ (fun _ => false)) by done. unfold wsum. generalize 0%nat.
  induction vs as [|v vs IH]; intros k; simpl; [done|].
  rewrite IH; [done|]. intros i Hi. apply H. simpl. lia.
Qed.

(** Adding one index adds its weight. *)
Lemma wsum_insert vs P Q i v :
  vs !! i = Some v -> P i = false -> Q i = true ->
  (forall j, j <> i -> Q j = P j) -> wsum vs Q = wsum vs P + val_Weight v.
Proof.
  unfold wsum. intros Hi HP HQ Hne.
  assert (forall k, P (k + i)%nat = false -> Q (k + i)%nat = true ->
    (forall j, j <> (k + i)%nat -> Q j = P j) ->
    wsum_from k vs Q = wsum_from k vs P + val_Weight v) as H; [|by apply H].
  clear HP HQ Hne. revert i Hi. induction vs as [|w vs IH]; intros i Hi k HP HQ Hne; [done|].
  destruct i as [|i]; simpl in Hi |- *.
  - injection Hi as ->. rewrite Nat.add_0_r in *. rewrite HP, HQ.
    rewrite (wsum_from_ext _ _ P Q); [lia|]. intros j Hj. symmetry. apply Hne. lia.
  - rewrite (Hne k) by lia. rewrite (IH i Hi (S k)); [lia| | |];
      replace (S k + i)%nat with (k + S i)%nat by lia; auto.
Qed.

(** Some member of a set of positive weight exists. *)
Lemma wsum_pos_exists vs P :
  0 < wsum vs P -> exists i, (i < length vs)%nat /\ P i = true.
Proof.
  intros H. destruct (decide (Exists (fun i => P i = true) (seq 0 (length vs)))) as [HE|HE].
  - apply Exists_exists in HE as (i & Hi%elem_of_seq & HP). exists i. split; [lia|done].
  - rewrite wsum_none in H; [lia|]. intros i Hi. destruct (P i) eqn:E; [|done].
    exfalso. apply HE. apply Exists_exists. exists i. split; [apply elem_of_seq; lia|done].
Qed.

(** ** The accepted rosters *)

(** What [totalValidatorWeight] promises its callers. *)
Record good_roster (vs : list Validator) (total : Z) : Prop := {
  gr_keys : Forall (fun v => length (val_PublicKey v) = PublicKeySize) vs;
  gr_positive : Forall (fun v => 0 < val_Weight v) vs;
  gr_total : total = total_weight vs;
  gr_bound : total <= maxTotalWeight }.

(** Weights for which one addition to a total below the cap cannot wrap. *)
Definition no_wrap_weight (v : Validator) : Prop := 0 <= val_Weight v < 2 ^ 64 - maxTotalWeight.

Lemma wsum_from_all_shift k vs : wsum_from k vs (fun _ => true) = total_weight vs.
Proof.
  unfold total_weight, wsum. generalize 0%nat. revert k.
  induction vs as [|v vs IH]; intros k n; simpl; [done|]. by rewrite (IH (S k) (S n)).
Qed.

Lemma totalWeight_loop_spec i total vs t :
  0 <= total <= maxTotalWeight -> Forall no_wrap_weight vs ->
  totalWeight_loop i total vs = Ok t <->
  Forall (fun v => length (val_PublicKey v) = PublicKeySize) vs /\
  Forall (fun v => 0 < val_Weight v) vs /\
  t = total + total_weight vs /\ total + total_weight vs <= maxTotalWeight.
Proof.
  intros Ht Hw. revert i total Ht. induction Hw as [|v vs Hv Hw IH]; intros i total Ht; simpl.
  { change (total_weight []) with 0. rewrite !Forall_nil. split.
    - intros [= <-]. split_and!; auto; lia.
    - intros (_ & _ & -> & _). f_equal. lia. }
  change (total_weight (v :: vs)) with (val_Weight v + wsum_from 1 vs (fun _ => true)).
  rewrite wsum_from_all_shift, !Forall_cons. unfold no_wrap_weight in Hv.
  assert (weights_nonneg vs) as Hnn by (eapply Forall_impl; [exact Hw|]; unfold no_wrap_weight; simpl; lia).
  pose proof (wsum_nonneg vs (fun _ => true) Hnn) as Hs. fold (total_weight vs) in Hs.
  destruct (Nat.eqb_spec (length (val_PublicKey v)) PublicKeySize); simpl; [|naive_solver].
  destruct (Z.eqb_spec (val_Weight v) 0); [split; [done|lia]|].
  rewrite u64_small by (unfold is_u64, maxTotalWeight in *; lia).
  destruct (Z.ltb_spec maxTotalWeight (total + val_Weight v)); [split; [done|lia]|].
  rewrite IH by lia. rewrite !Z.add_assoc. intuition (auto; lia).
Qed.

(** On weights that cannot wrap a 64-bit sum, [totalValidatorWeight]
    succeeds exactly on the rosters with 32-byte keys, positive weights and an
    exact total of at most [2^61], and returns that total. *)
Theorem totalValidatorWeight_correct vs t :
  Forall no_wrap_weight vs ->
  totalValidatorWeight vs = Ok t <-> good_roster vs t.
Proof.
  intros Hw. unfold totalValidatorWeight. rewrite totalWeight_loop_spec by (auto; unfold maxTotalWeight; lia).
  rewrite Z.add_0_l. split.
  - intros (H1 & H2 & -> & H4). by constructor.
  - intros [H1 H2 -> H4]. done.
Qed.

Lemma totalValidatorWeight_correct_witness :
  let vs := [mkValidator zeroHash 3; mkValidator zeroHash 4] in
  totalValidatorWeight vs = Ok 7 <-> good_roster vs 7.
Proof.
  apply totalValidatorWeight_correct. repeat constructor; unfold maxTotalWeight; simpl; lia.
Defined.


Lemma quorumThreshold_small t :
  0 <= t <= maxTotalWeight -> quorumThreshold t = t * 2 / 3 + 1.
Proof.
  unfold maxTotalWeight, quorumThreshold. intros Ht.
  rewrite (u64_small (t * 2)) by (unfold is_u64; lia).
  apply u64_small. unfold is_u64. Z.to_euclidean_division_equations. lia.
Qed.

(** Quorum intersection on predicates. *)
Lemma quorum_overlap vs t P Q :
  good_roster vs t -> quorumThreshold t <= wsum vs P -> quorumThreshold t <= wsum vs Q ->
  t < 3 * wsum vs (fun i => P i && Q i).
Proof.
  intros [_ Hpos -> Hb] HP HQ.
  assert (weights_nonneg vs) as Hnn by (eapply Forall_impl; [exact Hpos|]; simpl; lia).
  pose proof (wsum_nonneg vs (fun _ => true) Hnn) as Ht. fold (total_weight vs) in Ht.
  rewrite quorumThreshold_small in HP, HQ by lia.
  pose proof (wsum_from_or_and 0 vs P Q) as Hie. fold (wsum vs P) (wsum vs Q) in Hie.
  pose proof (wsum_le_total vs (fun i => P i || Q i) Hnn) as Hor. unfold wsum in *.
  pose proof (Z.mul_succ_div_gt (total_weight vs * 2) 3). lia.
Qed.

Lemma honest_overlap vs t (P Q faulty : nat -> bool) :
  good_roster vs t -> 3 * wsum vs faulty < t ->
  quorumThreshold t <= wsum vs P -> quorumThreshold t <= wsum vs Q ->
  exists i, (i < length vs)%nat /\ P i = true /\ Q i = true /\ faulty i = false.
Proof.
  intros Hr Hf HP HQ. pose proof (quorum_overlap vs t P Q Hr HP HQ) as Ho.
  assert (weights_nonneg vs) as Hnn
    by (destruct Hr as [_ Hpos _ _]; eapply Forall_impl; [exact Hpos|]; simpl; lia).
  destruct (wsum_pos_exists vs (fun i => P i && Q i && negb (faulty i))) as (i & Hi & HE).
  - assert (wsum vs (fun i => P i && Q i) <=
      wsum vs faulty + wsum vs (fun i => P i && Q i && negb (faulty i))); [|lia].
    unfold wsum. rewrite wsum_from_or_and.
    pose proof (wsum_nonneg vs (fun i => faulty i && (P i && Q i && negb (faulty i))) Hnn).
    assert (wsum vs (fun i => P i && Q i) <=
      wsum vs (fun i => faulty i || (P i && Q i && negb (faulty i)))); [|unfold wsum in *; lia].
    apply wsum_mono; auto. intros j _. destruct (P j), (Q j), (faulty j); done.
  - exists i. apply andb_true_iff in HE as [[? ?]%andb_true_iff ?%negb_true_iff]. done.
Qed.

(** C29: any two quorums of an accepted roster share a validator outside every
    set of faulty validators whose weight is below one third of the total. *)
Theorem quorum_intersection vs t (P Q faulty : nat -> bool) :
  good_roster vs t -> 3 * wsum vs faulty < t ->
  quorumThreshold t <= wsum vs P -> quorumThreshold t <= wsum vs Q ->
  exists i, (i < length vs)%nat /\ P i = true /\ Q i = true /\ faulty i = false.
Proof. apply honest_overlap. Qed.

Lemma quorum_intersection_witness :
  let vs := replicate 4 (mkValidator zeroHash 1) in
  exists i, (i < length vs)%nat /\ (i <? 3)%nat = true /\ (0 <? i)%nat = true /\ (i =? 1)%nat = false.
Proof.
  apply (quorum_intersection (replicate 4 (mkValidator zeroHash 1)) 4
    (fun i => i <? 3)%nat (fun i => 0 <? i)%nat (fun i => i =? 1)%nat).
  - constructor; [repeat constructor|repeat constructor; simpl; lia|reflexivity|].
    unfold maxTotalWeight. lia.
  - vm_compute. reflexivity.
  - vm_compute. discriminate.
  - vm_compute. discriminate.
Defined.
