(* ===== verification/SimplexSlots.v ===== *)
(** * Slot containers ([src/service/validator/simplex/slots.go])

    [slotMap]: per-slot states above a finalization horizon, created on access
    and pruned below it.  [sortedU32]: the ordered set of skip-run ends, a sorted
    slice searched with [sort.Search]. *)

From S2P Require Import Prelude.

#[local] Open Scope Z_scope.
#[local] Open Scope go_scope.

(** ** slotMap *)

Record slotMap (T : Type) := mkSlotMap {
  firstNonFinalized : Z; slots : gmap Z T }.
Arguments mkSlotMap {T} _ _.
Arguments firstNonFinalized {T} _.
Arguments slots {T} _.

#[export] Instance eta_slotMap T : Eta (slotMap T) :=
  fun m => mkSlotMap (firstNonFinalized m) (slots m).

Definition newSlotMap {T} : slotMap T := mkSlotMap 0 ∅.

(** [at] returns nil for a pruned slot and creates a missing one. *)
Definition sm_at {T} (newSlot : T) (slot : Z) (m : slotMap T) : option T * slotMap T :=
  if slot <? firstNonFinalized m then (None, m) else
  match slots m !! slot with
  | Some s => (Some s, m)
  | None => (Some newSlot, m <| slots := <[slot := newSlot]> (slots m) |>)
  end.

Definition sm_peek {T} (slot : Z) (m : slotMap T) : option T :=
  if slot <? firstNonFinalized m then None else slots m !! slot.

(** Assignment through the pointer [at] returned. *)
Definition sm_alter {T} (f : T -> T) (slot : Z) (m : slotMap T) : slotMap T :=
  m <| slots := alter f slot (slots m) |>.

Definition delete_keys {T} (ks : list Z) (m : gmap Z T) : gmap Z T :=
  foldr (fun k m => delete k m) m ks.

Definition sm_notifyFinalized {T} (slot : Z) (m : slotMap T) : slotMap T :=
  if (slot +₃₂ 1) <=? firstNonFinalized m then m else
  let old := firstNonFinalized m in
  let first := slot +₃₂ 1 in
  let m := m <| firstNonFinalized := first |> in
  let delta := first -₃₂ old in
  if delta <=? Z.of_nat (size (slots m)) then
    m <| slots := delete_keys (range old first) (slots m) |>
  else
    m <| slots := filter (fun p => ~ p.1 < first) (slots m) |>.

(** The tracked half-open range. *)
Definition sm_interval {T} (m : slotMap T) : Z * Z :=
  let begin := firstNonFinalized m in
  (begin,
   foldr (fun k stop => if stop <? k +₃₂ 1 then k +₃₂ 1 else stop) begin
     (elements (dom (slots m)))).

(** ** sortedU32 *)

Definition vget (v : list Z) (i : Z) : Z := default 0 (v !! Z.to_nat i).

Definition search_ge (v : list Z) (x : Z) : Z :=
  sort_Search (Z.of_nat (length v)) (fun i => x <=? vget v i).
Definition search_gt (v : list Z) (x : Z) : Z :=
  sort_Search (Z.of_nat (length v)) (fun i => x <? vget v i).

(** [None] is the "skipped slot has no run end" error. *)
Definition lowerBound (x : Z) (v : list Z) : option Z :=
  let i := search_ge v x in
  if i =? Z.of_nat (length v) then None else Some (vget v i).

Definition insert_sorted (x : Z) (v : list Z) : list Z :=
  let i := search_ge v x in
  if (i <? Z.of_nat (length v)) && (vget v i =? x) then v
  else take (Z.to_nat i) v ++ x :: drop (Z.to_nat i) v.

Definition erase (x : Z) (v : list Z) : list Z :=
  let i := search_ge v x in
  if (i <? Z.of_nat (length v)) && (vget v i =? x)
  then take (Z.to_nat i) v ++ drop (S (Z.to_nat i)) v
  else v.

Definition eraseUpTo (x : Z) (v : list Z) : list Z :=
  drop (Z.to_nat (search_gt v x)) v.

(** ** sortedU32 is a set *)

Abbreviation sorted := (StronglySorted Z.lt).

Lemma vget_lookup v i x : v !! i = Some x -> vget v (Z.of_nat i) = x.
Proof. unfold vget. intros H. by rewrite Nat2Z.id, H. Qed.

Lemma vget_some v i : 0 <= i < Z.of_nat (length v) -> v !! Z.to_nat i = Some (vget v i).
Proof.
  intros Hi. unfold vget. destruct (lookup_lt_is_Some_2 v (Z.to_nat i)) as [x ->]; [lia|done].
Qed.

Lemma sorted_lookup_lt v i j x y :
  sorted v -> (i < j)%nat -> v !! i = Some x -> v !! j = Some y -> x < y.
Proof.
  intros Hs. revert i j. induction Hs as [|a v Hs IH Hall]; intros i j Hij Hi Hj; [done|].
  destruct i as [|i], j as [|j]; simpl in *; try lia.
  - injection Hi as ->. rewrite Forall_forall in Hall. apply Hall.
    by eapply list_elem_of_lookup_2.
  - eapply (IH i j); eauto; lia.
Qed.

Lemma sorted_vget_le v i j :
  sorted v -> 0 <= i <= j -> j < Z.of_nat (length v) -> vget v i <= vget v j.
Proof.
  intros Hs Hij Hj. destruct (Z.eq_dec i j) as [->|]; [lia|]. apply Z.lt_le_incl.
  eapply (sorted_lookup_lt v (Z.to_nat i) (Z.to_nat j)); eauto; [lia| |]; apply vget_some; lia.
Qed.

Lemma sorted_app_split a b :
  sorted (a ++ b) <-> sorted a /\ sorted b /\ (forall y z, y ∈ a -> z ∈ b -> y < z).
Proof.
  induction a as [|c a IH]; simpl.
  { split; [intros H; split_and!; [constructor|done|set_solver]|tauto]. }
  split.
  - intros [H1 H2]%StronglySorted_inv. apply IH in H1 as (Ha & Hb & Hab).
    apply Forall_app in H2 as [H2 H3]. split_and!; [by constructor|done|].
    intros y z [->|Hy]%elem_of_cons Hz; [|by apply Hab].
    rewrite Forall_forall in H3. by apply H3.
  - intros ([H1 H2]%StronglySorted_inv & Hb & Hab). constructor.
    + apply IH. split_and!; auto. intros y z Hy. apply Hab. by right.
    + apply Forall_app. split; [done|]. rewrite Forall_forall. intros z Hz. apply Hab; [left|done].
Qed.

Section SearchSpec.
Context (v : list Z) (x : Z) (Hs : sorted v).

Lemma search_ge_spec :
  let i := search_ge v x in
  0 <= i <= Z.of_nat (length v) /\
  (forall y, y ∈ take (Z.to_nat i) v <-> y ∈ v /\ y < x) /\
  (forall y, y ∈ drop (Z.to_nat i) v <-> y ∈ v /\ x <= y).
Proof using Hs.
  cbv zeta. destruct (sort_Search_spec (fun i => x <=? vget v i) (Z.of_nat (length v)))
    as (Hr & Hlo & Hhi); [lia| |].
  { intros a b Hab Hb. rewrite !Z.leb_le. pose proof (sorted_vget_le v a b Hs). lia. }
  fold (search_ge v x) in *. split; [done|].
  assert (forall y, y ∈ take (Z.to_nat (search_ge v x)) v -> y < x) as Ht.
  { intros y (k & Hk)%list_elem_of_lookup. apply lookup_take_Some in Hk as [Hk Hlt].
    specialize (Hlo (Z.of_nat k)). rewrite (vget_lookup _ _ _ Hk), Z.leb_gt in Hlo. lia. }
  assert (forall y, y ∈ drop (Z.to_nat (search_ge v x)) v -> x <= y) as Hd.
  { intros y (k & Hk)%list_elem_of_lookup. rewrite lookup_drop in Hk.
    pose proof (lookup_lt_Some _ _ _ Hk).
    specialize (Hhi (Z.of_nat (Z.to_nat (search_ge v x) + k))).
    rewrite (vget_lookup _ _ _ Hk), Z.leb_le in Hhi. lia. }
  assert (forall y, y ∈ v <-> y ∈ take (Z.to_nat (search_ge v x)) v \/ y ∈ drop (Z.to_nat (search_ge v x)) v) as Hsp.
  { intros y. rewrite <- elem_of_app, take_drop. done. }
  split; intros y; rewrite Hsp; (split; [by auto|]); intros [[Hy|Hy] Hc]; try done;
    [apply Hd in Hy|apply Ht in Hy]; lia.
Qed.

Lemma search_gt_spec :
  let i := search_gt v x in
  0 <= i <= Z.of_nat (length v) /\
  (forall y, y ∈ drop (Z.to_nat i) v <-> y ∈ v /\ x < y).
Proof using Hs.
  cbv zeta. destruct (sort_Search_spec (fun i => x <? vget v i) (Z.of_nat (length v)))
    as (Hr & Hlo & Hhi); [lia| |].
  { intros a b Hab Hb. rewrite !Z.ltb_lt. pose proof (sorted_vget_le v a b Hs). lia. }
  fold (search_gt v x) in *. split; [done|].
  assert (forall y, y ∈ take (Z.to_nat (search_gt v x)) v -> y <= x) as Ht.
  { intros y (k & Hk)%list_elem_of_lookup. apply lookup_take_Some in Hk as [Hk Hlt].
    specialize (Hlo (Z.of_nat k)). rewrite (vget_lookup _ _ _ Hk), Z.ltb_ge in Hlo. lia. }
  assert (forall y, y ∈ drop (Z.to_nat (search_gt v x)) v -> x < y) as Hd.
  { intros y (k & Hk)%list_elem_of_lookup. rewrite lookup_drop in Hk.
    pose proof (lookup_lt_Some _ _ _ Hk).
    specialize (Hhi (Z.of_nat (Z.to_nat (search_gt v x) + k))).
    rewrite (vget_lookup _ _ _ Hk), Z.ltb_lt in Hhi. lia. }
  assert (forall y, y ∈ v <-> y ∈ take (Z.to_nat (search_gt v x)) v \/ y ∈ drop (Z.to_nat (search_gt v x)) v) as Hsp.
  { intros y. rewrite <- elem_of_app, take_drop. done. }
  intros y. rewrite Hsp. split; [by auto|]. intros [[Hy|Hy] Hc]; [apply Ht in Hy; lia|done].
Qed.

Lemma search_ge_hit :
  (search_ge v x <? Z.of_nat (length v)) && (vget v (search_ge v x) =? x) = true <-> x ∈ v.
Proof using Hs.
  destruct search_ge_spec as (Hr & Ht & Hd). rewrite andb_true_iff, Z.ltb_lt, Z.eqb_eq. split.
  - intros [Hlt <-]. eapply list_elem_of_lookup_2, vget_some. lia.
  - intros Hx. assert (x ∈ drop (Z.to_nat (search_ge v x)) v) as (k & Hk)%list_elem_of_lookup
      by (apply Hd; split; [done|lia]).
    rewrite lookup_drop in Hk. pose proof (lookup_lt_Some _ _ _ Hk) as Hlt. split; [lia|].
    assert (v !! Z.to_nat (search_ge v x) = Some (vget v (search_ge v x))) as E by (apply vget_some; lia).
    assert (x <= vget v (search_ge v x)).
    { apply Hd. apply list_elem_of_lookup. exists 0%nat. by rewrite lookup_drop, Nat.add_0_r. }
    destruct k as [|k]; [rewrite Nat.add_0_r in Hk; congruence|].
    pose proof (sorted_lookup_lt v (Z.to_nat (search_ge v x)) (Z.to_nat (search_ge v x) + S k)
      _ _ Hs ltac:(lia) E Hk). lia.
Qed.
End SearchSpec.

Lemma sorted_drop_head v i : sorted v -> sorted (drop i v) /\ sorted (take i v).
Proof. intros H. rewrite <- (take_drop i v) in H.
  apply (proj1 (sorted_app_split _ _)) in H. tauto. Qed.

(** A run end is never before the slot asked for, sorted or not. *)
Lemma lowerBound_ge x v r : lowerBound x v = Some r -> x <= r.
Proof.
  unfold lowerBound. destruct (Z.eqb_spec (search_ge v x) (Z.of_nat (length v))) as [|N]; [done|]. intros [= <-].
  unfold search_ge in *. set (f := fun i => x <=? vget v i) in *.
  assert (sort_Search (Z.of_nat (length v)) f <= Z.of_nat (length v)) as Hle.
  { unfold sort_Search. rewrite Nat2Z.id. apply search_loop_le; lia. }
  destruct (sort_Search_hit f (Z.of_nat (length v))) as [_ Hf]; [lia|lia|]. subst f. simpl in Hf. lia.
Qed.

Lemma lowerBound_spec v x :
  sorted v ->
  match lowerBound x v with
  | Some e => e ∈ v /\ x <= e /\ forall y, y ∈ v -> x <= y -> e <= y
  | None => forall y, y ∈ v -> y < x
  end.
Proof.
  intros Hs. unfold lowerBound. destruct (search_ge_spec v x Hs) as (Hr & Ht & Hd).
  destruct (Z.eqb_spec (search_ge v x) (Z.of_nat (length v))) as [E|E].
  - intros y Hy. apply Ht. rewrite E, Nat2Z.id, take_ge by lia. done.
  - assert (v !! Z.to_nat (search_ge v x) = Some (vget v (search_ge v x))) as El by (apply vget_some; lia).
    assert (vget v (search_ge v x) ∈ drop (Z.to_nat (search_ge v x)) v) as [Hin Hle]%Hd.
    { apply list_elem_of_lookup. exists 0%nat. by rewrite lookup_drop, Nat.add_0_r. }
    split_and!; auto. intros y Hy Hxy.
    assert (y ∈ drop (Z.to_nat (search_ge v x)) v) as (k & Hk)%list_elem_of_lookup by by apply Hd.
    rewrite lookup_drop in Hk. destruct k as [|k]; [rewrite Nat.add_0_r, El in Hk; injection Hk; lia|].
    apply Z.lt_le_incl. refine (sorted_lookup_lt v _ _ _ _ Hs _ El Hk). lia.
Qed.

Lemma insert_sorted_spec v x :
  sorted v -> sorted (insert_sorted x v) /\ forall y, y ∈ insert_sorted x v <-> y = x \/ y ∈ v.
Proof.
  intros Hs. unfold insert_sorted. pose proof (search_ge_hit v x Hs) as Hh.
  destruct (search_ge_spec v x Hs) as (Hr & Ht & Hd).
  destruct ((search_ge v x <? Z.of_nat (length v)) && _).
  { split; [done|]. intros y. assert (x ∈ v) by by apply Hh. naive_solver. }
  assert (x ∉ v) as Hx by (rewrite <- Hh; done).
  destruct (sorted_drop_head v (Z.to_nat (search_ge v x)) Hs) as [Hsd Hst]. split.
  - apply sorted_app_split. split_and!; auto.
    + constructor; [done|]. rewrite Forall_forall. intros y [Hy Hle]%Hd.
      assert (y <> x) by (intros ->; done). lia.
    + intros y z [_ Hy]%Ht [->|[_ Hz]%Hd]%elem_of_cons; lia.
  - intros y. rewrite elem_of_app, elem_of_cons, Ht, Hd.
    destruct (Z.lt_ge_cases y x); intuition (subst; auto; try lia).
Qed.

Lemma erase_spec v x :
  sorted v -> sorted (erase x v) /\ forall y, y ∈ erase x v <-> y <> x /\ y ∈ v.
Proof.
  intros Hs. unfold erase. pose proof (search_ge_hit v x Hs) as Hh.
  destruct (search_ge_spec v x Hs) as (Hr & Ht & Hd).
  destruct ((search_ge v x <? Z.of_nat (length v)) && _) eqn:E.
  - apply andb_true_iff in E as [Elt%Z.ltb_lt Ex%Z.eqb_eq].
    pose proof (vget_some v (search_ge v x) ltac:(lia)) as El. rewrite Ex in El.
    pose proof Hs as Hs'. rewrite <- (take_drop (Z.to_nat (search_ge v x)) v) in Hs'.
    rewrite (drop_S _ _ _ El) in Hs', Hd.
    apply (proj1 (sorted_app_split _ _)) in Hs' as (Hst & [Hsd Hall]%StronglySorted_inv & Hcr).
    rewrite Forall_forall in Hall. split.
    + apply sorted_app_split. split_and!; auto. intros y z Hy Hz. apply Hcr; [done|by right].
    + intros y. rewrite elem_of_app, Ht. specialize (Hd y). rewrite elem_of_cons in Hd.
      specialize (Hall y). split.
      * intros [[? ?]|Hy]; [split; [lia|done]|]. specialize (Hall Hy).
        destruct Hd as [Hd _]. destruct (Hd (or_intror Hy)). split; [lia|done].
      * intros [Hne Hy]. destruct (Z.lt_ge_cases y x) as [|Hge]; [by left; split|].
        right. destruct Hd as [_ Hd]. destruct (Hd (conj Hy Hge)); [done|done].
  - split; [done|]. intros y. assert (x ∉ v) by (rewrite <- Hh; done). naive_solver.
Qed.

Lemma eraseUpTo_spec v x :
  sorted v -> sorted (eraseUpTo x v) /\ forall y, y ∈ eraseUpTo x v <-> x < y /\ y ∈ v.
Proof.
  intros Hs. unfold eraseUpTo. destruct (search_gt_spec v x Hs) as (Hr & Hd).
  split; [by apply sorted_drop_head|]. intros y. rewrite Hd. tauto.
Qed.

(** On a sorted slice, [sortedU32] is an ordered set: [lowerBound] is the
    least element at or above its argument (an error exactly when there is
    none), [insert], [erase] and [eraseUpTo] add one element, remove one and
    remove every element up to a bound, and all keep the slice sorted. *)
Theorem sortedU32_refines_set v x :
  sorted v ->
  match lowerBound x v with
  | Some e => e ∈ v /\ x <= e /\ (forall y, y ∈ v -> x <= y -> e <= y)
  | None => forall y, y ∈ v -> y < x
  end /\
  (sorted (insert_sorted x v) /\ forall y, y ∈ insert_sorted x v <-> y = x \/ y ∈ v) /\
  (sorted (erase x v) /\ forall y, y ∈ erase x v <-> y <> x /\ y ∈ v) /\
  (sorted (eraseUpTo x v) /\ forall y, y ∈ eraseUpTo x v <-> x < y /\ y ∈ v).
Proof.
  intros Hs. split_and!; try (by apply insert_sorted_spec); try (by apply erase_spec);
    try (by apply eraseUpTo_spec). by apply lowerBound_spec.
Qed.

Lemma sortedU32_refines_set_witness :
  match lowerBound 4 [2; 5; 9] with
  | Some e => e ∈ [2; 5; 9] /\ 4 <= e /\ (forall y, y ∈ [2; 5; 9] -> 4 <= y -> e <= y)
  | None => forall y, y ∈ [2; 5; 9] -> y < 4
  end /\
  (sorted (insert_sorted 4 [2; 5; 9]) /\ forall y, y ∈ insert_sorted 4 [2; 5; 9] <-> y = 4 \/ y ∈ [2; 5; 9]) /\
  (sorted (erase 4 [2; 5; 9]) /\ forall y, y ∈ erase 4 [2; 5; 9] <-> y <> 4 /\ y ∈ [2; 5; 9]) /\
  (sorted (eraseUpTo 4 [2; 5; 9]) /\ forall y, y ∈ eraseUpTo 4 [2; 5; 9] <-> 4 < y /\ y ∈ [2; 5; 9]).
Proof. apply sortedU32_refines_set. repeat constructor; lia. Defined.

(** ** slotMap *)

Definition sm_wf {T} (m : slotMap T) : Prop :=
  is_u32 (firstNonFinalized m) /\
  forall k s, slots m !! k = Some s -> firstNonFinalized m <= k < 2 ^ 32.

Lemma lookup_delete_keys {T} ks (m : gmap Z T) k :
  delete_keys ks m !! k = if decide (k ∈ ks) then None else m !! k.
Proof.
  induction ks as [|a ks IH]; [done|]. cbn [delete_keys foldr].
  fold (delete_keys ks m). rewrite lookup_delete, IH. repeat case_decide; set_solver.
Qed.

(** What pruning leaves: the horizon moves to [slot + 1] when that is higher, and
    exactly the slots at or above it stay. *)
Definition pruned {T} (slot : Z) (m m' : slotMap T) : Prop :=
  firstNonFinalized m' = Z.max (firstNonFinalized m) (slot + 1) /\
  forall k, slots m' !! k = if k <? firstNonFinalized m' then None else slots m !! k.

(** Pruning moves the horizon up and keeps the slots above it. *)
Lemma notifyFinalized_keeps {T} slot (m : slotMap T) :
  firstNonFinalized m <= firstNonFinalized (sm_notifyFinalized slot m) /\
  forall k, firstNonFinalized (sm_notifyFinalized slot m) <= k ->
    slots (sm_notifyFinalized slot m) !! k = slots m !! k.
Proof.
  unfold sm_notifyFinalized. destruct (Z.leb_spec (u32 (slot + 1)) (firstNonFinalized m)); [done|].
  case_match; simpl; (split; [lia|]); intros k Hk.
  - rewrite lookup_delete_keys. case_decide as Hd; [|done]. rewrite elem_of_range in Hd. lia.
  - rewrite map_lookup_filter. destruct (slots m !! k); simpl; [|done]. case_guard; [done|lia].
Qed.

(** Pruning only drops slots. *)
Lemma sm_notify_lookup {T} slot (m : slotMap T) i s :
  slots (sm_notifyFinalized slot m) !! i = Some s -> slots m !! i = Some s.
Proof.
  unfold sm_notifyFinalized. case_match; [done|]. case_match; simpl.
  - generalize (range (firstNonFinalized m) (slot +₃₂ 1)) as ks. intros ks. induction ks as [|k ks IH]; simpl; [done|].
    intros [_ Hd]%lookup_delete_Some. auto.
  - by intros [? _]%map_lookup_filter_Some.
Qed.

Lemma sm_notifyFinalized_spec {T} slot (m : slotMap T) :
  sm_wf m -> 0 <= slot < 2 ^ 32 - 1 -> pruned slot m (sm_notifyFinalized slot m).
Proof.
  intros [Hf Hk] Hslot. unfold sm_notifyFinalized, is_u32 in *.
  rewrite !(u32_small (slot + 1)) by (unfold is_u32; lia).
  assert (forall k, k < firstNonFinalized m -> slots m !! k = None) as Hlow.
  { intros k Hlt. destruct (slots m !! k) eqn:E; [|done]. apply Hk in E. lia. }
  destruct (Z.leb_spec (slot + 1) (firstNonFinalized m)).
  { split; [lia|]. intros k. destruct (Z.ltb_spec k (firstNonFinalized m)); auto. }
  rewrite u32_small by (unfold is_u32; lia).
  case_match; (split; [cbn; lia|]); intros k; cbn.
  - rewrite lookup_delete_keys. destruct (Z.ltb_spec k (slot + 1)).
    + case_decide as Hd; [done|]. apply Hlow. rewrite elem_of_range in Hd. lia.
    + case_decide as Hd; [|done]. rewrite elem_of_range in Hd. lia.
  - rewrite map_lookup_filter. destruct (slots m !! k) as [s|] eqn:E; simpl;
      destruct (Z.ltb_spec k (slot + 1)); try done; case_guard; try done; lia.
Qed.

Lemma pruned_wf {T} slot (m m' : slotMap T) :
  sm_wf m -> 0 <= slot < 2 ^ 32 - 1 -> pruned slot m m' -> sm_wf m'.
Proof.
  intros [Hf Hk] Hs [Hf' Hk']. unfold is_u32 in *. split; [unfold is_u32; lia|].
  intros k s. rewrite Hk'. destruct (Z.ltb_spec k (firstNonFinalized m')); [done|].
  intros ?%Hk. lia.
Qed.

(** Both sweeps of [notifyFinalized] (by range and over all keys) do the
    same: the horizon becomes [max(old, slot+1)], every slot below it is
    dropped, every slot at or above it is kept, and the map stays well formed. *)
Theorem notifyFinalized_prunes {T} slot (m : slotMap T) :
  sm_wf m -> 0 <= slot < 2 ^ 32 - 1 ->
  pruned slot m (sm_notifyFinalized slot m) /\ sm_wf (sm_notifyFinalized slot m).
Proof.
  intros Hm Hs. pose proof (sm_notifyFinalized_spec slot m Hm Hs).
  split; [done|]. by eapply pruned_wf.
Qed.

Lemma notifyFinalized_prunes_witness :
  let m := mkSlotMap 2 (<[3 := true]> (<[7 := false]> ∅)) in
  pruned 3 m (sm_notifyFinalized 3 m) /\ sm_wf (sm_notifyFinalized 3 m).
Proof.
  apply notifyFinalized_prunes; [|lia]. split; [unfold is_u32; simpl; lia|].
  intros k s. simpl. rewrite !lookup_insert, lookup_empty.
  repeat case_decide; subst; simpl; intros; simplify_eq; lia.
Defined.
