(* ===== verification/SimplexWire.v ===== *)
(** * The Simplex wire layer ([src/service/validator/simplex/tl.go])

    The hand-written codec of [consensus.simplex.vote], the conversions between
    domain values and TL objects, certificates and journal records.

    The TL runtime (package [tonutils-go/tl]: constructor ids, the [bytes] field
    codec and the reflection serializer) is outside the repository.  It is the
    class [TLRuntime]; what the code relies on of it is the class [TLLaws]. *)

From S2P Require Import Prelude.
From S2P Require Import SimplexTypes.
From stdpp Require Import strings.

#[local] Open Scope Z_scope.
#[local] Open Scope go_scope.

(** ** TL objects and the runtime *)

Record BlockIDExt := mkBlockIDExt {
  b_Workchain : Z; b_Shard : Z; b_SeqNo : Z; b_RootHash : bytes; b_FileHash : bytes }.

#[export] Instance BlockIDExt_eq_dec : EqDecision BlockIDExt.
Proof. solve_decision. Defined.

(** [ton.ConsensusCandidateID]: the slot is an [int32]. *)
Record TLCandidateID := mkTLCandidateID { tc_Slot : Z; tc_Hash : bytes }.

Inductive TLVote :=
| TLNotarizeVote (id : TLCandidateID)
| TLFinalizeVote (id : TLCandidateID)
| TLSkipVote (slot : Z).

Inductive TLParent :=
| TLCandidateParent (id : TLCandidateID)
| TLCandidateWithoutParents.

Record TLVoteSignature := mkTLVoteSignature { ts_Who : Z; ts_Signature : bytes }.

Inductive TLObject :=
| TLObjVote (v : TLVote)
| TLObjCandidateID (id : TLCandidateID)
| TLDataToSign (sessionID data : bytes)
| TLSignatureSet (votes : list TLVoteSignature)
| TLCertificate (vote : TLVote) (signatures : list TLVoteSignature)
| TLDbKeyVote (voteHash : bytes)
| TLDbOurVote (vote : TLVote) (seqno : Z)
| TLDbKeyPoolState
| TLDbPoolState (firstNonAnnouncedWindow : Z)
| TLHashDataEmpty (block : BlockIDExt) (parent : TLCandidateID)
| TLHashDataOrdinary (block : BlockIDExt) (collatedFileHash : bytes) (parent : TLParent)
| TLDelegationToSign (windowStartSlot : Z) (collatorID : bytes)
| TLPublicKeyED25519 (key : bytes).

(** The destination type of a [tl.Parse] call. *)
Inductive TLType := TyCertificate | TyDbOurVote | TyDbPoolState.

Definition schemeNotarizeVote : string :=
  "consensus.simplex.notarizeVote id:consensus.CandidateId = consensus.simplex.UnsignedVote".
Definition schemeFinalizeVote : string :=
  "consensus.simplex.finalizeVote id:consensus.CandidateId = consensus.simplex.UnsignedVote".
Definition schemeSkipVote : string :=
  "consensus.simplex.skipVote slot:int = consensus.simplex.UnsignedVote".
Definition schemeSignedVote : string :=
  "consensus.simplex.vote vote:consensus.simplex.UnsignedVote signature:bytes = consensus.simplex.Vote".
Definition schemeCertificate : string :=
  "consensus.simplex.certificate vote:consensus.simplex.UnsignedVote signatures:consensus.simplex.VoteSignatureSet = consensus.simplex.Certificate".
Definition schemeCandidateID : string :=
  "consensus.candidateId slot:int hash:int256 = consensus.CandidateId".
Definition schemeDbOurVote : string :=
  "consensus.simplex.db.ourVote vote:consensus.simplex.UnsignedVote seqno:long = consensus.simplex.db.Vote".
Definition schemeDbCert : string :=
  "consensus.simplex.db.cert cert:consensus.simplex.Certificate = consensus.simplex.db.Vote".

Class TLRuntime := {
  tl_CRC : string -> Z;
  tl_AppendBytes : bytes -> bytes -> option bytes;
  tl_FromBytes : bytes -> option (bytes * bytes);
  tl_Serialize : TLObject -> option bytes;
  tl_Parse : TLType -> bytes -> option (TLObject * bytes) }.

Section Wire.
Context `{TLRuntime}.

Definition idSignedVote : Z := tl_CRC schemeSignedVote.
Definition idCertificate : Z := tl_CRC schemeCertificate.
Definition idDbOurVote : Z := tl_CRC schemeDbOurVote.
Definition idDbCert : Z := tl_CRC schemeDbCert.
Definition idNotarizeVote : Z := tl_CRC schemeNotarizeVote.
Definition idFinalizeVote : Z := tl_CRC schemeFinalizeVote.
Definition idSkipVote : Z := tl_CRC schemeSkipVote.
Definition idCandidateID : Z := tl_CRC schemeCandidateID.

(** ** Conversions; [None] is the panic on an invalid vote kind *)

Definition tlCandidateID (id : CandidateID) : TLCandidateID :=
  mkTLCandidateID (i32 (cid_Slot id)) (cid_Hash id).

Definition parentToTL (p : ParentID) : TLParent :=
  if negb (par_Exists p) then TLCandidateWithoutParents
  else TLCandidateParent (tlCandidateID (par_ID p)).

Inductive wire_error :=
| ErrTLParse | ErrCandidateHashLength | ErrTruncated | ErrUnexpectedCtor | ErrTrailingBytes
| ErrTooManySignatures | ErrVoteSignature | ErrUnexpectedType.

Definition candidateIDFromTL (t : TLCandidateID) : result wire_error CandidateID :=
  if negb (length (tc_Hash t) =? 32)%nat then Err ErrCandidateHashLength
  else Ok (mkCandidateID (u32 (tc_Slot t)) (tc_Hash t)).

Definition voteToTL (v : Vote) : option TLVote :=
  match v_Kind v with
  | VoteNotarize => Some (TLNotarizeVote (tlCandidateID (v_ID v)))
  | VoteFinalize => Some (TLFinalizeVote (tlCandidateID (v_ID v)))
  | VoteSkip => Some (TLSkipVote (i32 (cid_Slot (v_ID v))))
  | VoteKindOther _ => None
  end.

Definition voteFromTL (t : TLVote) : result wire_error Vote :=
  match t with
  | TLNotarizeVote id => try id := candidateIDFromTL id in Ok (NotarizeVote id)
  | TLFinalizeVote id => try id := candidateIDFromTL id in Ok (FinalizeVote id)
  | TLSkipVote slot => Ok (SkipVote (u32 slot))
  end.

Definition VoteBytes (v : Vote) : option bytes :=
  t ← voteToTL v; tl_Serialize (TLObjVote t).

Definition DataToSign (sessionID payload : bytes) : option bytes :=
  tl_Serialize (TLDataToSign sessionID payload).

(** ** consensus.simplex.vote *)

Definition appendUnsignedVote (dst : bytes) (v : Vote) : option bytes :=
  match v_Kind v with
  | VoteSkip =>
      let dst := dst ++ le_put 4 idSkipVote in
      Some (dst ++ le_put 4 (cid_Slot (v_ID v)))
  | VoteNotarize | VoteFinalize =>
      let dst := dst ++ le_put 4 (if decide (v_Kind v = VoteNotarize) then idNotarizeVote
                                  else idFinalizeVote) in
      let dst := dst ++ le_put 4 idCandidateID in
      let dst := dst ++ le_put 4 (cid_Slot (v_ID v)) in
      Some (dst ++ cid_Hash (v_ID v))
  | VoteKindOther _ => None
  end.

Definition SignedVote_Serialize (sv : SignedVote) : option bytes :=
  let dst := le_put 4 idSignedVote in
  dst ← appendUnsignedVote dst (sv_Vote sv);
  tl_AppendBytes dst (sv_Signature sv).

Definition parseUnsignedVote (data : bytes) : result wire_error (Vote * bytes) :=
  if (length data <? 4)%nat then Err ErrTruncated else
  let id := le_get (take 4 data) in
  if id =? idSkipVote then
    if (length data <? 8)%nat then Err ErrTruncated
    else Ok (SkipVote (le_get (take 4 (drop 4 data))), drop 8 data)
  else if (id =? idNotarizeVote) || (id =? idFinalizeVote) then
    let kind := if id =? idNotarizeVote then VoteNotarize else VoteFinalize in
    if (length data <? 4 + 4 + 4 + 32)%nat then Err ErrTruncated
    else if negb (le_get (take 4 (drop 4 data)) =? idCandidateID) then Err ErrUnexpectedCtor
    else Ok (mkVote kind (mkCandidateID (le_get (take 4 (drop 8 data))) (take 32 (drop 12 data))),
             drop 44 data)
  else Err ErrUnexpectedCtor.

Definition parseSignedVote (data : bytes) : result wire_error (Vote * bytes) :=
  if (length data <? 4)%nat then Err ErrTruncated else
  if negb (le_get (take 4 data) =? idSignedVote) then Err ErrUnexpectedCtor else
  try (v, rest) := parseUnsignedVote (drop 4 data) in
  match tl_FromBytes rest with
  | None => Err ErrVoteSignature
  | Some (sig, rest) => if negb (length rest =? 0)%nat then Err ErrTrailingBytes else Ok (v, sig)
  end.

(** ** Certificates *)

Definition toTLSignatureSet (sigs : list VoteSignature) : list TLVoteSignature :=
  (fun s => mkTLVoteSignature (i32 (vs_ValidatorIndex s)) (vs_Signature s)) <$> sigs.

Definition SignatureSetBytes (c : Certificate) : option bytes :=
  tl_Serialize (TLSignatureSet (toTLSignatureSet (cert_Signatures c))).

Definition Certificate_Serialize (c : Certificate) : option bytes :=
  t ← voteToTL (cert_Vote c);
  tl_Serialize (TLCertificate t (toTLSignatureSet (cert_Signatures c))).

Definition parseCertificate (data : bytes) (maxSigs : nat) : result wire_error Certificate :=
  match tl_Parse TyCertificate data with
  | Some (TLCertificate vote sigs, rest) =>
      if negb (length rest =? 0)%nat then Err ErrTrailingBytes else
      try v := voteFromTL vote in
      if (maxSigs <? length sigs)%nat then Err ErrTooManySignatures else
      Ok (mkCertificate v
            ((fun s => mkVoteSignature (u32 (ts_Who s)) (ts_Signature s)) <$> sigs))
  | Some _ => Err ErrUnexpectedType
  | None => Err ErrTLParse
  end.

(** ** Journal records *)

Definition VoteRecordKey (hash : bytes) : option bytes := tl_Serialize (TLDbKeyVote hash).

Definition EncodeOurVoteRecord (v : Vote) (seqno : Z) : option bytes :=
  t ← voteToTL v; tl_Serialize (TLDbOurVote t seqno).

Definition EncodeCertificateRecord (c : Certificate) : option bytes :=
  wire ← Certificate_Serialize c; Some (le_put 4 idDbCert ++ wire).

Inductive VoteJournalRecord :=
| JournalVote (v : Vote) (seqno : Z)
| JournalCert (c : Certificate).

Definition DecodeVoteJournalRecord (data : bytes) (maxSigs : nat)
  : result wire_error VoteJournalRecord :=
  if (length data <? 4)%nat then Err ErrTruncated else
  let id := le_get (take 4 data) in
  if id =? idDbOurVote then
    match tl_Parse TyDbOurVote data with
    | Some (TLDbOurVote vote seqno, rest) =>
        if negb (length rest =? 0)%nat then Err ErrTrailingBytes else
        try v := voteFromTL vote in Ok (JournalVote v seqno)
    | Some _ => Err ErrUnexpectedType
    | None => Err ErrTLParse
    end
  else if id =? idDbCert then
    try c := parseCertificate (drop 4 data) maxSigs in Ok (JournalCert c)
  else Err ErrUnexpectedCtor.

Definition PoolStateKey : option bytes := tl_Serialize TLDbKeyPoolState.

Definition EncodePoolStateRecord (firstNonAnnouncedWindow : Z) : option bytes :=
  tl_Serialize (TLDbPoolState (i32 firstNonAnnouncedWindow)).

Definition DecodePoolStateRecord (data : bytes) : result wire_error Z :=
  match tl_Parse TyDbPoolState data with
  | Some (TLDbPoolState w, rest) =>
      if negb (length rest =? 0)%nat then Err ErrTrailingBytes else Ok (u32 w)
  | Some _ => Err ErrUnexpectedType
  | None => Err ErrTLParse
  end.
End Wire.

(** ** What the code relies on of the TL runtime

    Constructor ids are 32-bit and distinct where the code dispatches on them
    (their values are pinned by [tl_test.go]); the [bytes] codec appends to its
    destination and is undone by the decoder; [tl.Parse] undoes a boxed
    [tl.Serialize] of the parsed type; a boxed record starts with its id. *)

(** The hashed description of a candidate, with its fixed-size fields. *)
Definition wf_block_id (b : BlockIDExt) : Prop :=
  is_i32 (b_Workchain b) /\ is_i64 (b_Shard b) /\ is_u32 (b_SeqNo b) /\
  length (b_RootHash b) = 32%nat /\ length (b_FileHash b) = 32%nat.

(** What fits the three length bytes of a TL [bytes] field. *)
Definition short_bytes (b : bytes) : Prop := Z.of_nat (length b) < 2 ^ 24.
Definition wf_tl_id (id : TLCandidateID) : Prop := is_i32 (tc_Slot id) /\ length (tc_Hash id) = 32%nat.
Definition wf_tl_vote (t : TLVote) : Prop :=
  match t with
  | TLNotarizeVote id | TLFinalizeVote id => wf_tl_id id
  | TLSkipVote slot => is_i32 slot
  end.
Definition wf_tl_sig (s : TLVoteSignature) : Prop :=
  is_i32 (ts_Who s) /\ short_bytes (ts_Signature s).
Definition parsed_as (ty : TLType) (o : TLObject) : Prop :=
  match ty, o with
  | TyCertificate, TLCertificate vote sigs => wf_tl_vote vote /\ Forall wf_tl_sig sigs
  | TyDbOurVote, TLDbOurVote vote seqno => wf_tl_vote vote /\ is_i64 seqno
  | TyDbPoolState, TLDbPoolState w => is_i32 w
  | _, _ => False
  end.

Definition wf_hash_data (o : TLObject) : Prop :=
  match o with
  | TLHashDataEmpty b p => wf_block_id b /\ wf_tl_id p
  | TLHashDataOrdinary b h p =>
      wf_block_id b /\ length h = 32%nat /\
      match p with TLCandidateParent id => wf_tl_id id | TLCandidateWithoutParents => True end
  | _ => False
  end.

(** Small objects of fixed-size fields: candidate ids, delegations, keys. *)
Definition wf_fixed (o : TLObject) : Prop :=
  match o with
  | TLObjCandidateID id => wf_tl_id id
  | TLDelegationToSign w c => is_i32 w /\ length c = 32%nat
  | TLPublicKeyED25519 k => length k = 32%nat
  | _ => False
  end.

Class TLLaws `{TLRuntime} : Prop := {
  law_crc : forall s, is_u32 (tl_CRC s);
  law_ids_vote : NoDup [idNotarizeVote; idFinalizeVote; idSkipVote];
  law_ids_record : idDbOurVote <> idDbCert;
  law_ids_message : idSignedVote <> idCertificate;
  law_append dst data out : tl_AppendBytes dst data = Some out ->
    exists enc, out = dst ++ enc /\ tl_FromBytes enc = Some (data, []);
  law_append_ok dst data : short_bytes data -> is_Some (tl_AppendBytes dst data);
  law_parse ty o out : parsed_as ty o -> tl_Serialize o = Some out -> tl_Parse ty out = Some (o, []);
  law_boxed_vote vote seqno out : tl_Serialize (TLDbOurVote vote seqno) = Some out ->
    exists body, out = le_put 4 idDbOurVote ++ body;
  law_serialize ty o : parsed_as ty o -> is_Some (tl_Serialize o);
  law_serialize_vote t : wf_tl_vote t -> is_Some (tl_Serialize (TLObjVote t));
  law_vote_short t b : wf_tl_vote t -> tl_Serialize (TLObjVote t) = Some b -> short_bytes b;
  law_serialize_data s d : length s = 32%nat -> short_bytes d ->
    is_Some (tl_Serialize (TLDataToSign s d));
  law_serialize_fixed o : wf_fixed o -> exists b, tl_Serialize o = Some b /\ short_bytes b;
  law_serialize_hash o : wf_hash_data o -> is_Some (tl_Serialize o);
  law_serialize_key h : length h = 32%nat -> is_Some (tl_Serialize (TLDbKeyVote h));
  law_serialize_key_inj h h' : length h = 32%nat -> length h' = 32%nat ->
    tl_Serialize (TLDbKeyVote h) = tl_Serialize (TLDbKeyVote h') -> h = h';
  law_serialize_hash_inj o o' : wf_hash_data o -> wf_hash_data o' ->
    tl_Serialize o = tl_Serialize o' -> o = o';
  law_serialize_vote_inj t t' : wf_tl_vote t -> wf_tl_vote t' ->
    tl_Serialize (TLObjVote t) = tl_Serialize (TLObjVote t') -> t = t';
  law_serialize_data_inj s d s' d' : tl_Serialize (TLDataToSign s d) = tl_Serialize (TLDataToSign s' d') ->
    length s = 32%nat -> length s' = 32%nat -> s = s' /\ d = d' }.

(** ** Well-formed votes *)

(** A vote the codec can carry: a valid kind, a 32-bit slot, a 32-byte hash, and
    the zero hash for a skip. *)
Definition valid_kind (k : VoteKind) : Prop :=
  match k with VoteKindOther _ => False | _ => True end.
Definition wf_vote (v : Vote) : Prop :=
  valid_kind (v_Kind v) /\ wf_id (v_ID v) /\ (v_Kind v = VoteSkip -> cid_Hash (v_ID v) = zeroHash).
Definition wf_sig (s : VoteSignature) : Prop :=
  is_u32 (vs_ValidatorIndex s) /\ short_bytes (vs_Signature s).

(** The part of it the encoding depends on: lengths, not byte ranges. *)
Definition sized_id (id : CandidateID) : Prop := is_u32 (cid_Slot id) /\ length (cid_Hash id) = 32%nat.
Definition sized_vote (v : Vote) : Prop :=
  valid_kind (v_Kind v) /\ sized_id (v_ID v) /\ (v_Kind v = VoteSkip -> cid_Hash (v_ID v) = zeroHash).
Definition wf_cert (c : Certificate) : Prop :=
  sized_vote (cert_Vote c) /\ Forall wf_sig (cert_Signatures c).

Lemma wf_id_sized id : wf_id id -> sized_id id.
Proof. by intros [Hs [Hl _]]. Qed.
Lemma wf_vote_sized v : wf_vote v -> sized_vote v.
Proof. intros (Hk & Hi & Hz). split_and!; auto using wf_id_sized. Qed.
Lemma sized_NotarizeVote id : sized_id id -> sized_vote (NotarizeVote id).
Proof. intros Hi. by repeat split; try apply Hi. Qed.
Lemma sized_FinalizeVote id : sized_id id -> sized_vote (FinalizeVote id).
Proof. intros Hi. by repeat split; try apply Hi. Qed.
Lemma sized_SkipVote slot : is_u32 slot -> sized_vote (SkipVote slot).
Proof. intros Hs. by repeat split; try apply Hs. Qed.

Lemma wf_SkipVote slot : is_u32 slot -> wf_vote (SkipVote slot).
Proof. intros H. split_and!; try done. split; [done|apply wf_zeroHash]. Qed.

(** Slot [2^32 - 1] has no successor: [nextNonSkippedSlotAfter] would wrap to
    slot 0.  Votes the engine accepts or casts stay below it. *)
Definition lastSlot : Z := 2 ^ 32 - 1.
Definition low_id (id : CandidateID) : Prop := sized_id id /\ cid_Slot id < lastSlot.
Definition low_vote (v : Vote) : Prop := sized_vote v /\ Vote_Slot v < lastSlot.

Lemma low_NotarizeVote id : low_id id -> low_vote (NotarizeVote id).
Proof. intros [Hs Hl]. split; [by apply sized_NotarizeVote|done]. Qed.
Lemma low_FinalizeVote id : low_id id -> low_vote (FinalizeVote id).
Proof. intros [Hs Hl]. split; [by apply sized_FinalizeVote|done]. Qed.
Lemma low_SkipVote i : 0 <= i < lastSlot -> low_vote (SkipVote i).
Proof. unfold lastSlot. intros Hi. split; [apply sized_SkipVote; unfold is_u32; lia|unfold Vote_Slot, SkipVote, lastSlot; simpl; lia]. Qed.
Lemma low_vote_id v : low_vote v -> low_id (v_ID v).
Proof. by intros [(_ & Hi & _) Hl]. Qed.

Section WireProofs.
Context `{TLLaws}.

Lemma i32_range x : is_i32 (i32 x).
Proof. unfold is_i32, i32. pose proof (Z.mod_pos_bound (x + 2 ^ 31) (2 ^ 32)). lia. Qed.

Lemma voteFromTL_sized v t :
  sized_vote v -> voteToTL v = Some t -> voteFromTL t = Ok v /\ wf_tl_vote t.
Proof.
  destruct v as [k [slot hash]]. intros (Hk & [Hs Hl] & Hz). simpl in *.
  unfold voteToTL. simpl. destruct k; intros [= <-]; unfold voteFromTL, candidateIDFromTL; simpl.
  1,2: rewrite Hl; simpl; rewrite u32_i32 by done; repeat split; auto; apply i32_range.
  unfold SkipVote. rewrite u32_i32, <- Hz by done. repeat split; apply i32_range.
Qed.


Lemma voteToTL_some v : sized_vote v -> is_Some (voteToTL v).
Proof. intros (Hk & _). unfold voteToTL. destruct (v_Kind v); naive_solver. Qed.

Lemma voteToTL_inj v v' t :
  sized_vote v -> sized_vote v' -> voteToTL v = Some t -> voteToTL v' = Some t -> v = v'.
Proof.
  intros Hv Hv' E E'. destruct (voteFromTL_sized v t Hv E) as [R _].
  destruct (voteFromTL_sized v' t Hv' E') as [R' _]. congruence.
Qed.

(** What the decoders return. *)
Lemma voteFromTL_result t v : voteFromTL t = Ok v -> sized_vote v.
Proof.
  destruct t as [[s h]|[s h]|s]; simpl; unfold candidateIDFromTL; simpl.
  1,2: destruct (Nat.eqb_spec (length h) 32); simpl; [|done]; intros [= <-];
    (split; [done|]); (split; [split; [apply u32_range|done]|done]).
  intros [= <-]. apply sized_SkipVote, u32_range.
Qed.

Lemma take_le_put n x rest : take n (le_put n x ++ rest) = le_put n x.
Proof. rewrite take_app_le, take_ge by (rewrite length_le_put; lia). done. Qed.

Lemma drop_le_put n x rest : drop n (le_put n x ++ rest) = rest.
Proof. rewrite drop_app_ge by (rewrite length_le_put; lia). by rewrite length_le_put, Nat.sub_diag. Qed.

Lemma drop_le_put_add n m x rest : drop (n + m) (le_put n x ++ rest) = drop m rest.
Proof. rewrite <- drop_drop. by rewrite drop_le_put. Qed.

Lemma drop_split {A} n m (l : list A) : drop n l = take m (drop n l) ++ drop (n + m) l.
Proof. by rewrite <- drop_drop, take_drop. Qed.

Lemma le_get_crc s rest : le_get (take 4 (le_put 4 (tl_CRC s) ++ rest)) = tl_CRC s.
Proof. rewrite take_le_put. apply le_put4_get, law_crc. Qed.

Lemma ids_distinct :
  idNotarizeVote <> idFinalizeVote /\ idNotarizeVote <> idSkipVote /\ idFinalizeVote <> idSkipVote.
Proof. pose proof law_ids_vote as Hd. rewrite !NoDup_cons in Hd. set_solver. Qed.

Lemma parse_appendUnsignedVote v enc rest :
  wf_vote v -> appendUnsignedVote [] v = Some enc -> parseUnsignedVote (enc ++ rest) = Ok (v, rest).
Proof.
  destruct v as [k [slot hash]]. intros (Hk & [Hs [Hl Hb]] & Hz). simpl in *.
  destruct ids_distinct as (H1 & H2 & H3).
  unfold appendUnsignedVote. cbn [v_Kind v_ID cid_Slot cid_Hash].
  assert (forall k id, (id = idNotarizeVote /\ k = VoteNotarize) \/ (id = idFinalizeVote /\ k = VoteFinalize) ->
    is_u32 id -> parseUnsignedVote (((le_put 4 id ++ le_put 4 idCandidateID) ++ le_put 4 slot) ++ hash ++ rest)
    = Ok (mkVote k (mkCandidateID slot hash), rest)) as Hcand.
  { intros k' id Hid Hu. rewrite <- !app_assoc. unfold parseUnsignedVote.
    rewrite !(proj2 (Nat.ltb_ge _ _)) by (autorewrite with gtonrw; lia).
    rewrite (drop_le_put_add 4 4), (drop_le_put_add 4 8), (drop_le_put_add 4 40).
    rewrite (drop_le_put_add 4 4), (drop_le_put_add 4 36), (drop_le_put_add 4 32), !drop_le_put.
    rewrite !take_le_put, !le_put4_get by (auto; apply law_crc).
    rewrite Z.eqb_refl. cbn [negb].
    rewrite (take_app_le hash) by lia. rewrite (take_ge hash) by lia.
    rewrite (drop_app_ge hash), Hl by lia. rewrite Nat.sub_diag, drop_0.
    destruct Hid as [[-> ->]|[-> ->]].
    - rewrite (proj2 (Z.eqb_neq _ _) H2), Z.eqb_refl. done.
    - rewrite (proj2 (Z.eqb_neq _ _) H3), (proj2 (Z.eqb_neq idFinalizeVote idNotarizeVote)) by done.
      by rewrite Z.eqb_refl. }
  destruct k; try done; intros <-%(inj Some); cbv zeta; rewrite app_nil_l.
  - rewrite <- app_assoc. apply Hcand; [by left|apply law_crc].
  - rewrite <- app_assoc. apply Hcand; [by right|apply law_crc].
  - rewrite <- app_assoc. unfold parseUnsignedVote.
    rewrite !(proj2 (Nat.ltb_ge _ _)) by (autorewrite with gtonrw; lia).
    rewrite (drop_le_put_add 4 4), !drop_le_put, !take_le_put, !le_put4_get by (auto; apply law_crc).
    rewrite Z.eqb_refl.
    unfold SkipVote. rewrite Hz by done. done.
Qed.

Lemma appendUnsignedVote_app dst v enc :
  appendUnsignedVote dst v = Some enc ->
  exists enc', enc = dst ++ enc' /\ appendUnsignedVote [] v = Some enc'.
Proof.
  unfold appendUnsignedVote. destruct (v_Kind v); try done; intros <-%(inj Some); cbv zeta;
    rewrite <- !app_assoc; (eexists; split; [reflexivity|]); by rewrite ?app_nil_l, <- ?app_assoc.
Qed.

Lemma appendUnsignedVote_some dst v : wf_vote v -> is_Some (appendUnsignedVote dst v).
Proof. intros (Hk & _). unfold appendUnsignedVote. destruct (v_Kind v); try contradiction; eexists; reflexivity. Qed.

Lemma wf_toTLSignatureSet sigs : Forall wf_sig sigs -> Forall wf_tl_sig (toTLSignatureSet sigs).
Proof.
  intros Hs. apply Forall_fmap. eapply Forall_impl; [exact Hs|]. intros x [_ Hx].
  split; [apply i32_range|exact Hx].
Qed.

Lemma parse_certificate_wire c out n :
  wf_cert c -> (length (cert_Signatures c) <= n)%nat ->
  Certificate_Serialize c = Some out -> parseCertificate out n = Ok c.
Proof.
  destruct c as [v sigs]. intros [Hv Hs] Hn. simpl in *. unfold Certificate_Serialize.
  cbn [cert_Vote cert_Signatures]. destruct (voteToTL v) as [t|] eqn:Et; [|done]. simpl. intros E.
  destruct (voteFromTL_sized v t Hv Et) as [Ev Hwt].
  unfold parseCertificate.
  rewrite (law_parse TyCertificate (TLCertificate t (toTLSignatureSet sigs)) out (conj Hwt (wf_toTLSignatureSet _ Hs)) E).
  simpl. rewrite Ev. simpl. unfold toTLSignatureSet. rewrite length_fmap.
  rewrite (proj2 (Nat.ltb_ge _ _)) by done. f_equal. f_equal.
  rewrite <- list_fmap_compose. rewrite <- (list_fmap_id sigs) at 2.
  apply list_fmap_ext. intros i [w sg] Hi. unfold compose. simpl. f_equal. apply u32_i32.
  rewrite Forall_lookup in Hs. by apply Hs in Hi as [? _].
Qed.

Lemma certificate_serialize_some c : wf_cert c -> is_Some (Certificate_Serialize c).
Proof.
  intros [Hv Hs]. destruct (voteToTL_some _ Hv) as [t Et].
  unfold Certificate_Serialize. rewrite Et. cbn [mbind option_bind].
  apply (law_serialize TyCertificate). split; [by apply (voteFromTL_sized (cert_Vote c))|].
  by apply wf_toTLSignatureSet.
Qed.

(** Decoding an encoded [consensus.simplex.vote] gives the vote and its
    signature back, for every vote the protocol can carry. *)
Theorem signed_vote_roundtrip idx v sig :
  wf_vote v -> short_bytes sig ->
  exists wire, SignedVote_Serialize (mkSignedVote idx v sig) = Some wire /\
    parseSignedVote wire = Ok (v, sig).
Proof.
  intros Hv Hsig. unfold SignedVote_Serialize. cbn [sv_Vote sv_Signature].
  destruct (appendUnsignedVote_some (le_put 4 idSignedVote) v Hv) as [enc E]. rewrite E. simpl.
  destruct (law_append_ok enc sig Hsig) as [out Eo]. rewrite Eo. exists out. split; [done|].
  destruct (appendUnsignedVote_app _ _ _ E) as (encv & -> & Ev).
  destruct (law_append _ _ _ Eo) as (encs & -> & Es).
  rewrite <- !app_assoc. unfold parseSignedVote.
  rewrite (proj2 (Nat.ltb_ge _ _)) by (autorewrite with gtonrw; lia).
  rewrite (le_get_crc schemeSignedVote), Z.eqb_refl. cbn [negb].
  rewrite drop_le_put, (parse_appendUnsignedVote v encv encs Hv Ev). cbn [and_then].
  by rewrite Es.
Qed.

Lemma parseUnsignedVote_inv data v rest :
  Forall is_byte data -> parseUnsignedVote data = Ok (v, rest) ->
  wf_vote v /\ exists enc, appendUnsignedVote [] v = Some enc /\ data = enc ++ rest.
Proof.
  intros Hb. unfold parseUnsignedVote.
  assert (forall n, (n + 4 <= length data)%nat ->
    le_put 4 (le_get (take 4 (drop n data))) = take 4 (drop n data) /\
    is_u32 (le_get (take 4 (drop n data)))) as Hw.
  { intros n Hn. assert (length (take 4 (drop n data)) = 4%nat) as Hl by (autorewrite with gtonrw; lia).
    assert (Forall is_byte (take 4 (drop n data))) as Hbt by (by apply Forall_take, Forall_drop).
    split; [rewrite <- Hl at 1; by apply le_put_get|].
    pose proof (le_get_range _ Hbt) as Hr. rewrite Hl in Hr. exact Hr. }
  destruct (Nat.ltb_spec (length data) 4) as [|H4]; [done|].
  destruct (Hw 0%nat ltac:(lia)) as [Hid _]. rewrite drop_0 in Hid.
  assert (data = take 4 data ++ drop 4 data) as Hsp by by rewrite take_drop.
  destruct (Z.eqb_spec (le_get (take 4 data)) idSkipVote) as [Eid|Nid].
  - destruct (Nat.ltb_spec (length data) 8) as [|H8]; [done|]. intros [= <- <-].
    destruct (Hw 4%nat ltac:(lia)) as [Hsl Hu]. split; [by apply wf_SkipVote|].
    eexists. split; [done|]. cbn [SkipVote v_ID cid_Slot app].
    rewrite Hsp at 1. rewrite <- Eid, Hid, Hsl, <- app_assoc. f_equal.
    apply (drop_split 4 4).
  - destruct ((le_get (take 4 data) =? idNotarizeVote) || _) eqn:Ek; [|done].
    destruct (Nat.ltb_spec (length data) (4 + 4 + 4 + 32)) as [|H44]; [done|].
    destruct (Z.eqb_spec (le_get (take 4 (drop 4 data))) idCandidateID) as [Ec|]; [|done].
    cbn [negb]. intros [= <- <-].
    destruct (Hw 4%nat ltac:(lia)) as [Hci _]. destruct (Hw 8%nat ltac:(lia)) as [Hsl Hu]. split.
    { split_and!; cbn [v_Kind v_ID cid_Slot cid_Hash].
      - by destruct (_ =? _).
      - split; [exact Hu|]. split; cbn [cid_Hash]; [rewrite length_take, length_drop; lia|by apply Forall_take, Forall_drop].
      - by destruct (_ =? _). }
    assert (data = take 4 data ++ take 4 (drop 4 data) ++ take 4 (drop 8 data)
      ++ take 32 (drop 12 data) ++ drop 44 data) as Hall.
    { rewrite <- (drop_split 12 32), <- (drop_split 8 4), <- (drop_split 4 4). exact Hsp. }
    assert (forall id k, le_get (take 4 data) = id ->
      appendUnsignedVote [] (mkVote k (mkCandidateID (le_get (take 4 (drop 8 data))) (take 32 (drop 12 data))))
      = Some ((((le_put 4 id) ++ le_put 4 idCandidateID)
          ++ le_put 4 (le_get (take 4 (drop 8 data)))) ++ take 32 (drop 12 data)) ->
      exists enc, appendUnsignedVote [] (mkVote k (mkCandidateID (le_get (take 4 (drop 8 data)))
        (take 32 (drop 12 data)))) = Some enc /\ data = enc ++ drop 44 data) as Hfin.
    { intros id k Eid E. eexists. split; [exact E|].
      by rewrite <- Eid, <- Ec, Hid, Hci, Hsl, <- !app_assoc. }
    destruct (Z.eqb_spec (le_get (take 4 data)) idNotarizeVote) as [En|N]; simpl in Ek.
    + by apply (Hfin idNotarizeVote).
    + apply Z.eqb_eq in Ek. by apply (Hfin idFinalizeVote).
Qed.

Lemma parseSignedVote_wf data v sig : Forall is_byte data -> parseSignedVote data = Ok (v, sig) -> wf_vote v.
Proof.
  intros Hb. unfold parseSignedVote. destruct (_ <? _)%nat; [done|]. destruct (negb _); [done|].
  destruct (parseUnsignedVote (drop 4 data)) as [[v' rest]|] eqn:E; [|done]. simpl.
  destruct (tl_FromBytes rest) as [[sg r]|]; [|done]. destruct (negb _); [done|]. intros [= <- <-].
  eapply parseUnsignedVote_inv; [|exact E]. by apply Forall_drop.
Qed.

(** The decoder accepts one encoding per vote: whatever bytes
    [parseUnsignedVote] accepts start with the encoder's output for the vote it
    returns, so a vote has no second wire form. *)
Theorem parseUnsignedVote_canonical data v rest :
  Forall is_byte data -> parseUnsignedVote data = Ok (v, rest) ->
  wf_vote v /\ exists enc, appendUnsignedVote [] v = Some enc /\ data = enc ++ rest.
Proof. apply parseUnsignedVote_inv. Qed.

(** A certificate survives its wire encoding whenever its signature count is
    within the receiver's roster bound. *)
Theorem certificate_roundtrip c n :
  wf_cert c -> (length (cert_Signatures c) <= n)%nat ->
  exists wire, Certificate_Serialize c = Some wire /\ parseCertificate wire n = Ok c.
Proof.
  intros Hc Hn. destruct (certificate_serialize_some c Hc) as [wire E].
  exists wire. split; [exact E|]. by eapply parse_certificate_wire.
Qed.

Lemma vote_record n v seqno : sized_vote v -> is_i64 seqno ->
  exists rec, EncodeOurVoteRecord v seqno = Some rec /\ DecodeVoteJournalRecord rec n = Ok (JournalVote v seqno).
Proof.
  intros Hv Hq. unfold EncodeOurVoteRecord.
  destruct (voteToTL_some v Hv) as [t Et]. destruct (voteFromTL_sized v t Hv Et) as [Ev Hwt].
  rewrite Et. cbn [mbind option_bind].
  destruct (law_serialize TyDbOurVote (TLDbOurVote t seqno) (conj Hwt Hq)) as [rec E].
  exists rec. split; [exact E|]. pose proof (law_parse TyDbOurVote _ rec (conj Hwt Hq : parsed_as TyDbOurVote (TLDbOurVote t seqno)) E) as Ep.
  destruct (law_boxed_vote _ _ _ E) as [body Eb]. unfold DecodeVoteJournalRecord. rewrite Ep, Eb.
  rewrite (proj2 (Nat.ltb_ge _ _)) by (autorewrite with gtonrw; lia).
  rewrite (le_get_crc schemeDbOurVote), Z.eqb_refl. cbn [length Nat.eqb negb]. by rewrite Ev.
Qed.
Lemma certificate_record n c : wf_cert c -> (length (cert_Signatures c) <= n)%nat ->
  exists rec, EncodeCertificateRecord c = Some rec /\ DecodeVoteJournalRecord rec n = Ok (JournalCert c).
Proof.
  intros Hc Hn. destruct (certificate_serialize_some c Hc) as [wire E].
  unfold EncodeCertificateRecord. rewrite E. cbn [mbind option_bind]. eexists. split; [reflexivity|].
  unfold DecodeVoteJournalRecord.
  rewrite (proj2 (Nat.ltb_ge _ _)) by (autorewrite with gtonrw; lia).
  rewrite (le_get_crc schemeDbCert), drop_le_put. fold idDbCert.
  rewrite (proj2 (Z.eqb_neq _ _)) by (apply not_eq_sym, law_ids_record).
  rewrite Z.eqb_refl. by rewrite (parse_certificate_wire c wire n Hc Hn E).
Qed.

(** C36: a journal record decodes to what was recorded: our own vote with its
    sequence number, or the certificate; the two kinds of record never decode as
    one another. *)
Theorem journal_record_roundtrip n :
  (forall v seqno, sized_vote v -> is_i64 seqno ->
    exists rec, EncodeOurVoteRecord v seqno = Some rec /\
      DecodeVoteJournalRecord rec n = Ok (JournalVote v seqno)) /\
  (forall c, wf_cert c -> (length (cert_Signatures c) <= n)%nat ->
    exists rec, EncodeCertificateRecord c = Some rec /\
      DecodeVoteJournalRecord rec n = Ok (JournalCert c)).
Proof. split; [apply vote_record|apply certificate_record]. Qed.

(** The bytes a validator signs for a vote: [votePayload] of [engine.go] without
    its cache. *)
Definition vote_payload (session : bytes) (v : Vote) : option bytes :=
  b ← VoteBytes v; DataToSign session b.

(** Sized values have every encoding. *)
Lemma sized_TL v : sized_vote v -> exists t, voteToTL v = Some t /\ wf_tl_vote t.
Proof.
  intros Hv. assert (is_Some (voteToTL v)) as [t Et].
  { destruct Hv as (Hk & _). unfold voteToTL. destruct (v_Kind v); naive_solver. }
  exists t. split; [done|]. by eapply voteFromTL_sized.
Qed.
Lemma sized_payload s v : length s = 32%nat -> sized_vote v -> is_Some (vote_payload s v).
Proof.
  intros Hs (t & Et & Hwt)%sized_TL. destruct (law_serialize_vote t Hwt) as [b Eb]. pose proof (law_vote_short t b Hwt Eb).
  unfold vote_payload, VoteBytes. rewrite Et. cbn [mbind option_bind]. rewrite Eb. by apply law_serialize_data.
Qed.
Lemma sized_record v seqno : sized_vote v -> is_i64 seqno -> is_Some (EncodeOurVoteRecord v seqno).
Proof.
  intros (t & Et & Hwt)%sized_TL Hq. unfold EncodeOurVoteRecord. rewrite Et. cbn [mbind option_bind].
  by apply (law_serialize TyDbOurVote).
Qed.
Lemma sized_certificate c :
  sized_vote (cert_Vote c) -> Forall (fun s => short_bytes (vs_Signature s)) (cert_Signatures c) ->
  is_Some (Certificate_Serialize c).
Proof.
  intros (t & Et & Hwt)%sized_TL Hs. unfold Certificate_Serialize. rewrite Et. cbn [mbind option_bind].
  apply (law_serialize TyCertificate). split; [done|]. unfold toTLSignatureSet. apply Forall_fmap.
  eapply Forall_impl; [exact Hs|]. intros s Hsh. split; [apply i32_range|done].
Qed.

Lemma vote_payload_some s v : length s = 32%nat -> wf_vote v -> is_Some (vote_payload s v).
Proof. intros Hs Hv. by apply sized_payload, wf_vote_sized. Qed.

Lemma payload_inj s s' v v' p :
  length s = 32%nat -> length s' = 32%nat -> sized_vote v -> sized_vote v' ->
  vote_payload s v = Some p -> vote_payload s' v' = Some p -> s = s' /\ v = v'.
Proof.
  unfold vote_payload, VoteBytes, DataToSign. intros Hs Hs' Hv Hv'.
  destruct (voteToTL v) as [t|] eqn:Et; [|done]. destruct (voteToTL v') as [t'|] eqn:Et'; [|done].
  cbn [mbind option_bind]. destruct (tl_Serialize (TLObjVote t)) as [b|] eqn:Eb; [|done].
  destruct (tl_Serialize (TLObjVote t')) as [b'|] eqn:Eb'; [|done]. cbn [mbind option_bind].
  intros E E'. rewrite <- E' in E. destruct (law_serialize_data_inj _ _ _ _ E Hs Hs') as [-> ->].
  split; [done|]. rewrite <- Eb' in Eb. apply (voteToTL_inj v v' t Hv Hv' Et). rewrite Et'. f_equal.
  symmetry. apply law_serialize_vote_inj; [| |exact Eb].
  - by apply (voteFromTL_sized v).
  - by apply (voteFromTL_sized v').
Qed.

(** C37: signatures are bound to one session and one vote: two votes, or two
    sessions, never share a signed payload. *)
Theorem signed_payload_injective s s' v v' p :
  length s = 32%nat -> length s' = 32%nat -> wf_vote v -> wf_vote v' ->
  vote_payload s v = Some p -> vote_payload s' v' = Some p -> s = s' /\ v = v'.
Proof. intros Hs Hs' Hv Hv'. apply payload_inj; auto using wf_vote_sized. Qed.
End WireProofs.

(** ** A concrete runtime

    A runtime with the constructor ids of [tl_test.go] and a field-by-field
    encoding, at which the theorems of this and later files are instantiated. *)

Module ExampleTL.

Definition crc_table : list (string * Z) :=
  [ (schemeNotarizeVote, 0xcdf605a8); (schemeFinalizeVote, 0x40a7e105);
    (schemeSkipVote, 0x2f6b1f26); (schemeSignedVote, 0xc37ef4f3);
    (schemeCertificate, 0xbe7b573a); (schemeCandidateID, 0xb691cd3f);
    (schemeDbOurVote, 0x84733714); (schemeDbCert, 0xaf37a688) ].

Fixpoint crc_lookup (l : list (string * Z)) (s : string) : Z :=
  match l with [] => 0 | (k, x) :: l => if String.eqb k s then x else crc_lookup l s end.

Definition enc_bytes (b : bytes) : bytes := Z.of_nat (length b) :: b.
Definition dec_bytes (l : bytes) : option (bytes * bytes) :=
  match l with
  | n :: l => if n <=? Z.of_nat (length l) then Some (take (Z.to_nat n) l, drop (Z.to_nat n) l) else None
  | [] => None
  end.

Definition enc_id (id : TLCandidateID) : bytes := tc_Slot id :: enc_bytes (tc_Hash id).
Definition dec_id (l : bytes) : option (TLCandidateID * bytes) :=
  match l with
  | slot :: l => p ← dec_bytes l; Some (mkTLCandidateID slot p.1, p.2)
  | [] => None
  end.

Definition enc_vote (v : TLVote) : bytes :=
  match v with
  | TLNotarizeVote id => 0 :: enc_id id
  | TLFinalizeVote id => 1 :: enc_id id
  | TLSkipVote slot => [2; slot]
  end.
Definition dec_vote (l : bytes) : option (TLVote * bytes) :=
  match l with
  | 0 :: l => p ← dec_id l; Some (TLNotarizeVote p.1, p.2)
  | 1 :: l => p ← dec_id l; Some (TLFinalizeVote p.1, p.2)
  | 2 :: slot :: l => Some (TLSkipVote slot, l)
  | _ => None
  end.

Definition enc_sig (s : TLVoteSignature) : bytes := ts_Who s :: enc_bytes (ts_Signature s).
Fixpoint dec_sigs (n : nat) (l : bytes) : option (list TLVoteSignature * bytes) :=
  match n, l with
  | O, _ => Some ([], l)
  | S n, who :: l =>
      p ← dec_bytes l; q ← dec_sigs n p.2; Some (mkTLVoteSignature who p.1 :: q.1, q.2)
  | S _, [] => None
  end.

Definition enc_block (b : BlockIDExt) : bytes :=
  [b_Workchain b; b_Shard b; b_SeqNo b] ++ enc_bytes (b_RootHash b) ++ enc_bytes (b_FileHash b).
Definition enc_sigs (sigs : list TLVoteSignature) : bytes :=
  Z.of_nat (length sigs) :: (sigs ≫= enc_sig).

Definition enc_object (o : TLObject) : bytes :=
  match o with
  | TLObjVote v => enc_vote v
  | TLObjCandidateID id => enc_id id
  | TLDataToSign s d => enc_bytes s ++ d
  | TLSignatureSet sigs => enc_sigs sigs
  | TLCertificate v sigs => le_put 4 (crc_lookup crc_table schemeCertificate) ++ enc_vote v ++ enc_sigs sigs
  | TLDbKeyVote h => 10 :: h
  | TLDbOurVote v seqno => le_put 4 (crc_lookup crc_table schemeDbOurVote) ++ enc_vote v ++ [seqno]
  | TLDbKeyPoolState => [11]
  | TLDbPoolState w => [w]
  | TLHashDataEmpty b p => 12 :: enc_block b ++ enc_id p
  | TLHashDataOrdinary b h p =>
      13 :: enc_block b ++ enc_bytes h ++
        match p with TLCandidateParent id => 1 :: enc_id id | TLCandidateWithoutParents => [0] end
  | TLDelegationToSign w c => [14; w] ++ c
  | TLPublicKeyED25519 k => 15 :: k
  end.

Definition dec_object (ty : TLType) (l : bytes) : option (TLObject * bytes) :=
  match ty with
  | TyCertificate =>
      p ← dec_vote (drop 4 l);
      match p.2 with
      | n :: l => q ← dec_sigs (Z.to_nat n) l; Some (TLCertificate p.1 q.1, q.2)
      | [] => None
      end
  | TyDbOurVote =>
      p ← dec_vote (drop 4 l);
      match p.2 with seqno :: l => Some (TLDbOurVote p.1 seqno, l) | [] => None end
  | TyDbPoolState => match l with w :: l => Some (TLDbPoolState w, l) | [] => None end
  end.

#[export] Instance runtime : TLRuntime := {
  tl_CRC := crc_lookup crc_table;
  tl_AppendBytes dst b := Some (dst ++ enc_bytes b);
  tl_FromBytes := dec_bytes;
  tl_Serialize o := Some (enc_object o);
  tl_Parse := dec_object }.

Lemma dec_enc_bytes b rest : dec_bytes (enc_bytes b ++ rest) = Some (b, rest).
Proof.
  unfold enc_bytes, dec_bytes. cbn [app]. rewrite length_app, (proj2 (Z.leb_le _ _)) by lia.
  rewrite Nat2Z.id, take_app_length, drop_app_length. done.
Qed.

Lemma dec_enc_vote v rest : dec_vote (enc_vote v ++ rest) = Some (v, rest).
Proof.
  destruct v as [[s h]|[s h]|s]; [| |done]; unfold enc_vote, dec_vote, enc_id, dec_id;
    cbn [app tc_Slot tc_Hash]; rewrite dec_enc_bytes; done.
Qed.

Lemma dec_enc_sigs sigs rest : dec_sigs (length sigs) ((sigs ≫= enc_sig) ++ rest) = Some (sigs, rest).
Proof.
  revert rest. induction sigs as [|[w s] sigs IH]; intros rest; [done|].
  cbn [length mbind list_bind]. unfold enc_sig at 1. cbn [ts_Who ts_Signature].
  rewrite <- app_assoc. cbn [app dec_sigs]. rewrite dec_enc_bytes. cbn [mbind option_bind fst snd].
  fold (mbind (M := list) enc_sig sigs). by rewrite IH.
Qed.

Lemma enc_bytes_inj b b' r r' : enc_bytes b ++ r = enc_bytes b' ++ r' -> b = b' /\ r = r'.
Proof. intros E%(f_equal dec_bytes). rewrite !dec_enc_bytes in E. by simplify_eq. Qed.

Lemma enc_id_inj i i' : enc_id i = enc_id i' -> i = i'.
Proof.
  destruct i as [s h], i' as [s' h']. unfold enc_id. cbn [tc_Slot tc_Hash]. intros [= -> _ ->]. done.
Qed.

Lemma enc_block_inj b b' r r' : enc_block b ++ r = enc_block b' ++ r' -> b = b' /\ r = r'.
Proof.
  destruct b, b'. unfold enc_block. simpl. rewrite <- !app_assoc. intros [= -> -> -> E1 E2].
  destruct (enc_bytes_inj b_RootHash0 b_RootHash1 (enc_bytes b_FileHash0 ++ r) (enc_bytes b_FileHash1 ++ r'))
    as [-> E]; [by unfold enc_bytes; simpl; f_equal|].
  by apply enc_bytes_inj in E as [-> ->].
Qed.

Lemma enc_hash_inj o o' :
  wf_hash_data o -> wf_hash_data o' -> enc_object o = enc_object o' -> o = o'.
Proof.
  destruct o, o'; try done; intros Ho Ho'; cbn [enc_object]; try done; intros E%(f_equal tail); simpl tail in E;
    apply enc_block_inj in E as [-> E].
  - f_equal. by apply enc_id_inj.
  - apply enc_bytes_inj in E as [-> E]. destruct parent, parent0; try done.
    apply (f_equal tail) in E. simpl tail in E. by rewrite (enc_id_inj _ _ E).
Qed.

Lemma crc_lookup_u32 l s : Forall (fun p => is_u32 p.2) l -> is_u32 (crc_lookup l s).
Proof. induction 1 as [|[k x] l Hx _ IH]; [done|]. simpl. by destruct (String.eqb _ _). Qed.

#[export] Instance laws : TLLaws.
Proof.
  split.
  - intros s. apply crc_lookup_u32. by repeat constructor.
  - repeat constructor; set_solver.
  - done.
  - done.
  - intros dst data out [= <-]. exists (enc_bytes data). split; [done|].
    pose proof (dec_enc_bytes data []) as E. by rewrite app_nil_r in E.
  - by eexists.
  - intros ty o out Hp [= <-]. destruct ty, o; try done;
      cbn [tl_Parse runtime dec_object enc_object].
    + rewrite drop_le_put, dec_enc_vote. cbn [mbind option_bind fst snd enc_sigs]. rewrite Nat2Z.id.
      by rewrite <- (app_nil_r (_ ≫= _)), dec_enc_sigs.
    + rewrite drop_le_put, dec_enc_vote. done.
  - intros vote seqno out [= <-]. by eexists.
  - by eexists.
  - by eexists.
  - intros t b Ht [= <-]. unfold short_bytes. destruct t as [[s h]|[s h]|s]; [| |done];
      destruct Ht as [_ Hh]; simpl in *; lia.
  - by eexists.
  - intros o Ho. eexists. split; [done|]. unfold short_bytes. destruct o as [|[? h]| | | | | | | | | |w c|k]; try done;
      cbn in *; unfold wf_tl_id in *; simpl in *; lia.
  - by eexists.
  - by eexists.
  - by intros h h' _ _ [= ->].
  - intros o o' Ho Ho' [= E]. by apply enc_hash_inj.
  - intros t t' _ _ [= E]. pose proof (dec_enc_vote t []) as E1. rewrite E, dec_enc_vote in E1. congruence.
  - intros s d s' d' [= E1 E2] Hs Hs'. apply app_inj_1 in E2; [done|]. congruence.
Qed.
End ExampleTL.
Import ExampleTL.

(** ** Witnesses *)

Definition example_id : CandidateID := mkCandidateID 5 (replicate 32 7).
Definition example_cert : Certificate :=
  mkCertificate (NotarizeVote example_id) [mkVoteSignature 0 [1; 2]; mkVoteSignature 2 [3]].

Lemma example_id_wf : wf_id example_id.
Proof. split; [done|]. split; [done|]. unfold example_id. simpl. by repeat constructor. Qed.

Lemma example_vote_wf : wf_vote (NotarizeVote example_id).
Proof. split_and!; [done|apply example_id_wf|done]. Qed.

Lemma example_cert_wf : wf_cert example_cert.
Proof. split; [apply wf_vote_sized, example_vote_wf|]. by repeat constructor. Qed.

Lemma signed_vote_roundtrip_witness : exists wire,
  SignedVote_Serialize (mkSignedVote 3 (NotarizeVote example_id) [9; 9]) = Some wire /\
  parseSignedVote wire = Ok (NotarizeVote example_id, [9; 9]).
Proof. apply signed_vote_roundtrip; [apply example_vote_wf|done]. Defined.

Lemma parseUnsignedVote_canonical_witness :
  wf_vote (SkipVote 9) /\ exists enc, appendUnsignedVote [] (SkipVote 9) = Some enc /\
    le_put 4 idSkipVote ++ [9; 0; 0; 0; 77] = enc ++ [77].
Proof.
  apply parseUnsignedVote_canonical; [|vm_compute; reflexivity].
  by repeat (apply List.Forall_cons; [done|]).
Defined.

Lemma certificate_roundtrip_witness : exists wire,
  Certificate_Serialize example_cert = Some wire /\ parseCertificate wire 3 = Ok example_cert.
Proof. apply certificate_roundtrip; [apply example_cert_wf|simpl; lia]. Defined.

Lemma journal_record_roundtrip_witness : exists rec,
  EncodeCertificateRecord example_cert = Some rec /\
  DecodeVoteJournalRecord rec 3 = Ok (JournalCert example_cert).
Proof. apply (journal_record_roundtrip 3); [apply example_cert_wf|simpl; lia]. Defined.

Lemma signed_payload_injective_witness :
  replicate 32 1 = replicate 32 1 /\ NotarizeVote example_id = NotarizeVote example_id.
Proof.
  apply (signed_payload_injective (replicate 32 1) (replicate 32 1) (NotarizeVote example_id)
           (NotarizeVote example_id) (enc_bytes (replicate 32 1) ++ enc_vote (TLNotarizeVote (tlCandidateID example_id))));
    first [reflexivity | apply example_vote_wf].
Defined.
