(* ===== verification/Sha256.v ===== *)
(** * SHA-256 ([crypto/sha256] of the Go standard library)

    FIPS 180-4, executable: the digest the node uses for candidate ids, roster
    digests and journal keys. *)

From S2P Require Import Prelude.

#[local] Open Scope Z_scope.
#[local] Open Scope go_scope.

(** Reduction to 32 bits, by a mask. *)
Definition low32 (x : Z) : Z := Z.land x 0xffffffff.
Definition rotr (x n : Z) : Z := Z.lor (Z.shiftr x n) (low32 (Z.shiftl x (32 - n))).
Definition not32 (x : Z) : Z := Z.lxor x 0xffffffff.
Definition Ch (x y z : Z) : Z := Z.lxor (Z.land x y) (Z.land (not32 x) z).
Definition Maj (x y z : Z) : Z := Z.lxor (Z.lxor (Z.land x y) (Z.land x z)) (Z.land y z).
Definition Sigma0 (x : Z) : Z := Z.lxor (Z.lxor (rotr x 2) (rotr x 13)) (rotr x 22).
Definition Sigma1 (x : Z) : Z := Z.lxor (Z.lxor (rotr x 6) (rotr x 11)) (rotr x 25).
Definition sigma0 (x : Z) : Z := Z.lxor (Z.lxor (rotr x 7) (rotr x 18)) (Z.shiftr x 3).
Definition sigma1 (x : Z) : Z := Z.lxor (Z.lxor (rotr x 17) (rotr x 19)) (Z.shiftr x 10).

(** The sixty-four round constants as one 2048-bit number, first word on top. *)
Definition packed_constants : Z :=
  0x428a2f9871374491b5c0fbcfe9b5dba53956c25b59f111f1923f82a4ab1c5ed5d807aa9812835b01243185be550c7dc372be5d7480deb1fe9bdc06a7c19bf174e49b69c1efbe47860fc19dc6240ca1cc2de92c6f4a7484aa5cb0a9dc76f988da983e5152a831c66db00327c8bf597fc7c6e00bf3d5a7914706ca63511429296727b70a852e1b21384d2c6dfc53380d13650a7354766a0abb81c2c92e92722c85a2bfe8a1a81a664bc24b8b70c76c51a3d192e819d6990624f40e3585106aa07019a4c1161e376c082748774c34b0bcb5391c0cb34ed8aa4a5b9cca4f682e6ff3748f82ee78a5636f84c878148cc7020890befffaa4506cebbef9a3f7c67178f2.
Definition round_constants : list Z :=
  Eval vm_compute in (fun i => u32 (Z.shiftr packed_constants (32 * (63 - i)))) <$> seqZ 0 64.

Record digest := mkDigest { da : Z; db : Z; dc : Z; dd : Z; de : Z; df : Z; dg : Z; dh : Z }.

Definition initial : digest :=
  mkDigest 0x6a09e667 0xbb67ae85 0x3c6ef372 0xa54ff53a 0x510e527f 0x9b05688c 0x1f83d9ab 0x5be0cd19.

Definition round (s : digest) (kw : Z * Z) : digest :=
  let '(k, w) := kw in
  let t1 := low32 (dh s + Sigma1 (de s) + Ch (de s) (df s) (dg s) + k + w) in
  let t2 := low32 (Sigma0 (da s) + Maj (da s) (db s) (dc s)) in
  mkDigest (low32 (t1 + t2)) (da s) (db s) (dc s) (low32 (dd s + t1)) (de s) (df s) (dg s).

(** The message schedule, latest word first. *)
Definition next_word (ws : list Z) : Z :=
  let at_ i := nth i ws 0 in
  low32 (sigma1 (at_ 1%nat) + at_ 6%nat + sigma0 (at_ 14%nat) + at_ 15%nat).
Fixpoint extend (n : nat) (ws : list Z) : list Z :=
  match n with O => ws | S n => extend n (next_word ws :: ws) end.

Fixpoint words (n : nat) (block : bytes) : list Z :=
  match n with O => [] | S n => be_get (take 4 block) :: words n (drop 4 block) end.

Definition block_step (s : digest) (block : bytes) : digest :=
  let w := reverse (extend 48 (reverse (words 16 block))) in
  let r := fold_left round (zip round_constants w) s in
  mkDigest (low32 (da s + da r)) (low32 (db s + db r)) (low32 (dc s + dc r)) (low32 (dd s + dd r))
           (low32 (de s + de r)) (low32 (df s + df r)) (low32 (dg s + dg r)) (low32 (dh s + dh r)).

Definition pad (msg : bytes) : bytes :=
  let len := Z.of_nat (length msg) in
  msg ++ [128] ++ replicate (Z.to_nat ((55 - len) mod 64)) 0 ++ be_put 8 (8 * len).

Fixpoint blocks (n : nat) (s : digest) (data : bytes) : digest :=
  match n with O => s | S n => blocks n (block_step s (take 64 data)) (drop 64 data) end.

(** [sha256.Sum256]. *)
Definition sha256 (msg : bytes) : bytes :=
  let data := pad msg in
  let s := blocks (length data / 64) initial data in
  concat (be_put 4 <$> [da s; db s; dc s; dd s; de s; df s; dg s; dh s]).

Lemma length_sha256 msg : length (sha256 msg) = 32%nat.
Proof. unfold sha256. cbn [fmap list_fmap concat]. autorewrite with gtonrw. done. Qed.

Lemma sha256_bytes msg : Forall is_byte (sha256 msg).
Proof. unfold sha256. cbn [fmap list_fmap concat]. repeat apply Forall_app_2; auto using be_put_bytes. Qed.

(** The padded message is a whole number of blocks. *)
Lemma pad_length msg : (length (pad msg) mod 64 = 0)%nat.
Proof.
  unfold pad. autorewrite with gtonrw. cbn [length].
  apply Nat2Z.inj. rewrite Nat2Z.inj_mod, !Nat2Z.inj_add, Z2Nat.id by (apply Z.mod_pos_bound; lia).
  set (len := Z.of_nat (length msg)). simpl Z.of_nat.
  pose proof (Z.mod_pos_bound (55 - len) 64). Z.to_euclidean_division_equations. lia.
Qed.

(** FIPS 180-4 example: the one-block message abc. *)
Example sha256_abc :
  sha256 [97; 98; 99] =
  [ 0xba; 0x78; 0x16; 0xbf; 0x8f; 0x01; 0xcf; 0xea; 0x41; 0x41; 0x40; 0xde; 0x5d; 0xae; 0x22; 0x23;
    0xb0; 0x03; 0x61; 0xa3; 0x96; 0x17; 0x7a; 0x9c; 0xb4; 0x10; 0xff; 0x61; 0xf2; 0x00; 0x15; 0xad ].
Proof. vm_compute. reflexivity. Qed.

#[export] Hint Rewrite length_sha256 : gtonrw.
#[export] Hint Resolve sha256_bytes : gton.
#[global] Opaque sha256.
