(* ===== verification/SimplexFanOut.v ===== *)
(** * Parallel signature verification ([verifyFanOut] of
      [src/service/validator/simplex/certificate_verify.go])

    The goroutines of [verifyFanOut] share two atomic counters: [next], the
    index dispenser, and [bound], which is lowered by compare-and-swap.  One
    step is one atomic operation or one call of the body by one worker, and any
    worker may move.  [fan_exec] collects every interleaving; a finished
    execution gives the returned bound and the indices the body ran on. *)

From S2P Require Import Prelude.
From Stdlib Require Import Relation_Operators Lexicographic_Product.

#[local] Open Scope nat_scope.

(** The program points of a worker's loop. *)
Inductive worker :=
| WTake                       (* i := next.Add(1) - 1 *)
| WCheck (i : nat)            (* i >= n || i >= bound.Load() *)
| WBody (i : nat)             (* b := body(i) *)
| WLoad (b : nat)             (* current := bound.Load() *)
| WCas (b current : nat)      (* bound.CompareAndSwap(current, b) *)
| WDone.

#[export] Instance worker_eq_dec : EqDecision worker.
Proof. solve_decision. Defined.

Record fan := mkFan { f_next : nat; f_bound : nat; f_ran : list nat; f_workers : list worker }.

Section FanOut.
Context (n : nat) (body : nat -> nat).

(** One atomic action of one worker, as a function of the shared counters. *)
Definition fan_action (w : worker) (next bound : nat) (ran : list nat)
  : option (worker * nat * nat * list nat) :=
  match w with
  | WTake => Some (WCheck next, S next, bound, ran)
  | WCheck i =>
      if (n <=? i) || (bound <=? i) then Some (WDone, next, bound, ran)
      else Some (WBody i, next, bound, ran)
  | WBody i => Some (WLoad (body i), next, bound, i :: ran)
  | WLoad b =>
      if bound <=? b then Some (WTake, next, bound, ran)
      else Some (WCas b bound, next, bound, ran)
  | WCas b current =>
      if bound =? current then Some (WTake, next, b, ran)
      else Some (WLoad b, next, bound, ran)
  | WDone => None
  end.

Inductive fan_step : fan -> fan -> Prop :=
| fan_step_intro k w w' next bound ran next' bound' ran' ws :
    ws !! k = Some w ->
    fan_action w next bound ran = Some (w', next', bound', ran') ->
    fan_step (mkFan next bound ran ws) (mkFan next' bound' ran' (<[k := w']> ws)).

Definition fan_init (procs : nat) : fan := mkFan 0 n [] (replicate (min procs n) WTake).
Definition fan_exec (procs : nat) : fan -> Prop := rtc fan_step (fan_init procs).
Definition fan_finished (s : fan) : Prop := Forall (eq WDone) (f_workers s).

(** [verifyFanOut] may return [out.1], having run the body on [out.2]. *)
Definition fan_outcome (procs : nat) (out : nat * list nat) : Prop :=
  exists s, fan_exec procs s /\ fan_finished s /\ out = (f_bound s, f_ran s).

(** ** Invariant *)

(** What a worker's program point says about the shared state. *)
Definition worker_ok (s : fan) (w : worker) : Prop :=
  match w with
  | WTake => True
  | WCheck i => i < f_next s
  | WBody i => i < f_next s /\ i < n
  | WLoad b => exists i, i ∈ f_ran s /\ body i = b
  | WCas b c => f_bound s <= c /\ b < c /\ exists i, i ∈ f_ran s /\ body i = b
  | WDone => f_bound s <= f_next s
  end.

(** Index [i] is in the hands of worker [w]: dispensed but not yet run, or run
    and not yet accounted for in the bound. *)
Definition taken (w : worker) : option nat :=
  match w with WCheck i | WBody i => Some i | _ => None end.
Definition pending_result (w : worker) : option nat :=
  match w with WLoad b | WCas b _ => Some b | _ => None end.

(** Index [i] is done with, or in the hands of some worker. *)
Definition settled (s : fan) (i : nat) : Prop :=
  (i ∈ f_ran s /\ f_bound s <= body i) \/
  (exists k w, f_workers s !! k = Some w /\ taken w = Some i) \/
  (i ∈ f_ran s /\ exists k w, f_workers s !! k = Some w /\ pending_result w = Some (body i)).

Record fan_inv (s : fan) : Prop := {
  fi_bound : f_bound s <= n;
  fi_from : f_bound s = n \/ exists i, i ∈ f_ran s /\ body i = f_bound s;
  fi_ran : forall i, i ∈ f_ran s -> i < n /\ i < f_next s;
  fi_nodup : NoDup (f_ran s);
  fi_worker : forall k w, f_workers s !! k = Some w -> worker_ok s w;
  fi_fresh : forall k w i, f_workers s !! k = Some w -> taken w = Some i -> i ∉ f_ran s;
  fi_unique : forall k k' w w' i, f_workers s !! k = Some w -> f_workers s !! k' = Some w' ->
    taken w = Some i -> taken w' = Some i -> k = k';
  fi_settled : forall i, i < f_next s -> i < f_bound s -> settled s i;
  fi_some : n = 0 \/ f_workers s <> [] }.

(** The counters only move one way. *)
Lemma fan_action_mono w next bound ran w' next' bound' ran' :
  worker_ok (mkFan next bound ran []) w ->
  fan_action w next bound ran = Some (w', next', bound', ran') ->
  next <= next' /\ bound' <= bound /\ forall i, i ∈ ran -> i ∈ ran'.
Proof.
  destruct w; simpl; intros Hok E; repeat case_match; simplify_eq; split_and!; auto; try lia.
  - set_solver.
  - apply Nat.eqb_eq in H. lia.
Qed.

Lemma worker_ok_mono s s' w :
  f_next s <= f_next s' -> f_bound s' <= f_bound s ->
  (forall i, i ∈ f_ran s -> i ∈ f_ran s') -> worker_ok s w -> worker_ok s' w.
Proof.
  intros Hn Hb Hr. destruct w; simpl; try lia.
  - intros (i & Hi & <-). eauto.
  - intros (? & ? & i & Hi & <-). split_and!; eauto; lia.
Qed.

(** The step's own worker: its new program point is justified, and what it
    takes or leaves behind is accounted for. *)
Lemma fan_action_ok w next bound ran w' next' bound' ran' ws :
  bound <= n -> worker_ok (mkFan next bound ran ws) w ->
  fan_action w next bound ran = Some (w', next', bound', ran') ->
  worker_ok (mkFan next' bound' ran' ws) w' /\ bound' <= n /\
  (bound' = bound \/ exists i, i ∈ ran /\ body i = bound') /\
  (ran' = ran \/ exists i, w = WBody i /\ ran' = i :: ran) /\
  (forall i, taken w' = Some i -> taken w = Some i \/ (i = next /\ next' = S next)).
Proof.
  intros Hb Hok E. destruct w; simpl in *; repeat case_match; simplify_eq; simpl;
    try (split_and!; try lia; auto; naive_solver).
  - split_and!; auto; try done. apply orb_true_iff in H as [?%Nat.leb_le|?%Nat.leb_le]; lia.
  - split_and!; auto; try lia. apply orb_false_iff in H as [?%Nat.leb_gt _]. lia.
  - split_and!; try done; auto; [|right; eauto]. exists i. split; [left|done].
  - apply Nat.leb_gt in H. split_and!; try done; auto; lia.
  - apply Nat.eqb_eq in H. destruct Hok as (? & ? & ?). split_and!; try done; auto; lia.
Qed.

(** What the moving worker had in hand is still in hand or accounted for. *)
Lemma fan_action_settled w next bound ran w' next' bound' ran' i :
  worker_ok (mkFan next bound ran []) w ->
  fan_action w next bound ran = Some (w', next', bound', ran') -> i < bound' -> i < n ->
  (taken w = Some i -> taken w' = Some i \/ (i ∈ ran' /\ pending_result w' = Some (body i))) /\
  (pending_result w = Some (body i) -> pending_result w' = Some (body i) \/ bound' <= body i).
Proof.
  intros Hok E Hi Hn. destruct w; simpl in *; repeat case_match; simplify_eq; simpl;
    split; try done; intros Ht; simplify_eq; auto.
  - exfalso. apply orb_true_iff in H as [?%Nat.leb_le|?%Nat.leb_le]; lia.
  - right. split; [left|done].
  - apply Nat.leb_le in H. auto.
Qed.

Lemma settled_step k w w' next bound ran next' bound' ran' ws i :
  ws !! k = Some w -> worker_ok (mkFan next bound ran []) w ->
  fan_action w next bound ran = Some (w', next', bound', ran') ->
  bound <= n -> bound' <= bound -> (forall i, i ∈ ran -> i ∈ ran') ->
  (i < next -> i < bound -> settled (mkFan next bound ran ws) i) ->
  i < next' -> i < bound' -> settled (mkFan next' bound' ran' (<[k:=w']> ws)) i.
Proof.
  unfold settled. cbn [f_ran f_workers f_bound]. intros Hk Hok E Hbn Mb Mr Hs Hi Hib. assert (<[k:=w']> ws !! k = Some w') as Hk'.
  { apply list_lookup_insert_eq. by eapply lookup_lt_Some. }
  assert (i < next \/ taken w' = Some i) as [Hin|Hin].
  { destruct w; simpl in E; repeat case_match; simplify_eq; simpl; auto.
    destruct (decide (i = next)) as [->|]; [by right|left; lia]. }
  2:{ right; left. by exists k, w'. }
  destruct (fan_action_settled w next bound ran w' next' bound' ran' i Hok E Hib) as [S1 S2]; [lia|].
  destruct (Hs Hin) as [[Hir Hle]|[(k0 & w0 & H0 & Ht)|(Hir & k0 & w0 & H0 & Ht)]]; [lia|..].
  - left. simpl in *. split; [auto|lia].
  - destruct (decide (k0 = k)) as [->|Hne0]; [|right; left; exists k0, w0; by rewrite list_lookup_insert_ne].
    simplify_eq. destruct (S1 Ht) as [?|[? ?]]; [right; left|right; right; split; [done|]]; by exists k, w'.
  - destruct (decide (k0 = k)) as [->|Hne0];
      [|right; right; split; [auto|]; exists k0, w0; by rewrite list_lookup_insert_ne].
    simplify_eq. destruct (S2 Ht) as [?|?]; [right; right; split; [auto|]; by exists k, w'|left; auto].
Qed.

Lemma fan_inv_step s s' : fan_inv s -> fan_step s s' -> fan_inv s'.
Proof.
  intros [Hb Hf Hr Hd Hw Hfr Hu Hs Hne] Hst. destruct Hst as [k w w' next bound ran next' bound' ran' ws Hk E].
  simpl in *. pose proof (Hw k w Hk) as Hok.
  destruct (fan_action_mono w next bound ran w' next' bound' ran' Hok E) as (Mn & Mb & Mr).
  destruct (fan_action_ok w next bound ran w' next' bound' ran' ws Hb Hok E) as (Hok' & Hb' & Hfrom & Hran & Htk).
  assert (forall k0 w0, <[k:=w']> ws !! k0 = Some w0 ->
    (k0 = k /\ w0 = w') \/ (k0 <> k /\ ws !! k0 = Some w0)) as Hins.
  { intros k0 w0 [(-> & -> & _)|[? ?]]%list_lookup_insert_Some; auto. }
  assert (forall i, i ∈ ran' -> i ∈ ran \/ w = WBody i) as Hran'.
  { destruct Hran as [->|(i & -> & ->)]; [auto|]. intros j [->|?]%elem_of_cons; auto. }
  constructor; simpl; auto.
  - destruct Hfrom as [->|(i & Hi & <-)]; [|eauto]. destruct Hf as [->|(i & Hi & <-)]; eauto.
  - intros i [Hi| ->]%Hran'; [apply Hr in Hi; lia|]. destruct Hok. simpl in *. lia.
  - destruct Hran as [->|(i & -> & ->)]; [done|]. apply NoDup_cons. split; [|done]. by eapply Hfr.
  - intros k0 w0 [[-> ->]|[_ H0]]%Hins; [exact Hok'|].
    eapply (worker_ok_mono (mkFan next bound ran ws)); eauto.
  - intros k0 w0 i [[-> ->]|[Hk0 H0]]%Hins Ht [Hi| ->]%Hran'.
    + destruct (Htk i Ht) as [Ht'|[-> _]]; [by eapply Hfr|]. apply Hr in Hi. lia.
    + simpl in E. by simplify_eq.
    + by eapply Hfr.
    + apply Hk0. by eapply Hu.
  - intros k0 k1 w0 w1 i [[-> ->]|[Hk0 H0]]%Hins [[-> ->]|[Hk1 H1]]%Hins Ht0 Ht1; auto.
    + destruct (Htk i Ht0) as [Ht'|[-> _]]; [by eapply Hu|].
      apply Hw in H1. destruct w1; simpl in *; simplify_eq; lia.
    + destruct (Htk i Ht1) as [Ht'|[-> _]]; [by eapply Hu|].
      apply Hw in H0. destruct w0; simpl in *; simplify_eq; lia.
    + by eapply Hu.
  - intros i Hi Hib. eapply (settled_step k w w' next bound ran); eauto.
  - destruct Hne as [?|Hne]; [by left|right]. intros Hnil. apply Hne.
    apply length_zero_iff_nil. by rewrite <- (length_insert ws k w'), Hnil.
Qed.

Lemma fan_inv_init procs : 0 < procs -> fan_inv (fan_init procs).
Proof.
  intros Hp. constructor; simpl; auto; try lia.
  - intros i Hi. by apply elem_of_nil in Hi.
  - constructor.
  - intros k w [-> _]%lookup_replicate. done.
  - intros k w i [-> _]%lookup_replicate. done.
  - intros k k' w w' i [-> _]%lookup_replicate. done.
  - destruct n as [|n']; [by left|right]. destruct procs; [lia|done].
Qed.

(** What [verifyFanOut] returns, whatever the interleaving: a bound [r <= n]
    such that the body ran on every index below [r] and answered at least [r],
    and [r] is [n] or the body's answer on some index it ran on; no index runs
    twice. *)
Record fan_result (out : nat * list nat) : Prop := {
  fr_bound : out.1 <= n;
  fr_below : forall i, i < out.1 -> i ∈ out.2 /\ out.1 <= body i;
  fr_from : out.1 = n \/ exists i, i ∈ out.2 /\ body i = out.1;
  fr_ran : forall i, i ∈ out.2 -> i < n;
  fr_nodup : NoDup out.2 }.

Lemma fan_outcome_result procs out : 0 < procs -> fan_outcome procs out -> fan_result out.
Proof.
  intros Hp (s & Hex & Hfin & ->).
  assert (fan_inv s) as [Hb Hf Hr Hd Hw Hfr Hu Hs Hne].
  { unfold fan_exec in Hex. pose proof (fan_inv_init procs Hp) as Hi.
    induction Hex; eauto using fan_inv_step. }
  constructor; simpl; auto; [|by intros i ?%Hr; lia].
  intros i Hi. destruct Hne as [Hne|Hne]; [lia|].
  assert (forall k w, f_workers s !! k = Some w -> w = WDone) as Hdone.
  { intros k w Hk. symmetry. by apply (Forall_lookup_1 _ _ k _ Hfin). }
  assert (f_bound s <= f_next s).
  { destruct (f_workers s) as [|w ws] eqn:Ews; [done|].
    pose proof (Hdone 0 w eq_refl) as ->. by apply (Hw 0 WDone). }
  destruct (Hs i) as [?|[(k & w & Hk & Ht)|(_ & k & w & Hk & Ht)]]; auto; [lia|..];
    rewrite (Hdone k w Hk) in Ht; done.
Qed.

(** ** Termination *)

(** Lexicographic measure: indices left to dispense, then the bound, then the
    distance of the workers to their next such change. *)
Definition rank (bound : nat) (w : worker) : nat :=
  match w with
  | WTake => 2
  | WCheck i => if n <=? i then 1 else 6
  | WBody _ => 5
  | WLoad _ => 4
  | WCas _ c => if bound =? c then 3 else 5
  | WDone => 0
  end.

Definition fan_measure (s : fan) : nat * (nat * nat) :=
  (n - f_next s, (f_bound s, sum_list_with (rank (f_bound s)) (f_workers s))).
Definition lex_lt : relation (nat * (nat * nat)) := slexprod _ _ lt (slexprod _ _ lt lt).

Lemma lex_lt_wf : well_founded lex_lt.
Proof. apply wf_slexprod, wf_slexprod; apply lt_wf. Qed.

Lemma sum_list_with_insert {A} (f : A -> nat) (l : list A) k x y :
  l !! k = Some x -> sum_list_with f (<[k := y]> l) + f x = sum_list_with f l + f y.
Proof.
  revert k. induction l as [|z l IH]; intros [|k]; simpl; intros H; simplify_eq; [lia|].
  specialize (IH k H). lia.
Qed.

Lemma fan_step_decreases s s' : fan_inv s -> fan_step s s' -> lex_lt (fan_measure s') (fan_measure s).
Proof.
  intros Hinv Hst. destruct Hst as [k w w' next bound ran next' bound' ran' ws Hk E].
  pose proof (fi_worker _ Hinv k w Hk) as Hok. pose proof (fi_bound _ Hinv) as Hb.
  unfold fan_measure; simpl in *.
  assert (next' = next -> bound' = bound -> rank bound w' < rank bound w ->
    lex_lt (n - next', (bound', sum_list_with (rank bound') (<[k:=w']> ws)))
           (n - next, (bound, sum_list_with (rank bound) ws))) as Hrank.
  { intros -> -> Hr. apply right_slex, right_slex.
    pose proof (sum_list_with_insert (rank bound) ws k w w' Hk). lia. }
  destruct w; simpl in E; repeat case_match; simplify_eq; try (apply Hrank; simpl; repeat case_match; auto; lia).
  - destruct (decide (next < n)); [apply left_slex; lia|].
    replace (n - S next) with (n - next) by lia. apply right_slex, right_slex.
    pose proof (sum_list_with_insert (rank bound') ws k WTake (WCheck next) Hk) as Hsum. simpl in Hsum.
    rewrite (proj2 (Nat.leb_le _ _)) in Hsum by lia. lia.
  - apply Hrank; auto. simpl. rewrite Nat.eqb_refl. lia.
  - apply right_slex, left_slex. simpl in Hok. apply Nat.eqb_eq in H. lia.
Qed.

(** Every interleaving finishes. *)
Lemma fan_terminates s : fan_inv s -> Acc (flip fan_step) s.
Proof.
  intros Hinv. remember (fan_measure s) as m eqn:Em. revert s Hinv Em.
  induction (lex_lt_wf m) as [m _ IH]. intros s Hinv ->. constructor. intros s' Hst.
  eapply IH; [by apply fan_step_decreases|by eapply fan_inv_step|done].
Qed.

(** A state with an unfinished worker can move. *)
Lemma fan_progress s : ~ fan_finished s -> exists s', fan_step s s'.
Proof.
  intros Hnf. destruct s as [next bound ran ws]. unfold fan_finished in Hnf. simpl in Hnf.
  apply not_Forall_Exists in Hnf; [|apply _].
  apply Exists_exists in Hnf as (w & (k & Hk)%list_elem_of_lookup & Hw).
  destruct (fan_action w next bound ran) as [[[[w' next'] bound'] ran']|] eqn:E.
  - eexists. by econstructor.
  - destruct w; simpl in E; by repeat case_match.
Qed.

Lemma fan_outcome_exists procs : 0 < procs -> exists out, fan_outcome procs out.
Proof.
  intros Hp. assert (forall s, fan_inv s -> fan_exec procs s -> exists out, fan_outcome procs out) as H.
  { intros s Hinv. induction (fan_terminates s Hinv) as [s _ IH]. intros Hex.
    destruct (decide (fan_finished s)) as [Hf|Hf]; [exists (f_bound s, f_ran s); by exists s|].
    destruct (fan_progress s Hf) as [s' Hst]. apply (IH s'); [exact Hst|by eapply fan_inv_step|].
    by eapply rtc_r. }
  apply (H (fan_init procs)); [by apply fan_inv_init|apply rtc_refl].
Qed.

(** The first index of [from .. from + k - 1] on which [bad] holds, or the end. *)
Fixpoint first_index (bad : nat -> bool) (from k : nat) : nat :=
  match k with
  | O => from
  | S k => if bad from then from else first_index bad (S from) k
  end.

Lemma first_index_spec bad from k :
  from <= first_index bad from k <= from + k /\
  (forall i, from <= i < first_index bad from k -> bad i = false) /\
  (first_index bad from k < from + k -> bad (first_index bad from k) = true).
Proof.
  revert from. induction k as [|k IH]; intros from; simpl; [split_and!; intros; lia|].
  destruct (bad from) eqn:E; [split_and!; intros; auto; lia|].
  destruct (IH (S from)) as (H1 & H2 & H3). split_and!; [lia|lia| |intros; apply H3; lia].
  intros i Hi. destruct (decide (i = from)) as [->|]; [done|]. apply H2. lia.
Qed.
End FanOut.

(** The body [verifyCertificatePayload] passes: a bad index lowers the bound to
    itself, a good one leaves it. *)
Definition certBody (n : nat) (bad : nat -> bool) (i : nat) : nat := if bad i then i else n.

Lemma certBody_lowest n bad out :
  fan_result n (certBody n bad) out -> out.1 = first_index bad 0 n.
Proof.
  intros [Hb Hbelow Hfrom Hran _]. destruct (first_index_spec bad 0 n) as (H1 & H2 & H3).
  unfold certBody in *. set (r := first_index bad 0 n) in *.
  destruct (lt_eq_lt_dec out.1 r) as [[Hlt|?]|Hlt]; [exfalso|done|exfalso].
  - destruct Hfrom as [?|(i & Hi & E)]; [lia|]. destruct (bad i) eqn:Ei; [|lia].
    rewrite H2 in Ei; [done|lia].
  - destruct (Hbelow r Hlt) as [_ Hr]. rewrite H3 in Hr; lia.
Qed.

(** C31: under every interleaving of its goroutines [verifyFanOut] terminates, and
    what it returns satisfies [fan_result]: every index below the returned bound
    was run, exactly once, and did not ask for a lower bound. *)
Theorem verifyFanOut_correct n body procs :
  0 < procs ->
  Acc (flip (fan_step n body)) (fan_init n procs) /\
  (exists out, fan_outcome n body procs out) /\
  (forall out, fan_outcome n body procs out -> fan_result n body out).
Proof.
  intros Hp. split_and!; [|by apply fan_outcome_exists|intros out; by apply fan_outcome_result].
  by apply fan_terminates, fan_inv_init.
Qed.

(** On a certificate's signatures the racing workers return the lowest
    failing index (or the count when none fails), as a sequential scan would. *)
Theorem verifyFanOut_lowest n bad procs out :
  0 < procs -> fan_outcome n (certBody n bad) procs out -> out.1 = first_index bad 0 n.
Proof. intros Hp Hout. apply certBody_lowest. by apply fan_outcome_result with procs. Qed.

(** ** The scheduler as an interface

    The Go runtime decides the interleaving.  [Machine] is that choice: some
    number of processors and, for every call, one outcome the step relation
    allows.  Code that calls [verifyFanOut] is proved against this class. *)

Class Machine := {
  GOMAXPROCS : nat;
  verifyFanOut : nat -> (nat -> nat) -> nat * list nat;
  procs_pos : 0 < GOMAXPROCS;
  verifyFanOut_allowed n body : fan_outcome n body GOMAXPROCS (verifyFanOut n body) }.

(** One machine: the workers run to completion one after another. *)
Section Sequential.
Context (n : nat) (body : nat -> nat).

Fixpoint run_worker (fuel : nat) (w : worker) (next bound : nat) (ran : list nat)
  : nat * nat * list nat :=
  match fuel with
  | O => (next, bound, ran)
  | S fuel =>
      match fan_action n body w next bound ran with
      | Some (w', next', bound', ran') => run_worker fuel w' next' bound' ran'
      | None => (next, bound, ran)
      end
  end.

Fixpoint run_workers (k : nat) (next bound : nat) (ran : list nat) : nat * nat * list nat :=
  match k with
  | O => (next, bound, ran)
  | S k => let '(next, bound, ran) := run_worker (6 * n + 3) WTake next bound ran in
           run_workers k next bound ran
  end.

Definition sequentialFanOut (procs : nat) : nat * list nat :=
  let '(_, bound, ran) := run_workers (min procs n) 0 n [] in (bound, ran).

(** A worker running alone never sees a stale compare-and-swap. *)
Definition alone_ok (w : worker) (bound : nat) : Prop :=
  match w with WCas _ c => c = bound | _ => True end.

Lemma run_worker_steps fuel w next bound ran pre post :
  alone_ok w bound -> 6 * (n - next) + rank n bound w < fuel ->
  let '(next', bound', ran') := run_worker fuel w next bound ran in
  rtc (fan_step n body) (mkFan next bound ran (pre ++ w :: post))
      (mkFan next' bound' ran' (pre ++ WDone :: post)).
Proof.
  revert w next bound ran. induction fuel as [|fuel IH]; intros w next bound ran Ha Hf; [lia|].
  cbn [run_worker].
  destruct (fan_action n body w next bound ran) as [[[[w' next'] bound'] ran']|] eqn:E.
  - assert (alone_ok w' bound' /\ 6 * (n - next') + rank n bound' w' < 6 * (n - next) + rank n bound w)
      as [Ha' Hm].
    { destruct w; simpl in *; subst; try rewrite Nat.eqb_refl in *; repeat case_match; simplify_eq; simpl;
        rewrite ?Nat.eqb_refl; repeat case_match; split; auto; try lia;
        try (by apply Nat.leb_gt in H; lia); try (by apply Nat.leb_le in H; lia). }
    specialize (IH w' next' bound' ran' Ha' ltac:(lia)).
    destruct (run_worker fuel w' next' bound' ran') as [[next1 bound1] ran1].
    eapply rtc_l; [|exact IH].
    replace (pre ++ w' :: post) with (<[length pre := w']> (pre ++ w :: post))
      by (by rewrite insert_app_r_alt, Nat.sub_diag by lia).
    econstructor; [|exact E]. by rewrite list_lookup_middle.
  - destruct w; simpl in E; by repeat case_match.
Qed.

Lemma run_workers_steps k d next bound ran :
  let '(next', bound', ran') := run_workers k next bound ran in
  rtc (fan_step n body) (mkFan next bound ran (replicate d WDone ++ replicate k WTake))
      (mkFan next' bound' ran' (replicate (d + k) WDone)).
Proof.
  revert d next bound ran. induction k as [|k IH]; intros d next bound ran; cbn [run_workers].
  { rewrite Nat.add_0_r, app_nil_r. apply rtc_refl. }
  pose proof (run_worker_steps (6 * n + 3) WTake next bound ran (replicate d WDone) (replicate k WTake)
                I ltac:(simpl; lia)) as Hw.
  destruct (run_worker (6 * n + 3) WTake next bound ran) as [[next1 bound1] ran1].
  specialize (IH (S d) next1 bound1 ran1). destruct (run_workers k next1 bound1 ran1) as [[next2 bound2] ran2].
  etrans; [exact Hw|]. rewrite Nat.add_succ_r.
  replace (replicate d WDone ++ WDone :: replicate k WTake) with (replicate (S d) WDone ++ replicate k WTake);
    [exact IH|]. by rewrite (replicate_S_end d), <- app_assoc.
Qed.

Lemma sequentialFanOut_allowed procs : fan_outcome n body procs (sequentialFanOut procs).
Proof.
  unfold sequentialFanOut. pose proof (run_workers_steps (min procs n) 0 0 n []) as H.
  destruct (run_workers (min procs n) 0 n []) as [[next bound] ran].
  eexists. split; [exact H|]. split; [|done]. by apply Forall_replicate.
Qed.
End Sequential.

Definition sequentialMachine (procs : nat) (Hp : 0 < procs) : Machine := {|
  GOMAXPROCS := procs;
  verifyFanOut n body := sequentialFanOut n body procs;
  procs_pos := Hp;
  verifyFanOut_allowed n body := sequentialFanOut_allowed n body procs |}.

Lemma verifyFanOut_correct_witness :
  Acc (flip (fan_step 3 (certBody 3 Nat.odd))) (fan_init 3 2) /\
  (exists out, fan_outcome 3 (certBody 3 Nat.odd) 2 out) /\
  (forall out, fan_outcome 3 (certBody 3 Nat.odd) 2 out -> fan_result 3 (certBody 3 Nat.odd) out).
Proof. apply verifyFanOut_correct. lia. Defined.

Lemma verifyFanOut_lowest_witness : (sequentialFanOut 5 (certBody 5 Nat.odd) 4).1 = 1.
Proof.
  apply (verifyFanOut_lowest 5 Nat.odd 4); [lia|apply sequentialFanOut_allowed].
Defined.
