(* ===== verification/SimplexCert.v ===== *)
(** * Certificates ([src/service/validator/simplex/certificate_verify.go] and
      [journal.go])

    Roster digests and bindings, the sequential and the parallel verification of
    a quorum, sealed certificates, and the validation of the recovery journal.

    Ed25519 verification is the class [Ed25519]; the wire payload comes from
    [SimplexWire], the goroutine schedule from [SimplexFanOut.Machine].  A Go
    pointer that may be nil is an [option]; the outer [option] of [Verify] is the
    panic of the TL serializer, ruled out by the theorems below. *)

From S2P Require Import Prelude.
From S2P Require Import SimplexTypes.
From S2P Require Import SimplexWire.
From S2P Require Import Sha256.
From S2P Require Import SimplexFanOut.

#[local] Open Scope Z_scope.
#[local] Open Scope go_scope.

Class Ed25519 := { ed25519_Verify : bytes -> bytes -> bytes -> bool }.

Definition parallelVerifyMinSigs : nat := 8.

Inductive cert_error :=
| ErrEmptyValidatorSet | ErrRosterKey (i : nat) | ErrRoster (e : roster_error)
| ErrBindingNotInitialized | ErrNotVerified | ErrOtherSession | ErrOtherRoster
| ErrNilCertificate | ErrSkipHash | ErrVoteKind | ErrTooManySigs
| ErrBadIndex (i : Z) | ErrDuplicateIndex (i : Z) | ErrNotEnough | ErrBadSignature (i : Z)
| ErrBootstrapAbsent | ErrNilJournaled | ErrCorruptJournaled (v : Vote) (e : cert_error).

(** ** Bindings *)

Fixpoint roster_preimage (i : nat) (validators : list Validator) : result cert_error bytes :=
  match validators with
  | [] => Ok []
  | v :: validators =>
      if negb (length (val_PublicKey v) =? PublicKeySize)%nat then Err (ErrRosterKey i)
      else try rest := roster_preimage (S i) validators in
           Ok (val_PublicKey v ++ le_put 8 (val_Weight v) ++ rest)
  end.

Definition RosterDigest (validators : list Validator) : result cert_error bytes :=
  if (length validators =? 0)%nat then Err ErrEmptyValidatorSet else
  try body := roster_preimage 0 validators in
  Ok (sha256 (le_put 8 (Z.of_nat (length validators)) ++ body)).

Record CertificateBinding := mkBinding { cb_sessionID : bytes; cb_roster : bytes }.

#[export] Instance CertificateBinding_eq_dec : EqDecision CertificateBinding.
Proof. solve_decision. Defined.

Definition zeroBinding : CertificateBinding := mkBinding zeroHash zeroHash.

Definition NewCertificateBinding (sessionID : bytes) (validators : list Validator)
  : result cert_error CertificateBinding :=
  try roster := RosterDigest validators in Ok (mkBinding sessionID roster).

Definition Binding_IsZero (b : CertificateBinding) : bool := bool_decide (b = zeroBinding).

Record VerifiedCertificate := mkVerified {
  vc_cert : option Certificate; vc_binding : CertificateBinding }.

#[export] Instance VerifiedCertificate_eq_dec : EqDecision VerifiedCertificate.
Proof. solve_decision. Defined.

Definition zeroVerified : VerifiedCertificate := mkVerified None zeroBinding.

(** Values are immutable here, so [cloneCertificate] is the identity. *)
Definition sealCertificate (cert : Certificate) (binding : CertificateBinding) : VerifiedCertificate :=
  mkVerified (Some cert) binding.

Definition VC_Vote (c : VerifiedCertificate) : Vote :=
  match vc_cert c with None => zeroVote | Some cert => cert_Vote cert end.

Definition VC_IsZero (c : VerifiedCertificate) : bool := bool_decide (vc_cert c = None).

Definition Binding_Check (b : CertificateBinding) (c : VerifiedCertificate) : result cert_error unit :=
  if Binding_IsZero b then Err ErrBindingNotInitialized
  else if VC_IsZero c then Err ErrNotVerified
  else if negb (bool_decide (cb_sessionID (vc_binding c) = cb_sessionID b)) then Err ErrOtherSession
  else if negb (bool_decide (cb_roster (vc_binding c) = cb_roster b)) then Err ErrOtherRoster
  else Ok tt.

Fixpoint signaturesEqual (l r : list VoteSignature) : bool :=
  match l, r with
  | a :: l, b :: r =>
      if negb (vs_ValidatorIndex a =? vs_ValidatorIndex b)
         || negb (bool_decide (vs_Signature a = vs_Signature b)) then false
      else signaturesEqual l r
  | _, _ => true
  end.

Definition certificatesEqual (left right : option Certificate) : bool :=
  match left, right with
  | Some l, Some r =>
      if negb (bool_decide (cert_Vote l = cert_Vote r))
         || negb (length (cert_Signatures l) =? length (cert_Signatures r))%nat then false
      else signaturesEqual (cert_Signatures l) (cert_Signatures r)
  | None, None => true
  | _, _ => false
  end.

(** ** Verification *)

Definition validateCertificateVote (vote : Vote) : result cert_error unit :=
  match v_Kind vote with
  | VoteNotarize | VoteFinalize => Ok tt
  | VoteSkip =>
      if negb (bool_decide (cid_Hash (v_ID vote) = zeroHash)) then Err ErrSkipHash else Ok tt
  | VoteKindOther _ => Err ErrVoteKind
  end.

(** The counting loop: [voted] is the [[]bool] indexed by validator. *)
Fixpoint count_loop (validators : list Validator) (voted : list bool) (weight : Z)
    (sigs : list VoteSignature) : result cert_error Z :=
  match sigs with
  | [] => Ok weight
  | s :: sigs =>
      let i := Z.to_nat (vs_ValidatorIndex s) in
      if (length validators <=? i)%nat then Err (ErrBadIndex (vs_ValidatorIndex s))
      else if default false (voted !! i) then Err (ErrDuplicateIndex (vs_ValidatorIndex s))
      else count_loop validators (<[i := true]> voted)
             (weight +₆₄ default 0 (val_Weight <$> validators !! i)) sigs
  end.

Section Verification.
Context `{TLRuntime} `{Ed25519} `{Machine}.

(** The [verify] closure of [verifyCertificatePayload]. *)
Definition verify_signature (validators : list Validator) (payload : bytes) (s : VoteSignature) : bool :=
  (length (vs_Signature s) =? SignatureSize)%nat &&
  match validators !! Z.to_nat (vs_ValidatorIndex s) with
  | Some v => ed25519_Verify (val_PublicKey v) payload (vs_Signature s)
  | None => false
  end.

Fixpoint verify_loop (validators : list Validator) (payload : bytes) (sigs : list VoteSignature)
  : result cert_error unit :=
  match sigs with
  | [] => Ok tt
  | s :: sigs =>
      if negb (verify_signature validators payload s) then Err (ErrBadSignature (vs_ValidatorIndex s))
      else verify_loop validators payload sigs
  end.

Definition bad_signature (validators : list Validator) (payload : bytes) (sigs : list VoteSignature)
    (i : nat) : bool :=
  match sigs !! i with Some s => negb (verify_signature validators payload s) | None => false end.

Definition verifyCertificatePayload (validators : list Validator) (threshold : Z) (payload : bytes)
    (cert : Certificate) : result cert_error unit :=
  let sigs := cert_Signatures cert in
  if (length validators <? length sigs)%nat then Err ErrTooManySigs else
  try weight := count_loop validators (replicate (length validators) false) 0 sigs in
  if weight <? threshold then Err ErrNotEnough else
  if (length sigs <? parallelVerifyMinSigs)%nat || (GOMAXPROCS <? 2)%nat then
    verify_loop validators payload sigs
  else
    let bad := (verifyFanOut (length sigs)
                  (certBody (length sigs) (bad_signature validators payload sigs))).1 in
    if (bad <? length sigs)%nat then
      Err (ErrBadSignature (default 0 (vs_ValidatorIndex <$> sigs !! bad)))
    else Ok tt.

Record CertificateVerifier := mkVerifier {
  cv_binding : CertificateBinding; cv_validators : list Validator; cv_threshold : Z }.

Definition NewCertificateVerifier (sessionID : bytes) (validators : list Validator)
  : result cert_error CertificateVerifier :=
  if (length validators =? 0)%nat then Err ErrEmptyValidatorSet else
  match totalValidatorWeight validators with
  | Err e => Err (ErrRoster e)
  | Ok totalWeight =>
      try binding := NewCertificateBinding sessionID validators in
      Ok (mkVerifier binding validators (quorumThreshold totalWeight))
  end.

Definition Verify (v : CertificateVerifier) (cert : option Certificate)
  : option (result cert_error VerifiedCertificate) :=
  match cert with
  | None => Some (Err ErrNilCertificate)
  | Some cert =>
      match validateCertificateVote (cert_Vote cert) with
      | Err e => Some (Err e)
      | Ok _ =>
          if (length (cv_validators v) <? length (cert_Signatures cert))%nat then
            Some (Err ErrTooManySigs)
          else
            let sealed := sealCertificate cert (cv_binding v) in
            payload ← vote_payload (cb_sessionID (cv_binding v)) (cert_Vote cert);
            Some (try _ := verifyCertificatePayload (cv_validators v) (cv_threshold v) payload cert in
                  Ok sealed)
      end
  end.

Definition VerifyCertificate (sessionID : bytes) (validators : list Validator)
    (cert : option Certificate) : option (result cert_error VerifiedCertificate) :=
  match NewCertificateVerifier sessionID validators with
  | Err e => Some (Err e)
  | Ok verifier => Verify verifier cert
  end.
End Verification.

(** ** The recovery journal *)

Record BootstrapState := mkBootstrap {
  bs_FirstNonAnnouncedWindow : Z; bs_OurVotes : list Vote; bs_Certificates : list (option Certificate) }.

Record ValidatedBootstrap := mkValidated {
  vb_state : option BootstrapState; vb_binding : CertificateBinding;
  vb_sealed : list VerifiedCertificate }.

Section Bootstrap.
Context `{TLRuntime} `{Ed25519} `{Machine}.

(** The loop over the journaled certificates; [owned.Certificates] and [sealed]
    grow together. *)
Fixpoint bootstrap_loop (verifier : CertificateVerifier) (certs : list (option Certificate))
  : option (result cert_error (list VerifiedCertificate)) :=
  match certs with
  | [] => Some (Ok [])
  | None :: _ => Some (Err ErrNilJournaled)
  | Some cert :: certs =>
      r ← Verify verifier (Some cert);
      match r with
      | Err e => Some (Err (ErrCorruptJournaled (cert_Vote cert) e))
      | Ok verified =>
          rest ← bootstrap_loop verifier certs;
          Some (try rest := rest in Ok (verified :: rest))
      end
  end.

Definition ValidateBootstrap (sessionID : bytes) (validators : list Validator)
    (state : option BootstrapState) : option (result cert_error ValidatedBootstrap) :=
  match state with
  | None => Some (Err ErrBootstrapAbsent)
  | Some state =>
      if (length (bs_Certificates state) =? 0)%nat then
        match NewCertificateBinding sessionID validators with
        | Err _ => Some (Ok (mkValidated (Some state) zeroBinding []))
        | Ok binding => Some (Ok (mkValidated (Some state) binding []))
        end
      else
        match NewCertificateVerifier sessionID validators with
        | Err e => Some (Err e)
        | Ok verifier =>
            r ← bootstrap_loop verifier (bs_Certificates state);
            Some (try sealed := r in
              Ok (mkValidated
                    (Some (mkBootstrap (bs_FirstNonAnnouncedWindow state) (bs_OurVotes state)
                             (vc_cert <$> sealed)))
                    (cv_binding verifier) sealed))
        end
  end.
End Bootstrap.

Fixpoint all2 {A B} (f : A -> B -> bool) (l : list A) (r : list B) : bool :=
  match l, r with a :: l, b :: r => if f a b then all2 f l r else false | _, _ => true end.

Definition VB_matches (b : ValidatedBootstrap) (state : option BootstrapState) : bool :=
  match vb_state b, state with
  | Some s, Some state =>
      if negb (bs_FirstNonAnnouncedWindow s =? bs_FirstNonAnnouncedWindow state)
         || negb (bool_decide (bs_OurVotes s = bs_OurVotes state))
         || negb (length (bs_Certificates s) =? length (bs_Certificates state))%nat then false
      else all2 certificatesEqual (bs_Certificates s) (bs_Certificates state)
  | None, None => true
  | _, _ => false
  end.

(** ** What a verified certificate is *)

Definition signed_by (sigs : list VoteSignature) (i : nat) : bool :=
  bool_decide (Z.of_nat i ∈ vs_ValidatorIndex <$> sigs).

(** Signatures carry a [uint32] validator index. *)
Definition indices_ok (cert : Certificate) : Prop :=
  Forall (fun s => 0 <= vs_ValidatorIndex s) (cert_Signatures cert).

(** Distinct validators of the roster, together at the threshold, each with a
    valid signature over the payload. *)
Record quorum `{Ed25519} (vs : list Validator) (threshold : Z) (payload : bytes) (cert : Certificate)
  : Prop := {
  q_nodup : NoDup (vs_ValidatorIndex <$> cert_Signatures cert);
  q_range : Forall (fun s => 0 <= vs_ValidatorIndex s < Z.of_nat (length vs)) (cert_Signatures cert);
  q_weight : threshold <= wsum vs (signed_by (cert_Signatures cert));
  q_sigs : Forall (fun s => verify_signature vs payload s = true) (cert_Signatures cert) }.

Lemma signed_by_cons s sigs i :
  signed_by (s :: sigs) i = (Z.of_nat i =? vs_ValidatorIndex s) || signed_by sigs i.
Proof.
  unfold signed_by. rewrite fmap_cons. destruct (Z.eqb_spec (Z.of_nat i) (vs_ValidatorIndex s)) as [E|N]; simpl.
  - apply bool_decide_eq_true. rewrite E. left.
  - apply bool_decide_ext. rewrite elem_of_cons. naive_solver.
Qed.

Definition voted_at (voted : list bool) (i : nat) : bool := default false (voted !! i).

Lemma voted_at_insert voted i j :
  (i < length voted)%nat -> voted_at (<[i := true]> voted) j = (j =? i)%nat || voted_at voted j.
Proof.
  intros Hi. unfold voted_at. destruct (Nat.eqb_spec j i) as [->|]; simpl.
  - by rewrite list_lookup_insert_eq.
  - by rewrite list_lookup_insert_ne.
Qed.

Lemma count_loop_spec vs voted weight sigs w :
  weights_nonneg vs -> total_weight vs < 2 ^ 64 -> length voted = length vs ->
  Forall (fun s => 0 <= vs_ValidatorIndex s) sigs -> weight = wsum vs (voted_at voted) ->
  count_loop vs voted weight sigs = Ok w <->
  NoDup (vs_ValidatorIndex <$> sigs) /\
  Forall (fun s => 0 <= vs_ValidatorIndex s < Z.of_nat (length vs)) sigs /\
  Forall (fun s => voted_at voted (Z.to_nat (vs_ValidatorIndex s)) = false) sigs /\
  w = wsum vs (fun i => voted_at voted i || signed_by sigs i).
Proof.
  intros Hnn Ht. revert voted weight. induction sigs as [|s sigs IH]; intros voted weight Hl Hs ->; simpl.
  { rewrite (wsum_ext vs (fun i => voted_at voted i || signed_by [] i) (voted_at voted))
      by (intros; apply orb_false_r).
    split; [intros [= <-]; repeat split; constructor|intros (_ & _ & _ & ->); done]. }
  apply Forall_cons in Hs as [Hs0 Hs]. set (i := Z.to_nat (vs_ValidatorIndex s)).
  rewrite NoDup_cons, !Forall_cons.
  destruct (Nat.leb_spec (length vs) i) as [Hge|Hlt]; [split; [done|lia]|].
  fold (voted_at voted i). destruct (voted_at voted i) eqn:Hv; [split; [done|intros (_ & _ & [Hf _] & _); fold i in Hf; congruence]|].
  destruct (lookup_lt_is_Some_2 vs i Hlt) as [v Hi]. rewrite Hi. simpl.
  assert (wsum vs (voted_at (<[i:=true]> voted)) = wsum vs (voted_at voted) + val_Weight v) as Hins.
  { apply (wsum_insert vs _ _ i v Hi Hv).
    - rewrite voted_at_insert by lia. by rewrite Nat.eqb_refl.
    - intros j Hj. rewrite voted_at_insert by lia. by rewrite (proj2 (Nat.eqb_neq _ _)). }
  pose proof (wsum_nonneg vs (voted_at (<[i:=true]> voted)) Hnn).
  pose proof (wsum_le_total vs (voted_at (<[i:=true]> voted)) Hnn).
  rewrite u64_small by (unfold is_u64; lia).
  rewrite (IH (<[i:=true]> voted) _ ltac:(by rewrite length_insert) Hs (eq_sym Hins)).
  assert (Forall (fun s => voted_at (<[i:=true]> voted) (Z.to_nat (vs_ValidatorIndex s)) = false) sigs <->
    vs_ValidatorIndex s ∉ vs_ValidatorIndex <$> sigs /\
    Forall (fun s => voted_at voted (Z.to_nat (vs_ValidatorIndex s)) = false) sigs) as ->.
  { rewrite list_elem_of_fmap, !Forall_forall. rewrite Forall_forall in Hs.
    setoid_rewrite voted_at_insert; [|lia]. setoid_rewrite orb_false_iff. setoid_rewrite Nat.eqb_neq.
    split.
    - intros Hall. split; [|by apply Hall]. intros (s' & E & Hs'). apply Hall in Hs' as [Hs' _]. subst i. congruence.
    - intros [Hno Hall] s' Hs'. split; [|by apply Hall]. intros E. apply Hno. exists s'. split; [|done].
      apply Hs in Hs'. subst i. lia. }
  rewrite (wsum_ext vs (fun j => voted_at (<[i:=true]> voted) j || signed_by sigs j)
             (fun j => voted_at voted j || signed_by (s :: sigs) j)); [intuition lia|].
  intros j _. rewrite signed_by_cons, voted_at_insert by lia.
  replace (j =? i)%nat with (Z.of_nat j =? vs_ValidatorIndex s)
    by (subst i; destruct (Nat.eqb_spec j (Z.to_nat (vs_ValidatorIndex s))); lia).
  destruct (Z.of_nat j =? vs_ValidatorIndex s), (voted_at voted j); done.
Qed.

(** ** Correctness of verification *)

Section VerifyProofs.
Context `{TLLaws} `{Ed25519} `{Machine}.

(** The reference: count, then check the signatures in order. *)
Definition verify_reference (vs : list Validator) (threshold : Z) (payload : bytes) (cert : Certificate)
  : result cert_error unit :=
  if (length vs <? length (cert_Signatures cert))%nat then Err ErrTooManySigs else
  try weight := count_loop vs (replicate (length vs) false) 0 (cert_Signatures cert) in
  if weight <? threshold then Err ErrNotEnough else verify_loop vs payload (cert_Signatures cert).

Lemma verify_loop_first vs payload all sigs k :
  drop k all = sigs ->
  verify_loop vs payload sigs =
  let bad := first_index (bad_signature vs payload all) k (length sigs) in
  if (bad <? length all)%nat then Err (ErrBadSignature (default 0 (vs_ValidatorIndex <$> all !! bad)))
  else Ok tt.
Proof.
  revert k. induction sigs as [|s sigs IH]; intros k Hd; simpl.
  { assert (length all <= k)%nat by (apply (f_equal length) in Hd; rewrite length_drop in Hd; simpl in Hd; lia).
    by rewrite (proj2 (Nat.ltb_ge _ _)). }
  assert (all !! k = Some s) as Hk.
  { pose proof (lookup_drop all k 0) as E. rewrite Hd, Nat.add_0_r in E. by symmetry. }
  unfold bad_signature at 1 3. rewrite Hk. destruct (verify_signature vs payload s); simpl.
  - apply IH. change (S k) with (1 + k)%nat. rewrite <- Nat.add_comm, <- drop_drop, Hd. done.
  - apply lookup_lt_Some in Hk as Hlt. rewrite (proj2 (Nat.ltb_lt _ _)) by done. by rewrite Hk.
Qed.

Lemma verify_payload_reference vs threshold payload cert :
  verifyCertificatePayload vs threshold payload cert = verify_reference vs threshold payload cert.
Proof.
  unfold verifyCertificatePayload, verify_reference. set (sigs := cert_Signatures cert).
  destruct (length vs <? length sigs)%nat; [done|]. destruct (count_loop _ _ _ _) as [w|]; [|done]. simpl.
  destruct (w <? threshold); [done|]. destruct (_ || _); [done|].
  rewrite (verify_loop_first vs payload sigs sigs 0) by done.
  rewrite (certBody_lowest _ _ _ (fan_outcome_result _ _ _ _ procs_pos (verifyFanOut_allowed _ _))). done.
Qed.

Lemma verify_loop_ok vs payload sigs :
  verify_loop vs payload sigs = Ok tt <-> Forall (fun s => verify_signature vs payload s = true) sigs.
Proof.
  induction sigs as [|s sigs IH]; simpl; [by rewrite Forall_nil|].
  rewrite Forall_cons, <- IH. destruct (verify_signature vs payload s); simpl; naive_solver.
Qed.

Lemma voted_none n i : voted_at (replicate n false) i = false.
Proof. unfold voted_at. destruct (replicate n false !! i) eqn:E; [|done]. by apply lookup_replicate in E as [-> _]. Qed.

Lemma good_roster_nonneg vs t : good_roster vs t -> weights_nonneg vs.
Proof. intros [_ Hp _ _]. eapply Forall_impl; [exact Hp|]. simpl. lia. Qed.

Lemma NoDup_range_length (l : list Z) n :
  NoDup l -> Forall (fun x => 0 <= x < Z.of_nat n) l -> (length l <= n)%nat.
Proof.
  intros Hd Hr.
  assert (length l <= length (seqZ 0 (Z.of_nat n)))%nat as Hle.
  { apply submseteq_length, NoDup_submseteq; [done|]. intros x Hx. apply elem_of_seqZ.
    rewrite Forall_forall in Hr. apply Hr in Hx. lia. }
  rewrite length_seqZ in Hle. lia.
Qed.

Lemma verify_payload_iff vs t threshold payload cert :
  good_roster vs t -> indices_ok cert ->
  verifyCertificatePayload vs threshold payload cert = Ok tt <-> quorum vs threshold payload cert.
Proof.
  intros Hg Hi. rewrite verify_payload_reference. unfold verify_reference.
  pose proof (good_roster_nonneg _ _ Hg) as Hnn. destruct Hg as [_ _ Ht Hb].
  pose proof (fun w => count_loop_spec vs (replicate (length vs) false) 0 (cert_Signatures cert) w Hnn
    ltac:(unfold maxTotalWeight in *; lia) (length_replicate _ _) Hi
    ltac:(symmetry; apply wsum_none; intros; apply voted_none)) as Hc.
  rewrite (wsum_ext vs (fun i => voted_at (replicate (length vs) false) i || signed_by (cert_Signatures cert) i)
    (signed_by (cert_Signatures cert))) in Hc by (intros; by rewrite voted_none).
  destruct (Nat.ltb_spec (length vs) (length (cert_Signatures cert))) as [Hlt|Hge].
  { split; [done|]. intros [Hd Hr _ _]. apply NoDup_range_length with (n := length vs) in Hd; [|by apply Forall_fmap].
    rewrite length_fmap in Hd. lia. }
  destruct (count_loop vs _ 0 (cert_Signatures cert)) as [w|e]; simpl.
  - destruct (proj1 (Hc w) eq_refl) as (Hd & Hr & _ & ->).
    destruct (Z.ltb_spec (wsum vs (signed_by (cert_Signatures cert))) threshold) as [?|?].
    + split; [done|]. intros [_ _ ? _]. lia.
    + rewrite verify_loop_ok. split; [intros Hs; by constructor|by intros []].
  - split; [done|]. intros [Hd Hr _ _]. discriminate (proj2 (Hc _) (conj Hd (conj Hr (conj
      (proj2 (Forall_forall _ _) (fun s _ => voted_none _ _)) eq_refl)))).
Qed.

Lemma validateCertificateVote_iff vote :
  sized_id (v_ID vote) -> validateCertificateVote vote = Ok tt <-> sized_vote vote.
Proof.
  intros Hid. unfold validateCertificateVote, sized_vote, valid_kind. destruct (v_Kind vote); try naive_solver.
  case_bool_decide; simpl; naive_solver.
Qed.

Lemma NewCertificateVerifier_ok session vs v :
  Forall no_wrap_weight vs -> NewCertificateVerifier session vs = Ok v ->
  good_roster vs (total_weight vs) /\ cv_validators v = vs /\ cb_sessionID (cv_binding v) = session /\
  cv_threshold v = quorumThreshold (total_weight vs) /\
  NewCertificateBinding session vs = Ok (cv_binding v).
Proof.
  intros Hw. unfold NewCertificateVerifier. destruct (_ =? _)%nat; [done|].
  destruct (totalValidatorWeight vs) as [t|] eqn:Et; [|done].
  assert (good_roster vs t) as Hg.
  { unfold totalValidatorWeight in Et. apply totalWeight_loop_spec in Et as (? & ? & -> & ?);
      [by constructor|unfold maxTotalWeight; lia|done]. }
  pose proof (gr_total _ _ Hg) as ->. destruct (NewCertificateBinding session vs) as [b|] eqn:Eb; [|done].
  intros [= <-]. split_and!; try done. simpl. unfold NewCertificateBinding in Eb.
  destruct (RosterDigest vs); [|done]. by injection Eb as <-.
Qed.

(** Whatever the goroutine schedule, [verifyCertificatePayload] gives the
    verdict, the error included, of counting the signatures and then checking
    them one by one in order. *)
Theorem verifyCertificatePayload_sequential vs threshold payload cert :
  verifyCertificatePayload vs threshold payload cert = verify_reference vs threshold payload cert.
Proof. apply verify_payload_reference. Qed.

Lemma Verify_spec session vs v cert :
  length session = 32%nat -> Forall no_wrap_weight vs ->
  NewCertificateVerifier session vs = Ok v ->
  sized_id (v_ID (cert_Vote cert)) -> indices_ok cert ->
  exists r, Verify v (Some cert) = Some r /\
    (forall sealed, r = Ok sealed <->
      sealed = sealCertificate cert (cv_binding v) /\ sized_vote (cert_Vote cert) /\
      exists payload, vote_payload session (cert_Vote cert) = Some payload /\
        quorum vs (quorumThreshold (total_weight vs)) payload cert).
Proof.
  intros Hs Hw Ev Hid Hix. destruct (NewCertificateVerifier_ok _ _ _ Hw Ev) as (Hg & Evs & Es & Et & _).
  pose proof (validateCertificateVote_iff _ Hid) as Hval. unfold Verify. rewrite Evs, Es, Et.
  destruct (validateCertificateVote (cert_Vote cert)) as [[]|e].
  2:{ eexists. split; [done|]. intros sealed. split; [done|]. intros (_ & Hwf & _). by apply Hval in Hwf. }
  assert (sized_vote (cert_Vote cert)) as Hwf by by apply Hval.
  destruct (sized_payload session _ Hs Hwf) as [p Ep].
  pose proof (verify_payload_iff vs _ (quorumThreshold (total_weight vs)) p cert Hg Hix) as Hq.
  destruct (Nat.ltb_spec (length vs) (length (cert_Signatures cert))) as [Hlt|Hge].
  - eexists. split; [done|]. intros sealed. split; [done|]. intros (_ & _ & p' & Ep' & [Hd Hr _ _]).
    apply NoDup_range_length with (n := length vs) in Hd; [|by apply Forall_fmap].
    rewrite length_fmap in Hd. lia.
  - rewrite Ep. cbn [mbind option_bind]. eexists. split; [done|]. intros sealed.
    destruct (verifyCertificatePayload vs _ p cert) as [[]|e]; simpl; split.
    + intros [= <-]. split_and!; eauto. exists p. split; [done|]. by apply Hq.
    + intros (-> & _). done.
    + done.
    + intros (_ & _ & p' & Ep' & Hq'). simplify_eq. by apply Hq in Hq'.
Qed.

(** C28: [Verify] seals exactly the certificates that carry a quorum.  For every
    certificate value it returns without a panic, and it returns the sealed
    certificate if and only if the vote has a valid shape, the signers are
    distinct members of the roster weighing at least the [2/3 + 1] threshold of
    the exact total, and every signature is valid over the session's payload. *)
Theorem Verify_iff_quorum session vs v cert :
  length session = 32%nat -> Forall no_wrap_weight vs ->
  NewCertificateVerifier session vs = Ok v ->
  sized_id (v_ID (cert_Vote cert)) -> indices_ok cert ->
  exists r, Verify v (Some cert) = Some r /\
    (forall sealed, r = Ok sealed <->
      sealed = sealCertificate cert (cv_binding v) /\ sized_vote (cert_Vote cert) /\
      exists payload, vote_payload session (cert_Vote cert) = Some payload /\
        quorum vs (quorumThreshold (total_weight vs)) payload cert).
Proof. apply Verify_spec. Qed.
End VerifyProofs.

(** ** Bindings commit to the roster *)

(** Two different messages with the same hash. *)
Definition collides (x y : bytes) : Prop := x <> y /\ sha256 x = sha256 y.
(** The bytes [RosterDigest] hashes. *)
Definition roster_bytes (vs : list Validator) : result cert_error bytes :=
  try body := roster_preimage 0 vs in Ok (le_put 8 (Z.of_nat (length vs)) ++ body).
Definition rosters_collide (vs vs' : list Validator) : Prop :=
  exists x y, roster_bytes vs = Ok x /\ roster_bytes vs' = Ok y /\ collides x y.

(** A Go slice of validators: lengths and weights are machine words. *)
Definition roster_slice (vs : list Validator) : Prop :=
  Z.of_nat (length vs) < 2 ^ 64 /\ Forall (fun v => is_u64 (val_Weight v)) vs.

Lemma roster_preimage_inj i j vs vs' body :
  Forall (fun v => is_u64 (val_Weight v)) vs -> Forall (fun v => is_u64 (val_Weight v)) vs' ->
  length vs = length vs' ->
  roster_preimage i vs = Ok body -> roster_preimage j vs' = Ok body -> vs = vs'.
Proof.
  intros Hw. revert i j vs' body. induction Hw as [|[k w] vs Hv _ IH]; intros i j [|[k' w'] vs'] body Hw' Hl; try done.
  apply Forall_cons in Hw' as [Hv' Hw']. cbn [roster_preimage val_PublicKey val_Weight length] in *.
  destruct (Nat.eqb_spec (length k) PublicKeySize) as [Hk|]; [|done].
  destruct (Nat.eqb_spec (length k') PublicKeySize) as [Hk'|]; [|done]. cbn [negb].
  destruct (roster_preimage (S i) vs) as [r|] eqn:E; [|done].
  destruct (roster_preimage (S j) vs') as [r'|] eqn:E'; [|done]. cbn [and_then].
  intros <-%(inj Ok) Eb%(inj Ok). apply app_inj_1 in Eb as [-> Eb]; [|congruence].
  apply app_inj_1 in Eb as [Ew Er]; [|by rewrite !length_le_put]. apply le_put_inj in Ew as ->; [|done|done].
  subst r'. f_equal. by apply (IH (S i) (S j) vs' r); [|injection Hl| |].
Qed.

Lemma RosterDigest_inj vs vs' d :
  roster_slice vs -> roster_slice vs' -> RosterDigest vs = Ok d -> RosterDigest vs' = Ok d ->
  vs = vs' \/ rosters_collide vs vs'.
Proof.
  intros [Hl Hw] [Hl' Hw']. unfold RosterDigest. destruct (_ =? 0)%nat; [done|]. destruct (_ =? 0)%nat; [done|].
  destruct (roster_preimage 0 vs) as [b|] eqn:Eb; [|done]. destruct (roster_preimage 0 vs') as [b'|] eqn:Eb'; [|done].
  cbn [and_then]. intros E1%(inj Ok) E2%(inj Ok). rewrite <- E2 in E1.
  destruct (decide (le_put 8 (Z.of_nat (length vs)) ++ b = le_put 8 (Z.of_nat (length vs')) ++ b')) as [E|N].
  - left. apply app_inj_1 in E as [El ->]; [|by rewrite !length_le_put].
    apply le_put_inj in El; [|lia|lia]. eapply roster_preimage_inj; eauto. lia.
  - right. unfold rosters_collide, roster_bytes. rewrite Eb, Eb'. by eexists _, _.
Qed.

(** C33: a seal checked against a session's binding was issued for that session
    and that exact roster: [Check] accepts a certificate sealed by a verifier only
    if the verifier's session and roster are the binding's own, or the bytes
    hashed for the two rosters are a SHA-256 collision. *)
Theorem Binding_Check_sound s vs v s' vs' b c :
  roster_slice vs -> roster_slice vs' ->
  NewCertificateVerifier s vs = Ok v -> NewCertificateBinding s' vs' = Ok b ->
  Binding_Check b (sealCertificate c (cv_binding v)) = Ok tt ->
  s = s' /\ (vs = vs' \/ rosters_collide vs vs').
Proof.
  intros Hv Hv' Ev Eb Hc. unfold NewCertificateVerifier in Ev.
  destruct (_ =? _)%nat; [done|]. destruct (totalValidatorWeight vs); [|done].
  unfold NewCertificateBinding in Ev, Eb.
  destruct (RosterDigest vs) as [d|] eqn:Ed; [|done]. destruct (RosterDigest vs') as [d'|] eqn:Ed'; [|done].
  simpl in Ev, Eb. injection Ev as <-. injection Eb as <-. unfold Binding_Check in Hc. simpl in Hc.
  destruct (Binding_IsZero _); [done|]. unfold VC_IsZero in Hc. simpl in Hc.
  case_bool_decide as Hs; [|done]. case_bool_decide as Hr; [|done]. simpl in Hs, Hr. subst s' d'.
  split; [done|]. by eapply RosterDigest_inj.
Qed.

(** ** The recovery journal is verified as a whole *)

Lemma signaturesEqual_eq l r : length l = length r -> signaturesEqual l r = true <-> l = r.
Proof.
  revert r. induction l as [|[i s] l IH]; intros [|[j t] r] Hl; simpl in *; try done.
  destruct (Z.eqb_spec i j) as [->|N]; simpl; [|split; [done|congruence]].
  case_bool_decide as E; simpl; [|split; [done|congruence]]. subst. rewrite IH by congruence.
  split; [by intros ->|by intros [= ->]].
Qed.

Lemma certificatesEqual_eq l r : certificatesEqual l r = true <-> l = r.
Proof.
  destruct l as [[v s]|], r as [[v' s']|]; simpl; try done.
  case_bool_decide as E; simpl; [|split; [done|congruence]]. subst.
  destruct (Nat.eqb_spec (length s) (length s')) as [El|N]; simpl; [|split; [done|congruence]].
  rewrite (signaturesEqual_eq s s' El). split; [by intros ->|by intros [= ->]].
Qed.

Lemma all2_certificatesEqual l r :
  length l = length r -> all2 certificatesEqual l r = true <-> l = r.
Proof.
  revert r. induction l as [|a l IH]; intros [|b r] Hl; simpl in *; try done.
  pose proof (certificatesEqual_eq a b) as Hab. destruct (certificatesEqual a b).
  - rewrite IH by congruence. destruct Hab as [-> _]; [|done]. split; [by intros ->|by intros [= ->]].
  - split; [done|]. intros [= Hab' _]. by apply Hab in Hab'.
Qed.

Lemma VB_matches_eq b state : VB_matches b state = true <-> vb_state b = state.
Proof.
  unfold VB_matches. destruct (vb_state b) as [[w o c]|], state as [[w' o' c']|]; simpl; try done.
  destruct (Z.eqb_spec w w') as [->|N]; simpl; [|split; [done|congruence]].
  case_bool_decide as E; simpl; [|split; [done|congruence]]. subst.
  destruct (Nat.eqb_spec (length c) (length c')) as [El|N]; simpl; [|split; [done|congruence]].
  rewrite (all2_certificatesEqual c c' El). split; [by intros ->|by intros [= ->]].
Qed.

Section BootstrapProofs.
Context `{TLLaws} `{Ed25519} `{Machine}.

(** [s] seals a certificate with a quorum of the roster, under binding [b]. *)
Definition sealed_quorum (session : bytes) (vs : list Validator) (b : CertificateBinding)
    (s : VerifiedCertificate) : Prop :=
  vc_binding s = b /\ exists c payload, vc_cert s = Some c /\ sized_vote (cert_Vote c) /\
    vote_payload session (cert_Vote c) = Some payload /\
    quorum vs (quorumThreshold (total_weight vs)) payload c.

(** The certificates of a journal are Go values: fixed-size hashes, [uint32] indices. *)
Definition typed_certificate (c : option Certificate) : Prop :=
  match c with Some c => sized_id (v_ID (cert_Vote c)) /\ indices_ok c | None => True end.

Lemma bootstrap_loop_spec session vs v certs :
  length session = 32%nat -> Forall no_wrap_weight vs -> NewCertificateVerifier session vs = Ok v ->
  Forall typed_certificate certs ->
  exists r, bootstrap_loop v certs = Some r /\
    forall sealed, r = Ok sealed ->
      vc_cert <$> sealed = certs /\ Forall (sealed_quorum session vs (cv_binding v)) sealed.
Proof.
  intros Hs Hw Hv. induction 1 as [|[c|] certs Hc _ IH]; cbn [bootstrap_loop].
  - eexists. split; [done|]. intros sealed [= <-]. by split.
  - destruct Hc as [Hid Hix].
    destruct (Verify_spec session vs v c Hs Hw Hv Hid Hix) as (r & Er & Hr). rewrite Er. cbn [mbind option_bind].
    destruct r as [sealed|e]; [|eexists; split; [done|by intros]].
    destruct (proj1 (Hr sealed) eq_refl) as (-> & Hwf & p & Ep & Hq).
    destruct IH as (rest & Erest & Hrest). rewrite Erest. cbn [mbind option_bind].
    eexists. split; [done|]. intros all Hall. destruct rest as [rest|]; [|done]. simpl in Hall. injection Hall as <-.
    destruct (Hrest rest eq_refl) as [Em Hf]. split; [by rewrite fmap_cons, Em|]. constructor; [|done].
    split; [done|]. eauto 10.
  - eexists. split; [done|]. by intros.
Qed.

(** C32: a validated journal is the journal that was read, with every certificate
    verified: [ValidateBootstrap] never panics, keeps the state unchanged, and
    each certificate it hands out sealed carries a quorum of this session's
    roster under the reported binding. *)
Theorem ValidateBootstrap_sound session vs st :
  length session = 32%nat -> Forall no_wrap_weight vs -> Forall typed_certificate (bs_Certificates st) ->
  exists r, ValidateBootstrap session vs (Some st) = Some r /\
    forall vb, r = Ok vb ->
      VB_matches vb (Some st) = true /\ vc_cert <$> vb_sealed vb = bs_Certificates st /\
      Forall (sealed_quorum session vs (vb_binding vb)) (vb_sealed vb).
Proof.
  intros Hs Hw Hc. unfold ValidateBootstrap.
  destruct (Nat.eqb_spec (length (bs_Certificates st)) 0) as [Hz|Hz].
  { apply length_zero_iff_nil in Hz.
    destruct (NewCertificateBinding session vs); eexists; (split; [done|]); intros vb [= <-];
      (split; [by apply VB_matches_eq|by rewrite Hz]). }
  destruct (NewCertificateVerifier session vs) as [v|e] eqn:Ev; [|eexists; split; [done|by intros]].
  destruct (bootstrap_loop_spec session vs v _ Hs Hw Ev Hc) as (r & Er & Hr). rewrite Er. cbn [mbind option_bind].
  eexists. split; [done|]. intros vb Hvb. destruct r as [sealed|]; [|done]. simpl in Hvb. injection Hvb as <-.
  destruct (Hr sealed eq_refl) as [Em Hf]. split; [|by split].
  apply VB_matches_eq. simpl. rewrite Em. by destruct st.
Qed.
End BootstrapProofs.

(** ** Witnesses

    A roster of four with a keyed-hash signature, and a certificate signed by
    three of them. *)

Module ExampleCert.
Import ExampleTL.

(** A toy signature: the key and a 32-bit checksum of the message. *)
Definition checksum (msg : bytes) : Z := fold_left (fun h b => Z.land (h * 31 + b) 0xffffffff) msg 7.
Definition mac (key msg : bytes) : bytes := key ++ le_put 8 (checksum msg) ++ replicate 24 0.
#[export] Instance ed : Ed25519 := { ed25519_Verify key msg sig := bool_decide (sig = mac key msg) }.
#[export] Instance machine : Machine := sequentialMachine 2 ltac:(lia).

Definition key (i : Z) : bytes := replicate 32 i.
Definition roster : list Validator := (fun i => mkValidator (key i) 1) <$> [0; 1; 2; 3].
Definition session : bytes := replicate 32 9.
Definition vote : Vote := NotarizeVote example_id.
Definition payload : bytes := default [] (vote_payload session vote).
Definition cert : Certificate :=
  mkCertificate vote ((fun i => mkVoteSignature i (mac (key i) payload)) <$> [0; 1; 3]).
Definition verifier : CertificateVerifier :=
  match NewCertificateVerifier session roster with Ok v => v | Err _ => mkVerifier zeroBinding [] 0 end.

Lemma roster_no_wrap : Forall no_wrap_weight roster.
Proof. repeat constructor; unfold maxTotalWeight; simpl; lia. Qed.
Lemma verifier_ok : NewCertificateVerifier session roster = Ok verifier.
Proof. vm_compute. reflexivity. Qed.
Lemma cert_indices : indices_ok cert.
Proof. repeat constructor; simpl; lia. Qed.
End ExampleCert.
Import ExampleTL ExampleCert.

Lemma Verify_iff_quorum_witness :
  Verify verifier (Some cert) = Some (Ok (sealCertificate cert (cv_binding verifier))) /\
  exists r, Verify verifier (Some cert) = Some r /\
    (forall sealed, r = Ok sealed <->
      sealed = sealCertificate cert (cv_binding verifier) /\ sized_vote vote /\
      exists payload, vote_payload session vote = Some payload /\
        quorum roster (quorumThreshold (total_weight roster)) payload cert).
Proof.
  split; [vm_compute; reflexivity|].
  apply (Verify_iff_quorum session roster verifier cert);
    [reflexivity|apply roster_no_wrap|apply verifier_ok|apply wf_id_sized, example_id_wf|apply cert_indices].
Defined.

Lemma Binding_Check_sound_witness :
  session = session /\ (roster = roster \/ rosters_collide roster roster).
Proof.
  apply (Binding_Check_sound session roster verifier session roster (cv_binding verifier) cert).
  - split; [reflexivity|repeat constructor; simpl; lia].
  - split; [reflexivity|repeat constructor; simpl; lia].
  - apply verifier_ok.
  - vm_compute. reflexivity.
  - vm_compute. reflexivity.
Defined.

Lemma ValidateBootstrap_sound_witness :
  let st := mkBootstrap 1 [vote] [Some cert] in
  exists r, ValidateBootstrap session roster (Some st) = Some r /\
    forall vb, r = Ok vb ->
      VB_matches vb (Some st) = true /\ vc_cert <$> vb_sealed vb = bs_Certificates st /\
      Forall (sealed_quorum session roster (vb_binding vb)) (vb_sealed vb).
Proof.
  apply ValidateBootstrap_sound; [reflexivity|apply roster_no_wrap|].
  constructor; [|constructor]. split; [apply wf_id_sized, example_id_wf|apply cert_indices].
Defined.
