(* ===== verification/SimplexCandidate.v ===== *)
(** * Candidates ([src/service/validator/simplex/candidate.go])

    The leader's proposal: its identity hash, the leader's signature or the
    delegation to a collator, and the structural checks before serialization.
    A [None] is the panic of [mustSerialize]. *)

From S2P Require Import Prelude.
From S2P Require Import SimplexTypes.
From S2P Require Import SimplexWire.
From S2P Require Import Sha256.
From S2P Require Import SimplexFanOut.
From S2P Require Import SimplexCert.

#[local] Open Scope Z_scope.
#[local] Open Scope go_scope.

Record Delegation := mkDelegation { dl_CollatorKey : bytes; dl_Signature : bytes }.

Record Candidate := mkCandidate {
  c_ID : CandidateID;
  c_Parent : ParentID;
  c_Leader : Z;
  c_Empty : bool;
  c_Block : BlockIDExt;
  c_CollatedFileHash : bytes;
  c_Signature : bytes;
  c_Delegation : option Delegation }.

#[export] Instance Delegation_eq_dec : EqDecision Delegation.
Proof. solve_decision. Defined.
#[export] Instance Candidate_eq_dec : EqDecision Candidate.
Proof. solve_decision. Defined.

Inductive candidate_error :=
| ErrBlockHashes | ErrEmptyWithoutParent | ErrParentSlot
| ErrCollatorKey | ErrDelegationSignature | ErrDelegatedCandidateSignature.

Section Candidates.
Context `{TLRuntime} `{Ed25519}.

(** [KeyNodeIDShort]: sha256 of the boxed key. *)
Definition KeyNodeIDShort (key : bytes) : option bytes :=
  b ← tl_Serialize (TLPublicKeyED25519 key); Some (sha256 b).

Definition OurVoteRecordHash (v : Vote) : option bytes := b ← VoteBytes v; Some (sha256 b).
Definition CertificateRecordHash (c : Certificate) : option bytes :=
  b ← Certificate_Serialize c; Some (sha256 b).

Definition hash_data (c : Candidate) : TLObject :=
  if c_Empty c then TLHashDataEmpty (c_Block c) (tlCandidateID (par_ID (c_Parent c)))
  else TLHashDataOrdinary (c_Block c) (c_CollatedFileHash c) (parentToTL (c_Parent c)).

Definition HashDataBytes (c : Candidate) : option bytes := tl_Serialize (hash_data c).

Definition ComputeID (c : Candidate) (slot : Z) : option CandidateID :=
  b ← HashDataBytes c; Some (mkCandidateID slot (sha256 b)).

(** What [SignCandidate] signs and [VerifyCandidateSignature] checks. *)
Definition candidate_payload (sessionID : bytes) (id : CandidateID) : option bytes :=
  b ← tl_Serialize (TLObjCandidateID (tlCandidateID id)); DataToSign sessionID b.

(** [Signer] is an interface; [sign] is its [Sign] method. *)
Definition SignCandidate {E} (sign : bytes -> result E bytes) (sessionID : bytes) (id : CandidateID)
  : option (result E bytes) :=
  p ← candidate_payload sessionID id; Some (sign p).

Definition DelegationToSignBytes (windowStart : Z) (collatorID : bytes) : option bytes :=
  tl_Serialize (TLDelegationToSign (i32 windowStart) collatorID).

Definition delegation_payload (sessionID : bytes) (windowStart : Z) (collatorID : bytes) : option bytes :=
  b ← DelegationToSignBytes windowStart collatorID; DataToSign sessionID b.

Definition SignDelegation {E} (sign : bytes -> result E bytes) (sessionID : bytes) (windowStart : Z)
    (collatorID : bytes) : option (result E bytes) :=
  p ← delegation_payload sessionID windowStart collatorID; Some (sign p).

(** The length check short-circuits before the payload is built. *)
Definition VerifyDelegationSignature (leaderKey sessionID : bytes) (windowStart : Z)
    (collatorID signature : bytes) : option bool :=
  if negb (length signature =? SignatureSize)%nat then Some false
  else p ← delegation_payload sessionID windowStart collatorID;
       Some (ed25519_Verify leaderKey p signature).

Definition VerifyCandidateSignature (key sessionID : bytes) (id : CandidateID) (sig : bytes) : option bool :=
  if negb (length sig =? SignatureSize)%nat then Some false
  else p ← candidate_payload sessionID id; Some (ed25519_Verify key p sig).

(** The division by [slotsPerWindow] panics on zero; [NewEngine] rejects it. *)
Definition verifyDelegatedCandidate (c : Candidate) (d : Delegation) (leaderKey sessionID : bytes)
    (slotsPerWindow : Z) : option (result candidate_error unit) :=
  if negb (length (dl_CollatorKey d) =? PublicKeySize)%nat then Some (Err ErrCollatorKey) else
  collatorID ← KeyNodeIDShort (dl_CollatorKey d);
  if slotsPerWindow =? 0 then None else
  let windowStart := cid_Slot (c_ID c) -₃₂ cid_Slot (c_ID c) mod slotsPerWindow in
  ok ← VerifyDelegationSignature leaderKey sessionID windowStart collatorID (dl_Signature d);
  if negb ok then Some (Err ErrDelegationSignature) else
  ok ← VerifyCandidateSignature (dl_CollatorKey d) sessionID (c_ID c) (c_Signature c);
  if negb ok then Some (Err ErrDelegatedCandidateSignature) else Some (Ok tt).

Definition ValidateShape (c : Candidate) : result candidate_error unit :=
  if negb (length (b_RootHash (c_Block c)) =? 32)%nat || negb (length (b_FileHash (c_Block c)) =? 32)%nat
  then Err ErrBlockHashes
  else if c_Empty c && negb (par_Exists (c_Parent c)) then Err ErrEmptyWithoutParent
  else if par_Exists (c_Parent c) && (cid_Slot (c_ID c) <=? cid_Slot (par_ID (c_Parent c)))
  then Err ErrParentSlot
  else Ok tt.
End Candidates.

(** ** Candidate identity *)

(** A candidate as Go data: 32-byte arrays and machine-width numbers. *)
Definition typed_candidate (c : Candidate) : Prop :=
  wf_id (par_ID (c_Parent c)) /\ length (c_CollatedFileHash c) = 32%nat /\
  is_i32 (b_Workchain (c_Block c)) /\ is_i64 (b_Shard (c_Block c)) /\ is_u32 (b_SeqNo (c_Block c)).

(** The parts of a candidate its hash covers. *)
Definition same_content (c c' : Candidate) : Prop :=
  c_Empty c = c_Empty c' /\ c_Block c = c_Block c' /\ same_parent (c_Parent c) (c_Parent c') /\
  (c_Empty c = false -> c_CollatedFileHash c = c_CollatedFileHash c').

Section CandidateProofs.
Context `{TLLaws} `{Ed25519}.

Lemma tlCandidateID_inj id id' : wf_id id -> wf_id id' -> tlCandidateID id = tlCandidateID id' -> id = id'.
Proof.
  destruct id as [s h], id' as [s' h']. intros [Hs _] [Hs' _] [= E ->]. simpl in *. f_equal.
  rewrite <- (u32_i32 s), <- (u32_i32 s') by done. by rewrite E.
Qed.

Lemma wf_tlCandidateID id : wf_id id -> wf_tl_id (tlCandidateID id).
Proof. intros [_ [Hl _]]. split; [apply i32_range|done]. Qed.

Lemma ValidateShape_ok c :
  ValidateShape c = Ok tt <->
  length (b_RootHash (c_Block c)) = 32%nat /\ length (b_FileHash (c_Block c)) = 32%nat /\
  (c_Empty c = true -> par_Exists (c_Parent c) = true) /\
  (par_Exists (c_Parent c) = true -> cid_Slot (par_ID (c_Parent c)) < cid_Slot (c_ID c)).
Proof.
  unfold ValidateShape.
  destruct (Nat.eqb_spec (length (b_RootHash (c_Block c))) 32); simpl; [|naive_solver].
  destruct (Nat.eqb_spec (length (b_FileHash (c_Block c))) 32); simpl; [|naive_solver].
  destruct (c_Empty c), (par_Exists (c_Parent c)); simpl; try naive_solver;
    destruct (Z.leb_spec (cid_Slot (c_ID c)) (cid_Slot (par_ID (c_Parent c)))); split; try done;
    try (intros (_ & _ & _ & Hlt); specialize (Hlt eq_refl); lia); auto.
Qed.

Lemma wf_hash_data_of c : typed_candidate c -> ValidateShape c = Ok tt -> wf_hash_data (hash_data c).
Proof.
  intros (Hp & Hc & Hw & Hsh & Hq) (Hr & Hf & _ & _)%ValidateShape_ok. unfold hash_data.
  destruct (c_Empty c); simpl; unfold wf_block_id; split_and!; auto using wf_tlCandidateID.
  unfold parentToTL. destruct (par_Exists (c_Parent c)); simpl; [by apply wf_tlCandidateID|done].
Qed.

(** The serializers accept typed values. *)
Lemma candidate_payload_some session id :
  length session = 32%nat -> length (cid_Hash id) = 32%nat -> is_Some (candidate_payload session id).
Proof.
  intros Hs Hh. destruct (law_serialize_fixed (TLObjCandidateID (tlCandidateID id))) as (b & Eb & Hb).
  { split; [apply i32_range|done]. }
  unfold candidate_payload. rewrite Eb. by apply law_serialize_data.
Qed.
Lemma delegation_payload_some session w key id :
  length session = 32%nat -> KeyNodeIDShort key = Some id -> is_Some (delegation_payload session w id).
Proof.
  intros Hs (k & _ & [= <-])%bind_Some. destruct (law_serialize_fixed (TLDelegationToSign (i32 w) (sha256 k))) as (b & Eb & Hb).
  { split; [apply i32_range|apply length_sha256]. }
  unfold delegation_payload, DelegationToSignBytes. rewrite Eb. by apply law_serialize_data.
Qed.
Lemma VerifyCandidateSignature_some key session id sig :
  length session = 32%nat -> length (cid_Hash id) = 32%nat ->
  is_Some (VerifyCandidateSignature key session id sig).
Proof.
  intros Hs Hh. unfold VerifyCandidateSignature. destruct (negb _); [done|].
  by destruct (candidate_payload_some session id Hs Hh) as [b ->].
Qed.
Lemma verifyDelegatedCandidate_some c d key session spw :
  length session = 32%nat -> spw <> 0 -> length (cid_Hash (c_ID c)) = 32%nat ->
  is_Some (verifyDelegatedCandidate c d key session spw).
Proof.
  intros Hs Hw Hh. unfold verifyDelegatedCandidate. destruct (Nat.eqb_spec (length (dl_CollatorKey d)) PublicKeySize) as [Hk|]; [|done].
  destruct (law_serialize_fixed (TLPublicKeyED25519 (dl_CollatorKey d)) Hk) as (b & Eb & _). cbn [negb].
  assert (KeyNodeIDShort (dl_CollatorKey d) = Some (sha256 b)) as Ek by (unfold KeyNodeIDShort; by rewrite Eb).
  rewrite Ek. cbn [mbind option_bind]. rewrite (proj2 (Z.eqb_neq _ _) Hw). unfold VerifyDelegationSignature.
  destruct (length (dl_Signature d) =? SignatureSize)%nat; cbn [negb mbind option_bind]; [|done].
  edestruct delegation_payload_some as [p ->]; [done|exact Ek|]. cbn [mbind option_bind].
  destruct (ed25519_Verify _ _ _); cbn [negb]; [|done].
  destruct (VerifyCandidateSignature_some (dl_CollatorKey d) session (c_ID c) (c_Signature c)) as [ok ->]; [done..|].
  cbn [mbind option_bind]. by destruct ok.
Qed.

(** C34: a candidate id commits to the proposal: for candidates that pass
    [ValidateShape] the id is computed without a panic, and two of them with the
    same id agree on the emptiness flag, the block, the parent and, for ordinary
    candidates, the collated data, or the bytes hashed for the two ids are a
    SHA-256 collision. *)
Theorem ComputeID_binding c c' slot slot' :
  typed_candidate c -> typed_candidate c' -> ValidateShape c = Ok tt -> ValidateShape c' = Ok tt ->
  is_Some (ComputeID c slot) /\
  (ComputeID c slot = ComputeID c' slot' ->
   slot = slot' /\ (same_content c c' \/
     exists b b', HashDataBytes c = Some b /\ HashDataBytes c' = Some b' /\ collides b b')).
Proof.
  intros Ht Ht' Hs Hs'. pose proof (wf_hash_data_of c Ht Hs) as Hw. pose proof (wf_hash_data_of c' Ht' Hs') as Hw'.
  unfold ComputeID, HashDataBytes.
  destruct (law_serialize_hash _ Hw) as [b Eb]. destruct (law_serialize_hash _ Hw') as [b' Eb'].
  rewrite Eb, Eb'. cbn [mbind option_bind]. split; [by eexists|]. intros E%(inj Some).
  pose proof (f_equal cid_Slot E) as Eslot. pose proof (f_equal cid_Hash E) as Ehash.
  cbn [cid_Slot cid_Hash] in Eslot, Ehash. split; [done|].
  destruct (decide (b = b')) as [->|N]; [|right; exists b, b'; split_and!; [done|done|by split]].
  left. rewrite <- Eb' in Eb. apply law_serialize_hash_inj in Eb; [|done|done]. unfold hash_data in Eb.
  apply ValidateShape_ok in Hs as (_ & _ & He & _), Hs' as (_ & _ & He' & _).
  destruct Ht as [Hp _], Ht' as [Hp' _]. unfold same_content, same_parent.
  destruct (c_Empty c), (c_Empty c'); simplify_eq.
  - rewrite He, He' by done. split_and!; try done. intros _.
    apply tlCandidateID_inj; [done|done|unfold tlCandidateID; congruence].
  - unfold parentToTL in *. destruct (par_Exists (c_Parent c)) eqn:E1, (par_Exists (c_Parent c')) eqn:E2;
      simplify_eq/=; split_and!; try done. intros _.
    apply tlCandidateID_inj; [done|done|unfold tlCandidateID; congruence].
Qed.
End CandidateProofs.

Import ExampleTL.

Definition example_candidate : Candidate :=
  mkCandidate example_id (Parent (mkCandidateID 4 zeroHash)) 1 false
    (mkBlockIDExt (-1) (- 2 ^ 63) 17 zeroHash zeroHash) zeroHash [] None.

Lemma ComputeID_binding_witness :
  is_Some (ComputeID example_candidate 5) /\
  (ComputeID example_candidate 5 = ComputeID example_candidate 5 ->
   5 = 5 /\ (same_content example_candidate example_candidate \/
     exists b b', HashDataBytes example_candidate = Some b /\ HashDataBytes example_candidate = Some b' /\ collides b b')).
Proof.
  assert (typed_candidate example_candidate) as Ht.
  { split_and!; try done. split; [done|apply wf_zeroHash]. }
  apply ComputeID_binding; [exact Ht|exact Ht|reflexivity|reflexivity].
Defined.
