(* ===== verification/SimplexPool.v ===== *)
(** * Per-slot voting records ([src/service/validator/simplex/pool.go])

    The vote record of one validator in one slot with the Simplex conflict rules,
    and the pool's state of one slot: votes, certificates, accumulated weights and
    the best base to build on.  A [None] is a panic on an invalid vote kind or in
    a serializer. *)

From S2P Require Import Prelude.
From S2P Require Import SimplexTypes.
From S2P Require Import SimplexWire.

#[local] Open Scope Z_scope.
#[local] Open Scope go_scope.

(** ** Proven votes *)

Record proven := mkProven {
  pv_set : bool; pv_fromCert : bool; pv_vote : Vote; pv_sig : bytes; pv_cert : option Certificate }.

#[export] Instance proven_eq_dec : EqDecision proven.
Proof. solve_decision. Defined.

Definition zeroProven : proven := mkProven false false zeroVote [] None.

(** [proven{set: true, vote: v, sig: sig}] and the record extracted from a certificate. *)
Definition direct_vote (v : Vote) (sig : bytes) : proven := mkProven true false v sig None.
Definition cert_vote (c : Certificate) (sig : bytes) : proven := mkProven true true (cert_Vote c) sig (Some c).

Record conflictEvidence := mkEvidence { ev_a : proven; ev_b : proven }.

Record validatorVotes := mkVotes { vv_notarize : proven; vv_skip : proven; vv_finalize : proven }.

#[export] Instance validatorVotes_eq_dec : EqDecision validatorVotes.
Proof. solve_decision. Defined.

#[export] Instance eta_validatorVotes : Eta validatorVotes :=
  fun v => mkVotes (vv_notarize v) (vv_skip v) (vv_finalize v).

Definition emptyVotes : validatorVotes := mkVotes zeroProven zeroProven zeroProven.

(** [byKind] returns a pointer; reading and assigning through it. *)
Definition byKind (vv : validatorVotes) (k : VoteKind) : option proven :=
  match k with
  | VoteNotarize => Some (vv_notarize vv)
  | VoteFinalize => Some (vv_finalize vv)
  | VoteSkip => Some (vv_skip vv)
  | VoteKindOther _ => None
  end.

Definition set_byKind (k : VoteKind) (p : proven) (vv : validatorVotes) : validatorVotes :=
  match k with
  | VoteNotarize => vv <| vv_notarize := p |>
  | VoteFinalize => vv <| vv_finalize := p |>
  | VoteSkip => vv <| vv_skip := p |>
  | VoteKindOther _ => vv
  end.

Definition wants (vv : validatorVotes) (v : Vote) : option bool :=
  p ← byKind vv (v_Kind v); Some (negb (pv_set p)).

Definition checkInvariants (vv : validatorVotes) : option conflictEvidence :=
  if pv_set (vv_notarize vv) && pv_set (vv_finalize vv)
     && negb (bool_decide (v_ID (pv_vote (vv_notarize vv)) = v_ID (pv_vote (vv_finalize vv))))
  then Some (mkEvidence (vv_notarize vv) (vv_finalize vv))
  else if pv_set (vv_finalize vv) && pv_set (vv_skip vv)
  then Some (mkEvidence (vv_finalize vv) (vv_skip vv))
  else None.

(** [add]: whether the vote was applied, the conflict evidence, the record after. *)
Definition vv_add (vv : validatorVotes) (p : proven)
  : option (bool * option conflictEvidence * validatorVotes) :=
  let k := v_Kind (pv_vote p) in
  slot ← byKind vv k;
  if pv_set slot then
    if (bool_decide (k = VoteNotarize) || bool_decide (k = VoteFinalize))
       && negb (bool_decide (pv_vote slot = pv_vote p))
    then Some (false, Some (mkEvidence p slot), vv)
    else Some (false, None, vv)
  else
    let vv' := set_byKind k p vv in
    match checkInvariants vv' with
    | Some c => Some (false, Some c, set_byKind k zeroProven vv')
    | None => Some (true, None, vv')
    end.

Section Evidence.
Context `{TLRuntime}.

Definition proofBytes (p : proven) (idx : Z) : option bytes :=
  match pv_cert p with
  | Some c => Certificate_Serialize c
  | None => SignedVote_Serialize (mkSignedVote idx (pv_vote p) (pv_sig p))
  end.

Definition conflict_misbehavior (c : conflictEvidence) (idx : Z) : option Misbehavior :=
  p1 ← proofBytes (ev_a c) idx; p2 ← proofBytes (ev_b c) idx;
  Some (mkMisbehavior MisbehaviorConflictingVotes p1 p2).
End Evidence.

(** ** Slots of the pool *)

Record poolSlot := mkPoolSlot {
  ps_votes : list validatorVotes;
  ps_notarCert : option Certificate;
  ps_skipCert : option Certificate;
  ps_finalCert : option Certificate;
  ps_notarSaving : bool;
  ps_skipSaving : bool;
  ps_finalSaving : bool;
  ps_skipWeight : Z;
  ps_notarizeWeight : gmap CandidateID Z;
  ps_finalizeWeight : gmap CandidateID Z;
  ps_availableBase : option ParentID }.

#[export] Instance eta_poolSlot : Eta poolSlot := fun s =>
  mkPoolSlot (ps_votes s) (ps_notarCert s) (ps_skipCert s) (ps_finalCert s) (ps_notarSaving s)
    (ps_skipSaving s) (ps_finalSaving s) (ps_skipWeight s) (ps_notarizeWeight s) (ps_finalizeWeight s)
    (ps_availableBase s).

Definition newPoolSlot (validators : nat) : poolSlot :=
  mkPoolSlot (replicate validators emptyVotes) None None None false false false 0 ∅ ∅ None.

Definition certByKind (s : poolSlot) (k : VoteKind) : option (option Certificate * bool) :=
  match k with
  | VoteNotarize => Some (ps_notarCert s, ps_notarSaving s)
  | VoteFinalize => Some (ps_finalCert s, ps_finalSaving s)
  | VoteSkip => Some (ps_skipCert s, ps_skipSaving s)
  | VoteKindOther _ => None
  end.

(** Assignments through the two pointers of [certByKind]. *)
Definition set_cert (k : VoteKind) (c : option Certificate) (s : poolSlot) : poolSlot :=
  match k with
  | VoteNotarize => s <| ps_notarCert := c |>
  | VoteFinalize => s <| ps_finalCert := c |>
  | VoteSkip => s <| ps_skipCert := c |>
  | VoteKindOther _ => s
  end.
Definition set_saving (k : VoteKind) (b : bool) (s : poolSlot) : poolSlot :=
  match k with
  | VoteNotarize => s <| ps_notarSaving := b |>
  | VoteFinalize => s <| ps_finalSaving := b |>
  | VoteSkip => s <| ps_skipSaving := b |>
  | VoteKindOther _ => s
  end.

Definition needs (s : poolSlot) (v : Vote) : option bool :=
  p ← certByKind s (v_Kind v); Some (bool_decide (p.1 = None) && negb p.2).

Definition willBe (s : poolSlot) (k : VoteKind) : option bool :=
  p ← certByKind s k; Some (negb (bool_decide (p.1 = None)) || p.2).

Definition notarizedBlock (s : poolSlot) : option CandidateID :=
  match ps_notarCert s with
  | Some c => Some (v_ID (cert_Vote c))
  | None => match ps_finalCert s with Some c => Some (v_ID (cert_Vote c)) | None => None end
  end.

Definition addAvailableBase (p : ParentID) (s : poolSlot) : poolSlot :=
  match ps_availableBase s with
  | None => s <| ps_availableBase := Some p |>
  | Some b => if 0 <=? ParentID_Compare p b then s <| ps_availableBase := Some p |> else s
  end.

(** ** The conflict rules *)

(** Two votes of one validator for one slot that the protocol forbids. *)
Definition conflicting (a b : Vote) : Prop :=
  Vote_Slot a = Vote_Slot b /\
  match v_Kind a, v_Kind b with
  | VoteNotarize, VoteNotarize | VoteFinalize, VoteFinalize
  | VoteNotarize, VoteFinalize | VoteFinalize, VoteNotarize => v_ID a <> v_ID b
  | VoteFinalize, VoteSkip | VoteSkip, VoteFinalize => True
  | _, _ => False
  end.

Lemma conflicting_sym a b : conflicting a b -> conflicting b a.
Proof.
  unfold conflicting. intros [-> Hc]. split; [done|]. destruct (v_Kind a), (v_Kind b); auto.
Qed.

(** The records kept for a validator: each holds a vote of its kind and of this
    slot or is the zero record, and no two of them conflict. *)
Definition record_ok (slot : Z) (k : VoteKind) (p : proven) : Prop :=
  if pv_set p then v_Kind (pv_vote p) = k /\ Vote_Slot (pv_vote p) = slot else p = zeroProven.

Record vv_ok (slot : Z) (vv : validatorVotes) : Prop := {
  vo_notarize : record_ok slot VoteNotarize (vv_notarize vv);
  vo_finalize : record_ok slot VoteFinalize (vv_finalize vv);
  vo_skip : record_ok slot VoteSkip (vv_skip vv);
  vo_free : checkInvariants vv = None }.

(** [p] is one of the stored votes. *)
Definition stored (vv : validatorVotes) (p : proven) : Prop :=
  pv_set p = true /\ (p = vv_notarize vv \/ p = vv_finalize vv \/ p = vv_skip vv).

Lemma emptyVotes_ok slot : vv_ok slot emptyVotes.
Proof. by constructor. Qed.

Lemma checkInvariants_none vv :
  checkInvariants vv = None <->
  (pv_set (vv_notarize vv) = true -> pv_set (vv_finalize vv) = true ->
   v_ID (pv_vote (vv_notarize vv)) = v_ID (pv_vote (vv_finalize vv))) /\
  (pv_set (vv_finalize vv) = true -> pv_set (vv_skip vv) = false).
Proof.
  unfold checkInvariants. destruct (pv_set (vv_notarize vv)), (pv_set (vv_finalize vv)), (pv_set (vv_skip vv));
    simpl; try case_bool_decide; simpl; split; intros; simplify_eq; try done; naive_solver.
Qed.

(** What [add] did, by its two results. *)
Inductive add_outcome (vv : validatorVotes) (p : proven)
  : bool -> option conflictEvidence -> validatorVotes -> Prop :=
| add_applied :
    (forall q, stored vv q -> v_Kind (pv_vote q) <> v_Kind (pv_vote p) /\
                              ~ conflicting (pv_vote q) (pv_vote p)) ->
    add_outcome vv p true None (set_byKind (v_Kind (pv_vote p)) p vv)
| add_known q :
    stored vv q -> v_Kind (pv_vote q) = v_Kind (pv_vote p) ->
    ~ conflicting (pv_vote q) (pv_vote p) -> add_outcome vv p false None vv
| add_conflict q c :
    stored vv q -> conflicting (pv_vote q) (pv_vote p) ->
    c = mkEvidence p q \/ c = mkEvidence q p -> add_outcome vv p false (Some c) vv.

Ltac stored_cases :=
  match goal with H : stored _ _ |- _ => destruct H as [? [->|[->| ->]]]; simpl in *; try congruence end.

Lemma vote_eq_by_id (a b : Vote) : v_Kind a = v_Kind b -> v_ID a = v_ID b -> a = b.
Proof. destruct a, b. simpl. congruence. Qed.

(** The kind is already recorded. *)
Lemma vv_add_set slot vv p q :
  vv_ok slot vv -> byKind vv (v_Kind (pv_vote p)) = Some q -> pv_set q = true ->
  Vote_Slot (pv_vote p) = slot ->
  exists r, vv_add vv p = Some r /\ r.2 = vv /\ add_outcome vv p r.1.1 r.1.2 r.2.
Proof.
  intros [Hn Hf Hsk _] Hq Hset Hs. unfold vv_add. rewrite Hq. cbn [mbind option_bind]. rewrite Hset.
  assert (stored vv q /\ v_Kind (pv_vote q) = v_Kind (pv_vote p) /\ Vote_Slot (pv_vote q) = slot) as (Hst & Hk & Hsl).
  { unfold record_ok in *. unfold stored. destruct (v_Kind (pv_vote p)); simplify_eq/=; rewrite Hset in *; naive_solver. }
  destruct (decide (pv_vote q = pv_vote p)) as [E|N].
  - rewrite (bool_decide_true (pv_vote q = pv_vote p)) by done. cbn [negb]. rewrite andb_false_r.
    eexists. split; [done|]. split; [done|]. apply add_known with q; try done.
    rewrite E. unfold conflicting. intros [_ Hc]. destruct (v_Kind (pv_vote p)); naive_solver.
  - rewrite (bool_decide_false (pv_vote q = pv_vote p)) by done. cbn [negb]. rewrite andb_true_r.
    destruct (bool_decide (v_Kind (pv_vote p) = VoteNotarize) || _) eqn:Eb; eexists; (split; [done|]); (split; [done|]).
    + apply add_conflict with q; auto. split; [congruence|]. rewrite Hk.
      assert (v_ID (pv_vote q) <> v_ID (pv_vote p)) by (intros E; apply N; by apply vote_eq_by_id).
      apply orb_true_iff in Eb as [->%bool_decide_eq_true| ->%bool_decide_eq_true]; done.
    + apply add_known with q; auto. unfold conflicting. rewrite Hk.
      apply orb_false_iff in Eb as [?%bool_decide_eq_false ?%bool_decide_eq_false].
      intros [_ Hc]. by destruct (v_Kind (pv_vote p)).
Qed.

(** The kind is new: the invariant check decides. *)
Lemma vv_add_unset slot vv p q :
  vv_ok slot vv -> byKind vv (v_Kind (pv_vote p)) = Some q -> pv_set q = false -> pv_set p = true ->
  Vote_Slot (pv_vote p) = slot ->
  exists r, vv_add vv p = Some r /\ vv_ok slot r.2 /\ add_outcome vv p r.1.1 r.1.2 r.2.
Proof.
  intros Hok Hq Hset Hp Hs. pose proof Hok as [Hn Hf Hsk Hfree]. apply checkInvariants_none in Hfree as [F1 F2].
  unfold vv_add. rewrite Hq. cbn [mbind option_bind]. rewrite Hset.
  assert (set_byKind (v_Kind (pv_vote p)) zeroProven (set_byKind (v_Kind (pv_vote p)) p vv) = vv) as Hback.
  { destruct vv as [n s f]. unfold record_ok in *. destruct (v_Kind (pv_vote p)); simplify_eq/=;
      rewrite Hset in *; by subst. }
  destruct (checkInvariants (set_byKind (v_Kind (pv_vote p)) p vv)) as [c|] eqn:Ec.
  - eexists. split; [done|]. cbn [fst snd]. rewrite Hback. split; [done|].
    unfold checkInvariants in Ec. unfold record_ok in *. destruct vv as [n s f].
    destruct (v_Kind (pv_vote p)) eqn:Ek; simplify_eq/=; rewrite ?Hset, ?Hp in *; cbn [andb] in Ec.
    + destruct (pv_set f) eqn:Ef; cbn [andb] in Ec; [|done].
      case_bool_decide as Ei; cbn [negb] in Ec; [by rewrite F2 in Ec|]. injection Ec as <-.
      apply add_conflict with f; [by split; auto|split; [naive_solver|]|auto].
      destruct Hf as [-> _]. rewrite Ek. naive_solver.
    + destruct (pv_set n) eqn:En; cbn [andb] in Ec.
      * case_bool_decide as Ei; cbn [negb] in Ec.
        { destruct (pv_set s) eqn:Es; [|done]. injection Ec as <-.
          apply add_conflict with s; [by split; auto|split; [naive_solver|]|auto]. destruct Hsk as [-> _]. by rewrite Ek. }
        injection Ec as <-. apply add_conflict with n; [by split; auto|split; [naive_solver|]|auto].
        destruct Hn as [-> _]. by rewrite Ek.
      * destruct (pv_set s) eqn:Es; [|done]. injection Ec as <-.
        apply add_conflict with s; [by split; auto|split; [naive_solver|]|auto]. destruct Hsk as [-> _]. by rewrite Ek.
    + destruct (pv_set n && pv_set f && negb (bool_decide (v_ID (pv_vote n) = v_ID (pv_vote f)))) eqn:Enf.
      { apply andb_true_iff in Enf as [[? ?]%andb_true_iff Hne%negb_true_iff%bool_decide_eq_false].
        exfalso. auto. }
      destruct (pv_set f) eqn:Ef; [|done]. injection Ec as <-.
      apply add_conflict with f; [by split; auto|split; [naive_solver|]|auto]. destruct Hf as [-> _]. by rewrite Ek.
  - eexists. split; [done|]. cbn [fst snd]. pose proof Ec as Hnone. apply checkInvariants_none in Ec as [G1 G2].
    unfold record_ok in *. destruct vv as [n s f]. split.
    + destruct (v_Kind (pv_vote p)) eqn:Ek; simplify_eq/=; constructor; simpl; unfold record_ok; rewrite ?Hp; auto.
    + apply add_applied. intros r [Hr Hcase].
      destruct (v_Kind (pv_vote p)) eqn:Ek; simplify_eq/=; destruct Hcase as [-> | [-> | ->]];
        rewrite ?Hr, ?Hp, ?Hset in *; try congruence; unfold conflicting; simpl in *;
        repeat match goal with H : _ /\ _ |- _ => destruct H end;
        repeat match goal with H : v_Kind _ = _ |- _ => rewrite H end; split; try done; naive_solver.
Qed.

Lemma vv_add_cases slot vv p :
  vv_ok slot vv -> pv_set p = true -> valid_kind (v_Kind (pv_vote p)) -> Vote_Slot (pv_vote p) = slot ->
  exists r, vv_add vv p = Some r /\ vv_ok slot r.2 /\ add_outcome vv p r.1.1 r.1.2 r.2.
Proof.
  intros Hok Hp Hk Hs.
  assert (exists q, byKind vv (v_Kind (pv_vote p)) = Some q) as [q Hq] by (destruct (v_Kind (pv_vote p)); simpl; eauto; done).
  destruct (pv_set q) eqn:Hset; [|by eapply vv_add_unset].
  destruct (vv_add_set slot vv p q Hok Hq Hset Hs) as (r & Er & E2 & Ho). exists r. rewrite E2 in *. auto.
Qed.

Lemma vv_ok_conflict_free slot vv p q :
  vv_ok slot vv -> stored vv p -> stored vv q -> ~ conflicting (pv_vote p) (pv_vote q).
Proof.
  intros [Hn Hf Hs Hfree] [Hp Cp] [Hq Cq] [_ Hc]. apply checkInvariants_none in Hfree as [F1 F2].
  unfold record_ok in *.
  destruct Cp as [-> | [-> | ->]], Cq as [-> | [-> | ->]]; rewrite Hp in *; rewrite ?Hq in *;
    repeat match goal with H : _ /\ _ |- _ => destruct H as [? _] end;
    repeat match goal with H : v_Kind _ = _ |- _ => rewrite H in Hc; clear H end; naive_solver.
Qed.

(** C30: the voting record of a validator enforces the Simplex conflict rules.  On
    a consistent record [add] never panics and keeps it consistent; it applies a
    vote exactly when the kind is new and nothing stored conflicts with it; it
    reports two records that really conflict, one of them the new vote, exactly
    when something stored conflicts, and then leaves the record as it was; and
    no two stored votes ever conflict. *)
Theorem validatorVotes_add_correct slot vv p :
  vv_ok slot vv -> pv_set p = true -> valid_kind (v_Kind (pv_vote p)) -> Vote_Slot (pv_vote p) = slot ->
  exists r, vv_add vv p = Some r /\ vv_ok slot r.2 /\ add_outcome vv p r.1.1 r.1.2 r.2 /\
    forall a b, stored r.2 a -> stored r.2 b -> ~ conflicting (pv_vote a) (pv_vote b).
Proof.
  intros Hok Hp Hk Hs. destruct (vv_add_cases slot vv p Hok Hp Hk Hs) as (r & Er & Hr & Ho).
  exists r. split_and!; auto. intros a b. by apply vv_ok_conflict_free with slot.
Qed.

Lemma validatorVotes_add_correct_witness :
  let p := direct_vote (NotarizeVote example_id) [1] in
  exists r, vv_add emptyVotes p = Some r /\ vv_ok 5 r.2 /\ add_outcome emptyVotes p r.1.1 r.1.2 r.2 /\
    forall a b, stored r.2 a -> stored r.2 b -> ~ conflicting (pv_vote a) (pv_vote b).
Proof. apply (validatorVotes_add_correct 5); [apply emptyVotes_ok|done|done|done]. Defined.
