(* ===== verification/Float64.v ===== *)
(** * Binary64 arithmetic and durations (Go [float64], [time.Duration])

    The IEEE operations are those of [SpecFloat] at precision 53 and maximal
    exponent 1024; durations are [int64] nanoseconds. *)

From S2P Require Import Prelude.
From S2P Require Import SimplexTypes.
From Stdlib Require Import SpecFloat.

#[local] Open Scope Z_scope.
#[local] Open Scope go_scope.

(** [float64(x)] of an integer: round to nearest even. *)
Definition f64_of_Z (x : Z) : f64 := binary_normalize 53 1024 x 0 false.
Definition f64_mul : f64 -> f64 -> f64 := SFmul 53 1024.
Definition f64_div : f64 -> f64 -> f64 := SFdiv 53 1024.
Definition f64_add : f64 -> f64 -> f64 := SFadd 53 1024.
Definition f64_sub : f64 -> f64 -> f64 := SFsub 53 1024.
Definition f64_ltb : f64 -> f64 -> bool := SFltb.
Definition f64_leb : f64 -> f64 -> bool := SFleb.

(** Conversion to an integer truncates toward zero.  On a value outside the
    target range, an infinity or a NaN the result is implementation defined in
    Go; here it is 0 for the latter two. *)
Definition f64_trunc (x : f64) : Z :=
  match x with
  | S754_finite s m e =>
      let n := if 0 <=? e then Zpos m * 2 ^ e else Zpos m / 2 ^ (- e) in
      if s then - n else n
  | _ => 0
  end.

(** [d.Seconds()]: whole seconds plus the fraction, as the library computes it. *)
Definition Duration_Seconds (d : Z) : f64 :=
  f64_add (f64_of_Z (Z.quot d Second)) (f64_div (f64_of_Z (Z.rem d Second)) (f64_of_Z Second)).

(** [float64(d) * m] capped at [cap], the scaling of the first-block timeout. *)
Definition scale_duration (d : Z) (m : f64) (cap : Z) : Z :=
  let scaled := f64_mul (f64_of_Z d) m in
  if f64_leb (f64_of_Z cap) scaled then cap else i64 (f64_trunc scaled).

Example scale_one_second : scale_duration Second f64_1_2 (100 * Second) = 1200000000.
Proof. vm_compute. reflexivity. Qed.
Example scale_capped : scale_duration (99 * Second) f64_1_2 (100 * Second) = 100 * Second.
Proof. vm_compute. reflexivity. Qed.
Example seconds_quarter : f64_mul (Duration_Seconds 1250000000) (f64_of_Z 4) = f64_of_Z 5.
Proof. vm_compute. reflexivity. Qed.
