(* ===== verification/SimplexState.v ===== *)
(** * The state of the Simplex engine ([Engine] of
      [src/service/validator/simplex/engine.go], [voterState] of [voter.go])

    The engine is a single-threaded state machine: a handler is a [Go Engine]
    computation.  What it hands to the injected services is recorded, newest
    first, in [e_log]; a journal write or a candidate service call leaves an
    entry in [e_callbacks] until its completion re-enters the loop, as it does
    under [Runner], which sets [post].  Deferred notifications ([enqueue] of a
    closure) are the constructors of [Task].

    A pointer [*poolSlot] or [*voterSlot] is the slot's number: [None] is nil and
    a dereference reads the slot map.  No handler touches a slot through a
    pointer after pruning it. *)

From S2P Require Import Prelude.
From S2P Require Import SimplexTypes.
From S2P Require Import SimplexSlots.
From S2P Require Import SimplexWire.
From S2P Require Import SimplexFanOut.
From S2P Require Import SimplexCert.
From S2P Require Import SimplexCandidate.
From S2P Require Import SimplexPool.
From S2P Require Import Float64.

#[local] Open Scope Z_scope.
#[local] Open Scope go_scope.

(** ** Injected services

    [clock.Now()] and [signer.Sign] may answer differently on every call: they
    are indexed by the number of calls made so far.  A refused signature is
    [None]. *)

Class Environment := {
  env_Now : nat -> Z;
  env_Sign : nat -> bytes -> option bytes }.

(** ** Errors, completions and deferred work *)

Inductive fatal_error :=
| FatalOwnConflict (v : Vote)
| FatalCertificateJournal
| FatalDuplicateCertificate (k : VoteKind) (slot : Z)
| FatalSkipRuns
| FatalFinalizedSkipped (slot : Z)
| FatalFinalizedOther (slot : Z)
| FatalPresentBelowHorizon
| FatalNoAvailableBase (slot : Z)
| FatalPoolStateJournal
| FatalVoteJournal (v : Vote)
| FatalSigning (v : Vote)
| FatalCandidateStore (id : CandidateID).

(** What a journal write reports to its completion. *)
Inductive save_result := Saved | AlreadySaved | SaveFailed.

(** A validation verdict: nil, a [CandidateRejection], any other error. *)
Inductive verdict := VerdictAccept | VerdictReject | VerdictAbstain.

Inductive wait_error := ErrSlotFinalized | ErrWaitInternal.
Record parentWaitOutcome := mkOutcome { pw_misb : option Misbehavior; pw_err : option wait_error }.

Inductive Hook :=
| ValidateCandidate (c : Candidate)
| StoreCandidate (c : Candidate)
| HandleWindow (w : Window)
| OnNotarized (id : CandidateID) (cert : VerifiedCertificate)
| OnFinalized (id : CandidateID) (cert : VerifiedCertificate)
| OnMisbehavior (idx : Z) (m : Misbehavior)
| OnFatal (err : fatal_error).

Inductive Task :=
| CallHook (h : Hook)
| NotarizationObserved (id : CandidateID)
| FinalizationObserved (id : CandidateID)
| ParentWaitDone (c : Candidate) (out : parentWaitOutcome).

(** The continuations handed to asynchronous services. *)
Inductive Callback :=
| VoteSaved (v : Vote)
| CertificateSaved (vc : VerifiedCertificate)
| WindowSaved (w : Z)
| StoreDone (id : CandidateID)
| ValidationDone (id : CandidateID).

(** What an asynchronous service answers. *)
Inductive completion :=
| JournalCompletion (r : save_result)
| StoreCompletion (ok : bool)
| ValidationCompletion (vd : verdict).

Inductive TraceEvent :=
| TraceSessionStarted (workchain shard ccSeqno localIndex total weight totalWeight spw : Z)
| TraceVoted (v : Vote)
| TraceCertObserved (v : Vote)
| TraceCandidateReceived (id : CandidateID) (parent : ParentID) (block : option BlockIDExt).

(** Calls out of the engine, and the completions it was given, in order. *)
Inductive Effect :=
| SaveOurVote (v : Vote)
| SaveCertificate (c : Certificate)
| SaveFirstNonAnnouncedWindow (w : Z)
| Signed (v : Vote) (sig : bytes)
| BroadcastToAll (msg : bytes)
| BroadcastToRandom (count : Z) (msg : bytes)
| BroadcastToValidators (msg : bytes)
| Trace (at_ : Z) (ev : TraceEvent)
| Hooked (h : Hook)
| Completed (cb : Callback) (c : completion).

(** ** State *)

Record Config := mkConfig {
  g_certs : CertificateVerifier;
  g_totalWeight : Z;
  g_localIndex : Z;
  g_spw : Z;
  g_shardPfxLen : Z;
  g_maxCertWire : Z;
  g_schedule : Z -> Z;
  g_tracer : bool;
  g_workchain : Z;
  g_shard : Z;
  g_ccSeqno : Z }.

Definition ObserverIndex : Z := -1.

Record Pool := mkPool {
  pl_slots : slotMap poolSlot;
  pl_now : Z;
  pl_firstNonAnnouncedWindow : Z;
  pl_lastFinalized : ParentID;
  pl_lastFinalCert : option Certificate;
  pl_skipRuns : list Z;
  pl_parentWaits : list Candidate }.
#[export] Instance eta_Pool : Eta Pool := fun p =>
  mkPool (pl_slots p) (pl_now p) (pl_firstNonAnnouncedWindow p) (pl_lastFinalized p)
    (pl_lastFinalCert p) (pl_skipRuns p) (pl_parentWaits p).

Record voterSlot := mkVoterSlot {
  vs_pending : option Candidate;
  vs_votedNotar : option CandidateID;
  vs_notarCert : option CandidateID;
  vs_votedSkip : bool;
  vs_votedFinal : bool;
  vs_storeInFlight : bool;
  vs_stored : bool;
  vs_validationInFlight : bool;
  vs_validated : bool }.
#[export] Instance eta_voterSlot : Eta voterSlot := fun s =>
  mkVoterSlot (vs_pending s) (vs_votedNotar s) (vs_notarCert s) (vs_votedSkip s) (vs_votedFinal s)
    (vs_storeInFlight s) (vs_stored s) (vs_validationInFlight s) (vs_validated s).
Definition newVoterSlot : voterSlot := mkVoterSlot None None None false false false false false false.

(** Instants are nanoseconds since the zero [time.Time]. *)
Record voterState := mkVoterState {
  vt_slots : slotMap voterSlot;
  vt_timeoutBase : Z;
  vt_timeoutSlot : Z;
  vt_alarmAt : Z;
  vt_alarmArmed : bool;
  vt_firstBlockTimeout : Z;
  vt_previousWindowHadSkip : bool;
  vt_currentWindow : Z }.
#[export] Instance eta_voterState : Eta voterState := fun v =>
  mkVoterState (vt_slots v) (vt_timeoutBase v) (vt_timeoutSlot v) (vt_alarmAt v) (vt_alarmArmed v)
    (vt_firstBlockTimeout v) (vt_previousWindowHadSkip v) (vt_currentWindow v).
Definition newVoterState (firstBlockTimeout : Z) : voterState :=
  mkVoterState newSlotMap 0 0 0 false firstBlockTimeout false 0.

Record drainState := mkDrain {
  dr_msgs : list bytes; dr_idx : nat; dr_quota : f64; dr_quotaTime : Z; dr_nextAt : Z;
  dr_finalCertAtStart : option Certificate }.
#[export] Instance eta_drainState : Eta drainState := fun d =>
  mkDrain (dr_msgs d) (dr_idx d) (dr_quota d) (dr_quotaTime d) (dr_nextAt d) (dr_finalCertAtStart d).

Record pendingVote := mkPendingVote {
  pn_src : bytes; pn_idx : Z; pn_vote : Vote; pn_sig : bytes; pn_payload : bytes; pn_ok : bool }.
#[export] Instance eta_pendingVote : Eta pendingVote := fun p =>
  mkPendingVote (pn_src p) (pn_idx p) (pn_vote p) (pn_sig p) (pn_payload p) (pn_ok p).

Record ownCandidateTiming := mkTiming { oc_acceptedAt : Z; oc_firstVoteAt : Z; oc_firstVoter : Z }.

Record Stats := mkStats {
  st_VotesApplied : Z; st_OwnVotesCast : Z; st_MessagesDropped : Z; st_CertificatesBuilt : Z;
  st_CertificatesStored : Z; st_CandidatesAccepted : Z; st_CandidatesRejected : Z;
  st_CandidatesAbstained : Z; st_SlotsFinalized : Z; st_Misbehaviors : Z; st_Bans : Z;
  st_Standstills : Z; st_CertificatesByKind : list Z; st_SignaturesByKind : list Z;
  st_Slot : Z; st_FinalizedSlot : Z; st_HasFinalized : bool; st_LastFinalizedAt : Z;
  st_FirstBlockTimeout : Z; st_LastSignedSlot : list Z }.
#[export] Instance eta_Stats : Eta Stats := fun s =>
  mkStats (st_VotesApplied s) (st_OwnVotesCast s) (st_MessagesDropped s) (st_CertificatesBuilt s)
    (st_CertificatesStored s) (st_CandidatesAccepted s) (st_CandidatesRejected s)
    (st_CandidatesAbstained s) (st_SlotsFinalized s) (st_Misbehaviors s) (st_Bans s)
    (st_Standstills s) (st_CertificatesByKind s) (st_SignaturesByKind s) (st_Slot s)
    (st_FinalizedSlot s) (st_HasFinalized s) (st_LastFinalizedAt s) (st_FirstBlockTimeout s)
    (st_LastSignedSlot s).
Definition zeroStats : Stats :=
  mkStats 0 0 0 0 0 0 0 0 0 0 0 0 (replicate 4 0) (replicate 4 0) 0 0 false 0 0 [].

Record Engine := mkEngine {
  e_cfg : Config;
  e_params : Params;
  e_bootstrap : ValidatedBootstrap;
  e_started : bool;
  e_stopped : bool;
  e_fatalErr : option fatal_error;
  e_pool : Pool;
  e_voter : option voterState;
  e_suppressCertBroadcast : bool;
  e_seenBroadcasts : gmap Z bytes;
  e_bans : gmap bytes Z;
  e_standstillAt : Z;
  e_drain : option drainState;
  e_payloadCache : gmap Z (Vote * bytes);
  e_pending : list Task;
  e_draining : bool;
  e_pendingVerify : list pendingVote;
  e_ownCandidates : gmap CandidateID ownCandidateTiming;
  e_stats : Stats;
  e_calls : nat;
  e_callbacks : list Callback;
  e_log : list Effect }.
#[export] Instance eta_Engine : Eta Engine := fun e =>
  mkEngine (e_cfg e) (e_params e) (e_bootstrap e) (e_started e) (e_stopped e) (e_fatalErr e) (e_pool e)
    (e_voter e) (e_suppressCertBroadcast e) (e_seenBroadcasts e) (e_bans e) (e_standstillAt e) (e_drain e)
    (e_payloadCache e) (e_pending e) (e_draining e) (e_pendingVerify e) (e_ownCandidates e) (e_stats e)
    (e_calls e) (e_callbacks e) (e_log e).
