(* ===== verification/SimplexEngine.v ===== *)
(** * The Simplex engine ([src/service/validator/simplex/engine.go], [pool.go],
      [voter.go], [own_candidate_timing.go])

    One definition per method, in the state monad of [SimplexState]; [None] is a
    panic.  Log output is left out; everything else the methods do to the engine
    and to the injected services is here. *)

From S2P Require Import Prelude.
From S2P Require Import SimplexTypes.
From S2P Require Import SimplexSlots.
From S2P Require Import SimplexWire.
From S2P Require Import SimplexFanOut.
From S2P Require Import SimplexCert.
From S2P Require Import SimplexCandidate.
From S2P Require Import SimplexPool.
From S2P Require Import Float64.
From S2P Require Import SimplexState.

#[local] Open Scope Z_scope.
#[local] Open Scope go_scope.

Abbreviation M := (Go Engine).

Section Engine.
Context `{TLRuntime} `{Ed25519} `{Machine} `{Environment}.

(** ** Access to the state *)

Definition modify_pool (f : Pool -> Pool) : M unit := modify (fun e => e <| e_pool := f (e_pool e) |>).
Definition modify_stats (f : Stats -> Stats) : M unit := modify (fun e => e <| e_stats := f (e_stats e) |>).
Definition emit (ev : Effect) : M unit := modify (fun e => e <| e_log := ev :: e_log e |>).
Definition register (cb : Callback) : M unit :=
  modify (fun e => e <| e_callbacks := e_callbacks e ++ [cb] |>).

(** [clock.Now()] and [signer.Sign(payload)]. *)
Definition clock_Now : M Z := fun e =>
  Some (env_Now (e_calls e), e <| e_calls := S (e_calls e) |>).
Definition signer_Sign (payload : bytes) : M (option bytes) := fun e =>
  Some (env_Sign (e_calls e) payload, e <| e_calls := S (e_calls e) |>).

Definition cfg {A} (f : Config -> A) : M A := gets (fun e => f (e_cfg e)).
Definition pool {A} (f : Pool -> A) : M A := gets (fun e => f (e_pool e)).
Definition param {A} (f : Params -> A) : M A := gets (fun e => f (e_params e)).

Definition sessionID (g : Config) : bytes := cb_sessionID (cv_binding (g_certs g)).
Definition validators (g : Config) : list Validator := cv_validators (g_certs g).
Definition threshold (g : Config) : Z := cv_threshold (g_certs g).
Definition binding (g : Config) : CertificateBinding := cv_binding (g_certs g).
Definition nValidators (g : Config) : nat := length (validators g).

(** The pool's slot map: [e.slots.at], a dereference, an assignment. *)
Definition slots_at (i : Z) : M (option Z) := fun e =>
  let r := sm_at (newPoolSlot (nValidators (e_cfg e))) i (pl_slots (e_pool e)) in
  Some (match r.1 with Some _ => Some i | None => None end,
        e <| e_pool := e_pool e <| pl_slots := r.2 |> |>).
Definition load (p : option Z) : M poolSlot :=
  i <- deref p ;; m <- pool pl_slots ;; deref (slots m !! i).
Definition store (p : option Z) (f : poolSlot -> poolSlot) : M unit :=
  i <- deref p ;; _ <- load p ;;
  modify_pool (fun pl => pl <| pl_slots := sm_alter f i (pl_slots pl) |>).
Definition firstNonFin : M Z := pool (fun pl => firstNonFinalized (pl_slots pl)).

(** The voter: [e.voter] is nil on observers. *)
Definition voter : M voterState := v <- gets e_voter ;; deref v.
Definition modify_voter (f : voterState -> voterState) : M unit :=
  v <- voter ;; modify (fun e => e <| e_voter := Some (f v) |>).
Definition vslots_at (i : Z) : M (option Z) :=
  v <- voter ;;
  let r := sm_at newVoterSlot i (vt_slots v) in
  modify_voter (fun v => v <| vt_slots := r.2 |>) ;;;
  ret (match r.1 with Some _ => Some i | None => None end).
Definition vload (p : option Z) : M voterSlot :=
  i <- deref p ;; v <- voter ;; deref (slots (vt_slots v) !! i).
Definition vstore (p : option Z) (f : voterSlot -> voterSlot) : M unit :=
  i <- deref p ;; _ <- vload p ;;
  modify_voter (fun v => v <| vt_slots := sm_alter f i (vt_slots v) |>).

(** ** Control *)

Definition failed (e : Engine) : bool :=
  negb (bool_decide (e_fatalErr e = None)) || e_stopped e.

Definition enqueue (t : Task) : M unit := modify (fun e => e <| e_pending := e_pending e ++ [t] |>).

Definition fatal (err : fatal_error) : M unit :=
  f <- gets failed ;;
  if f then ret tt else
  modify (fun e => e <| e_fatalErr := Some err |>) ;;;
  modify (fun e => e <| e_pending := [] |>) ;;;
  modify (fun e => e <| e_drain := None |>) ;;;
  enqueue (CallHook (OnFatal err)).

Definition trace (ev : TraceEvent) : M unit :=
  t <- cfg g_tracer ;;
  if t then at_ <- clock_Now ;; emit (Trace at_ ev) else ret tt.

Definition localWeight (g : Config) : option Z :=
  if g_localIndex g <? 0 then Some 0
  else val_Weight <$> validators g !! Z.to_nat (g_localIndex g).

Definition reportMisbehavior (idx : Z) (m : Misbehavior) : M unit :=
  modify_stats (fun s => s <| st_Misbehaviors := st_Misbehaviors s +₆₄ 1 |>) ;;;
  enqueue (CallHook (OnMisbehavior idx m)).

(** The memo is indexed by [v.Kind % 4]. *)
Definition kind_index (k : VoteKind) : Z :=
  match k with VoteNotarize => 1 | VoteFinalize => 2 | VoteSkip => 3 | VoteKindOther k => k end.

Definition votePayload (v : Vote) : M bytes :=
  cache <- gets e_payloadCache ;;
  let i := kind_index (v_Kind v) mod 4 in
  match cache !! i with
  | Some (v', payload) =>
      if bool_decide (v' = v) then ret payload else
      g <- gets e_cfg ;;
      payload <- deref (vote_payload (sessionID g) v) ;;
      modify (fun e => e <| e_payloadCache := <[i := (v, payload)]> (e_payloadCache e) |>) ;;;
      ret payload
  | None =>
      g <- gets e_cfg ;;
      payload <- deref (vote_payload (sessionID g) v) ;;
      modify (fun e => e <| e_payloadCache := <[i := (v, payload)]> (e_payloadCache e) |>) ;;;
      ret payload
  end.

(** ** Bans *)

Definition ban (peer : bytes) : M unit :=
  modify_stats (fun s => s <| st_Bans := st_Bans s +₆₄ 1 |>) ;;;
  now <- clock_Now ;; d <- param p_BadSignatureBanDuration ;;
  modify (fun e => e <| e_bans := <[peer := now + d]> (e_bans e) |>).

Definition isBanned (peer : bytes) : M bool :=
  bans <- gets e_bans ;;
  match bans !! peer with
  | None => ret false
  | Some until_ =>
      now <- clock_Now ;;
      if until_ <? now then
        modify (fun e => e <| e_bans := delete peer (e_bans e) |>) ;;; ret false
      else ret true
  end.

(** ** Timing of our own candidates ([own_candidate_timing.go]) *)

Definition ownCandidateTimingLimit : nat := 64.

(** [range] over a Go map is in random order, so which of the candidates of the
    lowest slot goes is unspecified; here it is the first in key order. *)
Definition oldest_candidate (ids : list CandidateID) : option CandidateID :=
  foldl (fun best id => match best with
                        | None => Some id
                        | Some b => if cid_Slot id <? cid_Slot b then Some id else Some b
                        end) None ids.

Definition noteOwnCandidate (id : CandidateID) : M unit :=
  m <- gets e_ownCandidates ;;
  when (ownCandidateTimingLimit <=? size m)%nat
    (match oldest_candidate (elements (dom m)) with
     | Some oldest => modify (fun e => e <| e_ownCandidates := delete oldest (e_ownCandidates e) |>)
     | None => ret tt
     end) ;;;
  now <- clock_Now ;;
  modify (fun e => e <| e_ownCandidates := <[id := mkTiming now 0 0]> (e_ownCandidates e) |>).

Definition noteOwnCandidateVote (idx : Z) (v : Vote) : M unit :=
  local <- cfg g_localIndex ;; m <- gets e_ownCandidates ;;
  if negb (bool_decide (v_Kind v = VoteNotarize)) || (idx =? local) || (size m =? 0)%nat then ret tt else
  match m !! v_ID v with
  | None => ret tt
  | Some timing =>
      if negb (oc_firstVoteAt timing =? 0) then ret tt else
      now <- clock_Now ;;
      modify (fun e => e <| e_ownCandidates :=
        <[v_ID v := mkTiming (oc_acceptedAt timing) now idx]> (e_ownCandidates e) |>)
  end.

(** What remains after the log lines are left out: the entry is closed. *)
Definition reportOwnCandidateNotarized (cert : Certificate) : M unit :=
  m <- gets e_ownCandidates ;;
  if negb (bool_decide (v_Kind (cert_Vote cert) = VoteNotarize)) || (size m =? 0)%nat then ret tt else
  match m !! v_ID (cert_Vote cert) with
  | None => ret tt
  | Some timing =>
      modify (fun e => e <| e_ownCandidates := delete (v_ID (cert_Vote cert)) (e_ownCandidates e) |>) ;;;
      _ <- clock_Now ;; ret tt
  end.

(** ** Parent waits ([pool.go]) *)

Definition conflictingCandidateAndCert (c : Candidate) (cert : option Certificate) : M Misbehavior :=
  proof1 <- deref (HashDataBytes c) ;;
  proof2 <- match cert with Some cert => deref (Certificate_Serialize cert) | None => ret [] end ;;
  ret (mkMisbehavior MisbehaviorConflictingCandidateAndCertificate proof1 proof2).

Definition outcome_ok : parentWaitOutcome := mkOutcome None None.
Definition outcome_misb (m : Misbehavior) : parentWaitOutcome := mkOutcome (Some m) None.
Definition outcome_err (e : wait_error) : parentWaitOutcome := mkOutcome None (Some e).

(** The last part of [evaluateParentWait]: are the slots between the parent and
    the candidate skipped? *)
Definition evaluateSkips (id : CandidateID) (nextSlotAfterParent : Z) : M (bool * parentWaitOutcome) :=
  if nextSlotAfterParent =? cid_Slot id then ret (true, outcome_ok) else
  p <- slots_at nextSlotAfterParent ;;
  next <- load p ;;
  match ps_skipCert next with
  | None => ret (false, outcome_ok)
  | Some _ =>
      runs <- pool pl_skipRuns ;;
      match lowerBound nextSlotAfterParent runs with
      | None => fatal FatalSkipRuns ;;; ret (true, outcome_err ErrWaitInternal)
      | Some runEnd =>
          if cid_Slot id <=? runEnd then ret (true, outcome_ok) else ret (false, outcome_ok)
      end
  end.

Definition evaluateParentWait (cand : Candidate) : M (bool * parentWaitOutcome) :=
  let id := c_ID cand in
  let parent := c_Parent cand in
  let nextSlotAfterParent := if par_Exists parent then cid_Slot (par_ID parent) +₃₂ 1 else 0 in
  first <- firstNonFin ;;
  if cid_Slot id <? first then ret (true, outcome_err ErrSlotFinalized) else
  lastCert <- pool pl_lastFinalCert ;;
  if nextSlotAfterParent <? first then
    m <- conflictingCandidateAndCert cand lastCert ;; ret (true, outcome_misb m) else
  p <- slots_at (cid_Slot id) ;;
  slot <- load p ;;
  if match notarizedBlock slot with Some nb => negb (bool_decide (nb = id)) | None => false end then
    m <- conflictingCandidateAndCert cand (ps_notarCert slot) ;; ret (true, outcome_misb m) else
  if nextSlotAfterParent =? first then
    lastFinalized <- pool pl_lastFinalized ;;
    if negb (bool_decide (lastFinalized = parent)) then
      m <- conflictingCandidateAndCert cand lastCert ;; ret (true, outcome_misb m)
    else evaluateSkips id nextSlotAfterParent
  else
    q <- slots_at (cid_Slot (par_ID parent)) ;;
    parentSlot <- load q ;;
    match ps_notarCert parentSlot with
    | Some _ =>
        if match notarizedBlock parentSlot with
           | Some nb => negb (bool_decide (nb = par_ID parent)) | None => true end then
          m <- conflictingCandidateAndCert cand (ps_notarCert parentSlot) ;; ret (true, outcome_misb m)
        else evaluateSkips id nextSlotAfterParent
    | None => ret (false, outcome_ok)
    end.

Definition set_parentWaits (l : list Candidate) : M unit :=
  modify_pool (fun pl => pl <| pl_parentWaits := l |>).

Definition registerParentWait (c : Candidate) : M unit :=
  r <- evaluateParentWait c ;;
  if (r.1 : bool) then enqueue (ParentWaitDone c r.2) else
  waits <- pool pl_parentWaits ;; set_parentWaits (waits ++ [c]).

(** The in-place scan of [resolveParentWaits]: the entries before [i] keep
    waiting, a resolved entry is replaced by the last one.  Each iteration
    advances [i] or shortens the slice, so the initial length is enough fuel. *)
Fixpoint resolve_loop (fuel i : nat) : M unit :=
  match fuel with
  | O => ret tt
  | S fuel =>
      waits <- pool pl_parentWaits ;;
      match waits !! i with
      | None => ret tt
      | Some cand =>
          r <- evaluateParentWait cand ;;
          if negb r.1 then resolve_loop fuel (S i) else
          waits <- pool pl_parentWaits ;;
          let lastIdx := (length waits - 1)%nat in
          lastCand <- deref (waits !! lastIdx) ;;
          set_parentWaits (take lastIdx (<[i := lastCand]> waits)) ;;;
          enqueue (ParentWaitDone cand r.2) ;;;
          resolve_loop fuel i
      end
  end.

Definition resolveParentWaits : M unit :=
  waits <- pool pl_parentWaits ;; resolve_loop (length waits) 0.

(** ** Certificates: present slot, windows, application *)

Definition nextNonSkippedSlotAfter (i : Z) : M (option Z) :=
  let j := i +₃₂ 1 in
  p <- slots_at j ;; s <- load p ;;
  match ps_skipCert s with
  | Some _ => runs <- pool pl_skipRuns ;; ret (lowerBound j runs)
  | None => ret (Some j)
  end.

(** A handler of [voter.go] needed by [windowObserved]. *)
Definition voterWindowObserved (startSlot : Z) : M unit :=
  spw <- cfg g_spw ;; prm <- gets e_params ;;
  modify_voter (fun v => v <| vt_currentWindow := startSlot / spw |>) ;;;
  modify_voter (fun v => v <| vt_firstBlockTimeout :=
    if vt_previousWindowHadSkip v then
      scale_duration (vt_firstBlockTimeout v) (p_FirstBlockTimeoutMultiplier prm)
        (p_FirstBlockTimeoutCap prm)
    else p_FirstBlockTimeout prm |>) ;;;
  when (startSlot mod spw =? 0) (modify_voter (fun v => v <| vt_previousWindowHadSkip := false |>)) ;;;
  v <- voter ;;
  if vt_timeoutSlot v <=? startSlot then
    now <- clock_Now ;;
    modify_voter (fun v => v <| vt_timeoutSlot := startSlot +₃₂ 1 |>) ;;;
    modify_voter (fun v => v <| vt_timeoutBase := now + vt_firstBlockTimeout v |>) ;;;
    modify_voter (fun v => v <| vt_alarmAt := vt_timeoutBase v + p_TargetRate prm |>) ;;;
    modify_voter (fun v => v <| vt_alarmArmed := true |>)
  else ret tt.

Definition windowObserved (startSlot : Z) (base : ParentID) : M unit :=
  g <- gets e_cfg ;;
  v <- gets e_voter ;;
  firstBlockTimeout <-
    match v with
    | Some _ => voterWindowObserved startSlot ;;; v <- voter ;; ret (vt_firstBlockTimeout v)
    | None => param p_FirstBlockTimeout
    end ;;
  let windowStart := startSlot -₃₂ startSlot mod g_spw g in
  let windowEnd := windowStart +₃₂ g_spw g in
  let leader := g_schedule g windowStart in
  now <- clock_Now ;;
  enqueue (CallHook (HandleWindow (mkWindow base startSlot windowStart windowEnd leader
    ((0 <=? g_localIndex g) && (leader =? u32 (g_localIndex g))) now firstBlockTimeout))).

(** The loop of [advancePresent]; [None] in the result is the fatal exit.  Every
    iteration but the last passes a tracked slot with a certificate, so the
    number of tracked slots plus one is enough fuel. *)
Fixpoint present_loop (fuel : nat) : M bool :=
  match fuel with
  | O => panic
  | S fuel =>
      now <- pool pl_now ;;
      p <- slots_at now ;;
      match p with
      | None => fatal FatalPresentBelowHorizon ;;; ret false
      | Some _ =>
          s <- load p ;;
          if negb (bool_decide (ps_notarCert s = None)) || negb (bool_decide (ps_skipCert s = None)) then
            modify_pool (fun pl => pl <| pl_now := pl_now pl +₃₂ 1 |>) ;;; present_loop fuel
          else ret true
      end
  end.

Definition announceWindow : M unit :=
  spw <- cfg g_spw ;; now <- pool pl_now ;; fna <- pool pl_firstNonAnnouncedWindow ;;
  let window := now / spw in
  if window <? fna then ret tt else
  modify_pool (fun pl => pl <| pl_firstNonAnnouncedWindow := window +₃₂ 1 |>) ;;;
  base <- (if negb (now =? 0) then p <- slots_at now ;; s <- load p ;; ret (ps_availableBase s)
           else ret (Some Genesis)) ;;
  match base with
  | None => fatal (FatalNoAvailableBase now)
  | Some base =>
      windowObserved now base ;;;
      w <- pool pl_firstNonAnnouncedWindow ;;
      emit (SaveFirstNonAnnouncedWindow w) ;;; register (WindowSaved w)
  end.

Definition advancePresent : M unit :=
  started <- gets e_started ;; f <- gets failed ;;
  if negb started || f then ret tt else
  m <- pool pl_slots ;;
  ok <- present_loop (S (size (slots m))) ;;
  if (ok : bool) then announceWindow else ret tt.

Definition onNotarCertificate (vc : VerifiedCertificate) : M unit :=
  let id := v_ID (VC_Vote vc) in
  enqueue (CallHook (OnNotarized id vc)) ;;;
  v <- gets e_voter ;;
  when (bool_decide (is_Some v)) (enqueue (NotarizationObserved id)) ;;;
  next <- nextNonSkippedSlotAfter (cid_Slot id) ;;
  match next with
  | None => fatal FatalSkipRuns
  | Some next =>
      p <- slots_at next ;; store p (addAvailableBase (Parent id)) ;;; advancePresent
  end.

Definition onSkipCertificate (slot : option Z) (cert : Certificate) : M unit :=
  let i := Vote_Slot (cert_Vote cert) in
  next <- nextNonSkippedSlotAfter i ;;
  match next with
  | None => fatal FatalSkipRuns
  | Some next =>
      modify_pool (fun pl => pl <| pl_skipRuns := erase i (pl_skipRuns pl) |>) ;;;
      when (next =? i +₃₂ 1)
        (modify_pool (fun pl => pl <| pl_skipRuns := insert_sorted (i +₃₂ 1) (pl_skipRuns pl) |>)) ;;;
      s <- load slot ;;
      match ps_availableBase s with
      | Some base => p <- slots_at next ;; store p (addAvailableBase base)
      | None => ret tt
      end ;;;
      advancePresent
  end.

Definition onFinalCertificate (slot : option Z) (vc : VerifiedCertificate) : M unit :=
  cert <- deref (vc_cert vc) ;;
  let id := v_ID (cert_Vote cert) in
  s <- load slot ;;
  if negb (bool_decide (ps_skipCert s = None)) then fatal (FatalFinalizedSkipped (cid_Slot id)) else
  if match notarizedBlock s with Some nb => negb (bool_decide (nb = id)) | None => false end then
    fatal (FatalFinalizedOther (cid_Slot id)) else
  ok <- (if bool_decide (ps_notarCert s = None) then
           next <- nextNonSkippedSlotAfter (cid_Slot id) ;;
           match next with
           | None => fatal FatalSkipRuns ;;; ret false
           | Some next => p <- slots_at next ;; store p (addAvailableBase (Parent id)) ;;; ret true
           end
         else ret true) ;;
  if negb ok then ret tt else
  modify_pool (fun pl => pl <| pl_lastFinalized := Parent id |>) ;;;
  modify_pool (fun pl => pl <| pl_lastFinalCert := Some cert |>) ;;;
  modify_pool (fun pl => pl <| pl_slots := sm_notifyFinalized (cid_Slot id) (pl_slots pl) |>) ;;;
  now <- clock_Now ;;
  modify_stats (fun st => st <| st_SlotsFinalized := st_SlotsFinalized st +₆₄ 1 |>
                             <| st_LastFinalizedAt := now |>) ;;;
  enqueue (CallHook (OnFinalized id vc)) ;;;
  v <- gets e_voter ;;
  when (bool_decide (is_Some v)) (enqueue (FinalizationObserved id)) ;;;
  present <- pool pl_now ;;
  when (present <=? cid_Slot id)
    (modify_pool (fun pl => pl <| pl_now := cid_Slot id +₃₂ 1 |>) ;;; advancePresent) ;;;
  modify_pool (fun pl => pl <| pl_skipRuns := eraseUpTo (cid_Slot id) (pl_skipRuns pl) |>) ;;;
  first <- firstNonFin ;;
  modify (fun e => e <| e_seenBroadcasts := filter (fun kv => ~ kv.1 < first) (e_seenBroadcasts e) |>) ;;;
  suppress <- gets e_suppressCertBroadcast ;;
  when (negb suppress)
    (now <- clock_Now ;; d <- param p_StandstillTimeout ;;
     modify (fun e => e <| e_standstillAt := now + d |>)) ;;;
  modify (fun e => e <| e_drain := None |>).

(** The per-validator bookkeeping of [storeSavedCertificate]: an index outside
    the roster panics, as the write to [voters] does. *)
Definition note_signer (slotNumber : Z) (s : VoteSignature) : M unit :=
  n <- cfg nValidators ;;
  let i := Z.to_nat (vs_ValidatorIndex s) in
  if (n <=? i)%nat then panic else
  modify_stats (fun st =>
    if (i <? length (st_LastSignedSlot st))%nat
       && (default 0 (st_LastSignedSlot st !! i) <? slotNumber)
    then st <| st_LastSignedSlot := <[i := slotNumber]> (st_LastSignedSlot st) |> else st).

Definition count_certificate (cert : Certificate) : M unit :=
  let k := Z.to_nat (kind_index (v_Kind (cert_Vote cert))) in
  modify_stats (fun st => st <| st_CertificatesStored := st_CertificatesStored st +₆₄ 1 |>) ;;;
  when (k <? 4)%nat
    (modify_stats (fun st =>
       st <| st_CertificatesByKind :=
               alter (fun c => c +₆₄ 1) k (st_CertificatesByKind st) |>
          <| st_SignaturesByKind :=
               alter (fun c => c +₆₄ Z.of_nat (length (cert_Signatures cert))) k
                 (st_SignaturesByKind st) |>)) ;;;
  n <- cfg nValidators ;;
  modify_stats (fun st =>
    if (length (st_LastSignedSlot st) =? 0)%nat
    then st <| st_LastSignedSlot := replicate n 0 |> else st) ;;;
  for_each (cert_Signatures cert) (note_signer (Vote_Slot (cert_Vote cert))).

Definition storeSavedCertificate (slot : option Z) (vc : VerifiedCertificate) : M unit :=
  cert <- deref (vc_cert vc) ;;
  let kind := v_Kind (cert_Vote cert) in
  s <- load slot ;;
  p <- deref (certByKind s kind) ;;
  if negb (bool_decide (p.1 = None)) then
    fatal (FatalDuplicateCertificate kind (Vote_Slot (cert_Vote cert))) else
  store slot (fun s => set_saving kind false (set_cert kind (Some cert) s)) ;;;
  count_certificate cert ;;;
  reportOwnCandidateNotarized cert ;;;
  suppress <- gets e_suppressCertBroadcast ;;
  when (negb suppress)
    (k <- param p_CertificateGossipNeighbors ;;
     wire <- deref (Certificate_Serialize cert) ;;
     emit (BroadcastToRandom k wire) ;;; trace (TraceCertObserved (cert_Vote cert))) ;;;
  match kind with
  | VoteNotarize => onNotarCertificate vc
  | VoteSkip => onSkipCertificate slot cert
  | VoteFinalize => onFinalCertificate slot vc
  | VoteKindOther _ => ret tt
  end ;;;
  f <- gets failed ;;
  if f then ret tt else resolveParentWaits.

(** [slot.votes[idx].add(p)]. *)
Definition slot_add (slot : option Z) (idx : Z) (p : proven) : M (bool * option conflictEvidence) :=
  s <- load slot ;;
  vv <- deref (ps_votes s !! Z.to_nat idx) ;;
  r <- deref (vv_add vv p) ;;
  store slot (fun s => s <| ps_votes := <[Z.to_nat idx := r.2]> (ps_votes s) |>) ;;;
  ret r.1.

Definition finishCertificateSave (vc : VerifiedCertificate) (err : save_result) : M unit :=
  cert <- deref (vc_cert vc) ;;
  match err with
  | SaveFailed => fatal FatalCertificateJournal
  | Saved | AlreadySaved =>
      slot <- slots_at (Vote_Slot (cert_Vote cert)) ;;
      match slot with
      | None => ret tt
      | Some _ =>
          for_each (cert_Signatures cert) (fun s =>
            r <- slot_add slot (vs_ValidatorIndex s) (cert_vote cert (vs_Signature s)) ;;
            match r.2 with
            | Some ev =>
                m <- deref (conflict_misbehavior ev (vs_ValidatorIndex s)) ;;
                reportMisbehavior (vs_ValidatorIndex s) m
            | None => ret tt
            end) ;;;
          storeSavedCertificate slot vc
      end
  end.

Definition handleCertificate (vc : VerifiedCertificate) : M unit :=
  cert <- deref (vc_cert vc) ;;
  slot <- slots_at (Vote_Slot (cert_Vote cert)) ;;
  match slot with
  | None => ret tt
  | Some _ =>
      s <- load slot ;;
      n <- deref (needs s (cert_Vote cert)) ;;
      if negb n then ret tt else
      store slot (set_saving (v_Kind (cert_Vote cert)) true) ;;;
      emit (SaveCertificate cert) ;;; register (CertificateSaved vc)
  end.

(** ** Votes *)

(** The signatures of the directly signed votes equal to [v], by validator. *)
Fixpoint matching_signatures (v : Vote) (i : Z) (votes : list validatorVotes)
  : option (list VoteSignature) :=
  match votes with
  | [] => Some []
  | vv :: votes =>
      p ← byKind vv (v_Kind v);
      rest ← matching_signatures v (i + 1) votes;
      Some (if pv_set p && negb (pv_fromCert p) && bool_decide (pv_vote p = v)
            then mkVoteSignature i (pv_sig p) :: rest else rest)
  end.

Definition buildCertificate (slot : option Z) (v : Vote) : M Certificate :=
  s <- load slot ;;
  sigs <- deref (matching_signatures v 0 (ps_votes s)) ;;
  modify_stats (fun st => st <| st_CertificatesBuilt := st_CertificatesBuilt st +₆₄ 1 |>) ;;;
  ret (mkCertificate v sigs).

Definition seal (cert : Certificate) : M VerifiedCertificate :=
  b <- cfg binding ;; ret (sealCertificate cert b).

Definition weight_of (v : Vote) (s : poolSlot) : Z :=
  match v_Kind v with
  | VoteNotarize => default 0 (ps_notarizeWeight s !! v_ID v)
  | VoteFinalize => default 0 (ps_finalizeWeight s !! v_ID v)
  | VoteSkip => ps_skipWeight s
  | VoteKindOther _ => 0
  end.
Definition add_weight (v : Vote) (w : Z) (s : poolSlot) : poolSlot :=
  match v_Kind v with
  | VoteNotarize =>
      s <| ps_notarizeWeight := <[v_ID v := weight_of v s +₆₄ w]> (ps_notarizeWeight s) |>
  | VoteFinalize =>
      s <| ps_finalizeWeight := <[v_ID v := weight_of v s +₆₄ w]> (ps_finalizeWeight s) |>
  | VoteSkip => s <| ps_skipWeight := weight_of v s +₆₄ w |>
  | VoteKindOther _ => s
  end.

Definition onVoteApplied (idx : Z) (v : Vote) (slot : option Z) : M unit :=
  g <- gets e_cfg ;;
  w <- deref (val_Weight <$> validators g !! Z.to_nat idx) ;;
  store slot (add_weight v w) ;;;
  s <- load slot ;;
  let newWeight := weight_of v s in
  if newWeight <? threshold g then ret tt else
  will <- deref (willBe s (v_Kind v)) ;;
  if will then ret tt else
  cert <- buildCertificate slot v ;; vc <- seal cert ;; handleCertificate vc.

Definition applyVote (idx : Z) (v : Vote) (sig : bytes) (tolerateConflicts : bool) : M bool :=
  slot <- slots_at (Vote_Slot v) ;;
  match slot with
  | None => ret false
  | Some _ =>
      r <- slot_add slot idx (direct_vote v sig) ;;
      match r.2 with
      | Some ev =>
          local <- cfg g_localIndex ;;
          if (idx =? local) && negb tolerateConflicts then
            fatal (FatalOwnConflict v) ;;; ret false
          else
            m <- deref (conflict_misbehavior ev idx) ;;
            reportMisbehavior idx m ;;; ret false
      | None =>
          if negb r.1 then ret false else
          noteOwnCandidateVote idx v ;;; onVoteApplied idx v slot ;;; ret true
      end
  end.

Definition finishVoteCast (v : Vote) (replay : bool) : M unit :=
  vt <- gets e_voter ;;
  match vt with
  | None => ret tt
  | Some _ =>
      payload <- votePayload v ;;
      sig <- signer_Sign payload ;;
      match sig with
      | None => fatal (FatalSigning v)
      | Some sig =>
          emit (Signed v sig) ;;;
          local <- cfg (fun g => u32 (g_localIndex g)) ;;
          wire <- deref (SignedVote_Serialize (mkSignedVote local v sig)) ;;
          modify_stats (fun st => st <| st_OwnVotesCast := st_OwnVotesCast st +₆₄ 1 |>) ;;;
          applied <- applyVote local v sig replay ;;
          when (applied && negb replay) (emit (BroadcastToAll wire))
      end
  end.

Definition castVote (v : Vote) (replay : bool) : M unit :=
  f <- gets failed ;; vt <- gets e_voter ;;
  if f || negb (bool_decide (is_Some vt)) then ret tt else
  trace (TraceVoted v) ;;;
  if replay then finishVoteCast v replay
  else emit (SaveOurVote v) ;;; register (VoteSaved v).

(** The continuation [castVote] hands to the journal. *)
Definition voteSaved (v : Vote) (err : save_result) : M unit :=
  match err with
  | AlreadySaved => ret tt
  | SaveFailed => fatal (FatalVoteJournal v)
  | Saved => finishVoteCast v false
  end.

(** ** Standstill resolution *)

Definition opt_list {A} (o : option A) : list A := match o with Some a => [a] | None => [] end.

Fixpoint collect {A} (l : list (option A)) : option (list A) :=
  match l with
  | [] => Some []
  | o :: l => a ← o; rest ← collect l; Some (a :: rest)
  end.

(** Our own votes of one slot that no certificate covers yet. *)
Definition own_uncovered (s : poolSlot) (own : validatorVotes) : list proven :=
  let keep p (c : option Certificate) :=
    if pv_set p && negb (pv_fromCert p) && bool_decide (c = None) then [p] else [] in
  keep (vv_notarize own) (ps_notarCert s) ++ keep (vv_skip own) (ps_skipCert s)
  ++ keep (vv_finalize own) (ps_finalCert s).

Definition slot_messages (localIndex : Z) (s : poolSlot) : option (list bytes) :=
  certs ← collect (Certificate_Serialize <$>
            (opt_list (ps_notarCert s) ++ opt_list (ps_skipCert s) ++ opt_list (ps_finalCert s)));
  votes ← (if 0 <=? localIndex then
             own ← ps_votes s !! Z.to_nat localIndex;
             collect ((fun p => SignedVote_Serialize (mkSignedVote (u32 localIndex) (pv_vote p) (pv_sig p)))
                        <$> own_uncovered s own)
           else Some []);
  Some (certs ++ votes).

(** The loop peeks every slot of [interval()]; only the tracked ones yield
    messages, so the model visits the tracked slots in increasing order. *)
Definition tracked_slots (m : slotMap poolSlot) : list poolSlot :=
  omap (fun i => sm_peek i m) (merge_sort Z.le (elements (dom (slots m)))).

Definition buildStandstillMessages (e : Engine) : option (list bytes) :=
  final ← collect (Certificate_Serialize <$> opt_list (pl_lastFinalCert (e_pool e)));
  rest ← collect (slot_messages (g_localIndex (e_cfg e)) <$> tracked_slots (pl_slots (e_pool e)));
  Some (final ++ concat rest).

(** [max(min, max / 2^pfx_len)], never below one byte per second. *)
Definition drain_rate (g : Config) (prm : Params) : f64 :=
  let rate := f64_div (f64_of_Z (p_StandstillMaxEgressBytesPerS prm))
                      (f64_of_Z (u64 (Z.shiftl 1 (g_shardPfxLen g)))) in
  let minRate := f64_of_Z (p_StandstillMinEgressBytesPerS prm) in
  let rate := if f64_ltb rate minRate then minRate else rate in
  if f64_ltb rate (f64_of_Z 1) then f64_of_Z 1 else rate.

(** The sending loop; each round sends the message at [idx] or returns. *)
Fixpoint drain_loop (fuel : nat) (rate : f64) (now : Z) (d : drainState) : M unit :=
  match fuel, dr_msgs d !! dr_idx d with
  | S fuel, Some msg =>
      n <- cfg nValidators ;;
      let cost := f64_of_Z (Z.of_nat (length msg) * Z.of_nat n) in
      let send d :=
        let d := d <| dr_quota := f64_sub (dr_quota d) cost |> in
        emit (BroadcastToValidators msg) ;;;
        let d := d <| dr_idx := S (dr_idx d) |> in
        modify (fun e => e <| e_drain := Some d |>) ;;; drain_loop fuel rate now d in
      if f64_ltb (dr_quota d) cost then
        let delay := f64_div (f64_sub cost (dr_quota d)) rate in
        let at_ := dr_quotaTime d + i64 (f64_trunc (f64_mul delay (f64_of_Z Second))) in
        if now <? at_ then modify (fun e => e <| e_drain := Some (d <| dr_nextAt := at_ |>) |>) else
        let refilled := f64_add (dr_quota d) (f64_mul (Duration_Seconds (now - dr_quotaTime d)) rate) in
        let refilled := if f64_ltb rate refilled then rate else refilled in
        send (d <| dr_quota := refilled |> <| dr_quotaTime := now |>)
      else send d
  | _, _ => modify (fun e => e <| e_drain := None |>)
  end.

(** [lastFinalCert] changes only with a finalization of a later slot, so the
    pointer comparison of the source is a comparison of values. *)
Definition stepDrain (now : Z) : M unit :=
  d <- gets e_drain ;;
  match d with
  | None => ret tt
  | Some d =>
      last <- pool pl_lastFinalCert ;;
      if negb (bool_decide (last = dr_finalCertAtStart d)) then modify (fun e => e <| e_drain := None |>) else
      g <- gets e_cfg ;; prm <- gets e_params ;;
      drain_loop (length (dr_msgs d) - dr_idx d) (drain_rate g prm) now d
  end.

Definition startDrain (now : Z) : M unit :=
  msgs <- (fun e => match buildStandstillMessages e with Some m => Some (m, e) | None => None end) ;;
  last <- pool pl_lastFinalCert ;;
  modify (fun e => e <| e_drain :=
    Some (mkDrain msgs 0 f64_zero (now - 10 * Millisecond) now last) |>) ;;;
  stepDrain now.

Definition fireStandstill (now : Z) : M unit :=
  modify_stats (fun st => st <| st_Standstills := st_Standstills st +₆₄ 1 |>) ;;;
  d <- param p_StandstillTimeout ;;
  modify (fun e => e <| e_standstillAt := now + d |>) ;;;
  modify (fun e => e <| e_bans := filter (fun kv => ~ kv.2 < now) (e_bans e) |>) ;;;
  local <- cfg g_localIndex ;;
  if local =? ObserverIndex then ret tt else
  dr <- gets e_drain ;;
  match dr with Some _ => ret tt | None => startDrain now end.

(** ** The voter ([voter.go]) *)

Definition bootstrap_vote (vote : Vote) : M unit :=
  p <- vslots_at (Vote_Slot vote) ;;
  match p with
  | None => ret tt
  | Some _ =>
      slot <- vload p ;;
      match v_Kind vote with
      | VoteNotarize =>
          if match vs_votedNotar slot with Some n => negb (bool_decide (n = v_ID vote)) | None => false end
          then ret tt
          else vstore p (fun s => s <| vs_votedNotar := Some (v_ID vote) |>)
      | VoteFinalize =>
          if vs_votedSkip slot ||
             match vs_votedNotar slot with Some n => negb (bool_decide (n = v_ID vote)) | None => false end
          then ret tt
          else vstore p (fun s => s <| vs_votedFinal := true |>)
      | VoteSkip =>
          if vs_votedFinal slot then ret tt
          else vstore p (fun s => s <| vs_votedSkip := true |>)
      | VoteKindOther _ => ret tt
      end
  end.

Definition bootstrapVoter (votes : list Vote) : M unit :=
  for_each votes bootstrap_vote ;;;
  fna <- pool pl_firstNonAnnouncedWindow ;; spw <- cfg g_spw ;;
  if fna =? 0 then ret tt else
  let windowEnd := fna *₃₂ spw in
  for_each (range (windowEnd -₃₂ spw) windowEnd) (fun i =>
    p <- vslots_at i ;;
    match p with
    | None => ret tt
    | Some _ =>
        slot <- vload p ;;
        when (negb (vs_votedFinal slot)) (vstore p (fun s => s <| vs_votedSkip := true |>))
    end).

Definition castStartupWindowSkips : M unit :=
  fna <- pool pl_firstNonAnnouncedWindow ;; spw <- cfg g_spw ;;
  if fna =? 0 then ret tt else
  let window := fna -₃₂ 1 in
  for_each (range (window *₃₂ spw) ((window +₃₂ 1) *₃₂ spw)) (fun i =>
    p <- vslots_at i ;;
    match p with
    | None => ret tt
    | Some _ => slot <- vload p ;; when (negb (vs_votedFinal slot)) (castVote (SkipVote i) false)
    end).

Definition tryVoteFinal (p : option Z) : M unit :=
  slot <- vload p ;;
  match vs_votedNotar slot, vs_notarCert slot with
  | Some votedNotar, Some notarCert =>
      if negb (vs_votedSkip slot) && negb (vs_votedFinal slot) && bool_decide (votedNotar = notarCert) then
        castVote (FinalizeVote votedNotar) false ;;;
        vstore p (fun s => s <| vs_votedFinal := true |>)
      else ret tt
  | _, _ => ret tt
  end.

Definition voterNotarizationObserved (id : CandidateID) : M unit :=
  p <- vslots_at (cid_Slot id) ;;
  match p with
  | None => ret tt
  | Some _ =>
      v <- voter ;; spw <- cfg g_spw ;; rate <- param p_TargetRate ;;
      let next := cid_Slot id +₃₂ 1 in
      when (vt_timeoutSlot v <=? next)
        (modify_voter (fun v => v <| vt_timeoutSlot :=
           if next mod spw =? 0 then next else cid_Slot id +₃₂ 2 |>) ;;;
         modify_voter (fun v =>
           let offset := vt_timeoutSlot v -₃₂ (vt_currentWindow v *₃₂ spw) in
           v <| vt_alarmAt := vt_timeoutBase v + i64 (offset * rate) |>) ;;;
         modify_voter (fun v => v <| vt_alarmArmed := true |>)) ;;;
      vstore p (fun s => s <| vs_notarCert := Some id |>) ;;;
      tryVoteFinal p
  end.

Definition voterFinalizationObserved (id : CandidateID) : M unit :=
  modify_voter (fun v => v <| vt_slots := sm_notifyFinalized (cid_Slot id) (vt_slots v) |>).

Definition fireVoterAlarm : M unit :=
  modify_voter (fun v => v <| vt_alarmArmed := false |>) ;;;
  v <- voter ;; spw <- cfg g_spw ;;
  let rangeStart := vt_timeoutSlot v -₃₂ 1 in
  let windowStart := rangeStart -₃₂ rangeStart mod spw in
  let windowEnd := windowStart +₃₂ spw in
  for_each (range rangeStart windowEnd) (fun i =>
    p <- vslots_at i ;;
    match p with
    | None => ret tt
    | Some _ =>
        slot <- vload p ;;
        when (negb (vs_votedFinal slot))
          (castVote (SkipVote i) false ;;;
           vstore p (fun s => s <| vs_votedSkip := true |>) ;;;
           modify_voter (fun v => v <| vt_previousWindowHadSkip := true |>))
    end) ;;;
  modify_voter (fun v => v <| vt_timeoutSlot := windowEnd |>).

Definition maybeVoteNotar (id : CandidateID) (p : option Z) : M unit :=
  slot <- vload p ;;
  if negb (vs_validated slot) || negb (vs_stored slot) || bool_decide (is_Some (vs_votedNotar slot))
  then ret tt else
  vstore p (fun s => s <| vs_votedNotar := Some id |>) ;;;
  castVote (NotarizeVote id) false ;;;
  tryVoteFinal p.

(** Is [id] still the pending candidate of its slot? *)
Definition is_pending (slot : voterSlot) (id : CandidateID) : bool :=
  match vs_pending slot with Some c => bool_decide (c_ID c = id) | None => false end.

Definition acceptCandidate (c : Candidate) : M unit :=
  v <- voter ;; g <- gets e_cfg ;; desync <- param p_MaxLeaderWindowDesync ;;
  let firstTooNew := (vt_currentWindow v +₃₂ desync +₃₂ 1) *₃₂ g_spw g in
  if firstTooNew <=? cid_Slot (c_ID c) then ret tt else
  p <- vslots_at (cid_Slot (c_ID c)) ;;
  match p with
  | None => ret tt
  | Some _ =>
      slot <- vload p ;;
      if bool_decide (is_Some (vs_votedNotar slot)) || bool_decide (is_Some (vs_pending slot)) then ret tt else
      vstore p (fun s => s <| vs_pending := Some c |>) ;;;
      modify_stats (fun st => st <| st_CandidatesAccepted := st_CandidatesAccepted st +₆₄ 1 |>) ;;;
      (if c_Leader c =? u32 (g_localIndex g) then noteOwnCandidate (c_ID c)
       else trace (TraceCandidateReceived (c_ID c) (c_Parent c)
                     (if c_Empty c then None else Some (c_Block c)))) ;;;
      vstore p (fun s => s <| vs_storeInFlight := true |>) ;;;
      enqueue (CallHook (StoreCandidate c)) ;;;
      registerParentWait c
  end.

Definition onParentWaitDone (c : Candidate) (out : parentWaitOutcome) : M unit :=
  v <- gets e_voter ;;
  match v, pw_misb out, pw_err out with
  | None, _, _ => ret tt
  | Some _, Some m, _ => reportMisbehavior (c_Leader c) m
  | Some _, None, Some _ => ret tt
  | Some _, None, None =>
      p <- vslots_at (cid_Slot (c_ID c)) ;;
      match p with
      | None => ret tt
      | Some _ =>
          slot <- vload p ;;
          if negb (is_pending slot (c_ID c)) || bool_decide (is_Some (vs_votedNotar slot)) then ret tt else
          if vs_validationInFlight slot then ret tt else
          vstore p (fun s => s <| vs_validationInFlight := true |>) ;;;
          enqueue (CallHook (ValidateCandidate c))
      end
  end.

Definition completeValidation (id : CandidateID) (vd : verdict) : M unit :=
  v <- gets e_voter ;;
  match v with
  | None => ret tt
  | Some _ =>
      p <- vslots_at (cid_Slot id) ;;
      match p with
      | None => ret tt
      | Some _ =>
          slot <- vload p ;;
          if negb (is_pending slot id) || negb (vs_validationInFlight slot) then ret tt else
          vstore p (fun s => s <| vs_validationInFlight := false |>) ;;;
          match vd with
          | VerdictReject => modify_stats (fun st =>
              st <| st_CandidatesRejected := st_CandidatesRejected st +₆₄ 1 |>)
          | VerdictAbstain => modify_stats (fun st =>
              st <| st_CandidatesAbstained := st_CandidatesAbstained st +₆₄ 1 |>)
          | VerdictAccept =>
              vstore p (fun s => s <| vs_validated := true |>) ;;; maybeVoteNotar id p
          end
      end
  end.

Definition completeStore (id : CandidateID) (ok : bool) : M unit :=
  v <- gets e_voter ;;
  match v with
  | None => ret tt
  | Some _ =>
      p <- vslots_at (cid_Slot id) ;;
      match p with
      | None => ret tt
      | Some _ =>
          slot <- vload p ;;
          if negb (is_pending slot id) || negb (vs_storeInFlight slot) then ret tt else
          vstore p (fun s => s <| vs_storeInFlight := false |>) ;;;
          if negb ok then fatal (FatalCandidateStore id) else
          vstore p (fun s => s <| vs_stored := true |>) ;;; maybeVoteNotar id p
      end
  end.

(** ** The loop *)

(** A hook call; the candidate services keep a completion callback. *)
Definition callHook (h : Hook) : M unit :=
  emit (Hooked h) ;;;
  match h with
  | ValidateCandidate c => register (ValidationDone (c_ID c))
  | StoreCandidate c => register (StoreDone (c_ID c))
  | _ => ret tt
  end.

Definition runTask (t : Task) : M unit :=
  match t with
  | CallHook h => callHook h
  | NotarizationObserved id => voterNotarizationObserved id
  | FinalizationObserved id => voterFinalizationObserved id
  | ParentWaitDone c out => onParentWaitDone c out
  end.

(** A task enqueues at most one more, a hook call, so twice the queue length is
    enough fuel for [drainPending]. *)
Fixpoint drain_pending_loop (fuel : nat) : M unit :=
  pending <- gets e_pending ;;
  match pending, fuel with
  | [], _ => ret tt
  | _ :: _, O => panic
  | t :: rest, S fuel =>
      modify (fun e => e <| e_pending := rest |>) ;;; runTask t ;;; drain_pending_loop fuel
  end.

Definition drainPending : M unit :=
  d <- gets e_draining ;;
  if d then ret tt else
  modify (fun e => e <| e_draining := true |>) ;;;
  pending <- gets e_pending ;;
  drain_pending_loop (2 * length pending) ;;;
  modify (fun e => e <| e_draining := false |>).

Definition run (action : M unit) : M unit :=
  started <- gets e_started ;; f <- gets failed ;;
  if negb started || f then ret tt else action ;;; drainPending.

Definition completeAsync (action : M unit) : M unit :=
  f <- gets failed ;;
  if f then ret tt else action ;;; drainPending.

(** ** Network ingestion *)

Definition drop_message : M unit :=
  modify_stats (fun st => st <| st_MessagesDropped := st_MessagesDropped st +₆₄ 1 |>).

Definition verifyCertificate (cert : Certificate) : M (result cert_error VerifiedCertificate) :=
  match validateCertificateVote (cert_Vote cert) with
  | Err e => ret (Err e)
  | Ok _ =>
      payload <- votePayload (cert_Vote cert) ;;
      g <- gets e_cfg ;;
      match verifyCertificatePayload (validators g) (threshold g) payload cert with
      | Err e => ret (Err e)
      | Ok _ => ret (Ok (sealCertificate cert (binding g)))
      end
  end.

(** [(e.now/e.spw + e.params.MaxLeaderWindowDesync + 1) * e.spw] *)
Definition firstTooNewSlot : M Z :=
  now <- pool pl_now ;; spw <- cfg g_spw ;; desync <- param p_MaxLeaderWindowDesync ;;
  ret ((now / spw +₃₂ desync +₃₂ 1) *₃₂ spw).

Definition slot_wants (p : option Z) (idx : Z) (v : Vote) : M bool :=
  s <- load p ;; vv <- deref (ps_votes s !! Z.to_nat idx) ;; deref (wants vv v).

Definition slot_needs (p : option Z) (v : Vote) : M bool :=
  match p with None => ret false | Some _ => s <- load p ;; deref (needs s v) end.

Definition handleVoteMessage (src : bytes) (srcValidator : Z) (data : bytes) (tooNew : Z) : M unit :=
  n <- cfg nValidators ;;
  if (srcValidator <? 0) || (Z.of_nat n <=? srcValidator) then ban src else
  match parseSignedVote data with
  | Err _ => drop_message
  | Ok (v, sig) =>
      if tooNew <=? Vote_Slot v then drop_message else
      first <- firstNonFin ;;
      if Vote_Slot v <? first then ret tt else
      p <- slots_at (Vote_Slot v) ;;
      w <- slot_wants p srcValidator v ;;
      if negb w then ret tt else
      payload <- votePayload v ;;
      modify (fun e => e <| e_pendingVerify :=
        e_pendingVerify e ++ [mkPendingVote src (u32 srcValidator) v sig payload false] |>)
  end.

Definition handleCertificateMessage (src : bytes) (data : bytes) (tooNewSlot : Z) : M unit :=
  g <- gets e_cfg ;;
  if g_maxCertWire g <? Z.of_nat (length data) then drop_message else
  match parseCertificate data (nValidators g) with
  | Err _ => drop_message
  | Ok cert =>
      let i := Vote_Slot (cert_Vote cert) in
      let tooNew := tooNewSlot <=? i in
      wanted <-
        (if tooNew then
           m <- pool pl_slots ;;
           match sm_peek i m with Some s => deref (needs s (cert_Vote cert)) | None => ret true end
         else p <- slots_at i ;; slot_needs p (cert_Vote cert)) ;;
      if negb wanted then ret tt else
      verified <- verifyCertificate cert ;;
      match verified with
      | Err _ => ban src
      | Ok vc =>
          wanted <- (if tooNew then p <- slots_at i ;; slot_needs p (cert_Vote cert) else ret true) ;;
          if negb wanted then ret tt else handleCertificate vc
      end
  end.

Definition handleMessage (src : bytes) (srcValidator : Z) (data : bytes) : M unit :=
  b <- isBanned src ;;
  if (b : bool) then drop_message else
  if (length data <? 4)%nat then drop_message else
  tooNew <- firstTooNewSlot ;;
  let id := le_get (take 4 data) in
  if id =? idSignedVote then handleVoteMessage src srcValidator data tooNew
  else if id =? idCertificate then handleCertificateMessage src data tooNew
  else drop_message.

Definition verifyPendingVote (vs : list Validator) (p : pendingVote) : bool :=
  (length (pn_sig p) =? SignatureSize)%nat &&
  match vs !! Z.to_nat (pn_idx p) with
  | Some v => ed25519_Verify (val_PublicKey v) (pn_payload p) (pn_sig p)
  | None => false
  end.

(** In the parallel branch only the entries the fan-out ran on get a verdict. *)
Definition verifyPendingVotes (vs : list Validator) (batch : list pendingVote) : list pendingVote :=
  let judge p := p <| pn_ok := verifyPendingVote vs p |> in
  if (length batch <? parallelVerifyMinSigs)%nat || (GOMAXPROCS <? 2)%nat then judge <$> batch
  else
    let ran := (verifyFanOut (length batch) (fun _ => length batch)).2 in
    imap (fun i p => if bool_decide (i ∈ ran) then judge p else p) batch.

Definition flush_vote (tooNew : Z) (p : pendingVote) : M unit :=
  f <- gets failed ;;
  if f then ret tt else
  b <- isBanned (pn_src p) ;;
  if (b : bool) then ret tt else
  first <- firstNonFin ;;
  if (tooNew <=? Vote_Slot (pn_vote p)) || (Vote_Slot (pn_vote p) <? first) then ret tt else
  slot <- slots_at (Vote_Slot (pn_vote p)) ;;
  match slot with
  | None => ret tt
  | Some _ =>
      w <- slot_wants slot (pn_idx p) (pn_vote p) ;;
      if negb w then ret tt else
      if negb (pn_ok p) then ban (pn_src p) else
      applied <- applyVote (pn_idx p) (pn_vote p) (pn_sig p) false ;;
      when applied (modify_stats (fun st => st <| st_VotesApplied := st_VotesApplied st +₆₄ 1 |>))
  end.

Definition flushVerify : M unit :=
  batch <- gets e_pendingVerify ;;
  if (length batch =? 0)%nat then ret tt else
  vs <- cfg validators ;;
  tooNew <- firstTooNewSlot ;;
  for_each (verifyPendingVotes vs batch) (flush_vote tooNew) ;;;
  modify (fun e => e <| e_pendingVerify := [] |>).

Definition FlushVerify : M unit :=
  batch <- gets e_pendingVerify ;;
  if (length batch =? 0)%nat then ret tt else
  started <- gets e_started ;; f <- gets failed ;;
  if negb started || f then modify (fun e => e <| e_pendingVerify := [] |>) else
  run flushVerify.

Definition HandleMessage (src : bytes) (srcValidator : Z) (data : bytes) : M unit :=
  run (handleMessage src srcValidator data ;;; flushVerify).

Definition handleMessageBatched (src : bytes) (srcValidator : Z) (data : bytes) : M unit :=
  run (handleMessage src srcValidator data).

(** ** Candidates *)

Inductive submit_error :=
| SubmitStopped | SubmitShape (e : candidate_error) | SubmitLeaderRange | SubmitLeader
| SubmitDelegation (e : candidate_error) | SubmitSignature.

(** The checks of [SubmitCandidate]: the recomputed candidate, or the error. *)
Definition checkCandidate (g : Config) (c : Candidate) : option (result submit_error Candidate) :=
  match ValidateShape c with
  | Err e => Some (Err (SubmitShape e))
  | Ok _ =>
      id ← ComputeID c (cid_Slot (c_ID c));
      let cc := mkCandidate id (c_Parent c) (c_Leader c) (c_Empty c) (c_Block c)
                  (c_CollatedFileHash c) (c_Signature c) (c_Delegation c) in
      let leader := g_schedule g (cid_Slot id) in
      match validators g !! Z.to_nat leader with
      | None => Some (Err SubmitLeaderRange)
      | Some v =>
          if negb (c_Leader c =? leader) then Some (Err SubmitLeader) else
          match c_Delegation c with
          | Some d =>
              r ← verifyDelegatedCandidate cc d (val_PublicKey v) (sessionID g) (g_spw g);
              Some (match r with Err e => Err (SubmitDelegation e) | Ok _ => Ok cc end)
          | None =>
              ok ← VerifyCandidateSignature (val_PublicKey v) (sessionID g) id (c_Signature c);
              Some (if (ok : bool) then Ok cc else Err SubmitSignature)
          end
      end
  end.

Definition SubmitCandidate (c : Candidate) : M (result submit_error unit) :=
  started <- gets e_started ;; f <- gets failed ;;
  if negb started || f then ret (Err SubmitStopped) else
  vt <- gets e_voter ;;
  match vt with
  | None => ret (Ok tt)
  | Some _ =>
      g <- gets e_cfg ;;
      r <- deref (checkCandidate g c) ;;
      match r with
      | Err e => ret (Err e)
      | Ok cc => run (acceptCandidate cc) ;;; ret (Ok tt)
      end
  end.

Inductive precheck_error := PrecheckStopped | PrecheckFinalized | PrecheckTooFar | PrecheckDuplicate.

Definition PrecheckCandidateBroadcast (slot : Z) (broadcastID : bytes) (signatureChecked : bool)
  : M (option precheck_error) :=
  started <- gets e_started ;; f <- gets failed ;;
  if negb started || f then ret (Some PrecheckStopped) else
  first <- firstNonFin ;;
  if slot <? first then ret (Some PrecheckFinalized) else
  now <- pool pl_now ;; desync <- param p_MaxLeaderWindowDesync ;; spw <- cfg g_spw ;;
  if now +₃₂ desync *₃₂ spw <? slot then ret (Some PrecheckTooFar) else
  seen <- gets e_seenBroadcasts ;;
  if match seen !! slot with Some x => negb (bool_decide (x = broadcastID)) | None => false end then
    ret (Some PrecheckDuplicate) else
  when signatureChecked
    (modify (fun e => e <| e_seenBroadcasts := <[slot := broadcastID]> (e_seenBroadcasts e) |>)) ;;;
  ret None.

(** ** Timers *)

(** The zero time means no deadline. *)
Definition NextWakeup (e : Engine) : Z :=
  if negb (e_started e) || failed e then 0 else
  let consider at_ t :=
    if t =? 0 then at_ else if (at_ =? 0) || (t <? at_) then t else at_ in
  let at_ := consider 0 (e_standstillAt e) in
  let at_ := match e_voter e with
             | Some v => if vt_alarmArmed v then consider at_ (vt_alarmAt v) else at_
             | None => at_
             end in
  match e_drain e with Some d => consider at_ (dr_nextAt d) | None => at_ end.

Definition advance_timers : M unit :=
  flushVerify ;;;
  now <- clock_Now ;;
  f <- gets failed ;; v <- gets e_voter ;;
  when (negb f && match v with Some v => vt_alarmArmed v && (vt_alarmAt v <=? now) | None => false end)
    fireVoterAlarm ;;;
  f <- gets failed ;; at_ <- gets e_standstillAt ;;
  when (negb f && negb (at_ =? 0) && (at_ <=? now)) (fireStandstill now) ;;;
  f <- gets failed ;; d <- gets e_drain ;;
  when (negb f && match d with Some d => dr_nextAt d <=? now | None => false end) (stepDrain now).

Definition Advance : M unit := run advance_timers.

(** ** Lifecycle *)

Inductive start_error :=
| StartAlreadyStarted | StartStopped | StartBootstrap | StartValidate (e : cert_error)
| StartDuplicate (k : VoteKind) (slot : Z) | StartFatal (e : fatal_error).

(** Journaled certificates are applied without re-gossip; the first failure ends
    the loop. *)
Fixpoint replay_certificates (certs : list VerifiedCertificate) : M (option start_error) :=
  match certs with
  | [] => ret None
  | verified :: certs =>
      cert <- deref (vc_cert verified) ;;
      slot <- slots_at (Vote_Slot (cert_Vote cert)) ;;
      match slot with
      | None => replay_certificates certs
      | Some _ =>
          s <- load slot ;;
          n <- deref (needs s (cert_Vote cert)) ;;
          if negb n then
            ret (Some (StartDuplicate (v_Kind (cert_Vote cert)) (Vote_Slot (cert_Vote cert)))) else
          storeSavedCertificate slot verified ;;;
          f <- gets e_fatalErr ;;
          match f with Some err => ret (Some (StartFatal err)) | None => replay_certificates certs end
      end
  end.

Definition replay_vote (v : Vote) : M unit :=
  first <- firstNonFin ;;
  if Vote_Slot v <? first then ret tt else castVote v true.

(** The part of [Start] after the journal was read and validated. *)
Definition startFrom (bs : BootstrapState) (sealed : list VerifiedCertificate) : M (option start_error) :=
  modify_pool (fun pl => pl <| pl_firstNonAnnouncedWindow := bs_FirstNonAnnouncedWindow bs |>) ;;;
  v <- gets e_voter ;;
  when (bool_decide (is_Some v)) (bootstrapVoter (bs_OurVotes bs)) ;;;
  p <- slots_at 0 ;; store p (addAvailableBase Genesis) ;;;
  err <- replay_certificates sealed ;;
  match err with
  | Some err => ret (Some err)
  | None =>
      modify (fun e => e <| e_suppressCertBroadcast := false |>) ;;;
      drainPending ;;;
      for_each (bs_OurVotes bs) replay_vote ;;;
      v <- gets e_voter ;;
      when (bool_decide (is_Some v)) castStartupWindowSkips ;;;
      modify (fun e => e <| e_started := true |>) ;;;
      now <- clock_Now ;; d <- param p_StandstillTimeout ;;
      modify (fun e => e <| e_standstillAt := now + d |>) ;;;
      g <- gets e_cfg ;;
      weight <- deref (localWeight g) ;;
      trace (TraceSessionStarted (g_workchain g) (g_shard g) (g_ccSeqno g) (g_localIndex g)
               (Z.of_nat (nValidators g)) weight (g_totalWeight g) (g_spw g)) ;;;
      advancePresent ;;;
      drainPending ;;;
      f <- gets e_fatalErr ;;
      ret (match f with Some err => Some (StartFatal err) | None => None end)
  end.

(** [journal.Bootstrap()] answers [bs], [None] for an error. *)
Definition Start (bs : option BootstrapState) : M (option start_error) :=
  started <- gets e_started ;; stopped <- gets e_stopped ;;
  if (started : bool) then ret (Some StartAlreadyStarted) else
  if (stopped : bool) then ret (Some StartStopped) else
  match bs with
  | None => ret (Some StartBootstrap)
  | Some bs =>
      g <- gets e_cfg ;; b <- gets e_bootstrap ;;
      validated <-
        (if negb (VB_matches b (Some bs)) || negb (bool_decide (vb_binding b = binding g)) then
           r <- deref (ValidateBootstrap (sessionID g) (validators g) (Some bs)) ;;
           match r with
           | Err e => ret (Err e)
           | Ok vb => modify (fun e => e <| e_bootstrap := vb |>) ;;; ret (Ok vb)
           end
         else ret (Ok b)) ;;
      match validated with
      | Err e => ret (Some (StartValidate e))
      | Ok vb => bs <- deref (vb_state vb) ;; startFrom bs (vb_sealed vb)
      end
  end.

Definition Stop : M unit :=
  modify (fun e => e <| e_stopped := true |>) ;;;
  set_parentWaits [] ;;;
  modify (fun e => e <| e_drain := None |>) ;;;
  modify (fun e => e <| e_pending := [] |>) ;;;
  modify (fun e => e <| e_pendingVerify := [] |>).

Definition UpdateParams (p : Params) : M (option params_error) :=
  match Params_Validate p with
  | Some err => ret (Some err)
  | None => modify (fun e => e <| e_params := p |>) ;;; ret None
  end.

Definition statsAliased (e : Engine) : Stats :=
  let s := e_stats e <| st_Slot := pl_now (e_pool e) |> in
  let s := if par_Exists (pl_lastFinalized (e_pool e)) then
             s <| st_FinalizedSlot := cid_Slot (par_ID (pl_lastFinalized (e_pool e))) |>
               <| st_HasFinalized := true |>
           else s in
  match e_voter e with
  | Some v => s <| st_FirstBlockTimeout := vt_firstBlockTimeout v |>
  | None => s
  end.

(** ** Construction *)

Record EngineConfig := mkEngineConfig {
  ec_SessionID : bytes; ec_ProtocolVersion : Z; ec_Validators : list Validator; ec_LocalIndex : Z;
  ec_SlotsPerLeaderWindow : Z; ec_ShardPrefixLen : Z; ec_Workchain : Z; ec_Shard : Z; ec_CCSeqno : Z;
  ec_Params : option Params; ec_Schedule : option (Z -> Z); ec_Bootstrap : ValidatedBootstrap;
  ec_Tracer : bool; ec_hasSigner : bool; ec_hasServices : bool }.

Inductive config_error :=
| CfgEmpty | CfgVersion | CfgSlots | CfgPrefix | CfgLocalIndex | CfgSigner | CfgServices
| CfgWeight (e : roster_error) | CfgCerts (e : cert_error) | CfgParams (e : params_error)
| CfgProbeKey | CfgProbeSign | CfgProbeIdentity.

(** The payload panic of [None] is ruled out by the TL laws. *)
Definition probeSignerIdentity (publicKey session : bytes) : option (option config_error) :=
  if negb (length publicKey =? PublicKeySize)%nat then Some (Some CfgProbeKey) else
  payload ← vote_payload session (SkipVote (2 ^ 32 - 1));
  match env_Sign 0 payload with
  | None => Some (Some CfgProbeSign)
  | Some sig =>
      if negb (length sig =? SignatureSize)%nat || negb (ed25519_Verify publicKey payload sig)
      then Some (Some CfgProbeIdentity) else Some None
  end.

Definition roundRobin (spw n : Z) (slot : Z) : Z :=
  default 0 (RoundRobin_ExpectedLeader (mkRoundRobin spw n) slot).

Definition zeroBootstrap : ValidatedBootstrap := mkValidated None zeroBinding [].

(** The guards of [NewEngine] that come before the roster is read. *)
Definition check_config (c : EngineConfig) : option config_error :=
  if (length (ec_Validators c) =? 0)%nat then Some CfgEmpty
  else if 3 <? ec_ProtocolVersion c then Some CfgVersion
  else if ec_SlotsPerLeaderWindow c =? 0 then Some CfgSlots
  else if 60 <? ec_ShardPrefixLen c then Some CfgPrefix
  else if negb (ec_LocalIndex c =? ObserverIndex)
          && ((ec_LocalIndex c <? 0) || (Z.of_nat (length (ec_Validators c)) <=? ec_LocalIndex c))
       then Some CfgLocalIndex
  else if negb (ec_LocalIndex c =? ObserverIndex) && negb (ec_hasSigner c) then Some CfgSigner
  else if negb (ec_hasServices c) then Some CfgServices
  else None.

Definition buildEngine (c : EngineConfig) (total : Z) (certs : CertificateVerifier) (prm : Params) : Engine :=
  let n := Z.of_nat (length (ec_Validators c)) in
  let schedule := match ec_Schedule c with
                  | Some s => s
                  | None => roundRobin (ec_SlotsPerLeaderWindow c) (u32 n) end in
  mkEngine
    (mkConfig certs total (ec_LocalIndex c) (ec_SlotsPerLeaderWindow c) (ec_ShardPrefixLen c) (64 + n * 80)
       schedule (ec_Tracer c) (ec_Workchain c) (ec_Shard c) (ec_CCSeqno c))
    prm (ec_Bootstrap c) false false None
    (mkPool newSlotMap 0 0 Genesis None [] [])
    (if ec_LocalIndex c =? ObserverIndex then None else Some (newVoterState (p_FirstBlockTimeout prm)))
    true ∅ ∅ 0 None ∅ [] false [] ∅ zeroStats 1 [] [].

Definition NewEngine (c : EngineConfig) : option (result config_error Engine) :=
  match check_config c with
  | Some e => Some (Err e)
  | None =>
      match totalValidatorWeight (ec_Validators c) with
      | Err e => Some (Err (CfgWeight e))
      | Ok total =>
          match NewCertificateVerifier (ec_SessionID c) (ec_Validators c) with
          | Err e => Some (Err (CfgCerts e))
          | Ok certs =>
              probe ← (if ec_LocalIndex c =? ObserverIndex then Some None else
                       v ← ec_Validators c !! Z.to_nat (ec_LocalIndex c);
                       probeSignerIdentity (val_PublicKey v) (ec_SessionID c));
              match probe with
              | Some e => Some (Err e)
              | None =>
                  let prm := default DefaultParams (ec_Params c) in
                  match Params_Validate prm with
                  | Some e => Some (Err (CfgParams e))
                  | None => Some (Ok (buildEngine c total certs prm))
                  end
              end
          end
      end
  end.

(** ** Inputs of the loop

    Under [Runner] every input is one closure run on the engine goroutine.  A
    completion names an outstanding callback by its position; the wrapper of
    [journalDone] or [candidateDone] applies.  [Completed] is not a call of the
    engine: it records in the log what the environment answered. *)

Definition windowSaved (r : save_result) : M unit :=
  match r with Saved => ret tt | _ => fatal FatalPoolStateJournal end.

Definition runCallback (cb : Callback) (c : completion) : M unit :=
  match cb, c with
  | VoteSaved v, JournalCompletion r => completeAsync (voteSaved v r)
  | CertificateSaved vc, JournalCompletion r => completeAsync (finishCertificateSave vc r)
  | WindowSaved _, JournalCompletion r => completeAsync (windowSaved r)
  | StoreDone id, StoreCompletion ok => run (completeStore id ok)
  | ValidationDone id, ValidationCompletion vd => run (completeValidation id vd)
  | _, _ => ret tt
  end.

Inductive input :=
| InMessage (src : bytes) (srcValidator : Z) (data : bytes)
| InMessageBatched (src : bytes) (srcValidator : Z) (data : bytes)
| InFlush
| InCandidate (c : Candidate)
| InPrecheck (slot : Z) (broadcastID : bytes) (signatureChecked : bool)
| InAdvance
| InCompletion (k : nat) (c : completion)
| InParams (p : Params)
| InStop.

Definition handle (i : input) : M unit :=
  match i with
  | InMessage src idx data => HandleMessage src idx data
  | InMessageBatched src idx data => handleMessageBatched src idx data
  | InFlush => FlushVerify
  | InCandidate c => _ <- SubmitCandidate c ;; ret tt
  | InPrecheck slot id checked => _ <- PrecheckCandidateBroadcast slot id checked ;; ret tt
  | InAdvance => Advance
  | InCompletion k c =>
      cbs <- gets e_callbacks ;;
      match cbs !! k with
      | None => ret tt
      | Some cb =>
          modify (fun e => e <| e_callbacks := delete k (e_callbacks e) |>) ;;;
          emit (Completed cb c) ;;; runCallback cb c
      end
  | InParams p => _ <- UpdateParams p ;; ret tt
  | InStop => Stop
  end.

(** Inputs are Go values: bytes, 32-bit slots, 32-byte hashes. *)
Definition typed_input (i : input) : Prop :=
  match i with
  | InMessage _ _ data | InMessageBatched _ _ data => Forall is_byte data
  | InCandidate c => typed_candidate c /\ wf_id (c_ID c)
  | _ => True
  end.
#[export] Instance typed_input_dec i : Decision (typed_input i).
Proof.
  destruct i; unfold typed_input, typed_candidate, wf_id, wf_hash, is_byte, is_u32, is_i32, is_i64; apply _.
Defined.

(** Reachable states: a started engine fed any sequence of inputs.  [Run] gives
    up when [Start] fails. *)
Inductive reachable (c : EngineConfig) (bs : BootstrapState) : Engine -> Prop :=
| reach_start e0 e :
    NewEngine c = Some (Ok e0) -> Start (Some bs) e0 = Some (None, e) -> reachable c bs e
| reach_step e i u e' :
    reachable c bs e -> typed_input i -> handle i e = Some (u, e') -> reachable c bs e'.
End Engine.
