(* ===== verification/SimplexFrame.v ===== *)
(** * What the handlers leave alone

    Most handlers of the engine neither touch the voter's slots nor issue, sign
    or complete a vote.  [still] says so of a pair of states; the lemmas of this
    file establish it handler by handler.  [voter_invariant] lists what is left
    to prove for an invariant of the voting state, and [reachable_invariant]
    turns that into an invariant of every reachable state. *)

From S2P Require Import Prelude.
From S2P Require Import SimplexTypes.
From S2P Require Import SimplexSlots.
From S2P Require Import SimplexWire.
From S2P Require Import SimplexFanOut.
From S2P Require Import SimplexCert.
From S2P Require Import SimplexCandidate.
From S2P Require Import SimplexPool.
From S2P Require Import Float64.
From S2P Require Import SimplexState.
From S2P Require Import SimplexEngine.

#[local] Open Scope Z_scope.
#[local] Open Scope go_scope.

Definition vslots (e : Engine) : option (slotMap voterSlot) := vt_slots <$> e_voter e.

(** The slots of the last announced leader window, which a restart skips. *)
Definition startup_window (e : Engine) : list Z :=
  let fna := pl_firstNonAnnouncedWindow (e_pool e) in
  if fna =? 0 then []
  else range (fna *₃₂ g_spw (e_cfg e) -₃₂ g_spw (e_cfg e)) (fna *₃₂ g_spw (e_cfg e)).

(** Effects that carry no vote of ours. *)
Definition quiet (ev : Effect) : bool :=
  match ev with SaveOurVote _ | Signed _ _ | Completed (VoteSaved _) _ => false | _ => true end.

(** The handler neither touched the voter's slots nor cast or signed a vote, and
    did not start the engine. *)
Record calm (e e' : Engine) : Prop := {
  cm_vslots : vslots e' = vslots e;
  cm_log : exists new, e_log e' = new ++ e_log e /\ forall ev, ev ∈ new -> quiet ev = true;
  cm_cfg : e_cfg e' = e_cfg e;
  cm_started : e_started e' = e_started e;
  cm_callbacks : forall v, VoteSaved v ∈ e_callbacks e' -> VoteSaved v ∈ e_callbacks e;
  cm_failed : failed e = true -> failed e' = true }.

(** Nor did it announce a window before the engine started. *)
Definition still (e e' : Engine) : Prop :=
  calm e e' /\ (e_started e = false -> startup_window e' = startup_window e).

#[export] Instance calm_refl : Reflexive calm.
Proof. intros e. constructor; try done. exists []. split; [done|]. by intros ev ?%elem_of_nil. Qed.
#[export] Instance calm_trans : Transitive calm.
Proof.
  intros a b c [V1 [n1 [L1 Q1]] G1 S1 C1 F1] [V2 [n2 [L2 Q2]] G2 S2 C2 F2].
  constructor; [congruence| |congruence|congruence|auto|auto].
  exists (n2 ++ n1). rewrite L2, L1, app_assoc. split; [done|]. intros ev [?|?]%elem_of_app; auto.
Qed.
#[export] Instance still_refl : Reflexive still.
Proof. by intros e. Qed.
#[export] Instance still_trans : Transitive still.
Proof.
  intros a b c [Hab Hw] [Hbc Hw']. split; [by etrans|]. intros Hs. rewrite Hw', Hw; [done|done|].
  destruct Hab. congruence.
Qed.

(** Decomposes a handler into its primitive steps. *)
Ltac keeps_step :=
  match goal with
  | |- forall _, _ => intros
  | |- keeps _ (ret _) => apply keeps_ret; apply _
  | |- keeps _ (gets _) => apply keeps_gets; apply _
  | |- keeps _ (cfg _) => apply keeps_gets; apply _
  | |- keeps _ (pool _) => apply keeps_gets; apply _
  | |- keeps _ (param _) => apply keeps_gets; apply _
  | |- keeps _ panic => apply keeps_panic
  | |- keeps _ (deref _) => apply keeps_deref; apply _
  | |- keeps _ (when _ _) => apply keeps_when; [apply _|]
  | |- keeps _ (for_each _ _) => apply keeps_for_each; [apply _|apply _|intros]
  | |- keeps _ (bind _ _) => apply keeps_bind; [apply _| |intros]
  | |- keeps _ (match ?x with _ => _ end) => destruct x
  | |- keeps _ (if ?x then _ else _) => destruct x
  | |- keeps _ (let _ := _ in _) => cbv zeta
  end.
Ltac keeps_auto := repeat first [solve [eauto 3 with voting nocore] | keeps_step].

Create HintDb voting discriminated.

(** ** Primitive steps *)

Section Primitives.
Context `{TLRuntime} `{Ed25519} `{Machine} `{Environment}.

Lemma calm_core e e' :
  vslots e' = vslots e -> e_log e' = e_log e -> e_cfg e' = e_cfg e -> e_started e' = e_started e ->
  e_callbacks e' = e_callbacks e -> failed e' = failed e -> calm e e'.
Proof.
  intros Hv Hl Hg Hs Hc Hf. constructor; rewrite ?Hl, ?Hc, ?Hf; auto.
  exists []. split; [done|]. by intros ev ?%elem_of_nil.
Qed.

Lemma still_core e e' :
  vslots e' = vslots e -> e_log e' = e_log e -> e_cfg e' = e_cfg e -> e_started e' = e_started e ->
  e_callbacks e' = e_callbacks e -> failed e' = failed e -> startup_window e' = startup_window e -> still e e'.
Proof. intros. split; [by apply calm_core|done]. Qed.

Lemma still_modify (f : Engine -> Engine) :
  (forall e, vslots (f e) = vslots e /\ e_log (f e) = e_log e /\ e_cfg (f e) = e_cfg e /\
     e_started (f e) = e_started e /\ e_callbacks (f e) = e_callbacks e /\ failed (f e) = failed e /\
     startup_window (f e) = startup_window e) -> keeps still (modify f).
Proof. intros Hf. apply keeps_modify. intros e. destruct (Hf e) as (? & ? & ? & ? & ? & ? & ?). by apply still_core. Qed.

Lemma still_emit ev : quiet ev = true -> keeps still (emit ev).
Proof.
  intros Hev. apply keeps_modify. intros e. split; [|done]. constructor; try done.
  exists [ev]. split; [done|]. by intros ? ->%list_elem_of_singleton.
Qed.

Lemma still_register cb : (forall v, cb <> VoteSaved v) -> keeps still (register cb).
Proof.
  intros Hcb. apply keeps_modify. intros e. split; [|done]. constructor; try done.
  - exists []. split; [done|]. by intros ev ?%elem_of_nil.
  - simpl. intros v [?|Hv%list_elem_of_singleton]%elem_of_app; [done|]. by destruct (Hcb v).
Qed.

Lemma still_complete k : keeps still (modify (fun e => e <| e_callbacks := delete k (e_callbacks e) |>)).
Proof.
  apply keeps_modify. intros e. split; [|done]. constructor; try done.
  - exists []. split; [done|]. by intros ev ?%elem_of_nil.
  - simpl. intros v Hv. by eapply list_elem_of_delete_inv.
Qed.

Lemma still_clock : keeps still clock_Now.
Proof. intros e a e' [= <- <-]. by apply still_core. Qed.
Lemma still_sign p : keeps still (signer_Sign p).
Proof. intros e a e' [= <- <-]. by apply still_core. Qed.
Lemma still_slots_at i : keeps still (slots_at i).
Proof. intros e a e' [= <- <-]. by apply still_core. Qed.

Lemma still_modify_voter f : (forall v, vt_slots (f v) = vt_slots v) -> keeps still (modify_voter f).
Proof.
  intros Hf e a e'. unfold modify_voter, voter, bind, gets, deref.
  destruct (e_voter e) as [v|] eqn:E; [|done]. intros [= <- <-]. apply still_core; try done.
  unfold vslots. simpl. rewrite E. simpl. by rewrite Hf.
Qed.

Lemma still_modify_pool f :
  (forall pl, pl_firstNonAnnouncedWindow (f pl) = pl_firstNonAnnouncedWindow pl) -> keeps still (modify_pool f).
Proof.
  intros Hf. apply still_modify. intros e. split_and!; try done. unfold startup_window. simpl. by rewrite Hf.
Qed.
Lemma still_modify_stats f : keeps still (modify_stats f).
Proof. by apply still_modify. Qed.
Lemma still_enqueue t : keeps still (enqueue t).
Proof. by apply still_modify. Qed.

Lemma still_set_fatal err : keeps still (modify (fun e => e <| e_fatalErr := Some err |>)).
Proof.
  apply keeps_modify. intros e. split; [|done]. constructor; try done.
  exists []. split; [done|]. by intros ev ?%elem_of_nil.
Qed.
Lemma still_set_stopped : keeps still (modify (fun e => e <| e_stopped := true |>)).
Proof.
  apply keeps_modify. intros e. split; [|done]. constructor; try done.
  - exists []. split; [done|]. by intros ev ?%elem_of_nil.
  - unfold failed. simpl. by rewrite orb_true_r.
Qed.
End Primitives.

#[export] Hint Resolve still_clock still_sign still_slots_at still_modify_stats still_enqueue still_complete
  still_set_fatal still_set_stopped : voting.
#[export] Hint Extern 1 (keeps still (modify _)) => apply still_modify; by intros : voting.
#[export] Hint Extern 1 (keeps still (emit _)) => by apply still_emit : voting.
#[export] Hint Extern 1 (keeps still (register _)) => by apply still_register : voting.
#[export] Hint Extern 1 (keeps still (modify_voter _)) => apply still_modify_voter; by intros : voting.
#[export] Hint Extern 1 (keeps still (modify_pool _)) => apply still_modify_pool; by intros : voting.

(** ** Handlers that leave the voter alone *)

Section Still.
Context `{TLRuntime} `{Ed25519} `{Machine} `{Environment}.

Lemma still_load p : keeps still (load p).
Proof. unfold load. keeps_auto. Qed.
Lemma still_store p f : keeps still (store p f).
Proof. unfold store, load. keeps_auto. Qed.
Lemma still_firstNonFin : keeps still firstNonFin.
Proof. unfold firstNonFin. keeps_auto. Qed.
Lemma still_voter : keeps still voter.
Proof. unfold voter. keeps_auto. Qed.
Lemma still_fatal err : keeps still (fatal err).
Proof. unfold fatal. keeps_auto. Qed.
Lemma still_trace ev : keeps still (trace ev).
Proof. unfold trace. keeps_auto. Qed.
Lemma still_misbehavior i m : keeps still (reportMisbehavior i m).
Proof. unfold reportMisbehavior. keeps_auto. Qed.
#[local] Hint Resolve still_load still_store still_firstNonFin still_voter still_fatal still_trace
  still_misbehavior : voting.

Lemma still_votePayload v : keeps still (votePayload v).
Proof. unfold votePayload. keeps_auto. Qed.
Lemma still_ban p : keeps still (ban p).
Proof. unfold ban. keeps_auto. Qed.
Lemma still_isBanned p : keeps still (isBanned p).
Proof. unfold isBanned. keeps_auto. Qed.
Lemma still_noteOwnCandidate id : keeps still (noteOwnCandidate id).
Proof. unfold noteOwnCandidate. keeps_auto. Qed.
Lemma still_noteOwnCandidateVote i v : keeps still (noteOwnCandidateVote i v).
Proof. unfold noteOwnCandidateVote. keeps_auto. Qed.
Lemma still_reportOwn c : keeps still (reportOwnCandidateNotarized c).
Proof. unfold reportOwnCandidateNotarized. keeps_auto. Qed.
#[local] Hint Resolve still_votePayload still_ban still_isBanned still_noteOwnCandidate
  still_noteOwnCandidateVote still_reportOwn : voting.

Lemma still_conflictingCandidateAndCert c o : keeps still (conflictingCandidateAndCert c o).
Proof. unfold conflictingCandidateAndCert. keeps_auto. Qed.
#[local] Hint Resolve still_conflictingCandidateAndCert : voting.
Lemma still_evaluateSkips id n : keeps still (evaluateSkips id n).
Proof. unfold evaluateSkips. keeps_auto. Qed.
#[local] Hint Resolve still_evaluateSkips : voting.
Lemma still_evaluateParentWait c : keeps still (evaluateParentWait c).
Proof. unfold evaluateParentWait. keeps_auto. Qed.
Lemma still_set_parentWaits l : keeps still (set_parentWaits l).
Proof. unfold set_parentWaits. keeps_auto. Qed.
#[local] Hint Resolve still_evaluateParentWait still_set_parentWaits : voting.
Lemma still_registerParentWait c : keeps still (registerParentWait c).
Proof. unfold registerParentWait. keeps_auto. Qed.
Lemma still_resolve_loop fuel i : keeps still (resolve_loop fuel i).
Proof. revert i. induction fuel as [|fuel IH]; intros i; cbn [resolve_loop]; keeps_auto; apply IH. Qed.
#[local] Hint Resolve still_registerParentWait still_resolve_loop : voting.
Lemma still_resolveParentWaits : keeps still resolveParentWaits.
Proof. unfold resolveParentWaits. keeps_auto. Qed.

Lemma still_nextNonSkipped i : keeps still (nextNonSkippedSlotAfter i).
Proof. unfold nextNonSkippedSlotAfter. keeps_auto. Qed.
Lemma still_voterWindowObserved s : keeps still (voterWindowObserved s).
Proof. unfold voterWindowObserved. keeps_auto. Qed.
#[local] Hint Resolve still_resolveParentWaits still_nextNonSkipped still_voterWindowObserved : voting.
Lemma still_windowObserved s b : keeps still (windowObserved s b).
Proof. unfold windowObserved. keeps_auto. Qed.
Lemma still_present_loop fuel : keeps still (present_loop fuel).
Proof. induction fuel as [|fuel IH]; cbn [present_loop]; keeps_auto; apply IH. Qed.
#[local] Hint Resolve still_windowObserved still_present_loop : voting.
Lemma still_calm {A} (m : M A) : keeps still m -> keeps calm m.
Proof. intros Hm e a e' E. by destruct (Hm _ _ _ E). Qed.
Lemma calm_announceWindow : keeps calm announceWindow.
Proof.
  unfold announceWindow.
  repeat first [ solve [apply still_calm; keeps_auto] | apply keeps_modify; intros; by apply calm_core | keeps_step ].
Qed.
Lemma still_advancePresent : keeps still advancePresent.
Proof.
  assert (keeps calm advancePresent) as Hc.
  { unfold advancePresent.
    repeat first [ solve [apply still_calm; keeps_auto] | apply calm_announceWindow | keeps_step ]. }
  intros e u e' Hr. split; [by eapply Hc|]. intros Hs. unfold advancePresent in Hr.
  apply bind_inv in Hr as (started & e1 & E1 & Hr). run_inv. rewrite Hs in Hr. simpl in Hr. by run_inv.
Qed.
#[local] Hint Resolve still_advancePresent : voting.
Lemma still_onNotarCertificate vc : keeps still (onNotarCertificate vc).
Proof. unfold onNotarCertificate. keeps_auto. Qed.
Lemma still_onSkipCertificate s c : keeps still (onSkipCertificate s c).
Proof. unfold onSkipCertificate. keeps_auto. Qed.
Lemma still_onFinalCertificate s vc : keeps still (onFinalCertificate s vc).
Proof. unfold onFinalCertificate. keeps_auto. Qed.
Lemma still_count_certificate c : keeps still (count_certificate c).
Proof. unfold count_certificate, note_signer. keeps_auto. Qed.
#[local] Hint Resolve still_onNotarCertificate still_onSkipCertificate still_onFinalCertificate
  still_count_certificate : voting.
Lemma still_storeSavedCertificate s vc : keeps still (storeSavedCertificate s vc).
Proof. unfold storeSavedCertificate. keeps_auto. Qed.
Lemma still_slot_add s i p : keeps still (slot_add s i p).
Proof. unfold slot_add. keeps_auto. Qed.
#[local] Hint Resolve still_storeSavedCertificate still_slot_add : voting.
Lemma still_finishCertificateSave vc r : keeps still (finishCertificateSave vc r).
Proof. unfold finishCertificateSave. keeps_auto. Qed.
Lemma still_handleCertificate vc : keeps still (handleCertificate vc).
Proof. unfold handleCertificate. keeps_auto. Qed.
#[local] Hint Resolve still_finishCertificateSave still_handleCertificate : voting.
Lemma still_onVoteApplied i v s : keeps still (onVoteApplied i v s).
Proof. unfold onVoteApplied, buildCertificate, seal. keeps_auto. Qed.
#[local] Hint Resolve still_onVoteApplied : voting.
Lemma still_applyVote i v sig t : keeps still (applyVote i v sig t).
Proof. unfold applyVote. keeps_auto. Qed.
#[local] Hint Resolve still_applyVote : voting.
Lemma still_drain_loop fuel rate now d : keeps still (drain_loop fuel rate now d).
Proof. revert d. induction fuel as [|fuel IH]; intros d; cbn [drain_loop]; keeps_auto; apply IH. Qed.
#[local] Hint Resolve still_drain_loop : voting.
Lemma still_stepDrain now : keeps still (stepDrain now).
Proof. unfold stepDrain. keeps_auto. Qed.
#[local] Hint Resolve still_stepDrain : voting.
Lemma still_startDrain now : keeps still (startDrain now).
Proof.
  unfold startDrain. apply keeps_bind; [apply _| |intros; keeps_auto].
  intros e a e'. destruct (buildStandstillMessages e); [|done]. by intros [= <- <-].
Qed.
#[local] Hint Resolve still_startDrain : voting.
Lemma still_fireStandstill now : keeps still (fireStandstill now).
Proof. unfold fireStandstill. keeps_auto. Qed.

Lemma still_verifyCertificate c : keeps still (verifyCertificate c).
Proof. unfold verifyCertificate. keeps_auto. Qed.
#[local] Hint Resolve still_verifyCertificate : voting.
Lemma still_handleMessage src i data : keeps still (handleMessage src i data).
Proof.
  unfold handleMessage, handleVoteMessage, handleCertificateMessage, drop_message, firstTooNewSlot,
    slot_wants, slot_needs. keeps_auto.
Qed.
Lemma still_flushVerify : keeps still flushVerify.
Proof. unfold flushVerify, flush_vote, firstTooNewSlot, slot_wants. keeps_auto. Qed.
Lemma still_callHook h : keeps still (callHook h).
Proof. unfold callHook. keeps_auto. Qed.
Lemma still_precheck s b c : keeps still (PrecheckCandidateBroadcast s b c).
Proof. unfold PrecheckCandidateBroadcast. keeps_auto. Qed.
End Still.

#[export] Hint Resolve still_load still_store still_firstNonFin still_voter still_fatal still_trace still_misbehavior
  still_noteOwnCandidate still_set_parentWaits still_registerParentWait still_advancePresent
  still_storeSavedCertificate still_finishCertificateSave still_applyVote still_votePayload still_stepDrain
  still_fireStandstill still_handleMessage still_flushVerify still_callHook still_precheck : voting.

(** ** The startup window *)

(** The handler neither starts the engine nor moves the startup window before. *)
Definition same_start (e e' : Engine) : Prop :=
  e_started e' = e_started e /\ (e_started e = false -> startup_window e' = startup_window e).

#[export] Instance same_start_refl : Reflexive same_start.
Proof. by intros e. Qed.
#[export] Instance same_start_trans : Transitive same_start.
Proof.
  intros a b c [H1 H2] [H3 H4]. split; [by etrans|]. intros Hs. rewrite H4, H2; [done|done|congruence].
Qed.

Section SameStart.
Context `{TLRuntime} `{Ed25519} `{Machine} `{Environment}.

Lemma still_same {A} (m : M A) : keeps still m -> keeps same_start m.
Proof. intros Hm e a e' E. destruct (Hm _ _ _ E) as [[] ?]. done. Qed.

Lemma same_modify (f : Engine -> Engine) : (forall e, same_start e (f e)) -> keeps same_start (modify f).
Proof. apply keeps_modify. Qed.

Lemma same_modify_voter f : keeps same_start (modify_voter f).
Proof. unfold modify_voter. keeps_step; [apply still_same; keeps_auto|]. by apply same_modify. Qed.

Ltac same_auto :=
  repeat first [ solve [apply still_same; keeps_auto] | apply same_modify; by intros | apply same_modify_voter
    | solve [eauto 3 with voting nocore] | keeps_step ].

Lemma same_vslots_at i : keeps same_start (vslots_at i).
Proof. unfold vslots_at. same_auto. Qed.
Lemma same_vload p : keeps same_start (vload p).
Proof. unfold vload. same_auto. Qed.
Lemma same_vstore p f : keeps same_start (vstore p f).
Proof. unfold vstore, vload. same_auto. Qed.
Lemma same_emit ev : keeps same_start (emit ev).
Proof. by apply same_modify. Qed.
Lemma same_register cb : keeps same_start (register cb).
Proof. by apply same_modify. Qed.
#[local] Hint Resolve same_emit same_register : voting.
Lemma same_finishVoteCast v r : keeps same_start (finishVoteCast v r).
Proof. unfold finishVoteCast. same_auto. Qed.
#[local] Hint Resolve same_finishVoteCast : voting.
Lemma same_castVote v r : keeps same_start (castVote v r).
Proof. unfold castVote. same_auto. Qed.
#[local] Hint Resolve same_vslots_at same_vload same_vstore same_castVote : voting.

Lemma same_tryVoteFinal p : keeps same_start (tryVoteFinal p).
Proof. unfold tryVoteFinal. same_auto. Qed.
#[local] Hint Resolve same_tryVoteFinal : voting.

Lemma same_runTask t : keeps same_start (runTask t).
Proof.
  destruct t; cbn [runTask]; unfold voterNotarizationObserved, voterFinalizationObserved, onParentWaitDone;
    same_auto.
Qed.
#[local] Hint Resolve same_runTask : voting.

Lemma same_drain_loop fuel : keeps same_start (drain_pending_loop fuel).
Proof. induction fuel as [|fuel IH]; cbn [drain_pending_loop]; same_auto; apply IH. Qed.
#[local] Hint Resolve same_drain_loop : voting.
Lemma same_drainPending : keeps same_start drainPending.
Proof. unfold drainPending. same_auto. Qed.
Lemma same_bootstrap_loop B : keeps same_start (for_each B bootstrap_vote).
Proof. unfold bootstrap_vote. same_auto. Qed.
#[local] Hint Resolve same_bootstrap_loop : voting.
Lemma same_bootstrapVoter B : keeps same_start (bootstrapVoter B).
Proof. unfold bootstrapVoter. same_auto. Qed.
End SameStart.

(** ** Invariants of the voting state *)

(** What [Start] runs before it replays certificates. *)
Definition recovery `{TLRuntime} `{Ed25519} `{Machine} `{Environment} (bs : BootstrapState) : M unit :=
  modify_pool (fun pl => pl <| pl_firstNonAnnouncedWindow := bs_FirstNonAnnouncedWindow bs |>) ;;;
  v <- gets e_voter ;; when (bool_decide (is_Some v)) (bootstrapVoter (bs_OurVotes bs)).

(** A freshly built engine. *)
Record fresh (e : Engine) : Prop := {
  fr_log : e_log e = [];
  fr_callbacks : e_callbacks e = [];
  fr_started : e_started e = false;
  fr_vslots : vslots e = None \/ vslots e = Some newSlotMap }.

Lemma ValidateBootstrap_votes `{TLRuntime} `{Ed25519} `{Machine} sid vs bs vb bs' :
  ValidateBootstrap sid vs (Some bs) = Some (Ok vb) -> vb_state vb = Some bs' -> bs_OurVotes bs' = bs_OurVotes bs.
Proof.
  unfold ValidateBootstrap. destruct (_ =? _)%nat.
  { destruct (NewCertificateBinding sid vs); intros E Hvb; simplify_eq; simpl in *; by simplify_eq. }
  destruct (NewCertificateVerifier sid vs); [|done]. intros (r & _ & E)%bind_Some Hvb.
  destruct r; [|done]. simpl in E. simplify_eq. simpl in Hvb. by simplify_eq.
Qed.

Lemma VB_matches_votes b bs bs' :
  VB_matches b (Some bs) = true -> vb_state b = Some bs' -> bs_OurVotes bs' = bs_OurVotes bs.
Proof.
  unfold VB_matches. intros Hm Hb. rewrite Hb in Hm. destruct (_ || _) eqn:Eb; [done|].
  apply orb_false_iff in Eb as [[_ Ev%negb_false_iff]%orb_false_iff _]. by apply bool_decide_eq_true in Ev.
Qed.

Section Bootstrapping.
Context `{TLRuntime} `{Ed25519} `{Machine} `{Environment}.

Lemma NewEngine_fresh c e : NewEngine c = Some (Ok e) -> fresh e.
Proof.
  unfold NewEngine. intros Hr. destruct (check_config c); [done|].
  destruct (totalValidatorWeight _); [|done]. destruct (NewCertificateVerifier _ _); [|done].
  apply bind_Some in Hr as (probe & _ & Hr). destruct probe; [done|]. destruct (Params_Validate _); [done|].
  injection Hr as <-. constructor; [done..|]. unfold vslots, buildEngine. simpl. case_match; auto.
Qed.

(** The votes [Start] recovers are the journal's. *)
Lemma Start_bootstrap bs e e' :
  Start (Some bs) e = Some (None, e') ->
  exists bs' sealed e1, bs_OurVotes bs' = bs_OurVotes bs /\ startFrom bs' sealed e1 = Some (None, e') /\
    (fresh e -> fresh e1).
Proof.
  unfold Start. intros (st & e1 & [= <- <-] & Hr)%bind_inv. apply bind_inv in Hr as (sp & e1 & [= <- <-] & Hr).
  destruct (e_started e); [by run_inv|]. destruct (e_stopped e); [by run_inv|].
  apply bind_inv in Hr as (g & e1 & [= <- <-] & Hr). apply bind_inv in Hr as (b & e1 & [= <- <-] & Hr).
  apply bind_inv in Hr as (r & e1 & E1 & Hr). destruct r as [vb|]; [|by run_inv].
  apply bind_inv in Hr as (bs' & e2 & E2 & Hr). apply deref_inv in E2 as [Hvb ->].
  exists bs', (vb_sealed vb), e1. destruct (_ || _) eqn:Eb.
  - apply bind_inv in E1 as (rv & e2 & E2 & E1). apply deref_inv in E2 as [Hval ->].
    destruct rv as [vb'|]; [|by run_inv]. apply bind_inv in E1 as (u & e2 & [= <- <-] & E1).
    injection E1 as <- <-. split; [|split; [done|by intros []]].
    by eapply ValidateBootstrap_votes.
  - apply orb_false_iff in Eb as [Hm%negb_false_iff _]. injection E1 as <- <-. split; [|split; [done|done]].
    by eapply VB_matches_votes.
Qed.

End Bootstrapping.

Section Principle.
Context `{TLRuntime} `{Ed25519} `{Machine} `{Environment}.
Context (B : list Vote) (I : list Z -> Engine -> Prop) (D : Vote -> Engine -> Prop).

Definition preserves {A} (P : Engine -> Prop) (m : M A) : Prop := ptriple P m (fun _ => P).

(** Between recovery and the end of [Start]; [W] are the slots recovery skipped. *)
Definition starting (W : list Z) (e : Engine) : Prop :=
  I W e /\ e_started e = false /\ startup_window e = W.

(** What the handlers do to [I], short of answered saves. *)
Record voter_step : Prop := {
  vs_still : forall W e e', still e e' -> I W e -> I W e';
  vs_notarized : forall W id, preserves (I W) (voterNotarizationObserved id);
  vs_finalized : forall W id, preserves (I W) (voterFinalizationObserved id);
  vs_parentWait : forall W c out, preserves (I W) (onParentWaitDone c out);
  vs_alarm : forall W, preserves (I W) fireVoterAlarm;
  vs_accept : forall W c, preserves (I W) (acceptCandidate c);
  vs_validation : forall W id vd, preserves (I W) (completeValidation id vd);
  vs_store : forall W id ok, preserves (I W) (completeStore id ok) }.

(** [B] are the votes of the journal: [Start] establishes [I]. *)
Record voter_start : Prop := {
  vst_step : voter_step;
  vst_recovery : forall bs e u e', bs_OurVotes bs = B -> fresh e -> recovery bs e = Some (u, e') ->
    I (startup_window e') e';
  vst_replay : forall W v, v ∈ B -> preserves (I W) (castVote v true);
  vst_skips : forall W, ptriple (starting W) castStartupWindowSkips (fun _ => I W);
  vst_started : forall W, preserves (I W) (modify (fun e => e <| e_started := true |>)) }.

(** [D v] holds of the states where the save of [v] was answered with success. *)
Record voter_invariant : Prop := {
  vi_start : voter_start;
  vi_completed : forall W k v c,
    ptriple (fun e => I W e /\ e_callbacks e !! k = Some (VoteSaved v))
      (modify (fun e => e <| e_callbacks := delete k (e_callbacks e) |>) ;;; emit (Completed (VoteSaved v) c))
      (fun _ e => I W e /\ (c = JournalCompletion Saved -> D v e));
  vi_cast : forall W v, ptriple (fun e => I W e /\ D v e) (finishVoteCast v false) (fun _ => I W) }.

Section Steps.
Hypothesis Hvs : voter_step.

Lemma preserves_bind {A C} (P : Engine -> Prop) (m : M A) (k : A -> M C) :
  preserves P m -> (forall a, preserves P (k a)) -> preserves P (bind m k).
Proof. intros. by eapply ptriple_bind. Qed.

Lemma preserves_still {A} W (m : M A) : keeps still m -> preserves (I W) m.
Proof. intros Hm e a e' HI E. eapply (vs_still Hvs); [by eapply Hm|done]. Qed.

Ltac pres :=
  repeat first
    [ solve [apply preserves_still; keeps_auto]
    | match goal with |- preserves _ (bind _ _) => apply preserves_bind; [|intros] end ].

Lemma pres_runTask W t : preserves (I W) (runTask t).
Proof. destruct t; simpl; [apply preserves_still; keeps_auto|apply Hvs..]. Qed.

Lemma pres_drain_loop W fuel : preserves (I W) (drain_pending_loop fuel).
Proof.
  induction fuel as [|fuel IH]; cbn [drain_pending_loop];
    (apply preserves_bind; [apply preserves_still; keeps_auto|intros [|t rest]]); pres.
  - apply pres_runTask.
  - apply IH.
Qed.

Lemma pres_drainPending W : preserves (I W) drainPending.
Proof.
  unfold drainPending. apply preserves_bind; [pres|intros []]; [pres|]. pres. apply pres_drain_loop.
Qed.

Lemma pres_run W m : preserves (I W) m -> preserves (I W) (run m).
Proof. intros Hm. unfold run. pres. case_match; pres; [done|apply pres_drainPending]. Qed.

Lemma pres_completeAsync W (P : Engine -> Prop) m :
  ptriple P m (fun _ => I W) -> (forall e, P e -> I W e) -> ptriple P (completeAsync m) (fun _ => I W).
Proof.
  intros Hm HP e a e' He Hr. unfold completeAsync in Hr. apply bind_inv in Hr as (f & e1 & [= <- <-] & Hr).
  destruct (failed e); [run_inv; auto|]. apply bind_inv in Hr as (u & e1 & E1 & Hr).
  eapply pres_drainPending; [|exact Hr]. by eapply Hm.
Qed.

Lemma pres_advance_timers W : preserves (I W) advance_timers.
Proof. unfold advance_timers. pres. unfold when. case_match; [apply (vs_alarm Hvs)|pres]. Qed.

Lemma pres_SubmitCandidate W c : preserves (I W) (SubmitCandidate c).
Proof.
  unfold SubmitCandidate. pres. case_match; [pres|].
  apply preserves_bind; [pres|intros [v|]]; [|pres]. pres. case_match; pres. apply pres_run, Hvs.
Qed.

Lemma pres_other_callback W cb c : (forall v, cb <> VoteSaved v) -> preserves (I W) (runCallback cb c).
Proof.
  intros Hcb. destruct cb, c; simpl; try solve [pres | by edestruct Hcb].
  - apply pres_completeAsync; [pres|done].
  - apply pres_completeAsync; [unfold windowSaved; pres|done].
  - apply pres_run, Hvs.
  - apply pres_run, Hvs.
Qed.

(** An input that is not an answer to a callback. *)
Lemma pres_input W i : (forall k c, i <> InCompletion k c) -> preserves (I W) (handle i).
Proof.
  intros Hi. destruct i; cbn [handle].
  - apply pres_run. pres.
  - apply pres_run. pres.
  - unfold FlushVerify. pres. case_match; pres. case_match; pres. apply pres_run. pres.
  - pres. apply pres_SubmitCandidate.
  - pres.
  - apply pres_run, pres_advance_timers.
  - by destruct (Hi k c).
  - unfold UpdateParams. pres.
  - unfold Stop. pres.
Qed.
End Steps.

Section Starts.
Hypothesis Hvst : voter_start.
Let Hvs : voter_step := vst_step Hvst.

Lemma starting_still {A} W (m : M A) : keeps still m -> preserves (starting W) m.
Proof.
  intros Hm e a e' (HI & Hs & Hw) E. pose proof (Hm _ _ _ E) as Hst. split; [by eapply (vs_still Hvs)|].
  destruct Hst as [[] Hw']. rewrite Hw' by done. split; congruence.
Qed.

Lemma starting_preserves {A} W (m : M A) : preserves (I W) m -> keeps same_start m -> preserves (starting W) m.
Proof.
  intros Hm Hk e a e' (HI & Hs & Hw) E. split; [by eapply Hm|].
  destruct (Hk _ _ _ E) as (Hs' & Hw'). rewrite Hs', Hw'; auto.
Qed.

Lemma still_replay_certificates l : keeps still (replay_certificates l).
Proof. induction l as [|vc l IH]; cbn [replay_certificates]; keeps_auto; apply IH. Qed.

Lemma starting_replay_vote W v : v ∈ B -> preserves (starting W) (replay_vote v).
Proof.
  intros Hv. unfold replay_vote. apply preserves_bind; [apply starting_still; keeps_auto|intros first].
  case_match; [apply starting_still; keeps_auto|].
  apply starting_preserves; [by apply (vst_replay Hvst)|apply same_castVote].
Qed.

Lemma startFrom_invariant bs sealed e u e' :
  bs_OurVotes bs = B -> fresh e -> startFrom bs sealed e = Some (u, e') -> exists W, I W e'.
Proof.
  intros HB Hfr Hr. unfold startFrom in Hr.
  apply bind_inv in Hr as (u1 & e1 & E1 & Hr). apply bind_inv in Hr as (v & e2 & E2 & Hr).
  apply bind_inv in Hr as (u3 & e3 & E3 & Hr).
  assert (recovery bs e = Some (u3, e3)) as Hrec.
  { unfold recovery, bind at 1. rewrite E1. unfold bind at 1. by rewrite E2. }
  assert (starting (startup_window e3) e3) as Hst.
  { split; [by eapply (vst_recovery Hvst)|]. split; [|done]. rewrite <- (fr_started _ Hfr).
    injection E1 as <- <-. injection E2 as <- <-. unfold when in E3. case_match; [|by run_inv].
    by apply same_bootstrapVoter in E3 as [-> _]. }
  exists (startup_window e3). revert Hst Hr. clear E1 E2 E3 Hrec. generalize (startup_window e3) as W. intros W.
  revert e3 u e'. set (St := fun (A : Type) (_ : A) => starting W).
  apply (ptriple_bind _ _ _ (St _)); [apply starting_still; keeps_auto|intros ?].
  apply (ptriple_bind _ _ _ (St _)); [apply starting_still; keeps_auto|intros ?].
  apply (ptriple_bind _ _ _ (St _)); [apply starting_still, still_replay_certificates|intros [err|]].
  { intros e0 r e0' [? _] Hr. by run_inv. }
  apply (ptriple_bind _ _ _ (St _)); [apply starting_still; keeps_auto|intros ?].
  apply (ptriple_bind _ _ _ (St _));
    [apply starting_preserves; [apply (pres_drainPending Hvs)|apply same_drainPending]|intros ?].
  apply (ptriple_bind _ _ _ (St _)).
  { apply ptriple_for_each. intros w Hw. apply starting_replay_vote. by rewrite <- HB. }
  intros ?. apply (ptriple_bind _ _ _ (St _)); [apply starting_still; keeps_auto|intros v'].
  apply (ptriple_bind _ _ _ (fun _ => I W)).
  { unfold when. case_match; [apply (vst_skips Hvst)|]. intros e0 r e0' [? _] Hr. by run_inv. }
  intros _. apply (preserves_bind (I W)); [apply (vst_started Hvst)|intros _].
  repeat (apply (preserves_bind (I W)); [first [apply (pres_drainPending Hvs) | apply (preserves_still Hvs W); keeps_auto]|intros]).
  apply (preserves_still Hvs W). keeps_auto.
Qed.
End Starts.

Section Invariants.
Hypothesis Hvi : voter_invariant.
Let Hvs : voter_step := vst_step (vi_start Hvi).

Lemma pres_vote_callback W v c :
  ptriple (fun e => I W e /\ (c = JournalCompletion Saved -> D v e)) (runCallback (VoteSaved v) c) (fun _ => I W).
Proof.
  assert (forall m : M unit, preserves (I W) m -> ptriple (fun e => I W e /\ (c = JournalCompletion Saved -> D v e)) m
            (fun _ => I W)) as Hweak.
  { intros m Hm e a e' [HI _] E. by eapply Hm. }
  destruct c as [[]| |]; simpl; try solve [apply Hweak, (preserves_still Hvs W); keeps_auto].
  - apply (pres_completeAsync Hvs W); [|intros ? Hx; apply Hx]. intros e a e' [HI HD] E. eapply (vi_cast Hvi); [|exact E]. auto.
  - apply Hweak, (pres_completeAsync Hvs W); [apply (preserves_still Hvs W); keeps_auto|done].
  - apply Hweak, (pres_completeAsync Hvs W); [apply (preserves_still Hvs W); keeps_auto|done].
Qed.

Lemma pres_completion W k cb c :
  ptriple (fun e => I W e /\ e_callbacks e !! k = Some cb)
    (modify (fun e => e <| e_callbacks := delete k (e_callbacks e) |>) ;;; emit (Completed cb c) ;;; runCallback cb c)
    (fun _ => I W).
Proof.
  intros e a e' [HI Hk] (u1 & e1 & E1 & Hr)%bind_inv. apply bind_inv in Hr as (u2 & e2 & E2 & Hr).
  assert (forall v, cb = VoteSaved v -> I W e') as Hvote.
  { intros v ->. eapply pres_vote_callback; [|exact Hr]. eapply (vi_completed Hvi); [split; [exact HI|exact Hk]|].
    unfold bind at 1. by rewrite E1. }
  destruct cb; [by eapply Hvote|..];
    (eapply (pres_other_callback Hvs); [| |exact Hr]; [done|]; eapply (preserves_still Hvs W); [| |exact E2]; [keeps_auto|];
     eapply (preserves_still Hvs W); [|exact HI|exact E1]; keeps_auto).
Qed.

Lemma pres_handle W i : preserves (I W) (handle i).
Proof.
  assert ((exists k c, i = InCompletion k c) \/ forall k c, i <> InCompletion k c) as [(k & c & ->)|Hi].
  { destruct i; eauto. }
  - intros e a e' HI (cbs & e1 & [= <- <-] & Hr)%bind_inv. destruct (e_callbacks e !! k) as [cb|] eqn:Ek; [|by run_inv].
    by eapply pres_completion.
  - by apply (pres_input Hvs).
Qed.

(** A voter invariant holds in every reachable state. *)
Lemma reachable_invariant c bs e : bs_OurVotes bs = B -> reachable c bs e -> exists W, I W e.
Proof.
  intros HB. induction 1 as [e0 e Hnew Hst|e i u e' _ [W IH] _ Hh].
  - apply Start_bootstrap in Hst as (bs' & sealed & e1 & Hv & Hst & Hfr).
    eapply (startFrom_invariant (vi_start Hvi)); [by rewrite Hv| |exact Hst]. by eapply Hfr, NewEngine_fresh.
  - exists W. by eapply pres_handle.
Qed.
End Invariants.
End Principle.
