(* ===== verification/SimplexSteps.v ===== *)
(** * Invariants of the whole engine

    [step_invariant] lists what an invariant of the engine has to satisfy, one
    field per handler of [engine.go], [pool.go] and [voter.go]; from these
    [reachable_step_invariant] derives that it holds in every reachable state.
    The composition of handlers into tasks, completions, inputs and [Start] is
    done here once. *)

From S2P Require Import Prelude.
From S2P Require Import SimplexTypes.
From S2P Require Import SimplexSlots.
From S2P Require Import SimplexWire.
From S2P Require Import SimplexFanOut.
From S2P Require Import SimplexCert.
From S2P Require Import SimplexCandidate.
From S2P Require Import SimplexPool.
From S2P Require Import Float64.
From S2P Require Import SimplexState.
From S2P Require Import SimplexEngine.
From S2P Require Import SimplexFrame.

#[local] Open Scope Z_scope.
#[local] Open Scope go_scope.

(** Steps of the loop itself: flags, timers, statistics and caches of no
    consequence for votes and certificates change, queues only lose elements. *)
Record control (e e' : Engine) : Prop := {
  ctl_cfg : e_cfg e' = e_cfg e;
  ctl_slots : pl_slots (e_pool e') = pl_slots (e_pool e);
  ctl_runs : pl_skipRuns (e_pool e') = pl_skipRuns (e_pool e);
  ctl_final : pl_lastFinalized (e_pool e') = pl_lastFinalized (e_pool e);
  ctl_cert : pl_lastFinalCert (e_pool e') = pl_lastFinalCert (e_pool e);
  ctl_voter : e_voter e' = e_voter e;
  ctl_cache : e_payloadCache e' = e_payloadCache e;
  ctl_log : e_log e' = e_log e;
  ctl_callbacks : e_callbacks e' = e_callbacks e;
  ctl_pending : forall t, t ∈ e_pending e' -> t ∈ e_pending e;
  ctl_waits : forall c, c ∈ pl_parentWaits (e_pool e') -> c ∈ pl_parentWaits (e_pool e);
  ctl_verify : forall p, p ∈ e_pendingVerify e' -> p ∈ e_pendingVerify e;
  ctl_failed : failed e = true -> failed e' = true }.

#[export] Instance control_refl : Reflexive control.
Proof. by intros e. Qed.
#[export] Instance control_trans : Transitive control.
Proof. intros a b c [] []. constructor; try congruence; auto. Qed.

Create HintDb steps discriminated.

Section Control.
Context `{TLRuntime} `{Ed25519} `{Machine} `{Environment}.

Lemma control_modify f : (forall e, control e (f e)) -> keeps control (modify f).
Proof. apply keeps_modify. Qed.
Lemma control_clock : keeps control clock_Now.
Proof. by intros e a e' [= <- <-]. Qed.
Lemma control_modify_stats f : keeps control (modify_stats f).
Proof. by apply control_modify. Qed.
Lemma control_stop : keeps control Stop.
Proof.
  intros e a e' [= <- <-]. constructor; try done; try by intros ? ?%elem_of_nil.
  unfold failed. simpl. by rewrite orb_true_r.
Qed.
Lemma control_verify : keeps control (modify (fun e => e <| e_pendingVerify := [] |>)).
Proof. apply control_modify. intros e. constructor; try done. by intros ? ?%elem_of_nil. Qed.
End Control.

#[export] Hint Resolve control_clock control_modify_stats control_stop control_verify : steps.
#[export] Hint Extern 1 (keeps control (modify _)) => apply control_modify; by intros : steps.
#[export] Hint Extern 1 (keeps control (modify_pool _)) => apply control_modify; by intros : steps.

Ltac control_auto := repeat first [solve [eauto 3 with steps nocore] | keeps_step].

Section Steps.
Context `{TLRuntime} `{Ed25519} `{Machine} `{Environment}.
Context (I : Engine -> Prop) (T : Task -> Engine -> Prop) (C : Callback -> completion -> Engine -> Prop).
Context (V : list Vote) (K : VerifiedCertificate -> Prop).

(** [T] is what the queue guarantees of a task, [C] what is known of a
    completed callback, [V] and [K] what [Start] replays. *)
Record step_invariant : Prop := {
  si_control : forall e e', control e e' -> I e -> I e';
  si_pop : forall e t rest, e_pending e = t :: rest -> I e ->
    I (e <| e_pending := rest |>) /\ T t (e <| e_pending := rest |>);
  si_task : forall t, ptriple (fun e => I e /\ T t e) (runTask t) (fun _ => I);
  si_message : forall src i data, Forall is_byte data -> preserves I (handleMessage src i data);
  si_flush : preserves I flushVerify;
  si_accept : forall g c cc, typed_candidate c -> wf_id (c_ID c) -> checkCandidate g c = Some (Ok cc) ->
    ptriple (fun e => I e /\ e_cfg e = g) (acceptCandidate cc) (fun _ => I);
  si_alarm : preserves I fireVoterAlarm;
  si_standstill : forall now, preserves I (fireStandstill now);
  si_drain : forall now, preserves I (stepDrain now);
  si_fatal : forall err, preserves I (fatal err);
  si_completed : forall k cb c,
    ptriple (fun e => I e /\ e_callbacks e !! k = Some cb)
      (modify (fun e => e <| e_callbacks := delete k (e_callbacks e) |>) ;;; emit (Completed cb c))
      (fun _ e => I e /\ C cb c e);
  si_vote : forall v r, ptriple (fun e => I e /\ C (VoteSaved v) (JournalCompletion r) e) (voteSaved v r) (fun _ => I);
  si_cert : forall vc r, ptriple (fun e => I e /\ C (CertificateSaved vc) (JournalCompletion r) e)
    (finishCertificateSave vc r) (fun _ => I);
  si_store : forall id ok, ptriple (fun e => I e /\ C (StoreDone id) (StoreCompletion ok) e)
    (completeStore id ok) (fun _ => I);
  si_validation : forall id vd, ptriple (fun e => I e /\ C (ValidationDone id) (ValidationCompletion vd) e)
    (completeValidation id vd) (fun _ => I);
  si_bootstrap : preserves I (bootstrapVoter V);
  si_genesis : preserves I (p <- slots_at 0 ;; store p (addAvailableBase Genesis));
  si_replay_cert : forall vc, K vc -> preserves I
    (cert <- deref (vc_cert vc) ;; slot <- slots_at (Vote_Slot (cert_Vote cert)) ;;
     match slot with
     | None => ret tt
     | Some _ =>
         s <- load slot ;; n <- deref (needs s (cert_Vote cert)) ;;
         if negb n then ret tt else storeSavedCertificate slot vc
     end);
  si_replay_vote : forall v, v ∈ V -> preserves I (castVote v true);
  si_skips : preserves I castStartupWindowSkips;
  si_trace : forall ev, preserves I (trace ev);
  si_advance : preserves I advancePresent }.

Hypothesis Hsi : step_invariant.

Lemma pres_control {A} (m : M A) : keeps control m -> preserves I m.
Proof. intros Hm e a e' HI E. eapply (si_control Hsi); [by eapply Hm|done]. Qed.

Ltac spres :=
  repeat first
    [ solve [apply pres_control; control_auto]
    | match goal with |- preserves _ (bind _ _) => apply preserves_bind; [|intros] end ].

Lemma si_drain_loop fuel : preserves I (drain_pending_loop fuel).
Proof.
  induction fuel as [|fuel IH]; intros e a e' HI; cbn [drain_pending_loop];
    intros (q & e1 & [= <- <-] & Hr)%bind_inv; destruct (e_pending e) as [|t rest] eqn:Eq; [by run_inv|done|by run_inv|].
  apply bind_inv in Hr as (u1 & e1 & [= <- <-] & Hr). apply bind_inv in Hr as (u2 & e2 & E2 & Hr).
  eapply IH; [|exact Hr]. eapply (si_task Hsi t); [|exact E2]. by apply (si_pop Hsi).
Qed.

Lemma si_drainPending : preserves I drainPending.
Proof.
  unfold drainPending. apply preserves_bind; [spres|intros []]; [spres|]. spres. apply si_drain_loop.
Qed.

Lemma si_run m : preserves I m -> preserves I (run m).
Proof. intros Hm. unfold run. spres. case_match; spres; [done|apply si_drainPending]. Qed.

Lemma si_run_pre (P : Engine -> Prop) m :
  ptriple P m (fun _ => I) -> (forall e, P e -> I e) -> ptriple P (run m) (fun _ => I).
Proof.
  intros Hm HP e a e' He Hr. unfold run in Hr.
  apply bind_inv in Hr as (st & e1 & [= <- <-] & Hr). apply bind_inv in Hr as (f & e1 & [= <- <-] & Hr).
  destruct (_ || _); [run_inv; auto|]. apply bind_inv in Hr as (u & e1 & E1 & Hr).
  eapply si_drainPending; [|exact Hr]. by eapply Hm.
Qed.

Lemma si_completeAsync (P : Engine -> Prop) m :
  ptriple P m (fun _ => I) -> (forall e, P e -> I e) -> ptriple P (completeAsync m) (fun _ => I).
Proof.
  intros Hm HP e a e' He Hr. unfold completeAsync in Hr. apply bind_inv in Hr as (f & e1 & [= <- <-] & Hr).
  destruct (failed e); [run_inv; auto|]. apply bind_inv in Hr as (u & e1 & E1 & Hr).
  eapply si_drainPending; [|exact Hr]. by eapply Hm.
Qed.

Lemma si_runCallback cb c : ptriple (fun e => I e /\ C cb c e) (runCallback cb c) (fun _ => I).
Proof.
  assert (forall m : M unit, preserves I m -> ptriple (fun e => I e /\ C cb c e) m (fun _ => I)) as Hweak.
  { intros m Hm e a e' [HI _] E. by eapply Hm. }
  destruct cb, c; simpl; try solve [apply Hweak; spres].
  - apply si_completeAsync; [apply (si_vote Hsi)|by intros ? [? _]].
  - apply si_completeAsync; [apply (si_cert Hsi)|by intros ? [? _]].
  - apply Hweak, si_completeAsync; [|done]. unfold windowSaved. destruct r; [spres|apply (si_fatal Hsi)..].
  - apply si_run_pre; [apply (si_store Hsi)|by intros ? [? _]].
  - apply si_run_pre; [apply (si_validation Hsi)|by intros ? [? _]].
Qed.

Lemma si_SubmitCandidate c : typed_candidate c -> wf_id (c_ID c) -> preserves I (SubmitCandidate c).
Proof.
  intros Ht Hw. unfold SubmitCandidate. intros e a e' HI (st & e1 & [= <- <-] & Hr)%bind_inv.
  apply bind_inv in Hr as (f & e1 & [= <- <-] & Hr). case_match; [by run_inv|].
  apply bind_inv in Hr as (vt & e1 & [= <- <-] & Hr). destruct (e_voter e); [|by run_inv].
  apply bind_inv in Hr as (g & e1 & [= <- <-] & Hr). apply bind_inv in Hr as (r & e1 & E1 & Hr).
  apply deref_inv in E1 as [Hc ->]. destruct r as [cc|]; [|by run_inv].
  apply bind_inv in Hr as (u & e1 & E1 & Hr). run_inv.
  eapply (si_run_pre (fun e0 => I e0 /\ e_cfg e0 = e_cfg e)); [by eapply (si_accept Hsi)|by intros ? [? _]|done|exact E1].
Qed.

Lemma si_advance_timers : preserves I advance_timers.
Proof.
  unfold advance_timers. spres; unfold when; try case_match; try apply Hsi; apply pres_control; control_auto.
Qed.

Lemma si_handle i : typed_input i -> preserves I (handle i).
Proof.
  intros Hi. destruct i; cbn [handle]; simpl in Hi.
  - apply si_run. spres; by apply Hsi.
  - apply si_run. by apply Hsi.
  - unfold FlushVerify. spres. case_match; spres. case_match; spres. apply si_run, Hsi.
  - destruct Hi. spres. by apply si_SubmitCandidate.
  - unfold PrecheckCandidateBroadcast, firstNonFin. apply pres_control. control_auto.
  - apply si_run, si_advance_timers.
  - intros e a e' HI (cbs & e1 & [= <- <-] & Hr)%bind_inv. destruct (e_callbacks e !! k) as [cb|] eqn:Ek; [|by run_inv].
    apply bind_inv in Hr as (u1 & e1 & E1 & Hr). apply bind_inv in Hr as (u2 & e2 & E2 & Hr).
    eapply si_runCallback; [|exact Hr]. eapply (si_completed Hsi k cb c); [split; [exact HI|exact Ek]|].
    unfold bind at 1. by rewrite E1.
  - unfold UpdateParams. apply pres_control. control_auto.
  - apply pres_control. control_auto.
Qed.

Lemma si_replay_certificates l : Forall K l -> preserves I (replay_certificates l).
Proof.
  induction 1 as [|vc l Hvc _ IH]; cbn [replay_certificates]; [spres|].
  intros e a e' HI (cert & e1 & E1 & Hr)%bind_inv. apply bind_inv in Hr as (slot & e2 & E2 & Hr).
  pose proof (si_replay_cert Hsi vc Hvc) as Hstep.
  destruct slot as [i|].
  - apply bind_inv in Hr as (s & e3 & E3 & Hr). apply bind_inv in Hr as (n & e4 & E4 & Hr).
    destruct n; simpl in Hr.
    + apply bind_inv in Hr as (u & e5 & E5 & Hr). apply bind_inv in Hr as (f & e6 & [= <- <-] & Hr).
      assert (I e5) as HI5.
      { eapply (Hstep e u e5 HI). unfold bind at 1. rewrite E1. unfold bind at 1. rewrite E2.
        unfold bind at 1. rewrite E3. unfold bind at 1. by rewrite E4. }
      destruct (e_fatalErr e5); [by run_inv|]. by eapply IH.
    + injection Hr as <- <-. apply (Hstep e tt e4 HI). unfold bind at 1. rewrite E1. unfold bind at 1. rewrite E2.
      unfold bind at 1. rewrite E3. unfold bind at 1. by rewrite E4.
  - eapply IH; [|exact Hr]. eapply (Hstep e tt e2 HI). unfold bind at 1. rewrite E1. unfold bind at 1. by rewrite E2.
Qed.

Lemma si_startFrom bs sealed :
  bs_OurVotes bs = V -> Forall K sealed -> preserves I (startFrom bs sealed).
Proof.
  intros HV HK. unfold startFrom. do 2 (apply preserves_bind; [spres|intros]).
  apply preserves_bind; [unfold when; case_match; [rewrite HV; apply (si_bootstrap Hsi)|spres]|intros _].
  intros e r e' HI (p & e1 & E1 & Hr)%bind_inv. apply bind_inv in Hr as (u & e2 & E2 & Hr).
  assert (I e2) as HI2.
  { eapply (si_genesis Hsi); [exact HI|]. unfold bind at 1. by rewrite E1. }
  revert HI2 Hr. clear HI E1 E2. revert e2 r e'.
  apply (preserves_bind I); [by apply si_replay_certificates|intros [err|]]; [spres|].
  apply preserves_bind; [spres|intros _]. apply preserves_bind; [apply si_drainPending|intros _].
  apply preserves_bind.
  { apply ptriple_for_each. intros v Hv. change (preserves I (replay_vote v)). unfold replay_vote, firstNonFin. spres.
    case_match; [spres|]. apply (si_replay_vote Hsi). by rewrite <- HV. }
  intros _. spres; unfold when; try case_match; spres; try apply Hsi; apply si_drainPending.
Qed.
End Steps.

(** ** Start and reachability *)

(** The validated journal [Start] uses: the configured one when it matches what
    the journal answers and is bound to this session, else one validated now. *)
Definition validated_start `{TLRuntime} `{Ed25519} `{Machine} (e : Engine) (bs : BootstrapState)
    (vb : ValidatedBootstrap) : Prop :=
  vb = e_bootstrap e /\ vb_state vb = Some bs /\ vb_binding vb = binding (e_cfg e) \/
  ValidateBootstrap (sessionID (e_cfg e)) (validators (e_cfg e)) (Some bs) = Some (Ok vb).

Section Reach.
Context `{TLRuntime} `{Ed25519} `{Machine} `{Environment}.

Lemma Start_validated bs e e' :
  Start (Some bs) e = Some (None, e') ->
  exists vb bs' e1, validated_start e bs vb /\ bs_OurVotes bs' = bs_OurVotes bs /\ control e e1 /\
    startFrom bs' (vb_sealed vb) e1 = Some (None, e').
Proof.
  unfold Start. intros (st & e1 & [= <- <-] & Hr)%bind_inv. apply bind_inv in Hr as (sp & e1 & [= <- <-] & Hr).
  destruct (e_started e); [by run_inv|]. destruct (e_stopped e); [by run_inv|].
  apply bind_inv in Hr as (g & e1 & [= <- <-] & Hr). apply bind_inv in Hr as (b & e1 & [= <- <-] & Hr).
  apply bind_inv in Hr as (r & e1 & E1 & Hr). destruct r as [vb|]; [|by run_inv].
  apply bind_inv in Hr as (bs' & e2 & E2 & Hr). apply deref_inv in E2 as [Hvb ->].
  exists vb, bs', e1. destruct (_ || _) eqn:Eb.
  - apply bind_inv in E1 as (rv & e2 & E2 & E1). apply deref_inv in E2 as [Hval ->].
    destruct rv as [vb'|]; [|by run_inv]. apply bind_inv in E1 as (u & e2 & [= <- <-] & E1).
    injection E1 as <- <-. split_and!; [by right|by eapply ValidateBootstrap_votes|done|done].
  - apply orb_false_iff in Eb as [Hm%negb_false_iff Hb%negb_false_iff%bool_decide_eq_true]. injection E1 as <- <-.
    split_and!; [|by eapply VB_matches_votes|done|done]. left. split; [done|]. split; [|done].
    by apply VB_matches_eq.
Qed.

(** A reachable state comes from an engine as built and a validated journal; a
    step invariant that holds of the two holds of the state. *)
Lemma reachable_step_invariant c bs e :
  reachable c bs e -> exists e0 vb, NewEngine c = Some (Ok e0) /\ validated_start e0 bs vb /\
    forall I T C K, step_invariant I T C (bs_OurVotes bs) K -> I e0 -> Forall K (vb_sealed vb) -> I e.
Proof.
  induction 1 as [e0 e Hn Hst|e i u e' _ (e0 & vb & Hn & Hvs & IH) Hi Hh].
  - apply Start_validated in Hst as (vb & bs' & e1 & Hvs & Hv & Hc & Hst). exists e0, vb. split_and!; [done..|].
    intros I T C K Hsi HI HK. eapply si_startFrom; [exact Hsi|exact Hv|done| |exact Hst]. by eapply (si_control _ _ _ _ _ Hsi).
  - exists e0, vb. split_and!; [done..|]. intros I T C K Hsi HI HK. eapply si_handle; [exact Hsi|exact Hi| |exact Hh]. by eapply IH.
Qed.
End Reach.
