(* ===== verification/SimplexPoolFrame.v ===== *)
(** * What the handlers leave of the pool

    Two frame relations for the invariants of the pool.  [qframe]: the votes,
    weights and certificates of every slot, and with them everything a built
    certificate depends on, are as before.  [jframe]: the certificates, skip runs,
    waiting candidates and voter slots, everything a notarize vote depends on, are
    as before.  [idle] is both; the lemmas below establish it handler by handler. *)

From S2P Require Import Prelude.
From S2P Require Import SimplexTypes.
From S2P Require Import SimplexSlots.
From S2P Require Import SimplexWire.
From S2P Require Import SimplexFanOut.
From S2P Require Import SimplexCert.
From S2P Require Import SimplexCandidate.
From S2P Require Import SimplexPool.
From S2P Require Import Float64.
From S2P Require Import SimplexState.
From S2P Require Import SimplexEngine.
From S2P Require Import SimplexFrame.
From S2P Require Import SimplexSteps.

#[local] Open Scope Z_scope.
#[local] Open Scope go_scope.

(** A slot of the pool, created or not. *)
Definition slot_at (e : Engine) (i : Z) : poolSlot :=
  default (newPoolSlot (nValidators (e_cfg e))) (slots (pl_slots (e_pool e)) !! i).
Definition first_live (e : Engine) : Z := firstNonFinalized (pl_slots (e_pool e)).

Definition same_certs (s s' : poolSlot) : Prop :=
  ps_notarCert s' = ps_notarCert s /\ ps_skipCert s' = ps_skipCert s /\ ps_finalCert s' = ps_finalCert s.
Definition same_votes (s s' : poolSlot) : Prop :=
  ps_votes s' = ps_votes s /\ ps_skipWeight s' = ps_skipWeight s /\
  ps_notarizeWeight s' = ps_notarizeWeight s /\ ps_finalizeWeight s' = ps_finalizeWeight s.

#[export] Instance same_certs_refl : Reflexive same_certs.
Proof. by intros s. Qed.
#[export] Instance same_certs_trans : Transitive same_certs.
Proof. intros a b c (?&?&?) (?&?&?). repeat split; congruence. Qed.
#[export] Instance same_votes_refl : Reflexive same_votes.
Proof. by intros s. Qed.
#[export] Instance same_votes_trans : Transitive same_votes.
Proof. intros a b c (?&?&?&?) (?&?&?&?). repeat split; congruence. Qed.

(** The memo of payloads and the votes waiting for verification. *)
Definition cache_ok `{TLRuntime} (e : Engine) : Prop :=
  forall k v p, e_payloadCache e !! k = Some (v, p) -> vote_payload (sessionID (e_cfg e)) v = Some p.
(** A skip vote names its slot only. *)
Definition canonical (v : Vote) : Prop := v_Kind v = VoteSkip -> v = SkipVote (Vote_Slot v).
Lemma sized_canonical v : sized_vote v -> canonical v.
Proof. intros (_ & _ & Hz) Hk. specialize (Hz Hk). destruct v as [k [s h]]. simpl in *. by subst. Qed.
Definition pending_ok `{TLRuntime} (g : Config) (p : pendingVote) : Prop :=
  vote_payload (sessionID g) (pn_vote p) = Some (pn_payload p) /\ canonical (pn_vote p) /\ pn_ok p = false.

(** The hooks that report a certificate, and the calls and tasks without one. *)
Definition plain_hook (h : Hook) : bool :=
  match h with OnNotarized _ _ | OnFinalized _ _ => false | _ => true end.
Definition no_cert (ev : Effect) : bool :=
  match ev with SaveCertificate _ => false | Hooked h => plain_hook h | _ => true end.
Definition no_save (ev : Effect) : bool :=
  match ev with SaveCertificate _ | SaveOurVote _ => false | _ => true end.
Definition plain_task (t : Task) : bool :=
  match t with CallHook h => plain_hook h | ParentWaitDone _ _ => false | _ => true end.
Definition plain_callback (cb : Callback) : bool :=
  match cb with VoteSaved _ | CertificateSaved _ => false | _ => true end.

Definition extends (P : Effect -> bool) (e e' : Engine) : Prop :=
  exists new, e_log e' = new ++ e_log e /\ forall ev, ev ∈ new -> P ev = true.

Lemma extends_eq P e e' : e_log e' = e_log e -> extends P e e'.
Proof. intros E. exists []. split; [done|]. by intros ev ?%elem_of_nil. Qed.
Lemma extends_refl P e : extends P e e.
Proof. by apply extends_eq. Qed.
Lemma extends_trans P a b c : extends P a b -> extends P b c -> extends P a c.
Proof.
  intros (n1 & L1 & Q1) (n2 & L2 & Q2). exists (n2 ++ n1). rewrite L2, L1, app_assoc. split; [done|].
  intros ev [?|?]%elem_of_app; auto.
Qed.

Record qframe `{TLRuntime} (e e' : Engine) : Prop := {
  qf_cfg : e_cfg e' = e_cfg e;
  qf_votes : forall i, same_votes (slot_at e i) (slot_at e' i);
  qf_certs : forall i, same_certs (slot_at e i) (slot_at e' i);
  qf_last : pl_lastFinalCert (e_pool e') = pl_lastFinalCert (e_pool e);
  qf_log : extends no_cert e e';
  qf_tasks : forall h, CallHook h ∈ e_pending e' -> CallHook h ∈ e_pending e \/ plain_hook h = true;
  qf_voter : e_voter e = None -> e_voter e' = None;
  qf_callbacks : forall vc, CertificateSaved vc ∈ e_callbacks e' -> CertificateSaved vc ∈ e_callbacks e;
  qf_saved : forall v, VoteSaved v ∈ e_callbacks e' -> VoteSaved v ∈ e_callbacks e \/ canonical v;
  qf_cache : cache_ok e -> cache_ok e';
  qf_verify : cache_ok e -> forall p, p ∈ e_pendingVerify e' -> p ∈ e_pendingVerify e \/ pending_ok (e_cfg e) p }.

Record jframe (e e' : Engine) : Prop := {
  jf_cfg : e_cfg e' = e_cfg e;
  jf_certs : forall i, same_certs (slot_at e i) (slot_at e' i);
  jf_first : first_live e' = first_live e;
  jf_runs : pl_skipRuns (e_pool e') = pl_skipRuns (e_pool e);
  jf_final : pl_lastFinalized (e_pool e') = pl_lastFinalized (e_pool e);
  jf_last : pl_lastFinalCert (e_pool e') = pl_lastFinalCert (e_pool e);
  jf_log : extends no_save e e';
  jf_callbacks : forall vc, CertificateSaved vc ∈ e_callbacks e' -> CertificateSaved vc ∈ e_callbacks e;
  jf_pending : forall c out, ParentWaitDone c out ∈ e_pending e' -> ParentWaitDone c out ∈ e_pending e;
  jf_waits : forall c, c ∈ pl_parentWaits (e_pool e') -> c ∈ pl_parentWaits (e_pool e);
  jf_saved : forall v, VoteSaved v ∈ e_callbacks e' -> VoteSaved v ∈ e_callbacks e;
  jf_verify : forall p, p ∈ e_pendingVerify e' -> p ∈ e_pendingVerify e \/ sized_vote (pn_vote p);
  jf_vslots : vslots e' = vslots e;
  jf_failed : failed e = true -> failed e' = true }.

Definition idle `{TLRuntime} (e e' : Engine) : Prop := qframe e e' /\ jframe e e'.

#[export] Instance qframe_refl `{TLRuntime} : Reflexive qframe.
Proof. intros e. constructor; auto using extends_refl; by intros. Qed.
#[export] Instance qframe_trans `{TLRuntime} : Transitive qframe.
Proof.
  intros a b c [] []. constructor; try congruence; eauto using extends_trans.
  - intros i. etrans; eauto.
  - intros i. etrans; eauto.
  - intros h Hh. destruct (qf_tasks1 h Hh); auto.
  - intros v Hv. destruct (qf_saved1 v Hv); auto.
  - intros Ha p Hp. destruct (qf_verify1 (qf_cache0 Ha) p Hp) as [?|?]; [auto|]. right. unfold pending_ok in *. congruence.
Qed.
#[export] Instance jframe_refl : Reflexive jframe.
Proof. intros e. constructor; auto using extends_refl; by intros. Qed.
#[export] Instance jframe_trans : Transitive jframe.
Proof.
  intros a b c [] []. constructor; try congruence; eauto using extends_trans.
  - intros i. etrans; eauto.
  - intros p Hp. destruct (jf_verify1 p Hp); auto.
Qed.
#[export] Instance idle_refl `{TLRuntime} : Reflexive idle.
Proof. by intros e. Qed.
#[export] Instance idle_trans `{TLRuntime} : Transitive idle.
Proof. intros a b c [] []. split; by etrans. Qed.

Create HintDb pools discriminated.
Ltac idle_auto := repeat first [solve [eauto 3 with pools nocore] | keeps_step].

(** ** Primitive steps *)

Section Primitives.
Context `{TLRuntime} `{Ed25519} `{Machine} `{Environment}.

Lemma control_idle e e' : control e e' -> idle e e'.
Proof.
  intros []. assert (forall i, slot_at e' i = slot_at e i) as Hs by (intros i; unfold slot_at; by rewrite ctl_slots, ctl_cfg).
  assert (forall P, extends P e e') as Hl by (intros P; by apply extends_eq).
  assert (vslots e' = vslots e) as Hv by (unfold vslots; by rewrite ctl_voter).
  assert (first_live e' = first_live e) as Hf by (unfold first_live; by rewrite ctl_slots).
  split; constructor; auto; try (intros i; by rewrite Hs); try (rewrite ctl_callbacks; auto); try (by rewrite ctl_voter).
  intros Hc k v p. rewrite ctl_cfg, ctl_cache. apply Hc.
Qed.

Lemma keeps_control_idle {A} (m : M A) : keeps control m -> keeps idle m.
Proof. intros Hm e a e' E. by eapply control_idle, Hm. Qed.

(** Changes of the log, the callbacks or the queue alone. *)
Lemma idle_queues e e' :
  e_cfg e' = e_cfg e -> e_pool e' = e_pool e -> vslots e' = vslots e ->
  e_payloadCache e' = e_payloadCache e -> e_pendingVerify e' = e_pendingVerify e ->
  (failed e = true -> failed e' = true) -> extends (fun ev => no_cert ev && no_save ev) e e' ->
  (e_voter e = None -> e_voter e' = None) ->
  (forall cb, cb ∈ e_callbacks e' -> cb ∈ e_callbacks e \/ plain_callback cb = true) ->
  (forall t, t ∈ e_pending e' -> t ∈ e_pending e \/ plain_task t = true) ->
  idle e e'.
Proof.
  intros Hg Hp Hv Hc Hpv Hf Hl Hvt Hcb Hpd.
  assert (forall i, slot_at e' i = slot_at e i) as Hs by (intros i; unfold slot_at; by rewrite Hp, Hg).
  assert (first_live e' = first_live e) as Hfl by (unfold first_live; by rewrite Hp).
  split; constructor; rewrite ?Hp; auto; try (intros i; by rewrite Hs); try (intros x Hx; by destruct (Hcb _ Hx); auto);
    try (intros x Hx; by destruct (Hpd _ Hx); auto).
  - destruct Hl as (new & Hl & Hn). exists new. split; [done|]. intros ev Hev. by destruct (andb_prop _ _ (Hn ev Hev)).
  - intros Hok k v p. rewrite Hg, Hc. apply Hok.
  - intros _ p. rewrite Hpv. auto.
  - destruct Hl as (new & Hl & Hn). exists new. split; [done|]. intros ev Hev. by destruct (andb_prop _ _ (Hn ev Hev)).
  - intros c out Hx. by destruct (Hpd _ Hx).
  - intros p. rewrite Hpv. auto.
Qed.

Lemma idle_emit ev : no_cert ev && no_save ev = true -> keeps idle (emit ev).
Proof.
  intros Hev. apply keeps_modify. intros e. apply idle_queues; auto.
  exists [ev]. split; [done|]. by intros ? ->%list_elem_of_singleton.
Qed.
Lemma idle_register cb : plain_callback cb = true -> keeps idle (register cb).
Proof.
  intros Hcb. apply keeps_modify. intros e. apply idle_queues; auto using extends_eq.
  simpl. intros cb' [?|Hv%list_elem_of_singleton]%elem_of_app; [by left|]. right. by subst.
Qed.
Lemma idle_complete k : keeps idle (modify (fun e => e <| e_callbacks := delete k (e_callbacks e) |>)).
Proof.
  apply keeps_modify. intros e. apply idle_queues; auto using extends_eq.
  simpl. intros cb Hv. left. by eapply list_elem_of_delete_inv.
Qed.
Lemma idle_enqueue t : plain_task t = true -> keeps idle (enqueue t).
Proof.
  intros Ht. apply keeps_modify. intros e. apply idle_queues; auto using extends_eq.
  simpl. intros t' [?|Hv%list_elem_of_singleton]%elem_of_app; [by left|]. right. by subst.
Qed.
Lemma idle_set_fatal err : keeps idle (modify (fun e => e <| e_fatalErr := Some err |>)).
Proof. apply keeps_modify. intros e. apply idle_queues; auto using extends_eq. Qed.
Lemma idle_clear_pending : keeps idle (modify (fun e => e <| e_pending := [] |>)).
Proof.
  apply keeps_modify. intros e. apply idle_queues; auto using extends_eq. simpl. by intros t ?%elem_of_nil.
Qed.
Lemma idle_sign p : keeps idle (signer_Sign p).
Proof. intros e a e' [= <- <-]. by apply control_idle. Qed.

Lemma idle_modify_voter f : (forall v, vt_slots (f v) = vt_slots v) -> keeps idle (modify_voter f).
Proof.
  intros Hf e a e'. unfold modify_voter, voter, bind, gets, deref.
  destruct (e_voter e) as [v|] eqn:E; [|done]. intros [= <- <-]. apply idle_queues; auto using extends_eq.
  - unfold vslots. simpl. rewrite E. simpl. by rewrite Hf.
  - congruence.
Qed.

(** Changes of the pool's slots alone. *)
Lemma idle_slots e pl :
  pl_skipRuns pl = pl_skipRuns (e_pool e) -> pl_lastFinalized pl = pl_lastFinalized (e_pool e) ->
  pl_lastFinalCert pl = pl_lastFinalCert (e_pool e) -> pl_parentWaits pl = pl_parentWaits (e_pool e) ->
  firstNonFinalized (pl_slots pl) = firstNonFinalized (pl_slots (e_pool e)) ->
  (forall i, same_votes (slot_at e i) (slot_at (e <| e_pool := pl |>) i)) ->
  (forall i, same_certs (slot_at e i) (slot_at (e <| e_pool := pl |>) i)) ->
  idle e (e <| e_pool := pl |>).
Proof.
  intros Hr Hf Hc Hw Hfl Hv Hce. split; constructor; auto using extends_eq. simpl. rewrite Hw. auto.
Qed.

Lemma slot_at_slots_at e i j :
  default (newPoolSlot (nValidators (e_cfg e)))
    (slots (sm_at (newPoolSlot (nValidators (e_cfg e))) i (pl_slots (e_pool e))).2 !! j) = slot_at e j.
Proof.
  unfold slot_at, sm_at. case_match; [done|]. destruct (slots (pl_slots (e_pool e)) !! i) eqn:E; [done|]. simpl.
  destruct (decide (i = j)) as [->|]; [by rewrite lookup_insert_eq, E|by rewrite lookup_insert_ne].
Qed.

Lemma idle_slots_at i : keeps idle (slots_at i).
Proof.
  intros e a e' [= <- <-]. apply idle_slots; try done.
  - simpl. unfold sm_at. case_match; [done|]. by destruct (slots _ !! i).
  - intros j. unfold slot_at at 2. simpl. by rewrite slot_at_slots_at.
  - intros j. unfold slot_at at 2. simpl. by rewrite slot_at_slots_at.
Qed.

Lemma slots_at_spec i e p e' :
  slots_at i e = Some (p, e') ->
  p = None /\ i < first_live e \/ p = Some i /\ first_live e <= i /\ is_Some (slots (pl_slots (e_pool e')) !! i).
Proof.
  intros [= <- <-]. unfold first_live, sm_at. destruct (Z.ltb_spec i (firstNonFinalized (pl_slots (e_pool e)))); [by left|].
  right. destruct (slots (pl_slots (e_pool e)) !! i) eqn:E; simpl.
  - by rewrite E.
  - by rewrite lookup_insert_eq.
Qed.

Lemma load_inv p e s e' :
  load p e = Some (s, e') ->
  e' = e /\ exists i, p = Some i /\ slots (pl_slots (e_pool e)) !! i = Some s /\ slot_at e i = s.
Proof.
  unfold load, pool. destruct p as [i|]; [|done]. intros (i' & e1 & [= <- <-] & Hl)%bind_inv.
  apply bind_inv in Hl as (m & e2 & [= <- <-] & [Hs ->]%deref_inv). split; [done|]. exists i. split_and!; [done..|].
  unfold slot_at. by rewrite Hs.
Qed.

Lemma store_inv p f e u e' :
  store p f e = Some (u, e') ->
  exists i s, p = Some i /\ slots (pl_slots (e_pool e)) !! i = Some s /\
    e' = e <| e_pool := e_pool e <| pl_slots := sm_alter f i (pl_slots (e_pool e)) |> |>.
Proof.
  unfold store, load, pool. destruct p as [i|]; [|done]. intros (i' & e1 & [= <- <-] & Hr)%bind_inv.
  apply bind_inv in Hr as (s & e1 & Hl & [= <- <-]). apply bind_inv in Hl as (i' & e2 & [= <- <-] & Hl).
  apply bind_inv in Hl as (m & e2 & [= <- <-] & [Hs ->]%deref_inv). eauto.
Qed.

Lemma slot_at_alter e f i s j :
  slots (pl_slots (e_pool e)) !! i = Some s ->
  slot_at (e <| e_pool := e_pool e <| pl_slots := sm_alter f i (pl_slots (e_pool e)) |> |>) j =
  if decide (j = i) then f s else slot_at e j.
Proof.
  intros Hs. unfold slot_at. simpl. case_decide as Hd.
  - subst j. by rewrite lookup_alter_eq, Hs.
  - by rewrite lookup_alter_ne.
Qed.

Lemma idle_store p f :
  (forall s, same_votes s (f s)) -> (forall s, same_certs s (f s)) -> keeps idle (store p f).
Proof.
  intros Hv Hc e u e' (i & s & -> & Hs & ->)%store_inv. apply idle_slots; try done; intros j;
    rewrite (slot_at_alter e f i s j Hs); case_decide; try done; subst j; unfold slot_at; rewrite Hs; simpl; auto.
Qed.
End Primitives.

#[export] Hint Resolve idle_complete idle_set_fatal idle_clear_pending idle_sign idle_slots_at : pools.
#[export] Hint Extern 2 (keeps idle _) => solve [apply keeps_control_idle; control_auto] : pools.
#[export] Hint Extern 1 (keeps idle (emit _)) => by apply idle_emit : pools.
#[export] Hint Extern 1 (keeps idle (register _)) => by apply idle_register : pools.
#[export] Hint Extern 1 (keeps idle (enqueue _)) => by apply idle_enqueue : pools.
#[export] Hint Extern 1 (keeps idle (modify_voter _)) => apply idle_modify_voter; by intros : pools.

(** ** Handlers *)

Section Idle.
Context `{TLRuntime} `{Ed25519} `{Machine} `{Environment}.

Lemma idle_load p : keeps idle (load p).
Proof. unfold load. idle_auto. Qed.
Lemma idle_addBase p b : keeps idle (store p (addAvailableBase b)).
Proof. apply idle_store; intros s; unfold addAvailableBase; repeat case_match; by repeat split. Qed.
Lemma idle_saving p k b : keeps idle (store p (set_saving k b)).
Proof. apply idle_store; intros s; destruct k; by repeat split. Qed.
Lemma idle_firstNonFin : keeps idle firstNonFin.
Proof. unfold firstNonFin. idle_auto. Qed.
Lemma idle_voter : keeps idle voter.
Proof. unfold voter. idle_auto. Qed.
Lemma idle_fatal err : keeps idle (fatal err).
Proof. unfold fatal. idle_auto. Qed.
Lemma idle_trace ev : keeps idle (trace ev).
Proof. unfold trace. idle_auto. Qed.
Lemma idle_misbehavior i m : keeps idle (reportMisbehavior i m).
Proof. unfold reportMisbehavior. idle_auto. Qed.
#[local] Hint Resolve idle_load idle_addBase idle_saving idle_firstNonFin idle_voter idle_fatal idle_trace
  idle_misbehavior : pools.

Lemma idle_ban p : keeps idle (ban p).
Proof. unfold ban. idle_auto. Qed.
Lemma idle_isBanned p : keeps idle (isBanned p).
Proof. unfold isBanned. idle_auto. Qed.
Lemma idle_noteOwnCandidate id : keeps idle (noteOwnCandidate id).
Proof. unfold noteOwnCandidate. idle_auto. Qed.
Lemma idle_noteOwnCandidateVote i v : keeps idle (noteOwnCandidateVote i v).
Proof. unfold noteOwnCandidateVote. idle_auto. Qed.
Lemma idle_reportOwn c : keeps idle (reportOwnCandidateNotarized c).
Proof. unfold reportOwnCandidateNotarized. idle_auto. Qed.
Lemma idle_conflictingCandidateAndCert c o : keeps idle (conflictingCandidateAndCert c o).
Proof. unfold conflictingCandidateAndCert. idle_auto. Qed.
#[local] Hint Resolve idle_ban idle_isBanned idle_noteOwnCandidate idle_noteOwnCandidateVote idle_reportOwn
  idle_conflictingCandidateAndCert : pools.

Lemma idle_evaluateSkips id n : keeps idle (evaluateSkips id n).
Proof. unfold evaluateSkips. idle_auto. Qed.
#[local] Hint Resolve idle_evaluateSkips : pools.
Lemma idle_evaluateParentWait c : keeps idle (evaluateParentWait c).
Proof. unfold evaluateParentWait. idle_auto. Qed.
Lemma idle_nextNonSkipped i : keeps idle (nextNonSkippedSlotAfter i).
Proof. unfold nextNonSkippedSlotAfter. idle_auto. Qed.
Lemma idle_voterWindowObserved s : keeps idle (voterWindowObserved s).
Proof. unfold voterWindowObserved. idle_auto. Qed.
#[local] Hint Resolve idle_evaluateParentWait idle_nextNonSkipped idle_voterWindowObserved : pools.
Lemma idle_windowObserved s b : keeps idle (windowObserved s b).
Proof. unfold windowObserved. idle_auto. Qed.
Lemma idle_present_loop fuel : keeps idle (present_loop fuel).
Proof. induction fuel as [|fuel IH]; cbn [present_loop]; idle_auto; apply IH. Qed.
#[local] Hint Resolve idle_windowObserved idle_present_loop : pools.
Lemma idle_advancePresent : keeps idle advancePresent.
Proof. unfold advancePresent, announceWindow. idle_auto. Qed.
#[local] Hint Resolve idle_advancePresent : pools.
Lemma idle_count_certificate c : keeps idle (count_certificate c).
Proof. unfold count_certificate, note_signer. idle_auto. Qed.
Lemma idle_drain_loop fuel rate now d : keeps idle (drain_loop fuel rate now d).
Proof. revert d. induction fuel as [|fuel IH]; intros d; cbn [drain_loop]; idle_auto; apply IH. Qed.
#[local] Hint Resolve idle_drain_loop : pools.
Lemma idle_stepDrain now : keeps idle (stepDrain now).
Proof. unfold stepDrain. idle_auto. Qed.
#[local] Hint Resolve idle_stepDrain : pools.
Lemma idle_startDrain now : keeps idle (startDrain now).
Proof.
  unfold startDrain. apply keeps_bind; [apply _| |intros; idle_auto].
  intros e a e'. destruct (buildStandstillMessages e); [|done]. by intros [= <- <-].
Qed.
#[local] Hint Resolve idle_startDrain : pools.
Lemma idle_fireStandstill now : keeps idle (fireStandstill now).
Proof. unfold fireStandstill. idle_auto. Qed.
Lemma idle_callHook h : plain_hook h = true -> keeps idle (callHook h).
Proof. intros Hh. unfold callHook. assert (keeps idle (emit (Hooked h))) by (apply idle_emit; simpl; by rewrite Hh). idle_auto. Qed.

(** The memo answers with the payload of the vote it is asked for. *)
Lemma votePayload_spec v e p e' :
  votePayload v e = Some (p, e') ->
  idle e e' /\ (cache_ok e' -> vote_payload (sessionID (e_cfg e')) v = Some p).
Proof.
  unfold votePayload. intros (cache & e1 & [= <- <-] & Hr)%bind_inv.
  set (i := kind_index (v_Kind v) mod 4) in Hr.
  assert (forall r : M bytes, r = (g <- gets e_cfg ;; payload <- deref (vote_payload (sessionID g) v) ;;
      modify (fun e => e <| e_payloadCache := <[i := (v, payload)]> (e_payloadCache e) |>) ;;; ret payload) ->
    r e = Some (p, e') -> idle e e' /\ vote_payload (sessionID (e_cfg e')) v = Some p) as Hmiss.
  { intros r -> (g & e1 & [= <- <-] & Hm)%bind_inv. apply bind_inv in Hm as (pl & e1 & E1 & Hm).
    apply deref_inv in E1 as [Hp ->]. run_inv. split; [|done].
    assert (forall i, slot_at (e <| e_payloadCache := <[kind_index (v_Kind v) mod 4 := (v, p)]> (e_payloadCache e) |>) i
              = slot_at e i) as Hs by done.
    split; constructor; try done; auto using extends_eq.
    intros Hc k v' p'. simpl. intros [[_ [= <- <-]]|[_ ?]]%lookup_insert_Some; [done|by eapply Hc]. }
  destruct (e_payloadCache e !! i) as [[v' p']|] eqn:Ec.
  - case_bool_decide as Hv; [|destruct (Hmiss _ eq_refl Hr); auto]. injection Hr as <- <-. subst v'.
    split; [done|]. intros Hok. by eapply Hok.
  - destruct (Hmiss _ eq_refl Hr). auto.
Qed.
Lemma idle_votePayload v : keeps idle (votePayload v).
Proof. intros e p e' E. by apply votePayload_spec in E as [? _]. Qed.
#[local] Hint Resolve idle_votePayload : pools.
Lemma idle_verifyCertificate c : keeps idle (verifyCertificate c).
Proof. unfold verifyCertificate. idle_auto. Qed.

Lemma idle_vote_payload_pending src i v sig :
  sized_vote v -> keeps idle (payload <- votePayload v ;;
    modify (fun e => e <| e_pendingVerify :=
      e_pendingVerify e ++ [mkPendingVote src (u32 i) v sig payload false] |>)).
Proof.
  intros Hv e r e' (pl & e1 & E1 & [= <- <-])%bind_inv. apply votePayload_spec in E1 as [Hi Hp].
  etrans; [exact Hi|]. split; constructor; try done; auto using extends_eq.
  - simpl. intros Hc p [?|Hq%list_elem_of_singleton]%elem_of_app; [by left|]. right. subst p.
    split_and!; [by apply Hp|by apply sized_canonical|done].
  - simpl. intros p [?|Hq%list_elem_of_singleton]%elem_of_app; [by left|]. right. by subst p.
Qed.
Lemma idle_handleVoteMessage src i data tooNew :
  Forall is_byte data -> keeps idle (handleVoteMessage src i data tooNew).
Proof.
  intros Hd. unfold handleVoteMessage, drop_message, slot_wants. destruct (parseSignedVote data) as [[v sig]|] eqn:E; [|idle_auto].
  pose proof (idle_vote_payload_pending src i v sig (wf_vote_sized _ (parseSignedVote_wf _ _ _ Hd E))). idle_auto.
Qed.
End Idle.

#[export] Hint Resolve idle_load idle_addBase idle_saving idle_firstNonFin idle_voter idle_fatal idle_trace
  idle_misbehavior idle_ban idle_isBanned idle_noteOwnCandidate idle_noteOwnCandidateVote idle_reportOwn
  idle_conflictingCandidateAndCert idle_evaluateParentWait idle_nextNonSkipped idle_windowObserved idle_advancePresent
  idle_count_certificate idle_stepDrain idle_fireStandstill idle_votePayload
  idle_verifyCertificate : pools.
#[export] Hint Extern 1 (keeps idle (handleVoteMessage _ _ _ _)) => by apply idle_handleVoteMessage : pools.

(** ** The voter and the waits do not touch votes and certificates *)

Section QFrame.
Context `{TLRuntime} `{Ed25519} `{Machine} `{Environment}.

Lemma idle_qframe {A} (m : M A) : keeps idle m -> keeps qframe m.
Proof. intros Hm e a e' E. by destruct (Hm _ _ _ E). Qed.

Lemma qframe_core e e' :
  e_cfg e' = e_cfg e -> pl_slots (e_pool e') = pl_slots (e_pool e) ->
  pl_lastFinalCert (e_pool e') = pl_lastFinalCert (e_pool e) -> extends no_cert e e' ->
  e_payloadCache e' = e_payloadCache e -> e_pendingVerify e' = e_pendingVerify e ->
  (e_voter e = None -> e_voter e' = None) ->
  (forall h, CallHook h ∈ e_pending e' -> CallHook h ∈ e_pending e \/ plain_hook h = true) ->
  (forall cb, cb ∈ e_callbacks e' -> cb ∈ e_callbacks e \/ exists v, cb = VoteSaved v /\ canonical v) -> qframe e e'.
Proof.
  intros Hg Hs Hl Hlog Hc Hp Hv Hh Hcb.
  assert (forall i, slot_at e' i = slot_at e i) as Hsl by (intros i; unfold slot_at; by rewrite Hs, Hg).
  constructor; auto; try (intros i; by rewrite Hsl); try (intros x Hx; by destruct (Hcb _ Hx) as [|(v & [= <-] & ?)]; auto).
  - intros Hok k v p. rewrite Hg, Hc. apply Hok.
  - intros _ p. rewrite Hp. auto.
Qed.

Lemma qf_modify f :
  (forall e, e_cfg (f e) = e_cfg e /\ pl_slots (e_pool (f e)) = pl_slots (e_pool e) /\
     pl_lastFinalCert (e_pool (f e)) = pl_lastFinalCert (e_pool e) /\ e_log (f e) = e_log e /\
     e_payloadCache (f e) = e_payloadCache e /\ e_pendingVerify (f e) = e_pendingVerify e /\
     e_voter (f e) = e_voter e /\ e_pending (f e) = e_pending e /\
     e_callbacks (f e) = e_callbacks e) -> keeps qframe (modify f).
Proof.
  intros Hf. apply keeps_modify. intros e. destruct (Hf e) as (? & ? & ? & ? & ? & ? & Hv & Hq & Hcb).
  apply qframe_core; auto using extends_eq; rewrite ?Hcb, ?Hv, ?Hq; auto.
Qed.
Lemma qf_emit ev : no_cert ev = true -> keeps qframe (emit ev).
Proof.
  intros Hev. apply keeps_modify. intros e. apply qframe_core; auto.
  exists [ev]. split; [done|]. by intros ? ->%list_elem_of_singleton.
Qed.
Lemma qf_wait_done c out : keeps qframe (enqueue (ParentWaitDone c out)).
Proof.
  apply keeps_modify. intros e. apply qframe_core; auto using extends_eq. simpl.
  intros h [?|?%list_elem_of_singleton]%elem_of_app; [by left|done].
Qed.
Lemma qf_modify_voter f : keeps qframe (modify_voter f).
Proof.
  intros e u e'. unfold modify_voter, voter, bind, gets, deref. destruct (e_voter e) as [v|] eqn:E; [|done].
  intros [= <- <-]. apply qframe_core; auto using extends_eq. congruence.
Qed.

#[local] Hint Extern 2 (keeps qframe _) => solve [apply idle_qframe; idle_auto] : pools.
#[local] Hint Extern 1 (keeps qframe (modify _)) => apply qf_modify; by intros : pools.
#[local] Hint Extern 1 (keeps qframe (modify_pool _)) => apply qf_modify; by intros : pools.
#[local] Hint Resolve qf_wait_done : pools.
#[local] Hint Extern 1 (keeps qframe (emit (SaveOurVote _))) => by apply qf_emit : pools.
#[local] Hint Resolve qf_modify_voter : pools.

Lemma qf_registerParentWait c : keeps qframe (registerParentWait c).
Proof. unfold registerParentWait, set_parentWaits. idle_auto. Qed.
Lemma qf_resolve_loop fuel i : keeps qframe (resolve_loop fuel i).
Proof.
  revert i. induction fuel as [|fuel IH]; intros i; cbn [resolve_loop]; unfold set_parentWaits; idle_auto; apply IH.
Qed.
#[local] Hint Resolve qf_registerParentWait qf_resolve_loop : pools.
Lemma qf_resolveParentWaits : keeps qframe resolveParentWaits.
Proof. unfold resolveParentWaits. idle_auto. Qed.
Lemma qf_onSkipCertificate s c : keeps qframe (onSkipCertificate s c).
Proof. unfold onSkipCertificate. idle_auto. Qed.
Lemma qf_vslots_at i : keeps qframe (vslots_at i).
Proof. unfold vslots_at. idle_auto. Qed.
Lemma qf_vload p : keeps qframe (vload p).
Proof. unfold vload. idle_auto. Qed.
#[local] Hint Resolve qf_vslots_at qf_vload : pools.
Lemma qf_vstore p f : keeps qframe (vstore p f).
Proof. unfold vstore. idle_auto. Qed.
#[local] Hint Resolve qf_vstore : pools.
Lemma qf_register_vote v : canonical v -> keeps qframe (register (VoteSaved v)).
Proof.
  intros Hv. apply keeps_modify. intros e. apply qframe_core; auto using extends_eq.
  simpl. intros cb [?|Hcb%list_elem_of_singleton]%elem_of_app; eauto.
Qed.
Lemma qf_castVote v : canonical v -> keeps qframe (castVote v false).
Proof. intros Hv. unfold castVote. pose proof (qf_register_vote v Hv). idle_auto. Qed.
#[local] Hint Extern 1 (keeps qframe (castVote _ _)) => apply qf_castVote; by intros : pools.
Lemma qf_bootstrapVoter B : keeps qframe (bootstrapVoter B).
Proof. unfold bootstrapVoter, bootstrap_vote. idle_auto. Qed.
Lemma qf_castStartupWindowSkips : keeps qframe castStartupWindowSkips.
Proof. unfold castStartupWindowSkips. idle_auto. Qed.
Lemma qf_tryVoteFinal p : keeps qframe (tryVoteFinal p).
Proof. unfold tryVoteFinal. idle_auto. Qed.
#[local] Hint Resolve qf_tryVoteFinal : pools.
Lemma qf_maybeVoteNotar id p : keeps qframe (maybeVoteNotar id p).
Proof. unfold maybeVoteNotar. idle_auto. Qed.
#[local] Hint Resolve qf_maybeVoteNotar : pools.
Lemma qf_runTask t : (forall h, t <> CallHook h) -> keeps qframe (runTask t).
Proof.
  intros Ht. destruct t; cbn [runTask]; [by edestruct Ht|..]; unfold voterNotarizationObserved, voterFinalizationObserved, onParentWaitDone; idle_auto.
Qed.
Lemma qf_fireVoterAlarm : keeps qframe fireVoterAlarm.
Proof. unfold fireVoterAlarm. idle_auto. Qed.
Lemma qf_acceptCandidate c : keeps qframe (acceptCandidate c).
Proof. unfold acceptCandidate. idle_auto. Qed.
Lemma qf_completeValidation id vd : keeps qframe (completeValidation id vd).
Proof. unfold completeValidation. idle_auto. Qed.
Lemma qf_completeStore id ok : keeps qframe (completeStore id ok).
Proof. unfold completeStore. idle_auto. Qed.
End QFrame.

(** ** The engine as built *)

Section Built.
Context `{TLRuntime} `{Ed25519} `{Machine} `{Environment}.

Record engine_config (c : EngineConfig) (e : Engine) : Prop := {
  nc_verifier : NewCertificateVerifier (ec_SessionID c) (ec_Validators c) = Ok (g_certs (e_cfg e));
  nc_validators : validators (e_cfg e) = ec_Validators c;
  nc_session : sessionID (e_cfg e) = ec_SessionID c;
  nc_local : g_localIndex (e_cfg e) = ec_LocalIndex c;
  nc_bootstrap : e_bootstrap e = ec_Bootstrap c }.

Lemma NewEngine_config c e : NewEngine c = Some (Ok e) -> engine_config c e.
Proof.
  unfold NewEngine. intros Hr. destruct (check_config c); [done|].
  destruct (totalValidatorWeight _); [|done]. destruct (NewCertificateVerifier _ _) as [v|] eqn:Ev; [|done].
  apply bind_Some in Hr as (probe & _ & Hr). destruct probe; [done|]. destruct (Params_Validate _); [done|].
  injection Hr as <-. pose proof Ev as Hv. unfold NewCertificateVerifier in Hv. destruct (_ =? _)%nat; [done|].
  destruct (totalValidatorWeight _); [|done]. unfold NewCertificateBinding in Hv. destruct (RosterDigest _); [|done].
  injection Hv as <-. by constructor.
Qed.

(** The engine as [NewEngine] builds it. *)
Record pristine (e : Engine) : Prop := {
  pr_log : e_log e = [];
  pr_callbacks : e_callbacks e = [];
  pr_pending : e_pending e = [];
  pr_verify : e_pendingVerify e = [];
  pr_cache : e_payloadCache e = ∅;
  pr_slots : pl_slots (e_pool e) = newSlotMap;
  pr_final : pl_lastFinalized (e_pool e) = Genesis;
  pr_last : pl_lastFinalCert (e_pool e) = None;
  pr_runs : pl_skipRuns (e_pool e) = [];
  pr_waits : pl_parentWaits (e_pool e) = [];
  pr_vslots : vslots e = None \/ vslots e = Some newSlotMap;
  pr_voter : g_localIndex (e_cfg e) = ObserverIndex -> e_voter e = None }.

Lemma NewEngine_pristine c e : NewEngine c = Some (Ok e) -> pristine e.
Proof.
  unfold NewEngine. intros Hr. destruct (check_config c); [done|].
  destruct (totalValidatorWeight _); [|done]. destruct (NewCertificateVerifier _ _) as [v|] eqn:Ev; [|done].
  apply bind_Some in Hr as (probe & _ & Hr). destruct probe; [done|]. destruct (Params_Validate _); [done|].
  injection Hr as <-. constructor; try done; unfold vslots, buildEngine; simpl.
  - case_match; auto.
  - intros ->. done.
Qed.

Lemma slot_at_pristine e i : pristine e -> slot_at e i = newPoolSlot (nValidators (e_cfg e)).
Proof. intros Hp. unfold slot_at. by rewrite (pr_slots e Hp). Qed.
End Built.
