(* ===== verification/SimplexRun.v ===== *)
(** * Executing the engine

    [feed] runs an engine on a list of inputs; the modules below it are concrete
    runs of a four-validator session, evaluated by the witnesses of the theorems
    on reachable states. *)

From S2P Require Import Prelude.
From S2P Require Import SimplexTypes.
From S2P Require Import SimplexSlots.
From S2P Require Import SimplexWire.
From S2P Require Import SimplexFanOut.
From S2P Require Import SimplexCert.
From S2P Require Import SimplexCandidate.
From S2P Require Import SimplexPool.
From S2P Require Import Float64.
From S2P Require Import SimplexState.
From S2P Require Import SimplexEngine.

#[local] Open Scope Z_scope.
#[local] Open Scope go_scope.

Section Feed.
Context `{TLRuntime} `{Ed25519} `{Machine} `{Environment}.

Fixpoint feed (l : list input) (e : Engine) : option Engine :=
  match l with
  | [] => Some e
  | i :: l => r ← handle i e; feed l r.2
  end.

(** [NewEngine], [Start], then the inputs. *)
Definition run_from (c : EngineConfig) (bs : BootstrapState) (l : list input) : option Engine :=
  match NewEngine c with
  | Some (Ok e) => match Start (Some bs) e with Some (None, e) => feed l e | _ => None end
  | _ => None
  end.

Lemma feed_reachable c bs l e e' :
  Forall typed_input l -> reachable c bs e -> feed l e = Some e' -> reachable c bs e'.
Proof.
  intros Hl. revert e. induction Hl as [|i l Hi _ IH]; simpl; intros e Hr; [by intros [= <-]|].
  intros ([u e1] & E1 & E2)%bind_Some. eapply IH; [|exact E2]. by eapply reach_step.
Qed.

Lemma run_from_reachable c bs l e : Forall typed_input l -> run_from c bs l = Some e -> reachable c bs e.
Proof.
  intros Hl. unfold run_from. destruct (NewEngine c) as [[e0|]|] eqn:E0; [|done..].
  destruct (Start (Some bs) e0) as [[[|] e1]|] eqn:E1; [done| |done].
  apply feed_reachable; [done|]. by eapply reach_start.
Qed.

(** The state a run ends in. *)
Definition final (c : EngineConfig) (bs : BootstrapState) (l : list input) : Engine :=
  default (buildEngine c 0 (mkVerifier zeroBinding [] 0) DefaultParams) (run_from c bs l).

Definition completes (c : EngineConfig) (bs : BootstrapState) (l : list input) : bool :=
  bool_decide (Forall typed_input l) && match run_from c bs l with Some _ => true | None => false end.

Lemma final_reachable c bs l : completes c bs l = true -> reachable c bs (final c bs l).
Proof.
  unfold completes, final. intros [Hl%bool_decide_eq_true Hc]%andb_prop. destruct (run_from c bs l) eqn:E; [|done].
  by apply (run_from_reachable c bs l).
Qed.
End Feed.

(** Four validators of weight 1, as seen by validator 1. *)
Module ExampleRun.
Import ExampleTL ExampleCert.

#[export] Instance env : Environment :=
  { env_Now n := 1000 + Z.of_nat n; env_Sign _ p := Some (mac (key 1) p) }.

Definition config : EngineConfig :=
  mkEngineConfig session 0 roster 1 4 0 (-1) 0 0 None None zeroBootstrap true true true.
Definition empty : BootstrapState := mkBootstrap 0 [] [].

(** A candidate of validator 0, the leader of slot 0, told apart by [seqno]. *)
Definition block (seqno : Z) : BlockIDExt := mkBlockIDExt (-1) 0 seqno zeroHash zeroHash.
Definition id_of (seqno : Z) : CandidateID :=
  default zeroCandidateID
    (ComputeID (mkCandidate (mkCandidateID 0 zeroHash) Genesis 0 false (block seqno) zeroHash [] None) 0).
Definition candidate (seqno : Z) : Candidate :=
  mkCandidate (id_of seqno) Genesis 0 false (block seqno) zeroHash
    (mac (key 0) (default [] (candidate_payload session (id_of seqno)))) None.

(** A notarization certificate of the other three. *)
Definition notarization (seqno : Z) : Certificate :=
  let p := default [] (vote_payload session (NotarizeVote (id_of seqno))) in
  mkCertificate (NotarizeVote (id_of seqno)) ((fun i => mkVoteSignature i (mac (key i) p)) <$> [0; 2; 3]).
Definition notarization_msg (seqno : Z) : input :=
  InMessage [7] 2 (default [] (Certificate_Serialize (notarization seqno))).

(** The candidate is stored, validated and notarized by the others; the
    callbacks left are the window, notarize and finalize saves. *)
Definition voted_inputs (seqno : Z) : list input :=
  [InCandidate (candidate seqno); InCompletion 1 (StoreCompletion true);
   InCompletion 1 (ValidationCompletion VerdictAccept);
   notarization_msg seqno; InCompletion 2 (JournalCompletion Saved)].

(** Both saves complete in order. *)
Definition in_order : list input :=
  voted_inputs 17 ++ [InCompletion 1 (JournalCompletion Saved); InCompletion 1 (JournalCompletion Saved)].
(** Only the finalize save completes. *)
Definition out_of_order : list input := voted_inputs 17 ++ [InCompletion 2 (JournalCompletion Saved)].
(** After a restart another candidate of the same slot arrives. *)
Definition second_candidate : list input :=
  [InCandidate (candidate 18); InCompletion 1 (StoreCompletion true);
   InCompletion 1 (ValidationCompletion VerdictAccept); InCompletion 1 (JournalCompletion Saved)].
End ExampleRun.
