(* ===== verification/SimplexQuorum.v ===== *)
(** * Every certificate the engine handles is a quorum

    The engine builds certificates from votes it received one by one, takes them
    from peers and recovers them from its journal.  [certified] is the invariant
    that makes all of them quorums: a recorded direct vote carries a valid
    signature, the accumulated weights never exceed the weight of the recorded
    votes, and the payload memo and the verification batch are consistent. *)

From S2P Require Import Prelude.
From S2P Require Import SimplexTypes.
From S2P Require Import SimplexSlots.
From S2P Require Import SimplexWire.
From S2P Require Import SimplexFanOut.
From S2P Require Import SimplexCert.
From S2P Require Import SimplexCandidate.
From S2P Require Import SimplexPool.
From S2P Require Import Float64.
From S2P Require Import SimplexState.
From S2P Require Import SimplexEngine.
From S2P Require Import SimplexFrame.
From S2P Require Import SimplexSteps.
From S2P Require Import SimplexPoolFrame.
From S2P Require Import SimplexRun.

#[local] Open Scope Z_scope.
#[local] Open Scope go_scope.

(** ** The vote records of a slot *)

Definition is_direct (v : Vote) (p : proven) : bool :=
  pv_set p && negb (pv_fromCert p) && bool_decide (pv_vote p = v).

(** Validator [idx] has a directly signed vote [v] on record. *)
Definition direct_at (v : Vote) (votes : list validatorVotes) (idx : nat) : bool :=
  match votes !! idx with
  | Some vv => match byKind vv (v_Kind v) with Some p => is_direct v p | None => false end
  | None => false
  end.

Section Records.
Context `{TLRuntime} `{Ed25519} `{Machine} `{Environment}.
Context (g : Config).

Definition good_cert (cert : Certificate) : Prop :=
  exists payload, vote_payload (sessionID g) (cert_Vote cert) = Some payload /\
    quorum (validators g) (threshold g) payload cert.

(** A signature of validator [idx] over the payload of [v]. *)
Definition valid_sig (v : Vote) (idx : nat) (sig : bytes) : Prop :=
  exists payload, vote_payload (sessionID g) v = Some payload /\
    verify_signature (validators g) payload (mkVoteSignature (Z.of_nat idx) sig) = true.

Definition votes_ok (i : Z) (votes : list validatorVotes) : Prop :=
  length votes = nValidators g /\
  forall idx vv, votes !! idx = Some vv -> vv_ok i vv /\
    forall p, stored vv p -> pv_fromCert p = false -> valid_sig (pv_vote p) idx (pv_sig p).

Record slot_ok (i : Z) (s : poolSlot) : Prop := {
  so_votes : votes_ok i (ps_votes s);
  so_weight : forall v, canonical v -> Vote_Slot v = i ->
    0 <= weight_of v s <= wsum (validators g) (direct_at v (ps_votes s));
  so_certs : forall k c b, certByKind s k = Some (Some c, b) -> good_cert c }.

Hypothesis Hnn : weights_nonneg (validators g).

Lemma direct_at_new v n idx : direct_at v (replicate n emptyVotes) idx = false.
Proof.
  unfold direct_at. destruct (replicate n emptyVotes !! idx) as [vv|] eqn:E; [|done].
  apply lookup_replicate in E as [-> _]. by destruct (v_Kind v).
Qed.

Lemma slot_ok_new i : slot_ok i (newPoolSlot (nValidators g)).
Proof.
  constructor.
  - split; [apply length_replicate|]. intros idx vv [-> _]%lookup_replicate. split; [apply emptyVotes_ok|].
    by intros p [Hp [-> | [-> | ->]]].
  - intros v _ _. assert (weight_of v (newPoolSlot (nValidators g)) = 0) as ->.
    { unfold weight_of. destruct (v_Kind v); simpl; rewrite ?lookup_empty; done. }
    split; [done|]. by apply wsum_nonneg.
  - intros [] c b; by intros [= ].
Qed.

Lemma slot_ok_same i s s' : same_votes s s' -> same_certs s s' -> slot_ok i s -> slot_ok i s'.
Proof.
  intros (Hv & Hs & Hn & Hf) (Cn & Cs & Cf) [Ho Hw Hc]. constructor; rewrite ?Hv; [done| |].
  - intros v Hca Hvs. specialize (Hw v Hca Hvs). revert Hw. unfold weight_of. by rewrite Hs, Hn, Hf.
  - intros k c b Hk. destruct k; simpl in Hk; try done; injection Hk as Hk _;
      rewrite ?Cn, ?Cs, ?Cf in Hk; [eapply (Hc VoteNotarize)|eapply (Hc VoteFinalize)|eapply (Hc VoteSkip)];
      simpl; by rewrite Hk.
Qed.

Lemma slot_ok_cert i s k c : slot_ok i s -> good_cert c -> slot_ok i (set_saving k false (set_cert k (Some c) s)).
Proof.
  intros [Ho Hw Hc] Hg. constructor.
  - by destruct k.
  - intros v Hca Hv. specialize (Hw v Hca Hv). by destruct k.
  - intros k' c' b Hk. destruct k, k'; simpl in Hk; try done; injection Hk as Hk _; try (by simplify_eq);
      [eapply (Hc VoteFinalize)|eapply (Hc VoteSkip)|eapply (Hc VoteNotarize)|eapply (Hc VoteSkip)
      |eapply (Hc VoteNotarize)|eapply (Hc VoteFinalize)|eapply (Hc VoteNotarize)|eapply (Hc VoteFinalize)
      |eapply (Hc VoteSkip)]; simpl; by rewrite Hk.
Qed.

(** ** Recording a vote *)

Lemma byKind_set k p vv : valid_kind k -> byKind (set_byKind k p vv) k = Some p.
Proof. by destruct k. Qed.
Lemma byKind_set_ne k k' p vv : k <> k' -> byKind (set_byKind k p vv) k' = byKind vv k'.
Proof. by destruct k, k'. Qed.
Lemma stored_set k p vv q : stored (set_byKind k p vv) q -> q = p \/ stored vv q.
Proof. unfold stored. destruct k; simpl; naive_solver. Qed.

Lemma vv_add_kind vv p r : vv_add vv p = Some r -> valid_kind (v_Kind (pv_vote p)).
Proof. unfold vv_add. by destruct (v_Kind (pv_vote p)). Qed.

(** The record after [add]: unchanged, or with the new vote in an empty place. *)
Lemma vv_add_result slot vv p r :
  vv_ok slot vv -> pv_set p = true -> Vote_Slot (pv_vote p) = slot -> vv_add vv p = Some r ->
  vv_ok slot r.2 /\
  (r.1.1 = false /\ r.2 = vv \/
   r.1 = (true, None) /\ r.2 = set_byKind (v_Kind (pv_vote p)) p vv /\ valid_kind (v_Kind (pv_vote p)) /\
   forall q, byKind vv (v_Kind (pv_vote p)) = Some q -> pv_set q = false).
Proof.
  intros Hok Hp Hs Hr. pose proof (vv_add_kind _ _ _ Hr) as Hk.
  destruct (vv_add_cases slot vv p Hok Hp Hk Hs) as (r' & Er & Hok' & Ho). rewrite Hr in Er. injection Er as <-.
  split; [done|]. destruct r as [[ok ev] vv']. simpl in *. inversion Ho as [Ha| |]; subst; [right|by left..].
  split_and!; try done. intros q Hq. destruct (pv_set q) eqn:Eq; [|done].
  destruct Hok as [Rn Rf Rs _]. unfold record_ok in *.
  assert (stored vv q /\ v_Kind (pv_vote q) = v_Kind (pv_vote p)) as [Hst Hkq].
  { unfold stored. destruct (v_Kind (pv_vote p)); simplify_eq/=; rewrite Eq in *; naive_solver. }
  by destruct (Ha q Hst).
Qed.

Lemma votes_ok_insert i votes idx vv r p :
  votes_ok i votes -> votes !! idx = Some vv -> pv_set p = true -> Vote_Slot (pv_vote p) = i ->
  (pv_fromCert p = false -> valid_sig (pv_vote p) idx (pv_sig p)) -> vv_add vv p = Some r ->
  votes_ok i (<[idx := r.2]> votes).
Proof.
  intros [Hl Ho] Hvv Hp Hs Hsig Hr. destruct (Ho idx vv Hvv) as [Hok Hst].
  destruct (vv_add_result i vv p r Hok Hp Hs Hr) as [Hok' Hcase]. split; [by rewrite length_insert|].
  intros j vv' Hj. apply list_lookup_insert_Some in Hj as [(<- & <- & _)|[_ Hj]]; [|by apply Ho].
  split; [done|]. intros q Hq Hfc. destruct Hcase as [[_ E]|(_ & E & _)]; rewrite E in Hq; [by apply Hst|].
  apply stored_set in Hq as [->|Hq]; auto.
Qed.

(** Votes on record stay on record. *)
Lemma direct_at_insert v i votes idx vv r p j :
  votes_ok i votes -> votes !! idx = Some vv -> pv_set p = true -> Vote_Slot (pv_vote p) = i ->
  vv_add vv p = Some r -> direct_at v votes j = true -> direct_at v (<[idx := r.2]> votes) j = true.
Proof.
  intros [Hl Ho] Hvv Hp Hs Hr. destruct (Ho idx vv Hvv) as [Hok _].
  destruct (vv_add_result i vv p r Hok Hp Hs Hr) as [_ Hcase]. unfold direct_at.
  destruct (decide (idx = j)) as [<-|Hne]; [|by rewrite list_lookup_insert_ne].
  rewrite Hvv, list_lookup_insert_eq by (by eapply lookup_lt_Some). intros Hd.
  destruct Hcase as [[_ ->]|(_ & -> & Hk & Hfree)]; [done|].
  destruct (decide (v_Kind (pv_vote p) = v_Kind v)) as [Ek|Nk]; [|by rewrite byKind_set_ne].
  rewrite <- Ek in Hd. destruct (byKind vv (v_Kind (pv_vote p))) as [q|] eqn:Eq; [|done].
  unfold is_direct in Hd. by rewrite (Hfree q eq_refl) in Hd.
Qed.

Lemma slot_ok_record i s idx vv r p :
  slot_ok i s -> ps_votes s !! idx = Some vv -> pv_set p = true -> Vote_Slot (pv_vote p) = i ->
  (pv_fromCert p = false -> valid_sig (pv_vote p) idx (pv_sig p)) -> vv_add vv p = Some r ->
  slot_ok i (s <| ps_votes := <[idx := r.2]> (ps_votes s) |>).
Proof.
  intros [Ho Hw Hc] Hvv Hp Hs Hsig Hr. constructor; [by eapply votes_ok_insert| |done].
  intros v Hca Hv. destruct (Hw v Hca Hv) as [Hw1 Hw2]. change (weight_of v (s <| ps_votes := _ |>)) with (weight_of v s).
  split; [done|]. etrans; [exact Hw2|]. simpl. apply wsum_mono; [done|]. intros j _. by eapply direct_at_insert.
Qed.

(** A new direct vote leaves room for its weight. *)
Lemma slot_ok_slack i s idx vv r v sig w :
  slot_ok i s -> ps_votes s !! idx = Some vv -> canonical v -> Vote_Slot v = i ->
  vv_add vv (direct_vote v sig) = Some r -> r.1.1 = true -> validators g !! idx = Some w ->
  weight_of v s + val_Weight w <= wsum (validators g) (direct_at v (<[idx := r.2]> (ps_votes s))).
Proof.
  intros [Ho Hw _] Hvv Hca Hv Hr Happ Hval. destruct (Hw v Hca Hv) as [_ Hw2]. destruct (proj2 Ho idx vv Hvv) as [Hok _].
  destruct (vv_add_result i vv (direct_vote v sig) r Hok eq_refl Hv Hr) as [_ [[? _]|(_ & E & Hk & Hfree)]]; [congruence|].
  simpl in E, Hk, Hfree. rewrite (wsum_insert (validators g) (direct_at v (ps_votes s)) _ idx w Hval); [lia|..].
  - unfold direct_at. rewrite Hvv. destruct (byKind vv (v_Kind v)) as [q|] eqn:Eq; [|done].
    unfold is_direct. by rewrite (Hfree q eq_refl).
  - unfold direct_at. rewrite list_lookup_insert_eq by (by eapply lookup_lt_Some). rewrite E, byKind_set by done.
    unfold is_direct. simpl. by apply bool_decide_eq_true.
  - intros j Hj. unfold direct_at. by rewrite list_lookup_insert_ne.
Qed.

Lemma weight_of_add v v' w s :
  valid_kind (v_Kind v) -> canonical v -> canonical v' -> Vote_Slot v = Vote_Slot v' ->
  weight_of v' (add_weight v w s) = (if decide (v' = v) then weight_of v s +₆₄ w else weight_of v' s).
Proof.
  intros Hk Hc Hc' Hs. destruct v as [k id], v' as [k' id']. unfold weight_of, add_weight, canonical, Vote_Slot in *. simpl in *.
  destruct (decide _) as [[= -> ->]|Hn].
  - destruct k; simpl; rewrite ?lookup_insert_eq; done.
  - destruct k, k'; simpl; try done; try (rewrite lookup_insert_ne; [done|]; intros ->; by apply Hn).
    exfalso. apply Hn. rewrite (Hc eq_refl), (Hc' eq_refl). by rewrite Hs.
Qed.

Lemma slot_ok_add i s v w :
  slot_ok i s -> valid_kind (v_Kind v) -> canonical v -> Vote_Slot v = i -> 0 <= w ->
  weight_of v s + w <= wsum (validators g) (direct_at v (ps_votes s)) -> slot_ok i (add_weight v w s).
Proof.
  intros [Ho Hw Hc] Hk Hca Hv Hw0 Hsl. assert (ps_votes (add_weight v w s) = ps_votes s) as Ev by (unfold add_weight; by case_match).
  constructor; rewrite ?Ev; [done| |].
  - intros v' Hca' Hv'. rewrite weight_of_add by (done || congruence). case_decide as Hd; [|by apply Hw].
    subst v'. destruct (Hw v Hca Hv) as [Hlo _]. unfold u64.
    pose proof (Z.mod_pos_bound (weight_of v s + w) (2 ^ 64) ltac:(lia)).
    pose proof (Z.mod_le (weight_of v s + w) (2 ^ 64) ltac:(lia) ltac:(lia)). lia.
  - intros k c b Hkb. eapply (Hc k c b). rewrite <- Hkb. unfold add_weight. by case_match.
Qed.

(** ** Building a certificate *)

Lemma matching_signatures_spec v votes k sigs :
  matching_signatures v (Z.of_nat k) votes = Some sigs ->
  NoDup (vs_ValidatorIndex <$> sigs) /\
  Forall (fun s => Z.of_nat k <= vs_ValidatorIndex s < Z.of_nat (k + length votes)) sigs /\
  Forall (fun s => exists vv p, votes !! (Z.to_nat (vs_ValidatorIndex s) - k)%nat = Some vv /\
    byKind vv (v_Kind v) = Some p /\ is_direct v p = true /\ vs_Signature s = pv_sig p) sigs /\
  forall j, (j < length votes)%nat -> signed_by sigs (k + j) = direct_at v votes j.
Proof.
  revert k sigs. induction votes as [|vv votes IH]; intros k sigs Hm; simpl in Hm.
  { injection Hm as <-. split_and!; by constructor. }
  apply bind_Some in Hm as (p & Hp & Hm). apply bind_Some in Hm as (rest & Hrest & [= Hm]).
  replace (Z.of_nat k + 1) with (Z.of_nat (S k)) in Hrest by lia.
  destruct (IH (S k) rest Hrest) as (Hnd & Hr & Hall & Hsb). fold (is_direct v p) in Hm.
  assert (Forall (fun s => Z.of_nat k <= vs_ValidatorIndex s < Z.of_nat (k + length (vv :: votes))) rest) as Hr'.
  { eapply Forall_impl; [exact Hr|]. simpl. lia. }
  assert (Forall (fun s => exists vv' p, (vv :: votes) !! (Z.to_nat (vs_ValidatorIndex s) - k)%nat = Some vv' /\
    byKind vv' (v_Kind v) = Some p /\ is_direct v p = true /\ vs_Signature s = pv_sig p) rest) as Hall'.
  { eapply Forall_impl; [exact (proj2 (Forall_and _ _) (conj Hr Hall))|]. simpl. intros s [Hs (vv' & q & Hl & Hq)].
    exists vv', q. split; [|done].
    replace (Z.to_nat (vs_ValidatorIndex s) - k)%nat with (S (Z.to_nat (vs_ValidatorIndex s) - S k)) by lia. done. }
  assert (forall j, signed_by rest (k + j) = true -> (0 < j)%nat) as Hlow.
  { intros j Hj. unfold signed_by in Hj. apply bool_decide_eq_true in Hj.
    apply list_elem_of_fmap in Hj as (s & E & Hin). rewrite Forall_forall in Hr. specialize (Hr s Hin). simpl in Hr. lia. }
  assert (forall j, (j < length votes)%nat -> signed_by rest (k + S j) = direct_at v (vv :: votes) (S j)) as Htail.
  { intros j Hj. replace (k + S j)%nat with (S k + j)%nat by lia. by rewrite Hsb. }
  destruct (is_direct v p) eqn:Ed; subst sigs.
  - split_and!.
    + rewrite fmap_cons. constructor; [|done]. simpl. intros (s & E & Hin)%list_elem_of_fmap.
      rewrite Forall_forall in Hr. specialize (Hr s Hin). simpl in Hr. lia.
    + constructor; [simpl; lia|done].
    + constructor; [|done]. exists vv, p. simpl. rewrite Nat2Z.id, Nat.sub_diag. done.
    + intros [|j] Hj; rewrite signed_by_cons; simpl vs_ValidatorIndex.
      * rewrite Nat.add_0_r, Z.eqb_refl. unfold direct_at. simpl. by rewrite Hp, Ed.
      * rewrite (proj2 (Z.eqb_neq _ _)) by lia. apply Htail. simpl in Hj. lia.
  - split_and!; [done..|]. intros [|j] Hj; [|apply Htail; simpl in Hj; lia].
    unfold direct_at. simpl. rewrite Hp, Ed. destruct (signed_by rest (k + 0)) eqn:E; [|done]. apply Hlow in E. lia.
Qed.

Lemma stored_byKind vv k p : byKind vv k = Some p -> pv_set p = true -> stored vv p.
Proof. intros Hk Hp. split; [done|]. destruct k; naive_solver. Qed.

(** At the threshold the recorded direct votes are a quorum. *)
Lemma built_good i s v sigs payload :
  slot_ok i s -> canonical v -> Vote_Slot v = i -> vote_payload (sessionID g) v = Some payload ->
  threshold g <= weight_of v s -> matching_signatures v 0 (ps_votes s) = Some sigs ->
  good_cert (mkCertificate v sigs).
Proof.
  intros [[Hl Ho] Hw _] Hca Hv Hp Hth Hm. destruct (Hw v Hca Hv) as [_ Hle].
  destruct (matching_signatures_spec v (ps_votes s) 0 sigs Hm) as (Hnd & Hr & Hall & Hsb).
  exists payload. split; [done|]. unfold nValidators in Hl. rewrite Nat.add_0_l, Hl in Hr. constructor; simpl; auto.
  - rewrite (wsum_ext (validators g) (signed_by sigs) (direct_at v (ps_votes s))); [lia|].
    intros j Hj. apply (Hsb j). lia.
  - eapply Forall_impl; [exact (proj2 (Forall_and _ _) (conj Hr Hall))|].
    intros [idx sg] [Hs (vv & p & Hvv & Hk & Hd & Esg)]. simpl in *. subst sg. rewrite Nat.sub_0_r in Hvv.
    unfold is_direct in Hd. apply andb_true_iff in Hd as [[Hset Hfc%negb_true_iff]%andb_true_iff Heq%bool_decide_eq_true].
    destruct (Ho _ vv Hvv) as [_ Hsig]. destruct (Hsig p (stored_byKind _ _ _ Hk Hset) Hfc) as (pl & Hpl & Hver).
    rewrite Heq, Hp in Hpl. injection Hpl as <-. rewrite Z2Nat.id in Hver by lia. done.
Qed.
End Records.

(** ** The invariant *)

Section Certified.
Context `{TLRuntime} `{Ed25519} `{Machine} `{Environment}.
Context (g : Config).
Hypothesis Hroster : good_roster (validators g) (total_weight (validators g)).

Lemma roster_nonneg : weights_nonneg (validators g).
Proof. by eapply good_roster_nonneg. Qed.
#[local] Hint Resolve roster_nonneg : core.

Definition sealed_good (vc : VerifiedCertificate) : Prop :=
  exists c, vc_cert vc = Some c /\ good_cert g c.

(** What a report of a certificate carries. *)
Definition hook_good (h : Hook) : Prop :=
  match h with
  | OnNotarized id vc => exists c, vc_cert vc = Some c /\ good_cert g c /\ cert_Vote c = NotarizeVote id
  | OnFinalized id vc => exists c, vc_cert vc = Some c /\ good_cert g c /\ cert_Vote c = FinalizeVote id
  | _ => True
  end.
Lemma plain_hook_good h : plain_hook h = true -> hook_good h.
Proof. by destruct h. Qed.

Record certified (e : Engine) : Prop := {
  ce_cfg : e_cfg e = g;
  ce_voter : g_localIndex g = ObserverIndex -> e_voter e = None;
  ce_tasks : forall h, CallHook h ∈ e_pending e -> hook_good h;
  ce_hooks : forall h, Hooked h ∈ e_log e -> hook_good h;
  ce_cache : cache_ok e;
  ce_pending : forall p, p ∈ e_pendingVerify e -> pending_ok g p;
  ce_saved : forall v, VoteSaved v ∈ e_callbacks e -> canonical v;
  ce_callbacks : forall vc, CertificateSaved vc ∈ e_callbacks e -> sealed_good vc;
  ce_log : forall c, SaveCertificate c ∈ e_log e -> good_cert g c;
  ce_slots : forall i, slot_ok g i (slot_at e i);
  ce_last : forall c, pl_lastFinalCert (e_pool e) = Some c -> good_cert g c }.

Lemma certified_qframe e e' : qframe e e' -> certified e -> certified e'.
Proof.
  intros [] []. constructor; auto.
  - congruence.
  - intros h Hh. destruct (qf_tasks h Hh); auto using plain_hook_good.
  - intros h Hh. destruct qf_log as (new & Hl & Hn). rewrite Hl in Hh. apply elem_of_app in Hh as [Hh|Hh]; [|auto].
    apply plain_hook_good, (Hn _ Hh).
  - intros p Hp. destruct (qf_verify ce_cache0 p Hp); [auto|]. by rewrite <- ce_cfg0.
  - intros v Hv. destruct (qf_saved v Hv); auto.
  - intros c Hc. destruct qf_log as (new & Hl & Hn). rewrite Hl in Hc. apply elem_of_app in Hc as [Hc|Hc]; [|auto].
    by specialize (Hn _ Hc).
  - intros i. eapply slot_ok_same; [apply qf_votes|apply qf_certs|done].
  - intros c. rewrite qf_last. auto.
Qed.

Lemma pres_qframe {A} (m : M A) : keeps qframe m -> preserves certified m.
Proof. intros Hm e a e' HI E. eapply certified_qframe; [by eapply Hm|done]. Qed.
Lemma pres_idle {A} (m : M A) : keeps idle m -> preserves certified m.
Proof. intros. by apply pres_qframe, idle_qframe. Qed.

Create HintDb certs discriminated.
Ltac cpres :=
  repeat first
    [ solve [apply pres_idle; idle_auto]
    | solve [eauto 3 with certs nocore]
    | match goal with
      | |- preserves _ (bind _ _) => apply preserves_bind; [|intros]
      | |- preserves _ (match ?x with _ => _ end) => destruct x
      end ].

(** The slots and the last certificate may change, the rest stays. *)
Lemma certified_pool e pl :
  certified e -> (forall i, slot_ok g i (slot_at (e <| e_pool := pl |>) i)) ->
  (forall c, pl_lastFinalCert pl = Some c -> good_cert g c) -> certified (e <| e_pool := pl |>).
Proof. intros []. by constructor. Qed.

Lemma certified_store p f e u e' :
  certified e -> store p f e = Some (u, e') ->
  (forall i s, p = Some i -> slots (pl_slots (e_pool e)) !! i = Some s -> slot_ok g i s -> slot_ok g i (f s)) -> certified e'.
Proof.
  intros HI (i & s & -> & Hs & ->)%store_inv Hf. apply certified_pool; [done| |by destruct HI].
  intros j. rewrite (slot_at_alter e f i s j Hs). case_decide; [|by apply (ce_slots e HI)]. subst j.
  apply (Hf i s eq_refl Hs). pose proof (ce_slots e HI i) as Hok. unfold slot_at in Hok. by rewrite Hs in Hok.
Qed.

Lemma certified_slot e i s : certified e -> slots (pl_slots (e_pool e)) !! i = Some s -> slot_ok g i s.
Proof. intros HI Hs. pose proof (ce_slots e HI i) as Hok. unfold slot_at in Hok. by rewrite Hs in Hok. Qed.

(** ** Recording votes *)

Lemma slot_add_spec i idx p e r e' :
  certified e -> slot_add (Some i) idx p e = Some (r, e') -> pv_set p = true -> Vote_Slot (pv_vote p) = i ->
  (pv_fromCert p = false -> valid_sig g (pv_vote p) (Z.to_nat idx) (pv_sig p)) ->
  certified e' /\
  forall v sig w, p = direct_vote v sig -> canonical v -> r.1 = true -> validators g !! Z.to_nat idx = Some w ->
    valid_kind (v_Kind v) /\ exists s, slots (pl_slots (e_pool e')) !! i = Some s /\
      weight_of v s + val_Weight w <= wsum (validators g) (direct_at v (ps_votes s)).
Proof.
  intros HI Hr Hp Hs Hsig. unfold slot_add in Hr. apply bind_inv in Hr as (s & e1 & E1 & Hr).
  apply load_inv in E1 as (-> & i' & [= <-] & Hsl & _). apply bind_inv in Hr as (vv & e1 & E1 & Hr).
  apply deref_inv in E1 as [Hvv ->]. apply bind_inv in Hr as (r' & e1 & E1 & Hr). apply deref_inv in E1 as [Hadd ->].
  apply bind_inv in Hr as (u & e1 & E1 & Hr). injection Hr as <- <-. split.
  - eapply certified_store; [exact HI|exact E1|]. intros j s' [= <-] Hsl' Hok. rewrite Hsl in Hsl'. injection Hsl' as <-.
    by eapply slot_ok_record.
  - intros v sig w -> Hca Happ Hw. split; [exact (vv_add_kind _ _ _ Hadd)|].
    apply store_inv in E1 as (i' & s' & [= <-] & Hsl' & ->). rewrite Hsl in Hsl'. injection Hsl' as <-.
    eexists. split; [simpl; rewrite lookup_alter_eq, Hsl; reflexivity|].
    eapply (slot_ok_slack g i s (Z.to_nat idx) vv r' v sig w); eauto. by eapply certified_slot.
Qed.

Lemma pres_save vc c :
  vc_cert vc = Some c -> good_cert g c -> preserves certified (emit (SaveCertificate c) ;;; register (CertificateSaved vc)).
Proof.
  intros Hvc Hg e u e' [] (u1 & e1 & [= <- <-] & [= <- <-])%bind_inv. constructor; auto; simpl.
  - intros h [?|?]%elem_of_cons; [done|auto].
  - intros v [?|?%list_elem_of_singleton]%elem_of_app; [auto|done].
  - intros vc' [?|E%list_elem_of_singleton]%elem_of_app; [auto|]. injection E as ->. by exists c.
  - intros c' [[= ->]|?]%elem_of_cons; auto.
Qed.

Lemma pres_handleCertificate vc : sealed_good vc -> preserves certified (handleCertificate vc).
Proof.
  intros (c & Hvc & Hg). unfold handleCertificate. rewrite Hvc.
  intros e u e' HI (c' & e1 & [= <- <-] & Hr)%bind_inv. revert HI Hr. revert e u e'.
  apply (preserves_bind certified); [cpres|intros [i|]]; [|cpres].
  apply preserves_bind; [cpres|intros s]. apply preserves_bind; [cpres|intros [|]]; cbn [negb]; [|cpres].
  apply preserves_bind; [cpres|intros _]. by apply pres_save.
Qed.

Lemma pres_onVoteApplied idx v i :
  canonical v -> Vote_Slot v = i -> (exists payload, vote_payload (sessionID g) v = Some payload) ->
  valid_kind (v_Kind v) ->
  ptriple (fun e => certified e /\ forall w, validators g !! Z.to_nat idx = Some w ->
      exists s, slots (pl_slots (e_pool e)) !! i = Some s /\
        weight_of v s + val_Weight w <= wsum (validators g) (direct_at v (ps_votes s)))
    (onVoteApplied idx v (Some i)) (fun _ => certified).
Proof.
  intros Hca Hv [payload Hpl] Hk e u e' [HI Hsl] Hr. unfold onVoteApplied in Hr.
  apply bind_inv in Hr as (g' & e1 & [= <- <-] & Hr). rewrite (ce_cfg e HI) in Hr.
  apply bind_inv in Hr as (w & e1 & E1 & Hr). apply deref_inv in E1 as [Hw ->].
  apply fmap_Some in Hw as (val & Hval & ->). destruct (Hsl val Hval) as (s & Hs & Hroom).
  apply bind_inv in Hr as (u1 & e1 & E1 & Hr).
  assert (certified e1) as HI1.
  { eapply certified_store; [exact HI|exact E1|]. intros j s' [= <-] Hs' Hok. rewrite Hs in Hs'. injection Hs' as <-.
    apply slot_ok_add; auto. pose proof roster_nonneg as Hw. unfold weights_nonneg in Hw. rewrite Forall_forall in Hw. apply Hw.
    by eapply list_elem_of_lookup_2. }
  clear HI E1 Hroom Hs s Hsl. apply bind_inv in Hr as (s & e2 & E2 & Hr). apply load_inv in E2 as (-> & j & [= <-] & Hs & _).
  destruct (Z.ltb_spec (weight_of v s) (threshold g)) as [Hlt|Hge]; [by run_inv|].
  apply bind_inv in Hr as (will & e2 & E2 & Hr). apply deref_inv in E2 as [_ ->]. destruct will; [by run_inv|].
  apply bind_inv in Hr as (cert & e2 & E2 & Hr). unfold buildCertificate in E2.
  apply bind_inv in E2 as (s' & e3 & E3 & E2). apply load_inv in E3 as (-> & j & [= <-] & Hs' & _).
  rewrite Hs in Hs'. injection Hs' as <-. apply bind_inv in E2 as (sigs & e3 & E3 & E2). apply deref_inv in E3 as [Hm ->].
  apply bind_inv in E2 as (u2 & e3 & E3 & E2). injection E2 as <- <-.
  assert (good_cert g (mkCertificate v sigs)) as Hgood.
  { eapply built_good; eauto. by eapply certified_slot. }
  apply bind_inv in Hr as (vc & e4 & E4 & Hr). injection E4 as <- <-.
  eapply pres_handleCertificate; [|eapply (pres_idle _); [|exact HI1|exact E3]; idle_auto|exact Hr]. by eexists.
Qed.

Lemma pres_applyVote idx v sig tol :
  canonical v -> valid_sig g v (Z.to_nat idx) sig -> preserves certified (applyVote idx v sig tol).
Proof.
  intros Hca Hsig e b e' HI Hr. unfold applyVote in Hr. apply bind_inv in Hr as (slot & e1 & E1 & Hr).
  assert (certified e1) as HI1 by (eapply (pres_idle _); [|exact HI|exact E1]; idle_auto).
  apply slots_at_spec in E1 as [[-> _]|(-> & _)]; [by run_inv|]. apply bind_inv in Hr as (r & e2 & E2 & Hr).
  destruct (slot_add_spec _ _ _ _ _ _ HI1 E2 eq_refl eq_refl ltac:(done)) as [HI2 Hroom].
  destruct r as [app [ev|]]; simpl in *.
  - eapply (pres_idle _); [|exact HI2|exact Hr]. idle_auto.
  - destruct app; simpl in Hr; [|by run_inv]. apply bind_inv in Hr as (u & e3 & E3 & Hr).
    apply bind_inv in Hr as (u' & e4 & E4 & Hr). run_inv.
    assert (control e2 e3) as Hc.
    { revert E3. cut (keeps control (noteOwnCandidateVote idx v)); [intros Hk; apply Hk|].
      unfold noteOwnCandidateVote. control_auto. }
    destruct Hsig as (pl & Hpl & Hver).
    assert (exists w, validators g !! Z.to_nat idx = Some w) as [w Hw].
    { unfold verify_signature in Hver. apply andb_true_iff in Hver as [_ Hver]. simpl in Hver. rewrite Nat2Z.id in Hver.
      destruct (validators g !! Z.to_nat idx); [eauto|done]. }
    destruct (Hroom v sig w eq_refl Hca eq_refl Hw) as [Hk Hs].
    eapply (pres_onVoteApplied idx v (Vote_Slot v)); [done|done|by exists pl|done| |exact E4]. split.
    + eapply certified_qframe; [by apply control_idle|done].
    + intros w' Hw'. rewrite Hw in Hw'. injection Hw' as <-. by rewrite (ctl_slots _ _ Hc).
Qed.

(** ** Storing certificates *)

Lemma pres_set_runs f : preserves certified (modify_pool (fun pl => pl <| pl_skipRuns := f pl |>)).
Proof. apply pres_qframe, qf_modify. by intros. Qed.
Lemma pres_set_final id : preserves certified (modify_pool (fun pl => pl <| pl_lastFinalized := id |>)).
Proof. apply pres_qframe, qf_modify. by intros. Qed.
Lemma pres_set_last c : good_cert g c -> preserves certified (modify_pool (fun pl => pl <| pl_lastFinalCert := Some c |>)).
Proof. intros Hg e u e' HI [= <- <-]. apply certified_pool; [done|apply (ce_slots e HI)|]. by intros ? [= <-]. Qed.

Lemma pres_prune i : preserves certified (modify_pool (fun pl => pl <| pl_slots := sm_notifyFinalized i (pl_slots pl) |>)).
Proof.
  intros e u e' HI [= <- <-]. apply certified_pool; [done| |apply (ce_last e HI)]. intros j. unfold slot_at. simpl.
  destruct (slots (sm_notifyFinalized i (pl_slots (e_pool e))) !! j) as [s|] eqn:Ej; simpl.
  - apply sm_notify_lookup in Ej. by eapply certified_slot.
  - rewrite (ce_cfg e HI). by apply slot_ok_new.
Qed.
Lemma pres_report h : hook_good h -> preserves certified (enqueue (CallHook h)).
Proof.
  intros Hh e u e' [] [= <- <-]. constructor; auto. simpl. intros h' [?|E%list_elem_of_singleton]%elem_of_app; [auto|].
  by injection E as ->.
Qed.
Lemma pres_callHook h : hook_good h -> preserves certified (callHook h).
Proof.
  intros Hh. unfold callHook. apply preserves_bind; [|intros _; cpres].
  intros e u e' [] [= <- <-]. constructor; auto; simpl.
  - intros h' [[= ->]|?]%elem_of_cons; auto.
  - intros c [?|?]%elem_of_cons; [done|auto].
Qed.
#[local] Hint Resolve pres_set_runs pres_set_final pres_set_last pres_prune : certs.

(** The call dispatches on the kind of the certificate's vote. *)
Definition certifies (k : VoteKind) (vc : VerifiedCertificate) : Prop :=
  exists c, vc_cert vc = Some c /\ good_cert g c /\ v_Kind (cert_Vote c) = k.

Lemma vote_of_kind v k : v_Kind v = k -> v = mkVote k (v_ID v).
Proof. destruct v. by intros <-. Qed.

Lemma pres_onNotar vc : certifies VoteNotarize vc -> preserves certified (onNotarCertificate vc).
Proof.
  intros (c & Hvc & Hg & Hk). unfold onNotarCertificate. cbv zeta. apply preserves_bind; [|intros _; cpres].
  apply pres_report. exists c. split_and!; [done..|]. unfold VC_Vote. rewrite Hvc. by apply vote_of_kind.
Qed.

Lemma pres_onFinal slot vc : certifies VoteFinalize vc -> preserves certified (onFinalCertificate slot vc).
Proof.
  intros (c & Hvc & Hg & Hk). unfold onFinalCertificate. rewrite Hvc.
  assert (preserves certified (enqueue (CallHook (OnFinalized (v_ID (cert_Vote c)) vc)))).
  { apply pres_report. exists c. split_and!; [done..|]. by apply vote_of_kind. }
  intros e u e' HI (c' & e1 & [= <- <-] & Hr)%bind_inv. revert e u e' HI Hr.
  apply (preserves_bind certified); [cpres|intros s]. case_match; [cpres|]. case_match; [cpres|].
  apply preserves_bind; [cpres|intros ok]. destruct ok; cbn [negb]; cpres.
Qed.

Lemma pres_storeSaved i vc : sealed_good vc -> preserves certified (storeSavedCertificate (Some i) vc).
Proof.
  intros Hvc. pose proof Hvc as (c & Hc & Hg). unfold storeSavedCertificate. rewrite Hc.
  intros e u e' HI (c' & e1 & [= <- <-] & Hr)%bind_inv. revert e u e' HI Hr.
  apply (preserves_bind certified); [cpres|intros s]. apply preserves_bind; [cpres|intros p]. case_match; [cpres|].
  apply preserves_bind.
  { intros e u e' HI Hst. eapply certified_store; [exact HI|exact Hst|]. intros. by apply slot_ok_cert. }
  intros _. do 4 (apply preserves_bind; [cpres|intros]).
  apply preserves_bind; [|intros; apply preserves_bind; [cpres|intros []]; [cpres|apply pres_qframe, qf_resolveParentWaits]].
  destruct (v_Kind (cert_Vote c)) eqn:Ek;
    [apply pres_onNotar; by exists c|apply pres_onFinal; by exists c|apply pres_qframe, qf_onSkipCertificate|cpres].
Qed.

Lemma pres_finishCertificateSave vc r : sealed_good vc -> preserves certified (finishCertificateSave vc r).
Proof.
  intros Hvc. pose proof Hvc as (c & Hc & Hg). unfold finishCertificateSave. rewrite Hc.
  intros e u e' HI (c' & e1 & [= <- <-] & Hr)%bind_inv.
  assert (forall e u e', certified e -> (slot <- slots_at (Vote_Slot (cert_Vote c)) ;;
      match slot with
      | None => ret tt
      | Some _ =>
          for_each (cert_Signatures c) (fun s =>
            r <- slot_add slot (vs_ValidatorIndex s) (cert_vote c (vs_Signature s)) ;;
            match r.2 with
            | Some ev =>
                m <- deref (conflict_misbehavior ev (vs_ValidatorIndex s)) ;;
                reportMisbehavior (vs_ValidatorIndex s) m
            | None => ret tt
            end) ;;;
          storeSavedCertificate slot vc
      end) e = Some (u, e') -> certified e') as Hsave.
  { clear e u e' HI Hr. intros e u e' HI (slot & e1 & E1 & Hr)%bind_inv.
    assert (certified e1) as HI1 by (eapply (pres_idle _); [|exact HI|exact E1]; idle_auto).
    apply slots_at_spec in E1 as [[-> _]|(-> & _)]; [by run_inv|]. apply bind_inv in Hr as (u1 & e2 & E2 & Hr).
    eapply pres_storeSaved; [exact Hvc| |exact Hr]. revert E2. apply ptriple_for_each; [|exact HI1].
    intros s _. apply (ptriple_bind _ _ _ (fun _ => certified)).
    - intros e0 r0 e0' HI0 Hadd. by eapply slot_add_spec.
    - intros [a [ev|]]; simpl.
      + change (preserves certified (m <- deref (conflict_misbehavior ev (vs_ValidatorIndex s)) ;;
          reportMisbehavior (vs_ValidatorIndex s) m)). cpres.
      + intros e0 u0 e0' HI0 [= <- <-]. done. }
  destruct r; [by eapply Hsave|by eapply Hsave|]. eapply (pres_idle _); [|exact HI|exact Hr]. idle_auto.
Qed.

(** ** Our own votes *)

(** The [Signer] contract: signatures verify under the local validator's key. *)
Definition signer_ok : Prop :=
  forall n payload sig, g_localIndex g <> ObserverIndex -> env_Sign n payload = Some sig ->
    verify_signature (validators g) payload (mkVoteSignature (u32 (g_localIndex g)) sig) = true.

Hypothesis Hsigner : signer_ok.

Lemma certified_finishVoteCast v replay : canonical v -> preserves certified (finishVoteCast v replay).
Proof.
  intros Hca e u e' HI Hr. unfold finishVoteCast in Hr. apply bind_inv in Hr as (vt & e1 & [= <- <-] & Hr).
  destruct (e_voter e) eqn:Evt; [|by run_inv]. apply bind_inv in Hr as (pl & e1 & E1 & Hr).
  assert (g_localIndex g <> ObserverIndex) as Hlocal by (intros Hl; apply (ce_voter e HI) in Hl; congruence).
  apply votePayload_spec in E1 as [Hi Hpl]. assert (certified e1) as HI1 by (eapply certified_qframe; [apply Hi|done]).
  specialize (Hpl (ce_cache e1 HI1)). rewrite (ce_cfg e1 HI1) in Hpl.
  apply bind_inv in Hr as (sig & e2 & E2 & Hr).
  assert (certified e2) as HI2 by (eapply (pres_idle _); [|exact HI1|exact E2]; idle_auto).
  injection E2 as Hsg _. destruct sig as [sig|]; [|eapply (pres_idle _); [|exact HI2|exact Hr]; idle_auto].
  revert e2 u e' HI2 Hr. apply (preserves_bind certified); [cpres|intros _].
  intros e2 u e' HI2 (local & e3 & [= <- <-] & Hr)%bind_inv. rewrite (ce_cfg e2 HI2) in Hr. revert e2 u e' HI2 Hr.
  apply (preserves_bind certified); [cpres|intros wire]. apply preserves_bind; [cpres|intros _].
  apply preserves_bind; [|intros; cpres]. apply pres_applyVote; [done|]. exists pl. split; [done|].
  pose proof (Hsigner _ _ _ Hlocal Hsg) as Hv. unfold verify_signature in *. simpl in *. by rewrite Nat2Z.id.
Qed.

Lemma pres_castVote_replay v : canonical v -> preserves certified (castVote v true).
Proof.
  intros Hca. unfold castVote. do 2 (apply preserves_bind; [cpres|intros]). case_match; [cpres|].
  apply preserves_bind; [cpres|intros _]. by apply certified_finishVoteCast.
Qed.

(** ** Messages *)

Lemma verified_valid vs p' batch :
  p' ∈ verifyPendingVotes vs batch -> (forall p, p ∈ batch -> pn_ok p = false) ->
  exists p, p ∈ batch /\ pn_vote p' = pn_vote p /\ pn_idx p' = pn_idx p /\ pn_sig p' = pn_sig p /\
    (pn_ok p' = true -> verifyPendingVote vs p = true).
Proof.
  intros Hp Hb. unfold verifyPendingVotes in Hp. destruct (_ || _).
  - apply list_elem_of_fmap in Hp as (p & -> & Hp). exists p. done.
  - apply list_elem_of_lookup in Hp as [k Hk]. rewrite list_lookup_imap in Hk. apply fmap_Some in Hk as (p & Hk & ->).
    apply list_elem_of_lookup_2 in Hk. exists p. case_bool_decide; split_and!; try done. by rewrite (Hb p Hk).
Qed.

Lemma pres_flush_vote tooNew p :
  canonical (pn_vote p) -> (pn_ok p = true -> valid_sig g (pn_vote p) (Z.to_nat (pn_idx p)) (pn_sig p)) ->
  preserves certified (flush_vote tooNew p).
Proof.
  intros Hca Hsig. unfold flush_vote, slot_wants. apply preserves_bind; [cpres|intros f]. case_match; [cpres|].
  apply preserves_bind; [cpres|intros b]. destruct b; [cpres|]. apply preserves_bind; [cpres|intros first].
  case_match; [cpres|]. apply preserves_bind; [cpres|intros slot]. destruct slot; [|cpres].
  apply preserves_bind; [cpres|intros w]. case_match; [cpres|]. destruct (pn_ok p); simpl; [|cpres].
  apply preserves_bind; [|intros; cpres]. by apply pres_applyVote; auto.
Qed.

Lemma pres_flushVerify : preserves certified flushVerify.
Proof.
  intros e u e' HI Hr. unfold flushVerify in Hr. apply bind_inv in Hr as (batch & e1 & [= <- <-] & Hr).
  case_match; [by run_inv|]. apply bind_inv in Hr as (vs & e1 & [= <- <-] & Hr). rewrite (ce_cfg e HI) in Hr.
  pose proof (ce_pending e HI) as Hb. apply bind_inv in Hr as (tooNew & e1 & E1 & Hr).
  assert (certified e1) as HI1 by (eapply (pres_idle _); [|exact HI|exact E1]; unfold firstTooNewSlot; idle_auto).
  apply bind_inv in Hr as (u1 & e2 & E2 & Hr). eapply (pres_idle _); [| |exact Hr]; [idle_auto|].
  revert E2. apply ptriple_for_each; [|exact HI1]. intros p' Hp'.
  destruct (verified_valid _ _ _ Hp' (fun p Hp => proj2 (proj2 (Hb p Hp)))) as (p & Hp & Ev & Ei & Es & Hok). destruct (Hb p Hp) as (Hpl & Hca & _).
  apply pres_flush_vote; [by rewrite Ev|]. rewrite Ev, Ei, Es. intros Hp1. specialize (Hok Hp1).
  exists (pn_payload p). split; [done|]. unfold verify_signature. simpl. rewrite Nat2Z.id. exact Hok.
Qed.

(** A certificate that passes [verifyCertificate] is a quorum. *)
Lemma parsed_indices data n cert : parseCertificate data n = Ok cert -> indices_ok cert.
Proof.
  unfold parseCertificate. destruct (tl_Parse TyCertificate data) as [[o rest]|]; [|done]. destruct o; try done.
  destruct (negb _); [done|]. destruct (voteFromTL _); [|done]. simpl. destruct (_ <? _)%nat; [done|]. intros [= <-]. unfold indices_ok. simpl. apply Forall_fmap, Forall_true. intros s. simpl.
  apply u32_range.
Qed.

Lemma verifyCertificate_spec cert e r e' :
  certified e -> indices_ok cert -> verifyCertificate cert e = Some (r, e') ->
  certified e' /\ forall vc, r = Ok vc -> sealed_good vc.
Proof.
  intros HI Hix Hr. split; [eapply (pres_idle _); [|exact HI|exact Hr]; idle_auto|].
  unfold verifyCertificate in Hr. destruct (validateCertificateVote _); [|by run_inv].
  apply bind_inv in Hr as (pl & e1 & E1 & Hr). apply votePayload_spec in E1 as [Hi Hpl].
  assert (certified e1) as HI1 by (eapply certified_qframe; [apply Hi|done]).
  specialize (Hpl (ce_cache e1 HI1)). apply bind_inv in Hr as (g' & e2 & [= <- <-] & Hr). rewrite (ce_cfg e1 HI1) in Hpl, Hr.
  destruct (verifyCertificatePayload _ _ _ _) as [[]|] eqn:Ev; run_inv; [|done]. intros vc [= <-]. exists cert. split; [done|].
  exists pl. split; [done|]. by eapply verify_payload_iff.
Qed.

Lemma pres_handleMessage src i data : Forall is_byte data -> preserves certified (handleMessage src i data).
Proof.
  intros Hd. unfold handleMessage, drop_message, firstTooNewSlot. apply preserves_bind; [cpres|intros b]. destruct b; [cpres|].
  case_match; [cpres|]. apply preserves_bind; [cpres|intros tooNew]. cbv zeta. case_match; [cpres|]. case_match; [|cpres].
  unfold handleCertificateMessage, drop_message. apply preserves_bind; [cpres|intros g']. case_match; [cpres|].
  destruct (parseCertificate data (nValidators g')) as [cert|] eqn:Ep; [|cpres]. cbv zeta.
  apply preserves_bind; [unfold slot_needs; cpres|intros wanted]. case_match; [cpres|].
  apply (ptriple_bind _ _ _ (fun r e => certified e /\ forall vc, r = Ok vc -> sealed_good vc)).
  - intros e r e' HI Hr. eapply verifyCertificate_spec; [done| |exact Hr]. by eapply parsed_indices.
  - intros [vc|err]; intros e u e' [HI Hvc] Hr; [|eapply (pres_idle _); [|exact HI|exact Hr]; idle_auto].
    revert e u e' HI Hr Hvc. intros e u e' HI Hr Hvc. specialize (Hvc vc eq_refl). revert e u e' HI Hr.
    apply (preserves_bind certified); [unfold slot_needs; cpres|intros w]. case_match; [cpres|]. by apply pres_handleCertificate.
Qed.

(** ** Composition *)

Definition completed_ok (cb : Callback) : Prop :=
  match cb with VoteSaved v => canonical v | CertificateSaved vc => sealed_good vc | _ => True end.

Lemma certified_step V : Forall canonical V ->
  step_invariant certified (fun t _ => forall h, t = CallHook h -> hook_good h) (fun cb _ _ => completed_ok cb) V sealed_good.
Proof.
  intros HV. rewrite Forall_forall in HV. constructor.
  - intros e e' Hc. by apply certified_qframe, control_idle.
  - intros e t rest Hq HI. split.
    + eapply certified_qframe; [|exact HI]. apply qframe_core; auto using extends_eq. intros h Hh. left. rewrite Hq. by right.
    + intros h ->. apply (ce_tasks e HI). rewrite Hq. left.
  - intros t e u e' [HI Ht] Hr. destruct t; [by eapply pres_callHook; eauto|..]; 
      (eapply pres_qframe; [|exact HI|exact Hr]; by apply qf_runTask).
  - apply pres_handleMessage.
  - apply pres_flushVerify.
  - intros g0 c cc _ _ _ e u e' [HI _]. by apply (pres_qframe _ (qf_acceptCandidate cc)).
  - apply pres_qframe, qf_fireVoterAlarm.
  - intros. cpres.
  - intros. cpres.
  - intros. cpres.
  - intros k cb c e u e' [HI Hk] Hr. assert (cb ∈ e_callbacks e) as Hin by by eapply list_elem_of_lookup_2. split.
    + revert HI Hr. revert e u e' Hk Hin. cut (preserves certified
        (modify (fun e => e <| e_callbacks := delete k (e_callbacks e) |>) ;;; emit (Completed cb c))); [eauto|]. cpres.
    + destruct cb; simpl; try done; [by eapply ce_saved|by eapply ce_callbacks].
  - intros v [] e u e' [HI Hca]; simpl in *; [by apply certified_finishVoteCast|intros; by run_inv|].
    by apply (pres_idle _ (idle_fatal _)).
  - intros vc r e u e' [HI Hvc]. by apply pres_finishCertificateSave.
  - intros id ok e u e' [HI _]. by apply (pres_qframe _ (qf_completeStore id ok)).
  - intros id vd e u e' [HI _]. by apply (pres_qframe _ (qf_completeValidation id vd)).
  - apply pres_qframe, qf_bootstrapVoter.
  - cpres.
  - intros vc Hvc. pose proof Hvc as (c & Hc & _). rewrite Hc.
    intros e u e' HI (c' & e1 & [= <- <-] & Hr)%bind_inv. apply bind_inv in Hr as (slot & e1 & E1 & Hr).
    assert (certified e1) as HI1 by (eapply (pres_idle _); [|exact HI|exact E1]; idle_auto).
    destruct slot as [i|]; [|by run_inv]. revert e1 u e' HI1 Hr E1. intros e1 u e' HI1 Hr _. revert e1 u e' HI1 Hr.
    do 2 (apply (preserves_bind certified); [cpres|intros]). case_match; [cpres|]. by apply pres_storeSaved.
  - intros v Hv. apply pres_castVote_replay. auto.
  - apply pres_qframe, qf_castStartupWindowSkips.
  - intros. cpres.
  - cpres.
Qed.
End Certified.

(** ** Reachable states *)

(** A [ValidatedBootstrap] is the zero value or comes from [ValidateBootstrap]:
    its fields are not exported.  The roster it was validated for and the
    session's own do not collide under [RosterDigest]. *)
Definition genuine `{TLRuntime} `{Ed25519} `{Machine} (roster : list Validator) (vb : ValidatedBootstrap) : Prop :=
  vb = zeroBootstrap \/
  exists sid vs st, length sid = 32%nat /\ Forall no_wrap_weight vs /\
    Forall typed_certificate (bs_Certificates st) /\ ValidateBootstrap sid vs (Some st) = Some (Ok vb) /\
    (RosterDigest vs = RosterDigest roster -> vs = roster).

Section Reachable.
Context `{TLLaws} `{Ed25519} `{Machine} `{Environment}.

Lemma ValidateBootstrap_sealed sid vs st vb :
  length sid = 32%nat -> Forall no_wrap_weight vs -> Forall typed_certificate (bs_Certificates st) ->
  ValidateBootstrap sid vs (Some st) = Some (Ok vb) ->
  vb_sealed vb = [] \/ exists v, NewCertificateVerifier sid vs = Ok v /\ vb_binding vb = cv_binding v /\
    Forall (sealed_quorum sid vs (cv_binding v)) (vb_sealed vb).
Proof.
  intros Hs Hw Hc. unfold ValidateBootstrap. destruct (_ =? _)%nat.
  { destruct (NewCertificateBinding sid vs); intros [= <-]; by left. }
  destruct (NewCertificateVerifier sid vs) as [v|] eqn:Ev; [|done].
  destruct (bootstrap_loop_spec sid vs v _ Hs Hw Ev Hc) as (r & Er & Hr). rewrite Er. simpl.
  destruct r as [sealed|]; [|done]. intros [= <-]. right. exists v. split_and!; [done..|]. by apply Hr.
Qed.

Lemma certified_pristine e :
  good_roster (validators (e_cfg e)) (total_weight (validators (e_cfg e))) -> pristine e -> certified (e_cfg e) e.
Proof.
  intros Hgr Hp. pose proof (fun i => slot_at_pristine e i Hp) as Hsl. destruct Hp. constructor; try done.
  - rewrite pr_pending. by intros h ?%elem_of_nil.
  - rewrite pr_log. by intros h ?%elem_of_nil.
  - intros k v p. by rewrite pr_cache, lookup_empty.
  - rewrite pr_verify. by intros p ?%elem_of_nil.
  - rewrite pr_callbacks. by intros v ?%elem_of_nil.
  - rewrite pr_callbacks. by intros v ?%elem_of_nil.
  - rewrite pr_log. by intros c ?%elem_of_nil.
  - intros i. rewrite Hsl. apply slot_ok_new. by eapply good_roster_nonneg.
  - by rewrite pr_last.
Qed.

(** What the engine is given: a session id, a roster whose weights do not wrap, a
    signer that keeps its contract, and a journal of Go values. *)
Record setup (c : EngineConfig) (bs : BootstrapState) : Prop := {
  su_session : length (ec_SessionID c) = 32%nat;
  su_roster : roster_slice (ec_Validators c);
  su_weights : Forall no_wrap_weight (ec_Validators c);
  su_signer : forall n payload sig, ec_LocalIndex c <> ObserverIndex -> env_Sign n payload = Some sig ->
    verify_signature (ec_Validators c) payload (mkVoteSignature (u32 (ec_LocalIndex c)) sig) = true;
  su_votes : Forall low_vote (bs_OurVotes bs);
  su_certs : Forall typed_certificate (bs_Certificates bs);
  su_bootstrap : genuine (ec_Validators c) (ec_Bootstrap c) }.

(** A quorum of the roster signed the certificate's vote for the session. *)
Definition quorum_of (sid : bytes) (vs : list Validator) (cert : Certificate) : Prop :=
  exists payload, vote_payload sid (cert_Vote cert) = Some payload /\
    quorum vs (quorumThreshold (total_weight vs)) payload cert.
Definition is_quorum (c : EngineConfig) (cert : Certificate) : Prop :=
  quorum_of (ec_SessionID c) (ec_Validators c) cert.

Lemma sealed_quorum_is c b vc : sealed_quorum (ec_SessionID c) (ec_Validators c) b vc ->
  exists cert, vc_cert vc = Some cert /\ sized_vote (cert_Vote cert) /\ is_quorum c cert.
Proof. intros (_ & cert & p & Hc & Hwf & Hp & Hq). exists cert. split_and!; [done..|]. by exists p. Qed.

(** The certificates [Start] recovers are quorums of this session. *)
Lemma recovered_quorums c bs e0 vb :
  setup c bs -> NewEngine c = Some (Ok e0) -> validated_start e0 bs vb ->
  Forall (fun vc => exists cert, vc_cert vc = Some cert /\ sized_vote (cert_Vote cert) /\ is_quorum c cert) (vb_sealed vb).
Proof.
  intros [Hs _ Hw _ _ Hc Hg] [Hv Evs Es _ Eb]%NewEngine_config Hst.
  assert (forall sid vs st, length sid = 32%nat -> (RosterDigest vs = RosterDigest (ec_Validators c) -> vs = ec_Validators c) ->
    Forall no_wrap_weight vs ->
    Forall typed_certificate (bs_Certificates st) -> ValidateBootstrap sid vs (Some st) = Some (Ok vb) ->
    (vb_sealed vb <> [] -> vb_binding vb = binding (e_cfg e0)) ->
    Forall (fun vc => exists cert, vc_cert vc = Some cert /\ sized_vote (cert_Vote cert) /\ is_quorum c cert) (vb_sealed vb)) as Hcase.
  { intros sid vs st Hs' Hr' Hw' Hc' Hval Hb.
    destruct (ValidateBootstrap_sealed sid vs st vb Hs' Hw' Hc' Hval) as [->|(v & Hv' & Ebv & Hall)]; [by constructor|].
    destruct (vb_sealed vb) as [|vc l] eqn:El; [by constructor|]. rewrite <- El in *.
    destruct (NewCertificateVerifier_ok _ _ _ Hw' Hv') as (_ & _ & Esid & _ & Eb').
    destruct (NewCertificateVerifier_ok _ _ _ Hw Hv) as (_ & _ & Esid2 & _ & Eb2).
    assert (cv_binding v = cv_binding (g_certs (e_cfg e0))) as Ebb by (rewrite <- Ebv; apply Hb; by rewrite El).
    assert (sid = ec_SessionID c) as -> by congruence.
    unfold NewCertificateBinding in Eb', Eb2. destruct (RosterDigest vs) as [d|] eqn:Ed; [|done].
    destruct (RosterDigest (ec_Validators c)) as [d'|] eqn:Ed'; [|done]. simpl in Eb', Eb2.
    assert (d = d') as <- by congruence.
    rewrite Hr' in Hall by congruence. eapply Forall_impl; [exact Hall|]. intros vc'. apply sealed_quorum_is. }
  destruct Hst as [(-> & Hst & Hb)|Hval].
  - destruct Hg as [Hz|(sid & vs & st & Hs' & Hw' & Hc' & Hval & Hr')]; [by rewrite Eb, Hz in Hst|].
    rewrite Eb in *. eapply Hcase; eauto.
  - rewrite Es, Evs in Hval. eapply Hcase; [exact Hs|done|exact Hw|exact Hc|exact Hval|]. intros Hne.
    destruct (ValidateBootstrap_sealed _ _ _ _ Hs Hw Hc Hval) as [?|(v & Hv' & -> & _)]; [done|].
    unfold binding. congruence.
Qed.

(** A certificate good for the engine as built is a quorum of the session. *)
Lemma NewEngine_good c bs e0 :
  setup c bs -> NewEngine c = Some (Ok e0) ->
  good_roster (ec_Validators c) (total_weight (ec_Validators c)) /\
  forall cert, good_cert (e_cfg e0) cert <-> is_quorum c cert.
Proof.
  intros [_ _ Hw _ _ _ _] [Hv Evs Es _ _]%NewEngine_config.
  destruct (NewCertificateVerifier_ok _ _ _ Hw Hv) as (Hgr & _ & _ & Eth & _). split; [done|].
  intros cert. unfold good_cert, is_quorum, quorum_of. rewrite Es, Evs. unfold threshold. by rewrite Eth.
Qed.

Lemma reachable_certified c bs e :
  setup c bs -> reachable c bs e ->
  (exists g, certified g e /\ validators g = ec_Validators c /\
    forall cert, good_cert g cert <-> is_quorum c cert).
Proof.
  intros Hsu (e0 & vb & Hn & Hvs & Hinv)%reachable_step_invariant.
  pose proof (recovered_quorums c bs e0 vb Hsu Hn Hvs) as Hall.
  destruct (NewEngine_good c bs e0 Hsu Hn) as [Hgr Hiff]. pose proof (NewEngine_config c e0 Hn) as [Hv Evs Es El _].
  destruct Hsu as [Hs Hr Hw Hsg Hvo _ _].
  exists (e_cfg e0). split_and!; [|done..]. eapply Hinv.
  - apply certified_step; [by rewrite Evs| |eapply Forall_impl; [exact Hvo|intros v [? _]; by apply sized_canonical]].
    unfold signer_ok. rewrite Evs, El. exact Hsg.
  - apply certified_pristine; [by rewrite Evs|by eapply NewEngine_pristine].
  - eapply Forall_impl; [exact Hall|]. intros vc (cert & Hc & _ & Hq). exists cert. split; [done|]. by apply Hiff.
Qed.

(** C25: every certificate the engine journals, and every certificate it hands to
    the node with a notarization or finalization report, is a quorum: distinct
    members of the roster, together at least the [2/3 + 1] threshold, each with
    a valid signature over this session's payload of the reported vote.  It holds
    whether the engine built the certificate from votes it collected, received it
    from a peer, or recovered it from the journal, and whatever the peers, the
    journal's completions and the clock do. *)
Theorem reported_certificates_are_quorums c bs e :
  setup c bs -> reachable c bs e ->
  (forall cert, SaveCertificate cert ∈ e_log e -> is_quorum c cert) /\
  (forall id vc, Hooked (OnNotarized id vc) ∈ e_log e ->
    exists cert, vc_cert vc = Some cert /\ cert_Vote cert = NotarizeVote id /\ is_quorum c cert) /\
  (forall id vc, Hooked (OnFinalized id vc) ∈ e_log e ->
    exists cert, vc_cert vc = Some cert /\ cert_Vote cert = FinalizeVote id /\ is_quorum c cert).
Proof.
  intros Hsu Hr. destruct (reachable_certified c bs e Hsu Hr) as (g & HI & _ & Hiff).
  split; [|split].
  - intros cert Hc. by apply Hiff, (ce_log g e HI).
  - intros id vc Hh. destruct (ce_hooks g e HI _ Hh) as (cert & Hc & Hg & Hv). exists cert. by rewrite <- Hiff.
  - intros id vc Hh. destruct (ce_hooks g e HI _ Hh) as (cert & Hc & Hg & Hv). exists cert. by rewrite <- Hiff.
Qed.
End Reachable.

(** ** Example *)

Module ExampleQuorum.
Import ExampleTL ExampleCert ExampleRun.

(** A run in which a notarization is received, saved and reported. *)
Definition notarized : Engine := final config empty (voted_inputs 17).

Lemma notarized_reachable : reachable config empty notarized.
Proof. apply final_reachable. vm_compute. reflexivity. Qed.

Lemma mac_signer n : length (mac (key 1) n) = SignatureSize.
Proof. unfold mac. rewrite !length_app, length_le_put. reflexivity. Qed.

Lemma example_setup : setup config empty.
Proof.
  constructor.
  - reflexivity.
  - split; [reflexivity|repeat constructor; simpl; lia].
  - exact roster_no_wrap.
  - intros n p sig _ E. injection E as <-. unfold verify_signature. cbn [vs_Signature vs_ValidatorIndex].
    rewrite mac_signer. cbn. by apply bool_decide_eq_true.
  - constructor.
  - constructor.
  - left. reflexivity.
Qed.

Definition reports (e : Engine) : list Hook :=
  omap (fun ev => match ev with Hooked (OnNotarized _ _ as h) => Some h | _ => None end) (e_log e).
Definition report : Hook :=
  OnNotarized (id_of 17) (sealCertificate (notarization 17) (cv_binding verifier)).
Lemma report_sent : reports notarized = [report].
Proof. vm_compute. reflexivity. Qed.

Lemma reported_certificates_are_quorums_witness :
  reports notarized = [report] /\
  ((forall cert, SaveCertificate cert ∈ e_log notarized -> is_quorum config cert) /\
   (forall id vc, Hooked (OnNotarized id vc) ∈ e_log notarized ->
     exists cert, vc_cert vc = Some cert /\ cert_Vote cert = NotarizeVote id /\ is_quorum config cert) /\
   (forall id vc, Hooked (OnFinalized id vc) ∈ e_log notarized ->
     exists cert, vc_cert vc = Some cert /\ cert_Vote cert = FinalizeVote id /\ is_quorum config cert)).
Proof.
  split; [exact report_sent|].
  apply (reported_certificates_are_quorums config empty notarized example_setup notarized_reachable).
Defined.
End ExampleQuorum.
