(* ===== verification/SimplexJustify.v ===== *)
(** * What a notarize vote rests on

    A validator notarizes a candidate only after its pool has seen the parent
    certified and every slot between the two skipped.  [backed] states this of
    the certificates the engine recovered or journaled; [jinv] is the invariant
    that carries it from the evaluation of a parent wait in [pool.go] through the
    task queue, the voter's slots and the validation callback to the vote. *)

From S2P Require Import Prelude.
From S2P Require Import SimplexTypes.
From S2P Require Import SimplexSlots.
From S2P Require Import SimplexWire.
From S2P Require Import Sha256.
From S2P Require Import SimplexFanOut.
From S2P Require Import SimplexCert.
From S2P Require Import SimplexCandidate.
From S2P Require Import SimplexPool.
From S2P Require Import Float64.
From S2P Require Import SimplexState.
From S2P Require Import SimplexEngine.
From S2P Require Import SimplexFrame.
From S2P Require Import SimplexSteps.
From S2P Require Import SimplexPoolFrame.
From S2P Require Import SimplexRun.
From S2P Require Import SimplexQuorum.

#[local] Open Scope Z_scope.
#[local] Open Scope go_scope.

(** ** Known certificates *)

(** The first slot a child of [p] may take. *)
Definition nextAfter (p : ParentID) : Z :=
  if par_Exists p then cid_Slot (par_ID p) +₃₂ 1 else 0.

(** A candidate that passed the checks of [SubmitCandidate]. *)
Record submitted `{TLRuntime} (c : Candidate) : Prop := {
  sb_shape : ValidateShape c = Ok tt;
  sb_id : ComputeID c (cid_Slot (c_ID c)) = Some (c_ID c);
  sb_typed : typed_candidate c;
  sb_sized : sized_id (c_ID c) }.

Section Known.
Context (R : list VerifiedCertificate).

(** Recovered from the journal, or handed to it. *)
Definition known (e : Engine) (c : Certificate) : Prop :=
  (exists vc, vc ∈ R /\ vc_cert vc = Some c) \/ SaveCertificate c ∈ e_log e.

Definition known_at (e : Engine) (k : VoteKind) (slot : Z) : Prop :=
  exists c, known e c /\ v_Kind (cert_Vote c) = k /\ Vote_Slot (cert_Vote c) = slot.

Definition parent_known (e : Engine) (p : ParentID) : Prop :=
  p = Genesis \/
  exists c, known e c /\ par_Exists p = true /\ v_ID (cert_Vote c) = par_ID p /\
    (v_Kind (cert_Vote c) = VoteNotarize \/ v_Kind (cert_Vote c) = VoteFinalize).

Definition gap_known (e : Engine) (p : ParentID) (slot : Z) : Prop :=
  forall j, nextAfter p <= j < slot -> known_at e VoteSkip j.

(** The last 32-bit slot has been finalized: the slot counter wraps. *)
Definition exhausted (e : Engine) : Prop := known_at e VoteFinalize (2 ^ 32 - 1).

Definition backed (e : Engine) (c : Candidate) : Prop :=
  parent_known e (c_Parent c) /\ (gap_known e (c_Parent c) (cid_Slot (c_ID c)) \/ exhausted e).

Definition vouched `{TLRuntime} (e : Engine) (id : CandidateID) : Prop :=
  exists c, c_ID c = id /\ submitted c /\ backed e c.

Definition log_grows (e e' : Engine) : Prop := forall ev, ev ∈ e_log e -> ev ∈ e_log e'.

Lemma known_mono e e' c : log_grows e e' -> known e c -> known e' c.
Proof. intros Hl [?|?]; [by left|right; auto]. Qed.
Lemma known_at_mono e e' k i : log_grows e e' -> known_at e k i -> known_at e' k i.
Proof. intros Hl (c & Hc & ?). exists c. eauto using known_mono. Qed.
Lemma parent_known_mono e e' p : log_grows e e' -> parent_known e p -> parent_known e' p.
Proof. intros Hl [?|(c & Hc & ?)]; [by left|right; exists c; eauto using known_mono]. Qed.
Lemma backed_mono e e' c : log_grows e e' -> backed e c -> backed e' c.
Proof.
  intros Hl [Hp Hg]. split; [eauto using parent_known_mono|]. destruct Hg as [Hg|Hx]; [left|right].
  - intros j Hj. eauto using known_at_mono.
  - by eapply known_at_mono.
Qed.
Lemma vouched_mono `{TLRuntime} e e' id : log_grows e e' -> vouched e id -> vouched e' id.
Proof. intros Hl (c & ? & ? & ?). exists c. eauto using backed_mono. Qed.

Lemma extends_grows P e e' : extends P e e' -> log_grows e e'.
Proof. intros (new & Hl & _) ev Hev. rewrite Hl. set_solver. Qed.

(** ** The invariant *)

Definition skipped (e : Engine) (j : Z) : Prop := ps_skipCert (slot_at e j) <> None.

(** The end of every run of skipped slots is on record; [x] is exempt. *)
Definition runs_except (x : Z) (e : Engine) : Prop :=
  forall j, first_live e <= j -> j + 1 < 2 ^ 32 -> j <> x -> skipped e j -> ~ skipped e (j + 1) ->
    j + 1 ∈ pl_skipRuns (e_pool e).

Record vslot_backed `{TLRuntime} (e : Engine) (s : voterSlot) : Prop := {
  vb_pending : forall c, vs_pending s = Some c -> submitted c /\ cid_Slot (c_ID c) < lastSlot;
  vb_vouched : vs_validationInFlight s = true \/ vs_validated s = true ->
    exists c, vs_pending s = Some c /\ vouched e (c_ID c);
  vb_low : forall id, vs_votedNotar s = Some id -> low_id id }.

Record jinv_but `{TLRuntime} (x : Z) (e : Engine) : Prop := {
  ji_sized : forall c, known e c -> sized_vote (cert_Vote c);
  ji_certs : forall i k c b, certByKind (slot_at e i) k = Some (Some c, b) ->
    known e c /\ v_Kind (cert_Vote c) = k /\ Vote_Slot (cert_Vote c) = i;
  ji_last : match pl_lastFinalCert (e_pool e) with
            | Some c => known e c /\ v_Kind (cert_Vote c) = VoteFinalize /\
                        pl_lastFinalized (e_pool e) = Parent (v_ID (cert_Vote c))
            | None => pl_lastFinalized (e_pool e) = Genesis
            end;
  ji_first : 0 <= first_live e;
  ji_sorted : sorted (pl_skipRuns (e_pool e));
  ji_runs : exhausted e \/ runs_except x e;
  ji_callbacks : forall vc, CertificateSaved vc ∈ e_callbacks e -> exists c, vc_cert vc = Some c /\ known e c;
  ji_saved : forall v, VoteSaved v ∈ e_callbacks e -> sized_vote v;
  ji_verify : forall p, p ∈ e_pendingVerify e -> sized_vote (pn_vote p);
  ji_tasks : forall c out, ParentWaitDone c out ∈ e_pending e -> submitted c /\ (out = outcome_ok -> backed e c);
  ji_waits : forall c, c ∈ pl_parentWaits (e_pool e) -> submitted c;
  ji_vslots : forall m i s, vslots e = Some m -> slots m !! i = Some s -> vslot_backed e s;
  ji_votes : forall v, SaveOurVote v ∈ e_log e ->
    low_vote v /\ (v_Kind v = VoteNotarize -> vouched e (v_ID v)) }.

(** Slots are not negative, so nothing is exempt. *)
Abbreviation jinv := (jinv_but (-1)).

Lemma vslot_backed_mono `{TLRuntime} e e' s : log_grows e e' -> vslot_backed e s -> vslot_backed e' s.
Proof.
  intros Hl []. constructor; auto. intros Hf. destruct (vb_vouched0 Hf) as (c & ? & ?). eauto using vouched_mono.
Qed.
End Known.

Create HintDb justify discriminated.
#[export] Hint Resolve known_mono known_at_mono parent_known_mono backed_mono vouched_mono vslot_backed_mono : justify.

Section Justify.
Context `{TLRuntime} `{Ed25519} `{Machine} `{Environment}.
Context (R : list VerifiedCertificate).

Abbreviation known := (known R).
Abbreviation known_at := (known_at R).
Abbreviation parent_known := (parent_known R).
Abbreviation gap_known := (gap_known R).
Abbreviation exhausted := (exhausted R).
Abbreviation backed := (backed R).
Abbreviation vouched := (vouched R).
Abbreviation vslot_backed := (vslot_backed R).
Abbreviation jinv_but := (jinv_but R).
Abbreviation jinv := (jinv_but (-1)).

Lemma certs_same s s' k c b :
  same_certs s s' -> certByKind s' k = Some (Some c, b) -> exists b', certByKind s k = Some (Some c, b').
Proof. intros (Hn & Hs & Hf). destruct k; simpl; intros [= E _] || done; rewrite ?Hn, ?Hs, ?Hf in E; eexists; by rewrite E. Qed.

(** A known certificate under [jframe] was known before. *)
Lemma known_jframe e e' c : jframe e e' -> known e' c -> known e c.
Proof.
  intros Hj [?|Hc]; [by left|]. right. destruct (jf_log _ _ Hj) as (new & Hl & Hn). rewrite Hl in Hc.
  apply elem_of_app in Hc as [Hc|?]; [|done]. by specialize (Hn _ Hc).
Qed.

Lemma jframe_grows e e' : jframe e e' -> log_grows e e'.
Proof. intros Hj. eapply extends_grows, (jf_log _ _ Hj). Qed.

Lemma jinv_jframe x e e' : jframe e e' -> jinv_but x e -> jinv_but x e'.
Proof.
  intros Hj HI. pose proof (jframe_grows _ _ Hj) as Hl. pose proof Hj as Hj'. destruct Hj', HI.
  assert (forall j, skipped e' j <-> skipped e j) as Hsk.
  { intros j. unfold skipped. by rewrite (proj1 (proj2 (jf_certs j))). }
  constructor.
  - intros c Hc. eapply ji_sized0, known_jframe; eauto.
  - intros i k c b Hc. destruct (certs_same _ _ _ _ _ (jf_certs i) Hc) as [b' Hc'].
    destruct (ji_certs0 _ _ _ _ Hc') as (? & ? & ?). split_and!; eauto using known_mono.
  - rewrite jf_last, jf_final. destruct (pl_lastFinalCert (e_pool e)); [|done].
    destruct ji_last0 as (? & ? & ?). split_and!; eauto using known_mono.
  - by rewrite jf_first.
  - by rewrite jf_runs.
  - destruct ji_runs0 as [Hx|Hr]; [left; by eapply known_at_mono|right].
    intros j. rewrite jf_first, jf_runs, !Hsk. apply Hr.
  - intros vc Hv. destruct (ji_callbacks0 _ (jf_callbacks _ Hv)) as (c & ? & ?). eauto using known_mono.
  - auto.
  - intros p Hp. destruct (jf_verify _ Hp); auto.
  - intros c out Hp. destruct (ji_tasks0 _ _ (jf_pending _ _ Hp)) as [? Hb]. split; [done|]. eauto using backed_mono.
  - auto.
  - intros m i s. rewrite jf_vslots. intros Hm Hs. eauto using vslot_backed_mono.
  - intros v Hv. destruct jf_log as (new & Hlog & Hn). rewrite Hlog in Hv.
    apply elem_of_app in Hv as [Hv|Hv]; [by specialize (Hn _ Hv)|]. destruct (ji_votes0 _ Hv) as [? Hvo]. eauto using vouched_mono.
Qed.

Lemma jpres_jframe {A} x (m : M A) : keeps jframe m -> preserves (jinv_but x) m.
Proof. intros Hm e a e' HI E. eapply jinv_jframe; [by eapply Hm|done]. Qed.
Lemma jpres_idle {A} x (m : M A) : keeps idle m -> preserves (jinv_but x) m.
Proof. intros Hm. apply jpres_jframe. intros e a e' E. by destruct (Hm _ _ _ E). Qed.

Create HintDb jsteps discriminated.
Ltac jpres :=
  repeat first
    [ solve [apply jpres_idle; idle_auto]
    | solve [eauto 3 with jsteps nocore]
    | match goal with
      | |- preserves _ (bind _ _) => apply preserves_bind; [|intros]
      | |- preserves _ (match ?x with _ => _ end) => destruct x
      end ].

(** ** Evaluation of a parent wait *)

(** All slots up to the next recorded run end are skipped. *)
Lemma run_skipped e next stop :
  runs_except (-1) e -> sorted (pl_skipRuns (e_pool e)) -> first_live e <= next -> 0 <= next -> skipped e next ->
  lowerBound next (pl_skipRuns (e_pool e)) = Some stop ->
  forall j, next <= j < stop -> j < 2 ^ 32 -> skipped e j.
Proof.
  intros Hr Hs Hf H0n Hn Hlb. pose proof (lowerBound_spec (pl_skipRuns (e_pool e)) next Hs) as Hb. rewrite Hlb in Hb.
  destruct Hb as (_ & _ & Hleast). intros j Hj Hj32. replace j with (next + Z.of_nat (Z.to_nat (j - next))) in * by lia.
  generalize dependent (Z.to_nat (j - next)). intros n. induction n as [|n IH]; intros Hj Hj32; [by rewrite Z.add_0_r|].
  destruct (decide (ps_skipCert (slot_at e (next + Z.of_nat (S n))) = None)) as [Ez|]; [exfalso|done].
  assert (next + Z.of_nat n + 1 ∈ pl_skipRuns (e_pool e)) as Hin.
  { apply Hr; try lia; [apply IH; lia|]. unfold skipped. replace (next + Z.of_nat n + 1) with (next + Z.of_nat (S n)) by lia. by intros []. }
  specialize (Hleast _ Hin). lia.
Qed.

Lemma skipped_known x e j : jinv_but x e -> skipped e j -> known_at e VoteSkip j.
Proof.
  intros HI Hs. unfold skipped in Hs. destruct (ps_skipCert (slot_at e j)) as [c|] eqn:E; [|done].
  destruct (ji_certs R x e HI j VoteSkip c (ps_skipSaving (slot_at e j))) as (? & ? & ?); [simpl; by rewrite E|].
  by exists c.
Qed.

(** A slot read after [slots_at], in terms of the state before. *)
Lemma slots_at_load i e p e1 s e2 :
  slots_at i e = Some (p, e1) -> load p e1 = Some (s, e2) ->
  e2 = e1 /\ idle e e1 /\ first_live e <= i /\ same_certs (slot_at e i) s.
Proof.
  intros E1 (-> & j & -> & Hs & Hsl)%load_inv. pose proof (idle_slots_at i _ _ _ E1) as Hi.
  apply slots_at_spec in E1 as [[? _]|([= ->] & Hf & _)]; [done|]. split_and!; [done..|]. rewrite <- Hsl.
  apply (qf_certs _ _ (proj1 Hi)).
Qed.

Lemma evaluateSkips_spec id next e e' :
  jinv e -> 0 <= next -> cid_Slot id < 2 ^ 32 ->
  evaluateSkips id next e = Some ((true, outcome_ok), e') ->
  (forall j, next <= j < cid_Slot id -> known_at e VoteSkip j) \/ exhausted e.
Proof.
  intros HI Hn Hid Hr. unfold evaluateSkips in Hr. destruct (Z.eqb_spec next (cid_Slot id)) as [E|N]; [left; lia|].
  apply bind_inv in Hr as (p & e1 & E1 & Hr). apply bind_inv in Hr as (s & e2 & E2 & Hr).
  destruct (slots_at_load _ _ _ _ _ _ E1 E2) as (-> & Hi & Hf & Hsc).
  destruct (ps_skipCert s) as [c|] eqn:Es; [|by run_inv]. apply bind_inv in Hr as (runs & e3 & [= <- <-] & Hr).
  rewrite (jf_runs _ _ (proj2 Hi)) in Hr. destruct (ji_runs R _ e HI) as [?|Hro]; [by right|left].
  assert (skipped e next) as Hsk by (unfold skipped; rewrite <- (proj1 (proj2 Hsc)), Es; done).
  destruct (lowerBound next (pl_skipRuns (e_pool e))) as [stop|] eqn:El.
  - destruct (Z.leb_spec (cid_Slot id) stop) as [Hle|]; [|by run_inv]. intros j Hj. eapply skipped_known; [exact HI|].
    eapply run_skipped; eauto; [by destruct HI|lia..].
  - apply bind_inv in Hr as (u & e3 & _ & Hr). by run_inv.
Qed.

Lemma nextAfter_range p : 0 <= nextAfter p < 2 ^ 32.
Proof. unfold nextAfter. destruct (par_Exists p); [apply u32_range|lia]. Qed.

Lemma evaluateSkips_gap c e1 e e' :
  jinv e1 -> log_grows e1 e -> is_u32 (cid_Slot (c_ID c)) ->
  evaluateSkips (c_ID c) (nextAfter (c_Parent c)) e1 = Some ((true, outcome_ok), e') ->
  gap_known e (c_Parent c) (cid_Slot (c_ID c)) \/ exhausted e.
Proof.
  intros HI Hl Hs Hr. pose proof (nextAfter_range (c_Parent c)).
  eapply evaluateSkips_spec in Hr; [|exact HI|lia|apply Hs]. destruct Hr as [Hg|Hx]; [left|right].
  - intros j Hj. eapply known_at_mono; [exact Hl|]. by apply Hg.
  - eapply known_at_mono; [exact Hl|exact Hx].
Qed.

Lemma evaluateParentWait_spec c e e' :
  jinv e -> submitted c -> evaluateParentWait c e = Some ((true, outcome_ok), e') -> backed e c.
Proof.
  intros HI [_ _ _ [Hsl _]] Hr. unfold evaluateParentWait in Hr. fold (nextAfter (c_Parent c)) in Hr.
  set (next := nextAfter (c_Parent c)) in *. pose proof (nextAfter_range (c_Parent c)) as Hnr. fold next in Hnr.
  apply bind_inv in Hr as (first & e1 & [= <- <-] & Hr). fold (first_live e) in Hr.
  destruct (Z.ltb_spec (cid_Slot (c_ID c)) (first_live e)); [by run_inv|].
  apply bind_inv in Hr as (lastCert & e1 & [= <- <-] & Hr). destruct (Z.ltb_spec next (first_live e)) as [|Hnf].
  { apply bind_inv in Hr as (m & e1 & _ & Hr). by run_inv. }
  apply bind_inv in Hr as (p & e1 & E1 & Hr). apply bind_inv in Hr as (s & e2 & E2 & Hr).
  destruct (slots_at_load _ _ _ _ _ _ E1 E2) as (-> & Hi & _ & Hsc). destruct (match notarizedBlock s with Some nb => _ | None => _ end).
  { apply bind_inv in Hr as (m & e2 & _ & Hr). by run_inv. }
  assert (jinv e1) as HI1 by (eapply jinv_jframe; [apply Hi|done]).
  assert (log_grows e1 e) as Hback.
  { injection E1 as _ <-. by intros ev. }
  destruct (Z.eqb_spec next (first_live e)) as [Enf|Nnf].
  - apply bind_inv in Hr as (last & e2 & [= <- <-] & Hr). case_bool_decide as Hl; cbn [negb] in Hr.
    2:{ apply bind_inv in Hr as (m & e2 & _ & Hr). by run_inv. }
    split.
    + pose proof (ji_last R _ e HI) as Hlast. rewrite (jf_final _ _ (proj2 Hi)) in Hl. rewrite Hl in Hlast.
      destruct (pl_lastFinalCert (e_pool e)) as [fc|]; [right|left; done].
      destruct Hlast as (Hk & Hkind & Hp). exists fc. rewrite Hp. auto.
    + by eapply evaluateSkips_gap.
  - apply bind_inv in Hr as (q & e2 & E3 & Hr). apply bind_inv in Hr as (ps & e3 & E4 & Hr).
    destruct (slots_at_load _ _ _ _ _ _ E3 E4) as (-> & Hi2 & _ & Hpsc).
    assert (jinv e2) as HI2 by (eapply jinv_jframe; [apply Hi2|done]).
    assert (log_grows e2 e) as Hback2.
    { intros ev Hev. apply Hback. injection E3 as _ <-. exact Hev. }
    destruct (ps_notarCert ps) as [nc|] eqn:En; [|by run_inv].
    destruct (match notarizedBlock ps with Some nb => _ | None => _ end) eqn:Enb.
    { apply bind_inv in Hr as (m & e3 & _ & Hr). by run_inv. }
    unfold notarizedBlock in Enb. rewrite En in Enb. apply negb_false_iff, bool_decide_eq_true in Enb.
    assert (par_Exists (c_Parent c) = true) as Hex.
    { destruct (par_Exists (c_Parent c)) eqn:Ep; [done|]. unfold next, nextAfter in *. rewrite Ep in *.
      pose proof (ji_first R _ e HI). lia. }
    split.
    + right. exists nc. destruct (ji_certs R _ e1 HI1 (cid_Slot (par_ID (c_Parent c))) VoteNotarize nc (ps_notarSaving
        (slot_at e1 (cid_Slot (par_ID (c_Parent c)))))) as (Hk & Hkd & _).
      { simpl. by rewrite <- (proj1 Hpsc), En. }
      split_and!; [eapply known_mono; [exact Hback|exact Hk]|done|done|by left].
    + eapply evaluateSkips_gap; [exact HI2|exact Hback2|done|exact Hr].
Qed.

(** ** Parent waits *)

Lemma jinv_tasks x e l :
  jinv_but x e -> (forall c out, ParentWaitDone c out ∈ l -> submitted c /\ (out = outcome_ok -> backed e c)) ->
  jinv_but x (e <| e_pending := l |>).
Proof.
  intros [] Hl. constructor; try assumption. intros m i s Hm Hs. eapply vslot_backed_mono; [|by eapply ji_vslots0]. by intros ev.
Qed.
Lemma jinv_waits x e l :
  jinv_but x e -> (forall c, c ∈ l -> submitted c) -> jinv_but x (e <| e_pool := e_pool e <| pl_parentWaits := l |> |>).
Proof.
  intros [] Hl. constructor; try assumption. intros m i s Hm Hs. eapply vslot_backed_mono; [|by eapply ji_vslots0]. by intros ev.
Qed.

Lemma jpres_wait_done x c out :
  submitted c -> ptriple (fun e => jinv_but x e /\ (out = outcome_ok -> backed e c)) (enqueue (ParentWaitDone c out))
    (fun _ => jinv_but x).
Proof.
  intros Hc e u e' [HI Hb] [= <- <-]. apply jinv_tasks; [done|].
  intros c' out' [Hin|Hin%list_elem_of_singleton]%elem_of_app; [by apply (ji_tasks R x e HI)|]. by injection Hin as -> ->.
Qed.

(** Evaluating a wait and acting on the result. *)
Lemma evaluated c e r e' :
  jinv e -> submitted c -> evaluateParentWait c e = Some (r, e') ->
  jinv e' /\ (forall d, d ∈ pl_parentWaits (e_pool e') -> d ∈ pl_parentWaits (e_pool e)) /\
  (r.1 = true -> r.2 = outcome_ok -> backed e' c).
Proof.
  intros HI Hc Hr. pose proof (idle_evaluateParentWait c e r e' Hr) as [_ Hj].
  split; [by eapply jinv_jframe|]. split; [apply (jf_waits _ _ Hj)|]. destruct r as [[] out]; [|done]. simpl. intros _ ->.
  eapply backed_mono; [by apply jframe_grows|]. by eapply evaluateParentWait_spec.
Qed.

Lemma jpres_registerParentWait c : submitted c -> preserves jinv (registerParentWait c).
Proof.
  intros Hc e u e' HI Hr. unfold registerParentWait in Hr. apply bind_inv in Hr as (r & e1 & E1 & Hr).
  destruct (evaluated c e r e1 HI Hc E1) as (HI1 & _ & Hb). destruct r as [[] out]; simpl in Hr.
  - eapply jpres_wait_done; [exact Hc| |exact Hr]. split; [done|]. by apply Hb.
  - apply bind_inv in Hr as (w & e2 & [= <- <-] & [= <- <-]). apply jinv_waits; [done|].
    intros d [?|Hd%list_elem_of_singleton]%elem_of_app; [by apply (ji_waits R _ e1 HI1)|]. by subst.
Qed.

Lemma jpres_resolve_loop fuel i : preserves jinv (resolve_loop fuel i).
Proof.
  revert i. induction fuel as [|fuel IH]; intros i; cbn [resolve_loop]; [jpres|].
  intros e u e' HI (w & e1 & [= <- <-] & Hr)%bind_inv. destruct (pl_parentWaits (e_pool e) !! i) as [c|] eqn:Ew; [|by run_inv].
  assert (submitted c) as Hc by (apply (ji_waits R _ e HI); by eapply list_elem_of_lookup_2).
  apply bind_inv in Hr as (r & e1 & E1 & Hr). destruct (evaluated c e r e1 HI Hc E1) as (HI1 & _ & Hb).
  destruct r as [[] out]; simpl in Hr; [|by eapply IH].
  apply bind_inv in Hr as (w & e2 & [= <- <-] & Hr). apply bind_inv in Hr as (lc & e2 & E2 & Hr). apply deref_inv in E2 as [Hlc ->].
  apply bind_inv in Hr as (u1 & e2 & [= <- <-] & Hr). apply bind_inv in Hr as (u2 & e3 & E3 & Hr).
  eapply IH; [|exact Hr]. eapply jpres_wait_done; [exact Hc| |exact E3]. split; [|exact (Hb eq_refl)].
  apply jinv_waits; [done|]. intros d Hd. apply (ji_waits R _ e1 HI1).
  apply list_elem_of_lookup in Hd as [k Hd]. apply lookup_take_Some in Hd as [Hd _].
  apply list_lookup_insert_Some in Hd as [(_ & <- & _)|[_ Hd]]; by eapply list_elem_of_lookup_2.
Qed.

Lemma jpres_resolveParentWaits : preserves jinv resolveParentWaits.
Proof. unfold resolveParentWaits. apply preserves_bind; [jpres|intros]. apply jpres_resolve_loop. Qed.

(** ** Certificates *)

Lemma jinv_know x e c vc :
  jinv_but x e -> sized_vote (cert_Vote c) -> vc_cert vc = Some c ->
  jinv_but x (e <| e_log := SaveCertificate c :: e_log e |> <| e_callbacks := e_callbacks e ++ [CertificateSaved vc] |>).
Proof.
  intros HI Hs Hvc. set (e' := e <| e_log := _ |> <| e_callbacks := _ |>).
  assert (log_grows e e') as Hl by (intros ev Hev; by right).
  assert (forall d, known e' d -> d = c \/ known e d) as Hk.
  { intros d [?|[[= ->]|Hd]%elem_of_cons]; [right; by left|by left|right; by right]. }
  destruct HI. constructor; auto.
  - intros d [->|Hd]%Hk; auto.
  - intros i k d b Hd. destruct (ji_certs0 i k d b Hd) as (? & ? & ?). split_and!; eauto using known_mono.
  - change (e_pool e') with (e_pool e). destruct (pl_lastFinalCert (e_pool e)); [|done].
    destruct ji_last0 as (? & ? & ?). split_and!; eauto using known_mono.
  - destruct ji_runs0 as [Hx|?]; [left; by eapply known_at_mono|by right].
  - intros vc' [Hin|Hin%list_elem_of_singleton]%elem_of_app.
    + destruct (ji_callbacks0 _ Hin) as (d & ? & ?). eauto using known_mono.
    + injection Hin as ->. exists c. split; [done|]. right. left.
  - intros v [Hin|Hin%list_elem_of_singleton]%elem_of_app; [auto|done].
  - intros d out Hd. destruct (ji_tasks0 d out Hd) as [? Hb]. split; [done|]. eauto using backed_mono.
  - intros m i s Hm Hs'. eapply vslot_backed_mono; [exact Hl|]. by eapply ji_vslots0.
  - intros v [?|Hv]%elem_of_cons; [done|]. destruct (ji_votes0 v Hv). eauto using vouched_mono.
Qed.

Lemma jpres_handleCertificate vc c :
  vc_cert vc = Some c -> sized_vote (cert_Vote c) -> preserves jinv (handleCertificate vc).
Proof.
  intros Hvc Hs. unfold handleCertificate. rewrite Hvc.
  intros e u e' HI (c' & e1 & [= <- <-] & Hr)%bind_inv. revert e u e' HI Hr.
  apply (preserves_bind jinv); [jpres|intros [i|]]; [|jpres].
  apply preserves_bind; [jpres|intros s]. apply preserves_bind; [jpres|intros [|]]; cbn [negb]; [|jpres].
  apply preserves_bind; [jpres|intros _].
  intros e u e' HI (u1 & e1 & [= <- <-] & [= <- <-])%bind_inv. by apply jinv_know.
Qed.

Lemma idle_jframe {A} (m : M A) : keeps idle m -> keeps jframe m.
Proof. intros Hm e a e' E. by destruct (Hm _ _ _ E). Qed.
Lemma jf_hook h : keeps jframe (enqueue (CallHook h)).
Proof.
  apply keeps_modify. intros e. constructor; auto using extends_eq; try by intros.
  simpl. intros c out [?|?%list_elem_of_singleton]%elem_of_app; done.
Qed.
#[local] Hint Extern 2 (keeps jframe _) => solve [apply idle_jframe; idle_auto] : pools.
#[local] Hint Resolve jf_hook : pools.
Lemma jf_onNotarCertificate vc : keeps jframe (onNotarCertificate vc).
Proof. unfold onNotarCertificate. idle_auto. Qed.

Lemma known_store e p f u e' c : store p f e = Some (u, e') -> known e c -> known e' c.
Proof. intros (i & s & -> & _ & ->)%store_inv. done. Qed.

(** Storing a certificate: the run that ends behind a new skip is not on record yet. *)
Lemma jinv_set_cert i s c e :
  jinv e -> known e c -> Vote_Slot (cert_Vote c) = i -> slots (pl_slots (e_pool e)) !! i = Some s ->
  let k := v_Kind (cert_Vote c) in
  let e' := e <| e_pool := e_pool e <| pl_slots :=
              sm_alter (fun s => set_saving k false (set_cert k (Some c) s)) i (pl_slots (e_pool e)) |> |> in
  jinv_but i e' /\ (k = VoteSkip -> skipped e' i) /\ (k <> VoteSkip -> jinv e').
Proof.
  intros HI Hc Hi Hs k e'. set (f := fun s => set_saving k false (set_cert k (Some c) s)).
  assert (forall j, slot_at e' j = if decide (j = i) then f s else slot_at e j) as Hsl by (intros j; by apply slot_at_alter).
  assert (slot_at e i = s) as Hsi by (unfold slot_at; by rewrite Hs).
  assert (forall j, j <> i -> skipped e' j <-> skipped e j) as Hne.
  { intros j Hj. unfold skipped. rewrite Hsl. by rewrite decide_False. }
  assert (skipped e i -> skipped e' i) as Hup.
  { unfold skipped. rewrite Hsl, decide_True, Hsi by done. unfold f. destruct k; simpl; auto. }
  assert (forall x, exhausted e \/ runs_except x e' -> jinv_but x e') as Hrest.
  { intros x Hr. destruct HI. constructor; try assumption.
    - intros j kd d b. rewrite Hsl. case_decide as Hd; [|apply ji_certs0]. subst j.
      destruct (decide (kd = k)) as [->|Nk].
      + unfold f, k. intros Hd. destruct (v_Kind (cert_Vote c)) eqn:Ek; simpl in Hd; try done; injection Hd as <- _; done.
      + intros Hd. eapply (ji_certs0 i kd d b). rewrite <- Hd, Hsi. unfold f. by destruct k, kd.
    - intros m j vs Hm Hvs. eapply vslot_backed_mono; [|by eapply ji_vslots0]. by intros ev. }
  pose proof (ji_first R _ e HI) as H0f. split_and!.
  - apply Hrest. destruct (ji_runs R _ e HI) as [?|Hr]; [by left|right]. intros j Hf H32 Hx Hsk Hns.
    change (j + 1 ∈ pl_skipRuns (e_pool e)). apply Hr; [done|done|change (0 <= first_live e') in H0f; lia|by apply Hne|].
    intros Hs1. destruct (decide (j + 1 = i)) as [E|]; [apply Hns; rewrite E in *; auto|]. by apply Hns, Hne.
  - intros Ek. unfold skipped. rewrite Hsl, decide_True by done. unfold f. by rewrite Ek.
  - intros Nk. apply Hrest. destruct (ji_runs R _ e HI) as [?|Hr]; [by left|right].
    assert (forall j, skipped e' j <-> skipped e j) as Hall.
    { intros j. destruct (decide (j = i)) as [->|]; [|by apply Hne]. unfold skipped. rewrite Hsl, decide_True, Hsi by done.
      unfold f. by destruct k. }
    intros j. rewrite !Hall. apply Hr.
Qed.

Lemma skipped_jframe e e' j : jframe e e' -> skipped e' j <-> skipped e j.
Proof. intros Hj. unfold skipped. by rewrite (proj1 (proj2 (jf_certs _ _ Hj j))). Qed.

(** [None] is an internal error; it only happens when the next slot is skipped. *)
Lemma nextNonSkipped_spec i e r e' :
  nextNonSkippedSlotAfter i e = Some (r, e') ->
  jframe e e' /\ (skipped e (i +₃₂ 1) \/ r = Some (i +₃₂ 1)).
Proof.
  intros Hr. split; [by apply (idle_nextNonSkipped i _ _ _ Hr)|]. unfold nextNonSkippedSlotAfter in Hr.
  apply bind_inv in Hr as (p & e1 & E1 & Hr). apply bind_inv in Hr as (s & e2 & E2 & Hr).
  destruct (slots_at_load _ _ _ _ _ _ E1 E2) as (-> & Hi & _ & Hsc).
  destruct (ps_skipCert s) eqn:Es; [left|right; by run_inv]. unfold skipped. rewrite <- (proj1 (proj2 Hsc)), Es. done.
Qed.

Lemma jinv_runs x x' e l :
  jinv_but x e -> sorted l -> (exhausted e \/ runs_except x' (e <| e_pool := e_pool e <| pl_skipRuns := l |> |>)) ->
  jinv_but x' (e <| e_pool := e_pool e <| pl_skipRuns := l |> |>).
Proof.
  intros [] Hs Hr. constructor; try assumption.
  intros m j vs Hm Hvs. eapply vslot_backed_mono; [|by eapply ji_vslots0]. by intros ev.
Qed.

Lemma jpres_onSkip slot c i :
  Vote_Slot (cert_Vote c) = i -> is_u32 i ->
  ptriple (fun e => jinv_but i e /\ skipped e i) (onSkipCertificate slot c) (fun _ => jinv).
Proof.
  intros Hi Hu e u e' [HI Hsk] Hr. unfold onSkipCertificate in Hr. rewrite Hi in Hr. unfold is_u32 in Hu.
  apply bind_inv in Hr as (next & e1 & E1 & Hr). apply nextNonSkipped_spec in E1 as [Hj Hn].
  assert (jinv_but i e1) as HI1 by (by eapply jinv_jframe). assert (skipped e1 i) as Hsk1 by (by apply (skipped_jframe _ _ _ Hj)).
  rewrite <- (skipped_jframe _ _ (i +₃₂ 1) Hj) in Hn. clear Hsk HI Hj e.
  assert (i + 1 < 2 ^ 32 -> i +₃₂ 1 = i + 1) as Hw by (intros; apply u32_small; unfold is_u32; lia).
  destruct next as [next|].
  - apply bind_inv in Hr as (u1 & e2 & E2 & Hr). apply bind_inv in Hr as (u2 & e3 & E3 & Hr).
    assert (jinv e3) as HI3; [|eapply jpres_idle; [|exact HI3|exact Hr]; idle_auto].
    injection E2 as _ <-. destruct (erase_spec _ i (ji_sorted R _ e1 HI1)) as [Hes Hem].
    set (runs1 := erase i (pl_skipRuns (e_pool e1))) in *.
    assert (exists l, sorted l /\ (forall y, y ∈ runs1 -> y ∈ l) /\ (next = i +₃₂ 1 -> i +₃₂ 1 ∈ l) /\
      e3 = e1 <| e_pool := e_pool e1 <| pl_skipRuns := l |> |>) as (l & Hls & Hlm & Hln & ->).
    { unfold when in E3. destruct (Z.eqb_spec next (i +₃₂ 1)) as [E|N]; injection E3 as _ <-.
      - destruct (insert_sorted_spec runs1 (i +₃₂ 1) Hes) as [His Him]. exists (insert_sorted (i +₃₂ 1) runs1).
        split_and!; [done|intros y Hy; apply Him; auto|intros _; apply Him; auto|done].
      - exists runs1. done. }
    apply (jinv_runs i); [done..|]. destruct (ji_runs R _ e1 HI1) as [?|Hro]; [by left|right].
    intros j Hf H32 _ Hs Hns. change (j + 1 ∈ l). destruct (decide (j = i)) as [->|Nj].
    + destruct Hn as [Hx|[= Hx]]; [rewrite Hw in Hx by lia; by destruct Hns|]. rewrite Hw in Hln by lia. apply Hln. rewrite Hx. lia.
    + apply Hlm, Hem. split; [intros E; apply Hns; by rewrite E|]. by apply Hro; auto; lia.
  - assert (jinv e1) as HI2; [|eapply jpres_idle; [|exact HI2|exact Hr]; idle_auto].
    assert (e1 = e1 <| e_pool := e_pool e1 <| pl_skipRuns := pl_skipRuns (e_pool e1) |> |>) as -> by (by destruct e1 as [? ? ? ? ? ? [] ]).
    apply (jinv_runs i); [done|by destruct HI1|]. destruct (ji_runs R _ e1 HI1) as [?|Hro]; [by left|right].
    intros j Hf H32 _ Hs Hns. destruct (decide (j = i)) as [->|Nj]; [|by apply Hro].
    destruct Hn as [Hx|?]; [|done]. rewrite Hw in Hx by lia. by destruct Hns.
Qed.

(** The horizon is past slot [i], or the slots are used up. *)
Definition passed (i : Z) (e : Engine) : Prop := jinv e /\ (i < first_live e \/ exhausted e).

Lemma passed_jframe i e e' : jframe e e' -> passed i e -> passed i e'.
Proof.
  intros Hj [HI Hp]. split; [by eapply jinv_jframe|]. rewrite (jf_first _ _ Hj). destruct Hp; [by left|right].
  eapply known_at_mono; [by apply jframe_grows|done].
Qed.
Lemma passed_pres {A} i (m : M A) : keeps jframe m -> preserves (passed i) m.
Proof. intros Hm e a e' HI E. eapply passed_jframe; [by eapply Hm|done]. Qed.

(** Finalization: horizon and last certificate move together. *)
Lemma jinv_finalize e c :
  jinv e -> known e c -> v_Kind (cert_Vote c) = VoteFinalize -> is_u32 (Vote_Slot (cert_Vote c)) ->
  let i := Vote_Slot (cert_Vote c) in
  passed i (e <| e_pool := e_pool e <| pl_lastFinalized := Parent (v_ID (cert_Vote c)) |> <| pl_lastFinalCert := Some c |>
                 <| pl_slots := sm_notifyFinalized i (pl_slots (e_pool e)) |> |>).
Proof.
  intros HI Hc Hk Hu i. set (e' := e <| e_pool := _ |>).
  destruct (notifyFinalized_keeps i (pl_slots (e_pool e))) as [Hf Hkeep].
  change (firstNonFinalized (pl_slots (e_pool e))) with (first_live e) in Hf.
  change (firstNonFinalized (sm_notifyFinalized i (pl_slots (e_pool e)))) with (first_live e') in Hf, Hkeep.
  assert (forall j, first_live e' <= j -> slot_at e' j = slot_at e j) as Hsl.
  { intros j Hj. unfold slot_at. simpl. by rewrite Hkeep. }
  assert (forall j, skipped e' j -> skipped e j) as Hsub.
  { intros j. unfold skipped, slot_at. simpl.
    destruct (slots (sm_notifyFinalized i (pl_slots (e_pool e))) !! j) as [s|] eqn:Ej; [|done].
    by rewrite (sm_notify_lookup _ _ _ _ Ej). }
  split.
  - destruct HI. constructor; try assumption.
    + intros j kd d b. unfold slot_at. simpl.
      destruct (slots (sm_notifyFinalized i (pl_slots (e_pool e))) !! j) as [s|] eqn:Ej; [|by destruct kd].
      intros Hd. apply (ji_certs0 j kd d b). unfold slot_at. by rewrite (sm_notify_lookup _ _ _ _ Ej).
    + simpl. done.
    + lia.
    + destruct ji_runs0 as [?|Hr]; [by left|right]. intros j Hj H32 Hx Hs Hns.
      change (j + 1 ∈ pl_skipRuns (e_pool e)). apply Hr; [lia|done|done|by apply Hsub|].
      intros Hs1. apply Hns. unfold skipped. rewrite Hsl by lia. done.
    + intros m j vs Hm Hvs. eapply vslot_backed_mono; [|by eapply ji_vslots0]. by intros ev.
  - unfold is_u32 in Hu. fold i in Hu. destruct (decide (i = 2 ^ 32 - 1)) as [E|N]; [right; by exists c|left].
    unfold first_live, e'. simpl. unfold sm_notifyFinalized.
    rewrite (u32_small (i + 1)) by (unfold is_u32; lia).
    destruct (Z.leb_spec (i + 1) (firstNonFinalized (pl_slots (e_pool e)))); [lia|]. case_match; simpl; lia.
Qed.

Lemma modify_pool_inv f e u e' : modify_pool f e = Some (u, e') -> e' = e <| e_pool := f (e_pool e) |>.
Proof. by intros [= <- <-]. Qed.

(** The assignments of [onFinalCertificate], then the rest of it. *)
Lemma finalize_assigned c e u1 e1 u2 e2 u3 e3 :
  let id := v_ID (cert_Vote c) in
  modify_pool (fun pl => pl <| pl_lastFinalized := Parent id |>) e = Some (u1, e1) ->
  modify_pool (fun pl => pl <| pl_lastFinalCert := Some c |>) e1 = Some (u2, e2) ->
  modify_pool (fun pl => pl <| pl_slots := sm_notifyFinalized (cid_Slot id) (pl_slots pl) |>) e2 = Some (u3, e3) ->
  e3 = e <| e_pool := e_pool e <| pl_lastFinalized := Parent id |> <| pl_lastFinalCert := Some c |>
         <| pl_slots := sm_notifyFinalized (Vote_Slot (cert_Vote c)) (pl_slots (e_pool e)) |> |>.
Proof. by intros id ->%modify_pool_inv ->%modify_pool_inv ->%modify_pool_inv. Qed.

Lemma passed_erase i :
  ptriple (passed i) (modify_pool (fun pl => pl <| pl_skipRuns := eraseUpTo i (pl_skipRuns pl) |>)) (fun _ => jinv).
Proof.
  intros e2 u e' [HI2 Hp] ->%modify_pool_inv. destruct (eraseUpTo_spec _ i (ji_sorted R _ e2 HI2)) as [Hs Hm].
  apply (jinv_runs (-1)); [done|done|]. destruct Hp as [Hp|?]; [|by left].
  destruct (ji_runs R _ e2 HI2) as [?|Hro]; [by left|right]. intros j Hf H32 Hx Hsk Hns.
  apply Hm. split; [change (first_live e2 <= j) in Hf; lia|]. by apply Hro.
Qed.

Lemma if_negb_inv {S A} (b : bool) (m k : Go S A) s r :
  (if negb b then m else k) s = r -> b = false /\ m s = r \/ b = true /\ k s = r.
Proof. destruct b; auto. Qed.

Lemma jpres_onFinal slot vc c :
  vc_cert vc = Some c -> v_Kind (cert_Vote c) = VoteFinalize -> is_u32 (Vote_Slot (cert_Vote c)) ->
  ptriple (fun e => jinv e /\ known e c) (onFinalCertificate slot vc) (fun _ => jinv).
Proof.
  intros Hvc Hk Hu e u e' [HI Hc] Hr. unfold onFinalCertificate in Hr. rewrite Hvc in Hr.
  apply bind_inv in Hr as (c' & e1 & [= <- <-] & Hr). apply bind_inv in Hr as (s & e1 & E1 & Hr).
  apply load_inv in E1 as [-> _]. case_match; [eapply jpres_idle; [|exact HI|exact Hr]; idle_auto|].
  case_match; [eapply jpres_idle; [|exact HI|exact Hr]; idle_auto|].
  apply bind_inv in Hr as (ok & e1 & E1 & Hr).
  assert (idle e e1) as Hi.
  { revert E1. match goal with |- ?m e = _ -> _ => cut (keeps idle m); [intros Hm E1; by eapply Hm|] end. idle_auto. }
  assert (jinv e1) as HI1 by (eapply jinv_jframe; [apply Hi|done]).
  assert (known e1 c) as Hc1 by (eapply known_mono; [apply jframe_grows, Hi|done]).
  apply if_negb_inv in Hr as [[-> Hr]|[-> Hr]]; [by run_inv|]. clear E1.
  apply bind_inv in Hr as (u1 & e2 & E1 & Hr). apply bind_inv in Hr as (u2 & e3 & E2 & Hr).
  apply bind_inv in Hr as (u3 & e4 & E3 & Hr).
  assert (passed (Vote_Slot (cert_Vote c)) e4) as Hp.
  { rewrite (finalize_assigned c _ _ _ _ _ _ _ E1 E2 E3). by apply jinv_finalize. }
  clear E1 E2 E3. unfold Vote_Slot in Hp. revert e4 u e' Hp Hr. set (i := cid_Slot (v_ID (cert_Vote c))).
  do 7 (apply (ptriple_bind (passed i) _ _ (fun _ => passed i)); [apply passed_pres; idle_auto|intros ?]).
  apply (ptriple_bind (passed i) _ _ (fun _ => jinv)); [apply passed_erase|intros _; refine (jpres_idle (-1) _ _); idle_auto].
Qed.

(** A certificate has been stored and its consequences not yet drawn. *)
Definition just_stored (c : Certificate) (e : Engine) : Prop :=
  known e c /\
  match v_Kind (cert_Vote c) with
  | VoteSkip => jinv_but (Vote_Slot (cert_Vote c)) e /\ skipped e (Vote_Slot (cert_Vote c))
  | _ => jinv e
  end.

Lemma just_stored_pres {A} c (m : M A) : keeps jframe m -> preserves (just_stored c) m.
Proof.
  intros Hm e a e' [Hc Hs] E. pose proof (Hm _ _ _ E) as Hj. split; [eapply known_mono; [by apply jframe_grows|done]|].
  destruct (v_Kind (cert_Vote c)); try (by eapply jinv_jframe). destruct Hs. split; [by eapply jinv_jframe|].
  by apply (skipped_jframe _ _ _ Hj).
Qed.

Lemma jpres_storeSaved vc c :
  vc_cert vc = Some c -> sized_vote (cert_Vote c) ->
  ptriple (fun e => jinv e /\ known e c) (storeSavedCertificate (Some (Vote_Slot (cert_Vote c))) vc) (fun _ => jinv).
Proof.
  intros Hvc (Hvk & [Hu _] & _) e u e' [HI Hc] Hr. unfold storeSavedCertificate in Hr. rewrite Hvc in Hr.
  apply bind_inv in Hr as (c' & e1 & [= <- <-] & Hr). apply bind_inv in Hr as (s & e1 & E1 & Hr).
  apply load_inv in E1 as (-> & j & [= <-] & Hs & _). apply bind_inv in Hr as (pk & e1 & E1 & Hr). apply deref_inv in E1 as [_ ->].
  case_match; [eapply jpres_idle; [|exact HI|exact Hr]; idle_auto|].
  apply bind_inv in Hr as (u1 & e1 & E1 & Hr).
  assert (just_stored c e1) as Hst.
  { apply store_inv in E1 as (j & s' & [= <-] & Hs' & ->).
    destruct (jinv_set_cert (Vote_Slot (cert_Vote c)) s c e HI Hc eq_refl Hs) as (HI1 & Hsk & HIo).
    split; [done|]. destruct (v_Kind (cert_Vote c)) eqn:Ek; auto. }
  clear E1 HI Hc. revert e1 u e' Hst Hr.
  do 4 (apply (ptriple_bind (just_stored c) _ _ (fun _ => just_stored c)); [apply just_stored_pres; idle_auto|intros ?]).
  apply (ptriple_bind (just_stored c) _ _ (fun _ => jinv)).
  - unfold just_stored. destruct (v_Kind (cert_Vote c)) eqn:Ek.
    + intros e1 u e' [_ HI] Hr. eapply jpres_jframe; [apply jf_onNotarCertificate|exact HI|exact Hr].
    + intros e1 u e' [Hc HI] Hr. by eapply jpres_onFinal.
    + intros e1 u e' [_ HI] Hr. by eapply jpres_onSkip.
    + done.
  - intros _ e1 u e' HI (f & e2 & [= <- <-] & Hr)%bind_inv. destruct (failed e1); [by run_inv|].
    by eapply jpres_resolveParentWaits.
Qed.

(** ** Votes *)

Lemma jf_store p f : (forall s, same_certs s (f s)) -> keeps jframe (store p f).
Proof.
  intros Hc e u e' (i & s & -> & Hs & ->)%store_inv. constructor; auto using extends_eq. intros j.
  rewrite (slot_at_alter e f i s j Hs). case_decide; [|done]. subst j. unfold slot_at. by rewrite Hs.
Qed.
Lemma jf_slot_add slot idx p : keeps jframe (slot_add slot idx p).
Proof.
  unfold slot_add. repeat first [solve [apply idle_jframe; idle_auto] | apply jf_store; by intros | keeps_step].
Qed.
Lemma jf_add_weight slot v w : keeps jframe (store slot (add_weight v w)).
Proof. apply jf_store. intros s. unfold add_weight. by case_match. Qed.
#[local] Hint Resolve jf_slot_add jf_add_weight : pools.
#[local] Hint Extern 2 (preserves _ _) => solve [apply jpres_jframe; idle_auto] : jsteps.

Lemma jpres_onVoteApplied idx v slot : sized_vote v -> preserves jinv (onVoteApplied idx v slot).
Proof.
  intros Hv. unfold onVoteApplied. do 4 (apply preserves_bind; [jpres|intros]). cbv zeta. case_match; [jpres|].
  apply preserves_bind; [jpres|intros will]. destruct will; [jpres|].
  intros e u e' HI (cert & e1 & E1 & Hr)%bind_inv.
  assert (jinv e1) as HI1.
  { eapply jpres_idle; [|exact HI|exact E1]. unfold buildCertificate. idle_auto. }
  assert (cert_Vote cert = v) as Hcv.
  { unfold buildCertificate in E1. apply bind_inv in E1 as (s & e2 & _ & E1). apply bind_inv in E1 as (sg & e3 & _ & E1).
    apply bind_inv in E1 as (u1 & e4 & _ & E1). by injection E1 as <- _. }
  apply bind_inv in Hr as (vc & e2 & E2 & Hr). injection E2 as <- <-.
  refine (jpres_handleCertificate (sealCertificate cert _) cert eq_refl _ _ _ _ HI1 Hr). by rewrite Hcv.
Qed.

Lemma jpres_applyVote idx v sig tol : sized_vote v -> preserves jinv (applyVote idx v sig tol).
Proof.
  intros Hv. unfold applyVote. apply preserves_bind; [jpres|intros [i|]]; [|jpres].
  apply preserves_bind; [jpres|intros r]. destruct (r.2); [jpres|]. case_match; [jpres|].
  apply preserves_bind; [jpres|intros]. apply preserves_bind; [by apply jpres_onVoteApplied|intros; jpres].
Qed.

Lemma jpres_finishVoteCast v replay : sized_vote v -> preserves jinv (finishVoteCast v replay).
Proof.
  intros Hv. unfold finishVoteCast. apply preserves_bind; [jpres|intros [vt|]]; [|jpres].
  do 2 (apply preserves_bind; [jpres|intros]). match goal with |- preserves _ (match ?x with _ => _ end) => destruct x end; [|jpres].
  do 4 (apply preserves_bind; [jpres|intros]). apply preserves_bind; [by apply jpres_applyVote|intros; jpres].
Qed.

Lemma jpres_finishCertificateSave vc c r :
  vc_cert vc = Some c -> ptriple (fun e => jinv e /\ known e c) (finishCertificateSave vc r) (fun _ => jinv).
Proof.
  intros Hvc e u e' [HI Hc] Hr. pose proof (ji_sized R _ e HI c Hc) as Hsz. unfold finishCertificateSave in Hr. rewrite Hvc in Hr.
  apply bind_inv in Hr as (c' & e1 & [= <- <-] & Hr).
  set (P e := jinv e /\ known e c). assert (forall A (m : M A), keeps jframe m -> preserves P m) as HP.
  { intros A m Hm e0 a e0' [HI0 Hc0] E. pose proof (Hm _ _ _ E) as Hj. split; [by eapply jinv_jframe|].
    eapply known_mono; [by apply jframe_grows|done]. }
  destruct r; [| |eapply jpres_idle; [|exact HI|exact Hr]; idle_auto].
  all: assert (P e) as HPe by done; clear HI Hc; revert e u e' HPe Hr.
  all: intros e u e' HPe (slot & e1 & E1 & Hr)%bind_inv.
  all: assert (P e1) as HP1 by (eapply HP; [|exact HPe|exact E1]; idle_auto).
  all: apply slots_at_spec in E1 as [[-> _]|(-> & _)]; [run_inv; by destruct HP1|].
  all: apply bind_inv in Hr as (u1 & e2 & E2 & Hr); eapply jpres_storeSaved; [exact Hvc|exact Hsz| |exact Hr].
  all: eapply HP; [|exact HP1|exact E2]; idle_auto.
Qed.

(** ** Messages *)

Lemma jpres_flush_vote tooNew p : sized_vote (pn_vote p) -> preserves jinv (flush_vote tooNew p).
Proof.
  intros Hv. unfold flush_vote, slot_wants. apply preserves_bind; [jpres|intros f]. case_match; [jpres|].
  apply preserves_bind; [jpres|intros b]. destruct b; [jpres|]. apply preserves_bind; [jpres|intros first].
  case_match; [jpres|]. apply preserves_bind; [jpres|intros slot]. destruct slot; [|jpres].
  apply preserves_bind; [jpres|intros w]. case_match; [jpres|]. case_match; [jpres|].
  apply preserves_bind; [by apply jpres_applyVote|intros; jpres].
Qed.

Lemma verifyPendingVotes_votes vs batch p' :
  p' ∈ verifyPendingVotes vs batch -> exists p, p ∈ batch /\ pn_vote p' = pn_vote p.
Proof.
  unfold verifyPendingVotes. destruct (_ || _).
  - intros (p & -> & Hp)%list_elem_of_fmap. by exists p.
  - intros [k Hk]%list_elem_of_lookup. rewrite list_lookup_imap in Hk. apply fmap_Some in Hk as (p & Hk & ->).
    exists p. split; [by eapply list_elem_of_lookup_2|]. by case_bool_decide.
Qed.

Lemma jpres_flushVerify : preserves jinv flushVerify.
Proof.
  intros e u e' HI Hr. unfold flushVerify in Hr. apply bind_inv in Hr as (batch & e1 & [= <- <-] & Hr).
  case_match; [by run_inv|]. apply bind_inv in Hr as (vs & e1 & [= <- <-] & Hr).
  pose proof (ji_verify R _ e HI) as Hb. apply bind_inv in Hr as (tooNew & e1 & E1 & Hr).
  assert (jinv e1) as HI1 by (eapply jpres_idle; [|exact HI|exact E1]; unfold firstTooNewSlot; idle_auto).
  apply bind_inv in Hr as (u1 & e2 & E2 & Hr). eapply jpres_idle; [| |exact Hr]; [idle_auto|].
  revert E2. apply ptriple_for_each; [|exact HI1]. intros p' (p & Hp & Ep)%verifyPendingVotes_votes.
  apply jpres_flush_vote. rewrite Ep. auto.
Qed.

Lemma parsed_sized data n cert : parseCertificate data n = Ok cert -> sized_vote (cert_Vote cert).
Proof.
  unfold parseCertificate. destruct (tl_Parse TyCertificate data) as [[o rest]|]; [|done]. destruct o; try done.
  destruct (negb _); [done|]. destruct (voteFromTL vote) as [v|] eqn:Ev; [|done]. simpl. destruct (_ <? _)%nat; [done|].
  intros [= <-]. simpl. by eapply voteFromTL_result.
Qed.

Lemma verifyCertificate_cert cert e vc e' : verifyCertificate cert e = Some (Ok vc, e') -> vc_cert vc = Some cert.
Proof.
  unfold verifyCertificate. destruct (validateCertificateVote _); [|by intros; run_inv].
  intros (pl & e1 & _ & Hr)%bind_inv. apply bind_inv in Hr as (g & e2 & [= <- <-] & Hr).
  destruct (verifyCertificatePayload _ _ _ _); [|done]. by injection Hr as <- _.
Qed.

Lemma jpres_handleMessage src i data : Forall is_byte data -> preserves jinv (handleMessage src i data).
Proof.
  intros Hd. unfold handleMessage, drop_message, firstTooNewSlot. apply preserves_bind; [jpres|intros b]. destruct b; [jpres|].
  case_match; [jpres|]. apply preserves_bind; [jpres|intros tooNew]. cbv zeta. case_match; [jpres|]. case_match; [|jpres].
  unfold handleCertificateMessage, drop_message. apply preserves_bind; [jpres|intros g']. case_match; [jpres|].
  destruct (parseCertificate data (nValidators g')) as [cert|] eqn:Ep; [|jpres]. cbv zeta.
  apply preserves_bind; [unfold slot_needs; jpres|intros wanted]. case_match; [jpres|].
  intros e u e' HI (r & e1 & E1 & Hr)%bind_inv.
  assert (jinv e1) as HI1 by (eapply jpres_idle; [|exact HI|exact E1]; idle_auto).
  destruct r as [vc|err]; [|eapply jpres_idle; [|exact HI1|exact Hr]; idle_auto].
  apply verifyCertificate_cert in E1. revert e1 u e' HI1 Hr.
  apply (preserves_bind jinv); [unfold slot_needs; jpres|intros w]. case_match; [jpres|].
  eapply jpres_handleCertificate; [exact E1|]. by eapply parsed_sized.
Qed.

(** ** The voter *)

Lemma jinv_voter e v :
  jinv e -> (forall i s, slots (vt_slots v) !! i = Some s -> vslot_backed e s) -> jinv (e <| e_voter := Some v |>).
Proof.
  intros [] Hv. constructor; try assumption. intros m i s [= <-] Hs. eapply vslot_backed_mono; [|by eapply Hv]. by intros ev.
Qed.

(** [p] points to the voter's slot [s]. *)
Definition vpoints (e : Engine) (p : option Z) (s : voterSlot) : Prop :=
  exists v i, p = Some i /\ e_voter e = Some v /\ slots (vt_slots v) !! i = Some s.

Lemma vpoints_backed e p s : jinv e -> vpoints e p s -> vslot_backed e s.
Proof. intros HI (v & i & _ & Hv & Hs). eapply (ji_vslots R _ e HI); [|exact Hs]. unfold vslots. by rewrite Hv. Qed.

Lemma vload_inv p e s e' : vload p e = Some (s, e') -> e' = e /\ vpoints e p s.
Proof.
  unfold vload, voter. destruct p as [i|]; [|done]. intros (i' & e1 & [= <- <-] & Hr)%bind_inv.
  apply bind_inv in Hr as (v & e1 & E1 & Hr). apply bind_inv in E1 as (ov & e2 & [= <- <-] & [Hv ->]%deref_inv).
  apply deref_inv in Hr as [Hs ->]. split; [done|]. by exists v, i.
Qed.

Lemma vstore_inv p f e u e' :
  vstore p f e = Some (u, e') ->
  exists v i s, p = Some i /\ e_voter e = Some v /\ slots (vt_slots v) !! i = Some s /\
    e' = e <| e_voter := Some (v <| vt_slots := sm_alter f i (vt_slots v) |>) |>.
Proof.
  unfold vstore. destruct p as [i|]; [|done]. intros (i' & e1 & [= <- <-] & Hr)%bind_inv.
  apply bind_inv in Hr as (s & e1 & E1 & Hr). apply vload_inv in E1 as (-> & v & j & [= <-] & Hv & Hs).
  unfold modify_voter, voter in Hr. apply bind_inv in Hr as (v' & e1 & E1 & Hr).
  apply bind_inv in E1 as (ov & e2 & [= <- <-] & [Hv' ->]%deref_inv). rewrite Hv in Hv'. injection Hv' as <-.
  injection Hr as _ <-. by exists v, i, s.
Qed.

(** An assignment to the slot [p] points to. *)
Lemma jinv_vstore p f e u e' :
  jinv e -> vstore p f e = Some (u, e') -> (forall s, vpoints e p s -> vslot_backed e s -> vslot_backed e (f s)) ->
  jinv e' /\ exists s, vpoints e p s /\ vpoints e' p (f s) /\ e_log e' = e_log e.
Proof.
  intros HI (v & i & s & -> & Hv & Hs & ->)%vstore_inv Hf. assert (vpoints e (Some i) s) as Hp by (by exists v, i). split.
  - apply jinv_voter; [done|]. intros j s' Hj. simpl in Hj.
    destruct (decide (j = i)) as [->|Nj]; [rewrite lookup_alter_eq, Hs in Hj|rewrite lookup_alter_ne in Hj by done].
    + injection Hj as <-. apply Hf; [done|]. by eapply vpoints_backed.
    + eapply vpoints_backed; [exact HI|]. by exists v, j.
  - exists s. split_and!; [done| |done]. eexists _, i. split_and!; [done..|]. simpl. by rewrite lookup_alter_eq, Hs.
Qed.

Lemma jpres_vstore p f :
  (forall e s, vslot_backed e s -> vslot_backed e (f s)) -> preserves jinv (vstore p f).
Proof. intros Hf e u e' HI E. eapply jinv_vstore in E as [? _]; eauto. Qed.

Lemma new_backed e : vslot_backed e newVoterSlot.
Proof. constructor; try done. by intros [|]. Qed.

Lemma vslots_at_inv i e p e' :
  jinv e -> vslots_at i e = Some (p, e') ->
  jinv e' /\ e_log e' = e_log e /\ e_pool e' = e_pool e /\ e_cfg e' = e_cfg e /\
  (p = None \/ p = Some i /\ exists s, vpoints e' p s).
Proof.
  unfold vslots_at, modify_voter, voter. intros HI Hr. apply bind_inv in Hr as (v & e1 & E1 & Hr).
  apply bind_inv in E1 as (ov & e2 & [= <- <-] & [Hv ->]%deref_inv). apply bind_inv in Hr as (u & e1 & E1 & Hr).
  apply bind_inv in E1 as (v' & e2 & E2 & E1). apply bind_inv in E2 as (ov & e3 & [= <- <-] & [Hv' ->]%deref_inv).
  rewrite Hv in Hv'. injection Hv' as <-. injection E1 as _ <-. injection Hr as <- <-.
  assert (forall j s, slots (sm_at newVoterSlot i (vt_slots v)).2 !! j = Some s -> vslot_backed e s) as Hall.
  { intros j s. unfold sm_at. destruct (_ <? _); [intros; eapply vpoints_backed; [exact HI|]; by exists v, j|].
    destruct (slots (vt_slots v) !! i) eqn:Ei; [intros; eapply vpoints_backed; [exact HI|]; by exists v, j|]. simpl.
    intros [[_ <-]|[_ Hj]]%lookup_insert_Some; [apply new_backed|]. eapply vpoints_backed; [exact HI|]. by exists v, j. }
  split_and!; try done; [by apply jinv_voter|]. unfold sm_at. destruct (_ <? _); [by left|right].
  destruct (slots (vt_slots v) !! i) as [s|] eqn:Ei; split; try done; eexists; eexists _, i; split_and!; try done; simpl.
  by rewrite lookup_insert_eq.
Qed.
Lemma jpres_vslots_at i : preserves jinv (vslots_at i).
Proof. intros e p e' HI E. by eapply vslots_at_inv in E as [? _]. Qed.
Lemma jpres_vload p : preserves jinv (vload p).
Proof. intros e s e' HI E. by apply vload_inv in E as [-> _]. Qed.

Lemma jinv_vote x e v :
  jinv_but x e -> low_vote v -> (v_Kind v = VoteNotarize -> vouched e (v_ID v)) ->
  jinv_but x (e <| e_log := SaveOurVote v :: e_log e |> <| e_callbacks := e_callbacks e ++ [VoteSaved v] |>).
Proof.
  intros HI Hs Hvo. set (e' := e <| e_log := _ |> <| e_callbacks := _ |>).
  assert (log_grows e e') as Hl by (intros ev Hev; by right).
  assert (forall d, known e' d -> known e d) as Hk.
  { intros d [?|[?|Hd]%elem_of_cons]; [by left|done|by right]. }
  destruct HI. constructor; auto.
  - intros i k d b Hd. destruct (ji_certs0 i k d b Hd) as (? & ? & ?). split_and!; eauto using known_mono.
  - change (e_pool e') with (e_pool e). destruct (pl_lastFinalCert (e_pool e)); [|done].
    destruct ji_last0 as (? & ? & ?). split_and!; eauto using known_mono.
  - destruct ji_runs0 as [Hx|?]; [left; by eapply known_at_mono|by right].
  - intros vc [Hin|Hin%list_elem_of_singleton]%elem_of_app; [|done].
    destruct (ji_callbacks0 _ Hin) as (d & ? & ?). eauto using known_mono.
  - intros w [Hin|Hin%list_elem_of_singleton]%elem_of_app; [auto|]. injection Hin as ->. apply Hs.
  - intros d out Hd. destruct (ji_tasks0 d out Hd) as [? Hb]. split; [done|]. eauto using backed_mono.
  - intros m i s Hm Hs'. eapply vslot_backed_mono; [exact Hl|]. by eapply ji_vslots0.
  - intros w [[= ->]|Hw]%elem_of_cons; [eauto using vouched_mono|]. destruct (ji_votes0 w Hw). eauto using vouched_mono.
Qed.

Lemma castVote_inv v e u e' :
  jinv e -> castVote v false e = Some (u, e') -> low_vote v -> (v_Kind v = VoteNotarize -> vouched e (v_ID v)) ->
  jinv e' /\ e_voter e' = e_voter e.
Proof.
  intros HI Hr Hs Hvo. unfold castVote in Hr. apply bind_inv in Hr as (f & e1 & [= <- <-] & Hr).
  apply bind_inv in Hr as (vt & e1 & [= <- <-] & Hr). case_match; [by run_inv|].
  apply bind_inv in Hr as (u1 & e1 & E1 & Hr). pose proof (idle_trace _ _ _ _ E1) as [_ Hj].
  assert (e_voter e1 = e_voter e) as Hv.
  { unfold trace in E1. apply bind_inv in E1 as (t & e2 & [= <- <-] & E1). destruct (g_tracer (e_cfg e)); [|by run_inv].
    apply bind_inv in E1 as (at_ & e2 & [= <- <-] & [= <- <-]). done. }
  apply bind_inv in Hr as (u2 & e2 & [= <- <-] & [= <- <-]). split; [|done].
  apply jinv_vote; [by eapply jinv_jframe|done|]. intros Hk. eapply vouched_mono; [by apply jframe_grows|auto].
Qed.
Lemma jpres_castVote v : low_vote v -> v_Kind v <> VoteNotarize -> preserves jinv (castVote v false).
Proof. intros Hs Hk e u e' HI E. eapply castVote_inv in E as [? _]; eauto. done. Qed.

Lemma backed_flags f :
  (forall s, vs_pending (f s) = vs_pending s /\ vs_validationInFlight (f s) = vs_validationInFlight s /\
     vs_validated (f s) = vs_validated s /\ vs_votedNotar (f s) = vs_votedNotar s) ->
  forall e s, vslot_backed e s -> vslot_backed e (f s).
Proof. intros Hf e s []. destruct (Hf s) as (Hp & Hi & Hv & Hn). constructor; by rewrite ?Hp, ?Hi, ?Hv, ?Hn. Qed.

#[local] Hint Resolve jpres_vslots_at jpres_vload : jsteps.
#[local] Hint Extern 1 (preserves _ (vstore _ _)) => apply jpres_vstore, backed_flags; by intros : jsteps.

Lemma jpres_modify_voter f : (forall v, vt_slots (f v) = vt_slots v) -> preserves jinv (modify_voter f).
Proof. intros Hf. apply jpres_idle. by apply idle_modify_voter. Qed.

Lemma jpres_tryVoteFinal p : preserves jinv (tryVoteFinal p).
Proof.
  unfold tryVoteFinal. intros e u e' HI (s & e1 & E1 & Hr)%bind_inv. apply vload_inv in E1 as [-> Hp].
  pose proof (vb_low R e s (vpoints_backed e p s HI Hp)) as Hsz.
  destruct (vs_votedNotar s) as [id|]; [|by run_inv]. destruct (vs_notarCert s); [|by run_inv].
  case_match; [|by run_inv]. apply bind_inv in Hr as (u1 & e1 & E1 & Hr).
  eapply castVote_inv in E1 as [HI1 _]; [|done|by apply low_FinalizeVote, Hsz|done].
  eapply jpres_vstore; [|exact HI1|exact Hr]. by apply backed_flags.
Qed.
#[local] Hint Resolve jpres_tryVoteFinal : jsteps.

Lemma jpres_voterNotarizationObserved id : preserves jinv (voterNotarizationObserved id).
Proof. unfold voterNotarizationObserved. jpres. Qed.

Lemma jpres_voterFinalizationObserved id : preserves jinv (voterFinalizationObserved id).
Proof.
  unfold voterFinalizationObserved, modify_voter, voter. intros e u e' HI (v & e1 & E1 & [= <- <-])%bind_inv.
  apply bind_inv in E1 as (ov & e2 & [= <- <-] & [Hv ->]%deref_inv). apply jinv_voter; [done|].
  intros i s Hs. simpl in Hs. apply sm_notify_lookup in Hs. eapply vpoints_backed; [exact HI|]. by exists v, i.
Qed.

(** The waits of a slot that is skipped name 32-bit slots. *)
Lemma jpres_skip_vote i : 0 <= i < lastSlot -> preserves jinv (castVote (SkipVote i) false).
Proof. intros Hi. apply jpres_castVote; [by apply low_SkipVote|done]. Qed.

Lemma range_low a b i : i ∈ range a b -> 0 <= a -> b < 2 ^ 32 -> 0 <= i < lastSlot.
Proof. rewrite elem_of_range. unfold lastSlot. lia. Qed.

Lemma jpres_fireVoterAlarm : preserves jinv fireVoterAlarm.
Proof.
  unfold fireVoterAlarm. do 3 (apply preserves_bind; [jpres|intros]). cbv zeta. apply preserves_bind; [|intros; jpres].
  apply ptriple_for_each. intros i Hi.
  pose proof (u32_range (vt_timeoutSlot a0 - 1)) as H1u. pose proof (u32_range ((vt_timeoutSlot a0 -₃₂ 1) -₃₂ (vt_timeoutSlot a0 -₃₂ 1) mod a1 + a1)) as H2u.
  apply range_low in Hi; [|unfold is_u32 in *; lia..].
  refine (preserves_bind jinv _ _ _ _); [jpres|intros [j|]]; [|jpres]. apply preserves_bind; [jpres|intros s].
  unfold when. case_match; [|jpres]. apply preserves_bind; [by apply jpres_skip_vote|intros; jpres].
Qed.

Lemma jpres_castStartupWindowSkips : preserves jinv castStartupWindowSkips.
Proof.
  unfold castStartupWindowSkips. do 2 (apply preserves_bind; [jpres|intros]). case_match; [jpres|]. cbv zeta.
  apply ptriple_for_each. intros i Hi.
  pose proof (u32_range ((a -₃₂ 1) * a0)) as H1u. pose proof (u32_range (((a -₃₂ 1) +₃₂ 1) * a0)) as H2u.
  apply range_low in Hi; [|unfold is_u32 in *; lia..].
  refine (preserves_bind jinv _ _ _ _); [jpres|intros [j|]]; [|jpres]. apply preserves_bind; [jpres|intros s].
  unfold when. case_match; [by apply jpres_skip_vote|jpres].
Qed.

Lemma vpoints_fun e p s s' : vpoints e p s -> vpoints e p s' -> s' = s.
Proof. intros (v & i & -> & Hv & Hs) (v' & j & [= <-] & Hv' & Hs'). congruence. Qed.

Lemma is_pending_inv s id : is_pending s id = true -> exists c, vs_pending s = Some c /\ c_ID c = id.
Proof. unfold is_pending. destruct (vs_pending s) as [c|]; [|done]. intros ?%bool_decide_eq_true. eauto. Qed.

Lemma jpres_bootstrap_vote v : low_vote v -> preserves jinv (bootstrap_vote v).
Proof.
  intros Hv. unfold bootstrap_vote. apply preserves_bind; [jpres|intros [i|]]; [|jpres]. apply preserves_bind; [jpres|intros s].
  destruct (v_Kind v); [|jpres|jpres|jpres]. case_match; [jpres|]. apply jpres_vstore. intros e s' [Hp Hvo Hn].
  constructor; simpl; [done|done|]. intros id [= <-]. by apply low_vote_id.
Qed.

Lemma jpres_bootstrapVoter V : Forall low_vote V -> preserves jinv (bootstrapVoter V).
Proof.
  intros HV. rewrite Forall_forall in HV. unfold bootstrapVoter. apply preserves_bind.
  { apply ptriple_for_each. intros v Hv. by apply jpres_bootstrap_vote, HV. }
  intros _. do 2 (apply preserves_bind; [jpres|intros]). case_match; [jpres|]. cbv zeta. apply ptriple_for_each.
  intros i _. refine (preserves_bind jinv _ _ _ _); [jpres|intros [j|]]; [|jpres]. apply preserves_bind; [jpres|intros s].
  unfold when. case_match; jpres.
Qed.

Lemma jpres_acceptCandidate c : submitted c -> preserves jinv (acceptCandidate c).
Proof.
  intros Hc. unfold acceptCandidate. do 3 (apply preserves_bind; [jpres|intros]). cbv zeta. case_match eqn:Enew; [jpres|].
  assert (cid_Slot (c_ID c) < lastSlot) as Hlow.
  { apply Z.leb_gt in Enew. eapply Z.lt_le_trans; [exact Enew|]. apply Z.lt_le_pred, u32_range. }
  apply preserves_bind; [jpres|intros [i|]]; [|jpres].
  intros e u e' HI (s & e1 & E1 & Hr)%bind_inv. apply vload_inv in E1 as [-> Hp]. case_match eqn:Eb; [by run_inv|].
  apply orb_false_iff in Eb as [_ Hpn%bool_decide_eq_false]. apply bind_inv in Hr as (u1 & e1 & E1 & Hr).
  assert (jinv e1) as HI1.
  { eapply jinv_vstore in E1 as [? _]; [done|done|]. intros s' Hp' [Hs1 Hs2 Hs3]. rewrite (vpoints_fun _ _ _ _ Hp Hp') in *.
    constructor; simpl; [by intros ? [= <-]| |done]. intros (c' & Hc' & _)%Hs2. rewrite Hc' in Hpn. by destruct Hpn. }
  clear E1. revert e1 u e' HI1 Hr. apply (preserves_bind jinv); [jpres|intros _].
  do 3 (apply preserves_bind; [jpres|intros]). by apply jpres_registerParentWait.
Qed.

Lemma jpres_onParentWaitDone c out :
  ptriple (fun e => jinv e /\ submitted c /\ (out = outcome_ok -> backed e c)) (onParentWaitDone c out) (fun _ => jinv).
Proof.
  intros e u e' (HI & Hc & Hb) Hr. unfold onParentWaitDone in Hr. apply bind_inv in Hr as (vt & e1 & [= <- <-] & Hr).
  destruct (e_voter e); [|by run_inv]. destruct out as [[m|] [er|]]; simpl in Hr;
    [eapply jpres_idle; [|exact HI|exact Hr]; idle_auto|eapply jpres_idle; [|exact HI|exact Hr]; idle_auto|by run_inv|].
  specialize (Hb eq_refl). apply bind_inv in Hr as (p & e1 & E1 & Hr).
  destruct (vslots_at_inv _ _ _ _ HI E1) as (HI1 & Hl & _ & _ & Hpt). destruct Hpt as [->|[-> _]]; [by run_inv|].
  apply bind_inv in Hr as (s & e2 & E2 & Hr). apply vload_inv in E2 as [-> Hp]. case_match eqn:Eb; [by run_inv|].
  apply orb_false_iff in Eb as [(c' & Hpc & Hid)%negb_false_iff%is_pending_inv _]. destruct (vs_validationInFlight s); [by run_inv|].
  apply bind_inv in Hr as (u1 & e2 & E2 & Hr). eapply jpres_idle; [| |exact Hr]; [idle_auto|].
  eapply jinv_vstore in E2 as [? _]; [done|done|]. intros s' Hp' [Hs1 Hs2 Hs3]. rewrite (vpoints_fun _ _ _ _ Hp Hp') in *.
  constructor; simpl; [done| |done]. intros _. exists c'. split; [done|]. exists c. split_and!; [done..|].
  eapply backed_mono; [|exact Hb]. intros ev. by rewrite Hl.
Qed.

Lemma jpres_maybeVoteNotar id p :
  ptriple (fun e => jinv e /\ exists s, vpoints e p s /\ is_pending s id = true) (maybeVoteNotar id p) (fun _ => jinv).
Proof.
  intros e u e' (HI & s & Hp & (c & Hpc & Hid)%is_pending_inv) Hr. unfold maybeVoteNotar in Hr.
  apply bind_inv in Hr as (s' & e1 & E1 & Hr). apply vload_inv in E1 as [-> Hp']. rewrite (vpoints_fun _ _ _ _ Hp Hp') in *.
  case_match eqn:Eb; [by run_inv|].
  apply orb_false_iff in Eb as [[Hval%negb_false_iff _]%orb_false_iff _].
  pose proof (vpoints_backed e p s HI Hp) as [Hs1 Hs2 Hs3]. destruct (Hs2 (or_intror Hval)) as (c' & Hc' & Hvo).
  rewrite Hpc in Hc'. injection Hc' as <-. rewrite Hid in Hvo.
  assert (low_id id) as Hsz by (destruct (Hs1 c Hpc); rewrite <- Hid; split; [by apply (sb_sized c)|done]).
  apply bind_inv in Hr as (u1 & e1 & E1 & Hr). eapply jinv_vstore in E1 as (HI1 & s1 & _ & _ & Hl); [|done|].
  2:{ intros s1 Hp1 [H1s H2s H3s]. constructor; simpl; [done|done|]. by intros ? [= <-]. }
  apply bind_inv in Hr as (u2 & e2 & E2 & Hr).
  eapply castVote_inv in E2 as [HI2 _]; [|done|by apply low_NotarizeVote|].
  2:{ intros _. eapply vouched_mono; [|exact Hvo]. intros ev. by rewrite Hl. }
  by eapply jpres_tryVoteFinal.
Qed.

(** A flag of a slot that keeps its pending candidate. *)
Lemma jinv_keep_pending p f e u e' s id :
  jinv e -> vstore p f e = Some (u, e') -> vpoints e p s -> is_pending s id = true ->
  (forall s, vs_pending (f s) = vs_pending s) -> (vslot_backed e s -> vslot_backed e (f s)) ->
  jinv e' /\ vpoints e' p (f s) /\ is_pending (f s) id = true /\ e_log e' = e_log e.
Proof.
  intros HI E Hp Hip Hf Hb. eapply jinv_vstore in E as (HI' & s' & Hp' & Hpf & Hl); [|done|].
  2:{ intros s1 Hp1. by rewrite (vpoints_fun _ _ _ _ Hp Hp1). }
  rewrite (vpoints_fun _ _ _ _ Hp Hp') in Hpf. split_and!; [done..| |done]. unfold is_pending in *. by rewrite Hf.
Qed.

Lemma jpres_completeValidation id vd : preserves jinv (completeValidation id vd).
Proof.
  intros e u e' HI Hr. unfold completeValidation in Hr. apply bind_inv in Hr as (vt & e1 & [= <- <-] & Hr).
  destruct (e_voter e); [|by run_inv]. apply bind_inv in Hr as (p & e1 & E1 & Hr).
  apply (jpres_vslots_at _ _ _ _ HI) in E1 as HI1. destruct p as [i|]; [|by run_inv].
  apply bind_inv in Hr as (s & e2 & E2 & Hr). apply vload_inv in E2 as [-> Hp]. case_match eqn:Eb; [by run_inv|].
  apply orb_false_iff in Eb as [Hip%negb_false_iff Hfl%negb_false_iff].
  pose proof (is_pending_inv s id Hip) as (c & Hpc & Hid).
  pose proof (vpoints_backed e1 _ s HI1 Hp) as [Hs1 Hs2 Hs3]. destruct (Hs2 (or_introl Hfl)) as (c' & Hc' & Hvo).
  rewrite Hpc in Hc'. injection Hc' as <-.
  apply bind_inv in Hr as (u1 & e2 & E2 & Hr). eapply jinv_keep_pending in E2 as (HI2 & Hp2 & Hip2 & Hl2); [|done..|].
  2:{ intros []. constructor; simpl; [done| |done]. eauto. }
  destruct vd; [|eapply jpres_idle; [|exact HI2|exact Hr]; idle_auto..].
  apply bind_inv in Hr as (u2 & e3 & E3 & Hr). eapply jinv_keep_pending in E3 as (HI3 & Hp3 & Hip3 & _); [|done..|].
  2:{ intros []. constructor; simpl; [done| |done]. intros _. exists c. split; [done|].
      eapply vouched_mono; [|exact Hvo]. intros ev. by rewrite Hl2. }
  eapply jpres_maybeVoteNotar; [|exact Hr]. split; [done|]. by eexists.
Qed.

Lemma jpres_completeStore id ok : preserves jinv (completeStore id ok).
Proof.
  intros e u e' HI Hr. unfold completeStore in Hr. apply bind_inv in Hr as (vt & e1 & [= <- <-] & Hr).
  destruct (e_voter e); [|by run_inv]. apply bind_inv in Hr as (p & e1 & E1 & Hr).
  apply (jpres_vslots_at _ _ _ _ HI) in E1 as HI1. destruct p as [i|]; [|by run_inv].
  apply bind_inv in Hr as (s & e2 & E2 & Hr). apply vload_inv in E2 as [-> Hp]. case_match eqn:Eb; [by run_inv|].
  apply orb_false_iff in Eb as [Hip%negb_false_iff _].
  apply bind_inv in Hr as (u1 & e2 & E2 & Hr). eapply jinv_keep_pending in E2 as (HI2 & Hp2 & Hip2 & _); [|done..|].
  2:{ by apply backed_flags. }
  destruct ok; cbn [negb] in Hr; [|eapply jpres_idle; [|exact HI2|exact Hr]; idle_auto].
  apply bind_inv in Hr as (u2 & e3 & E3 & Hr). eapply jinv_keep_pending in E3 as (HI3 & Hp3 & Hip3 & _); [|done..|].
  2:{ by apply backed_flags. }
  eapply jpres_maybeVoteNotar; [|exact Hr]. split; [done|]. by eexists.
Qed.

(** ** Composition *)

Definition task_backed (t : Task) (e : Engine) : Prop :=
  forall c out, t = ParentWaitDone c out -> submitted c /\ (out = outcome_ok -> backed e c).
Definition completed_known (cb : Callback) (e : Engine) : Prop :=
  match cb with
  | VoteSaved v => sized_vote v
  | CertificateSaved vc => exists c, vc_cert vc = Some c /\ known e c
  | _ => True
  end.

Lemma checkCandidate_submitted g c cc :
  typed_candidate c -> wf_id (c_ID c) -> checkCandidate g c = Some (Ok cc) -> submitted cc.
Proof.
  intros Ht [Hs _] Hc. unfold checkCandidate in Hc. destruct (ValidateShape c) as [[]|] eqn:Ev; [|done].
  apply bind_Some in Hc as (id & Hid & Hc). cbv zeta in Hc.
  set (c' := mkCandidate id _ _ _ _ _ _ _) in Hc. assert (cc = c') as ->.
  { destruct (validators g !! _); [|done]. destruct (negb _); [done|]. destruct (c_Delegation c).
    - apply bind_Some in Hc as (r & _ & Hc). destruct r; by simplify_eq.
    - apply bind_Some in Hc as (ok & _ & Hc). destruct ok; by simplify_eq. }
  unfold ComputeID in Hid. apply bind_Some in Hid as (b & Hb & [= <-]). constructor.
  - revert Ev. unfold ValidateShape. simpl. done.
  - unfold ComputeID. change (HashDataBytes c') with (HashDataBytes c). by rewrite Hb.
  - exact Ht.
  - split; [exact Hs|]. apply length_sha256.
Qed.

Lemma justified_step V :
  Forall low_vote V ->
  step_invariant jinv task_backed (fun cb _ => completed_known cb) V (fun vc => vc ∈ R).
Proof.
  intros HV. pose proof HV as HV'. rewrite Forall_forall in HV'. constructor.
  - intros e e' Hc. by apply jinv_jframe, control_idle.
  - intros e t rest Hq HI. split.
    + apply jinv_tasks; [done|]. intros c out Hin. apply (ji_tasks R _ e HI). rewrite Hq. by right.
    + intros c out ->. apply (ji_tasks R _ e HI). rewrite Hq. left.
  - intros [h|id|id|c out] e u e' [HI Ht] Hr; cbn [runTask] in Hr.
    + eapply jpres_jframe; [|exact HI|exact Hr]. unfold callHook. idle_auto.
      apply keeps_modify. intros e0. constructor; try done; auto.
      exists [Hooked h]. split; [done|]. by intros ev ->%list_elem_of_singleton.
    + by eapply jpres_voterNotarizationObserved.
    + by eapply jpres_voterFinalizationObserved.
    + eapply jpres_onParentWaitDone; [|exact Hr]. split; [done|]. by apply Ht.
  - apply jpres_handleMessage.
  - apply jpres_flushVerify.
  - intros g c cc Ht Hw Hc e u e' [HI _]. apply jpres_acceptCandidate; [|done]. by eapply checkCandidate_submitted.
  - apply jpres_fireVoterAlarm.
  - intros. jpres.
  - intros. jpres.
  - intros. jpres.
  - intros k cb c e u e' [HI Hk] Hr. assert (cb ∈ e_callbacks e) as Hin by by eapply list_elem_of_lookup_2.
    assert (log_grows e e') as Hl.
    { apply bind_inv in Hr as (u1 & e1 & [= <- <-] & [= <- <-]). intros ev Hev. by right. }
    split.
    + eapply jpres_idle; [|exact HI|exact Hr]. idle_auto.
    + destruct cb; simpl; try done; [by eapply ji_saved|].
      destruct (ji_callbacks R _ e HI vc Hin) as (d & Hd & Hkn). exists d. split; [done|]. by eapply known_mono.
  - intros v [] e u e' [HI Hca] Hr; simpl in *; [by eapply jpres_finishVoteCast|by run_inv|].
    eapply jpres_idle; [|exact HI|exact Hr]. idle_auto.
  - intros vc r e u e' [HI (c & Hc & Hk)] Hr. eapply jpres_finishCertificateSave; [exact Hc| |exact Hr]. done.
  - intros id ok e u e' [HI _] Hr. by eapply jpres_completeStore.
  - intros id vd e u e' [HI _] Hr. by eapply jpres_completeValidation.
  - by apply jpres_bootstrapVoter.
  - jpres.
  - intros vc Hvc e u e' HI (c & e1 & E1 & Hr)%bind_inv. apply deref_inv in E1 as [Hc ->].
    assert (known e c) as Hk by (left; by exists vc). pose proof (ji_sized R _ e HI c Hk) as Hsz.
    apply bind_inv in Hr as (slot & e1 & E1 & Hr).
    assert (jinv e1) as HI1 by (eapply jpres_idle; [|exact HI|exact E1]; idle_auto).
    apply slots_at_spec in E1 as [[-> _]|(-> & _)]; [by run_inv|].
    apply bind_inv in Hr as (s & e2 & E2 & Hr). apply load_inv in E2 as [-> _].
    apply bind_inv in Hr as (n & e2 & E2 & Hr). apply deref_inv in E2 as [_ ->]. case_match; [by run_inv|].
    eapply jpres_storeSaved; [exact Hc|exact Hsz| |exact Hr]. split; [done|]. left. by exists vc.
  - intros v Hv. unfold castVote. do 2 (apply preserves_bind; [jpres|intros]). case_match; [jpres|].
    apply preserves_bind; [jpres|intros _]. apply jpres_finishVoteCast, HV', Hv.
  - apply jpres_castStartupWindowSkips.
  - intros. jpres.
  - jpres.
Qed.

Lemma jinv_pristine e :
  pristine e -> (forall vc c, vc ∈ R -> vc_cert vc = Some c -> sized_vote (cert_Vote c)) -> jinv e.
Proof.
  intros Hp HR. pose proof (fun i => slot_at_pristine e i Hp) as Hsl. destruct Hp. constructor.
  - intros c [(vc & Hv & Hc)|Hc]; [by eapply HR|]. rewrite pr_log in Hc. by apply elem_of_nil in Hc.
  - intros i [] c b; rewrite Hsl; by intros [= ].
  - by rewrite pr_last.
  - unfold first_live. by rewrite pr_slots.
  - rewrite pr_runs. constructor.
  - right. intros j _ _ _ Hs. unfold skipped in Hs. by rewrite Hsl in Hs.
  - rewrite pr_callbacks. by intros vc ?%elem_of_nil.
  - rewrite pr_callbacks. by intros vc ?%elem_of_nil.
  - rewrite pr_verify. by intros p ?%elem_of_nil.
  - rewrite pr_pending. by intros c out ?%elem_of_nil.
  - rewrite pr_waits. by intros c ?%elem_of_nil.
  - intros m i s Hm Hs. destruct pr_vslots as [Hv|Hv]; by rewrite Hv in Hm; simplify_eq.
  - rewrite pr_log. by intros v ?%elem_of_nil.
Qed.
End Justify.

(** ** Reachable states *)

(** What the pool had seen when the candidate was backed, in terms of quorums:
    the parent is certified and every slot in between is skipped. *)
Record grounded `{TLRuntime} `{Ed25519} (sid : bytes) (vs : list Validator) (cand : Candidate) : Prop := {
  gd_submitted : submitted cand;
  gd_parent : c_Parent cand = Genesis \/
    exists cert, quorum_of sid vs cert /\ sized_vote (cert_Vote cert) /\ par_Exists (c_Parent cand) = true /\
      v_ID (cert_Vote cert) = par_ID (c_Parent cand) /\
      (v_Kind (cert_Vote cert) = VoteNotarize \/ v_Kind (cert_Vote cert) = VoteFinalize);
  gd_gap : forall j, nextAfter (c_Parent cand) <= j < cid_Slot (c_ID cand) ->
    exists cert, quorum_of sid vs cert /\ cert_Vote cert = SkipVote j }.

(** Slot [2^32 - 1] has been finalized: the 32-bit slot counter is used up. *)
Definition slots_exhausted `{TLRuntime} `{Ed25519} (sid : bytes) (vs : list Validator) : Prop :=
  exists cert, quorum_of sid vs cert /\ sized_vote (cert_Vote cert) /\
    v_Kind (cert_Vote cert) = VoteFinalize /\ Vote_Slot (cert_Vote cert) = 2 ^ 32 - 1.

Section Reachable.
Context `{TLLaws} `{Ed25519} `{Machine} `{Environment}.

Lemma reachable_known c bs e :
  setup c bs -> reachable c bs e ->
  (exists R, jinv_but R (-1) e /\ forall d, known R e d -> is_quorum c d /\ sized_vote (cert_Vote d)).
Proof.
  intros Hsu Hr. destruct (reachable_certified c bs e Hsu Hr) as (g & HI & _ & Hiff).
  apply reachable_step_invariant in Hr as (e0 & vb & Hn & Hvs & Hinv).
  pose proof (recovered_quorums c bs e0 vb Hsu Hn Hvs) as Hall. rewrite Forall_forall in Hall.
  assert (jinv_but (vb_sealed vb) (-1) e) as HJ.
  { eapply Hinv; [apply justified_step, (su_votes c bs Hsu)| |].
    - apply jinv_pristine; [by eapply NewEngine_pristine|]. intros vc d Hvc Hd.
      destruct (Hall vc Hvc) as (d' & Hd' & Hwf & _). rewrite Hd in Hd'. by injection Hd' as <-.
    - apply Forall_forall. auto. }
  exists (vb_sealed vb). split; [done|]. intros d Hd. split; [|by eapply ji_sized].
  destruct Hd as [(vc & Hvc & Hd)|Hd]; [|by apply Hiff, (ce_log g e HI)].
  destruct (Hall vc Hvc) as (d' & Hd' & _ & Hq). by simplify_eq.
Qed.

Lemma reachable_grounded c bs e v :
  setup c bs -> reachable c bs e -> SaveOurVote v ∈ e_log e ->
  let sid := ec_SessionID c in let vs := ec_Validators c in
  low_vote v /\
  (v_Kind v = VoteNotarize -> (exists cand, c_ID cand = v_ID v /\ grounded sid vs cand) \/ slots_exhausted sid vs).
Proof.
  intros Hsu Hr Hv sid vs. destruct (reachable_known c bs e Hsu Hr) as (R & HJ & Hk).
  destruct (ji_votes _ _ e HJ v Hv) as [Hs Hvo]. split; [done|]. intros Hkd. destruct (Hvo Hkd) as (cand & Hid & Hsub & Hp & Hg).
  destruct Hg as [Hg|(d & Hd & Hdk & Hds)]; [left|right; exists d; destruct (Hk d Hd); done].
  exists cand. split; [done|]. constructor; [done| |].
  - destruct Hp as [?|(d & Hd & ?)]; [by left|right]. exists d. destruct (Hk d Hd). naive_solver.
  - intros j (d & Hd & Hdk & Hds)%Hg. exists d. destruct (Hk d Hd) as [? Hsz]. split; [done|].
    rewrite <- Hds. by apply sized_canonical.
Qed.


(** C27: what the engine journals is well typed: a vote or a certificate handed to
    the journal has a valid kind, a 32-bit slot, a 32-byte hash and the zero hash
    on a skip, so it has a signing payload, a journal record and a wire form and
    the serializers never panic on it. *)
Theorem journaled_values_are_typed c bs e :
  setup c bs -> reachable c bs e ->
  (forall v seqno, SaveOurVote v ∈ e_log e -> is_i64 seqno ->
    sized_vote v /\ is_Some (vote_payload (ec_SessionID c) v) /\ is_Some (EncodeOurVoteRecord v seqno)) /\
  (forall cert, SaveCertificate cert ∈ e_log e ->
    sized_vote (cert_Vote cert) /\ is_Some (Certificate_Serialize cert) /\ is_Some (EncodeCertificateRecord cert)).
Proof.
  intros Hsu Hr. destruct (reachable_known c bs e Hsu Hr) as (R & HJ & Hk). split.
  - intros v seqno Hv Hq. destruct (ji_votes _ _ e HJ v Hv) as [[Hs _] _]. split; [done|].
    split; [by apply sized_payload, Hs; apply (su_session c bs Hsu)|by apply sized_record].
  - intros cert Hc. destruct (Hk cert (or_intror Hc)) as [(p & _ & Hq) Hs]. split; [done|].
    destruct (sized_certificate cert Hs) as [w Hw].
    + eapply Forall_impl; [exact (q_sigs _ _ _ _ Hq)|]. intros sg [Hl%Nat.eqb_eq _]%andb_prop. unfold short_bytes. rewrite Hl. done.
    + unfold EncodeCertificateRecord. rewrite Hw. split; by eexists.
Qed.
End Reachable.

(** ** Example *)

Module ExampleJustify.
Import ExampleTL ExampleCert ExampleRun ExampleQuorum.

(** The votes the run handed to its journal. *)
Definition requested (e : Engine) : list Vote :=
  omap (fun ev => match ev with SaveOurVote v => Some v | _ => None end) (e_log e).
Lemma requested_log e v : v ∈ requested e -> SaveOurVote v ∈ e_log e.
Proof. intros (ev & Hev & E)%list_elem_of_omap. by destruct ev; simplify_eq/=. Qed.
Lemma notarized_requested : requested notarized = [FinalizeVote (id_of 17); NotarizeVote (id_of 17)].
Proof. vm_compute. reflexivity. Qed.


Lemma journaled_values_are_typed_witness :
  requested notarized = [FinalizeVote (id_of 17); NotarizeVote (id_of 17)] /\
  ((forall v seqno, SaveOurVote v ∈ e_log notarized -> is_i64 seqno ->
     sized_vote v /\ is_Some (vote_payload session v) /\ is_Some (EncodeOurVoteRecord v seqno)) /\
   (forall cert, SaveCertificate cert ∈ e_log notarized ->
     sized_vote (cert_Vote cert) /\ is_Some (Certificate_Serialize cert) /\ is_Some (EncodeCertificateRecord cert))).
Proof.
  split; [exact notarized_requested|].
  apply (journaled_values_are_typed config empty notarized example_setup notarized_reachable).
Defined.
End ExampleJustify.
