(* ===== verification/SimplexTotal.v ===== *)
(** * The engine never panics

    Every handler of the engine returns.  [fit] collects what the handlers rely
    on when they dereference a pointer, index a roster or serialize a value: the
    slots a handler holds pointers to are tracked, votes and certificates are
    well typed and below the last slot number, signatures have 64 bytes.  The
    handlers are executed from [fit] with [wp], which excludes a panic, so the
    loops of the model do not run out of fuel either. *)

From S2P Require Import Prelude.
From S2P Require Import SimplexTypes.
From S2P Require Import SimplexSlots.
From S2P Require Import SimplexWire.
From S2P Require Import Sha256.
From S2P Require Import SimplexFanOut.
From S2P Require Import SimplexCert.
From S2P Require Import SimplexCandidate.
From S2P Require Import SimplexPool.
From S2P Require Import Float64.
From S2P Require Import SimplexState.
From S2P Require Import SimplexEngine.
From S2P Require Import SimplexFrame.
From S2P Require Import SimplexSteps.
From S2P Require Import SimplexPoolFrame.
From S2P Require Import SimplexRun.
From S2P Require Import SimplexQuorum.
From S2P Require Import SimplexJustify.

#[local] Open Scope Z_scope.
#[local] Open Scope go_scope.

(** ** The invariant *)

Section Fit.
Context `{TLRuntime} `{Ed25519}.
Context (g : Config).

Definition fit_sig (s : VoteSignature) : Prop :=
  0 <= vs_ValidatorIndex s < Z.of_nat (nValidators g) /\ length (vs_Signature s) = SignatureSize.
Definition fit_cert (c : Certificate) : Prop := low_vote (cert_Vote c) /\ Forall fit_sig (cert_Signatures c).

(** A stored vote can be serialized as evidence. *)
Definition fit_proven (p : proven) : Prop :=
  pv_set p = true ->
  low_vote (pv_vote p) /\ length (pv_sig p) = SignatureSize /\ forall c, pv_cert p = Some c -> fit_cert c.
Definition fit_votes (vv : validatorVotes) : Prop :=
  fit_proven (vv_notarize vv) /\ fit_proven (vv_finalize vv) /\ fit_proven (vv_skip vv).

Definition stored_cert (s : poolSlot) (c : Certificate) : Prop :=
  ps_notarCert s = Some c \/ ps_skipCert s = Some c \/ ps_finalCert s = Some c.
Record fit_slot (i : Z) (s : poolSlot) : Prop := {
  fs_length : length (ps_votes s) = nValidators g;
  fs_votes : Forall fit_votes (ps_votes s);
  fs_certs : forall c, stored_cert s c -> fit_cert c /\ Vote_Slot (cert_Vote c) = i }.

(** [L]: the slots a handler holds a pointer to. *)
Record fit_slots (L : list Z) (m : slotMap poolSlot) : Prop := {
  ft_first : 0 <= firstNonFinalized m;
  ft_slot : forall i s, slots m !! i = Some s -> fit_slot i s;
  ft_live : forall i, i ∈ L -> firstNonFinalized m <= i /\ is_Some (slots m !! i) }.

Definition fit_vslot (s : voterSlot) : Prop :=
  (forall id, vs_votedNotar s = Some id -> low_id id) /\ (forall c, vs_pending s = Some c -> low_id (c_ID c)).

(** [V]: there is a voter, and the voter slots a handler holds a pointer to. *)
Record fit_voter (V : option (list Z)) (o : option voterState) : Prop := {
  fv_local : is_Some o -> 0 <= g_localIndex g < Z.of_nat (nValidators g);
  fv_slot : forall v i s, o = Some v -> slots (vt_slots v) !! i = Some s -> fit_vslot s;
  fv_live : match V with
            | Some V => exists v, o = Some v /\ forall i, i ∈ V -> is_Some (slots (vt_slots v) !! i)
            | None => True
            end }.

Definition fit_task (o : option voterState) (t : Task) : Prop :=
  match t with NotarizationObserved _ | FinalizationObserved _ => is_Some o | _ => True end.
Definition fit_pending (p : pendingVote) : Prop :=
  sized_vote (pn_vote p) /\ 0 <= pn_idx p < Z.of_nat (nValidators g) /\ pn_ok p = false.
Definition fit_sealed (vc : VerifiedCertificate) : Prop := exists c, vc_cert vc = Some c /\ fit_cert c.
Definition fit_callback (cb : Callback) : Prop :=
  match cb with VoteSaved v => low_vote v | CertificateSaved vc => fit_sealed vc | _ => True end.

Record parts (L : list Z) (V : option (list Z)) (cfg : Config) (m : slotMap poolSlot) (last : option Certificate)
    (waits : list Candidate) (o : option voterState) (tasks : list Task) (batch : list pendingVote)
    (cbs : list Callback) (cache : gmap Z (Vote * bytes)) : Prop := {
  pt_cfg : cfg = g;
  pt_slots : fit_slots L m;
  pt_last : forall c, last = Some c -> fit_cert c;
  pt_waits : forall c, c ∈ waits -> submitted c;
  pt_voter : fit_voter V o;
  pt_tasks : forall t, t ∈ tasks -> fit_task o t;
  pt_batch : forall p, p ∈ batch -> fit_pending p;
  pt_callbacks : forall cb, cb ∈ cbs -> fit_callback cb;
  pt_cache : forall k v p, cache !! k = Some (v, p) -> vote_payload (sessionID g) v = Some p }.

Definition fit_state (L : list Z) (V : option (list Z)) (e : Engine) : Prop :=
  parts L V (e_cfg e) (pl_slots (e_pool e)) (pl_lastFinalCert (e_pool e)) (pl_parentWaits (e_pool e))
    (e_voter e) (e_pending e) (e_pendingVerify e) (e_callbacks e) (e_payloadCache e).
End Fit.

(** ** Executing the handlers *)

Ltac wp_step :=
  match goal with
  | |- wp (bind _ _) _ _ => apply wp_bind
  | |- wp (ret _) _ _ => apply wp_ret
  | |- wp (gets _) _ _ => apply wp_gets
  | |- wp (cfg _) _ _ => apply wp_gets
  | |- wp (pool _) _ _ => apply wp_gets
  | |- wp (param _) _ _ => apply wp_gets
  | |- wp firstNonFin _ _ => apply wp_gets
  | |- wp (modify_stats _) _ _ => apply wp_modify
  | |- wp (emit _) _ _ => apply wp_modify
  | |- wp clock_Now _ _ => eexists _, _; split; [reflexivity|]
  | |- wp (when _ _) _ _ => apply wp_when; intros ?
  | |- wp (if ?b then _ else _) _ _ => destruct b eqn:?
  | |- wp (match ?x with _ => _ end) _ _ => destruct x eqn:?
  end.
Tactic Notation "wp_use" uconstr(lem) := eapply wp_mono; [eapply lem|cbv beta].

Section Primitives.
Context `{TLLaws} `{Ed25519} `{Machine} `{Environment}.
Context (g : Config).
Abbreviation fit := (fit_state g).

Lemma fit_weaken L L' V V' e :
  fit L V e -> L' ⊆ L -> match V', V with Some V', Some V => V' ⊆ V | None, _ => True | _, _ => False end -> fit L' V' e.
Proof.
  intros [Hc [Hf Hs Hl] Hla Hw [Hlo Hvs Hvl] Ht Hb Hcb Hca] HL HV. constructor; try done; constructor; try done.
  - intros i Hi. by apply Hl, HL.
  - destruct V' as [V'|]; [|done]. destruct V as [V|]; [|done]. destruct Hvl as (v & Ev & Hv). exists v. split; [done|].
    intros i Hi. by apply Hv, HV.
Qed.

Lemma fit_cons L V i e : fit (i :: L) V e -> fit L V e.
Proof. intros Hf. eapply fit_weaken; [exact Hf|set_solver|by destruct V]. Qed.
Lemma fit_vcons L V i e : fit L (Some (i :: V)) e -> fit L (Some V) e.
Proof. intros Hf. eapply fit_weaken; [exact Hf|done|set_solver]. Qed.
Lemma fit_none L V e : fit L V e -> fit L None e.
Proof. intros Hf. by eapply fit_weaken. Qed.
Lemma fit_nil L V e : fit L V e -> fit [] V e.
Proof. intros Hf. eapply fit_weaken; [exact Hf|set_solver|by destruct V]. Qed.

Lemma fit_new i : fit_slot g i (newPoolSlot (nValidators g)).
Proof.
  constructor; simpl; [by rewrite length_replicate| |].
  - apply Forall_replicate. by split_and!.
  - by intros c [?|[?|?]].
Qed.

Lemma fit_upd_slots L L' V e m :
  fit L V e -> fit_slots g L' m -> fit L' V (e <| e_pool := e_pool e <| pl_slots := m |> |>).
Proof. intros [Hc _ Hla Hw Hv Ht Hb Hcb Hca] Hm. by constructor. Qed.

Lemma wp_slots_at L V i e :
  fit L V e -> wp (slots_at i) e (fun p e' =>
    first_live e' = first_live e /\ (p = Some i /\ fit (i :: L) V e' \/ p = None /\ i < first_live e /\ fit L V e')).
Proof.
  intros Hf. eexists _, _. split; [reflexivity|]. pose proof Hf as [Hc [Hfi Hs Hl] _ _ _ _ _ _ _]. unfold sm_at, first_live. rewrite Hc.
  destruct (Z.ltb_spec i (firstNonFinalized (pl_slots (e_pool e)))); cbn [fst snd].
  { split; [done|]. right. split_and!; [done|done|]. by eapply fit_upd_slots. }
  destruct (slots (pl_slots (e_pool e)) !! i) as [s|] eqn:Ei; cbn [fst snd]; (split; [done|]); left; (split; [done|]);
    (eapply fit_upd_slots; [exact Hf|]); constructor; try done.
  - intros j [->|Hj]%elem_of_cons; [by rewrite Ei|by apply Hl].
  - intros j s. simpl. intros [[<- <-]|[_ ?]]%lookup_insert_Some; [apply fit_new|by apply Hs].
  - intros j Hj. simpl. destruct (decide (j = i)) as [->|N]; [by rewrite lookup_insert_eq|]. rewrite lookup_insert_ne by done.
    apply Hl. by apply elem_of_cons in Hj as [?|?].
Qed.

Lemma wp_slots_at_live L V i e :
  fit L V e -> first_live e <= i ->
  wp (slots_at i) e (fun p e' => p = Some i /\ fit (i :: L) V e' /\ first_live e' = first_live e).
Proof.
  intros Hf Hi. eapply wp_mono; [by apply wp_slots_at|]. intros p e' (E & [[-> ?]|(-> & ? & _)]); [done|lia].
Qed.

Lemma fit_live L V i e : fit L V e -> i ∈ L -> first_live e <= i.
Proof. intros [_ [_ _ Hl] _ _ _ _ _ _ _] Hi. by apply Hl. Qed.

Lemma wp_load L V i e :
  fit L V e -> i ∈ L ->
  wp (load (Some i)) e (fun s e' => e' = e /\ fit_slot g i s /\ slots (pl_slots (e_pool e)) !! i = Some s).
Proof.
  intros Hf Hi. pose proof Hf as [_ [_ Hs Hl] _ _ _ _ _ _ _]. destruct (Hl i Hi) as [_ [s Es]].
  unfold load. repeat wp_step. apply wp_ret. repeat wp_step. eapply wp_deref; [exact Es|]. auto.
Qed.

Lemma wp_store L V i f e :
  fit L V e -> i ∈ L -> (forall s, fit_slot g i s -> fit_slot g i (f s)) ->
  wp (store (Some i) f) e (fun _ e' => fit L V e' /\ first_live e' = first_live e).
Proof.
  intros Hf Hi Hfs. unfold store. wp_step. apply wp_ret. wp_step. eapply wp_mono; [by eapply wp_load|].
  intros s ? (-> & Hs & Es). apply wp_modify. split; [|done]. eapply fit_upd_slots; [exact Hf|].
  pose proof Hf as [_ [Hfi Hsl Hl] _ _ _ _ _ _ _]. constructor; [done| |].
  - intros j s'. simpl. destruct (decide (j = i)) as [->|N].
    + rewrite lookup_alter_eq, Es. intros [= <-]. auto.
    + rewrite lookup_alter_ne by done. apply Hsl.
  - intros j Hj. simpl. split; [by apply Hl|]. destruct (decide (j = i)) as [->|N].
    + rewrite lookup_alter_eq, Es. done.
    + rewrite lookup_alter_ne by done. by apply Hl.
Qed.

(** Fields of the pool outside the invariant. *)
Lemma wp_set_pool L V f e :
  fit L V e -> (forall pl, pl_slots (f pl) = pl_slots pl /\ pl_lastFinalCert (f pl) = pl_lastFinalCert pl /\
    pl_parentWaits (f pl) = pl_parentWaits pl) ->
  wp (modify_pool f) e (fun _ => fit L V).
Proof.
  intros Hf E. apply wp_modify. destruct (E (e_pool e)) as (E1 & E2 & E3). unfold fit_state. simpl.
  by rewrite E1, E2, E3.
Qed.
Lemma wp_set_waits L V l e : fit L V e -> (forall c, c ∈ l -> submitted c) -> wp (set_parentWaits l) e (fun _ => fit L V).
Proof. intros [Hc Hs Hla Hw Hv Ht Hb Hcb Hca] Hl. apply wp_modify. by constructor. Qed.
Lemma wp_enqueue L V t e : fit L V e -> fit_task (e_voter e) t -> wp (enqueue t) e (fun _ => fit L V).
Proof.
  intros [Hc Hs Hla Hw Hv Ht Hb Hcb Hca] Hx. apply wp_modify. constructor; try done. simpl.
  intros t' [?| ->%list_elem_of_singleton]%elem_of_app; auto.
Qed.
Lemma wp_register L V cb e : fit L V e -> fit_callback g cb -> wp (register cb) e (fun _ => fit L V).
Proof.
  intros [Hc Hs Hla Hw Hv Ht Hb Hcb Hca] Hx. apply wp_modify. constructor; try done. simpl.
  intros t' [?| ->%list_elem_of_singleton]%elem_of_app; auto.
Qed.
Lemma wp_fatal L V err e : fit L V e -> wp (fatal err) e (fun _ => fit L V).
Proof.
  intros Hf. unfold fatal. repeat wp_step; [done|]. apply wp_modify. repeat wp_step. apply wp_modify. repeat wp_step.
  apply wp_modify. destruct Hf as [Hc Hs Hla Hw Hv Ht Hb Hcb Hca]. apply wp_enqueue; [|done]. constructor; try done.
  intros t Hx. by apply elem_of_nil in Hx.
Qed.
Lemma wp_trace L V ev e : fit L V e -> wp (trace ev) e (fun _ => fit L V).
Proof. intros Hf. unfold trace. repeat wp_step; done. Qed.
Lemma wp_misbehavior L V i m e : fit L V e -> wp (reportMisbehavior i m) e (fun _ => fit L V).
Proof. intros Hf. unfold reportMisbehavior. repeat wp_step. by apply wp_enqueue. Qed.
Lemma wp_ban L V p e : fit L V e -> wp (ban p) e (fun _ => fit L V).
Proof. intros Hf. unfold ban. repeat wp_step. by apply wp_modify. Qed.
Lemma wp_isBanned L V p e : fit L V e -> wp (isBanned p) e (fun _ => fit L V).
Proof. intros Hf. unfold isBanned. repeat wp_step; try done. apply wp_modify. by apply wp_ret. Qed.
Lemma wp_noteOwnCandidate L V id e : fit L V e -> wp (noteOwnCandidate id) e (fun _ => fit L V).
Proof. intros Hf. unfold noteOwnCandidate. repeat first [wp_step|apply wp_modify]; done. Qed.
Lemma wp_noteOwnCandidateVote L V i v e : fit L V e -> wp (noteOwnCandidateVote i v) e (fun _ => fit L V).
Proof. intros Hf. unfold noteOwnCandidateVote. repeat first [wp_step|apply wp_modify]; done. Qed.
Lemma wp_reportOwn L V c e : fit L V e -> wp (reportOwnCandidateNotarized c) e (fun _ => fit L V).
Proof. intros Hf. unfold reportOwnCandidateNotarized. repeat first [wp_step|apply wp_modify]; done. Qed.

(** *** The voter's slots *)

Lemma fit_upd_voter L V V' e v :
  fit L V e -> is_Some (e_voter e) -> fit_voter g V' (Some v) -> fit L V' (e <| e_voter := Some v |>).
Proof.
  intros [Hc Hs Hla Hw Hv Ht Hb Hcb Hca] Hso Hv'. constructor; try done. simpl. intros t Hx. specialize (Ht t Hx).
  destruct t; simpl; by try eexists.
Qed.

Lemma wp_voter L V e :
  fit L (Some V) e -> wp voter e (fun v e' => e' = e /\ e_voter e = Some v).
Proof.
  intros [_ _ _ _ [_ _ (v & Ev & _)] _ _ _ _]. unfold voter. repeat wp_step. by eapply wp_deref.
Qed.

Lemma wp_modify_voter L V f e :
  fit L (Some V) e -> (forall v, vt_slots (f v) = vt_slots v) ->
  wp (modify_voter f) e (fun _ => fit L (Some V)).
Proof.
  intros Hf Hs. unfold modify_voter. wp_step. eapply wp_mono; [by eapply wp_voter|]. intros v ? [-> Ev]. apply wp_modify.
  eapply fit_upd_voter; [exact Hf|by rewrite Ev|]. destruct Hf as [_ _ _ _ [Hl Hsl (v' & Ev' & Hv)] _ _ _ _].
  rewrite Ev in *. injection Ev' as <-. constructor.
  - intros _. by apply Hl.
  - intros w i s [= <-]. rewrite Hs. by apply Hsl.
  - eexists. split; [done|]. by rewrite Hs.
Qed.

Lemma wp_vslots_at L V i e :
  fit L (Some V) e ->
  wp (vslots_at i) e (fun p e' => p = Some i /\ fit L (Some (i :: V)) e' \/ p = None /\ fit L (Some V) e').
Proof.
  intros Hf. unfold vslots_at. wp_step. eapply wp_mono; [by eapply wp_voter|]. intros v ? [-> Ev].
  unfold modify_voter. repeat wp_step. eapply wp_mono; [by eapply wp_voter|]. intros v' ? [-> Ev'].
  rewrite Ev in Ev'. injection Ev' as <-. apply wp_modify. wp_step. pose proof Hf as [_ _ _ _ [Hl Hsl (v' & Ev' & Hv)] _ _ _ _].
  rewrite Ev in *. injection Ev' as <-. unfold sm_at.
  destruct (i <? firstNonFinalized (vt_slots v)); [right|left; destruct (slots (vt_slots v) !! i) as [s|] eqn:Ei]; cbn [fst snd];
    (split; [done|]); (eapply fit_upd_voter; [exact Hf|by rewrite Ev|]); (constructor; [by intros _; apply Hl| |eexists; split; [done|]]);
    simpl; try done; try (intros w j s' [= <-]; simpl); try (by apply Hsl).
  - intros j [->|Hj]%elem_of_cons; [by rewrite Ei|by apply Hv].
  - intros [[<- <-]|[_ ?]]%lookup_insert_Some; [by split|by eapply Hsl].
  - intros j Hj. destruct (decide (j = i)) as [->|N]; [by rewrite lookup_insert_eq|]. rewrite lookup_insert_ne by done.
    apply Hv. by apply elem_of_cons in Hj as [?|?].
Qed.

Lemma wp_vload L V i e :
  fit L (Some V) e -> i ∈ V -> wp (vload (Some i)) e (fun s e' => e' = e /\ fit_vslot s).
Proof.
  intros Hf Hi. unfold vload. wp_step. apply wp_ret. wp_step. eapply wp_mono; [by eapply wp_voter|]. intros v ? [-> Ev].
  destruct Hf as [_ _ _ _ [_ Hsl (v' & Ev' & Hv)] _ _ _ _]. rewrite Ev in Ev'. injection Ev' as <-.
  destruct (Hv i Hi) as [s Es]. eapply wp_deref; [exact Es|]. split; [done|]. by eapply Hsl.
Qed.

Lemma wp_vstore L V i f e :
  fit L (Some V) e -> i ∈ V -> (forall s, fit_vslot s -> fit_vslot (f s)) ->
  wp (vstore (Some i) f) e (fun _ => fit L (Some V)).
Proof.
  intros Hf Hi Hfs. unfold vstore. wp_step. apply wp_ret. wp_step. eapply wp_mono; [by eapply wp_vload|].
  intros s ? [-> Hs]. unfold modify_voter. wp_step. eapply wp_mono; [by eapply wp_voter|]. intros v ? [-> Ev]. apply wp_modify.
  eapply fit_upd_voter; [exact Hf|by rewrite Ev|]. destruct Hf as [_ _ _ _ [Hl Hsl (v' & Ev' & Hv)] _ _ _ _].
  rewrite Ev in *. injection Ev' as <-. constructor.
  - intros _. by apply Hl.
  - intros w j s' [= <-]. simpl. destruct (decide (j = i)) as [->|N].
    + rewrite lookup_alter_eq. intros (s0 & Es0 & ->)%fmap_Some. apply Hfs. by eapply Hsl.
    + rewrite lookup_alter_ne by done. by apply Hsl.
  - eexists. split; [done|]. intros j Hj. simpl. destruct (decide (j = i)) as [->|N].
    + rewrite lookup_alter_eq. destruct (Hv i Hi) as [s0 ->]. done.
    + rewrite lookup_alter_ne by done. by apply Hv.
Qed.

Lemma fit_voter_some L V e v : fit L V e -> e_voter e = Some v -> fit L (Some []) e.
Proof.
  intros [Hc Hs Hla Hw [Hl Hsl _] Ht Hb Hcb Hca] Ev. constructor; try done. constructor; try done. exists v. split; [done|].
  intros i Hi. by apply elem_of_nil in Hi.
Qed.
End Primitives.

(** What the engine is configured with. *)
Record fit_config `{TLRuntime} `{Ed25519} `{Environment} (g : Config) : Prop := {
  fc_session : length (sessionID g) = 32%nat;
  fc_roster : good_roster (validators g) (total_weight (validators g));
  fc_spw : g_spw g <> 0;
  fc_local : g_localIndex g = ObserverIndex \/ 0 <= g_localIndex g < Z.of_nat (nValidators g);
  fc_signer : signer_ok g;
  fc_last : forall cert, good_cert g cert -> sized_vote (cert_Vote cert) -> Vote_Slot (cert_Vote cert) <> lastSlot }.

Section Handlers.
Context `{TLLaws} `{Ed25519} `{Machine} `{Environment}.
Context (g : Config).
Abbreviation fit := (fit_state g).
Hypothesis Hg : fit_config g.

(** ** Serializers *)

Lemma sig_short (sig : bytes) : length sig = SignatureSize -> short_bytes sig.
Proof. unfold short_bytes. by intros ->. Qed.

Lemma fit_cert_wire c : fit_cert g c -> exists w, Certificate_Serialize c = Some w.
Proof.
  intros [[Hv _] Hs]. apply sized_certificate; [done|]. eapply Forall_impl; [exact Hs|]. intros s [_ ?]. by apply sig_short.
Qed.

Lemma signed_wire idx v sig :
  sized_vote v -> length sig = SignatureSize -> exists w, SignedVote_Serialize (mkSignedVote idx v sig) = Some w.
Proof.
  intros (Hk & _) Hs. unfold SignedVote_Serialize. cbn [sv_Vote sv_Signature].
  assert (exists b, appendUnsignedVote (le_put 4 idSignedVote) v = Some b) as [b ->].
  { unfold appendUnsignedVote. destruct (v_Kind v); simpl in *; eauto; done. }
  by apply law_append_ok, sig_short.
Qed.

Lemma fit_evidence ev idx :
  pv_set (ev_a ev) = true -> pv_set (ev_b ev) = true -> fit_proven g (ev_a ev) -> fit_proven g (ev_b ev) ->
  exists m, conflict_misbehavior ev idx = Some m.
Proof.
  assert (forall p, pv_set p = true -> fit_proven g p -> exists w, proofBytes p idx = Some w) as Hp.
  { intros p Hs Hf. destruct (Hf Hs) as ([Hv _] & Hl & Hc). unfold proofBytes. destruct (pv_cert p) as [c|]; [|by apply signed_wire].
    by apply fit_cert_wire, Hc. }
  intros Ha Hb Fa Fb. unfold conflict_misbehavior. destruct (Hp _ Ha Fa) as [wa ->], (Hp _ Hb Fb) as [wb ->]. by eexists.
Qed.

(** ** Vote records *)

Lemma fit_byKind vv k p : fit_votes g vv -> byKind vv k = Some p -> fit_proven g p.
Proof. intros (Hn & Hf & Hs). by destruct k; intros [= <-]. Qed.
Lemma fit_set_byKind vv k p : fit_votes g vv -> fit_proven g p -> fit_votes g (set_byKind k p vv).
Proof. intros (Hn & Hf & Hs) Hp. destruct k; by split_and!. Qed.
Lemma fit_zero : fit_proven g zeroProven.
Proof. done. Qed.

Lemma checkInvariants_fit vv ev : fit_votes g vv -> checkInvariants vv = Some ev ->
  pv_set (ev_a ev) = true /\ pv_set (ev_b ev) = true /\ fit_proven g (ev_a ev) /\ fit_proven g (ev_b ev).
Proof.
  intros (Hn & Hf & Hs). unfold checkInvariants. destruct (_ && _) eqn:E1.
  - apply andb_prop in E1 as [[? ?]%andb_prop _]. by intros [= <-].
  - destruct (pv_set (vv_finalize vv) && pv_set (vv_skip vv)) eqn:E2; [|done]. apply andb_prop in E2 as [? ?]. by intros [= <-].
Qed.

Lemma vv_add_fit vv p :
  fit_votes g vv -> fit_proven g p -> pv_set p = true -> valid_kind (v_Kind (pv_vote p)) ->
  exists r, vv_add vv p = Some r /\ fit_votes g r.2 /\
    forall ev idx, r.1.2 = Some ev -> exists m, conflict_misbehavior ev idx = Some m.
Proof.
  intros Hv Hp Hs Hk. assert (exists q, byKind vv (v_Kind (pv_vote p)) = Some q) as [q Hq]
    by (destruct (v_Kind (pv_vote p)); simpl in *; eauto; done).
  unfold vv_add. rewrite Hq. cbn [mbind option_bind]. destruct (pv_set q) eqn:Eq.
  - destruct (_ && _); eexists; (split; [done|]); (split; [done|]); [|done]. intros ev idx [= <-].
    apply fit_evidence; try done. by eapply fit_byKind.
  - pose proof (fit_set_byKind vv (v_Kind (pv_vote p)) p Hv Hp) as Hv'.
    destruct (checkInvariants _) as [ev|] eqn:Ec; eexists; (split; [done|]); [|done].
    split; [by apply fit_set_byKind|]. intros ev' idx [= <-]. destruct (checkInvariants_fit _ _ Hv' Ec) as (? & ? & ? & ?).
    by apply fit_evidence.
Qed.

(** ** Parent waits *)

Lemma wp_conflicting L V c o e :
  fit L V e -> submitted c -> (forall cert, o = Some cert -> fit_cert g cert) ->
  wp (conflictingCandidateAndCert c o) e (fun _ => fit L V).
Proof.
  intros Hf Hc Ho. unfold conflictingCandidateAndCert. pose proof (sb_id c Hc) as Hid.
  apply bind_Some in Hid as (b & Hb & _). wp_step. eapply wp_deref; [exact Hb|]. wp_step. destruct o as [cert|].
  - destruct (fit_cert_wire cert) as [w Hw]; [by apply Ho|]. eapply wp_deref; [exact Hw|]. by wp_step.
  - wp_step. by wp_step.
Qed.

Lemma wp_evaluateSkips L V id next e :
  fit L V e -> first_live e <= next -> wp (evaluateSkips id next) e (fun _ => fit L V).
Proof.
  intros Hf Hn. unfold evaluateSkips. wp_step; [by wp_step|]. wp_step.
  wp_use (wp_slots_at_live g _ _ _ _ Hf Hn). intros p e1 (-> & Hf1 & _). wp_step.
  wp_use (wp_load g _ _ _ _ Hf1 (list_elem_of_here _ _)). intros s ? (-> & Hs & _).
  apply fit_cons in Hf1. wp_step; [|by wp_step]. do 2 wp_step. wp_step.
  - wp_step; by wp_step.
  - wp_step. wp_use (wp_fatal g _ _ _ _ Hf1). intros _ e2 Hf2. by wp_step.
Qed.

Lemma fit_slot_certs i s : fit_slot g i s ->
  (forall c, ps_notarCert s = Some c -> fit_cert g c) /\ (forall c, ps_skipCert s = Some c -> fit_cert g c) /\
  (forall c, ps_finalCert s = Some c -> fit_cert g c).
Proof.
  intros [_ _ Hc]. unfold stored_cert in Hc. split_and!; intros c E; apply (Hc c); auto.
Qed.

Lemma fit_last L V e : fit L V e -> forall c, pl_lastFinalCert (e_pool e) = Some c -> fit_cert g c.
Proof. by intros [_ _ Hl _ _ _ _ _ _]. Qed.
Lemma fit_first L V e : fit L V e -> 0 <= first_live e.
Proof. by intros [_ [Hl _ _] _ _ _ _ _ _ _]. Qed.

Lemma wp_evaluateParentWait L V c e :
  fit L V e -> submitted c -> wp (evaluateParentWait c) e (fun _ => fit L V).
Proof.
  intros Hf Hc. unfold evaluateParentWait. wp_step. wp_step.
  set (next := if par_Exists (c_Parent c) then _ else _).
  change (firstNonFinalized (pl_slots (e_pool e))) with (first_live e).
  destruct (Z.ltb_spec (cid_Slot (c_ID c)) (first_live e)) as [|Hid]; [by wp_step|]. do 2 wp_step.
  destruct (Z.ltb_spec next (first_live e)) as [|Hnext].
  { wp_step. wp_use (wp_conflicting _ _ _ _ _ Hf Hc (fit_last _ _ _ Hf)). intros m e1 Hf1. by wp_step. }
  wp_step. wp_use (wp_slots_at_live g _ _ _ _ Hf Hid). intros p e1 (-> & Hf1 & Efirst). wp_step.
  wp_use (wp_load g _ _ _ _ Hf1 (list_elem_of_here _ _)). intros s ? (-> & Hs & _).
  apply fit_cons in Hf1. apply fit_slot_certs in Hs as (Hsn & _ & _). wp_step.
  { wp_step. wp_use (wp_conflicting _ _ _ _ _ Hf1 Hc Hsn). intros m e2 Hf2. by wp_step. }
  destruct (Z.eqb_spec next (first_live e)) as [|Hne].
  { do 2 wp_step. wp_step; [|by apply wp_evaluateSkips; [|lia]].
    wp_step. wp_use (wp_conflicting _ _ _ _ _ Hf1 Hc (fit_last _ _ _ Hf)). intros m e2 Hf2. by wp_step. }
  assert (first_live e1 <= cid_Slot (par_ID (c_Parent c))) as Hpar.
  { pose proof (fit_first _ _ _ Hf). subst next. destruct (par_Exists (c_Parent c)); [|lia].
    destruct (sb_typed c Hc) as [[Hu _] _]. unfold is_u32 in Hu.
    destruct (Z.eq_dec (cid_Slot (par_ID (c_Parent c))) (2 ^ 32 - 1)) as [E|N].
    { rewrite E in *. replace (u32 (2 ^ 32 - 1 + 1)) with 0 in * by done. lia. }
    rewrite u32_small in * by (unfold is_u32; lia). lia. }
  wp_step. wp_use (wp_slots_at_live g _ _ _ _ Hf1 Hpar). intros q e2 (-> & Hf2 & Efirst2). wp_step.
  wp_use (wp_load g _ _ _ _ Hf2 (list_elem_of_here _ _)). intros s2 ? (-> & Hs2 & _).
  apply fit_cons in Hf2. apply fit_slot_certs in Hs2 as (Hsn2 & _ & _). wp_step; [|by wp_step].
  wp_step; [|apply wp_evaluateSkips; [done|lia]].
  wp_step. wp_use (wp_conflicting _ _ _ _ _ Hf2 Hc Hsn2). intros m e3 Hf3. by wp_step.
Qed.

Lemma wp_registerParentWait L V c e : fit L V e -> submitted c -> wp (registerParentWait c) e (fun _ => fit L V).
Proof.
  intros Hf Hc. unfold registerParentWait. wp_step. wp_use (wp_evaluateParentWait _ _ _ _ Hf Hc).
  intros r e1 Hf1. wp_step; [by apply wp_enqueue|]. do 2 wp_step. apply wp_set_waits; [done|].
  intros c' [Hin| ->%list_elem_of_singleton]%elem_of_app; [by apply Hf1|done].
Qed.

(** An evaluation leaves the list of waits alone. *)
Definition same_waits (e e' : Engine) : Prop := pl_parentWaits (e_pool e') = pl_parentWaits (e_pool e).
#[local] Instance same_waits_refl : Reflexive same_waits.
Proof. done. Qed.
#[local] Instance same_waits_trans : Transitive same_waits.
Proof. unfold same_waits. intros ? ? ? -> ->. done. Qed.
Lemma waits_slots_at i : keeps same_waits (slots_at i).
Proof. by intros e u e' [= <- <-]. Qed.
Lemma waits_modify f : (forall e, same_waits e (f e)) -> keeps same_waits (modify f).
Proof. intros Hm e u e' [= <- <-]. apply Hm. Qed.
Lemma waits_evaluate c : keeps same_waits (evaluateParentWait c).
Proof.
  assert (forall err, keeps same_waits (fatal err)) as Hfa
    by (intros err; unfold fatal, enqueue; repeat first [apply waits_modify; done|keeps_step]).
  unfold evaluateParentWait, evaluateSkips, conflictingCandidateAndCert, firstNonFin, load.
  repeat first [apply waits_slots_at|apply Hfa|keeps_step].
Qed.

(** With the length of the list as fuel the scan visits every wait. *)
Lemma wp_resolve_loop L V fuel i e : fit L V e -> wp (resolve_loop fuel i) e (fun _ => fit L V).
Proof.
  revert i e. induction fuel as [|fuel IH]; intros i e Hf; cbn [resolve_loop]; [by wp_step|]. do 2 wp_step.
  destruct (pl_parentWaits (e_pool e) !! i) as [cand|] eqn:Ei; [|by wp_step]. wp_step.
  assert (submitted cand) as Hc by (apply Hf; by eapply list_elem_of_lookup_2).
  destruct (wp_evaluateParentWait L V cand e Hf Hc) as (r & e1 & Er & Hf1). exists r, e1. split; [done|].
  pose proof (waits_evaluate cand e r e1 Er) as Hw. unfold same_waits in Hw.
  wp_step; [by apply IH|]. do 2 wp_step. cbv zeta. rewrite Hw.
  set (w := pl_parentWaits (e_pool e)) in *. apply lookup_lt_Some in Ei.
  destruct (lookup_lt_is_Some_2 w (length w - 1)%nat) as [lc Elc]; [lia|].
  assert (forall c', c' ∈ take (length w - 1) (<[i:=lc]> w) -> submitted c') as Hl.
  { intros c' (k & Hin & _)%elem_of_take. apply Hf. destruct (decide (k = i)) as [->|N].
    - rewrite list_lookup_insert_eq in Hin by done. injection Hin as <-. by eapply list_elem_of_lookup_2.
    - rewrite list_lookup_insert_ne in Hin by done. by eapply list_elem_of_lookup_2. }
  wp_step. eapply wp_deref; [exact Elc|]. wp_step. wp_use (wp_set_waits g _ _ _ _ Hf1 Hl).
  intros _ e2 Hf2. wp_step. wp_use (wp_enqueue g _ _ (ParentWaitDone cand r.2) _ Hf2 I). intros _ e3 Hf3. by apply IH.
Qed.

Lemma wp_resolveParentWaits L V e : fit L V e -> wp resolveParentWaits e (fun _ => fit L V).
Proof. intros Hf. unfold resolveParentWaits. do 2 wp_step. by apply wp_resolve_loop. Qed.

(** The length of the list is enough fuel: more makes no difference. *)
Lemma resolve_loop_enough fuel k i e :
  (length (pl_parentWaits (e_pool e)) - i <= fuel)%nat -> resolve_loop (fuel + k) i e = resolve_loop fuel i e.
Proof.
  revert i e. induction fuel as [|fuel IH]; intros i e Hl.
  { destruct k as [|k]; [done|]. cbn [resolve_loop Nat.add]. unfold bind at 1. simpl.
    rewrite lookup_ge_None_2 by lia. done. }
  cbn [resolve_loop Nat.add]. apply bind_ext. intros w ? [= <- <-].
  destruct (pl_parentWaits (e_pool e) !! i) as [cand|] eqn:Ei; [|done]. apply lookup_lt_Some in Ei.
  apply bind_ext. intros r e1 Er. pose proof (waits_evaluate cand e r e1 Er) as Hw. unfold same_waits in Hw.
  destruct (negb r.1); [apply IH; rewrite Hw; lia|].
  apply bind_ext. intros w ? [= <- <-]. apply bind_ext. intros lc ? [_ ->]%deref_inv.
  apply bind_ext. intros ? ? [= <- <-]. apply bind_ext. intros ? ? [= <- <-]. apply IH.
  simpl. rewrite length_take, length_insert, Hw. lia.
Qed.

(** ** The present slot *)

Lemma wp_nextNonSkipped L V i e :
  fit L V e -> i ∈ L -> i < lastSlot ->
  wp (nextNonSkippedSlotAfter i) e (fun o e' => fit L V e' /\ forall n, o = Some n -> i < n).
Proof.
  intros Hf Hi Hlow. pose proof (fit_live g _ _ _ _ Hf Hi). pose proof (fit_first _ _ _ Hf). unfold lastSlot in Hlow.
  unfold nextNonSkippedSlotAfter. cbv zeta. rewrite u32_small by (unfold is_u32; lia). wp_step.
  wp_use (wp_slots_at_live g _ _ (i + 1) _ Hf ltac:(lia)). intros p e1 (-> & Hf1 & _). wp_step.
  wp_use (wp_load g _ _ _ _ Hf1 (list_elem_of_here _ _)). intros s ? (-> & Hs & _). apply fit_cons in Hf1. wp_step.
  - do 3 wp_step. split; [done|]. intros n Hn%lowerBound_ge. lia.
  - wp_step. split; [done|]. intros n [= <-]. lia.
Qed.

Lemma fit_addBase i b s : fit_slot g i s -> fit_slot g i (addAvailableBase b s).
Proof. intros [Hl Hv Hc]. unfold addAvailableBase. repeat case_match; by constructor. Qed.

(** A run with a voter keeps the pointers of its caller. *)
Lemma fit_has_voter L W e : fit L (Some W) e -> is_Some (e_voter e).
Proof. intros [_ _ _ _ [_ _ (v & -> & _)] _ _ _ _]. by eexists. Qed.
Lemma voter_frame L V (m : M unit) e v :
  (forall W, fit L (Some W) e -> wp m e (fun _ => fit L (Some W))) -> fit L V e -> e_voter e = Some v ->
  wp m e (fun _ e' => fit L V e' /\ is_Some (e_voter e')).
Proof.
  intros Hm Hf Ev. destruct V as [W|].
  - wp_use (Hm W Hf). intros _ e1 Hf1. split; [done|]. by eapply fit_has_voter.
  - wp_use (Hm [] (fit_voter_some g _ _ _ _ Hf Ev)). intros _ e1 Hf1. split; [by apply fit_none in Hf1|by eapply fit_has_voter].
Qed.

(** Executes one step with a lemma that keeps [fit], and renames the result. *)
Ltac wp_keep Hf tac :=
  eapply wp_mono; [solve [tac; first [exact Hf|done]]|];
  let e := fresh "e" in let Hn := fresh in intros ? e Hn; clear Hf; rename Hn into Hf.

Lemma wp_voterWindowObserved L V i e : fit L (Some V) e -> wp (voterWindowObserved i) e (fun _ => fit L (Some V)).
Proof.
  intros Hf. unfold voterWindowObserved. do 4 wp_step.
  do 2 (wp_step; wp_keep Hf ltac:(apply wp_modify_voter)).
  wp_step. wp_keep Hf ltac:(apply wp_when; intros _; [apply wp_modify_voter|]).
  wp_step. wp_use (wp_voter g _ _ _ Hf). intros v ? [-> Ev]. wp_step; [|by wp_step]. do 2 wp_step.
  do 3 (wp_step; wp_keep Hf ltac:(apply wp_modify_voter)). by apply wp_modify_voter.
Qed.

Lemma wp_windowObserved L V i b e : fit L V e -> wp (windowObserved i b) e (fun _ => fit L V).
Proof.
  intros Hf. unfold windowObserved. do 5 wp_step.
  assert (forall t e, fit L V e -> wp (let windowStart := i -₃₂ i mod g_spw g in
      let windowEnd := windowStart +₃₂ g_spw g in
      let leader := g_schedule g windowStart in
      now <- clock_Now ;;
      enqueue (CallHook (HandleWindow (mkWindow b i windowStart windowEnd leader
        ((0 <=? g_localIndex g) && (leader =? u32 (g_localIndex g))) now t)))) e (fun _ => fit L V)) as Hk.
  { intros t e1 Hf1. cbv zeta. do 2 wp_step. by apply wp_enqueue. }
  pose proof Hf as [-> _ _ _ _ _ _ _ _]. destruct (e_voter e) as [v|] eqn:Ev; [|wp_step; by apply Hk].
  wp_step. wp_use (voter_frame L V _ e v (fun W HW => wp_voterWindowObserved L W i e HW) Hf Ev). intros _ e1 [Hf1 [v1 Ev1]].
  wp_step. unfold voter. do 2 wp_step. eapply wp_deref; [exact Ev1|]. wp_step. by apply Hk.
Qed.

(** Tracked slots from the present on. *)
Definition ahead (e : Engine) : gmap Z poolSlot :=
  filter (fun kv => pl_now (e_pool e) <= kv.1) (slots (pl_slots (e_pool e))).

(** Each round but the last passes a tracked slot, so the fuel suffices. *)
Lemma wp_present_loop L V fuel e :
  fit L V e -> (size (ahead e) < fuel)%nat ->
  wp (present_loop fuel) e (fun ok e' => if ok then fit (pl_now (e_pool e') :: L) V e' else fit L V e').
Proof.
  revert e. induction fuel as [|fuel IH]; intros e Hf Hm; [lia|]. cbn [present_loop]. do 3 wp_step.
  set (now := pl_now (e_pool e)) in *.
  assert (wp (slots_at now) e (fun p e' => pl_now (e_pool e') = now /\
    (p = None /\ fit L V e' \/ p = Some now /\ fit (now :: L) V e' /\
      forall s, slots (pl_slots (e_pool e')) !! now = Some s ->
        negb (bool_decide (ps_notarCert s = None)) || negb (bool_decide (ps_skipCert s = None)) = true -> ahead e' = ahead e))) as Hat.
  { destruct (wp_slots_at g L V now e Hf) as (p & e1 & E & _ & Hp). exists p, e1. split; [exact E|].
    injection E as <- <-. split; [done|]. destruct Hp as [[Hp Hf1]|(Hp & _ & Hf1)]; [right|by left].
    split_and!; [done|done|]. clear Hp Hf1. unfold ahead. simpl. unfold sm_at. case_match; [done|].
    destruct (slots (pl_slots (e_pool e)) !! now) eqn:En; [done|]. intros s. simpl. rewrite lookup_insert_eq.
    intros [= <-]. done. }
  eapply wp_mono; [exact Hat|]. intros p e1 (En & [[-> Hf1]|(-> & Hf1 & Hah)]).
  { wp_step. wp_use (wp_fatal g _ _ _ _ Hf1). intros _ e2 Hf2. by wp_step. }
  wp_step. wp_use (wp_load g _ _ _ _ Hf1 (list_elem_of_here _ _)). intros s ? (-> & Hs & Es).
  destruct (negb _ || negb _) eqn:Ec; [|wp_step; by rewrite En].
  specialize (Hah s Es Ec). pose proof (fit_live g _ _ _ _ Hf1 (list_elem_of_here _ _)). pose proof (fit_first _ _ _ Hf1).
  assert (now < lastSlot) as Hlow.
  { destruct Hs as [_ _ Hs]. apply orb_true_iff in Ec as [Ec%negb_true_iff%bool_decide_eq_false|Ec%negb_true_iff%bool_decide_eq_false].
    - destruct (ps_notarCert s) as [c|] eqn:E; [|done]. destruct (Hs c (or_introl E)) as [[[_ ?] _] <-]. done.
    - destruct (ps_skipCert s) as [c|] eqn:E; [|done]. destruct (Hs c (or_intror (or_introl E))) as [[[_ ?] _] <-]. done. }
  unfold lastSlot in Hlow. wp_step. apply fit_cons in Hf1.
  apply wp_modify. apply IH; [exact Hf1|].
  cut (size (ahead (e1 <| e_pool := e_pool e1 <| pl_now := pl_now (e_pool e1) +₃₂ 1 |> |>)) < size (ahead e))%nat; [lia|].
  rewrite <- Hah. unfold ahead. simpl. rewrite En, u32_small by (unfold is_u32; lia). apply map_subset_size, map_subset_alt. split.
  - apply map_subseteq_spec. intros k x [? ?]%map_lookup_filter_Some. apply map_lookup_filter_Some. simpl in *. split; [done|lia].
  - exists now. rewrite map_lookup_filter_None, map_lookup_filter. split; [right; simpl; lia|]. rewrite Es. simpl.
    rewrite option_guard_True by lia. by eexists.
Qed.

Lemma wp_announceWindow L V e : fit (pl_now (e_pool e) :: L) V e -> wp announceWindow e (fun _ => fit L V).
Proof.
  intros Hf. unfold announceWindow. do 6 wp_step. cbv zeta. wp_step; [wp_step; by apply fit_cons in Hf|]. wp_step.
  apply wp_modify. set (e1 := e <| e_pool := _ |>). assert (fit (pl_now (e_pool e) :: L) V e1) as Hf1 by exact Hf.
  pose proof (fit_live g _ _ _ _ Hf1 (list_elem_of_here _ _)) as Hl. wp_step.
  assert (wp (if negb (pl_now (e_pool e) =? 0) then p <- slots_at (pl_now (e_pool e)) ;; s <- load p ;; ret (ps_availableBase s)
    else ret (Some Genesis)) e1 (fun _ => fit L V)) as Hbase.
  { apply fit_cons in Hf1. wp_step; [|by wp_step]. wp_step. wp_use (wp_slots_at_live g _ _ _ _ Hf1 Hl). intros p e2 (-> & Hf2 & _).
    wp_step. wp_use (wp_load g _ _ _ _ Hf2 (list_elem_of_here _ _)). intros s ? (-> & _). wp_step. by apply fit_cons in Hf2. }
  eapply wp_mono; [exact Hbase|]. intros base e2 Hf2. wp_step; [|by apply wp_fatal].
  wp_step. wp_use (wp_windowObserved _ _ _ _ _ Hf2). intros _ e3 Hf3. do 4 wp_step. by apply wp_register.
Qed.

Lemma wp_advancePresent L V e : fit L V e -> wp advancePresent e (fun _ => fit L V).
Proof.
  intros Hf. unfold advancePresent. do 4 wp_step. wp_step; [by wp_step|]. do 3 wp_step.
  assert (size (ahead e) < S (size (slots (pl_slots (e_pool e)))))%nat as Hm
    by (apply Nat.lt_succ_r, map_subseteq_size, map_filter_subseteq).
  wp_use (wp_present_loop L V _ e Hf Hm). intros [] e1 Hf1; [by apply wp_announceWindow|by wp_step].
Qed.

(** ** Certificates *)

Lemma wp_base L V i n b e :
  fit L V e -> i ∈ L -> i < n -> wp (p <- slots_at n ;; store p (addAvailableBase b)) e (fun _ => fit L V).
Proof.
  intros Hf Hi Hn. pose proof (fit_live g _ _ _ _ Hf Hi). wp_step. wp_use (wp_slots_at_live g _ _ n _ Hf ltac:(lia)).
  intros p e1 (-> & Hf1 & _). wp_use (wp_store g _ _ _ _ _ Hf1 (list_elem_of_here _ _) (fit_addBase n b)).
  intros _ e2 [Hf2 _]. by apply fit_cons in Hf2.
Qed.

Lemma wp_task L V t e v : fit L V e -> e_voter e = Some v -> wp (enqueue t) e (fun _ => fit L V).
Proof. intros Hf Ev. apply wp_enqueue; [done|]. rewrite Ev. by destruct t; try eexists. Qed.

Lemma wp_notify L V t e : fit L V e -> wp (when (bool_decide (is_Some (e_voter e))) (enqueue t)) e (fun _ => fit L V).
Proof. intros Hf. apply wp_when; [|done]. intros [v Ev]%bool_decide_eq_true. by eapply wp_task. Qed.

Lemma wp_onNotar L V vc c e :
  fit L V e -> vc_cert vc = Some c -> fit_cert g c -> Vote_Slot (cert_Vote c) ∈ L ->
  wp (onNotarCertificate vc) e (fun _ => fit L V).
Proof.
  intros Hf Hc [[_ Hlow] _] Hi. unfold onNotarCertificate. assert (VC_Vote vc = cert_Vote c) as -> by (unfold VC_Vote; by rewrite Hc).
  cbv zeta. wp_step. wp_use (wp_enqueue g _ _ (CallHook _) _ Hf I). clear Hf. intros _ e1 Hf.
  do 3 wp_step. wp_use (wp_notify _ _ _ _ Hf). clear Hf. intros _ e2 Hf. wp_step.
  wp_use (wp_nextNonSkipped _ _ _ _ Hf Hi Hlow). clear Hf. intros o e3 [Hf Hn]. destruct o as [n|]; [|by apply wp_fatal].
  specialize (Hn n eq_refl). pose proof (wp_base _ _ _ _ (Parent (v_ID (cert_Vote c))) _ Hf Hi Hn) as (u & e4 & E & Hf4).
  eapply wp_bind_assoc; [exact E|]. by apply wp_advancePresent.
Qed.

Lemma wp_onSkip L V c e :
  fit L V e -> fit_cert g c -> Vote_Slot (cert_Vote c) ∈ L ->
  wp (onSkipCertificate (Some (Vote_Slot (cert_Vote c))) c) e (fun _ => fit L V).
Proof.
  intros Hf [[_ Hlow] _] Hi. unfold onSkipCertificate. cbv zeta. wp_step.
  wp_use (wp_nextNonSkipped _ _ _ _ Hf Hi Hlow). clear Hf. intros o e1 [Hf Hn]. destruct o as [n|]; [|by apply wp_fatal].
  specialize (Hn n eq_refl). wp_step. wp_keep Hf ltac:(apply wp_set_pool). wp_step.
  wp_keep Hf ltac:(apply wp_when; intros _; [apply wp_set_pool|]). wp_step.
  wp_use (wp_load g _ _ _ _ Hf Hi). intros s ? (-> & _). wp_step.
  assert (forall e, fit L V e -> wp (match ps_availableBase s with
    | Some base => p <- slots_at n ;; store p (addAvailableBase base) | None => ret tt end) e (fun _ => fit L V)) as Hb.
  { intros e' Hf'. destruct (ps_availableBase s); [by eapply wp_base|by wp_step]. }
  wp_use (Hb _ Hf). intros _ e4 Hf4. by apply wp_advancePresent.
Qed.

(** Pruning invalidates the pointers. *)
Lemma wp_prune L V slot e :
  fit L V e -> wp (modify_pool (fun pl => pl <| pl_slots := sm_notifyFinalized slot (pl_slots pl) |>)) e (fun _ => fit [] V).
Proof.
  intros Hf. apply wp_modify. eapply fit_upd_slots; [exact Hf|]. destruct Hf as [_ [Hfi Hs Hl] _ _ _ _ _ _ _]. constructor.
  - destruct (notifyFinalized_keeps slot (pl_slots (e_pool e))) as [? _]. lia.
  - intros i s Hi%sm_notify_lookup. by apply Hs.
  - intros i Hi. by apply elem_of_nil in Hi.
Qed.

Lemma wp_set_lastCert L V c e :
  fit L V e -> fit_cert g c -> wp (modify_pool (fun pl => pl <| pl_lastFinalCert := Some c |>)) e (fun _ => fit L V).
Proof. intros [Hc Hs Hla Hw Hv Ht Hb Hcb Hca] Hfc. apply wp_modify. constructor; try done. by intros ? [= <-]. Qed.

(** The part of [onFinalCertificate] after the checks. *)
Lemma wp_finalize L V vc c e :
  fit L V e -> fit_cert g c ->
  let id := v_ID (cert_Vote c) in
  wp (modify_pool (fun pl => pl <| pl_lastFinalized := Parent id |>) ;;;
      modify_pool (fun pl => pl <| pl_lastFinalCert := Some c |>) ;;;
      modify_pool (fun pl => pl <| pl_slots := sm_notifyFinalized (cid_Slot id) (pl_slots pl) |>) ;;;
      now <- clock_Now ;;
      modify_stats (fun st => st <| st_SlotsFinalized := st_SlotsFinalized st +₆₄ 1 |>
                                 <| st_LastFinalizedAt := now |>) ;;;
      enqueue (CallHook (OnFinalized id vc)) ;;;
      v <- gets e_voter ;;
      when (bool_decide (is_Some v)) (enqueue (FinalizationObserved id)) ;;;
      present <- pool pl_now ;;
      when (present <=? cid_Slot id)
        (modify_pool (fun pl => pl <| pl_now := cid_Slot id +₃₂ 1 |>) ;;; advancePresent) ;;;
      modify_pool (fun pl => pl <| pl_skipRuns := eraseUpTo (cid_Slot id) (pl_skipRuns pl) |>) ;;;
      first <- firstNonFin ;;
      modify (fun e => e <| e_seenBroadcasts := filter (fun kv => ~ kv.1 < first) (e_seenBroadcasts e) |>) ;;;
      suppress <- gets e_suppressCertBroadcast ;;
      when (negb suppress)
        (now <- clock_Now ;; d <- param p_StandstillTimeout ;;
         modify (fun e => e <| e_standstillAt := now + d |>)) ;;;
      modify (fun e => e <| e_drain := None |>)) e (fun _ => fit [] V).
Proof.
  intros Hf Hc id. wp_step. wp_keep Hf ltac:(apply wp_set_pool). wp_step. wp_use (wp_set_lastCert _ _ _ _ Hf Hc). clear Hf. intros _ e1 Hf.
  wp_step. wp_use (wp_prune _ _ _ _ Hf). clear Hf. intros _ e2 Hf. do 4 wp_step. wp_step. wp_keep Hf ltac:(apply wp_enqueue).
  do 3 wp_step. wp_use (wp_notify _ _ _ _ Hf). clear Hf. intros _ e4 Hf. do 3 wp_step.
  assert (forall b e, fit [] V e -> wp (when b (modify_pool (fun pl => pl <| pl_now := cid_Slot id +₃₂ 1 |>) ;;; advancePresent)) e
    (fun _ => fit [] V)) as Hadv.
  { intros b e' Hf'. apply wp_when; [intros _|done]. wp_step. wp_keep Hf' ltac:(apply wp_set_pool). by apply wp_advancePresent. }
  wp_use (Hadv _ _ Hf). clear Hf. intros _ e5 Hf. wp_step. wp_keep Hf ltac:(apply wp_set_pool). do 3 wp_step. apply wp_modify.
  do 2 wp_step. wp_step.
  eapply (wp_mono _ _ (fun _ => fit [] V)); [|intros _ e7 Hf7; by apply wp_modify].
  repeat first [wp_step|apply wp_modify]; exact Hf.
Qed.

Lemma wp_onFinal L V vc c e :
  fit L V e -> vc_cert vc = Some c -> fit_cert g c -> Vote_Slot (cert_Vote c) ∈ L ->
  wp (onFinalCertificate (Some (Vote_Slot (cert_Vote c))) vc) e (fun _ => fit [] V).
Proof.
  intros Hf Hc Hfc Hi. pose proof Hfc as [[_ Hlow] _]. unfold onFinalCertificate. wp_step. eapply wp_deref; [exact Hc|]. cbv zeta. wp_step.
  wp_use (wp_load g _ _ _ _ Hf Hi). intros s ? (-> & _).
  assert (forall err e, fit L V e -> wp (fatal err) e (fun _ => fit [] V)) as Hfa.
  { intros err e' Hf'. wp_use (wp_fatal g _ _ _ _ Hf'). intros _ e1. apply fit_nil. }
  wp_step; [by apply Hfa|]. wp_step; [by apply Hfa|]. wp_step.
  eapply (wp_mono _ _ (fun ok => fit L V)); [|intros ok e1 Hf1; destruct ok; cbn [negb]; [by eapply wp_finalize|wp_step; by eapply fit_nil]].
  wp_step; [|by wp_step]. wp_step. wp_use (wp_nextNonSkipped _ _ _ _ Hf Hi Hlow). intros o e1 [Hf1 Hn]. destruct o as [n|].
  - specialize (Hn n eq_refl). pose proof (wp_base _ _ _ _ (Parent (v_ID (cert_Vote c))) _ Hf1 Hi Hn) as (u & e4 & E & Hf4).
    eapply wp_bind_assoc; [exact E|]. by wp_step.
  - wp_step. wp_use (wp_fatal g _ _ _ _ Hf1). intros _ e2 Hf2. by wp_step.
Qed.

Lemma wp_note_signers L V slot sigs e :
  fit L V e -> Forall (fit_sig g) sigs -> wp (for_each sigs (note_signer slot)) e (fun _ => fit L V).
Proof.
  intros Hf Hs. apply (wp_for_each (fit L V)); [|done]. intros s e' Hin Hf'. rewrite Forall_forall in Hs. destruct (Hs s Hin) as [Hr _].
  unfold note_signer. do 2 wp_step. pose proof Hf' as [-> _ _ _ _ _ _ _ _]. cbv zeta.
  destruct (Nat.leb_spec (nValidators g) (Z.to_nat (vs_ValidatorIndex s))); [lia|]. by wp_step.
Qed.

Lemma wp_count_certificate L V c e : fit L V e -> fit_cert g c -> wp (count_certificate c) e (fun _ => fit L V).
Proof.
  intros Hf [_ Hs]. unfold count_certificate. cbv zeta. do 3 wp_step.
  eapply (wp_mono _ _ (fun _ => fit L V)); [by repeat wp_step|]. intros _ e1 Hf1. do 4 wp_step. by apply wp_note_signers.
Qed.

Lemma certByKind_some s k : valid_kind k -> exists p, certByKind s k = Some p.
Proof. destruct k; simpl; eauto; done. Qed.

Lemma fit_set_saving i k b s : fit_slot g i s -> fit_slot g i (set_saving k b s).
Proof. intros [Hl Hv Hc]. destruct k; by constructor. Qed.
Lemma fit_set_cert i k c s :
  fit_slot g i s -> fit_cert g c -> Vote_Slot (cert_Vote c) = i -> fit_slot g i (set_cert k (Some c) s).
Proof.
  intros [Hl Hv Hc] Hfc Hi. unfold stored_cert in Hc.
  destruct k; constructor; try done; intros c' [E|[E|E]]; simpl in E; first [injection E as <-; done|apply Hc; auto].
Qed.
Lemma fit_add_weight i v w s : fit_slot g i s -> fit_slot g i (add_weight v w s).
Proof. intros [Hl Hv Hc]. unfold add_weight. destruct (v_Kind v); by constructor. Qed.
Lemma fit_set_votes i n vv s : fit_slot g i s -> fit_votes g vv -> fit_slot g i (s <| ps_votes := <[n := vv]> (ps_votes s) |>).
Proof.
  intros [Hl Hv Hc] Hvv. constructor; simpl; [by rewrite length_insert| |done]. by apply Forall_insert.
Qed.

Lemma wp_storeSaved L V vc c e :
  fit L V e -> vc_cert vc = Some c -> fit_cert g c -> Vote_Slot (cert_Vote c) ∈ L ->
  wp (storeSavedCertificate (Some (Vote_Slot (cert_Vote c))) vc) e (fun _ => fit [] V).
Proof.
  intros Hf Hc Hfc Hi. pose proof Hfc as [[(Hk & _) _] _]. unfold storeSavedCertificate. wp_step. eapply wp_deref; [exact Hc|].
  cbv zeta. wp_step. wp_use (wp_load g _ _ _ _ Hf Hi). intros s ? (-> & _). wp_step.
  destruct (certByKind_some s _ Hk) as [p Hp]. eapply wp_deref; [exact Hp|].
  wp_step. { wp_use (wp_fatal g _ _ _ _ Hf). intros ? e1. apply fit_nil. }
  wp_step. eapply wp_mono.
  { apply (wp_store g _ _ _ _ _ Hf Hi). intros s' Hs'. by apply fit_set_saving, fit_set_cert. }
  clear Hf. intros ? e1 [Hf _]. wp_step. wp_use (wp_count_certificate _ _ _ _ Hf Hfc). clear Hf. intros ? e2 Hf.
  wp_step. wp_use (wp_reportOwn g _ _ _ _ Hf). clear Hf. intros ? e3 Hf. do 3 wp_step.
  eapply (wp_mono _ _ (fun _ => fit L V)).
  { wp_step; [|exact Hf]. do 3 wp_step. destruct (fit_cert_wire c Hfc) as [w Hw]. eapply wp_deref; [exact Hw|]. do 2 wp_step.
    by apply wp_trace. }
  clear Hf. intros ? e4 Hf. wp_step. eapply (wp_mono _ _ (fun _ => fit [] V)).
  { destruct (v_Kind (cert_Vote c)).
    - eapply wp_mono; [by eapply wp_onNotar|]. intros ? e5. apply fit_nil.
    - by eapply wp_onFinal.
    - eapply wp_mono; [by eapply wp_onSkip|]. intros ? e5. apply fit_nil.
    - wp_step. by eapply fit_nil. }
  clear Hf. intros ? e5 Hf. do 2 wp_step. wp_step; [by wp_step|]. by apply wp_resolveParentWaits.
Qed.

Lemma wp_slot_add L V i idx p e :
  fit L V e -> i ∈ L -> 0 <= idx < Z.of_nat (nValidators g) -> fit_proven g p -> pv_set p = true ->
  valid_kind (v_Kind (pv_vote p)) ->
  wp (slot_add (Some i) idx p) e (fun r e' => fit L V e' /\
    forall ev j, r.2 = Some ev -> exists m, conflict_misbehavior ev j = Some m).
Proof.
  intros Hf Hi Hidx Hp Hset Hk. unfold slot_add. wp_step. wp_use (wp_load g _ _ _ _ Hf Hi). intros s ? (-> & Hs & _).
  pose proof Hs as [Hl Hv _]. destruct (lookup_lt_is_Some_2 (ps_votes s) (Z.to_nat idx)) as [vv Evv]; [lia|].
  wp_step. eapply wp_deref; [exact Evv|]. rewrite Forall_lookup in Hv. specialize (Hv _ _ Evv).
  destruct (vv_add_fit vv p Hv Hp Hset Hk) as (r & Er & Hr & Hev). wp_step. eapply wp_deref; [exact Er|]. wp_step.
  eapply wp_mono; [apply (wp_store g _ _ _ _ _ Hf Hi); intros s' Hs'; by apply fit_set_votes|].
  intros ? e1 [Hf1 _]. by wp_step.
Qed.

Lemma wp_finishCertificateSave L V vc err e : fit L V e -> fit_sealed g vc -> wp (finishCertificateSave vc err) e (fun _ => fit [] V).
Proof.
  intros Hf (c & Hc & Hfc). unfold finishCertificateSave. wp_step. eapply wp_deref; [exact Hc|].
  assert (wp (slot <- slots_at (Vote_Slot (cert_Vote c)) ;;
      match slot with
      | None => ret tt
      | Some _ =>
          for_each (cert_Signatures c) (fun s =>
            r <- slot_add slot (vs_ValidatorIndex s) (cert_vote c (vs_Signature s)) ;;
            match r.2 with
            | Some ev => m <- deref (conflict_misbehavior ev (vs_ValidatorIndex s)) ;; reportMisbehavior (vs_ValidatorIndex s) m
            | None => ret tt
            end) ;;;
          storeSavedCertificate slot vc
      end) e (fun _ => fit [] V)) as Hsave.
  { wp_step. wp_use (wp_slots_at g _ _ _ _ Hf). clear Hf. intros p e1 (_ & [[-> Hf]|(-> & _ & Hf)]); [|wp_step; by eapply fit_nil].
    wp_step. eapply wp_mono; [|intros ? e2 Hf2; eapply (wp_storeSaved _ _ _ _ _ Hf2); [done|done|left]].
    apply (wp_for_each (fit (Vote_Slot (cert_Vote c) :: L) V)); [|done]. intros s e' Hin Hf'. wp_step.
    pose proof Hfc as [[(Hk & Hrest) Hlow] Hsigs]. rewrite Forall_forall in Hsigs. destruct (Hsigs s Hin) as [Hr Hlen].
    eapply wp_mono.
    { apply (wp_slot_add _ _ _ _ _ _ Hf'); [left|done| |done|done]. intros _. split_and!; [done|done|]. by intros ? [= <-]. }
    intros r e2 [Hf2 Hev]. destruct r.2 as [ev|]; [|by wp_step]. destruct (Hev ev (vs_ValidatorIndex s) eq_refl) as [m Hm].
    wp_step. eapply wp_deref; [exact Hm|]. by apply wp_misbehavior. }
  destruct err; [exact Hsave..|]. wp_use (wp_fatal g _ _ _ _ Hf). intros ? e1. apply fit_nil.
Qed.

Lemma needs_some s v : valid_kind (v_Kind v) -> exists b, needs s v = Some b.
Proof. intros Hk. unfold needs. destruct (certByKind_some s _ Hk) as [p ->]. by eexists. Qed.

Lemma wp_handleCertificate L V vc e : fit L V e -> fit_sealed g vc -> wp (handleCertificate vc) e (fun _ => fit L V).
Proof.
  intros Hf (c & Hc & Hfc). pose proof Hfc as [[(Hk & _) _] _]. unfold handleCertificate. wp_step. eapply wp_deref; [exact Hc|]. wp_step.
  wp_use (wp_slots_at g _ _ _ _ Hf). clear Hf. intros p e1 (_ & [[-> Hf]|(-> & _ & Hf)]); [|by wp_step].
  wp_step. wp_use (wp_load g _ _ _ _ Hf (list_elem_of_here _ _)). intros s ? (-> & _). wp_step.
  destruct (needs_some s _ Hk) as [b Hb]. eapply wp_deref; [exact Hb|]. wp_step; [wp_step; by apply fit_cons in Hf|].
  wp_step. eapply wp_mono; [apply (wp_store g _ _ _ _ _ Hf (list_elem_of_here _ _)); intros s' Hs'; by apply fit_set_saving|].
  clear Hf. intros ? e2 [Hf _]. apply fit_cons in Hf. do 2 wp_step. apply wp_register; [exact Hf|]. by exists c.
Qed.

(** ** Votes *)

Lemma matching_fit v i votes :
  valid_kind (v_Kind v) -> Forall (fit_votes g) votes ->
  exists sigs, matching_signatures v i votes = Some sigs /\
    Forall (fun s => i <= vs_ValidatorIndex s < i + Z.of_nat (length votes) /\ length (vs_Signature s) = SignatureSize) sigs.
Proof.
  intros Hk Hv. revert i. induction Hv as [|vv votes Hvv _ IH]; intros i; simpl; [by exists []|].
  assert (exists p, byKind vv (v_Kind v) = Some p) as [p Hp] by (destruct (v_Kind v); simpl in *; eauto; done).
  destruct (IH (i + 1)) as (sigs & -> & Hs). rewrite Hp. cbn [mbind option_bind]. eexists. split; [done|].
  assert (Forall (fun s => i <= vs_ValidatorIndex s < i + Z.of_nat (S (length votes)) /\ length (vs_Signature s) = SignatureSize) sigs).
  { eapply Forall_impl; [exact Hs|]. simpl. intros s [? ?]. split; [lia|done]. }
  destruct (_ && _) eqn:E; [|done]. constructor; [|done]. simpl. split; [lia|].
  apply andb_prop in E as [[E _]%andb_prop _]. by apply (fit_byKind vv _ p Hvv Hp).
Qed.

Lemma wp_buildCertificate L V i v e :
  fit L V e -> i ∈ L -> low_vote v -> wp (buildCertificate (Some i) v) e (fun c e' => fit L V e' /\ fit_cert g c).
Proof.
  intros Hf Hi Hv. unfold buildCertificate. wp_step. wp_use (wp_load g _ _ _ _ Hf Hi). intros s ? (-> & [Hl Hvv _] & _).
  destruct (matching_fit v 0 (ps_votes s)) as (sigs & Hs & Hfs); [apply Hv|done|]. wp_step. eapply wp_deref; [exact Hs|].
  do 3 wp_step. split; [exact Hf|]. split; [done|]. eapply Forall_impl; [exact Hfs|]. intros sg. unfold fit_sig. by rewrite Hl.
Qed.

Lemma wp_onVoteApplied L V i idx v e :
  fit L V e -> i ∈ L -> 0 <= idx < Z.of_nat (nValidators g) -> low_vote v ->
  wp (onVoteApplied idx v (Some i)) e (fun _ => fit L V).
Proof.
  intros Hf Hi Hidx Hv. unfold onVoteApplied. do 2 wp_step. pose proof Hf as [-> _ _ _ _ _ _ _ _].
  destruct (lookup_lt_is_Some_2 (validators g) (Z.to_nat idx)) as [w Hw]; [unfold nValidators in Hidx; lia|].
  wp_step. eapply wp_deref; [by rewrite Hw|]. wp_step.
  eapply wp_mono; [apply (wp_store g _ _ _ _ _ Hf Hi); intros s' Hs'; by apply fit_add_weight|]. clear Hf. intros ? e1 [Hf _].
  wp_step. wp_use (wp_load g _ _ _ _ Hf Hi). intros s ? (-> & _). cbv zeta. wp_step; [by wp_step|]. wp_step.
  destruct (certByKind_some s (v_Kind v)) as [p Hp]; [apply Hv|].
  eapply wp_deref; [unfold willBe; by rewrite Hp|]. wp_step; [by wp_step|].
  wp_step. wp_use (wp_buildCertificate _ _ _ _ _ Hf Hi Hv). clear Hf. intros c e2 [Hf Hfc]. unfold seal. do 4 wp_step.
  apply wp_handleCertificate; [done|]. by exists c.
Qed.

Lemma wp_applyVote L V idx v sig b e :
  fit L V e -> 0 <= idx < Z.of_nat (nValidators g) -> low_vote v -> length sig = SignatureSize ->
  wp (applyVote idx v sig b) e (fun _ => fit L V).
Proof.
  intros Hf Hidx Hv Hsig. unfold applyVote. wp_step. wp_use (wp_slots_at g _ _ _ _ Hf). clear Hf.
  intros p e1 (_ & [[-> Hf]|(-> & _ & Hf)]); [|by wp_step]. wp_step. eapply wp_mono.
  { apply (wp_slot_add _ _ _ _ _ _ Hf); [left|done| |done|apply Hv]. by intros _. }
  clear Hf. intros r e2 [Hf Hev]. destruct r.2 as [ev|].
  - do 2 wp_step. apply fit_cons in Hf. wp_step.
    + wp_step. wp_use (wp_fatal g _ _ _ _ Hf). intros ? e3 Hf3. by wp_step.
    + destruct (Hev ev idx eq_refl) as [m Hm]. wp_step. eapply wp_deref; [exact Hm|]. wp_step.
      wp_use (wp_misbehavior g _ _ _ _ _ Hf). intros ? e3 Hf3. by wp_step.
  - wp_step; [wp_step; by apply fit_cons in Hf|]. wp_step. wp_use (wp_noteOwnCandidateVote g _ _ _ _ _ Hf). clear Hf. intros ? e3 Hf.
    wp_step. eapply wp_mono; [apply (wp_onVoteApplied _ _ _ _ _ _ Hf); [left|done|done]|]. intros ? e4 Hf4. wp_step.
    by apply fit_cons in Hf4.
Qed.

(** The memo of payloads only holds right ones. *)
Lemma wp_votePayload L V v e :
  fit L V e -> sized_vote v ->
  wp (votePayload v) e (fun p e' => fit L V e' /\ vote_payload (sessionID g) v = Some p).
Proof.
  intros Hf Hv. destruct (sized_payload (sessionID g) v (fc_session g Hg) Hv) as [payload Hp].
  assert (wp (g <- gets e_cfg ;; payload <- deref (vote_payload (sessionID g) v) ;;
    modify (fun e => e <| e_payloadCache := <[kind_index (v_Kind v) mod 4 := (v, payload)]> (e_payloadCache e) |>) ;;; ret payload) e
    (fun p e' => fit L V e' /\ vote_payload (sessionID g) v = Some p)) as Hmiss.
  { do 2 wp_step. pose proof Hf as [-> Hs Hla Hw Hvo Ht Hb Hcb Hca]. wp_step. eapply wp_deref; [exact Hp|]. wp_step. apply wp_modify. wp_step.
    split; [|done]. constructor; try done; [by apply Hf|]. simpl. intros k v' p'.
    intros [[_ [= <- <-]]|[_ ?]]%lookup_insert_Some; [done|by eapply Hca]. }
  unfold votePayload. do 2 wp_step. cbv zeta. destruct (e_payloadCache e !! _) as [[v' p']|] eqn:Ec; [|exact Hmiss].
  case_bool_decide; [|exact Hmiss]. subst v'. wp_step. split; [done|]. destruct Hf as [_ _ _ _ _ _ _ _ Hca]. by eapply Hca.
Qed.

Lemma wp_finishVoteCast L V v replay e : fit L V e -> low_vote v -> wp (finishVoteCast v replay) e (fun _ => fit L V).
Proof.
  intros Hf Hv. unfold finishVoteCast. do 2 wp_step. destruct (e_voter e) as [vt|] eqn:Evt; [|by wp_step].
  pose proof Hf as [_ _ _ _ [Hloc _ _] _ _ _ _]. rewrite Evt in Hloc. specialize (Hloc ltac:(by eexists)).
  wp_step. wp_use (wp_votePayload _ _ _ _ Hf (proj1 Hv)). clear Hf. intros p e1 [Hf _]. wp_step.
  eexists _, _. split; [reflexivity|]. destruct (env_Sign (e_calls e1) p) as [sig|] eqn:Es; [|by apply wp_fatal].
  assert (length sig = SignatureSize) as Hlen.
  { pose proof (fc_signer g Hg _ _ _ ltac:(unfold ObserverIndex; lia) Es) as [Hl%Nat.eqb_eq _]%andb_prop. done. }
  do 4 wp_step. assert (e_cfg e1 = g) as Hcfg by apply Hf. simpl e_cfg. rewrite Hcfg.
  assert (0 <= u32 (g_localIndex g) < Z.of_nat (nValidators g)) as Hidx.
  { unfold u32. pose proof (Z.mod_le (g_localIndex g) (2 ^ 32)). pose proof (Z.mod_pos_bound (g_localIndex g) (2 ^ 32)). lia. }
  destruct (signed_wire (u32 (g_localIndex g)) v sig (proj1 Hv) Hlen) as [w Hw].
  wp_step. eapply wp_deref; [exact Hw|]. do 3 wp_step.
  eapply wp_mono; [apply (wp_applyVote L V); [exact Hf|done..]|]. intros applied e2 Hf2. by repeat wp_step.
Qed.

Lemma wp_castVote L V v replay e : fit L V e -> low_vote v -> wp (castVote v replay) e (fun _ => fit L V).
Proof.
  intros Hf Hv. unfold castVote. do 4 wp_step. wp_step; [by wp_step|]. wp_step. wp_use (wp_trace g _ _ _ _ Hf). clear Hf. intros ? e1 Hf.
  wp_step; [by apply wp_finishVoteCast|]. do 2 wp_step. by apply wp_register.
Qed.

Lemma wp_voteSaved L V v r e : fit L V e -> low_vote v -> wp (voteSaved v r) e (fun _ => fit L V).
Proof. intros Hf Hv. destruct r; simpl; [by apply wp_finishVoteCast|by wp_step|by apply wp_fatal]. Qed.

(** ** Standstill *)

Lemma collect_some {A B} (f : A -> option B) l : (forall a, a ∈ l -> exists b, f a = Some b) -> exists r, collect (f <$> l) = Some r.
Proof.
  induction l as [|a l IH]; intros Hl; [by eexists|]. rewrite fmap_cons. cbn [collect]. destruct (Hl a) as [b ->]; [left|].
  destruct IH as [r ->]; [|by eexists]. intros x Hx. apply Hl. by right.
Qed.

Lemma slot_messages_some i s : fit_slot g i s -> exists r, slot_messages (g_localIndex g) s = Some r.
Proof.
  intros Hs. pose proof Hs as [Hl Hv _]. apply fit_slot_certs in Hs as (Hn & Hk & Hf). unfold slot_messages.
  destruct (collect_some Certificate_Serialize
    (opt_list (ps_notarCert s) ++ opt_list (ps_skipCert s) ++ opt_list (ps_finalCert s))) as [certs ->].
  { intros c Hc. apply fit_cert_wire. unfold opt_list in Hc. rewrite !elem_of_app in Hc.
    destruct Hc as [Hc|[Hc|Hc]]; case_match; first [by apply elem_of_nil in Hc|apply list_elem_of_singleton in Hc; subst; auto]. }
  cbn [mbind option_bind]. destruct (Z.leb_spec 0 (g_localIndex g)) as [Hloc|]; [|by eexists].
  destruct (fc_local g Hg) as [E|Hr]; [by rewrite E in Hloc|].
  destruct (lookup_lt_is_Some_2 (ps_votes s) (Z.to_nat (g_localIndex g))) as [own Eown]; [lia|]. rewrite Eown.
  cbn [mbind option_bind]. rewrite Forall_lookup in Hv. destruct (Hv _ _ Eown) as (Fn & Ff & Fs).
  destruct (collect_some (fun p => SignedVote_Serialize (mkSignedVote (u32 (g_localIndex g)) (pv_vote p) (pv_sig p)))
    (own_uncovered s own)) as [votes ->]; [|by eexists].
  intros p Hp. assert (pv_set p = true /\ fit_proven g p) as [Hset Hfp].
  { unfold own_uncovered in Hp. rewrite !elem_of_app in Hp. destruct Hp as [Hp|[Hp|Hp]];
      (destruct (_ && _) eqn:E; [|by apply elem_of_nil in Hp]); apply list_elem_of_singleton in Hp; subst p;
      by apply andb_prop in E as [[? _]%andb_prop _]. }
  destruct (Hfp Hset) as ([Hvo _] & Hsg & _). by apply signed_wire.
Qed.

Lemma wp_startMessages L V e :
  fit L V e -> wp (fun e => match buildStandstillMessages e with Some m => Some (m, e) | None => None end) e (fun _ => fit L V).
Proof.
  intros Hf. pose proof Hf as [Hcfg [_ Hs _] Hla _ _ _ _ _ _]. assert (exists m, buildStandstillMessages e = Some m) as [m Hm].
  { unfold buildStandstillMessages.
    destruct (collect_some Certificate_Serialize (opt_list (pl_lastFinalCert (e_pool e)))) as [f ->].
    { intros c Hc. apply fit_cert_wire, Hla. unfold opt_list in Hc. case_match; [|by apply elem_of_nil in Hc].
      apply list_elem_of_singleton in Hc. by subst. }
    cbn [mbind option_bind]. rewrite Hcfg.
    destruct (collect_some (slot_messages (g_localIndex g)) (tracked_slots (pl_slots (e_pool e)))) as [r ->]; [|by eexists].
    intros s Hin. unfold tracked_slots in Hin. apply list_elem_of_omap in Hin as (i & _ & Hi). unfold sm_peek in Hi.
    case_match; [done|]. eapply slot_messages_some, Hs, Hi. }
  exists m, e. by rewrite Hm.
Qed.

Lemma wp_drain_loop L V fuel rate now d e : fit L V e -> wp (drain_loop fuel rate now d) e (fun _ => fit L V).
Proof.
  revert d e. induction fuel as [|fuel IH]; intros d e Hf; cbn [drain_loop]; [by apply wp_modify|].
  destruct (dr_msgs d !! dr_idx d) as [msg|]; [|by apply wp_modify]. do 2 wp_step. cbv zeta.
  repeat first [wp_step|apply wp_modify|apply IH]; exact Hf.
Qed.
Lemma wp_stepDrain L V now e : fit L V e -> wp (stepDrain now) e (fun _ => fit L V).
Proof.
  intros Hf. unfold stepDrain. do 2 wp_step. destruct (e_drain e); [|by wp_step]. do 2 wp_step. wp_step; [by apply wp_modify|].
  do 4 wp_step. by apply wp_drain_loop.
Qed.
Lemma wp_fireStandstill L V now e : fit L V e -> wp (fireStandstill now) e (fun _ => fit L V).
Proof.
  intros Hf. unfold fireStandstill, startDrain. do 5 wp_step. apply wp_modify. wp_step. apply wp_modify. do 2 wp_step. wp_step; [by wp_step|].
  do 2 wp_step. wp_step; [by wp_step|]. wp_step. eapply wp_mono; [by apply (wp_startMessages L V)|].
  intros ? e1 Hf1. do 3 wp_step. apply wp_modify. by apply wp_stepDrain.
Qed.

(** ** The voter *)

(** The prefix common to the voter's handlers: fetch the slot, or return. *)
Lemma wp_at_vslot L V i (k : option Z -> M unit) e :
  fit L (Some V) e -> (forall e, fit L (Some (i :: V)) e -> wp (k (Some i)) e (fun _ => fit L (Some (i :: V)))) ->
  k None = ret tt ->
  wp (p <- vslots_at i ;; k p) e (fun _ => fit L (Some V)).
Proof.
  intros Hf Hk Hn. wp_step. wp_use (wp_vslots_at g _ _ _ _ Hf). intros p e1 [[-> Hf1]|[-> Hf1]].
  - wp_use (Hk _ Hf1). intros ? e2. apply fit_vcons.
  - rewrite Hn. by wp_step.
Qed.

Ltac wp_vslot Hf := eapply wp_at_vslot; [exact Hf| |done]; clear Hf; intros ? Hf; cbv beta iota.
Ltac wp_vread Hf := wp_step; eapply wp_mono; [apply (wp_vload g _ _ _ _ Hf); left|]; intros ? ? [-> ?].

Lemma wp_bootstrap_vote L V v e : fit L (Some V) e -> low_vote v -> wp (bootstrap_vote v) e (fun _ => fit L (Some V)).
Proof.
  intros Hf Hv. unfold bootstrap_vote. wp_vslot Hf. wp_vread Hf. apply low_vote_id in Hv.
  repeat wp_step; try exact Hf; (apply wp_vstore; [exact Hf|left|]); intros s0 [Hn Hp]; split; simpl; try done.
  by intros ? [= <-].
Qed.

Lemma wp_bootstrapVoter L V votes e :
  fit L (Some V) e -> (forall v, v ∈ votes -> low_vote v) -> wp (bootstrapVoter votes) e (fun _ => fit L (Some V)).
Proof.
  intros Hf Hv. unfold bootstrapVoter. wp_step. eapply wp_mono.
  { apply (wp_for_each (fit L (Some V))); [|exact Hf]. intros v e' Hin Hf'. apply wp_bootstrap_vote; auto. }
  clear Hf. intros ? e1 Hf. do 4 wp_step. wp_step; [by wp_step|]. cbv zeta.
  apply (wp_for_each (fit L (Some V))); [|exact Hf]. intros i e' _ Hf'. wp_vslot Hf'. wp_vread Hf'.
  wp_step; [|exact Hf']. by apply wp_vstore; [exact Hf'|left|].
Qed.

Lemma wp_castStartupWindowSkips L V e : fit L (Some V) e -> wp castStartupWindowSkips e (fun _ => fit L (Some V)).
Proof.
  intros Hf. unfold castStartupWindowSkips. do 4 wp_step. wp_step; [by wp_step|]. cbv zeta.
  apply (wp_for_each (fit L (Some V))); [|exact Hf]. intros i e' Hi Hf'. wp_vslot Hf'. wp_vread Hf'. wp_step; [|exact Hf'].
  apply wp_castVote; [exact Hf'|]. eapply low_SkipVote, range_low; [exact Hi|apply u32_range..].
Qed.

Lemma wp_tryVoteFinal L V i e : fit L (Some (i :: V)) e -> wp (tryVoteFinal (Some i)) e (fun _ => fit L (Some (i :: V))).
Proof.
  intros Hf. unfold tryVoteFinal. wp_vread Hf. destruct a as [pc vn nc]. simpl in *. destruct vn as [vn|]; [|by wp_step].
  destruct nc as [nc|]; [|by wp_step]. wp_step; [|by wp_step]. wp_step.
  eapply wp_mono; [apply wp_castVote; [exact Hf|]|].
  { apply low_FinalizeVote. match goal with H : fit_vslot _ |- _ => by apply H end. }
  clear Hf. intros ? e1 Hf. by apply wp_vstore; [exact Hf|left|].
Qed.

Lemma wp_voterNotarizationObserved L V id e :
  fit L (Some V) e -> wp (voterNotarizationObserved id) e (fun _ => fit L (Some V)).
Proof.
  intros Hf. unfold voterNotarizationObserved. wp_vslot Hf. wp_step. wp_use (wp_voter g _ _ _ Hf). intros v ? [-> _].
  do 4 wp_step. cbv zeta. wp_step.
  eapply (wp_mono _ _ (fun _ => fit L (Some (cid_Slot id :: V)))).
  { wp_step; [|exact Hf]. do 2 (wp_step; wp_keep Hf ltac:(apply wp_modify_voter)). by apply wp_modify_voter. }
  clear Hf. intros ? e1 Hf. wp_step. eapply wp_mono; [by apply wp_vstore; [exact Hf|left|]|]. clear Hf. intros ? e2 Hf.
  by apply wp_tryVoteFinal.
Qed.

Lemma wp_voterFinalizationObserved L V id e :
  fit L (Some V) e -> wp (voterFinalizationObserved id) e (fun _ => fit L (Some [])).
Proof.
  intros Hf. unfold voterFinalizationObserved, modify_voter. wp_step. wp_use (wp_voter g _ _ _ Hf). intros v ? [-> Ev]. apply wp_modify.
  eapply fit_upd_voter; [exact Hf|by rewrite Ev|]. destruct Hf as [_ _ _ _ [Hl Hsl _] _ _ _ _]. constructor.
  - intros _. apply Hl. by rewrite Ev.
  - intros w i s [= <-]. simpl. intros Hi%sm_notify_lookup. by eapply Hsl.
  - eexists. split; [done|]. intros i Hi. by apply elem_of_nil in Hi.
Qed.

Lemma wp_fireVoterAlarm L V e : fit L (Some V) e -> wp fireVoterAlarm e (fun _ => fit L (Some V)).
Proof.
  intros Hf. unfold fireVoterAlarm. wp_step. wp_keep Hf ltac:(apply wp_modify_voter). wp_step.
  wp_use (wp_voter g _ _ _ Hf). intros v ? [-> _]. do 2 wp_step. cbv zeta. wp_step. eapply wp_mono.
  { apply (wp_for_each (fit L (Some V))); [|exact Hf]. intros i e' Hi Hf'. wp_vslot Hf'. wp_vread Hf'. wp_step; [|exact Hf'].
    wp_step. eapply wp_mono; [apply wp_castVote; [exact Hf'|]|].
    { eapply low_SkipVote, range_low; [exact Hi|apply u32_range..]. }
    clear Hf'. intros ? e2 Hf'. wp_step. eapply wp_mono; [by apply wp_vstore; [exact Hf'|left|]|]. clear Hf'. intros ? e3 Hf'.
    by apply wp_modify_voter. }
  clear Hf. intros ? e1 Hf. by apply wp_modify_voter.
Qed.

Lemma wp_maybeVoteNotar L V i id e :
  fit L (Some (i :: V)) e -> low_id id -> wp (maybeVoteNotar id (Some i)) e (fun _ => fit L (Some (i :: V))).
Proof.
  intros Hf Hid. unfold maybeVoteNotar. wp_vread Hf. wp_step; [by wp_step|]. wp_step.
  eapply wp_mono; [apply wp_vstore; [exact Hf|left|]|].
  { intros s [Hn Hp]. split; simpl; [by intros ? [= <-]|done]. }
  clear Hf. intros ? e1 Hf. wp_step. eapply wp_mono; [apply wp_castVote; [exact Hf|by apply low_NotarizeVote]|].
  clear Hf. intros ? e2 Hf. by apply wp_tryVoteFinal.
Qed.

Lemma wp_acceptCandidate L V c e : fit L (Some V) e -> submitted c -> wp (acceptCandidate c) e (fun _ => fit L (Some V)).
Proof.
  intros Hf Hc. unfold acceptCandidate. wp_step. wp_use (wp_voter g _ _ _ Hf). intros v ? [-> _]. do 4 wp_step. cbv zeta.
  match goal with |- wp (if ?t <=? _ then _ else _) _ _ => destruct (Z.leb_spec t (cid_Slot (c_ID c))) as [|Hnew] end; [by wp_step|].
  assert (low_id (c_ID c)) as Hlow.
  { split; [apply Hc|]. unfold lastSlot. eapply Z.lt_le_trans; [exact Hnew|]. apply Z.lt_le_pred, u32_range. }
  wp_vslot Hf. wp_vread Hf. wp_step; [by wp_step|]. wp_step. eapply wp_mono; [apply wp_vstore; [exact Hf|left|]|].
  { intros s [Hn Hp]. split; simpl; [done|]. by intros ? [= <-]. }
  clear Hf. intros ? e1 Hf. do 3 wp_step.
  eapply (wp_mono _ _ (fun _ => fit L (Some (cid_Slot (c_ID c) :: V)))).
  { wp_step; [by apply wp_noteOwnCandidate|by apply wp_trace]. }
  clear Hf. intros ? e2 Hf. wp_step. eapply wp_mono; [by apply wp_vstore; [exact Hf|left|]|]. clear Hf. intros ? e3 Hf.
  wp_step. wp_keep Hf ltac:(apply wp_enqueue). by apply wp_registerParentWait.
Qed.

(** Handlers that do nothing without a voter. *)
Lemma wp_if_voter L V (k : option voterState -> M unit) e :
  fit L V e -> k None = ret tt ->
  (forall v W e, fit L (Some W) e -> wp (k (Some v)) e (fun _ => fit L (Some W))) ->
  wp (v <- gets e_voter ;; k v) e (fun _ => fit L V).
Proof.
  intros Hf Hn Hk. do 2 wp_step. destruct (e_voter e) as [v|] eqn:Ev; [|rewrite Hn; by wp_step].
  wp_use (voter_frame L V _ e v (fun W HW => Hk v W e HW) Hf Ev). by intros ? e1 [? _].
Qed.

Lemma wp_onParentWaitDone L V c out e : fit L V e -> wp (onParentWaitDone c out) e (fun _ => fit L V).
Proof.
  intros Hf. unfold onParentWaitDone. apply wp_if_voter; [done|done|]. clear V e Hf. intros v V e Hf.
  destruct (pw_misb out); [by apply wp_misbehavior|]. destruct (pw_err out); [by wp_step|]. wp_vslot Hf. wp_vread Hf.
  wp_step; [by wp_step|]. wp_step; [by wp_step|]. wp_step. eapply wp_mono; [by apply wp_vstore; [exact Hf|left|]|].
  clear Hf. intros ? e1 Hf. by apply wp_enqueue.
Qed.

Lemma pending_low s id : fit_vslot s -> is_pending s id = true -> low_id id.
Proof.
  intros [_ Hp]. unfold is_pending. destruct (vs_pending s) as [c|] eqn:E; [|done]. intros <-%bool_decide_eq_true. by apply Hp.
Qed.

Lemma wp_completeValidation L V id vd e : fit L V e -> wp (completeValidation id vd) e (fun _ => fit L V).
Proof.
  intros Hf. unfold completeValidation. apply wp_if_voter; [done|done|]. clear V e Hf. intros v V e Hf. wp_vslot Hf. wp_vread Hf.
  destruct (is_pending a id) eqn:Ep; cbn [negb orb]; [|by wp_step]. wp_step; [by wp_step|]. wp_step.
  eapply wp_mono; [by apply wp_vstore; [exact Hf|left|]|]. clear Hf. intros ? e1 Hf. destruct vd; [|by wp_step..].
  wp_step. eapply wp_mono; [by apply wp_vstore; [exact Hf|left|]|]. clear Hf. intros ? e2 Hf.
  apply wp_maybeVoteNotar; [done|]. by eapply pending_low.
Qed.

Lemma wp_completeStore L V id ok e : fit L V e -> wp (completeStore id ok) e (fun _ => fit L V).
Proof.
  intros Hf. unfold completeStore. apply wp_if_voter; [done|done|]. clear V e Hf. intros v V e Hf. wp_vslot Hf. wp_vread Hf.
  destruct (is_pending a id) eqn:Ep; cbn [negb orb]; [|by wp_step]. wp_step; [by wp_step|]. wp_step.
  eapply wp_mono; [by apply wp_vstore; [exact Hf|left|]|]. clear Hf. intros ? e1 Hf. wp_step; [by apply wp_fatal|].
  wp_step. eapply wp_mono; [by apply wp_vstore; [exact Hf|left|]|]. clear Hf. intros ? e2 Hf.
  apply wp_maybeVoteNotar; [done|]. by eapply pending_low.
Qed.

(** ** Deferred work *)

Definition load_of (t : Task) : nat := match t with CallHook _ => 1 | _ => 2 end.
Definition queued (e : Engine) : nat := sum_list_with load_of (e_pending e).

Definition same_queue (e e' : Engine) : Prop := e_pending e' = e_pending e.
#[local] Instance same_queue_refl : Reflexive same_queue.
Proof. done. Qed.
#[local] Instance same_queue_trans : Transitive same_queue.
Proof. unfold same_queue. intros ? ? ? -> ->. done. Qed.
Lemma queue_modify f : (forall e, same_queue e (f e)) -> keeps same_queue (modify f).
Proof. intros Hm e u e' [= <- <-]. apply Hm. Qed.
Ltac queue_auto := repeat first [apply queue_modify; done|keeps_step].

Lemma queue_vslots_at i : keeps same_queue (vslots_at i).
Proof. unfold vslots_at, modify_voter, voter. queue_auto. Qed.
Lemma queue_vload p : keeps same_queue (vload p).
Proof. unfold vload, voter. queue_auto. Qed.
Lemma queue_vstore p f : keeps same_queue (vstore p f).
Proof. unfold vstore, vload, modify_voter, voter. queue_auto. Qed.
Lemma queue_castVote v : keeps same_queue (castVote v false).
Proof.
  unfold castVote, trace, emit, register. assert (keeps same_queue clock_Now) by (by intros e u e' [= <- <-]).
  queue_auto; done.
Qed.
Lemma queue_notarized id : keeps same_queue (voterNotarizationObserved id).
Proof.
  unfold voterNotarizationObserved, tryVoteFinal, modify_voter, voter.
  repeat first [apply queue_vslots_at|apply queue_vload|apply queue_vstore|apply queue_castVote|apply queue_modify; done|keeps_step].
Qed.
Lemma queue_finalized id : keeps same_queue (voterFinalizationObserved id).
Proof. unfold voterFinalizationObserved, modify_voter, voter. queue_auto. Qed.
Lemma queue_callHook h : keeps same_queue (callHook h).
Proof. unfold callHook, emit, register. queue_auto. Qed.

(** A task leaves less work than it was. *)
Lemma queue_runTask t e u e' : runTask t e = Some (u, e') -> (queued e' < queued e + load_of t)%nat.
Proof.
  intros Hr. assert (same_queue e e' \/ exists h, e_pending e' = e_pending e ++ [CallHook h] /\ load_of t = 2%nat) as [E|(h & E & El)].
  { destruct t as [h|id|id|c out]; simpl in Hr.
    - left. by eapply queue_callHook.
    - left. by eapply queue_notarized.
    - left. by eapply queue_finalized.
    - unfold onParentWaitDone in Hr. apply bind_inv in Hr as (v & e1 & [= <- <-] & Hr). destruct (e_voter e); [|left; by run_inv].
      destruct (pw_misb out); [unfold reportMisbehavior, modify_stats, enqueue in Hr; run_inv; right; by eexists|].
      destruct (pw_err out); [left; by run_inv|]. apply bind_inv in Hr as (p & e1 & E1 & Hr). apply queue_vslots_at in E1.
      destruct p; [|run_inv; by left]. apply bind_inv in Hr as (s & e2 & E2 & Hr). apply queue_vload in E2.
      destruct (_ || _); [run_inv; left; by etrans|]. destruct (vs_validationInFlight s); [run_inv; left; by etrans|].
      apply bind_inv in Hr as (? & e3 & E3 & Hr). apply queue_vstore in E3. unfold enqueue in Hr. run_inv. right.
      unfold same_queue in *. simpl. rewrite E3, E2, E1. by eexists. }
  - unfold queued. rewrite E. destruct t; simpl; lia.
  - unfold queued. rewrite E, El, sum_list_with_app. simpl. lia.
Qed.

Abbreviation safe := (fit [] None).

Lemma safe_of V e : fit [] V e -> safe e.
Proof. apply fit_none. Qed.

Lemma wp_callHook h e : safe e -> wp (callHook h) e (fun _ => safe).
Proof.
  intros Hf. unfold callHook. do 2 wp_step. set (e1 := e <| e_log := _ |>). assert (safe e1) as Hf1 by exact Hf.
  destruct h; first [by apply wp_register|by wp_step].
Qed.

Lemma wp_runTask t e : safe e -> fit_task (e_voter e) t -> wp (runTask t) e (fun _ => safe).
Proof.
  intros Hf Ht. destruct t as [h|id|id|c out]; simpl in *.
  - by apply wp_callHook.
  - destruct Ht as [v Ev]. eapply wp_mono; [eapply wp_voterNotarizationObserved, fit_voter_some; done|]. intros ? e1. apply fit_none.
  - destruct Ht as [v Ev]. eapply wp_mono; [eapply wp_voterFinalizationObserved, fit_voter_some; done|]. intros ? e1. apply fit_none.
  - by apply wp_onParentWaitDone.
Qed.

Lemma wp_drain_pending fuel e : safe e -> (queued e <= fuel)%nat -> wp (drain_pending_loop fuel) e (fun _ => safe).
Proof.
  revert e. induction fuel as [|fuel IH]; intros e Hf Hq; cbn [drain_pending_loop]; do 2 wp_step;
    destruct (e_pending e) as [|t rest] eqn:Ep; try (by wp_step).
  { unfold queued in Hq. rewrite Ep in Hq. destruct t; simpl in Hq; lia. }
  wp_step. apply wp_modify. wp_step. set (e1 := e <| e_pending := rest |>).
  assert (fit_task (e_voter e) t) as Ht by (apply Hf; rewrite Ep; left).
  assert (safe e1) as Hf1.
  { destruct Hf as [Hc Hs Hla Hw Hv Ht' Hb Hcb Hca]. constructor; try done. intros t' Hin. apply Ht'. rewrite Ep. by right. }
  destruct (wp_runTask t e1 Hf1 Ht) as (u & e2 & E & Hf2). exists u, e2. split; [done|]. apply IH; [done|].
  apply queue_runTask in E. unfold queued in *. rewrite Ep in Hq. simpl in *. lia.
Qed.

Lemma queued_le e : (queued e <= 2 * length (e_pending e))%nat.
Proof. unfold queued. induction (e_pending e) as [|t l IH]; simpl; [lia|]. destruct t; simpl; lia. Qed.

Lemma wp_drainPending e : safe e -> wp drainPending e (fun _ => safe).
Proof.
  intros Hf. unfold drainPending. do 2 wp_step. wp_step; [by wp_step|]. wp_step. apply wp_modify. do 3 wp_step.
  eapply wp_mono; [apply wp_drain_pending; [exact Hf|apply queued_le]|]. intros ? e1 Hf1. by apply wp_modify.
Qed.

Lemma wp_run (m : M unit) e : (safe e -> wp m e (fun _ => safe)) -> safe e -> wp (run m) e (fun _ => safe).
Proof.
  intros Hm Hf. unfold run. do 4 wp_step. wp_step; [by wp_step|]. wp_step. wp_use (Hm Hf). intros ? e1 Hf1. by apply wp_drainPending.
Qed.
Lemma wp_completeAsync (m : M unit) e : (safe e -> wp m e (fun _ => safe)) -> safe e -> wp (completeAsync m) e (fun _ => safe).
Proof.
  intros Hm Hf. unfold completeAsync. do 2 wp_step. wp_step; [by wp_step|]. wp_step. wp_use (Hm Hf). intros ? e1 Hf1. by apply wp_drainPending.
Qed.

(** ** Messages *)

Lemma good_cert_fit cert : good_cert g cert -> sized_vote (cert_Vote cert) -> fit_cert g cert.
Proof.
  intros Hq Hs. pose proof (fc_last g Hg cert Hq Hs) as Hlast. destruct Hq as (p & _ & [_ Hr _ Hsig]). split.
  - split; [done|]. destruct Hs as (_ & [Hu _] & _). unfold is_u32, lastSlot, Vote_Slot in *. lia.
  - rewrite Forall_forall in *. intros s Hin. split; [by apply Hr|].
    specialize (Hsig s Hin). by apply andb_prop in Hsig as [?%Nat.eqb_eq _].
Qed.

Lemma wp_verifyCertificate cert e :
  safe e -> sized_vote (cert_Vote cert) -> indices_ok cert ->
  wp (verifyCertificate cert) e (fun r e' => safe e' /\ forall vc, r = Ok vc -> fit_sealed g vc).
Proof.
  intros Hf Hs Hix. unfold verifyCertificate. destruct (validateCertificateVote (cert_Vote cert)); [|by wp_step].
  wp_step. wp_use (wp_votePayload _ _ _ _ Hf Hs). clear Hf. intros p e1 [Hf Hp]. do 2 wp_step. pose proof Hf as [-> _ _ _ _ _ _ _ _].
  destruct (verifyCertificatePayload _ _ _ _) as [[]|] eqn:Ev; wp_step; (split; [exact Hf|]); [|done]. intros vc [= <-]. exists cert.
  split; [done|]. apply good_cert_fit; [|done]. exists p. split; [done|]. by apply (verify_payload_iff _ _ _ _ _ (fc_roster g Hg) Hix).
Qed.

Lemma wp_drop e : safe e -> wp drop_message e (fun _ => safe).
Proof. intros Hf. unfold drop_message. by wp_step. Qed.

Lemma wants_some vv v : valid_kind (v_Kind v) -> exists b, wants vv v = Some b.
Proof. intros Hk. unfold wants, byKind. destruct (v_Kind v); simpl in *; eauto; done. Qed.

Lemma wp_slot_wants i idx v e :
  fit [i] None e -> 0 <= idx < Z.of_nat (nValidators g) -> valid_kind (v_Kind v) ->
  wp (slot_wants (Some i) idx v) e (fun _ => safe).
Proof.
  intros Hf Hidx Hk. unfold slot_wants. wp_step. wp_use (wp_load g _ _ _ _ Hf (list_elem_of_here _ _)). intros s ? (-> & [Hl _ _] & _).
  destruct (lookup_lt_is_Some_2 (ps_votes s) (Z.to_nat idx)) as [vv Evv]; [lia|]. wp_step. eapply wp_deref; [exact Evv|].
  destruct (wants_some vv v Hk) as [b Hb]. eapply wp_deref; [exact Hb|]. by apply fit_cons in Hf.
Qed.

Lemma wp_slot_needs i v e : safe e -> valid_kind (v_Kind v) -> wp (p <- slots_at i ;; slot_needs p v) e (fun _ => safe).
Proof.
  intros Hf Hk. unfold slot_needs. wp_step. wp_use (wp_slots_at g _ _ _ _ Hf). clear Hf.
  intros p e1 (_ & [[-> Hf]|(-> & _ & Hf)]); [|by wp_step]. wp_step. wp_use (wp_load g _ _ _ _ Hf (list_elem_of_here _ _)). intros s ? (-> & _).
  destruct (needs_some s v Hk) as [b Hb]. eapply wp_deref; [exact Hb|]. by apply fit_cons in Hf.
Qed.

Lemma u32_index i : 0 <= i < Z.of_nat (nValidators g) -> 0 <= u32 i < Z.of_nat (nValidators g).
Proof. intros Hi. unfold u32. pose proof (Z.mod_le i (2 ^ 32)). pose proof (Z.mod_pos_bound i (2 ^ 32)). lia. Qed.

Lemma wp_handleVoteMessage src i data tooNew e :
  safe e -> Forall is_byte data -> wp (handleVoteMessage src i data tooNew) e (fun _ => safe).
Proof.
  intros Hf Hd. unfold handleVoteMessage. do 2 wp_step. pose proof Hf as [-> _ _ _ _ _ _ _ _].
  destruct (_ || _) eqn:Ei; [by apply wp_ban|]. apply orb_false_iff in Ei as [?%Z.ltb_ge ?%Z.leb_gt].
  destruct (parseSignedVote data) as [[v sig]|] eqn:Ep; [|by apply wp_drop]. pose proof (wf_vote_sized v (parseSignedVote_wf data v sig Hd Ep)) as Hv.
  wp_step; [by apply wp_drop|]. do 2 wp_step. change (firstNonFinalized (pl_slots (e_pool e))) with (first_live e).
  destruct (Z.ltb_spec (Vote_Slot v) (first_live e)) as [|Hlive]; [by wp_step|]. wp_step.
  wp_use (wp_slots_at_live g _ _ _ _ Hf Hlive). clear Hf Hlive. intros p e1 (-> & Hf & _). wp_step.
  eapply wp_mono; [apply (wp_slot_wants _ _ _ _ Hf); [lia|apply Hv]|]. clear Hf. intros w e2 Hf. wp_step; [by wp_step|].
  wp_step. wp_use (wp_votePayload _ _ _ _ Hf Hv). clear Hf. intros pl e3 [Hf _]. apply wp_modify.
  destruct Hf as [Hc Hs Hla Hw Hvo Ht Hb Hcb Hca]. constructor; try done. simpl.
  intros q [?| ->%list_elem_of_singleton]%elem_of_app; [by apply Hb|]. split_and!; [done|by apply u32_index|by apply u32_index|done].
Qed.

Lemma wp_handleCertificateMessage src data tooNew e :
  safe e -> wp (handleCertificateMessage src data tooNew) e (fun _ => safe).
Proof.
  intros Hf. unfold handleCertificateMessage. do 2 wp_step. wp_step; [by apply wp_drop|].
  destruct (parseCertificate data _) as [cert|] eqn:Ep; [|by apply wp_drop]. pose proof (parsed_sized _ _ _ Ep) as Hs.
  pose proof (parsed_indices _ _ _ Ep) as Hix. pose proof Hs as (Hk & _). cbv zeta. wp_step. eapply (wp_mono _ _ (fun _ => safe)).
  { wp_step; [|by apply wp_slot_needs]. do 2 wp_step. wp_step; [|by wp_step]. destruct (needs_some p _ Hk) as [b Hb].
    by eapply wp_deref. }
  clear Hf. intros wanted e1 Hf. wp_step; [by wp_step|]. wp_step. wp_use (wp_verifyCertificate _ _ Hf Hs Hix).
  clear Hf. intros r e2 [Hf Hr]. destruct r as [vc|]; [|by apply wp_ban]. wp_step. eapply (wp_mono _ _ (fun _ => safe)).
  { wp_step; [by apply wp_slot_needs|by wp_step]. }
  clear Hf. intros w e3 Hf. wp_step; [by wp_step|]. apply wp_handleCertificate; [done|by apply Hr].
Qed.

Lemma wp_tooNew e : wp firstTooNewSlot e (fun t e' => e' = e /\ is_u32 t).
Proof. unfold firstTooNewSlot. repeat wp_step. split; [done|apply u32_range]. Qed.

Lemma wp_handleMessage src i data e : safe e -> Forall is_byte data -> wp (handleMessage src i data) e (fun _ => safe).
Proof.
  intros Hf Hd. unfold handleMessage. wp_step. wp_use (wp_isBanned g _ _ _ _ Hf). clear Hf. intros b e1 Hf.
  wp_step; [by apply wp_drop|]. wp_step; [by apply wp_drop|]. wp_step. wp_use (wp_tooNew e1). intros t ? [-> _]. cbv zeta.
  wp_step; [by apply wp_handleVoteMessage|]. wp_step; [by apply wp_handleCertificateMessage|by apply wp_drop].
Qed.

Lemma wp_flush_vote tooNew p e :
  safe e -> is_u32 tooNew -> sized_vote (pn_vote p) -> 0 <= pn_idx p < Z.of_nat (nValidators g) ->
  (pn_ok p = true -> length (pn_sig p) = SignatureSize) -> wp (flush_vote tooNew p) e (fun _ => safe).
Proof.
  intros Hf Ht Hv Hidx Hok. unfold flush_vote. do 2 wp_step. wp_step; [by wp_step|]. wp_step.
  wp_use (wp_isBanned g _ _ _ _ Hf). clear Hf. intros b e1 Hf. wp_step; [by wp_step|]. do 2 wp_step.
  destruct (_ || _) eqn:Eb; [by wp_step|]. apply orb_false_iff in Eb as [Hnew%Z.leb_gt _]. wp_step.
  wp_use (wp_slots_at g _ _ _ _ Hf). clear Hf. intros q e2 (_ & [[-> Hf]|(-> & _ & Hf)]); [|by wp_step].
  wp_step. eapply wp_mono; [apply (wp_slot_wants _ _ _ _ Hf Hidx), Hv|]. clear Hf. intros w e3 Hf. wp_step; [by wp_step|].
  destruct (pn_ok p); cbn [negb]; [|by apply wp_ban]. wp_step. eapply wp_mono.
  { apply wp_applyVote; [exact Hf|done| |auto]. split; [done|]. unfold lastSlot, is_u32 in *. lia. }
  clear Hf. intros a e4 Hf. by repeat wp_step.
Qed.

Lemma wp_flushVerify e : safe e -> wp flushVerify e (fun _ => safe).
Proof.
  intros Hf. unfold flushVerify. do 2 wp_step. wp_step; [by wp_step|]. do 3 wp_step. wp_use (wp_tooNew e). intros t ? [-> Ht]. wp_step.
  eapply (wp_mono _ _ (fun _ => safe)).
  { apply (wp_for_each safe); [|done]. intros p' e' Hin Hf'. pose proof Hf as [Hcfg _ _ _ _ _ Hb _ _].
    destruct (verified_valid _ _ _ Hin (fun p Hp => proj2 (proj2 (Hb p Hp)))) as (p & Hp & Ev & Ei & Es & Eo).
    destruct (Hb p Hp) as (Hsz & Hr & _). apply wp_flush_vote; [done|done|by rewrite Ev|by rewrite Ei|].
    intros Hok. specialize (Eo Hok). rewrite Es. by apply andb_prop in Eo as [?%Nat.eqb_eq _]. }
  clear Hf. intros ? e1 [Hc Hs Hla Hw Hvo Htk Hb Hcb Hca]. apply wp_modify. constructor; try done. intros p Hp. by apply elem_of_nil in Hp.
Qed.

(** ** Candidates and timers *)

Lemma checkCandidate_some c : typed_candidate c -> wf_id (c_ID c) -> exists r, checkCandidate g c = Some r.
Proof.
  intros Ht Hid. unfold checkCandidate. destruct (ValidateShape c) as [[]|] eqn:Ev; [|by eexists].
  destruct (law_serialize_hash _ (wf_hash_data_of c Ht Ev)) as [b Eb].
  assert (ComputeID c (cid_Slot (c_ID c)) = Some (mkCandidateID (cid_Slot (c_ID c)) (sha256 b))) as ->
    by (unfold ComputeID, HashDataBytes; by rewrite Eb).
  cbn [mbind option_bind]. cbv zeta. destruct (validators g !! _) as [v|]; [|by eexists]. destruct (negb _); [by eexists|].
  destruct (c_Delegation c) as [d|].
  - edestruct verifyDelegatedCandidate_some as [r ->]; [apply (fc_session g Hg)|apply (fc_spw g Hg)|apply length_sha256|by eexists].
  - edestruct VerifyCandidateSignature_some as [r ->]; [apply (fc_session g Hg)|apply length_sha256|by eexists].
Qed.

Lemma wp_SubmitCandidate c e : safe e -> typed_candidate c -> wf_id (c_ID c) -> wp (SubmitCandidate c) e (fun _ => safe).
Proof.
  intros Hf Ht Hid. unfold SubmitCandidate. do 4 wp_step. wp_step; [by wp_step|]. do 2 wp_step.
  destruct (e_voter e) as [v|] eqn:Ev; [|by wp_step]. do 2 wp_step. pose proof Hf as [-> _ _ _ _ _ _ _ _].
  destruct (checkCandidate_some c Ht Hid) as [r Hr]. wp_step. eapply wp_deref; [exact Hr|]. destruct r as [cc|]; [|by wp_step].
  apply checkCandidate_submitted in Hr; [|done|done]. wp_step. eapply wp_mono.
  { apply wp_run; [|exact Hf]. intros _. eapply wp_mono; [by eapply wp_acceptCandidate, Hr; eapply fit_voter_some|].
    intros ? e1. apply fit_none. }
  intros ? e1 Hf1. by wp_step.
Qed.

Lemma wp_advance_timers e : safe e -> wp advance_timers e (fun _ => safe).
Proof.
  intros Hf. unfold advance_timers. wp_step. wp_use (wp_flushVerify _ Hf). clear Hf. intros ? e1 Hf. do 2 wp_step. do 4 wp_step. wp_step.
  eapply (wp_mono _ _ (fun _ => safe)).
  { apply wp_when; [intros [_ Hv]%andb_prop|done]. simpl e_voter in Hv. destruct (e_voter e1) as [v|] eqn:Ev; [|done].
    eapply wp_mono; [eapply wp_fireVoterAlarm, (fit_voter_some g _ None _ v); done|]. intros ? e2. apply fit_none. }
  clear Hf. intros ? e2 Hf. do 5 wp_step. eapply (wp_mono _ _ (fun _ => safe)).
  { wp_step; [by apply wp_fireStandstill|done]. }
  clear Hf. intros ? e3 Hf. do 4 wp_step. wp_step; [by apply wp_stepDrain|done].
Qed.

(** ** Inputs *)

Lemma wp_runCallback cb c e : safe e -> fit_callback g cb -> wp (runCallback cb c) e (fun _ => safe).
Proof.
  intros Hf Hcb. destruct cb, c; simpl in *; try (by wp_step).
  - apply wp_completeAsync; [|done]. intros _. by apply wp_voteSaved.
  - apply wp_completeAsync; [|done]. intros _. by eapply wp_finishCertificateSave.
  - apply wp_completeAsync; [|done]. intros _. unfold windowSaved. destruct r; [by wp_step|by apply wp_fatal..].
  - apply wp_run; [|done]. intros _. by apply wp_completeStore.
  - apply wp_run; [|done]. intros _. by apply wp_completeValidation.
Qed.

Lemma wp_handle i e : safe e -> typed_input i -> wp (handle i) e (fun _ => safe).
Proof.
  intros Hf Hi. destruct i as [src v data|src v data| |c|slot bid chk| |k c|p|]; simpl in *.
  - apply wp_run; [|done]. intros _. wp_step. wp_use (wp_handleMessage _ _ _ _ Hf Hi). intros ? e1 Hf1. by apply wp_flushVerify.
  - apply wp_run; [|done]. intros _. by apply wp_handleMessage.
  - unfold FlushVerify. do 2 wp_step. wp_step; [by wp_step|]. do 4 wp_step. wp_step; [|apply wp_run; [|done]; apply wp_flushVerify].
    apply wp_modify. destruct Hf as [Hc Hs Hla Hw Hv Ht Hb Hcb Hca]. constructor; try done. intros p Hp. by apply elem_of_nil in Hp.
  - wp_step. destruct Hi as [Ht Hid]. wp_use (wp_SubmitCandidate _ _ Hf Ht Hid). intros ? e1 Hf1. by wp_step.
  - wp_step. unfold PrecheckCandidateBroadcast. repeat first [wp_step|apply wp_modify]; done.
  - apply wp_run; [|done]. apply wp_advance_timers.
  - do 2 wp_step. destruct (e_callbacks e !! k) as [cb|] eqn:Ek; [|by wp_step]. wp_step. apply wp_modify. do 2 wp_step.
    destruct Hf as [Hc Hs Hla Hw Hv Ht Hb Hcb Hca]. apply wp_runCallback; [|apply Hcb; by eapply list_elem_of_lookup_2].
    constructor; try done. simpl. intros cb' Hin. apply Hcb. rewrite <- (take_drop_middle _ _ _ Ek).
    rewrite delete_take_drop in Hin. set_solver.
  - wp_step. unfold UpdateParams. repeat first [wp_step|apply wp_modify]; done.
  - unfold Stop. destruct Hf as [Hc Hs Hla Hw Hv Ht Hb Hcb Hca]. wp_step. apply wp_modify. wp_step. apply wp_modify. wp_step. apply wp_modify.
    wp_step. apply wp_modify. apply wp_modify. by constructor; try done; intros ? ?%elem_of_nil.
Qed.
End Handlers.

(** ** Construction and start *)

Section Starting.
Context `{TLLaws} `{Ed25519} `{Machine} `{Environment}.
Context (g : Config).
Abbreviation fit := (fit_state g).
Abbreviation safe := (fit [] None).
Hypothesis Hg : fit_config g.

Definition same_pool (e e' : Engine) : Prop := e_pool e' = e_pool e.
#[local] Instance same_pool_refl : Reflexive same_pool.
Proof. done. Qed.
#[local] Instance same_pool_trans : Transitive same_pool.
Proof. unfold same_pool. intros ? ? ? -> ->. done. Qed.
Lemma pool_modify f : (forall e, same_pool e (f e)) -> keeps same_pool (modify f).
Proof. intros Hm e u e' [= <- <-]. apply Hm. Qed.
Lemma pool_bootstrapVoter votes : keeps same_pool (bootstrapVoter votes).
Proof.
  unfold bootstrapVoter, bootstrap_vote, vslots_at, vstore, vload, modify_voter, voter.
  repeat first [apply pool_modify; done|keeps_step].
Qed.

Lemma wp_replay_certificates certs e :
  safe e -> (forall vc, vc ∈ certs -> fit_sealed g vc) -> wp (replay_certificates certs) e (fun _ => safe).
Proof.
  revert e. induction certs as [|vc certs IH]; intros e Hf Hc; cbn [replay_certificates]; [by wp_step|].
  destruct (Hc vc) as (c & Ec & Hfc); [left|]. assert (forall vc, vc ∈ certs -> fit_sealed g vc) by (intros ? ?; apply Hc; by right).
  pose proof Hfc as [[(Hk & _) _] _]. wp_step. eapply wp_deref; [exact Ec|]. wp_step. wp_use (wp_slots_at g _ _ _ _ Hf). clear Hf.
  intros p e1 (_ & [[-> Hf]|(-> & _ & Hf)]); [|by apply IH]. wp_step.
  wp_use (wp_load g _ _ _ _ Hf (list_elem_of_here _ _)). intros s ? (-> & _). wp_step.
  destruct (needs_some s _ Hk) as [b Hb]. eapply wp_deref; [exact Hb|]. wp_step; [wp_step; by apply fit_cons in Hf|].
  wp_step. eapply wp_mono; [apply (wp_storeSaved g _ _ _ _ _ Hf Ec Hfc); left|]. clear Hf. intros ? e2 Hf. do 2 wp_step.
  wp_step; [by wp_step|by apply IH].
Qed.

Lemma localWeight_some : exists w, localWeight g = Some w.
Proof.
  unfold localWeight. destruct (Z.ltb_spec (g_localIndex g) 0); [by eexists|].
  destruct (fc_local g Hg) as [E|Hr]; [rewrite E in *; by unfold ObserverIndex in *|].
  destruct (lookup_lt_is_Some_2 (validators g) (Z.to_nat (g_localIndex g))) as [v ->]; [unfold nValidators in Hr; lia|by eexists].
Qed.

Lemma wp_if_some_voter L (m : M unit) e :
  fit L None e -> (fit L (Some []) e -> wp m e (fun _ => fit L (Some []))) ->
  wp (when (bool_decide (is_Some (e_voter e))) m) e (fun _ => fit L None).
Proof.
  intros Hf Hm. apply wp_when; [|done]. intros [v Ev]%bool_decide_eq_true. wp_use (Hm (fit_voter_some g _ _ _ _ Hf Ev)).
  intros ? e1. apply fit_none.
Qed.

Lemma wp_startFrom bs sealed e :
  safe e -> first_live e = 0 -> (forall v, v ∈ bs_OurVotes bs -> low_vote v) -> (forall vc, vc ∈ sealed -> fit_sealed g vc) ->
  wp (startFrom bs sealed) e (fun _ => safe).
Proof.
  intros Hf H0f Hv Hc. unfold startFrom. wp_step. apply wp_modify. set (e0 := e <| e_pool := _ |>).
  assert (safe e0) as Hf0 by exact Hf. do 3 wp_step.
  destruct (wp_if_some_voter [] (bootstrapVoter (bs_OurVotes bs)) e0 Hf0) as (u & e1 & E1 & Hf1).
  { intros Hs. by apply wp_bootstrapVoter. }
  exists u, e1. split; [exact E1|]. assert (first_live e1 = 0) as H1f.
  { unfold when in E1. destruct (bool_decide _); [|by injection E1 as _ <-]. apply pool_bootstrapVoter in E1. unfold first_live.
    by rewrite E1. }
  clear E1 Hf Hf0. wp_step. wp_use (wp_slots_at_live g _ _ 0 _ Hf1 ltac:(lia)). clear Hf1. intros p e2 (-> & Hf & _). wp_step.
  eapply wp_mono; [apply (wp_store g _ _ _ _ _ Hf (list_elem_of_here _ _)); intros s Hs; by apply fit_addBase|]. clear Hf. intros ? e3 [Hf _].
  apply fit_cons in Hf. wp_step. wp_use (wp_replay_certificates _ _ Hf Hc). clear Hf. intros err e4 Hf.
  destruct err as [err|]; [by wp_step|]. wp_step. apply wp_modify. wp_step. eapply wp_mono; [by apply (wp_drainPending g Hg)|].
  clear Hf. intros ? e5 Hf. wp_step. eapply wp_mono.
  { apply (wp_for_each safe); [|exact Hf]. intros v e' Hin Hf'. unfold replay_vote. do 2 wp_step. wp_step; [by wp_step|].
    apply wp_castVote; auto. }
  clear Hf. intros ? e6 Hf. do 3 wp_step. eapply wp_mono; [apply (wp_if_some_voter _ _ _ Hf); by apply wp_castStartupWindowSkips|].
  clear Hf. intros ? e7 Hf. wp_step. apply wp_modify. do 5 wp_step. apply wp_modify. do 2 wp_step. simpl e_cfg.
  pose proof Hf as [Hcfg _ _ _ _ _ _ _ _]. rewrite Hcfg. destruct localWeight_some as [w Hw]. wp_step. eapply wp_deref; [exact Hw|].
  wp_step. eapply wp_mono; [by apply (wp_trace g [] None)|]. clear Hf Hcfg. intros ? e8 Hf. wp_step. wp_use (wp_advancePresent g _ _ _ Hf).
  clear Hf. intros ? e9 Hf. wp_step. wp_use (wp_drainPending g Hg _ Hf). clear Hf. intros ? e10 Hf. by repeat wp_step.
Qed.
End Starting.

Section NeverPanics.
Context `{TLLaws} `{Ed25519} `{Machine} `{Environment}.

Lemma ValidateBootstrap_some sid vs st :
  length sid = 32%nat -> Forall no_wrap_weight vs -> Forall typed_certificate (bs_Certificates st) ->
  exists r, ValidateBootstrap sid vs (Some st) = Some r /\ forall vb, r = Ok vb -> is_Some (vb_state vb).
Proof.
  intros Hs Hw Hc. unfold ValidateBootstrap. destruct (_ =? _)%nat.
  { destruct (NewCertificateBinding sid vs); eexists; (split; [done|]); intros vb [= <-]; by eexists. }
  destruct (NewCertificateVerifier sid vs) as [v|] eqn:Ev; [|by eexists].
  destruct (bootstrap_loop_spec sid vs v _ Hs Hw Ev Hc) as (r & Er & _). rewrite Er. cbn [mbind option_bind].
  eexists. split; [done|]. destruct r; [|done]. intros vb [= <-]. by eexists.
Qed.

Lemma check_config_ok c : check_config c = None ->
  ec_SlotsPerLeaderWindow c <> 0 /\
  (ec_LocalIndex c = ObserverIndex \/ 0 <= ec_LocalIndex c < Z.of_nat (length (ec_Validators c))).
Proof.
  unfold check_config. destruct (_ =? 0)%nat; [done|]. destruct (3 <? _); [done|].
  destruct (Z.eqb_spec (ec_SlotsPerLeaderWindow c) 0); [done|]. destruct (60 <? _); [done|].
  destruct (Z.eqb_spec (ec_LocalIndex c) ObserverIndex); [auto|]. cbn [negb andb].
  destruct (_ || _) eqn:E; [done|]. apply orb_false_iff in E as [?%Z.ltb_ge ?%Z.leb_gt]. split; [done|right; lia].
Qed.

Context (c : EngineConfig) (bs : BootstrapState).
Hypothesis Hsu : setup c bs.
Hypothesis Hlast : forall cert, is_quorum c cert -> sized_vote (cert_Vote cert) -> Vote_Slot (cert_Vote cert) <> lastSlot.

Lemma probe_returns key : exists r, probeSignerIdentity key (ec_SessionID c) = Some r.
Proof.
  unfold probeSignerIdentity. destruct (negb _); [by eexists|].
  destruct (sized_payload (ec_SessionID c) (SkipVote (2 ^ 32 - 1))) as [p ->];
    [apply (su_session c bs Hsu)|apply sized_SkipVote; unfold is_u32; lia|]. cbn [mbind option_bind].
  destruct (env_Sign 0 p); [|by eexists]. destruct (_ || _); by eexists.
Qed.

Lemma NewEngine_returns : exists r, NewEngine c = Some r.
Proof.
  unfold NewEngine. destruct (check_config c) eqn:Ec; [by eexists|]. destruct (totalValidatorWeight _); [|by eexists].
  destruct (NewCertificateVerifier _ _); [|by eexists].
  assert (exists p, (if ec_LocalIndex c =? ObserverIndex then Some None else
    v ← ec_Validators c !! Z.to_nat (ec_LocalIndex c); probeSignerIdentity (val_PublicKey v) (ec_SessionID c)) = Some p) as [p ->].
  { apply check_config_ok in Ec as [_ Hl]. destruct (Z.eqb_spec (ec_LocalIndex c) ObserverIndex) as [|N]; [by eexists|].
    destruct Hl as [|Hl]; [done|]. destruct (lookup_lt_is_Some_2 (ec_Validators c) (Z.to_nat (ec_LocalIndex c))) as [v ->]; [lia|].
    apply probe_returns. }
  cbn [mbind option_bind]. destruct p; [by eexists|]. cbv zeta. destruct (Params_Validate _); by eexists.
Qed.

Lemma NewEngine_checked e0 : NewEngine c = Some (Ok e0) ->
  check_config c = None /\ g_spw (e_cfg e0) = ec_SlotsPerLeaderWindow c.
Proof.
  unfold NewEngine. intros Hr. destruct (check_config c); [done|].
  destruct (totalValidatorWeight _); [|done]. destruct (NewCertificateVerifier _ _) as [v|] eqn:Ev; [|done].
  apply bind_Some in Hr as (probe & _ & Hr). destruct probe; [done|]. destruct (Params_Validate _); [done|]. by injection Hr as <-.
Qed.

Lemma NewEngine_fit e0 : NewEngine c = Some (Ok e0) -> fit_config (e_cfg e0) /\ fit_state (e_cfg e0) [] None e0 /\ first_live e0 = 0.
Proof.
  intros Hn. destruct (NewEngine_good c bs e0 Hsu Hn) as [Hgr Hiff]. pose proof (NewEngine_config c e0 Hn) as [_ Evs Es El _].
  pose proof (NewEngine_pristine c e0 Hn) as [Hl Hcb Hp Hv Hca Hsl _ Hla _ Hw Hvs Hvo].
  destruct (NewEngine_checked e0 Hn) as [[Hspw Hloc]%check_config_ok Espw].
  assert (fit_config (e_cfg e0)) as Hfc.
  { constructor.
    - rewrite Es. apply (su_session c bs Hsu).
    - by rewrite Evs.
    - by rewrite Espw.
    - unfold nValidators. by rewrite El, Evs.
    - unfold signer_ok. rewrite El, Evs. apply (su_signer c bs Hsu).
    - intros cert Hq%Hiff. by apply Hlast. }
  split_and!; [done| |unfold first_live; by rewrite Hsl].
  unfold fit_state. rewrite Hsl, Hla, Hw, Hp, Hv, Hcb, Hca. constructor; try done; try (by intros ? ?%elem_of_nil).
  - constructor; [done| |by intros ? ?%elem_of_nil]. intros i s. simpl. by rewrite lookup_empty.
  - constructor; [|intros v i s Ev|done].
    + intros [v Ev]. destruct (fc_local _ Hfc) as [Eo|?]; [|done]. rewrite (Hvo Eo) in Ev. done.
    + unfold vslots in Hvs. rewrite Ev in Hvs. destruct Hvs as [|[= ->]]; [done|]. simpl. by rewrite lookup_empty.
Qed.

(** Starting from a validated journal. *)
Lemma wp_start_validated e0 vb bs' :
  NewEngine c = Some (Ok e0) -> validated_start e0 bs vb -> bs_OurVotes bs' = bs_OurVotes bs ->
  forall e1, fit_state (e_cfg e0) [] None e1 -> first_live e1 = 0 ->
    wp (startFrom bs' (vb_sealed vb)) e1 (fun _ => fit_state (e_cfg e0) [] None).
Proof.
  intros Hn Hvs Hv. destruct (NewEngine_fit e0 Hn) as (Hfc & _). destruct (NewEngine_good c bs e0 Hsu Hn) as [_ Hiff].
  pose proof (recovered_quorums c bs e0 vb Hsu Hn Hvs) as Hall. intros e1 Hf H0f.
  apply wp_startFrom; [done|done|done|..].
  - rewrite Hv. intros v Hin. pose proof (su_votes c bs Hsu) as Hs. rewrite Forall_forall in Hs. auto.
  - intros vc Hin. rewrite Forall_forall in Hall. destruct (Hall vc Hin) as (cert & Hc & Hwf & Hq). exists cert. split; [done|].
    apply good_cert_fit; [done|by apply Hiff|done].
Qed.

Lemma wp_Start e0 : NewEngine c = Some (Ok e0) ->
  wp (Start (Some bs)) e0 (fun _ => fit_state (e_cfg e0) [] None).
Proof.
  intros Hn. destruct (NewEngine_fit e0 Hn) as (Hfc & Hf & H0f). pose proof (NewEngine_config c e0 Hn) as [_ Evs Es _ _].
  destruct (ValidateBootstrap_some (sessionID (e_cfg e0)) (validators (e_cfg e0)) bs) as (r & Er & Hr).
  { rewrite Es. apply (su_session c bs Hsu). }
  { rewrite Evs. apply (su_weights c bs Hsu). }
  { apply (su_certs c bs Hsu). }
  unfold Start. destruct (negb (VB_matches (e_bootstrap e0) (Some bs)) || negb (bool_decide (vb_binding (e_bootstrap e0) = binding (e_cfg e0)))) eqn:Em.
  - destruct r as [vb|err].
    + destruct (Hr vb eq_refl) as [bs' Hbs'].
      pose proof (wp_start_validated e0 vb bs' Hn (or_intror Er) (ValidateBootstrap_votes _ _ _ _ _ Er Hbs')) as Hgo.
      do 4 wp_step. wp_step; [by wp_step|]. wp_step; [by wp_step|]. do 5 wp_step. rewrite Em. wp_step. eapply wp_deref; [exact Er|].
      wp_step; simplify_eq. wp_step. apply wp_modify. wp_step. cbv beta iota. wp_step. eapply wp_deref; [exact Hbs'|]. by apply Hgo.
    + do 4 wp_step. wp_step; [by wp_step|]. wp_step; [by wp_step|]. do 5 wp_step. rewrite Em. wp_step. eapply wp_deref; [exact Er|].
      wp_step; simplify_eq. by repeat wp_step.
  - pose proof Em as [Hm%negb_false_iff Hb%negb_false_iff%bool_decide_eq_true]%orb_false_iff. apply VB_matches_eq in Hm.
    pose proof (wp_start_validated e0 (e_bootstrap e0) bs Hn (or_introl (conj eq_refl (conj Hm Hb))) eq_refl) as Hgo.
    do 4 wp_step. wp_step; [by wp_step|]. wp_step; [by wp_step|]. do 5 wp_step. rewrite Em. wp_step. wp_step. eapply wp_deref; [exact Hm|].
    by apply Hgo.
Qed.

Lemma reachable_fit e : reachable c bs e ->
  exists e0, NewEngine c = Some (Ok e0) /\ fit_config (e_cfg e0) /\ fit_state (e_cfg e0) [] None e.
Proof.
  induction 1 as [e0 e Hn Hst|e i u e' _ (e0 & Hn & Hfc & IH) Hi Hh].
  - destruct (wp_Start e0 Hn) as (r & e1 & E & Hf). exists e0. rewrite Hst in E. injection E as <- <-.
    split_and!; [done|by apply NewEngine_fit|done].
  - exists e0. split_and!; [done|done|]. destruct (wp_handle (e_cfg e0) Hfc i e IH Hi) as (u' & e1 & E & Hf). by simplify_eq.
Qed.

Lemma feed_returns l : Forall typed_input l -> forall e, reachable c bs e ->
  exists e', feed l e = Some e' /\ reachable c bs e'.
Proof.
  induction 1 as [|i l Hi _ IH]; intros e Hr; [by exists e|].
  destruct (reachable_fit e Hr) as (e0 & _ & Hfc & Hf).
  destruct (wp_handle (e_cfg e0) Hfc i e Hf Hi) as (u & e1 & E & _). simpl. rewrite E. simpl.
  apply IH. by eapply reach_step.
Qed.

End NeverPanics.

(** Validators 0 and 1 sign anything, the others only the notarization of the
    example candidate: no quorum exists for the last slot. *)
Module ExampleTotal.
Import ExampleTL ExampleCert ExampleRun.

Definition notarized_payload : bytes := Eval vm_compute in default [] (vote_payload session (NotarizeVote (id_of 17))).
#[export] Instance ed : Ed25519 :=
  { ed25519_Verify k msg sig := bool_decide (sig = mac k msg) &&
      (bool_decide (k = key 0) || bool_decide (k = key 1) || bool_decide (msg = notarized_payload)) }.

Definition notarized : Engine := final config empty (voted_inputs 17).
Lemma run_reachable : reachable config empty notarized.
Proof. apply final_reachable. vm_compute. reflexivity. Qed.

Lemma total_setup : setup config empty.
Proof.
  constructor.
  - reflexivity.
  - split; [reflexivity|repeat constructor; simpl; lia].
  - exact roster_no_wrap.
  - intros n p sig _ E. injection E as <-. unfold verify_signature. cbn [vs_Signature vs_ValidatorIndex].
    assert (length (mac (key 1) p) = SignatureSize) as -> by (unfold mac; by rewrite !length_app, length_le_put).
    cbn. apply andb_true_intro. split; [by apply bool_decide_eq_true|done].
  - constructor.
  - constructor.
  - left. reflexivity.
Qed.

Lemma no_last_slot cert : is_quorum config cert -> sized_vote (cert_Vote cert) -> Vote_Slot (cert_Vote cert) <> lastSlot.
Proof.
  intros (p & Hp & Hq) Hs Hlast. assert (p <> notarized_payload) as Hne.
  { intros ->. assert (vote_payload session (NotarizeVote (id_of 17)) = Some notarized_payload) as Hn by (vm_compute; reflexivity).
    assert (sized_vote (NotarizeVote (id_of 17))) as Hsn by (apply sized_NotarizeVote; split; [unfold is_u32; vm_compute; by split|reflexivity]).
    destruct (payload_inj session session _ _ _ eq_refl eq_refl Hs Hsn Hp Hn) as [_ E]. rewrite E in Hlast.
    assert (Vote_Slot (NotarizeVote (id_of 17)) = 0) as E0 by (vm_compute; reflexivity). rewrite E0 in Hlast. discriminate Hlast. }
  assert (forall i k, roster !! i = Some (mkValidator k 1) -> k <> key 0 -> k <> key 1 -> signed_by (cert_Signatures cert) i = false) as Hno.
  { intros i k Hi H0 H1. destruct (signed_by _ i) eqn:Es; [exfalso|done]. apply bool_decide_eq_true, list_elem_of_fmap in Es as (sg & Hix & Hsg).
    pose proof (q_sigs _ _ _ _ Hq) as Hall. rewrite Forall_forall in Hall. specialize (Hall sg Hsg). unfold verify_signature in Hall.
    change (ec_Validators config) with roster in Hall. rewrite <- Hix, Nat2Z.id, Hi in Hall.
    apply andb_prop in Hall as [_ Hall]. simpl in Hall. apply andb_prop in Hall as [_ Hall].
    rewrite !bool_decide_false in Hall by done. done. }
  pose proof (q_weight _ _ _ _ Hq) as Hw. change (quorumThreshold (total_weight (ec_Validators config))) with 3 in Hw.
  unfold wsum in Hw. simpl in Hw. rewrite (Hno 2%nat (key 2) eq_refl), (Hno 3%nat (key 3) eq_refl) in Hw by done.
  destruct (signed_by _ 0), (signed_by _ 1); simpl in Hw; lia.
Qed.

(** A malformed message, a certificate of a known vote, a tick. *)
Definition more : list input := [InMessage [7] 3 [1; 2; 3]; notarization_msg 17; InAdvance].

End ExampleTotal.
