(* ===== verification/SimplexVoting.v ===== *)
(** * What the voter signs ([src/service/validator/simplex/voter.go], [castVote]
      and [finishVoteCast] of [engine.go])

    The votes an engine hands to its journal, and the order journal, signature,
    application, broadcast.  Both are invariants of every reachable state; they
    do not depend on the rest of the engine behaving, so the proofs only need to
    know which handlers leave the voter's slots and the log's votes alone. *)

From S2P Require Import Prelude.
From S2P Require Import SimplexTypes.
From S2P Require Import SimplexSlots.
From S2P Require Import SimplexWire.
From S2P Require Import SimplexFanOut.
From S2P Require Import SimplexCert.
From S2P Require Import SimplexCandidate.
From S2P Require Import SimplexPool.
From S2P Require Import Float64.
From S2P Require Import SimplexState.
From S2P Require Import SimplexEngine.
From S2P Require Import SimplexFrame.
From S2P Require Import SimplexRun.

#[local] Open Scope Z_scope.
#[local] Open Scope go_scope.

(** The votes whose save was requested, newest first. *)
Definition issued_of (ev : Effect) : option Vote :=
  match ev with SaveOurVote v => Some v | _ => None end.
Definition issued (e : Engine) : list Vote := omap issued_of (e_log e).

Lemma quiet_not_issued ev : quiet ev = true -> issued_of ev = None.
Proof. by destruct ev. Qed.

Lemma omap_None {A C} (f : A -> option C) l : (forall x, x ∈ l -> f x = None) -> omap f l = [].
Proof.
  induction l as [|x l IH]; intros Hl; [done|]. simpl. rewrite (Hl x) by left. apply IH. intros. apply Hl. by right.
Qed.

Lemma calm_issued e e' : calm e e' -> issued e' = issued e.
Proof.
  intros Hc. unfold issued.
  destruct (cm_log _ _ Hc) as (new & -> & Hq). rewrite omap_app, omap_None; [done|].
  intros ev Hev. by apply quiet_not_issued, Hq.
Qed.

(** ** The voting invariant *)

Definition vslot (m : slotMap voterSlot) (i : Z) : voterSlot := default newVoterSlot (slots m !! i).

Definition conflict_free (V : list Vote) : Prop := forall a b, a ∈ V -> b ∈ V -> ~ conflicting a b.

(** The flags of a live slot cover the votes [V] cast in it.  [W] are the slots
    reserved for a skip at startup. *)
Record slot_covers (V : list Vote) (W : list Z) (i : Z) (s : voterSlot) : Prop := {
  sc_slot : forall id, vs_votedNotar s = Some id -> cid_Slot id = i;
  sc_excl : vs_votedFinal s = true -> vs_votedSkip s = false;
  sc_base : vs_votedFinal s = true -> is_Some (vs_votedNotar s);
  sc_notar : forall v, v ∈ V -> Vote_Slot v = i -> v_Kind v = VoteNotarize -> vs_votedNotar s = Some (v_ID v);
  sc_final : forall v, v ∈ V -> Vote_Slot v = i -> v_Kind v = VoteFinalize ->
    vs_votedFinal s = true /\ vs_votedNotar s = Some (v_ID v);
  sc_skip : forall v, v ∈ V -> Vote_Slot v = i -> v_Kind v = VoteSkip -> vs_votedSkip s = true;
  sc_reserved : i ∈ W -> vs_votedFinal s = true \/ vs_votedSkip s = true }.

Definition covers (V : list Vote) (W : list Z) (m : slotMap voterSlot) : Prop :=
  forall i, firstNonFinalized m <= i -> slot_covers V W i (vslot m i).

(** [B] are the votes recovered from the journal. *)
Definition voting_inv (B : list Vote) (W : list Z) (e : Engine) : Prop :=
  conflict_free (B ++ issued e) /\
  match vslots e with Some m => covers (B ++ issued e) W m | None => True end.

Lemma voting_still B W e e' : still e e' -> voting_inv B W e -> voting_inv B W e'.
Proof. intros [Hc _]. unfold voting_inv. by rewrite (cm_vslots _ _ Hc), (calm_issued _ _ Hc). Qed.

Lemma keeps_still_inv {A} B W (m : M A) : keeps still m -> ptriple (voting_inv B W) m (fun _ => voting_inv B W).
Proof. intros Hm e a e' Hinv E. eapply voting_still; [by eapply Hm|done]. Qed.

(** A slot with no votes and no flags covers nothing. *)
Lemma slot_covers_new V i : (forall v, v ∈ V -> Vote_Slot v = i -> False) -> slot_covers V [] i newVoterSlot.
Proof.
  intros HV. constructor; simpl; try done; [..|by intros ?%elem_of_nil]; intros v Hv Hi; exfalso; eauto.
Qed.

(** Votes of other slots do not matter. *)
Lemma slot_covers_ext V V' W i s :
  (forall v, Vote_Slot v = i -> v ∈ V' -> v ∈ V) -> slot_covers V W i s -> slot_covers V' W i s.
Proof. intros HV [H0 H1 H2 H3 H4 H5 H6]. constructor; eauto. Qed.

(** What a cast vote must satisfy against the flags of its slot. *)
Definition castable (s : voterSlot) (v : Vote) : Prop :=
  match v_Kind v with
  | VoteNotarize => vs_votedNotar s = None
  | VoteFinalize => vs_votedSkip s = false /\ vs_votedFinal s = false /\ vs_votedNotar s = Some (v_ID v)
  | VoteSkip => vs_votedFinal s = false
  | VoteKindOther _ => True
  end.

Lemma castable_conflict_free V W i s v :
  conflict_free V -> slot_covers V W i s -> Vote_Slot v = i -> castable s v -> conflict_free (v :: V).
Proof.
  intros HV [_ _ _ Hn Hf Hs _] Hi Hc.
  assert (forall w, w ∈ V -> ~ conflicting w v) as Hw.
  { intros w Hw [Hsl Hk]. unfold castable in Hc. rewrite Hi in Hsl.
    specialize (Hn w Hw Hsl). specialize (Hf w Hw Hsl). specialize (Hs w Hw Hsl).
    destruct (v_Kind w), (v_Kind v); try done; naive_solver congruence. }
  intros a b [->|Ha]%elem_of_cons [->|Hb]%elem_of_cons.
  - intros [_ Hk]. by destruct (v_Kind v).
  - intros Hab%conflicting_sym. by apply (Hw b).
  - by apply Hw.
  - by apply HV.
Qed.

Lemma conflict_free_perm V V' : (forall v, v ∈ V' -> v ∈ V) -> conflict_free V -> conflict_free V'.
Proof. intros Hsub HV a b Ha Hb. apply HV; auto. Qed.

(** ** The voter's own operations *)

Section VoterOps.
Context `{TLRuntime} `{Ed25519} `{Machine} `{Environment}.

Lemma vslot_insert_new m i j :
  slots m !! i = None -> default newVoterSlot (<[i := newVoterSlot]> (slots m) !! j) = vslot m j.
Proof.
  intros Hi. unfold vslot. destruct (decide (i = j)) as [->|].
  - by rewrite lookup_insert_eq, Hi.
  - by rewrite lookup_insert_ne.
Qed.

Lemma vslots_at_spec i e p e' :
  vslots_at i e = Some (p, e') ->
  exists m m', vslots e = Some m /\ vslots e' = Some m' /\ issued e' = issued e /\ e_cfg e' = e_cfg e /\
    firstNonFinalized m' = firstNonFinalized m /\ (forall j, vslot m' j = vslot m j) /\
    match p with
    | None => i < firstNonFinalized m
    | Some j => j = i /\ firstNonFinalized m <= i /\ slots m' !! i = Some (vslot m i)
    end.
Proof.
  unfold vslots_at, modify_voter, voter, vslots. intros Hr. run_inv. rewrite E0 in E1. injection E1 as <-.
  exists (vt_slots x1), (sm_at newVoterSlot i (vt_slots x1)).2. rewrite E0. unfold sm_at.
  destruct (Z.ltb_spec i (firstNonFinalized (vt_slots x1))); simpl; [by split_and!|].
  destruct (slots (vt_slots x1) !! i) as [s|] eqn:Es; simpl; split_and!; auto.
  - unfold vslot. by rewrite Es.
  - intros j. unfold vslot at 1. simpl. by apply vslot_insert_new.
  - unfold vslot. rewrite Es. apply lookup_insert_eq.
Qed.

Lemma vload_spec p e s e' :
  vload p e = Some (s, e') ->
  e' = e /\ exists i m, p = Some i /\ vslots e = Some m /\ slots m !! i = Some s.
Proof.
  unfold vload, voter, vslots. intros Hr. run_inv. split; [done|].
  eexists _, _. split; [done|]. rewrite E2. done.
Qed.

Lemma vstore_spec p f e u e' :
  vstore p f e = Some (u, e') ->
  exists i m s m', p = Some i /\ vslots e = Some m /\ slots m !! i = Some s /\ vslots e' = Some m' /\
    issued e' = issued e /\ e_cfg e' = e_cfg e /\ firstNonFinalized m' = firstNonFinalized m /\
    slots m' !! i = Some (f s) /\ forall j, j <> i -> vslot m' j = vslot m j.
Proof.
  unfold vstore. intros Hr. run_inv.
  match goal with E : vload _ _ = Some _ |- _ => apply vload_spec in E as (-> & i & m & Hi & Hm & Hs) end.
  simplify_eq. unfold modify_voter, voter, vslots in *. run_inv.
  match goal with E : e_voter _ = Some ?v |- _ => rewrite E in *; simpl in Hm; injection Hm as <-;
    exists i, (vt_slots v) end.
  match type of Hs with slots ?m !! _ = Some ?s => exists s, (sm_alter f i m) end.
  unfold sm_alter. simpl. split_and!; auto.
  - by rewrite lookup_alter_eq, Hs.
  - intros j Hj. unfold vslot. simpl. by rewrite lookup_alter_ne.
Qed.

Lemma castVote_spec v e u e' :
  castVote v false e = Some (u, e') ->
  vslots e' = vslots e /\ e_cfg e' = e_cfg e /\ (issued e' = issued e \/ issued e' = v :: issued e).
Proof.
  unfold castVote. intros Hr. run_inv.
  destruct (_ || _); run_inv; [auto|].
  apply still_trace in E as [Hc _].
  pose proof (calm_issued _ _ Hc) as H4. destruct Hc as [H3 _ H5 _ _ _].
  unfold emit, register in *. run_inv. split; [exact H3|]. split; [exact H5|].
  right. rewrite <- H4. reflexivity.
Qed.

End VoterOps.

(** ** Every handler preserves the voting invariant *)

Section VoterProofs.
Context `{TLRuntime} `{Ed25519} `{Machine} `{Environment}.
Context (B : list Vote) (W : list Z).

Definition live (e : Engine) (i : Z) : Prop := exists m, vslots e = Some m /\ firstNonFinalized m <= i.

Lemma live_same e e' i : vslots e' = vslots e -> live e i -> live e' i.
Proof. unfold live. by intros ->. Qed.

Lemma covers_update V V' m m' i :
  covers V W m -> firstNonFinalized m' = firstNonFinalized m ->
  (forall j, j <> i -> vslot m' j = vslot m j) ->
  (forall v, v ∈ V' -> v ∈ V \/ Vote_Slot v = i) ->
  slot_covers V' W i (vslot m' i) -> covers V' W m'.
Proof.
  intros HV Hf Hne Hsub Hi j Hj. destruct (decide (j = i)) as [->|N]; [done|].
  rewrite Hne by done. eapply slot_covers_ext; [|apply HV; lia].
  intros v <- [?|?]%Hsub; [done|congruence].
Qed.

(** Assigning to a live slot without casting. *)
Lemma inv_vstore i f e u e' :
  voting_inv B W e -> live e i -> vstore (Some i) f e = Some (u, e') ->
  (forall s, slot_covers (B ++ issued e) W i s -> slot_covers (B ++ issued e) W i (f s)) ->
  voting_inv B W e' /\ live e' i.
Proof.
  intros [Hcf Hinv] [m [Hm Hl]] (i' & m0 & s & m' & Hi & Hm0 & Hs & Hm' & Hiss & _ & Hf & Hs' & Hne)%vstore_spec Hpres.
  simplify_eq. rewrite Hm in Hinv. unfold voting_inv. rewrite Hiss, Hm'. split; [split; [done|]|exists m'; split; [done|lia]].
  eapply covers_update with (i := i'); eauto. unfold vslot. rewrite Hs'. simpl. apply Hpres.
  specialize (Hinv i' Hl). unfold vslot in Hinv. by rewrite Hs in Hinv.
Qed.

(** Casting a vote a live slot allows, and recording it. *)
Lemma inv_cast_store i v f e u e1 u' e' :
  voting_inv B W e -> castVote v false e = Some (u, e1) -> vstore (Some i) f e1 = Some (u', e') ->
  live e i -> Vote_Slot v = i ->
  (forall s, slot_covers (B ++ issued e) W i s -> vslots e1 = vslots e ->
     (forall m, vslots e = Some m -> slots m !! i = Some s -> castable s v /\ slot_covers (v :: B ++ issued e) W i (f s))) ->
  voting_inv B W e' /\ live e' i.
Proof.
  intros [Hcf Hinv] (Hv & _ & Hiss)%castVote_spec
    (i' & m0 & s & m' & Hi & Hm0 & Hs & Hm' & Hiss' & _ & Hf & Hs' & Hne)%vstore_spec [m [Hm Hl]] Hsl Hpres.
  simplify_eq. rewrite Hv, Hm in Hm0. simplify_eq. rewrite Hm in Hinv.
  pose proof (Hinv _ Hl) as Hsc. unfold vslot in Hsc. rewrite Hs in Hsc. simpl in Hsc.
  destruct (Hpres s Hsc Hv m0 Hm Hs) as [Hcast Hnew].
  unfold voting_inv. rewrite Hiss', Hm'. split; [|exists m'; split; [done|lia]].
  assert (forall w, w ∈ B ++ issued e1 -> w ∈ v :: B ++ issued e) as Hsub.
  { intros w. destruct Hiss as [-> | ->]; rewrite !elem_of_app, ?elem_of_cons, ?elem_of_app; naive_solver. }
  split.
  - eapply conflict_free_perm; [exact Hsub|]. eapply castable_conflict_free; eauto.
  - eapply covers_update with (i := Vote_Slot v); eauto.
    + intros w [->|?]%Hsub%elem_of_cons; auto.
    + unfold vslot. rewrite Hs'. simpl. eapply slot_covers_ext; [|exact Hnew]. auto.
Qed.

(** The slot a live pointer refers to. *)
Lemma live_vload i e s e' :
  voting_inv B W e -> live e i -> vload (Some i) e = Some (s, e') ->
  e' = e /\ slot_covers (B ++ issued e) W i s /\ exists m, vslots e = Some m /\ slots m !! i = Some s.
Proof.
  intros [_ Hinv] [m [Hm Hl]] (-> & i' & m0 & Hi & Hm0 & Hs)%vload_spec. simplify_eq. rewrite Hm in Hinv.
  split; [done|]. split; [|eauto]. specialize (Hinv _ Hl). unfold vslot in Hinv. by rewrite Hs in Hinv.
Qed.

(** Casting a vote whose flag is already set. *)
Lemma inv_cast i v e u e' :
  voting_inv B W e -> castVote v false e = Some (u, e') -> live e i -> Vote_Slot v = i ->
  conflict_free (v :: B ++ issued e) ->
  (forall m, vslots e = Some m -> slot_covers (v :: B ++ issued e) W i (vslot m i)) ->
  voting_inv B W e' /\ live e' i.
Proof.
  intros [Hcf Hinv] (Hv & _ & Hiss)%castVote_spec Hl Hsl Hcf' Hnew.
  assert (forall w, w ∈ B ++ issued e' -> w ∈ v :: B ++ issued e) as Hsub.
  { intros w. destruct Hiss as [-> | ->]; rewrite !elem_of_app, ?elem_of_cons, ?elem_of_app; naive_solver. }
  split; [|by apply (live_same e)]. destruct Hl as [m [Hm Hl]]. unfold voting_inv. rewrite Hv, Hm in *. split.
  - by eapply conflict_free_perm.
  - eapply covers_update with (i := i) (m := m); eauto.
    + intros w [->|?]%Hsub%elem_of_cons; auto.
    + eapply slot_covers_ext; [|by apply Hnew]. auto.
Qed.

Lemma inv_tryVoteFinal i e u e' :
  voting_inv B W e -> live e i ->
  tryVoteFinal (Some i) e = Some (u, e') -> voting_inv B W e' /\ live e' i.
Proof.
  intros Hinv Hl. unfold tryVoteFinal. intros (s & e1 & E1 & Hr)%bind_inv.
  destruct (live_vload i e s e1 Hinv Hl E1) as (-> & Hsc & m & Hm & Hs).
  destruct (vs_votedNotar s) as [n|] eqn:En; [|run_inv; done]. destruct (vs_notarCert s) as [c|]; [|run_inv; done].
  destruct (_ && _) eqn:Eb; [|run_inv; done].
  apply andb_true_iff in Eb as [[Hsk%negb_true_iff Hfn%negb_true_iff]%andb_true_iff _].
  apply bind_inv in Hr as (u1 & e1 & Ec & Hst).
  pose proof (sc_slot _ _ _ _ Hsc n En) as Hn. eapply inv_cast_store; eauto.
  intros s0 _ _ m0 Hm0 Hs0. simplify_eq. split; [done|]. destruct Hsc as [H0' H1' H2' H3' H4' H5' H6'].
  constructor; simpl; auto.
  - intros v [->|Hv]%elem_of_cons; [done|]. eauto.
  - intros v [->|Hv]%elem_of_cons Hvi Hk; [done|]. split; [done|]. by apply H4'.
  - intros v [->|Hv]%elem_of_cons; [done|]. eauto.
Qed.

Lemma inv_vslots_at i e p e' :
  voting_inv B W e -> vslots_at i e = Some (p, e') ->
  voting_inv B W e' /\ (p = None \/ p = Some i /\ live e' i).
Proof.
  intros [Hcf Hinv] (m & m' & Hm & Hm' & Hiss & _ & Hf & Hj & Hp)%vslots_at_spec.
  unfold voting_inv. rewrite Hiss, Hm'. rewrite Hm in Hinv. split; [split; [done|]|].
  - intros j Hlj. rewrite Hj. apply Hinv. lia.
  - destruct p as [j|]; [right|by left]. destruct Hp as (-> & Hl & _). split; [done|]. exists m'. split; [done|lia].
Qed.

Lemma still_live {A} (m : M A) e a e' i :
  keeps still m -> m e = Some (a, e') -> voting_inv B W e -> live e i -> voting_inv B W e' /\ live e' i.
Proof.
  intros Hk E Hinv Hl. pose proof (Hk _ _ _ E) as Hs. split; [by eapply voting_still|].
  destruct Hs as [[Hv _ _ _ _ _] _]. by apply (live_same e).
Qed.

Lemma inv_maybeVoteNotar id e u e' :
  voting_inv B W e -> live e (cid_Slot id) -> maybeVoteNotar id (Some (cid_Slot id)) e = Some (u, e') ->
  voting_inv B W e'.
Proof.
  intros Hinv Hl. unfold maybeVoteNotar. intros (s & e1 & E1 & Hr)%bind_inv.
  destruct (live_vload _ e s e1 Hinv Hl E1) as (-> & Hsc & m & Hm & Hs).
  destruct (_ || _) eqn:Eb; [run_inv; done|].
  apply orb_false_iff in Eb as [_ Hn%bool_decide_eq_false]. apply eq_None_not_Some in Hn.
  apply bind_inv in Hr as (u1 & e1 & Est & Hr). apply bind_inv in Hr as (u2 & e2 & Ec & Hr).
  pose proof Est as (i' & m0 & s0 & m1 & Hi & Hm0 & Hs0 & Hm1 & Hiss & _ & Hf & Hs1 & Hne)%vstore_spec.
  simplify_eq. assert (voting_inv B W e1 /\ live e1 (cid_Slot id)) as [Hinv1 Hl1].
  { destruct Hinv as [Hcf Hinv]. rewrite Hm in Hinv. unfold voting_inv. rewrite Hiss, Hm1.
    destruct Hl as [mm [Hmm Hl]]. simplify_eq. split; [split; [done|]|exists m1; split; [done|lia]].
    eapply covers_update with (i := cid_Slot id); eauto. unfold vslot. rewrite Hs1. simpl.
    destruct Hsc as [H0' H1' H2' H3' H4' H5' H6']. constructor; simpl; auto.
    - by intros ? [= <-].
    - intros v Hv Hvi Hk. rewrite (H3' v) in Hn; done.
    - intros v Hv Hvi Hk. destruct (H4' v Hv Hvi Hk) as [_ E']. by rewrite E' in Hn. }
  assert (conflict_free (NotarizeVote id :: B ++ issued e1)) as Hcf1.
  { rewrite Hiss. eapply castable_conflict_free; [apply Hinv|exact Hsc|done|done]. }
  destruct (inv_cast (cid_Slot id) (NotarizeVote id) e1 u2 e2 Hinv1 Ec Hl1 eq_refl Hcf1) as [Hinv2 Hl2].
  { intros mm Hmm. simplify_eq. unfold vslot. rewrite Hs1. simpl.
    destruct Hinv1 as [_ Hcov]. rewrite Hm1 in Hcov. destruct Hl1 as [m1' [Hm1' Hl1]]. simplify_eq.
    specialize (Hcov _ Hl1). unfold vslot in Hcov. rewrite Hs1 in Hcov. simpl in Hcov.
    destruct Hcov as [H0' H1' H2' H3' H4' H5' H6']. constructor; simpl in *; auto;
      intros v [->|Hv]%elem_of_cons; try done; eauto. }
  by apply (inv_tryVoteFinal _ e2 u e') in Hr as [? _].
Qed.

Lemma pres_still {A} (m : M A) : keeps still m -> preserves (voting_inv B W) m.
Proof. apply keeps_still_inv. Qed.

Lemma skip_covers V i s :
  slot_covers V W i s -> vs_votedFinal s = false ->
  slot_covers (SkipVote i :: V) W i (s <| vs_votedSkip := true |>).
Proof.
  intros [H0' H1' H2' H3' H4' H5' H6'] Hf. constructor; simpl; auto; try congruence;
    intros v [->|Hv]%elem_of_cons; try done; eauto.
Qed.

(** Skip a live slot that has no finalize vote, then mark it. *)
Lemma inv_alarm_slot i :
  preserves (voting_inv B W) (p <- vslots_at i ;;
    match p with
    | None => ret tt
    | Some _ =>
        slot <- vload p ;;
        when (negb (vs_votedFinal slot))
          (castVote (SkipVote i) false ;;;
           vstore p (fun s => s <| vs_votedSkip := true |>) ;;;
           modify_voter (fun v => v <| vt_previousWindowHadSkip := true |>))
    end).
Proof.
  intros e u e' Hinv (p & e1 & E1 & Hr)%bind_inv.
  destruct (inv_vslots_at i e p e1 Hinv E1) as [Hinv1 [->|[-> Hl1]]]; [run_inv; done|].
  apply bind_inv in Hr as (s & e2 & E2 & Hr). destruct (live_vload i e1 s e2 Hinv1 Hl1 E2) as (-> & Hsc & m & Hm & Hs).
  destruct (vs_votedFinal s) eqn:Ef; [simpl in Hr; run_inv; done|]. simpl in Hr.
  apply bind_inv in Hr as (u1 & e2 & Ec & Hr). apply bind_inv in Hr as (u2 & e3 & Est & Hr).
  assert (voting_inv B W e3 /\ live e3 i) as [Hinv3 Hl3].
  { eapply inv_cast_store; eauto. intros s0 _ _ m0 Hm0 Hs0. simplify_eq. split; [done|]. by apply skip_covers. }
  eapply pres_still; [|exact Hinv3|exact Hr]. eauto with voting.
Qed.

Lemma inv_fireVoterAlarm : preserves (voting_inv B W) fireVoterAlarm.
Proof.
  unfold fireVoterAlarm. apply preserves_bind; [apply pres_still; eauto with voting|intros _].
  apply preserves_bind; [apply pres_still; eauto with voting|intros v].
  apply preserves_bind; [apply pres_still; keeps_auto|intros spw].
  apply preserves_bind; [|intros _; apply pres_still; eauto with voting].
  apply ptriple_for_each. intros i _. apply inv_alarm_slot.
Qed.

Lemma inv_voterNotarizationObserved id : preserves (voting_inv B W) (voterNotarizationObserved id).
Proof.
  unfold voterNotarizationObserved. intros e u e' Hinv (p & e1 & E1 & Hr)%bind_inv.
  destruct (inv_vslots_at _ e p e1 Hinv E1) as [Hinv1 [->|[-> Hl1]]]; [run_inv; done|].
  apply bind_inv in Hr as (v & e2 & E2 & Hr). apply bind_inv in Hr as (spw & e3 & E3 & Hr).
  apply bind_inv in Hr as (rate & e4 & E4 & Hr). apply bind_inv in Hr as (u5 & e5 & E5 & Hr).
  apply bind_inv in Hr as (u6 & e6 & E6 & Hr).
  destruct (still_live _ _ _ _ _ still_voter E2 Hinv1 Hl1) as [Hinv2 Hl2]. run_inv.
  unfold cfg, param in *. run_inv.
  assert (voting_inv B W e5 /\ live e5 (cid_Slot id)) as [Hinv5 Hl5].
  { eapply still_live; [|exact E5|done|done]. keeps_auto. }
  destruct (inv_vstore _ _ _ _ _ Hinv5 Hl5 E6) as [Hinv6 Hl6].
  { intros s [H0' H1' H2' H3' H4' H5' H6']. by constructor. }
  by apply (inv_tryVoteFinal _ e6 u e') in Hr as [? _].
Qed.

Lemma inv_voterFinalizationObserved id : preserves (voting_inv B W) (voterFinalizationObserved id).
Proof.
  unfold voterFinalizationObserved, modify_voter, voter. intros e u e' [Hcf Hinv] Hr. run_inv.
  unfold voting_inv, vslots in *. rewrite E0 in Hinv. simpl in *. split; [exact Hcf|].
  destruct (notifyFinalized_keeps (cid_Slot id) (vt_slots x)) as [Hf Hk].
  intros i Hi. unfold vslot. simpl. rewrite Hk by done. apply Hinv. lia.
Qed.

(** Completing a candidate step: flags that carry no vote. *)
Lemma inv_flag i f e u e' :
  voting_inv B W e -> live e i -> vstore (Some i) f e = Some (u, e') ->
  (forall s, vs_votedNotar (f s) = vs_votedNotar s /\ vs_votedSkip (f s) = vs_votedSkip s /\
             vs_votedFinal (f s) = vs_votedFinal s) ->
  voting_inv B W e' /\ live e' i.
Proof.
  intros Hinv Hl Hst Hf. eapply inv_vstore; eauto. intros s Hsc. destruct (Hf s) as (F1 & F2 & F3).
  destruct Hsc as [H0' H1' H2' H3' H4' H5' H6']. constructor; rewrite ?F1, ?F2, ?F3; auto.
Qed.

Lemma inv_acceptCandidate c : preserves (voting_inv B W) (acceptCandidate c).
Proof.
  unfold acceptCandidate. intros e u e' Hinv Hr.
  apply bind_inv in Hr as (v & e1 & E1 & Hr). apply (pres_still _ still_voter) in E1; [|done].
  apply bind_inv in Hr as (g & e2 & E2 & Hr). apply bind_inv in Hr as (d & e3 & E3 & Hr).
  unfold param in *. run_inv. destruct (_ <=? _); [run_inv; done|].
  apply bind_inv in Hr as (p & e1 & E4 & Hr).
  destruct (inv_vslots_at _ _ _ _ E1 E4) as [Hinv1 [->|[-> Hl1]]]; [run_inv; done|].
  apply bind_inv in Hr as (s & e2 & E2 & Hr). apply vload_spec in E2 as [-> _].
  destruct (_ || _); [run_inv; done|].
  apply bind_inv in Hr as (u1 & e2 & E2 & Hr).
  destruct (inv_flag _ _ _ _ _ Hinv1 Hl1 E2) as [Hinv2 Hl2]; [done|].
  apply bind_inv in Hr as (u2 & e4 & E5 & Hr).
  destruct (still_live _ _ _ _ _ (still_modify_stats _) E5 Hinv2 Hl2) as [Hinv3 Hl3].
  apply bind_inv in Hr as (u3 & e5 & E6 & Hr).
  assert (voting_inv B W e5 /\ live e5 (cid_Slot (c_ID c))) as [Hinv4 Hl4].
  { eapply still_live; [|exact E6|done|done]. keeps_auto. }
  apply bind_inv in Hr as (u4 & e6 & E7 & Hr).
  destruct (inv_flag _ _ _ _ _ Hinv4 Hl4 E7) as [Hinv5 Hl5]; [done|].
  eapply pres_still; [|exact Hinv5|exact Hr]. keeps_auto.
Qed.

Lemma inv_onParentWaitDone c out : preserves (voting_inv B W) (onParentWaitDone c out).
Proof.
  unfold onParentWaitDone. intros e u e' Hinv Hr. apply bind_inv in Hr as (v & e1 & E1 & Hr). run_inv.
  destruct (e_voter e1); [|run_inv; done].
  destruct (pw_misb out); [by apply (pres_still _ (still_misbehavior _ _)) in Hr|].
  destruct (pw_err out); [run_inv; done|].
  apply bind_inv in Hr as (p & e2 & E2 & Hr).
  destruct (inv_vslots_at _ _ _ _ Hinv E2) as [Hinv1 [->|[-> Hl1]]]; [run_inv; done|].
  apply bind_inv in Hr as (s & e3 & E3 & Hr). apply vload_spec in E3 as [-> _].
  destruct (_ || _); [run_inv; done|]. destruct (vs_validationInFlight s); [run_inv; done|].
  apply bind_inv in Hr as (u1 & e3 & E3 & Hr).
  destruct (inv_flag _ _ _ _ _ Hinv1 Hl1 E3) as [Hinv2 Hl2]; [done|].
  by apply (pres_still _ (still_enqueue _)) in Hr.
Qed.

Lemma inv_completeValidation id vd : preserves (voting_inv B W) (completeValidation id vd).
Proof.
  unfold completeValidation. intros e u e' Hinv Hr. apply bind_inv in Hr as (v & e1 & E1 & Hr). run_inv.
  destruct (e_voter e1); [|run_inv; done]. apply bind_inv in Hr as (p & e2 & E2 & Hr).
  destruct (inv_vslots_at _ _ _ _ Hinv E2) as [Hinv1 [->|[-> Hl1]]]; [run_inv; done|].
  apply bind_inv in Hr as (s & e3 & E3 & Hr). apply vload_spec in E3 as [-> _].
  destruct (_ || _); [run_inv; done|]. apply bind_inv in Hr as (u1 & e3 & E3 & Hr).
  destruct (inv_flag _ _ _ _ _ Hinv1 Hl1 E3) as [Hinv2 Hl2]; [done|].
  destruct vd; [|by apply (pres_still _ (still_modify_stats _)) in Hr..].
  apply bind_inv in Hr as (u2 & e4 & E4 & Hr).
  destruct (inv_flag _ _ _ _ _ Hinv2 Hl2 E4) as [Hinv3 Hl3]; [done|]. by eapply inv_maybeVoteNotar.
Qed.

Lemma inv_completeStore id ok : preserves (voting_inv B W) (completeStore id ok).
Proof.
  unfold completeStore. intros e u e' Hinv Hr. apply bind_inv in Hr as (v & e1 & E1 & Hr). run_inv.
  destruct (e_voter e1); [|run_inv; done]. apply bind_inv in Hr as (p & e2 & E2 & Hr).
  destruct (inv_vslots_at _ _ _ _ Hinv E2) as [Hinv1 [->|[-> Hl1]]]; [run_inv; done|].
  apply bind_inv in Hr as (s & e3 & E3 & Hr). apply vload_spec in E3 as [-> _].
  destruct (_ || _); [run_inv; done|]. apply bind_inv in Hr as (u1 & e3 & E3 & Hr).
  destruct (inv_flag _ _ _ _ _ Hinv1 Hl1 E3) as [Hinv2 Hl2]; [done|].
  destruct ok; [|by apply (pres_still _ (still_fatal _)) in Hr]. simpl in Hr.
  apply bind_inv in Hr as (u2 & e4 & E4 & Hr).
  destruct (inv_flag _ _ _ _ _ Hinv2 Hl2 E4) as [Hinv3 Hl3]; [done|]. by eapply inv_maybeVoteNotar.
Qed.

End VoterProofs.

(** ** Recovery *)

(** The votes a journal holds when each was saved before the next was issued:
    no two conflict, and a finalize vote follows the notarize vote of its
    candidate. *)
Record wf_votes (V : list Vote) : Prop := {
  wv_conflict_free : conflict_free V;
  wv_finalize : forall P v R, V = P ++ v :: R -> v_Kind v = VoteFinalize -> NotarizeVote (v_ID v) ∈ P }.

(** The flags of a recovered slot come from the votes read so far. *)
Record slot_recovered (P : list Vote) (i : Z) (s : voterSlot) : Prop := {
  sr_covers : slot_covers P [] i s;
  sr_notar : forall id, vs_votedNotar s = Some id ->
    exists v, v ∈ P /\ Vote_Slot v = i /\ v_Kind v = VoteNotarize /\ v_ID v = id;
  sr_final : vs_votedFinal s = true -> exists v, v ∈ P /\ Vote_Slot v = i /\ v_Kind v = VoteFinalize;
  sr_skip : vs_votedSkip s = true -> exists v, v ∈ P /\ Vote_Slot v = i /\ v_Kind v = VoteSkip }.

(** Votes of other slots do not matter. *)
Lemma slot_recovered_snoc P v i s : Vote_Slot v <> i -> slot_recovered P i s -> slot_recovered (P ++ [v]) i s.
Proof.
  intros Hv [Hc Hn Hf Hs]. constructor.
  - eapply slot_covers_ext; [|exact Hc]. intros w Hw. rewrite elem_of_app, list_elem_of_singleton. naive_solver.
  - intros id (w & ? & ?)%Hn. exists w. rewrite elem_of_app. auto.
  - intros (w & ? & ?)%Hf. exists w. rewrite elem_of_app. auto.
  - intros (w & ? & ?)%Hs. exists w. rewrite elem_of_app. auto.
Qed.

(** What an accepted record does to its slot. *)
Definition recover (v : Vote) (s : voterSlot) : voterSlot :=
  match v_Kind v with
  | VoteNotarize => s <| vs_votedNotar := Some (v_ID v) |>
  | VoteFinalize => s <| vs_votedFinal := true |>
  | VoteSkip => s <| vs_votedSkip := true |>
  | VoteKindOther _ => s
  end.

(** Records of a well-formed journal are accepted... *)
Lemma recover_accepts P v R s :
  wf_votes (P ++ v :: R) -> slot_recovered P (Vote_Slot v) s ->
  match v_Kind v with
  | VoteNotarize => vs_votedNotar s = None \/ vs_votedNotar s = Some (v_ID v)
  | VoteFinalize => vs_votedSkip s = false /\ vs_votedNotar s = Some (v_ID v)
  | VoteSkip => vs_votedFinal s = false
  | VoteKindOther _ => True
  end.
Proof.
  intros [Hcf Hfin] [Hc Hn Hf Hs].
  assert (forall w, w ∈ P -> ~ conflicting w v) as Hw.
  { intros w Hw. apply Hcf; rewrite elem_of_app, ?elem_of_cons; auto. }
  destruct (v_Kind v) eqn:Ek; [| | |done].
  - destruct (vs_votedNotar s) as [id|]; [right|by left].
    destruct (Hn id eq_refl) as (w & Hin & Hsl & Hk & <-). f_equal. apply dec_stable. intros Hne.
    apply (Hw w Hin). unfold conflicting. by rewrite Hk, Ek.
  - split.
    + destruct (vs_votedSkip s); [|done]. destruct (Hs eq_refl) as (w & Hin & Hsl & Hk).
      destruct (Hw w Hin). unfold conflicting. by rewrite Hk, Ek.
    + pose proof (Hfin P v R eq_refl Ek) as Hin. by apply (sc_notar _ _ _ _ Hc) in Hin.
  - destruct (vs_votedFinal s); [|done]. destruct (Hf eq_refl) as (w & Hin & Hsl & Hk).
    destruct (Hw w Hin). unfold conflicting. by rewrite Hk, Ek.
Qed.

(** ... and accounted for. *)
Lemma slot_recovered_step P v R s :
  wf_votes (P ++ v :: R) -> slot_recovered P (Vote_Slot v) s ->
  slot_recovered (P ++ [v]) (Vote_Slot v) (recover v s).
Proof.
  intros Hwf Hr. pose proof (recover_accepts _ _ _ _ Hwf Hr) as Hacc. destruct Hr as [[H0 H1 H2 H3 H4 H5 H6] Hn Hf Hs].
  assert (v ∈ P ++ [v]) as Hin by (rewrite elem_of_app, list_elem_of_singleton; auto).
  assert (forall Q : Vote -> Prop, (exists w, w ∈ P /\ Q w) -> exists w, w ∈ P ++ [v] /\ Q w) as Hex.
  { intros Q (w & Hw & HQ). exists w. rewrite elem_of_app. auto. }
  unfold recover. destruct (v_Kind v) eqn:Ek; constructor; try constructor; simpl; auto;
    try (intros w [Hw| ->%list_elem_of_singleton]%elem_of_app Hsl Hk;
         [specialize (H3 w Hw Hsl Hk) || specialize (H4 w Hw Hsl Hk) || specialize (H5 w Hw Hsl Hk)|];
         clear Hex Hn Hf Hs Hwf H0 H1 H2 H6; intuition congruence).
  - by intros id [= <-].
  - intros id [= <-]. eauto.
  - by destruct Hacc.
  - by destruct Hacc as [_ ->].
  - eauto.
  - congruence.
  - eauto.
Qed.

Section Recovery.
Context `{TLRuntime} `{Ed25519} `{Machine} `{Environment}.

Definition recovered (P : list Vote) (e : Engine) : Prop :=
  issued e = [] /\ exists m, vslots e = Some m /\ firstNonFinalized m = 0 /\
    forall i, 0 <= i -> slot_recovered P i (vslot m i).

Lemma slot_recovered_new i : slot_recovered [] i newVoterSlot.
Proof. constructor; [apply slot_covers_new|..]; simpl; try done. by intros v ?%elem_of_nil. Qed.

Lemma recovered_other P v e m m' e' :
  recovered P e -> issued e' = issued e -> vslots e = Some m -> vslots e' = Some m' ->
  firstNonFinalized m' = firstNonFinalized m -> (forall j, j <> Vote_Slot v -> vslot m' j = vslot m j) ->
  (0 <= Vote_Slot v -> slot_recovered (P ++ [v]) (Vote_Slot v) (vslot m' (Vote_Slot v))) ->
  recovered (P ++ [v]) e'.
Proof.
  intros [Hiss (m0 & Hm0 & Hf & Hrec)] Hi Hm Hm' Hf' Hne Hv. simplify_eq. split; [congruence|].
  exists m'. split_and!; [done|congruence|]. intros i Hi0. destruct (decide (i = Vote_Slot v)) as [->|N]; [auto|].
  rewrite Hne by done. apply slot_recovered_snoc; auto.
Qed.

Lemma bootstrap_vote_recovers P v R :
  wf_votes (P ++ v :: R) -> ptriple (recovered P) (bootstrap_vote v) (fun _ => recovered (P ++ [v])).
Proof.
  intros Hwf e u e' Hrec (p & e1 & E1 & Hr)%bind_inv.
  apply vslots_at_spec in E1 as (m & m1 & Hm & Hm1 & Hiss1 & _ & Hf1 & Hj & Hp).
  pose proof Hrec as [_ (m0 & Hm0 & Hf0 & Hslots)]. rewrite Hm in Hm0. injection Hm0 as <-.
  destruct p as [j|]; [destruct Hp as (-> & Hlow & Hs)|run_inv; eapply recovered_other; eauto; lia].
  apply bind_inv in Hr as (s & e2 & E2 & Hr). apply vload_spec in E2 as (-> & i & m2 & [= <-] & Hm2 & Hs2).
  rewrite Hm1 in Hm2. injection Hm2 as <-. rewrite Hs in Hs2. injection Hs2 as <-.
  set (s := vslot m (Vote_Slot v)) in *.
  assert (slot_recovered P (Vote_Slot v) s) as Hrs by (apply Hslots; lia).
  assert (e' = e1 /\ recover v s = s \/ vstore (Some (Vote_Slot v)) (recover v) e1 = Some (u, e')) as Hstep.
  { pose proof (recover_accepts _ _ _ s Hwf Hrs) as Hacc. unfold recover.
    destruct (v_Kind v) eqn:Ek; [right|right|right|left; by run_inv].
    - destruct Hacc as [Ha|Ha]; rewrite Ha in Hr; [done|]. by rewrite bool_decide_true in Hr.
    - destruct Hacc as [Ha Ha']. rewrite Ha, Ha' in Hr. by rewrite bool_decide_true in Hr.
    - by rewrite Hacc in Hr. }
  pose proof (slot_recovered_step _ _ _ _ Hwf Hrs) as Hnew.
  destruct Hstep as [[-> Hsame]|Hst].
  - eapply recovered_other; eauto. intros _. rewrite Hj. fold s. by rewrite <- Hsame.
  - apply vstore_spec in Hst as (i & m3 & s3 & m' & [= <-] & Hm3 & Hs3 & Hm' & Hiss' & _ & Hf' & Hs' & Hne).
    rewrite Hm1 in Hm3. injection Hm3 as <-. rewrite Hs in Hs3. injection Hs3 as <-.
    eapply recovered_other; eauto; [congruence..| |].
    + intros j Hjne. by rewrite Hne, Hj.
    + intros _. unfold vslot at 1. by rewrite Hs'.
Qed.

(** Reserving one slot of the startup window. *)
Lemma inv_reserve B P i :
  ptriple (voting_inv B P)
    (p <- vslots_at i ;;
     match p with
     | None => ret tt
     | Some _ =>
         slot <- vload p ;;
         when (negb (vs_votedFinal slot)) (vstore p (fun s => s <| vs_votedSkip := true |>))
     end)
    (fun _ => voting_inv B (P ++ [i])).
Proof.
  intros e u e' Hinv (p & e1 & E1 & Hr)%bind_inv.
  assert (forall V j s, slot_covers V P j s -> (j = i -> vs_votedFinal s = true \/ vs_votedSkip s = true) ->
          slot_covers V (P ++ [i]) j s) as Hadd.
  { intros V j s [H0' H1' H2' H3' H4' H5' H6'] Hj. constructor; auto.
    intros [?| ->%list_elem_of_singleton]%elem_of_app; auto. }
  pose proof E1 as (m & m1 & Hm & Hm1 & _ & _ & Hf1 & Hj & Hp)%vslots_at_spec.
  destruct (inv_vslots_at B P i e p e1 Hinv E1) as [[Hcf Hinv1] _]. unfold voting_inv. rewrite Hm1 in Hinv1.
  destruct p as [j|]; [destruct Hp as (-> & Hlow & Hs)|].
  2: { run_inv. rewrite Hm1. split; [done|]. intros j Hlj. apply Hadd; [auto|]. lia. }
  apply bind_inv in Hr as (s & e2 & E2 & Hr). apply vload_spec in E2 as (-> & k & m2 & [= <-] & Hm2 & Hs2).
  rewrite Hm1 in Hm2. injection Hm2 as <-. destruct (vs_votedFinal s) eqn:Ef; simpl in Hr.
  - run_inv. rewrite Hm1. split; [done|]. intros j Hlj. apply Hadd; [auto|]. intros ->. unfold vslot. rewrite Hs2. auto.
  - apply vstore_spec in Hr as (k & m3 & s3 & m' & [= <-] & Hm3 & Hs3 & Hm' & Hiss' & _ & Hf' & Hs' & Hne).
    rewrite Hm1 in Hm3. injection Hm3 as <-. rewrite Hs2 in Hs3. injection Hs3 as <-.
    rewrite Hm', Hiss'. split; [done|]. intros j Hlj. destruct (decide (j = i)) as [->|N].
    + unfold vslot. rewrite Hs'. simpl. apply Hadd; [|auto].
      specialize (Hinv1 i ltac:(lia)). unfold vslot in Hinv1. rewrite Hs2 in Hinv1. simpl in Hinv1.
      destruct Hinv1 as [H0' H1' H2' H3' H4' H5' H6']. constructor; simpl; auto; congruence.
    + rewrite Hne by done. apply Hadd; [|done]. apply Hinv1. lia.
Qed.

Lemma recovered_inv B e : wf_votes B -> recovered B e -> voting_inv B [] e.
Proof.
  intros [Hcf _] [Hiss (m & Hm & Hf & Hr)]. unfold voting_inv. rewrite Hiss, Hm, app_nil_r.
  split; [done|]. intros i Hi. apply sr_covers, Hr. lia.
Qed.

Lemma bootstrapVoter_inv B e u e' :
  wf_votes B -> recovered [] e -> e_started e = false -> bootstrapVoter B e = Some (u, e') ->
  voting_inv B (startup_window e) e'.
Proof.
  intros Hwf Hrec Hns Hr. unfold bootstrapVoter in Hr. apply bind_inv in Hr as (u1 & e1 & E1 & Hr).
  pose proof (same_bootstrap_loop B e u1 e1 E1) as [_ Hw]. rewrite <- Hw by done.
  assert (voting_inv B [] e1) as Hinv.
  { apply recovered_inv; [done|]. eapply (ptriple_for_each_prefix recovered B bootstrap_vote); [|exact Hrec|exact E1].
    intros P v R HB. apply (bootstrap_vote_recovers P v R). by rewrite <- HB. }
  unfold startup_window. apply bind_inv in Hr as (fna & e2 & [= <- <-] & Hr).
  apply bind_inv in Hr as (spw & e3 & [= <- <-] & Hr).
  destruct (_ =? 0); [by run_inv|].
  revert Hinv Hr. apply (ptriple_for_each_prefix (voting_inv B)). intros P i R _. apply inv_reserve.
Qed.

Lemma startup_window_casts e :
  let fna := pl_firstNonAnnouncedWindow (e_pool e) in let spw := g_spw (e_cfg e) in
  fna <> 0 ->
  range ((fna -₃₂ 1) *₃₂ spw) ((fna -₃₂ 1 +₃₂ 1) *₃₂ spw) = startup_window e.
Proof.
  intros fna spw Hf. unfold startup_window. fold fna spw. rewrite (proj2 (Z.eqb_neq _ _) Hf). unfold u32.
  rewrite Z.mul_mod_idemp_l, Zminus_mod_idemp_l, Z.add_mod_idemp_l, Z.mul_mod_idemp_l by done.
  f_equal; f_equal; lia.
Qed.

Lemma inv_startup_skip B W i :
  i ∈ W ->
  ptriple (voting_inv B W)
    (p <- vslots_at i ;;
     match p with
     | None => ret tt
     | Some _ => slot <- vload p ;; when (negb (vs_votedFinal slot)) (castVote (SkipVote i) false)
     end)
    (fun _ => voting_inv B W).
Proof.
  intros HW e u e' Hinv (p & e1 & E1 & Hr)%bind_inv.
  destruct (inv_vslots_at B W i e p e1 Hinv E1) as [Hinv1 [->|[-> Hl]]]; [by run_inv|].
  apply bind_inv in Hr as (s & e2 & E2 & Hr).
  destruct (live_vload B W i e1 s e2 Hinv1 Hl E2) as (-> & Hsc & m & Hm & Hs).
  destruct (vs_votedFinal s) eqn:Ef; simpl in Hr; [by run_inv|].
  assert (vs_votedSkip s = true) as Hsk by (destruct (sc_reserved _ _ _ _ Hsc HW); congruence).
  eapply inv_cast; eauto.
  - eapply castable_conflict_free; [apply Hinv1|exact Hsc|done|done].
  - intros m0 Hm0. simplify_eq. unfold vslot. rewrite Hs. simpl. pose proof (skip_covers W _ i s Hsc Ef) as Hsc'.
    destruct Hsc' as [H0' H1' H2' H3' H4' H5' H6']. constructor; simpl in *; auto; congruence.
Qed.

Lemma castStartupWindowSkips_inv B e u e' :
  voting_inv B (startup_window e) e -> castStartupWindowSkips e = Some (u, e') ->
  voting_inv B (startup_window e) e'.
Proof.
  intros Hinv Hr. unfold castStartupWindowSkips in Hr.
  apply bind_inv in Hr as (fna & e2 & [= <- <-] & Hr). apply bind_inv in Hr as (spw & e3 & [= <- <-] & Hr).
  destruct (Z.eqb_spec (pl_firstNonAnnouncedWindow (e_pool e)) 0) as [|N]; [by run_inv|].
  cbv zeta in Hr. rewrite (startup_window_casts e N) in Hr. revert Hinv Hr.
  apply ptriple_for_each. intros i Hi. by apply inv_startup_skip.
Qed.


Lemma recovery_inv bs e u e' :
  wf_votes (bs_OurVotes bs) -> fresh e -> recovery bs e = Some (u, e') ->
  voting_inv (bs_OurVotes bs) (startup_window e') e'.
Proof.
  intros Hwf [Hlog _ Hns Hv] (u1 & e1 & [= <- <-] & Hr)%bind_inv.
  apply bind_inv in Hr as (v & e2 & [= <- <-] & Hr). set (e1 := e <| e_pool := _ |>) in *.
  assert (vslots e1 = vslots e /\ issued e1 = issued e /\ e_started e1 = e_started e) as (Hv1 & Hi1 & Hs1) by done.
  assert (issued e = []) as Hiss by (unfold issued; by rewrite Hlog).
  assert (vslots e = vt_slots <$> e_voter e) as Hvt by done. rewrite Hvt in Hv1.
  destruct (e_voter e) as [v|] eqn:Ev; simpl in Hr.
  - destruct (same_bootstrapVoter _ _ _ _ Hr) as [Hs' Hw']. rewrite Hw' by congruence.
    apply (bootstrapVoter_inv _ e1 u e'); [done| |congruence|done]. split; [congruence|]. exists newSlotMap.
    split_and!; [|done|intros; apply slot_recovered_new]. destruct Hv as [Hv|Hv]; rewrite Hvt in Hv; [done|by rewrite Hv1].
  - injection Hr as <- <-. unfold voting_inv. rewrite Hv1. simpl. rewrite Hi1, Hiss, app_nil_r. split; [apply Hwf|done].
Qed.

Lemma pres_finishVoteCast B W v r : preserves (voting_inv B W) (finishVoteCast v r).
Proof.
  unfold finishVoteCast. apply preserves_bind; [apply pres_still; keeps_auto|intros [vt|]]; [|apply pres_still; keeps_auto].
  apply preserves_bind; [apply pres_still; keeps_auto|intros payload].
  apply preserves_bind; [apply pres_still; keeps_auto|intros [sig|]]; [|apply pres_still; keeps_auto].
  apply preserves_bind; [by intros e a e' Hinv [= <- <-]|intros _]. apply pres_still. keeps_auto.
Qed.

Lemma voting_invariant B : wf_votes B -> voter_invariant B (voting_inv B) (fun _ _ => True).
Proof.
  intros Hwf. constructor; [constructor; [constructor|..]|..]; intros.
  - by eapply voting_still.
  - apply inv_voterNotarizationObserved.
  - apply inv_voterFinalizationObserved.
  - apply inv_onParentWaitDone.
  - apply inv_fireVoterAlarm.
  - apply inv_acceptCandidate.
  - apply inv_completeValidation.
  - apply inv_completeStore.
  - subst B. by eapply recovery_inv.
  - unfold castVote. apply preserves_bind; [apply pres_still; keeps_auto|intros f].
    apply preserves_bind; [apply pres_still; keeps_auto|intros vt].
    case_match; [apply pres_still; keeps_auto|].
    apply preserves_bind; [apply pres_still; keeps_auto|intros _]. apply pres_finishVoteCast.
  - intros e a e' (Hinv & _ & <-). by apply castStartupWindowSkips_inv.
  - by intros e a e' Hinv [= <- <-].
  - by intros e a e' [Hinv _] [= <- <-].
  - intros e a e' [Hinv _]. by apply pres_finishVoteCast.
Qed.
End Recovery.

(** ** Journal before signature *)

(** What must precede an effect of the log. *)
Definition justified (B : list Vote) (ev : Effect) (past : list Effect) : Prop :=
  match ev with
  | Signed v _ => v ∈ B \/ Completed (VoteSaved v) (JournalCompletion Saved) ∈ past
  | Completed (VoteSaved v) _ => SaveOurVote v ∈ past
  | _ => True
  end.

Fixpoint log_justified (B : list Vote) (log : list Effect) : Prop :=
  match log with
  | [] => True
  | ev :: past => justified B ev past /\ log_justified B past
  end.

Definition wal_inv (B : list Vote) (W : list Z) (e : Engine) : Prop :=
  log_justified B (e_log e) /\ forall v, VoteSaved v ∈ e_callbacks e -> SaveOurVote v ∈ e_log e.

(** The handler may cast votes, but neither signs nor completes one. *)
Record casts (e e' : Engine) : Prop := {
  ct_log : exists new, e_log e' = new ++ e_log e /\
    (forall ev, ev ∈ new -> quiet ev = true \/ exists v, ev = SaveOurVote v) /\
    (forall v, VoteSaved v ∈ e_callbacks e' -> VoteSaved v ∈ e_callbacks e \/ SaveOurVote v ∈ new) }.

#[export] Instance casts_refl : Reflexive casts.
Proof. intros e. constructor. exists []. split_and!; auto. by intros ev ?%elem_of_nil. Qed.
#[export] Instance casts_trans : Transitive casts.
Proof.
  intros a b c [(n1 & L1 & Q1 & C1)] [(n2 & L2 & Q2 & C2)]. constructor. exists (n2 ++ n1).
  rewrite L2, L1, app_assoc. split_and!; [done|intros ev [?|?]%elem_of_app; auto|].
  intros v [[?|?]%C1|?]%C2; rewrite elem_of_app; auto.
Qed.

Lemma calm_casts e e' : calm e e' -> casts e e'.
Proof.
  intros Hc. destruct (cm_log _ _ Hc) as (new & Hl & Hq). constructor. exists new. split_and!; auto.
  intros v Hv. left. by apply (cm_callbacks _ _ Hc).
Qed.

Lemma log_justified_app B new past :
  (forall ev, ev ∈ new -> quiet ev = true \/ exists v, ev = SaveOurVote v) ->
  log_justified B past -> log_justified B (new ++ past).
Proof.
  intros Hq Hp. induction new as [|ev new IH]; simpl; [done|]. split.
  - destruct (Hq ev ltac:(left)) as [Hev|[v ->]]; [|done]. by destruct ev as [| | | | | | | | |[]].
  - apply IH. intros ev' Hev'. apply Hq. by right.
Qed.

Lemma wal_casts B W e e' : casts e e' -> wal_inv B W e -> wal_inv B W e'.
Proof.
  intros [(new & Hl & Hq & Hc)] [Hj Hcb]. unfold wal_inv. rewrite Hl.
  split; [by apply log_justified_app|]. intros v [?|?]%Hc; rewrite elem_of_app; auto.
Qed.

Section Wal.
Context `{TLRuntime} `{Ed25519} `{Machine} `{Environment}.

Lemma casts_still {A} (m : M A) : keeps still m -> keeps casts m.
Proof. intros Hm e a e' E. apply calm_casts. by destruct (Hm _ _ _ E). Qed.

Lemma casts_core (f : Engine -> Engine) :
  (forall e, e_log (f e) = e_log e /\ e_callbacks (f e) = e_callbacks e) -> keeps casts (modify f).
Proof.
  intros Hf. apply keeps_modify. intros e. destruct (Hf e) as [Hl Hc]. constructor. exists [].
  rewrite Hl, Hc. split_and!; auto. by intros ev ?%elem_of_nil.
Qed.

Lemma casts_modify_voter f : keeps casts (modify_voter f).
Proof. unfold modify_voter. keeps_step; [apply casts_still; keeps_auto|]. by apply casts_core. Qed.

Ltac casts_auto :=
  repeat first [ solve [apply casts_still; keeps_auto] | apply casts_core; by intros | apply casts_modify_voter
    | solve [eauto 3 with voting nocore] | keeps_step ].

Lemma casts_save v : keeps casts (emit (SaveOurVote v) ;;; register (VoteSaved v)).
Proof.
  intros e a e' [= <- <-]. constructor. exists [SaveOurVote v]. simpl. split_and!; [done| |].
  - intros ev ->%list_elem_of_singleton. eauto.
  - intros w [?|[= ->]%list_elem_of_singleton]%elem_of_app; [auto|]. right. by apply list_elem_of_singleton.
Qed.
#[local] Hint Resolve casts_save : voting.

Lemma casts_castVote v : keeps casts (castVote v false).
Proof. unfold castVote. casts_auto. Qed.
Lemma casts_vslots_at i : keeps casts (vslots_at i).
Proof. unfold vslots_at. casts_auto. Qed.
Lemma casts_vload p : keeps casts (vload p).
Proof. unfold vload. casts_auto. Qed.
Lemma casts_vstore p f : keeps casts (vstore p f).
Proof. unfold vstore, vload. casts_auto. Qed.
#[local] Hint Resolve casts_castVote casts_vslots_at casts_vload casts_vstore : voting.
Lemma casts_tryVoteFinal p : keeps casts (tryVoteFinal p).
Proof. unfold tryVoteFinal. casts_auto. Qed.
#[local] Hint Resolve casts_tryVoteFinal : voting.
Lemma casts_maybeVoteNotar id p : keeps casts (maybeVoteNotar id p).
Proof. unfold maybeVoteNotar. casts_auto. Qed.
#[local] Hint Resolve casts_maybeVoteNotar : voting.

Lemma wal_keeps {A} B W (m : M A) : keeps casts m -> preserves (wal_inv B W) m.
Proof. intros Hm e a e' Hw E. eapply wal_casts; [by eapply Hm|done]. Qed.

Lemma wal_finishVoteCast B W v r :
  ptriple (fun e => wal_inv B W e /\ (v ∈ B \/ Completed (VoteSaved v) (JournalCompletion Saved) ∈ e_log e))
    (finishVoteCast v r) (fun _ => wal_inv B W).
Proof.
  intros e a e' [Hw Hd] (vt & e1 & [= <- <-] & Hr)%bind_inv. destruct (e_voter e); [|by run_inv].
  apply bind_inv in Hr as (payload & e1 & E1 & Hr). apply bind_inv in Hr as (sig & e2 & E2 & Hr).
  assert (casts e e2) as Hc.
  { transitivity e1; eapply casts_still; [|exact E1| |exact E2]; keeps_auto. }
  assert (wal_inv B W e2 /\ (v ∈ B \/ Completed (VoteSaved v) (JournalCompletion Saved) ∈ e_log e2)) as [Hw2 Hd2].
  { split; [by eapply wal_casts|]. destruct Hd as [?|Hd]; [auto|right].
    destruct Hc as [(new & -> & _)]. rewrite elem_of_app. auto. }
  destruct sig as [sig|].
  - apply bind_inv in Hr as (u & e3 & [= <- <-] & Hr). eapply (wal_keeps B W); [| |exact Hr]; [casts_auto|].
    destruct Hw2 as [Hj Hcb]. split; [done|]. intros w Hin. simpl. right. by apply Hcb.
  - eapply (wal_keeps B W); [|exact Hw2|exact Hr]. casts_auto.
Qed.

Lemma casts_onParentWaitDone c out : keeps casts (onParentWaitDone c out).
Proof. unfold onParentWaitDone. casts_auto. Qed.
Lemma casts_acceptCandidate c : keeps casts (acceptCandidate c).
Proof. unfold acceptCandidate. casts_auto. Qed.
Lemma casts_notarized id : keeps casts (voterNotarizationObserved id).
Proof. unfold voterNotarizationObserved. casts_auto. Qed.
Lemma casts_alarm : keeps casts fireVoterAlarm.
Proof. unfold fireVoterAlarm. casts_auto. Qed.
Lemma casts_validation id vd : keeps casts (completeValidation id vd).
Proof. unfold completeValidation. casts_auto. Qed.
Lemma casts_storeDone id ok : keeps casts (completeStore id ok).
Proof. unfold completeStore. casts_auto. Qed.
Lemma casts_skips : keeps casts castStartupWindowSkips.
Proof. unfold castStartupWindowSkips. casts_auto. Qed.
Lemma casts_recovery bs : keeps casts (recovery bs).
Proof. unfold recovery, bootstrapVoter, bootstrap_vote. casts_auto. Qed.

Lemma wal_invariant B :
  voter_invariant B (wal_inv B) (fun v e => Completed (VoteSaved v) (JournalCompletion Saved) ∈ e_log e).
Proof.
  constructor; [constructor; [constructor|..]|..]; intros.
  - eapply wal_casts; [|done]. apply calm_casts. by destruct H3.
  - apply wal_keeps, casts_notarized.
  - apply wal_keeps, casts_modify_voter.
  - apply wal_keeps, casts_onParentWaitDone.
  - apply wal_keeps, casts_alarm.
  - apply wal_keeps, casts_acceptCandidate.
  - apply wal_keeps, casts_validation.
  - apply wal_keeps, casts_storeDone.
  - eapply wal_casts; [by eapply casts_recovery|]. destruct H4 as [Hl Hc _ _]. unfold wal_inv. rewrite Hl, Hc.
    split; [done|]. by intros ? ?%elem_of_nil.
  - unfold castVote. intros e a e' Hw (f & e1 & [= <- <-] & Hr)%bind_inv.
    apply bind_inv in Hr as (vt & e1 & [= <- <-] & Hr). case_match; [by run_inv|].
    apply bind_inv in Hr as (u & e1 & E1 & Hr). eapply wal_finishVoteCast; [|exact Hr]. split; [|by left].
    eapply (wal_keeps B W); [|exact Hw|exact E1]. casts_auto.
  - intros e a e' (Hw & _ & _) E. eapply wal_casts; [by eapply casts_skips|done].
  - apply wal_keeps. casts_auto.
  - intros e a e' [[Hj Hcb] Hk] [= <- <-]. split; [|intros ->; by left]. split; simpl.
    + split; [|done]. by apply Hcb, (list_elem_of_lookup_2 _ k).
    + intros w Hw%list_elem_of_delete_inv. right. auto.
  - intros e a e' [Hw Hd]. apply wal_finishVoteCast. auto.
Qed.
End Wal.

(** ** Finalize after notarize *)

(** Every finalize vote follows the notarize vote of its candidate. *)
Definition ordered (V : list Vote) : Prop :=
  forall P v R, V = P ++ v :: R -> v_Kind v = VoteFinalize -> NotarizeVote (v_ID v) ∈ P.

Lemma ordered_snoc V v :
  ordered V -> (v_Kind v = VoteFinalize -> NotarizeVote (v_ID v) ∈ V) -> ordered (V ++ [v]).
Proof.
  intros HV Hv P w R E Hk. destruct R as [|x R _] using rev_ind.
  - apply app_inj_tail in E as [-> ->]. auto.
  - rewrite app_comm_cons, app_assoc in E. apply app_inj_tail in E as [-> _]. by eapply HV.
Qed.

Lemma ordered_app V N : ordered V -> (forall v, v ∈ N -> v_Kind v <> VoteFinalize) -> ordered (V ++ N).
Proof.
  revert V. induction N as [|v N IH]; intros V HV HN; [by rewrite app_nil_r|].
  replace (V ++ v :: N) with ((V ++ [v]) ++ N) by by rewrite <- app_assoc.
  apply IH; [apply ordered_snoc; [done|]|].
  - intros Hk. destruct (HN v ltac:(left) Hk).
  - intros w Hw. apply HN. by right.
Qed.

(** The notarize votes the voter's slots remember. *)
Definition notes (e : Engine) (id : CandidateID) : Prop :=
  exists m i s, vslots e = Some m /\ slots m !! i = Some s /\ vs_votedNotar s = Some id.

Definition origin_inv (B : list Vote) (W : list Z) (e : Engine) : Prop :=
  ordered (B ++ reverse (issued e)) /\
  (failed e = true \/ forall id, notes e id -> NotarizeVote id ∈ B ++ issued e).

(** The handler issues no finalize vote and remembers only what it issues. *)
Record noted (e e' : Engine) : Prop := {
  nt_dead : failed e = true -> failed e' = true;
  nt_issued : exists new, issued e' = new ++ issued e /\ (forall v, v ∈ new -> v_Kind v <> VoteFinalize) /\
    (failed e' = true \/ forall id, notes e' id -> notes e id \/ NotarizeVote id ∈ new) }.

#[export] Instance noted_refl : Reflexive noted.
Proof. intros e. constructor; [done|]. exists []. split_and!; auto. by intros v ?%elem_of_nil. Qed.
#[export] Instance noted_trans : Transitive noted.
Proof.
  intros a b c [D1 (n1 & I1 & F1 & N1)] [D2 (n2 & I2 & F2 & N2)]. constructor; [auto|].
  exists (n2 ++ n1). rewrite I2, I1, app_assoc. split_and!; [done|intros v [?|?]%elem_of_app; auto|].
  destruct N2 as [?|N2]; [auto|]. destruct N1 as [?|N1]; [auto|]. right.
  intros id [[?|?]%N1|?]%N2; rewrite elem_of_app; auto.
Qed.

Lemma origin_noted B W e e' : noted e e' -> origin_inv B W e -> origin_inv B W e'.
Proof.
  intros [Hd (new & Hi & Hf & Hn)] [Ho Hnotes]. unfold origin_inv. rewrite Hi, reverse_app, app_assoc. split.
  - apply ordered_app; [done|]. intros v Hv. apply Hf. by rewrite <- elem_of_reverse.
  - destruct Hn as [?|Hn]; [auto|]. destruct Hnotes as [?|Hnotes]; [auto|]. right.
    intros id [Hid%Hnotes|?]%Hn; [|set_solver]. apply elem_of_app in Hid as [?|?]; set_solver.
Qed.

Lemma calm_noted e e' : calm e e' -> noted e e'.
Proof.
  intros Hc. constructor; [apply Hc|]. exists []. rewrite (calm_issued _ _ Hc).
  split_and!; [done|by intros v ?%elem_of_nil|]. right. unfold notes. rewrite (cm_vslots _ _ Hc). auto.
Qed.

Section Origin.
Context `{TLRuntime} `{Ed25519} `{Machine} `{Environment}.

Definition remembers (m : slotMap voterSlot) (id : CandidateID) : Prop :=
  exists i s, slots m !! i = Some s /\ vs_votedNotar s = Some id.

Lemma remembers_vslot m id : remembers m id <-> exists j, vs_votedNotar (vslot m j) = Some id.
Proof.
  unfold remembers, vslot. split.
  - intros (i & s & Hs & Hid). exists i. by rewrite Hs.
  - intros [j Hj]. destruct (slots m !! j) as [s|] eqn:Es; [|done]. eauto.
Qed.

Lemma notes_remembers e id : notes e id <-> exists m, vslots e = Some m /\ remembers m id.
Proof. unfold notes, remembers. naive_solver. Qed.

Lemma noted_still {A} (m : M A) : keeps still m -> keeps noted m.
Proof. intros Hm e a e' E. apply calm_noted. by destruct (Hm _ _ _ E). Qed.

Lemma noted_slots e e' m' :
  failed e' = failed e -> issued e' = issued e -> vslots e' = Some m' ->
  (forall id, remembers m' id -> notes e id) -> noted e e'.
Proof.
  intros Hf Hi Hm' Hr. constructor; [congruence|]. exists []. rewrite Hi.
  split_and!; [done|by intros v ?%elem_of_nil|]. right. intros id (m & Hm & Hid)%notes_remembers.
  left. apply Hr. congruence.
Qed.

Lemma noted_modify_voter f :
  (forall v id, remembers (vt_slots (f v)) id -> remembers (vt_slots v) id) -> keeps noted (modify_voter f).
Proof.
  intros Hf e a e' Hr. unfold modify_voter, voter in Hr. run_inv.
  apply (noted_slots _ _ (vt_slots (f x))); try done. intros id Hid. apply notes_remembers.
  exists (vt_slots x). unfold vslots. rewrite E0. split; [done|]. by apply Hf.
Qed.

Ltac noted_auto :=
  repeat first [ solve [apply noted_still; keeps_auto] | solve [eauto 3 with voting nocore]
    | solve [apply noted_modify_voter; by intros] | keeps_step ].

Lemma remembers_alter f i m id :
  (forall s, vs_votedNotar (f s) = vs_votedNotar s) -> remembers (sm_alter f i m) id -> remembers m id.
Proof.
  intros Hf (j & s & Hj & Hs). unfold sm_alter in Hj. simpl in Hj. rewrite lookup_alter in Hj. case_decide.
  - apply fmap_Some in Hj as (s0 & Hj & ->). rewrite Hf in Hs. subst. by exists j, s0.
  - by exists j, s.
Qed.

Lemma noted_vslots_at i : keeps noted (vslots_at i).
Proof.
  intros e p e' Hr. destruct (vslots_at_spec _ _ _ _ Hr) as (m & m' & Hm & Hm' & Hiss & _ & _ & Hj & _).
  apply (noted_slots _ _ m'); [|done|done|].
  - unfold vslots_at, modify_voter, voter in Hr. by run_inv.
  - intros id [j Hid]%remembers_vslot. apply notes_remembers. exists m. split; [done|].
    apply remembers_vslot. exists j. by rewrite <- Hj.
Qed.
Lemma noted_vload p : keeps noted (vload p).
Proof. unfold vload. noted_auto. Qed.
Lemma noted_vstore p f : (forall s, vs_votedNotar (f s) = vs_votedNotar s) -> keeps noted (vstore p f).
Proof.
  intros Hf. unfold vstore, vload. noted_auto. apply noted_modify_voter. intros v id. by apply remembers_alter.
Qed.

(** A failed engine casts nothing. *)
Lemma castVote_failed v e u e' :
  castVote v false e = Some (u, e') ->
  failed e' = failed e /\ vslots e' = vslots e /\
  (failed e = true \/ vslots e = None) /\ issued e' = issued e \/
  failed e' = failed e /\ vslots e' = vslots e /\ failed e = false /\ issued e' = v :: issued e.
Proof.
  unfold castVote. intros (f & e1 & [= <- <-] & Hr)%bind_inv. apply bind_inv in Hr as (vt & e1 & [= <- <-] & Hr).
  destruct (failed e) eqn:Ef; simpl in Hr; [injection Hr as <- <-; auto 6|].
  destruct (e_voter e) as [vt|] eqn:Ev; simpl in Hr; [|injection Hr as <- <-; unfold vslots; rewrite Ev; auto 6].
  apply bind_inv in Hr as (u1 & e1 & E1 & Hr). injection Hr as <- <-. right.
  assert (calm e e1) as Hc by (by eapply still_trace).
  split_and!; [|apply Hc|done|by rewrite <- (calm_issued _ _ Hc)]. rewrite <- Ef. clear Ef Ev Hc.
  unfold trace, cfg in E1. apply bind_inv in E1 as (t & e2 & [= <- <-] & Hr).
  destruct (g_tracer _); [|by injection Hr as <- <-]. by injection Hr as <- <-.
Qed.

Lemma noted_castVote v : v_Kind v <> VoteFinalize -> keeps noted (castVote v false).
Proof.
  intros Hv e u e' [(Hf & Hvs & _ & Hi)|(Hf & Hvs & _ & Hi)]%castVote_failed; (constructor; [congruence|]).
  - exists []. split_and!; [done|by intros w ?%elem_of_nil|]. right. unfold notes. rewrite Hvs. auto.
  - exists [v]. split_and!; [done|by intros w ->%list_elem_of_singleton|]. right. unfold notes. rewrite Hvs. auto.
Qed.
#[local] Hint Resolve noted_vslots_at noted_vload : voting.
#[local] Hint Extern 1 (keeps noted (vstore _ _)) => by apply noted_vstore : voting.
#[local] Hint Extern 1 (keeps noted (castVote _ _)) => by apply noted_castVote : voting.

Lemma origin_keeps {A} B W (m : M A) : keeps noted m -> preserves (origin_inv B W) m.
Proof. intros Hm e a e' Ho E. eapply origin_noted; [by eapply Hm|done]. Qed.

Lemma origin_tryVoteFinal B W p : preserves (origin_inv B W) (tryVoteFinal p).
Proof.
  unfold tryVoteFinal. intros e u e' Ho (s & e1 & E1 & Hr)%bind_inv.
  apply vload_spec in E1 as (-> & i & m & -> & Hm & Hs).
  destruct (vs_votedNotar s) as [n|] eqn:En; [|by run_inv]. destruct (vs_notarCert s); [|by run_inv].
  case_match; [|by run_inv]. apply bind_inv in Hr as (u1 & e1 & E1 & Hr).
  eapply (origin_keeps B W); [|clear Hr|exact Hr]; [noted_auto|].
  apply castVote_failed in E1 as [(Hf & Hvs & [Hd|Hd] & Hi)|(Hf & Hvs & Hd & Hi)]; [|congruence|];
    unfold origin_inv; rewrite Hi, Hf.
  - split; [apply Ho|auto].
  - assert (NotarizeVote n ∈ B ++ issued e) as Hn.
    { destruct Ho as [_ [?|Hn]]; [congruence|]. apply Hn. exists m, i, s. auto. }
    rewrite reverse_cons, app_assoc. split.
    + apply ordered_snoc; [apply Ho|]. intros _. set_solver.
    + right. unfold notes. rewrite Hvs. intros id Hid. destruct Ho as [_ [?|Ho]]; [congruence|].
      specialize (Ho id Hid). set_solver.
Qed.

Lemma origin_maybeVoteNotar B W id p : preserves (origin_inv B W) (maybeVoteNotar id p).
Proof.
  unfold maybeVoteNotar. apply preserves_bind; [apply origin_keeps; noted_auto|intros s].
  case_match; [apply origin_keeps; noted_auto|].
  intros e u e' Ho (u1 & e1 & E1 & Hr)%bind_inv. apply bind_inv in Hr as (u2 & e2 & E2 & Hr).
  eapply origin_tryVoteFinal; [|exact Hr]. eapply origin_noted; [|exact Ho]. clear Hr Ho.
  assert (failed e1 = failed e) as Hf1 by (unfold vstore, vload, modify_voter, voter in E1; by run_inv).
  apply vstore_spec in E1 as (i & m & s0 & m' & _ & Hm & _ & Hm' & Hiss & _ & _ & Hs' & Hne).
  assert (forall id', remembers m' id' -> remembers m id' \/ id' = id) as Hrem.
  { intros id' [j Hj]%remembers_vslot. destruct (decide (j = i)) as [->|N].
    - unfold vslot in Hj. rewrite Hs' in Hj. simpl in Hj. right. congruence.
    - left. apply remembers_vslot. exists j. by rewrite <- Hne. }
  apply castVote_failed in E2 as [(Hf & Hvs & [Hd|Hd] & Hi)|(Hf & Hvs & Hd & Hi)]; [|congruence|];
    (constructor; [congruence|]).
  - exists []. rewrite Hi. split_and!; [done|by intros v ?%elem_of_nil|left; congruence].
  - exists [NotarizeVote id]. rewrite Hi, Hiss. split_and!; [done|by intros v ->%list_elem_of_singleton|right].
    intros id' (m2 & Hm2 & Hid)%notes_remembers. rewrite Hvs, Hm' in Hm2. injection Hm2 as <-.
    destruct (Hrem id' Hid) as [?| ->]; [left; apply notes_remembers; eauto|right; by left].
Qed.

Ltac origin_auto :=
  repeat first [ solve [apply origin_keeps; noted_auto] | apply origin_tryVoteFinal | apply origin_maybeVoteNotar
    | match goal with
      | |- preserves _ (bind _ _) => apply preserves_bind; [|intros]
      | |- preserves _ (match ?x with _ => _ end) => destruct x
      end ].

Lemma noted_finalized id : keeps noted (voterFinalizationObserved id).
Proof.
  apply noted_modify_voter. intros v id'. simpl. unfold remembers, sm_notifyFinalized.
  case_match; [done|]. case_match; simpl; intros (i & s & Hi & Hs); exists i, s; (split; [|done]).
  - rewrite lookup_delete_keys in Hi. by case_decide.
  - by apply map_lookup_filter_Some in Hi as [? _].
Qed.

Lemma noted_event ev : issued_of ev = None -> keeps noted (emit ev).
Proof.
  intros Hev e a e' [= <- <-]. constructor; [done|]. exists []. split_and!; [|by intros v ?%elem_of_nil|auto].
  unfold issued. simpl. by rewrite Hev.
Qed.
#[local] Hint Extern 1 (keeps noted (emit _)) => by apply noted_event : voting.

Lemma noted_finishVoteCast v r : keeps noted (finishVoteCast v r).
Proof. unfold finishVoteCast. noted_auto. Qed.
#[local] Hint Resolve noted_finishVoteCast noted_finalized : voting.

(** During recovery the slots remember journal records only. *)
Definition recalls (B : list Vote) (e : Engine) : Prop :=
  issued e = [] /\ forall id, notes e id -> NotarizeVote id ∈ B.

Lemma recalls_vslots_at B i : preserves (recalls B) (vslots_at i).
Proof.
  intros e p e' [Hi Hn] (m & m' & Hm & Hm' & Hiss & _ & _ & Hj & _)%vslots_at_spec. split; [congruence|].
  intros id (m0 & Hm0 & [j Hid]%remembers_vslot)%notes_remembers. rewrite Hm' in Hm0. injection Hm0 as <-.
  apply Hn, notes_remembers. exists m. split; [done|]. apply remembers_vslot. exists j. by rewrite <- Hj.
Qed.

Lemma recalls_vload B p : preserves (recalls B) (vload p).
Proof. intros e s e' Hr [-> _]%vload_spec. done. Qed.

Lemma recalls_vstore B p f :
  (forall s id, vs_votedNotar (f s) = Some id -> vs_votedNotar s = Some id \/ NotarizeVote id ∈ B) ->
  preserves (recalls B) (vstore p f).
Proof.
  intros Hf e u e' [Hi Hn] (i & m & s & m' & _ & Hm & Hs & Hm' & Hiss & _ & _ & Hs' & Hne)%vstore_spec.
  split; [congruence|]. intros id (m0 & Hm0 & [j Hid]%remembers_vslot)%notes_remembers.
  rewrite Hm' in Hm0. injection Hm0 as <-. destruct (decide (j = i)) as [->|N].
  - unfold vslot in Hid. rewrite Hs' in Hid. destruct (Hf s id Hid) as [Hid'|?]; [|done]. apply Hn. exists m, i, s. auto.
  - apply Hn, notes_remembers. exists m. split; [done|]. apply remembers_vslot. exists j. by rewrite <- Hne.
Qed.

Lemma recalls_bootstrapVoter B : preserves (recalls B) (bootstrapVoter B).
Proof.
  unfold bootstrapVoter. apply preserves_bind; [|intros _].
  - apply ptriple_for_each. intros v Hv. unfold bootstrap_vote.
    apply preserves_bind; [apply recalls_vslots_at|intros [i|]]; [|by intros e a e' ? [= <- <-]].
    apply preserves_bind; [apply recalls_vload|intros s].
    destruct (v_Kind v) eqn:Ek; try case_match; try (by intros e a e' ? [= <- <-]); apply recalls_vstore; simpl; auto.
    intros s0 id [= <-]. right. destruct v as [k w]. simpl in *. by subst k.
  - apply preserves_bind; [by intros e a e' ? [= <- <-]|intros fna].
    apply preserves_bind; [by intros e a e' ? [= <- <-]|intros spw].
    case_match; [by intros e a e' ? [= <- <-]|]. apply ptriple_for_each. intros i _.
    apply preserves_bind; [apply recalls_vslots_at|intros [p|]]; [|by intros e a e' ? [= <- <-]].
    apply preserves_bind; [apply recalls_vload|intros s]. unfold when.
    case_match; [apply recalls_vstore; simpl; auto|by intros e a e' ? [= <- <-]].
Qed.

Lemma origin_invariant B : wf_votes B -> voter_invariant B (origin_inv B) (fun _ _ => True).
Proof.
  intros [_ Hord]. constructor; [constructor; [constructor|..]|..]; intros.
  - eapply origin_noted; [|done]. apply calm_noted. by destruct H3.
  - unfold voterNotarizationObserved. origin_auto.
  - apply origin_keeps, noted_finalized.
  - apply origin_keeps. unfold onParentWaitDone. noted_auto.
  - apply origin_keeps. unfold fireVoterAlarm. noted_auto.
  - apply origin_keeps. unfold acceptCandidate. noted_auto.
  - unfold completeValidation. origin_auto.
  - unfold completeStore. origin_auto.
  - assert (recalls B e') as [Hi Hn].
    { unfold recovery in H5. apply bind_inv in H5 as (u1 & e1 & [= <- <-] & Hr).
      apply bind_inv in Hr as (vt & e1 & [= <- <-] & Hr). set (e1 := e <| e_pool := _ |>) in *.
      assert (recalls B e1) as Hrc.
      { destruct H4 as [Hl _ _ Hv]. split; [unfold issued; change (e_log e1) with (e_log e); by rewrite Hl|].
        intros id (m & Hm & Hid)%notes_remembers. change (vslots e1) with (vslots e) in Hm.
        destruct Hv as [Hv|Hv]; [congruence|]. rewrite Hv in Hm. injection Hm as <-. destruct Hid as (i & s & Hi & _).
        simpl in Hi. by rewrite lookup_empty in Hi. }
      unfold when in Hr. case_match; [|by injection Hr as <- <-]. subst B. by eapply recalls_bootstrapVoter. }
    unfold origin_inv. rewrite Hi, !app_nil_r. split; [done|auto].
  - apply origin_keeps. unfold castVote. noted_auto.
  - intros e a e' (Ho & _ & _) E. eapply (origin_keeps B W); [|exact Ho|exact E].
    unfold castStartupWindowSkips. noted_auto.
  - intros e a e' [Ho Hn] [= <- <-]. done.
  - intros e a e' [Ho _] E. split; [|done]. eapply (origin_keeps B W); [|exact Ho|exact E]. noted_auto.
  - intros e a e' [Ho _] E. eapply (origin_keeps B W); [|exact Ho|exact E]. noted_auto.
Qed.
End Origin.

(** ** Voting safety of one run *)

Lemma elem_of_issued e v : v ∈ issued e <-> SaveOurVote v ∈ e_log e.
Proof.
  unfold issued. rewrite list_elem_of_omap. split.
  - intros (ev & Hev & E). by destruct ev; simplify_eq/=.
  - intros Hv. by exists (SaveOurVote v).
Qed.

Section Run.
Context `{TLRuntime} `{Ed25519} `{Machine} `{Environment}.

(** The journal's votes followed by those the run issued are again well formed. *)
Lemma reachable_wf_votes c bs e :
  wf_votes (bs_OurVotes bs) -> reachable c bs e -> wf_votes (bs_OurVotes bs ++ reverse (issued e)).
Proof.
  intros Hwf Hr.
  destruct (reachable_invariant _ _ _ (voting_invariant _ Hwf) c bs e eq_refl Hr) as [W1 [Hcf _]].
  destruct (reachable_invariant _ _ _ (origin_invariant _ Hwf) c bs e eq_refl Hr) as [W2 [Hord _]].
  constructor; [|exact Hord]. eapply conflict_free_perm; [|exact Hcf]. set_solver.
Qed.

Lemma log_justified_split B later ev past :
  log_justified B (later ++ ev :: past) -> justified B ev past /\ log_justified B past.
Proof. induction later as [|x later IH]; simpl; [done|]. by intros [_ ?%IH]. Qed.

(** A signed vote was recovered, or its save completed after it was requested. *)
Lemma reachable_signed c bs e later v sig past :
  reachable c bs e -> e_log e = later ++ Signed v sig :: past ->
  v ∈ bs_OurVotes bs \/
  exists mid old, past = mid ++ Completed (VoteSaved v) (JournalCompletion Saved) :: old /\ SaveOurVote v ∈ old.
Proof.
  intros Hr Hl. destruct (reachable_invariant _ _ _ (wal_invariant _) c bs e eq_refl Hr) as [_ [Hj _]].
  rewrite Hl in Hj. apply log_justified_split in Hj as [[?|Hin] Hp]; [by left|right].
  apply list_elem_of_split in Hin as (mid & old & ->). exists mid, old. split; [done|].
  by apply log_justified_split in Hp as [? _].
Qed.

(** The votes a run knows of: recovered, handed to the journal or signed. *)
Definition voted (bs : BootstrapState) (e : Engine) (v : Vote) : Prop :=
  v ∈ bs_OurVotes bs \/ SaveOurVote v ∈ e_log e \/ exists sig, Signed v sig ∈ e_log e.


(** C24: A vote is signed only after the journal reported its save durable, which
    itself follows the request to save it; a vote recovered from the journal is
    durable from the start. *)
Theorem journal_before_signature c bs e later v sig past :
  reachable c bs e -> e_log e = later ++ Signed v sig :: past ->
  v ∈ bs_OurVotes bs \/
  exists mid old, past = mid ++ Completed (VoteSaved v) (JournalCompletion Saved) :: old /\ SaveOurVote v ∈ old.
Proof. apply reachable_signed. Qed.
End Run.

(** ** Voting safety across restarts *)

(** The votes a run signed, and those whose save it saw completed. *)
Definition signed_of (ev : Effect) : option Vote := match ev with Signed v _ => Some v | _ => None end.
Definition signed (e : Engine) : list Vote := omap signed_of (e_log e).
Definition durable_of (ev : Effect) : option Vote :=
  match ev with Completed (VoteSaved v) (JournalCompletion Saved) => Some v | _ => None end.
Definition durable (e : Engine) : list Vote := omap durable_of (e_log e).

Lemma elem_of_durable e v : v ∈ durable e <-> Completed (VoteSaved v) (JournalCompletion Saved) ∈ e_log e.
Proof.
  unfold durable. rewrite list_elem_of_omap. split.
  - intros (ev & Hev & E). destruct ev as [| | | | | | | | |[] [[]| |]]; by simplify_eq/=.
  - intros Hv. by eexists.
Qed.

(** The journal keeps the first record of each content. *)
Definition journal_add (J : list Vote) (v : Vote) : list Vote := if decide (v ∈ J) then J else J ++ [v].
Definition journal_of (V : list Vote) : list Vote := foldl journal_add [] V.

(** What the journal may hold after a run that stopped in [e]: the saves up to
    some request, with every one reported durable. *)
Record survives (B : list Vote) (e : Engine) (J : list Vote) : Prop := {
  sv_prefix : exists n, J = journal_of (take n (B ++ reverse (issued e)));
  sv_recovered : forall v, v ∈ B -> v ∈ J;
  sv_durable : forall v, v ∈ durable e -> v ∈ J }.

Lemma journal_add_ok J v :
  ordered J -> (v_Kind v = VoteFinalize -> NotarizeVote (v_ID v) ∈ J) -> ordered (journal_add J v).
Proof. intros. unfold journal_add. case_decide; [done|]. by apply ordered_snoc. Qed.

Lemma elem_of_journal_of V v : v ∈ journal_of V <-> v ∈ V.
Proof.
  induction V as [|w V IH] using rev_ind; [done|]. unfold journal_of in *. rewrite foldl_app. simpl.
  unfold journal_add at 1. case_decide; set_solver.
Qed.

Lemma wf_journal_of V : wf_votes V -> wf_votes (journal_of V).
Proof.
  intros [Hcf Hord]. constructor.
  - eapply conflict_free_perm; [|exact Hcf]. intros v. by rewrite elem_of_journal_of.
  - change (ordered (journal_of V)). change (ordered V) in Hord. induction V as [|v V IH] using rev_ind.
    { by intros [] ? ? ?. }
    unfold journal_of. rewrite foldl_app. simpl. apply journal_add_ok.
    + apply IH; [intros a b Ha Hb; apply Hcf; set_solver|].
      intros P w R E. apply (Hord P w (R ++ [v])). by rewrite E, <- app_assoc.
    + intros Hk. apply elem_of_journal_of. by apply (Hord V v []).
Qed.

Lemma wf_votes_nil : wf_votes [].
Proof. constructor; [by intros a b ?%elem_of_nil|]. by intros [] ? ? ?. Qed.

Lemma wf_votes_prefix V n : wf_votes V -> wf_votes (take n V).
Proof.
  intros [Hcf Hord]. constructor.
  - eapply conflict_free_perm; [|exact Hcf]. intros v. apply subseteq_take.
  - intros P v R E. apply (Hord P v (R ++ drop n V)). rewrite <- (take_drop n V) at 1. rewrite E. by rewrite <- app_assoc.
Qed.

Section Lifetime.
Context `{TLRuntime} `{Ed25519} `{Machine}.

(** A validator's runs of one session, each started from what the journal kept
    of the previous ones; the clock and the signer may differ between runs.
    [history J S]: the journal holds [J] and the votes [S] were signed. *)
Inductive history : list Vote -> list Vote -> Prop :=
| history_new : history [] []
| history_run (env : Environment) J S c bs e J' :
    history J S -> bs_OurVotes bs = J -> reachable c bs e -> survives J e J' ->
    history J' (signed e ++ S).

Lemma history_safe J S : history J S -> wf_votes J /\ forall v, v ∈ S -> v ∈ J.
Proof.
  induction 1 as [|env J S c bs e J' _ [Hwf HS] HJ Hr [[n Hn] Hrec Hdur]].
  { split; [apply wf_votes_nil|]. by intros v ?%elem_of_nil. }
  split.
  - subst J'. apply wf_journal_of, wf_votes_prefix. subst J. by eapply reachable_wf_votes.
  - intros v [(ev & Hev & E)%list_elem_of_omap|?]%elem_of_app; [|by apply Hrec, HS].
    destruct ev; simplify_eq/=. apply list_elem_of_split in Hev as (later & past & Hl).
    destruct (reachable_signed c bs e later _ _ past Hr Hl) as [?|(mid & old & -> & _)]; [auto|].
    apply Hdur, elem_of_durable. rewrite Hl. set_solver.
Qed.

(** Over the whole life of a session, through any number of crashes and
    restarts, a validator never signs two conflicting votes, provided the journal
    keeps what it reported durable and loses only a suffix of the requests. *)
Theorem lifetime_no_equivocation J S v w : history J S -> v ∈ S -> w ∈ S -> ~ conflicting v w.
Proof. intros Hh Hv Hw. destruct (history_safe J S Hh) as [[Hcf _] HS]. apply Hcf; auto. Qed.
End Lifetime.

(** A journal that lost nothing. *)
Lemma survives_all `{TLRuntime} `{Ed25519} `{Machine} `{Environment} c bs e :
  reachable c bs e -> survives (bs_OurVotes bs) e (journal_of (bs_OurVotes bs ++ reverse (issued e))).
Proof.
  intros Hr. constructor.
  - exists (length (bs_OurVotes bs ++ reverse (issued e))). by rewrite take_ge.
  - intros v Hv. apply elem_of_journal_of. set_solver.
  - intros v (later & past & Hl)%elem_of_durable%list_elem_of_split. apply elem_of_journal_of.
    destruct (reachable_invariant _ _ _ (wal_invariant _) c bs e eq_refl Hr) as [_ [Hj _]].
    rewrite Hl in Hj. apply log_justified_split in Hj as [Hs _]. simpl in Hs.
    assert (v ∈ issued e) by (apply elem_of_issued; rewrite Hl; set_solver). set_solver.
Qed.

(** ** Examples *)

Module ExampleVoting.
Import ExampleTL ExampleCert ExampleRun.

Definition stop1 : Engine := final config empty in_order.
Definition journal1 : list Vote := journal_of ([] ++ reverse (issued stop1)).
Definition restart : BootstrapState := mkBootstrap 1 journal1 [].
Definition stop2 : Engine := final config restart second_candidate.

Lemma stop1_reachable : reachable config empty stop1.
Proof. apply final_reachable. vm_compute. reflexivity. Qed.
Lemma stop2_reachable : reachable config restart stop2.
Proof. apply final_reachable. vm_compute. reflexivity. Qed.

Lemma stop1_issued : issued stop1 = [FinalizeVote (id_of 17); NotarizeVote (id_of 17)].
Proof. vm_compute. reflexivity. Qed.
Lemma stop1_signed : signed stop1 = [FinalizeVote (id_of 17); NotarizeVote (id_of 17)].
Proof. vm_compute. reflexivity. Qed.
Lemma stop2_signed : signed stop2 = [FinalizeVote (id_of 17); NotarizeVote (id_of 17)].
Proof. vm_compute. reflexivity. Qed.


(** The newest effect of [stop1] that signs a vote. *)
Definition newest_signature : nat :=
  default O (fst <$> list_find (fun ev => is_Some (signed_of ev)) (e_log stop1)).
Definition its_signature : bytes :=
  match e_log stop1 !! newest_signature with Some (Signed _ sig) => sig | _ => [] end.

Lemma newest_signature_at :
  e_log stop1 !! newest_signature = Some (Signed (FinalizeVote (id_of 17)) its_signature).
Proof. vm_compute. reflexivity. Qed.

Lemma journal_before_signature_witness :
  FinalizeVote (id_of 17) ∈ bs_OurVotes empty \/
  exists mid old, drop (S newest_signature) (e_log stop1) =
      mid ++ Completed (VoteSaved (FinalizeVote (id_of 17))) (JournalCompletion Saved) :: old /\
    SaveOurVote (FinalizeVote (id_of 17)) ∈ old.
Proof.
  apply (journal_before_signature config empty stop1 (take newest_signature (e_log stop1))
           (FinalizeVote (id_of 17)) its_signature (drop (S newest_signature) (e_log stop1)) stop1_reachable).
  symmetry. apply take_drop_middle, newest_signature_at.
Defined.

Lemma lifetime_no_equivocation_witness :
  exists J, history J (signed stop2 ++ signed stop1 ++ []) /\
    ~ conflicting (FinalizeVote (id_of 17)) (NotarizeVote (id_of 17)).
Proof.
  assert (history journal1 (signed stop1 ++ [])) as Hh1.
  { apply (history_run env [] [] config empty stop1 journal1 history_new eq_refl stop1_reachable).
    apply (survives_all config empty stop1 stop1_reachable). }
  assert (history (journal_of (journal1 ++ reverse (issued stop2))) (signed stop2 ++ signed stop1 ++ [])) as Hh2.
  { apply (history_run env journal1 _ config restart stop2 _ Hh1 eq_refl stop2_reachable).
    apply (survives_all config restart stop2 stop2_reachable). }
  exists (journal_of (journal1 ++ reverse (issued stop2))). split; [exact Hh2|].
  apply (lifetime_no_equivocation _ _ _ _ Hh2); rewrite stop1_signed, stop2_signed.
  - apply list_elem_of_here.
  - apply list_elem_of_further, list_elem_of_here.
Defined.

(** ** Saves out of order *)

Definition crash : Engine := final config empty out_of_order.
Definition partial : BootstrapState := mkBootstrap 0 [FinalizeVote (id_of 17)] [].
Definition confused : Engine := final config partial second_candidate.

Lemma candidates_conflict : conflicting (FinalizeVote (id_of 17)) (NotarizeVote (id_of 18)).
Proof.
  split; [vm_compute; reflexivity|]. simpl. apply (bool_decide_eq_false_1 (id_of 17 = id_of 18)).
  vm_compute. reflexivity.
Qed.

(** C39: The order in which saves become durable does matter: when a finalize
    vote is durable and the notarize vote before it is not, the restarted engine
    journals and signs a notarize vote for another candidate of the slot, and
    then stops on the conflict with its own vote. *)
Theorem out_of_order_saves_equivocate :
  exists c v w eA bs eB,
    reachable c empty eA /\ v ∈ signed eA /\
    (forall x, x ∈ bs_OurVotes bs <-> x ∈ durable eA) /\
    reachable c bs eB /\ w ∈ signed eB /\ conflicting v w /\ e_fatalErr eB = Some (FatalOwnConflict w).
Proof.
  exists config, (FinalizeVote (id_of 17)), (NotarizeVote (id_of 18)), crash, partial, confused.
  assert (signed crash = [FinalizeVote (id_of 17)]) as -> by (vm_compute; reflexivity).
  assert (durable crash = [FinalizeVote (id_of 17)]) as -> by (vm_compute; reflexivity).
  assert (signed confused = [NotarizeVote (id_of 18); FinalizeVote (id_of 17)]) as -> by (vm_compute; reflexivity).
  split_and!; [..|exact candidates_conflict|vm_compute; reflexivity].
  - apply final_reachable. vm_compute. reflexivity.
  - apply list_elem_of_here.
  - intros x. reflexivity.
  - apply final_reachable. vm_compute. reflexivity.
  - apply list_elem_of_here.
Qed.
End ExampleVoting.
