(* ===== verification/SimplexSafety.v ===== *)
(** * Agreement of the Simplex protocol

    The theorems about one engine combined over a network.  Honest validators run
    the engine of this repository, through crashes and restarts; the others, less
    than a third of the weight, do anything; signatures cannot be forged.  Then a
    finalized candidate is an ancestor of every candidate certified later. *)

From S2P Require Import Prelude.
From S2P Require Import SimplexTypes.
From S2P Require Import SimplexSlots.
From S2P Require Import SimplexWire.
From S2P Require Import Sha256.
From S2P Require Import SimplexFanOut.
From S2P Require Import SimplexCert.
From S2P Require Import SimplexCandidate.
From S2P Require Import SimplexPool.
From S2P Require Import Float64.
From S2P Require Import SimplexState.
From S2P Require Import SimplexEngine.
From S2P Require Import SimplexFrame.
From S2P Require Import SimplexSteps.
From S2P Require Import SimplexPoolFrame.
From S2P Require Import SimplexRun.
From S2P Require Import SimplexQuorum.
From S2P Require Import SimplexJustify.
From S2P Require Import SimplexVoting.

#[local] Open Scope Z_scope.
#[local] Open Scope go_scope.

Section Network.
Context `{TLLaws} `{Ed25519} `{Machine}.
Context (sid : bytes) (vs : list Validator).

(** ** Honest validators *)

(** The life of validator [i]: runs of the engine for this session and roster,
    each started from what the journal kept.  [honest i J S]: the journal holds
    [J] and the votes [S] were signed. *)
Inductive honest (i : nat) : list Vote -> list Vote -> Prop :=
| honest_new : honest i [] []
| honest_run (env : Environment) J S c bs e J' :
    honest i J S -> ec_SessionID c = sid -> ec_Validators c = vs -> ec_LocalIndex c = Z.of_nat i ->
    setup c bs -> bs_OurVotes bs = J -> reachable c bs e -> survives J e J' ->
    honest i J' (signed e ++ S).

Lemma honest_history i J S : honest i J S -> history J S.
Proof. induction 1; [constructor|by econstructor]. Qed.

(** Every vote of the journal was issued by a run, on grounds. *)
Lemma honest_grounded i J S v :
  honest i J S -> v ∈ J ->
  low_vote v /\
  (v_Kind v = VoteNotarize -> (exists cand, c_ID cand = v_ID v /\ grounded sid vs cand) \/ slots_exhausted sid vs).
Proof.
  induction 1 as [|env J S c bs e J' _ IH Hs Hv _ Hsu HJ Hr [[n Hn] _ _]]; [by intros ?%elem_of_nil|].
  intros Hin. subst J' J. rewrite elem_of_journal_of in Hin. apply elem_of_take in Hin as (k & Hin%list_elem_of_lookup_2 & _).
  apply elem_of_app in Hin as [Hin|Hin]; [by apply IH|].
  apply elem_of_reverse, elem_of_issued in Hin. pose proof (reachable_grounded c bs e v Hsu Hr Hin) as Hg.
  by rewrite Hs, Hv in Hg.
Qed.

(** ** The network *)

(** [faulty] validators are below a third of the weight.  A valid signature of an
    honest validator over a vote payload was made by it: for a vote it cast, or
    by the probe of its signer at startup. *)
Definition probe_vote : Vote := SkipVote (2 ^ 32 - 1).

Record network (faulty : nat -> bool) (J S : nat -> list Vote) : Prop := {
  nw_session : length sid = 32%nat;
  nw_roster : good_roster vs (total_weight vs);
  nw_weight : 3 * wsum vs faulty < total_weight vs;
  nw_honest : forall i, (i < length vs)%nat -> faulty i = false -> honest i (J i) (S i);
  nw_unforgeable : forall i v payload sig, (i < length vs)%nat -> faulty i = false ->
    vote_payload sid v = Some payload -> verify_signature vs payload (mkVoteSignature (Z.of_nat i) sig) = true ->
    exists w, vote_payload sid w = Some payload /\ (w ∈ S i \/ w = probe_vote) }.

(** [id] names a candidate whose parent is [p]. *)
Definition child_of (p id : CandidateID) : Prop :=
  exists cand, c_ID cand = id /\ submitted cand /\ c_Parent cand = Parent p.
Definition ancestor : CandidateID -> CandidateID -> Prop := rtc child_of.

Section Agreement.
Context (faulty : nat -> bool) (J S : nat -> list Vote).
Hypothesis Hnet : network faulty J S.

Lemma probe_sized : sized_vote probe_vote.
Proof. apply sized_SkipVote. unfold is_u32. lia. Qed.

(** An honest signer of a quorum cast the vote. *)
Lemma signer_voted cert i :
  quorum_of sid vs cert -> sized_vote (cert_Vote cert) -> (i < length vs)%nat -> faulty i = false ->
  signed_by (cert_Signatures cert) i = true ->
  cert_Vote cert ∈ J i \/ cert_Vote cert = probe_vote.
Proof.
  intros (payload & Hp & Hq) Hs Hi Hf Hsb. apply bool_decide_eq_true, list_elem_of_fmap in Hsb as (sg & Hix & Hsg).
  pose proof (q_sigs _ _ _ _ Hq) as Hall. rewrite Forall_forall in Hall. specialize (Hall sg Hsg). destruct sg as [ix sg].
  simpl in Hix. subst ix. destruct (nw_unforgeable _ _ _ Hnet i _ _ _ Hi Hf Hp Hall) as (w & Hw & Hin).
  pose proof (nw_session _ _ _ Hnet) as Hl. pose proof (nw_honest _ _ _ Hnet i Hi Hf) as Hh.
  destruct Hin as [Hin| ->].
  - assert (w ∈ J i) as HwJ by (by apply (history_safe (J i) (S i) (honest_history _ _ _ Hh))).
    destruct (honest_grounded _ _ _ _ Hh HwJ) as [[Hsw _] _]. left.
    destruct (payload_inj sid sid _ _ _ Hl Hl Hs Hsw Hp Hw) as [_ ->]. done.
  - right. by destruct (payload_inj sid sid _ _ _ Hl Hl Hs probe_sized Hp Hw) as [_ ->].
Qed.

(** Two quorums share an honest validator, which cast both votes. *)
Lemma common_voter a b :
  quorum_of sid vs a -> quorum_of sid vs b -> sized_vote (cert_Vote a) -> sized_vote (cert_Vote b) ->
  cert_Vote a <> probe_vote -> cert_Vote b <> probe_vote ->
  exists i, (i < length vs)%nat /\ faulty i = false /\ cert_Vote a ∈ J i /\ cert_Vote b ∈ J i.
Proof.
  intros Ha Hb Hsa Hsb Hna Hnb. pose proof Ha as (pa & Hpa & Hqa). pose proof Hb as (pb & Hpb & Hqb).
  destruct (honest_overlap vs (total_weight vs) (signed_by (cert_Signatures a)) (signed_by (cert_Signatures b)) faulty
    (nw_roster _ _ _ Hnet) (nw_weight _ _ _ Hnet) (q_weight _ _ _ _ Hqa) (q_weight _ _ _ _ Hqb)) as (i & Hi & Sa & Sb & Hf).
  destruct (signer_voted a i Ha Hsa Hi Hf Sa) as [HJa|?]; [|done].
  destruct (signer_voted b i Hb Hsb Hi Hf Sb) as [HJb|?]; [|done]. by exists i.
Qed.

Lemma votes_compatible i v w :
  (i < length vs)%nat -> faulty i = false -> v ∈ J i -> w ∈ J i -> ~ conflicting v w.
Proof.
  intros Hi Hf. pose proof (nw_honest _ _ _ Hnet i Hi Hf) as Hh.
  destruct (history_safe _ _ (honest_history _ _ _ Hh)) as [[Hcf _] _]. apply Hcf.
Qed.

(** Honest validators never vote for the last slot, so it is never finalized. *)
Lemma finalized_low F :
  quorum_of sid vs F -> sized_vote (cert_Vote F) -> v_Kind (cert_Vote F) = VoteFinalize ->
  Vote_Slot (cert_Vote F) < lastSlot.
Proof.
  intros HF Hs Hk. assert (cert_Vote F <> probe_vote) as Hne by (intros E; by rewrite E in Hk).
  destruct (common_voter F F HF HF Hs Hs Hne Hne) as (i & Hi & Hf & HJ & _).
  destruct (honest_grounded _ _ _ _ (nw_honest _ _ _ Hnet i Hi Hf) HJ) as [[_ Hl] _]. done.
Qed.
Lemma slots_left : ~ slots_exhausted sid vs.
Proof. intros (F & HF & Hs & Hk & Hl). pose proof (finalized_low F HF Hs Hk). unfold lastSlot in *. lia. Qed.

(** A certified candidate has an honest notarize vote behind it. *)
Lemma certified_grounded cert :
  quorum_of sid vs cert -> sized_vote (cert_Vote cert) ->
  v_Kind (cert_Vote cert) = VoteNotarize \/ v_Kind (cert_Vote cert) = VoteFinalize ->
  exists cand, c_ID cand = v_ID (cert_Vote cert) /\ grounded sid vs cand.
Proof.
  intros Hq Hs Hk. assert (cert_Vote cert <> probe_vote) as Hne by (intros E; rewrite E in Hk; destruct Hk; done).
  destruct (common_voter cert cert Hq Hq Hs Hs Hne Hne) as (i & Hi & Hf & HJ & _).
  pose proof (nw_honest _ _ _ Hnet i Hi Hf) as Hh.
  assert (NotarizeVote (v_ID (cert_Vote cert)) ∈ J i) as Hn.
  { destruct Hk as [Hk|Hk].
    - by rewrite (vote_of_kind (cert_Vote cert) VoteNotarize Hk) in HJ.
    - destruct (history_safe _ _ (honest_history _ _ _ Hh)) as [[_ Hord] _].
      apply list_elem_of_split in HJ as (P & Q & HJ). specialize (Hord P _ Q HJ Hk). rewrite HJ. set_solver. }
  destruct (honest_grounded _ _ _ _ Hh Hn) as [_ Hg]. destruct (Hg eq_refl) as [?|?%slots_left]; done.
Qed.

(** ** Agreement *)

Section Finalized.
Context (F : Certificate).
Hypothesis HF : quorum_of sid vs F.
Hypothesis HFs : sized_vote (cert_Vote F).
Hypothesis HFk : v_Kind (cert_Vote F) = VoteFinalize.

Lemma F_not_probe : cert_Vote F <> probe_vote.
Proof. intros E. by rewrite E in HFk. Qed.

(** A finalized slot is not skipped. *)
Lemma finalized_not_skipped cert :
  quorum_of sid vs cert -> cert_Vote cert <> SkipVote (Vote_Slot (cert_Vote F)).
Proof.
  intros Hq Hv. pose proof (finalized_low F HF HFs HFk) as Hlow. unfold lastSlot in Hlow.
  assert (sized_vote (cert_Vote cert)) as Hs by (rewrite Hv; apply sized_SkipVote, HFs).
  assert (cert_Vote cert <> probe_vote) as Hnp by (rewrite Hv; intros [= E]; lia).
  destruct (common_voter F cert HF Hq HFs Hs F_not_probe Hnp) as (i & Hi & Hf & HJa & HJb).
  eapply (votes_compatible i); [done|done|exact HJa|exact HJb|]. rewrite Hv. split; [done|]. by rewrite HFk.
Qed.

(** No other candidate of the slot is certified. *)
Lemma finalized_unique cert :
  quorum_of sid vs cert -> sized_vote (cert_Vote cert) ->
  v_Kind (cert_Vote cert) = VoteNotarize \/ v_Kind (cert_Vote cert) = VoteFinalize ->
  Vote_Slot (cert_Vote cert) = Vote_Slot (cert_Vote F) ->
  v_ID (cert_Vote cert) = v_ID (cert_Vote F).
Proof.
  intros Hq Hs Hk Hsl. assert (cert_Vote cert <> probe_vote) as Hne by (intros E; rewrite E in Hk; destruct Hk; done).
  destruct (common_voter F cert HF Hq HFs Hs F_not_probe Hne) as (i & Hi & Hf & HJa & HJb).
  destruct (decide (v_ID (cert_Vote cert) = v_ID (cert_Vote F))) as [|Hid]; [done|exfalso].
  eapply (votes_compatible i); [done|done|exact HJa|exact HJb|]. split; [done|]. rewrite HFk. destruct Hk as [->| ->]; auto.
Qed.

Lemma finalized_ancestor n cert :
  quorum_of sid vs cert -> sized_vote (cert_Vote cert) ->
  v_Kind (cert_Vote cert) = VoteNotarize \/ v_Kind (cert_Vote cert) = VoteFinalize ->
  Vote_Slot (cert_Vote cert) = Vote_Slot (cert_Vote F) + Z.of_nat n ->
  ancestor (v_ID (cert_Vote F)) (v_ID (cert_Vote cert)).
Proof.
  revert cert. induction n as [n IH] using lt_wf_ind. intros cert Hq Hs Hk Hsl. destruct n as [|n].
  { rewrite (finalized_unique cert Hq Hs Hk) by lia. constructor. }
  destruct (certified_grounded cert Hq Hs Hk) as (cand & Hid & [Hsub Hpar Hgap]).
  pose proof Hs as (_ & [Hu _] & _). unfold is_u32 in Hu. fold (Vote_Slot (cert_Vote cert)) in Hu.
  assert (cid_Slot (c_ID cand) = Vote_Slot (cert_Vote cert)) as Hcs by by rewrite Hid.
  destruct (Z.le_gt_cases (nextAfter (c_Parent cand)) (Vote_Slot (cert_Vote F))) as [Hle|Hgt].
  { destruct (Hgap (Vote_Slot (cert_Vote F))) as (sk & Hsk & Hskv); [lia|].
    by destruct (finalized_not_skipped sk Hsk). }
  destruct Hpar as [Hg|(pc & Hpq & Hps & Hex & Hpid & Hpk)].
  { rewrite Hg in Hgt. simpl in Hgt. destruct HFs as (_ & [[? _] _] & _). unfold nextAfter in Hgt. simpl in Hgt.
    unfold Vote_Slot in Hgt. lia. }
  destruct (proj1 (ValidateShape_ok cand) (sb_shape cand Hsub)) as (_ & _ & _ & Hlt). specialize (Hlt Hex).
  unfold nextAfter in Hgt. rewrite Hex in Hgt. pose proof Hps as (_ & [Hpu _] & _). unfold is_u32 in Hpu. rewrite Hpid in Hpu.
  rewrite u32_small in Hgt by (unfold is_u32; lia).
  assert (Vote_Slot (cert_Vote pc) = cid_Slot (par_ID (c_Parent cand))) as Hpsl by (unfold Vote_Slot; by rewrite Hpid).
  pose proof (IH (Z.to_nat (Vote_Slot (cert_Vote pc) - Vote_Slot (cert_Vote F))) ltac:(lia) pc Hpq Hps Hpk ltac:(lia)) as Hanc.
  eapply rtc_r; [exact Hanc|]. exists cand. split_and!; [done..|]. rewrite Hpid.
  destruct (c_Parent cand) as [[] pid]; simpl in *; done.
Qed.
End Finalized.

(** Agreement.  When honest validators run this engine and the others hold
    less than a third of the weight, a finalization certificate settles the chain:
    the finalized candidate is an ancestor of every candidate with a notarization
    or finalization certificate at its slot or later, so two finalized candidates
    never fork, and its slot has no skip certificate.
    What the certificates were made of does not matter, only that they verify. *)
Theorem finalized_is_ancestor F :
  quorum_of sid vs F -> sized_vote (cert_Vote F) -> v_Kind (cert_Vote F) = VoteFinalize ->
  (forall cert, quorum_of sid vs cert -> sized_vote (cert_Vote cert) ->
    v_Kind (cert_Vote cert) = VoteNotarize \/ v_Kind (cert_Vote cert) = VoteFinalize ->
    Vote_Slot (cert_Vote F) <= Vote_Slot (cert_Vote cert) ->
    ancestor (v_ID (cert_Vote F)) (v_ID (cert_Vote cert))) /\
  (forall cert, quorum_of sid vs cert -> cert_Vote cert <> SkipVote (Vote_Slot (cert_Vote F))).
Proof.
  intros HF HFs HFk. split.
  - intros cert Hq Hs Hk Hle.
    apply (finalized_ancestor F HF HFs HFk (Z.to_nat (Vote_Slot (cert_Vote cert) - Vote_Slot (cert_Vote F)))); [done..|lia].
  - exact (finalized_not_skipped F HF HFs HFk).
Qed.

Lemma reported_finalized (env : Environment) c bs e id vc :
  setup c bs -> reachable c bs e -> ec_SessionID c = sid -> ec_Validators c = vs ->
  Hooked (OnFinalized id vc) ∈ e_log e ->
  exists cert, cert_Vote cert = FinalizeVote id /\ quorum_of sid vs cert.
Proof.
  intros Hsu Hr <- <- Hh. destruct (reachable_certified c bs e Hsu Hr) as (g & HI & _ & Hiff).
  destruct (ce_hooks g e HI _ Hh) as (cert & _ & Hg & Hv). exists cert. by rewrite Hiff in Hg.
Qed.

End Agreement.
End Network.

(** ** Example *)

(** Validators 1, 2 and 3 of the example roster are honest and validator 0, the
    leader, is not.  Signatures verify for the leader, and for the others on the
    payloads listed only. *)
Module ExampleSafety.
Import ExampleTL ExampleCert ExampleRun.

Definition block_id (slot : Z) (parent : ParentID) (seqno : Z) : CandidateID :=
  default zeroCandidateID
    (ComputeID (mkCandidate (mkCandidateID slot zeroHash) parent 0 false (block seqno) zeroHash [] None) slot).
Definition id0 : CandidateID := Eval vm_compute in block_id 0 Genesis 17.
Definition id1 : CandidateID := Eval vm_compute in block_id 1 (Parent id0) 18.
Definition proposal (id : CandidateID) (parent : ParentID) (seqno : Z) : Candidate :=
  mkCandidate id parent 0 false (block seqno) zeroHash (mac (key 0) (default [] (candidate_payload session id))) None.

(** The votes of the honest validators, newest first, and the payloads they sign. *)
Definition cast : list Vote := [FinalizeVote id1; NotarizeVote id1; FinalizeVote id0; NotarizeVote id0].
Definition payload_of (v : Vote) : bytes := default [] (vote_payload session v).
Definition table : list bytes := Eval vm_compute in payload_of <$> (cast ++ [probe_vote]).

#[export] Instance ed : Ed25519 :=
  { ed25519_Verify k msg sig := bool_decide (sig = mac k msg) && (bool_decide (k = key 0) || bool_decide (msg ∈ table)) }.
#[export] Instance env_of (i : Z) : Environment :=
  { env_Now n := 1000 + Z.of_nat n;
    env_Sign _ p := if bool_decide (p ∈ table) then Some (mac (key i) p) else None }.
Definition config_of (i : Z) : EngineConfig :=
  mkEngineConfig session 0 roster i 4 0 (-1) 0 0 None None zeroBootstrap true true true.

Definition cert_of (v : Vote) (signers : list Z) : Certificate :=
  mkCertificate v ((fun i => mkVoteSignature i (mac (key i) (payload_of v))) <$> signers).

(** One slot of the happy path: the block is stored, validated and notarized by
    a quorum; the certificate and both votes are saved. *)
Definition certified_msg (v : Vote) : input :=
  InMessage [7] 0 (default [] (Certificate_Serialize (cert_of v [0; 2; 3]))).
Definition slot_inputs (id : CandidateID) (parent : ParentID) (seqno : Z) : list input :=
  [InCandidate (proposal id parent seqno); InCompletion 1 (StoreCompletion true);
   InCompletion 1 (ValidationCompletion VerdictAccept); certified_msg (NotarizeVote id);
   InCompletion 2 (JournalCompletion Saved);
   InCompletion 1 (JournalCompletion Saved); InCompletion 1 (JournalCompletion Saved)].
Definition inputs : list input := slot_inputs id0 Genesis 17 ++ slot_inputs id1 (Parent id0) 18.
Definition stop (i : Z) : Engine := @final _ _ _ (env_of i) (config_of i) empty inputs.

(** A node that learns of a finalization from its certificate. *)
Definition told_inputs (id : CandidateID) : list input :=
  [certified_msg (FinalizeVote id); InCompletion 1 (JournalCompletion Saved)].
Definition told (i : Z) (id : CandidateID) : Engine := @final _ _ _ (env_of i) (config_of i) empty (told_inputs id).

Definition faulty (i : nat) : bool := bool_decide (i = 0%nat).
Definition journal (i : nat) : list Vote := journal_of ([] ++ reverse (issued (stop (Z.of_nat i)))).
Definition signatures (i : nat) : list Vote := signed (stop (Z.of_nat i)) ++ [].

(** The three honest runs complete, with the votes listed. *)
Lemma runs :
  forallb (fun i => @completes _ _ _ (env_of i) (config_of i) empty inputs && bool_decide (signed (stop i) = cast)) [1; 2; 3]
  = true.
Proof. vm_compute. reflexivity. Qed.
Lemma run_of i : i ∈ [1; 2; 3] -> @reachable _ _ _ (env_of i) (config_of i) empty (stop i) /\ signed (stop i) = cast.
Proof.
  intros Hi. pose proof runs as Hr. rewrite forallb_forall in Hr. specialize (Hr i (proj1 (list_elem_of_In _ _) Hi)).
  apply andb_prop in Hr as [Hc Hs]. split; [by apply final_reachable|]. revert Hs. apply bool_decide_eq_true_1.
Qed.

Lemma table_spec p : p ∈ table -> exists w, vote_payload session w = Some p /\ (w ∈ cast \/ w = probe_vote).
Proof.
  assert (forall w, w ∈ cast ++ [probe_vote] -> vote_payload session w = Some (payload_of w)) as Hp.
  { apply Forall_forall. repeat (constructor; [vm_compute; reflexivity|]). constructor. }
  assert (table = payload_of <$> (cast ++ [probe_vote])) as -> by (vm_compute; reflexivity).
  intros (w & -> & Hw)%list_elem_of_fmap. exists w. split; [by apply Hp|].
  apply elem_of_app in Hw as [?|?%list_elem_of_singleton]; auto.
Qed.

Lemma validator_at i : (i < 4)%nat -> faulty i = false -> Z.of_nat i ∈ [1; 2; 3] /\
  roster !! i = Some (mkValidator (key (Z.of_nat i)) 1) /\ key (Z.of_nat i) <> key 0.
Proof.
  intros Hi Hf. destruct i as [|[|[|[|i]]]]; [done| | | |lia]; (split; [|split; [reflexivity|done]]);
    repeat (apply list_elem_of_here || apply list_elem_of_further).
Qed.

Lemma setup_of i : i ∈ [1; 2; 3] -> @setup _ _ _ (env_of i) (config_of i) empty.
Proof.
  intros Hi. constructor.
  - reflexivity.
  - split; [reflexivity|repeat constructor; simpl; lia].
  - exact roster_no_wrap.
  - intros n p sig _ E. simpl in E. destruct (bool_decide (p ∈ table)) eqn:Ht; [|done]. injection E as <-.
    assert (exists j : nat, i = Z.of_nat j /\ roster !! j = Some (mkValidator (key i) 1)) as (j & -> & Hj).
    { repeat (apply elem_of_cons in Hi as [->|Hi]); [exists 1%nat|exists 2%nat|exists 3%nat|by apply elem_of_nil in Hi]; done. }
    unfold verify_signature. cbn [vs_Signature vs_ValidatorIndex ec_LocalIndex ec_Validators config_of].
    assert (u32 (Z.of_nat j) = Z.of_nat j) as ->
      by (by repeat (apply elem_of_cons in Hi as [->|Hi]); [..|by apply elem_of_nil in Hi]).
    rewrite Nat2Z.id, Hj. apply andb_true_intro. split.
    { unfold mac, key. by rewrite !length_app, length_le_put. }
    apply andb_true_intro. split; [by apply bool_decide_eq_true|]. by rewrite Ht, orb_true_r.
  - constructor.
  - constructor.
  - left. reflexivity.
Qed.

(** A signature of an honest validator verifies for the votes cast and the probe. *)
Lemma signed_cast i p sig : (i < 4)%nat -> faulty i = false ->
  verify_signature roster p (mkVoteSignature (Z.of_nat i) sig) = true ->
  exists w, vote_payload session w = Some p /\ (w ∈ cast \/ w = probe_vote).
Proof.
  intros Hi Hf Hv. destruct (validator_at i Hi Hf) as (_ & Hat & Hk). apply table_spec. revert Hv. unfold verify_signature.
  cbn [vs_Signature vs_ValidatorIndex]. rewrite Nat2Z.id, Hat. intros [_ [_ [Hz|Ht]%orb_prop]%andb_prop]%andb_prop.
  + by apply bool_decide_eq_true in Hz.
  + by apply bool_decide_eq_true in Ht.
Qed.

Lemma example_network : network session roster faulty journal signatures.
Proof.
  constructor.
  - reflexivity.
  - apply (NewCertificateVerifier_ok session roster verifier roster_no_wrap). vm_compute. reflexivity.
  - vm_compute. reflexivity.
  - intros i Hi Hf. destruct (validator_at i Hi Hf) as (Hin & _ & _). destruct (run_of _ Hin) as [Hr _].
    apply (honest_run session roster i (env_of (Z.of_nat i)) [] [] (config_of (Z.of_nat i)) empty (stop (Z.of_nat i)));
      [apply honest_new|reflexivity..|by apply setup_of|reflexivity|exact Hr|].
    apply (@survives_all _ _ _ (env_of (Z.of_nat i)) _ _ _ Hr).
  - intros i v p sig Hi Hf _ Hv. destruct (validator_at i Hi Hf) as (Hin & _ & _). destruct (run_of _ Hin) as [_ Hs].
    unfold signatures. rewrite Hs, app_nil_r. by apply (signed_cast i p sig).
Qed.

Lemma cert_of_quorum v : v ∈ cast -> quorum_of session roster (cert_of v [0; 2; 3]).
Proof.
  intros Hv. assert (forallb (fun v => bool_decide (vote_payload session v = Some (payload_of v)) &&
    forallb (verify_signature roster (payload_of v)) (cert_Signatures (cert_of v [0; 2; 3]))) cast = true) as Hc
    by (vm_compute; reflexivity).
  rewrite forallb_forall in Hc. specialize (Hc v (proj1 (list_elem_of_In _ _) Hv)). apply andb_prop in Hc as [Hp Hs].
  apply bool_decide_eq_true_1 in Hp. exists (payload_of v). split; [done|]. constructor.
  - refine (bool_decide_eq_true_1 (NoDup [0; 2; 3]) _). reflexivity.
  - repeat constructor; simpl; lia.
  - apply Z.leb_le. reflexivity.
  - apply Forall_forall. intros sg Hsg. rewrite forallb_forall in Hs. by apply Hs, list_elem_of_In.
Qed.

Lemma id0_sized : sized_id id0.
Proof. split; [unfold is_u32; simpl; lia|reflexivity]. Qed.
Lemma id1_sized : sized_id id1.
Proof. split; [unfold is_u32; simpl; lia|reflexivity]. Qed.

Lemma finalized_is_ancestor_witness :
  ancestor id0 id1.
Proof.
  apply (finalized_is_ancestor session roster faulty journal signatures example_network (cert_of (FinalizeVote id0) [0; 2; 3]))
    with (cert := cert_of (NotarizeVote id1) [0; 2; 3]).
  - apply cert_of_quorum. apply list_elem_of_further, list_elem_of_further, list_elem_of_here.
  - apply sized_FinalizeVote, id0_sized.
  - reflexivity.
  - apply cert_of_quorum. apply list_elem_of_further, list_elem_of_here.
  - apply sized_NotarizeVote, id1_sized.
  - left. reflexivity.
  - vm_compute. discriminate.
Defined.

(** What a node told of a finalization reports. *)
Definition finalizations (e : Engine) : list (CandidateID * VerifiedCertificate) :=
  omap (fun ev => match ev with Hooked (OnFinalized id vc) => Some (id, vc) | _ => None end) (e_log e).
Lemma finalizations_log e id vc : finalizations e = [(id, vc)] -> Hooked (OnFinalized id vc) ∈ e_log e.
Proof.
  intros E. assert ((id, vc) ∈ finalizations e) as (ev & Hev & Eo)%list_elem_of_omap by (rewrite E; apply list_elem_of_here).
  destruct ev; simpl in Eo; try done; case_match; by simplify_eq.
Qed.
Definition sealed (id : CandidateID) : VerifiedCertificate :=
  sealCertificate (cert_of (FinalizeVote id) [0; 2; 3]) (cv_binding verifier).

Lemma told_id0 : @completes _ _ _ (env_of 1) (config_of 1) empty (told_inputs id0) = true /\
  finalizations (told 1 id0) = [(id0, sealed id0)].
Proof. vm_compute. split; reflexivity. Qed.
Lemma told_id1 : @completes _ _ _ (env_of 2) (config_of 2) empty (told_inputs id1) = true /\
  finalizations (told 2 id1) = [(id1, sealed id1)].
Proof. vm_compute. split; reflexivity. Qed.

End ExampleSafety.
