(* ===== verification/StoreKeys.v ===== *)
(** * Keys of the validator store ([src/service/validator/pebblestore/keys.go] and
      [collator_keys.go])

    Every record of the store lives in one ordered key space.  A key starts with
    a kind byte; most kinds continue with the 48-byte namespace of a session.
    Ranges of the database are half open and given by [prefixBounds].  Proved
    here: a range built from a prefix holds exactly the keys with that prefix,
    and the keys of different kinds, namespaces or records are different. *)

From S2P Require Import Prelude.
From S2P Require Import SimplexTypes.

#[local] Open Scope Z_scope.
#[local] Open Scope go_scope.

(** [bytes.Compare] as a strict order. *)
Fixpoint bytes_Less (a b : bytes) : bool :=
  match a, b with
  | _, [] => false
  | [], _ :: _ => true
  | x :: a, y :: b => (x <? y) || (x =? y) && bytes_Less a b
  end.

(** A key is in [\[lower, upper)]; a nil upper bound is open. *)
Definition in_bounds (lower : bytes) (upper : option bytes) (k : bytes) : bool :=
  negb (bytes_Less k lower) && match upper with Some u => bytes_Less k u | None => true end.

(** ** [keys.go] *)

Definition keySchema : Z := 0.
Definition keySession : Z := 1.
Definition keyVote : Z := 2.
Definition keyPoolState : Z := 3.
Definition keyCandidateIndex : Z := 4.
Definition keyCandidateContent : Z := 5.
Definition keyFinalized : Z := 6.
Definition keyLeaderWindow : Z := 7.
Definition keySummary : Z := 8.
Definition keyAcceptedProof : Z := 9.
Definition keyDelegationAuthorization : Z := 10.
Definition keyValidatorKey : Z := 11.

Definition schemaKey : bytes := [keySchema].

Definition namespacedPrefix (kind : Z) (namespace : bytes) : bytes := kind :: namespace.

Definition sessionKey (namespace : bytes) : bytes := namespacedPrefix keySession namespace.
Definition summaryKey (namespace : bytes) : bytes := namespacedPrefix keySummary namespace.
Definition votePrefix (namespace : bytes) : bytes := namespacedPrefix keyVote namespace.
Definition voteKey (namespace recordKey : bytes) : bytes := votePrefix namespace ++ recordKey.
Definition poolStateKey (namespace : bytes) : bytes := namespacedPrefix keyPoolState namespace.
Definition candidateIndexPrefix (namespace : bytes) : bytes := namespacedPrefix keyCandidateIndex namespace.
Definition candidateContentPrefix (namespace : bytes) : bytes := namespacedPrefix keyCandidateContent namespace.
Definition finalizedPrefix (namespace : bytes) : bytes := namespacedPrefix keyFinalized namespace.
Definition leaderWindowPrefix (namespace : bytes) : bytes := namespacedPrefix keyLeaderWindow namespace.
Definition acceptedProofPrefix (namespace : bytes) : bytes := namespacedPrefix keyAcceptedProof namespace.
Definition delegationAuthorizationPrefix (namespace : bytes) : bytes :=
  namespacedPrefix keyDelegationAuthorization namespace.

Definition appendCandidateID (dst : bytes) (id : CandidateID) : bytes := dst ++ be_put 4 (cid_Slot id) ++ cid_Hash id.
Definition candidateIndexKey (namespace : bytes) (id : CandidateID) : bytes :=
  appendCandidateID (candidateIndexPrefix namespace) id.
Definition finalizedKey (namespace : bytes) (id : CandidateID) : bytes := appendCandidateID (finalizedPrefix namespace) id.
Definition leaderWindowKey (namespace : bytes) (startSlot : Z) : bytes :=
  leaderWindowPrefix namespace ++ be_put 4 startSlot.
Definition delegationAuthorizationKey (namespace : bytes) (startSlot : Z) : bytes :=
  delegationAuthorizationPrefix namespace ++ be_put 4 startSlot.

Definition validatorKeyPrefix : bytes := [keyValidatorKey].
Definition validatorKeyKey (id : bytes) : bytes := validatorKeyPrefix ++ id.
Definition validatorKeyIDFromKey (key : bytes) : option bytes :=
  if negb (length key =? length validatorKeyPrefix + 32)%nat then None
  else Some (drop (length validatorKeyPrefix) key).

Definition candidateIDFromKey (key prefix : bytes) : option CandidateID :=
  if negb (length key =? length prefix + 36)%nat then None
  else Some (mkCandidateID (be_get (take 4 (drop (length prefix) key))) (drop (length prefix + 4) key)).

(** The loop of [prefixBounds], over the prefix read from its last byte. *)
Fixpoint bound_loop (rev : bytes) : option bytes :=
  match rev with
  | [] => None
  | b :: rest => if negb (b =? 0xff) then Some (reverse (b + 1 :: rest)) else bound_loop rest
  end.
Definition prefixBounds (prefix : bytes) : bytes * option bytes := (prefix, bound_loop (reverse prefix)).

(** ** [collator_keys.go] *)

Definition collatorKeyspace : Z := 0x80.
Definition collatorKeySession : Z := 1.
Definition collatorKeyCandidate : Z := 2.
Definition collatorRecordPrefix (kind : Z) : bytes := [collatorKeyspace; kind].
Definition collatorSessionKey (sessionID : bytes) : bytes := collatorRecordPrefix collatorKeySession ++ sessionID.

Record WindowID := mkWindowID { wid_SessionID : bytes; wid_StartSlot : Z }.
#[export] Instance WindowID_eq_dec : EqDecision WindowID.
Proof. solve_decision. Defined.

Definition collatorCandidatePrefix (id : WindowID) : bytes :=
  collatorRecordPrefix collatorKeyCandidate ++ wid_SessionID id ++ be_put 4 (wid_StartSlot id).
Definition collatorCandidateSessionPrefix (sessionID : bytes) : bytes :=
  collatorRecordPrefix collatorKeyCandidate ++ sessionID.
Definition collatorCandidateKey (id : WindowID) (slot : Z) : bytes := collatorCandidatePrefix id ++ be_put 4 slot.

(** ** The order of keys *)

Lemma bytes_Less_irrefl a : bytes_Less a a = false.
Proof. induction a as [|x a IH]; simpl; [done|]. rewrite IH, Z.ltb_irrefl, andb_false_r. done. Qed.

Lemma bytes_Less_trans a b c : bytes_Less a b = true -> bytes_Less b c = true -> bytes_Less a c = true.
Proof.
  revert b c. induction a as [|x a IH]; intros [|y b] [|z c]; simpl; try done.
  rewrite !orb_true_iff, !andb_true_iff, !Z.ltb_lt, !Z.eqb_eq. intros [?|[-> ?]] [?|[-> ?]]; [left; lia|by left|by left|].
  right. split; [done|]. by eapply IH.
Qed.

Lemma bytes_Less_total a b : a <> b -> bytes_Less a b = true \/ bytes_Less b a = true.
Proof.
  revert b. induction a as [|x a IH]; intros [|y b]; simpl; [done|auto..|].
  intros Hne. rewrite !orb_true_iff, !andb_true_iff, !Z.ltb_lt, !Z.eqb_eq.
  destruct (Z.lt_total x y) as [?|[->|?]]; [auto| |auto].
  destruct (IH b) as [?|?]; [congruence|auto..].
Qed.

Lemma bytes_Less_app_l p a b : bytes_Less (p ++ a) (p ++ b) = bytes_Less a b.
Proof. induction p as [|x p IH]; simpl; [done|]. by rewrite Z.ltb_irrefl, Z.eqb_refl. Qed.

Lemma bytes_Less_app_r a b c : bytes_Less a b = true -> bytes_Less a (b ++ c) = true.
Proof.
  revert b. induction a as [|x a IH]; intros [|y b]; simpl; [done..|].
  rewrite !orb_true_iff, !andb_true_iff. intros [?|[? ?]]; auto.
Qed.

(** Below a prefix, in its range, or above it. *)
Lemma bytes_Less_prefix p k : p `prefix_of` k -> bytes_Less k p = false.
Proof. intros [q ->]. induction p as [|x p IH]; simpl; [by destruct q|]. by rewrite Z.ltb_irrefl, IH, andb_false_r. Qed.

Definition bytes_ok (l : bytes) : Prop := Forall is_byte l.

Lemma all_ff_max p k : Forall (fun b => b = 0xff) p -> bytes_ok k -> bytes_Less k p = false -> p `prefix_of` k.
Proof.
  intros Hp. revert k. induction Hp as [|b p -> _ IH]; intros k Hk; [intros _; apply prefix_nil|].
  destruct Hk as [|x k Hx Hk]; simpl; [done|]. rewrite orb_false_iff, andb_false_iff, Z.ltb_ge, Z.eqb_neq.
  unfold is_byte in Hx. intros [? [?|?]]; [lia|]. assert (x = 0xff) as -> by lia. by apply prefix_cons, IH.
Qed.

(** The upper bound of a prefix: the last byte below [0xff] is incremented and
    what follows is cut. *)
Lemma bound_loop_spec rev :
  match bound_loop rev with
  | None => Forall (fun b => b = 0xff) rev
  | Some u => exists hi b ffs, rev = ffs ++ b :: reverse hi /\ Forall (fun b => b = 0xff) ffs /\ b <> 0xff /\ u = hi ++ [b + 1]
  end.
Proof.
  induction rev as [|b rev IH]; simpl; [constructor|]. destruct (Z.eqb_spec b 0xff) as [->|Hb]; simpl.
  - destruct (bound_loop rev) as [u|].
    + destruct IH as (hi & b & ffs & -> & Hf & Hb & ->). exists hi, b, (255 :: ffs). split_and!; auto.
    + by constructor.
  - exists (reverse rev), b, []. rewrite reverse_involutive, reverse_cons. split_and!; auto.
Qed.

Lemma between_prefix hi b ffs k :
  Forall (fun b => b = 0xff) ffs -> bytes_ok k ->
  bytes_Less k (hi ++ b :: ffs) = false -> bytes_Less k (hi ++ [b + 1]) = true -> (hi ++ b :: ffs) `prefix_of` k.
Proof.
  intros Hff Hk. revert hi. induction Hk as [|x k Hx Hk IH]; intros [|y hi]; simpl; [done..| |];
    rewrite orb_false_iff, andb_false_iff, orb_true_iff, andb_true_iff, Z.ltb_ge, Z.eqb_neq, Z.ltb_lt, Z.eqb_eq.
  - intros [? [?|Hle]] [?|[_ Hlt]]; [lia|by destruct k| |by destruct k].
    assert (x = b) as -> by lia. apply prefix_cons. by apply all_ff_max.
  - intros [? [?|?]] [?|[? ?]]; [lia..|]. subst y. by apply prefix_cons, IH.
Qed.

Lemma prefix_in_bounds p k : p `prefix_of` k -> in_bounds (prefixBounds p).1 (prefixBounds p).2 k = true.
Proof.
  intros Hpre. unfold in_bounds, prefixBounds. simpl. rewrite bytes_Less_prefix by done. simpl.
  pose proof (bound_loop_spec (reverse p)) as Hb. destruct (bound_loop (reverse p)) as [u|]; [|done].
  destruct Hb as (hi & b & ffs & Erev & _ & _ & ->). apply (f_equal reverse) in Erev.
  rewrite reverse_involutive, reverse_app, reverse_cons, reverse_involutive, <- app_assoc in Erev. subst p.
  destruct Hpre as [q ->]. rewrite <- !app_assoc, bytes_Less_app_l. simpl. apply orb_true_iff. left. apply Z.ltb_lt. lia.
Qed.

Lemma in_bounds_prefix p k :
  bytes_ok p -> bytes_ok k -> in_bounds (prefixBounds p).1 (prefixBounds p).2 k = true -> p `prefix_of` k.
Proof.
  intros Hp Hk. unfold in_bounds, prefixBounds. simpl. pose proof (bound_loop_spec (reverse p)) as Hb.
  destruct (bound_loop (reverse p)) as [u|].
  - destruct Hb as (hi & b & ffs & Erev & Hff & Hne & ->). apply (f_equal reverse) in Erev.
    rewrite reverse_involutive, reverse_app, reverse_cons, reverse_involutive, <- app_assoc in Erev. subst p.
    rewrite andb_true_iff, negb_true_iff. intros [Hlo Hup]. apply between_prefix; [by apply Forall_reverse|done..].
  - rewrite andb_true_r, negb_true_iff. apply all_ff_max; [|done]. rewrite <- (reverse_involutive p). by apply Forall_reverse.
Qed.

Lemma in_bounds_head x r k : x <> 0xff ->
  in_bounds (prefixBounds (x :: r)).1 (prefixBounds (x :: r)).2 k = true -> exists k', k = x :: k'.
Proof.
  intros Hx. unfold in_bounds, prefixBounds. simpl. pose proof (bound_loop_spec (reverse (x :: r))) as Hb.
  destruct (bound_loop (reverse (x :: r))) as [u|].
  - destruct Hb as (hi & b & ffs & Erev & _ & _ & ->). apply (f_equal reverse) in Erev.
    rewrite reverse_involutive, reverse_app, reverse_cons, reverse_involutive, <- app_assoc in Erev.
    destruct k as [|y k]; simpl; [done|]. intros [Hlo Hup]%andb_prop. exists k. f_equal.
    apply negb_true_iff, orb_false_iff in Hlo as [?%Z.ltb_ge _].
    destruct hi as [|z hi]; simpl in *; injection Erev as -> _; apply orb_prop in Hup as [?%Z.ltb_lt|[?%Z.eqb_eq Hk]%andb_prop]; try lia.
    by destruct k.
  - apply Forall_forall with (x := x) in Hb; [done|]. apply elem_of_reverse. left.
Qed.

(** What follows a prefix of the same length does not matter. *)
Lemma bytes_Less_app_short a r b : (length b <= length a)%nat -> bytes_Less (a ++ r) b = bytes_Less a b.
Proof.
  revert b. induction a as [|x a IH]; intros [|y b]; simpl; intros Hl; [by destruct r|lia|done|]. by rewrite IH by lia.
Qed.
Lemma in_bounds_same_length p p' r :
  bytes_ok p -> bytes_ok p' -> length p = length p' ->
  in_bounds (prefixBounds p).1 (prefixBounds p).2 (p' ++ r) = true -> p = p'.
Proof.
  intros Hp Hp' Hl Hb. assert (in_bounds (prefixBounds p).1 (prefixBounds p).2 p' = true) as Hb'.
  { rewrite <- Hb. unfold in_bounds, prefixBounds. simpl. rewrite bytes_Less_app_short by lia. f_equal.
    pose proof (bound_loop_spec (reverse p)) as Hs. destruct (bound_loop (reverse p)) as [u|]; [|done].
    destruct Hs as (hi & b & ffs & Erev & _ & _ & ->). apply (f_equal length) in Erev.
    rewrite length_reverse, length_app in Erev. simpl in Erev. rewrite length_reverse in Erev.
    rewrite bytes_Less_app_short; [done|]. rewrite length_app. simpl. lia. }
  apply in_bounds_prefix in Hb' as [q ->]; [|done..]. rewrite length_app in Hl.
  assert (length q = 0)%nat as Hq by lia. destruct q; [by rewrite app_nil_r|done].
Qed.

(** The ranges of different prefixes of one length are disjoint. *)
Lemma ranges_disjoint p p' k :
  bytes_ok p -> bytes_ok p' -> length p = length p' ->
  in_bounds (prefixBounds p).1 (prefixBounds p).2 k = true ->
  in_bounds (prefixBounds p').1 (prefixBounds p').2 k = true -> p = p'.
Proof.
  assert (forall p p', bytes_ok p -> bytes_ok p' -> length p = length p' -> bytes_Less p p' = true ->
    in_bounds (prefixBounds p).1 (prefixBounds p).2 k = true ->
    in_bounds (prefixBounds p').1 (prefixBounds p').2 k = true -> p = p') as Hlt.
  { clear p p'. intros p p' Hp Hp' Hl Hlt Hb [Hlo' _]%andb_prop. apply (in_bounds_same_length p p' []); [done..|].
    rewrite app_nil_r. unfold in_bounds in *. simpl in *. apply andb_prop in Hb as [_ Hup]. apply negb_true_iff in Hlo'.
    rewrite (proj2 (negb_true_iff _)); simpl.
    - destruct (bound_loop (reverse p)) as [u|]; [|done].
      destruct (decide (k = p')) as [->|Hne]; [done|]. destruct (bytes_Less_total k p' Hne) as [?|Hk]; [congruence|].
      by eapply bytes_Less_trans.
    - destruct (bytes_Less p' p) eqn:E; [|done]. rewrite <- (bytes_Less_irrefl p). symmetry. by eapply bytes_Less_trans. }
  intros Hp Hp' Hl Hb Hb'. destruct (decide (p = p')) as [|Hne]; [done|].
  destruct (bytes_Less_total p p' Hne); [by apply Hlt|]. symmetry. by apply Hlt.
Qed.

(** C35: a range built by [prefixBounds] holds exactly the keys that start with the
    prefix, also for prefixes that end in [0xff] bytes. *)
Theorem prefixBounds_exact p k :
  bytes_ok p -> bytes_ok k ->
  in_bounds (prefixBounds p).1 (prefixBounds p).2 k = true <-> p `prefix_of` k.
Proof. split; [by apply in_bounds_prefix|apply prefix_in_bounds]. Qed.

Lemma prefixBounds_exact_witness :
  in_bounds (prefixBounds [2; 7; 0xff; 0xff]).1 (prefixBounds [2; 7; 0xff; 0xff]).2 [2; 7; 0xff; 0xff; 5] = true <->
  [2; 7; 0xff; 0xff] `prefix_of` [2; 7; 0xff; 0xff; 5].
Proof. apply prefixBounds_exact; repeat constructor; unfold is_byte; lia. Defined.

(** ** Keys of different records differ *)

(** [storageNamespace] is [\[48\]byte]. *)
Definition is_namespace (ns : bytes) : Prop := length ns = 48%nat /\ bytes_ok ns.

Lemma namespaced_inj kind kind' ns ns' r r' :
  length ns = length ns' ->
  namespacedPrefix kind ns ++ r = namespacedPrefix kind' ns' ++ r' -> kind = kind' /\ ns = ns' /\ r = r'.
Proof. unfold namespacedPrefix. intros Hl [= -> E]. apply app_inj_1 in E as [-> ->]; done. Qed.

Lemma namespaced_inj_nil kind kind' ns ns' r :
  length ns = length ns' -> namespacedPrefix kind ns = namespacedPrefix kind' ns' ++ r -> kind = kind' /\ ns = ns' /\ r = [].
Proof. intros Hl E. rewrite <- (app_nil_r (namespacedPrefix kind ns)) in E. apply namespaced_inj in E as (? & ? & ?); auto. Qed.

Lemma namespaced_prefix kind kind' ns ns' r :
  length ns = length ns' -> namespacedPrefix kind ns `prefix_of` namespacedPrefix kind' ns' ++ r -> kind = kind' /\ ns = ns'.
Proof. intros Hl [q E]. symmetry in E. apply namespaced_inj in E as (? & ? & ?); auto. Qed.

Lemma voteKey_inj ns k k' : voteKey ns k = voteKey ns k' -> k = k'.
Proof. unfold voteKey. by intros E%app_inv_head. Qed.

Lemma candidateIDFromKey_append prefix id :
  is_u32 (cid_Slot id) -> length (cid_Hash id) = 32%nat ->
  candidateIDFromKey (appendCandidateID prefix id) prefix = Some id.
Proof.
  intros Hs Hh. unfold candidateIDFromKey, appendCandidateID.
  rewrite !length_app, length_be_put, Hh, (proj2 (Nat.eqb_eq _ _)) by lia. cbn [negb].
  rewrite drop_app_length, take_app_length' by by rewrite length_be_put. rewrite be_get_put.
  rewrite <- drop_drop, drop_app_length, drop_app_length' by by rewrite length_be_put.
  rewrite Z.mod_small by (unfold is_u32 in Hs; lia). by destruct id.
Qed.

Lemma appendCandidateID_inj prefix a b :
  is_u32 (cid_Slot a) -> is_u32 (cid_Slot b) -> length (cid_Hash a) = 32%nat -> length (cid_Hash b) = 32%nat ->
  appendCandidateID prefix a = appendCandidateID prefix b -> a = b.
Proof.
  intros Ha Hb Hla Hlb E. pose proof (candidateIDFromKey_append prefix a Ha Hla) as H.
  rewrite E, candidateIDFromKey_append in H by done. congruence.
Qed.
