(* ===== verification/StoreCodec.v ===== *)
(** * Records of the validator store ([src/service/validator/pebblestore/codec.go],
      [collator_codec.go], [summary.go], the pointer codec of [candidate_pack.go]
      and the key codec of [validator_keys.go])

    Encoders append little-endian fields to a byte slice, decoders walk the slice
    with a position; both carry a sticky error and do nothing once it is set.
    [writes] and [reads] say what a step appends and what it consumes, so the
    round trip of a record follows from those of its fields.  Error texts are
    left out; the error itself is a flag. *)

From S2P Require Import Prelude.
From S2P Require Import SimplexTypes.
From S2P Require Import SimplexWire.
From S2P Require Import SimplexState.
From S2P Require Import StoreKeys.

#[local] Open Scope Z_scope.
#[local] Open Scope go_scope.

(** ** Data *)

(** [groups.ShardID]. *)
Record ShardID := mkShardID { sh_Workchain : Z; sh_Shard : Z }.
#[export] Instance ShardID_eq_dec : EqDecision ShardID.
Proof. solve_decision. Defined.

Definition invalidWorkchain : Z := - 2 ^ 31.
Definition masterchainWorkchain : Z := -1.
Definition masterchainShard : Z := - 2 ^ 63.
Definition maxShardDepth : Z := 60.
Definition IsMasterchain (s : ShardID) : bool :=
  (sh_Workchain s =? masterchainWorkchain) && (sh_Shard s =? masterchainShard).
Definition PrefixBits (s : ShardID) : option Z :=
  if sh_Workchain s =? invalidWorkchain then None
  else if sh_Shard s =? 0 then None
  else
    let prefixBits := 63 - TrailingZeros64 (u64 (sh_Shard s)) in
    if maxShardDepth <? prefixBits then None
    else if (sh_Workchain s =? masterchainWorkchain) && negb (IsMasterchain s) then None
    else Some prefixBits.
Definition ShardID_IsValid (s : ShardID) : bool := bool_decide (is_Some (PrefixBits s)).

Record SessionProtocol := mkSessionProtocol {
  pr_Version : Z; pr_Flags : Z; pr_ProtocolVersion : Z; pr_UseQUIC : bool; pr_SlotsPerLeaderWindow : Z }.
#[export] Instance SessionProtocol_eq_dec : EqDecision SessionProtocol.
Proof. solve_decision. Defined.

Record SessionStorageID := mkSessionStorageID {
  ss_SessionID : bytes;
  ss_Shard : ShardID;
  ss_CatchainSeqno : Z;
  ss_IsValidator : bool;
  ss_ValidatorKeyID : bytes;
  ss_LocalADNLID : bytes;
  ss_ValidatorIndex : Z;
  ss_Protocol : SessionProtocol }.
#[export] Instance SessionStorageID_eq_dec : EqDecision SessionStorageID.
Proof. solve_decision. Defined.

Definition SessionStorageID_Validate (id : SessionStorageID) : bool :=
  if bool_decide (ss_SessionID id = zeroHash) then false
  else if negb (ShardID_IsValid (ss_Shard id)) then false
  else if bool_decide (ss_LocalADNLID id = zeroHash) then false
  else if (ss_ValidatorIndex id <? ObserverIndex) || (2 ^ 31 - 1 <? ss_ValidatorIndex id) then false
  else if ss_IsValidator id then
    negb (ss_ValidatorIndex id =? ObserverIndex) && negb (bool_decide (ss_ValidatorKeyID id = zeroHash))
  else (ss_ValidatorIndex id =? ObserverIndex) && bool_decide (ss_ValidatorKeyID id = zeroHash).

(** [ObservedAt] in nanoseconds since 1970. *)
Record LeaderWindowRecord := mkLeaderWindowRecord {
  lw_Base : ParentID; lw_StartSlot : Z; lw_EndSlot : Z; lw_ObservedAt : Z }.
#[export] Instance LeaderWindowRecord_eq_dec : EqDecision LeaderWindowRecord.
Proof. solve_decision. Defined.

Record DelegationAuthorization := mkDelegationAuthorization {
  da_StartSlot : Z; da_Collator : bytes; da_Signature : bytes }.
#[export] Instance DelegationAuthorization_eq_dec : EqDecision DelegationAuthorization.
Proof. solve_decision. Defined.

(** ** The encoder *)

Record collatorRecordEncoder := mkEncoder { enc_value : bytes; enc_err : bool }.
Definition newEncoder : collatorRecordEncoder := mkEncoder [] false.
Definition enc_append (l : bytes) (e : collatorRecordEncoder) : collatorRecordEncoder :=
  if enc_err e then e else mkEncoder (enc_value e ++ l) false.
Definition enc_fail (e : collatorRecordEncoder) : collatorRecordEncoder :=
  if enc_err e then e else mkEncoder (enc_value e) true.

(** The calls on one encoder, in order. *)
Definition enc_all (calls : list (collatorRecordEncoder -> collatorRecordEncoder)) (e : collatorRecordEncoder) :
    collatorRecordEncoder := fold_left (fun e call => call e) calls e.

Definition addByte (v : Z) : collatorRecordEncoder -> collatorRecordEncoder := enc_append [v].
Definition addBool (v : bool) : collatorRecordEncoder -> collatorRecordEncoder := if v then addByte 1 else addByte 0.
Definition addUint32 (v : Z) : collatorRecordEncoder -> collatorRecordEncoder := enc_append (le_put 4 v).
Definition addInt32 (v : Z) : collatorRecordEncoder -> collatorRecordEncoder := addUint32 (u32 v).
Definition addUint64 (v : Z) : collatorRecordEncoder -> collatorRecordEncoder := enc_append (le_put 8 v).
Definition addInt64 (v : Z) : collatorRecordEncoder -> collatorRecordEncoder := addUint64 (u64 v).
Definition addFixed (v : bytes) : collatorRecordEncoder -> collatorRecordEncoder := enc_append v.
Definition addCount (count : nat) (e : collatorRecordEncoder) : collatorRecordEncoder :=
  if 2 ^ 32 - 1 <? Z.of_nat count then enc_fail e else addUint32 (Z.of_nat count) e.
Definition addBytes (v : bytes) (e : collatorRecordEncoder) : collatorRecordEncoder :=
  if 2 ^ 32 - 1 <? Z.of_nat (length v) then enc_fail e
  else enc_all [addUint32 (Z.of_nat (length v)); addFixed v] e.
Definition addBlockID (block : BlockIDExt) (e : collatorRecordEncoder) : collatorRecordEncoder :=
  if negb (length (b_RootHash block) =? 32)%nat then enc_fail e
  else if negb (length (b_FileHash block) =? 32)%nat then enc_fail e
  else enc_all [addInt32 (b_Workchain block); addInt64 (b_Shard block); addUint32 (b_SeqNo block);
                addFixed (b_RootHash block); addFixed (b_FileHash block)] e.
Definition addShard (shard : ShardID) : collatorRecordEncoder -> collatorRecordEncoder :=
  enc_all [addInt32 (sh_Workchain shard); addInt64 (sh_Shard shard)].
Definition addCandidateID (id : CandidateID) : collatorRecordEncoder -> collatorRecordEncoder :=
  enc_all [addUint32 (cid_Slot id); addFixed (cid_Hash id)].
Definition addParent (parent : ParentID) (e : collatorRecordEncoder) : collatorRecordEncoder :=
  let e := addBool (par_Exists parent) e in
  if par_Exists parent then addCandidateID (par_ID parent) e
  else if negb (bool_decide (par_ID parent = zeroCandidateID)) then enc_fail e else e.

(** ** The decoder *)

Record collatorRecordDecoder := mkDecoder { dec_value : bytes; dec_pos : nat; dec_err : bool }.
Definition newDecoder (value : bytes) : collatorRecordDecoder := mkDecoder value 0 false.

Definition Dec (A : Type) : Type := collatorRecordDecoder -> A * collatorRecordDecoder.
#[export] Instance dec_ret : MRet Dec := fun A a d => (a, d).
#[export] Instance dec_bind : MBind Dec := fun A B k m d => let '(a, d) := m d in k a d.

Definition dec_failed : Dec bool := fun d => (dec_err d, d).
Definition dec_fail : Dec unit := fun d => (tt, mkDecoder (dec_value d) (dec_pos d) true).
Definition dec_failIf (b : bool) : Dec unit :=
  failed ← dec_failed; if b && negb failed then dec_fail else mret tt.
Definition dec_left (d : collatorRecordDecoder) : Z := Z.of_nat (length (dec_value d)) - Z.of_nat (dec_pos d).

(** [take]: nil on a failed decoder or a short slice. *)
Definition dec_take (size : Z) : Dec bytes := fun d =>
  if dec_err d then ([], d)
  else if (size <? 0) || (dec_left d <? size) then ([], mkDecoder (dec_value d) (dec_pos d) true)
  else (take (Z.to_nat size) (drop (dec_pos d) (dec_value d)),
        mkDecoder (dec_value d) (dec_pos d + Z.to_nat size) false).

(** A field of [n] bytes read with [f], or its zero value. *)
Definition dec_field {A} (n : Z) (zero : A) (f : bytes -> A) : Dec A :=
  value ← dec_take n; failed ← dec_failed; mret (if (failed : bool) then zero else f value).

Definition dec_byte : Dec Z := dec_field 1 0 (fun v => nth 0 v 0).
Definition dec_boolean : Dec bool :=
  value ← dec_byte; failed ← dec_failed;
  if (failed : bool) then mret false
  else if value =? 0 then mret false
  else if value =? 1 then mret true
  else (dec_fail ≫= fun _ => mret false).
Definition dec_uint32 : Dec Z := dec_field 4 0 le_get.
Definition dec_int32 : Dec Z := v ← dec_uint32; mret (i32 v).
Definition dec_uint64 : Dec Z := dec_field 8 0 le_get.
Definition dec_int64 : Dec Z := v ← dec_uint64; mret (i64 v).
Definition dec_fixed (size : Z) : Dec bytes := dec_field size [] (fun v => v).
Definition dec_bytes : Dec bytes :=
  size ← dec_uint32; failed ← dec_failed;
  if (failed : bool) then mret []
  else fun d =>
    if dec_left d <? size then ([], mkDecoder (dec_value d) (dec_pos d) true) else dec_fixed size d.
Definition dec_count (minimumRecordSize : Z) : Dec nat :=
  count ← dec_uint32; failed ← dec_failed;
  if (failed : bool) then mret 0%nat
  else fun d =>
    if (0 <? minimumRecordSize) && (dec_left d / minimumRecordSize <? count)
    then (0%nat, mkDecoder (dec_value d) (dec_pos d) true) else (Z.to_nat count, d).

(** [copy(dst\[:\], src)] into a zeroed [\[32\]byte]. *)
Definition copy32 (src : bytes) : bytes := take 32 src ++ drop (length src) zeroHash.
Definition dec_hash : Dec bytes := v ← dec_fixed 32; mret (copy32 v).

Definition dec_shard : Dec ShardID := w ← dec_int32; s ← dec_int64; mret (mkShardID w s).
Definition dec_blockID : Dec BlockIDExt :=
  w ← dec_int32; s ← dec_int64; n ← dec_uint32; r ← dec_fixed 32; f ← dec_fixed 32; mret (mkBlockIDExt w s n r f).
Definition dec_candidateID : Dec CandidateID := slot ← dec_uint32; hash ← dec_hash; mret (mkCandidateID slot hash).
Definition dec_parent : Dec ParentID :=
  present ← dec_boolean;
  if negb present then mret (mkParentID false zeroCandidateID) else id ← dec_candidateID; mret (Parent id).

(** [finish]: no error and nothing left over. *)
Definition dec_finish (d : collatorRecordDecoder) : bool :=
  negb (dec_err d) && (dec_pos d =? length (dec_value d))%nat.

(** The errors of the codecs. *)
Inductive codec_error := ErrVersion | ErrMalformed | ErrInvalid.
#[export] Instance codec_error_eq_dec : EqDecision codec_error.
Proof. solve_decision. Defined.

(** A record: the version byte, the fields, nothing after them. *)
Definition decode_record {A} (version : Z) (body : Dec A) (value : bytes) : result codec_error A :=
  let '(v, d) := dec_byte (newDecoder value) in
  if negb (dec_err d) && negb (v =? version) then Err ErrVersion
  else
    let '(a, d) := body d in
    if dec_finish d then Ok a else Err ErrMalformed.

(** ** [codec.go] *)

Definition descriptorVersion : Z := 1.
Definition leaderVersion : Z := 1.
Definition leaderRecordSize : nat := 54.
Definition delegationAuthorizationVersion : Z := 1.

Definition encodeSessionID (id : SessionStorageID) : bytes :=
  enc_value (enc_all
    [addByte descriptorVersion;
     addFixed (ss_SessionID id);
     addShard (ss_Shard id);
     addUint32 (ss_CatchainSeqno id);
     addBool (ss_IsValidator id);
     addFixed (ss_ValidatorKeyID id);
     addFixed (ss_LocalADNLID id);
     addInt32 (i32 (ss_ValidatorIndex id));
     addByte (pr_Version (ss_Protocol id));
     addByte (pr_Flags (ss_Protocol id));
     addByte (pr_ProtocolVersion (ss_Protocol id));
     addBool (pr_UseQUIC (ss_Protocol id));
     addUint32 (pr_SlotsPerLeaderWindow (ss_Protocol id))] newEncoder).

Definition dec_sessionID : Dec SessionStorageID :=
  sessionID ← dec_hash; shard ← dec_shard; ccSeqno ← dec_uint32; isValidator ← dec_boolean;
  keyID ← dec_hash; adnlID ← dec_hash; index ← dec_int32;
  version ← dec_byte; flags ← dec_byte; protocolVersion ← dec_byte; useQUIC ← dec_boolean; slots ← dec_uint32;
  mret (mkSessionStorageID sessionID shard ccSeqno isValidator keyID adnlID index
    (mkSessionProtocol version flags protocolVersion useQUIC slots)).

Definition decodeSessionID (value : bytes) : result codec_error SessionStorageID :=
  try id := decode_record descriptorVersion dec_sessionID value in
  if SessionStorageID_Validate id then Ok id else Err ErrInvalid.

Definition validateLeaderWindow (w : LeaderWindowRecord) : bool :=
  if lw_EndSlot w <=? lw_StartSlot w then false
  else if negb (par_Exists (lw_Base w)) && negb (bool_decide (par_ID (lw_Base w) = zeroCandidateID)) then false
  else true.

Definition encodeLeaderWindow (w : LeaderWindowRecord) : bytes :=
  enc_value (enc_all
    [addByte leaderVersion;
     addBool (par_Exists (lw_Base w));
     addUint32 (cid_Slot (par_ID (lw_Base w)));
     addFixed (cid_Hash (par_ID (lw_Base w)));
     addUint32 (lw_StartSlot w);
     addUint32 (lw_EndSlot w);
     addInt64 (i64 (lw_ObservedAt w))] newEncoder).

Definition dec_leaderWindow : Dec LeaderWindowRecord :=
  exists_ ← dec_boolean; slot ← dec_uint32; hash ← dec_hash; startSlot ← dec_uint32; endSlot ← dec_uint32;
  observedAt ← dec_int64;
  mret (mkLeaderWindowRecord (mkParentID exists_ (mkCandidateID slot hash)) startSlot endSlot observedAt).

Definition decodeLeaderWindow (value : bytes) : result codec_error LeaderWindowRecord :=
  try w := decode_record leaderVersion dec_leaderWindow value in
  if validateLeaderWindow w then Ok w else Err ErrInvalid.

Definition validateDelegationAuthorization (a : DelegationAuthorization) : bool :=
  if bool_decide (da_Collator a = zeroHash) then false else (length (da_Signature a) =? SignatureSize)%nat.

Definition encodeDelegationAuthorization (a : DelegationAuthorization) : result codec_error bytes :=
  if negb (validateDelegationAuthorization a) then Err ErrInvalid
  else Ok (enc_value (enc_all
    [addByte delegationAuthorizationVersion;
     addUint32 (da_StartSlot a);
     addFixed (da_Collator a);
     addFixed (da_Signature a)] newEncoder)).

Definition dec_delegationAuthorization : Dec DelegationAuthorization :=
  startSlot ← dec_uint32; collator ← dec_hash; signature ← dec_fixed (Z.of_nat SignatureSize);
  mret (mkDelegationAuthorization startSlot collator signature).

Definition decodeDelegationAuthorization (value : bytes) : result codec_error DelegationAuthorization :=
  try a := decode_record delegationAuthorizationVersion dec_delegationAuthorization value in
  if validateDelegationAuthorization a then Ok a else Err ErrInvalid.

(** ** [summary.go] *)

(** [value\[a:b\]] within bounds. *)
Definition slice (value : bytes) (a b : nat) : bytes := take (b - a) (drop a value).
Definition byte_at (value : bytes) (i : nat) : Z := nth i value 0.

Definition summaryVersion : Z := 1.
Definition summarySize : nat := 137.

Record sessionSummary := mkSummary {
  su_candidates : Z;
  su_finalized : Z;
  su_votesCount : Z;
  su_certificates : Z;
  su_leaderWindows : Z;
  su_firstNonAnnouncedWindow : Z;
  su_lastFinalized : option CandidateID;
  su_lastLeaderWindow : option LeaderWindowRecord }.
#[export] Instance eta_sessionSummary : Eta sessionSummary := fun s =>
  mkSummary (su_candidates s) (su_finalized s) (su_votesCount s) (su_certificates s) (su_leaderWindows s)
    (su_firstNonAnnouncedWindow s) (su_lastFinalized s) (su_lastLeaderWindow s).
Definition emptySummary : sessionSummary := mkSummary 0 0 0 0 0 0 None None.

Definition encodeSessionSummary (s : sessionSummary) : bytes :=
  [summaryVersion] ++ le_put 8 (su_candidates s) ++ le_put 8 (su_finalized s) ++ le_put 8 (su_votesCount s) ++
  le_put 8 (su_certificates s) ++ le_put 8 (su_leaderWindows s) ++ le_put 4 (su_firstNonAnnouncedWindow s) ++
  match su_lastFinalized s with
  | Some id => appendCandidateID [1] id
  | None => [0] ++ replicate 36 0
  end ++
  match su_lastLeaderWindow s with
  | Some w => [1] ++ encodeLeaderWindow w
  | None => [0] ++ replicate leaderRecordSize 0
  end.

Definition isZero (value : bytes) : bool := forallb (fun b => b =? 0) value.

Definition decodeSessionSummary (value : bytes) : result codec_error sessionSummary :=
  if negb (length value =? summarySize)%nat then Err ErrMalformed
  else if negb (byte_at value 0 =? summaryVersion) then Err ErrVersion
  else
    try lastFinalized :=
      (if byte_at value 45 =? 0 then if negb (isZero (slice value 46 82)) then Err ErrInvalid else Ok None
       else if byte_at value 45 =? 1 then Ok (Some (mkCandidateID (be_get (slice value 46 50)) (slice value 50 82)))
       else Err ErrInvalid) in
    try lastLeaderWindow :=
      (if byte_at value 82 =? 0 then if negb (isZero (slice value 83 137)) then Err ErrInvalid else Ok None
       else if byte_at value 82 =? 1 then try w := decodeLeaderWindow (slice value 83 137) in Ok (Some w)
       else Err ErrInvalid) in
    let s := mkSummary (le_get (slice value 1 9)) (le_get (slice value 9 17)) (le_get (slice value 17 25))
      (le_get (slice value 25 33)) (le_get (slice value 33 41)) (le_get (slice value 41 45))
      lastFinalized lastLeaderWindow in
    if negb (Bool.eqb (su_finalized s =? 0) (bool_decide (su_lastFinalized s = None))) then Err ErrInvalid
    else if negb (Bool.eqb (su_leaderWindows s =? 0) (bool_decide (su_lastLeaderWindow s = None))) then Err ErrInvalid
    else Ok s.

Definition candidateIDLess (a b : CandidateID) : bool :=
  if negb (cid_Slot a =? cid_Slot b) then cid_Slot a <? cid_Slot b else bytes_Less (cid_Hash a) (cid_Hash b).

(** ** The pointer of [candidate_pack.go] *)

Definition candidatePackPointerSize : nat := 49.
Definition candidatePackPointerV1 : Z := 1.
Record candidatePackPointer := mkPackPointer { pp_segment : Z; pp_offset : Z; pp_size : Z; pp_hash : bytes }.
#[export] Instance candidatePackPointer_eq_dec : EqDecision candidatePackPointer.
Proof. solve_decision. Defined.

Definition encodeCandidatePackPointer (p : candidatePackPointer) : bytes :=
  [candidatePackPointerV1] ++ le_put 4 (pp_segment p) ++ le_put 8 (pp_offset p) ++ le_put 4 (pp_size p) ++ pp_hash p.
Definition decodeCandidatePackPointer (value : bytes) : result codec_error candidatePackPointer :=
  if negb (length value =? candidatePackPointerSize)%nat then Err ErrMalformed
  else if negb (byte_at value 0 =? candidatePackPointerV1) then Err ErrVersion
  else Ok (mkPackPointer (le_get (slice value 1 5)) (le_get (slice value 5 13)) (le_get (slice value 13 17))
    (slice value 17 49)).

(** ** The keys of [validator_keys.go] *)

Definition validatorKeyVersion : Z := 1.
Definition validatorKeyValueSize : nat := 82.
Definition validatorKeyFlagPermanent : Z := 1.
Definition validatorKeyFlagADNL : Z := 2.
Definition validatorKeyKnownFlags : Z := 3.

Record StoredKey := mkStoredKey {
  sk_ID : bytes; sk_Seed : bytes; sk_Permanent : bool; sk_ElectionDate : Z; sk_PermanentExpireAt : Z;
  sk_TempExpireAt : Z; sk_HasADNL : bool; sk_ADNLID : bytes; sk_ADNLExpireAt : Z }.
#[export] Instance StoredKey_eq_dec : EqDecision StoredKey.
Proof. solve_decision. Defined.

Definition validateValidatorKey (k : StoredKey) : bool :=
  if negb (sk_Permanent k) &&
     (negb (sk_ElectionDate k =? 0) || negb (sk_PermanentExpireAt k =? 0) || negb (sk_TempExpireAt k =? 0) || sk_HasADNL k)
  then false
  else if negb (sk_HasADNL k) && (negb (bool_decide (sk_ADNLID k = zeroHash)) || negb (sk_ADNLExpireAt k =? 0)) then false
  else true.

Definition encodeValidatorKey (k : StoredKey) : result codec_error bytes :=
  if negb (validateValidatorKey k) then Err ErrInvalid
  else
    let flags := if sk_Permanent k then Z.lor 0 validatorKeyFlagPermanent else 0 in
    let flags := if sk_HasADNL k then Z.lor flags validatorKeyFlagADNL else flags in
    Ok ([validatorKeyVersion; flags] ++ sk_Seed k ++ le_put 4 (sk_ElectionDate k) ++ le_put 4 (sk_PermanentExpireAt k) ++
        le_put 4 (sk_TempExpireAt k) ++ sk_ADNLID k ++ le_put 4 (sk_ADNLExpireAt k)).

Definition decodeValidatorKey (id value : bytes) : result codec_error StoredKey :=
  if negb (length value =? validatorKeyValueSize)%nat then Err ErrMalformed
  else if negb (byte_at value 0 =? validatorKeyVersion) then Err ErrVersion
  else
    let flags := byte_at value 1 in
    if negb (Z.ldiff flags validatorKeyKnownFlags =? 0) then Err ErrInvalid
    else
      let k := mkStoredKey id (slice value 2 34) (negb (Z.land flags validatorKeyFlagPermanent =? 0))
        (le_get (slice value 34 38)) (le_get (slice value 38 42)) (le_get (slice value 42 46))
        (negb (Z.land flags validatorKeyFlagADNL =? 0)) (slice value 46 78) (le_get (slice value 78 82)) in
      if validateValidatorKey k then Ok k else Err ErrInvalid.

(** ** What a step writes and reads *)

Definition writes (f : collatorRecordEncoder -> collatorRecordEncoder) (l : bytes) : Prop :=
  forall v, f (mkEncoder v false) = mkEncoder (v ++ l) false.
Definition reads {A} (m : Dec A) (l : bytes) (a : A) : Prop :=
  forall pre post, m (mkDecoder (pre ++ l ++ post) (length pre) false)
    = (a, mkDecoder (pre ++ l ++ post) (length pre + length l) false).

(** A step and its inverse: the decoder reads back what the encoder wrote. *)
Definition codes {A} (f : collatorRecordEncoder -> collatorRecordEncoder) (m : Dec A) (a : A) : Prop :=
  exists l, writes f l /\ reads m l a.

Lemma reads_ret {A} (a : A) : reads (mret a) [] a.
Proof. intros pre post. by rewrite Nat.add_0_r. Qed.
Lemma reads_bind {A B} (m : Dec A) (k : A -> Dec B) l l' a b :
  reads m l a -> reads (k a) l' b -> reads (m ≫= k) (l ++ l') b.
Proof.
  intros Hm Hk pre post. unfold mbind, dec_bind. rewrite <- app_assoc, Hm.
  specialize (Hk (pre ++ l) post). rewrite length_app, <- app_assoc in Hk. rewrite Hk.
  by rewrite length_app, Nat.add_assoc.
Qed.
Lemma reads_map {A B} (m : Dec A) (f : A -> B) l a : reads m l a -> reads (v ← m; mret (f v)) l (f a).
Proof. intros Hm. rewrite <- (app_nil_r l). by eapply reads_bind, reads_ret. Qed.
Lemma reads_failed {A} (m : bool -> Dec A) l a : reads (m false) l a -> reads (failed ← dec_failed; m failed) l a.
Proof. intros Hm pre post. apply Hm. Qed.
Lemma reads_failIf {A} b (m : Dec A) l a : b = false -> reads m l a -> reads (dec_failIf b ≫= fun _ => m) l a.
Proof. intros -> Hm pre post. apply Hm. Qed.

Lemma reads_take size l : size = Z.of_nat (length l) -> reads (dec_take size) l l.
Proof.
  intros -> pre post. unfold dec_take, dec_left. cbn [dec_err dec_value dec_pos].
  rewrite !length_app, (proj2 (Z.ltb_ge _ _)) by lia. rewrite (proj2 (Z.ltb_ge _ _)) by lia. cbn [orb].
  by rewrite Nat2Z.id, drop_app_length, take_app_length.
Qed.
Lemma reads_field {A} n (zero : A) f l : n = Z.of_nat (length l) -> reads (dec_field n zero f) l (f l).
Proof.
  intros Hn. unfold dec_field. rewrite <- (app_nil_r l) at 1. eapply reads_bind; [by apply reads_take|].
  apply reads_failed, reads_ret.
Qed.

Lemma codes_append {A} l (m : Dec A) a : reads m l a -> codes (enc_append l) m a.
Proof. intros Hm. by exists l. Qed.
Lemma codes_nil {A} (a : A) : codes (enc_all []) (mret a) a.
Proof. exists []. split; [|apply reads_ret]. intros v. by rewrite app_nil_r. Qed.
Lemma codes_cons {A B} f fs (m : Dec A) (k : A -> Dec B) a b :
  codes f m a -> codes (enc_all fs) (k a) b -> codes (enc_all (f :: fs)) (m ≫= k) b.
Proof.
  intros (l & Hf & Hm) (l' & Hfs & Hk). exists (l ++ l'). split; [|by eapply reads_bind].
  intros v. unfold enc_all in *. simpl. by rewrite Hf, Hfs, app_assoc.
Qed.
Lemma codes_map {A B} f (m : Dec A) (g : A -> B) a : codes f m a -> codes f (v ← m; mret (g v)) (g a).
Proof. intros (l & Hf & Hm). exists l. split; [done|]. by apply reads_map. Qed.
Lemma codes_map' {A B} f (m : Dec A) (g : A -> B) a b : g a = b -> codes f m a -> codes f (v ← m; mret (g v)) b.
Proof. intros <-. apply codes_map. Qed.
Lemma codes_failIf {A} f b (m : Dec A) a : b = false -> codes f m a -> codes f (dec_failIf b ≫= fun _ => m) a.
Proof. intros Hb (l & Hf & Hm). exists l. split; [done|]. by apply reads_failIf. Qed.

(** A whole record. *)
Lemma codes_run {A} f (m : Dec A) a : codes f m a ->
  enc_err (f newEncoder) = false /\
  exists d, m (newDecoder (enc_value (f newEncoder))) = (a, d) /\ dec_finish d = true.
Proof.
  intros (l & Hf & Hm). assert (f newEncoder = mkEncoder l false) as -> by apply Hf. split; [done|].
  specialize (Hm [] []). simpl in Hm. rewrite app_nil_r in Hm. eexists. split; [exact Hm|].
  unfold dec_finish. simpl. by rewrite Nat.eqb_refl.
Qed.

Lemma codes_byte v : codes (addByte v) dec_byte v.
Proof. apply codes_append. by apply (reads_field 1 0 (fun v => nth 0 v 0) [v]). Qed.
Lemma codes_uint32 v : is_u32 v -> codes (addUint32 v) dec_uint32 v.
Proof.
  intros Hv. apply codes_append. rewrite <- (le_put4_get v Hv) at 2. apply reads_field. by rewrite length_le_put.
Qed.
Lemma codes_uint64 v : is_u64 v -> codes (addUint64 v) dec_uint64 v.
Proof.
  intros Hv. apply codes_append. rewrite <- (le_put8_get v Hv) at 2. apply reads_field. by rewrite length_le_put.
Qed.
Lemma codes_int32 v : is_i32 v -> codes (addInt32 v) dec_int32 v.
Proof. intros Hv. eapply codes_map'; [by apply i32_u32|]. apply codes_uint32, u32_range. Qed.
Lemma codes_int64 v : is_i64 v -> codes (addInt64 v) dec_int64 v.
Proof. intros Hv. eapply codes_map'; [by apply i64_u64|]. apply codes_uint64, u64_range. Qed.
Lemma codes_bool v : codes (addBool v) dec_boolean v.
Proof.
  destruct v; [exists [1]|exists [0]]; (split; [done|]); rewrite <- (app_nil_r [_]);
    (eapply reads_bind; [by apply (reads_field 1 0 (fun v => nth 0 v 0) [_])|apply reads_failed, reads_ret]).
Qed.
Lemma codes_fixed n v : n = Z.of_nat (length v) -> codes (addFixed v) (dec_fixed n) v.
Proof. intros Hn. apply codes_append. by apply (reads_field n [] (fun v => v) v). Qed.
Lemma copy32_id v : length v = 32%nat -> copy32 v = v.
Proof. intros Hl. unfold copy32. rewrite take_ge by lia. rewrite drop_ge; [by rewrite app_nil_r|]. by rewrite Hl. Qed.
Lemma codes_hash v : length v = 32%nat -> codes (addFixed v) dec_hash v.
Proof. intros Hl. eapply codes_map'; [by apply copy32_id|]. apply codes_fixed. by rewrite Hl. Qed.

Lemma codes_shard s : is_i32 (sh_Workchain s) -> is_i64 (sh_Shard s) -> codes (addShard s) dec_shard s.
Proof.
  intros Hw Hs. destruct s as [w s]. eapply codes_cons; [by apply codes_int32|].
  eapply codes_cons; [by apply codes_int64|]. apply codes_nil.
Qed.

Lemma decode_record_codes {A} version fs (body : Dec A) a :
  codes (enc_all fs) body a ->
  decode_record version body (enc_value (enc_all (addByte version :: fs) newEncoder)) = Ok a.
Proof.
  intros Hb. assert (codes (enc_all (addByte version :: fs)) (v ← dec_byte; a ← body; mret (v, a)) (version, a)) as Hc.
  { eapply codes_cons; [apply codes_byte|]. by apply codes_map. }
  apply codes_run in Hc as (_ & d & E & Hd). unfold decode_record, mbind, dec_bind, mret, dec_ret in *.
  destruct (dec_byte _) as [v d1], (body d1) as [a' d2] eqn:Eb. injection E as -> -> ->.
  rewrite Z.eqb_refl, andb_false_r. by rewrite Hd.
Qed.

(** ** The descriptors of [codec.go] round trip *)

Definition wf_shard (s : ShardID) : Prop := is_i32 (sh_Workchain s) /\ is_i64 (sh_Shard s).

Record wf_session (id : SessionStorageID) : Prop := {
  ws_session : length (ss_SessionID id) = 32%nat;
  ws_shard : wf_shard (ss_Shard id);
  ws_cc : is_u32 (ss_CatchainSeqno id);
  ws_key : length (ss_ValidatorKeyID id) = 32%nat;
  ws_adnl : length (ss_LocalADNLID id) = 32%nat;
  ws_slots : is_u32 (pr_SlotsPerLeaderWindow (ss_Protocol id)) }.

(** One step of a record: its first field and the rest. *)
Ltac codes_step :=
  first
    [ apply codes_nil
    | eapply codes_cons;
      [first [apply codes_byte | apply codes_bool | by apply codes_uint32 | by apply codes_uint64 | by apply codes_int32
             | by apply codes_int64 | by apply codes_hash | by apply codes_shard | by apply codes_fixed]|] ].
Ltac codes_auto := repeat codes_step.

Lemma i32_small x : is_i32 x -> i32 x = x.
Proof. unfold i32, is_i32. intros. rewrite Z.mod_small; lia. Qed.
Lemma i64_small x : is_i64 x -> i64 x = x.
Proof. unfold i64, is_i64. intros. rewrite Z.mod_small; lia. Qed.

Lemma Validate_index id : SessionStorageID_Validate id = true -> is_i32 (ss_ValidatorIndex id).
Proof.
  unfold SessionStorageID_Validate. destruct (_ || _) eqn:E; [by repeat case_match|]. intros _.
  apply orb_false_iff in E as [?%Z.ltb_ge ?%Z.ltb_ge]. unfold is_i32, ObserverIndex in *. lia.
Qed.

Lemma decode_encode_sessionID id :
  wf_session id -> SessionStorageID_Validate id = true -> decodeSessionID (encodeSessionID id) = Ok id.
Proof.
  intros [H1 [H2 H2'] H3 H4 H5 H6] Hv. unfold decodeSessionID, encodeSessionID.
  pose proof (i32_small _ (Validate_index id Hv)) as Hi. pose proof (Validate_index id Hv). rewrite Hi.
  rewrite (decode_record_codes _ _ _ id); [simpl; by rewrite Hv|].
  destruct id as [sid sh cc val key adnl ix [v f pv q sl]]; simpl in *. unfold dec_sessionID. codes_auto.
Qed.

Definition wf_window (w : LeaderWindowRecord) : Prop :=
  is_u32 (cid_Slot (par_ID (lw_Base w))) /\ length (cid_Hash (par_ID (lw_Base w))) = 32%nat /\
  is_u32 (lw_StartSlot w) /\ is_u32 (lw_EndSlot w) /\ is_i64 (lw_ObservedAt w).

Lemma decode_encode_leaderWindow w :
  wf_window w -> validateLeaderWindow w = true -> decodeLeaderWindow (encodeLeaderWindow w) = Ok w.
Proof.
  intros (H1 & H2 & H3 & H4 & H5) Hv. unfold decodeLeaderWindow, encodeLeaderWindow. rewrite i64_small by done.
  rewrite (decode_record_codes _ _ _ w); [simpl; by rewrite Hv|].
  destruct w as [[ex [sl h]] st en ob]; simpl in *. unfold dec_leaderWindow. codes_auto.
Qed.

Lemma decode_encode_delegation a :
  is_u32 (da_StartSlot a) -> length (da_Collator a) = 32%nat -> validateDelegationAuthorization a = true ->
  exists value, encodeDelegationAuthorization a = Ok value /\ decodeDelegationAuthorization value = Ok a.
Proof.
  intros H1 H2 Hv. unfold encodeDelegationAuthorization. rewrite Hv. cbn [negb]. eexists. split; [done|].
  unfold decodeDelegationAuthorization. rewrite (decode_record_codes _ _ _ a); [simpl; by rewrite Hv|].
  destruct a as [st co sg]; simpl in *. unfold validateDelegationAuthorization in Hv. simpl in Hv.
  case_match; [done|]. apply Nat.eqb_eq in Hv. unfold dec_delegationAuthorization. codes_step. codes_step.
  eapply codes_cons; [apply codes_fixed; by rewrite Hv|]. codes_auto.
Qed.

(** ** Fixed layouts *)

Lemma slice_skip p l a b : (length p <= a)%nat -> slice (p ++ l) a b = slice l (a - length p) (b - length p).
Proof.
  intros Hl. unfold slice. rewrite drop_app_ge by done. f_equal. lia.
Qed.
Lemma slice_hit p l b : length p = b -> slice (p ++ l) 0 b = p.
Proof. intros <-. unfold slice. by rewrite Nat.sub_0_r, drop_0, take_app_length. Qed.
Lemma slice_all p b : length p = b -> slice p 0 b = p.
Proof. intros <-. unfold slice. by rewrite Nat.sub_0_r, drop_0, take_ge. Qed.
Lemma byte_at_skip p l i : (length p <= i)%nat -> byte_at (p ++ l) i = byte_at l (i - length p).
Proof. intros Hl. unfold byte_at. by rewrite app_nth2 by lia. Qed.

(** Computes the parts of a concatenation whose lengths are known. *)
Ltac known_length :=
  rewrite ?length_app, ?length_le_put, ?length_be_put, ?length_replicate; simpl;
  repeat match goal with H : length _ = _ |- _ => rewrite H end; simpl; lia.
Lemma byte_at_0 x l : byte_at ([x] ++ l) 0 = x.
Proof. done. Qed.
Ltac layout_step :=
  match goal with
  | |- context [byte_at ([?x] ++ ?l) 0] => rewrite (byte_at_0 x l)
  | |- context [slice (?p ++ ?l) ?a ?b] =>
      first [rewrite (slice_hit p l b) by known_length
            |rewrite (slice_skip p l a b) by known_length;
             rewrite ?length_le_put, ?length_be_put, ?length_replicate;
             repeat match goal with H : length ?x = _ |- context [length ?x] => rewrite H end; cbn [length Nat.sub]]
  | |- context [slice ?p 0 ?b] => rewrite (slice_all p b) by known_length
  | |- context [byte_at (?p ++ ?l) ?i] =>
      rewrite (byte_at_skip p l i) by known_length;
      rewrite ?length_le_put, ?length_be_put, ?length_replicate;
      repeat match goal with H : length ?x = _ |- context [length ?x] => rewrite H end; cbn [length Nat.sub]
  end.
Ltac layout := repeat layout_step.

Lemma decode_encode_pointer p :
  is_u32 (pp_segment p) -> is_u64 (pp_offset p) -> is_u32 (pp_size p) -> length (pp_hash p) = 32%nat ->
  decodeCandidatePackPointer (encodeCandidatePackPointer p) = Ok p.
Proof.
  intros H1 H2 H3 H4. unfold decodeCandidatePackPointer, encodeCandidatePackPointer, candidatePackPointerSize.
  rewrite (proj2 (Nat.eqb_eq (length _) _)) by known_length. cbn [negb].
  change (byte_at ([candidatePackPointerV1] ++ _) 0) with candidatePackPointerV1. rewrite Z.eqb_refl. cbn [negb].
  layout. rewrite !le_put4_get, le_put8_get by done. by destruct p.
Qed.

Record wf_summary (s : sessionSummary) : Prop := {
  wm_candidates : is_u64 (su_candidates s);
  wm_finalized : is_u64 (su_finalized s);
  wm_votes : is_u64 (su_votesCount s);
  wm_certificates : is_u64 (su_certificates s);
  wm_windows : is_u64 (su_leaderWindows s);
  wm_first : is_u32 (su_firstNonAnnouncedWindow s);
  wm_last : forall id, su_lastFinalized s = Some id -> is_u32 (cid_Slot id) /\ length (cid_Hash id) = 32%nat;
  wm_window : forall w, su_lastLeaderWindow s = Some w -> wf_window w /\ validateLeaderWindow w = true;
  wm_finalized_iff : su_finalized s = 0 <-> su_lastFinalized s = None;
  wm_windows_iff : su_leaderWindows s = 0 <-> su_lastLeaderWindow s = None }.

Lemma length_encodeLeaderWindow w :
  length (cid_Hash (par_ID (lw_Base w))) = 32%nat -> length (encodeLeaderWindow w) = leaderRecordSize.
Proof.
  intros Hh. unfold encodeLeaderWindow, enc_all, addBool, addByte, addUint32, addFixed, addInt64, addUint64, enc_append, newEncoder.
  destruct (par_Exists _); cbn [fold_left enc_err enc_value]; unfold leaderRecordSize; known_length.
Qed.

Lemma be_put4_get x : is_u32 x -> be_get (be_put 4 x) = x.
Proof. unfold is_u32. intros. rewrite be_get_put, Z.mod_small; [done|]. change (2 ^ (8 * Z.of_nat 4)) with (2 ^ 32). lia. Qed.
Lemma isZero_replicate n : isZero (replicate n 0) = true.
Proof. by induction n. Qed.

Lemma eqb_iff_None {A} (z : Z) (o : option A) `{!Decision (o = None)} :
  (z = 0 <-> o = None) -> Bool.eqb (z =? 0) (bool_decide (o = None)) = true.
Proof. intros Hz. apply eqb_true_iff. destruct (Z.eqb_spec z 0); symmetry; [apply bool_decide_eq_true|apply bool_decide_eq_false]; tauto. Qed.

Lemma decode_encode_summary s : wf_summary s -> decodeSessionSummary (encodeSessionSummary s) = Ok s.
Proof.
  intros [H1 H2 H3 H4 H5 H6 H7 H8 H9 H10]. unfold decodeSessionSummary, encodeSessionSummary, summarySize.
  pose proof (eqb_iff_None _ _ H9) as E9. pose proof (eqb_iff_None _ _ H10) as E10. clear H9 H10.
  destruct (su_lastFinalized s) as [id|] eqn:Ef; [destruct (H7 id eq_refl) as [Hs Hh]|];
  (destruct (su_lastLeaderWindow s) as [w|] eqn:Ew;
    [destruct (H8 w eq_refl) as [Hw Hv]; pose proof (length_encodeLeaderWindow w (proj1 (proj2 Hw))) as Hl; unfold leaderRecordSize in Hl|]);
  unfold appendCandidateID, leaderRecordSize; rewrite <- ?app_assoc;
  (rewrite (proj2 (Nat.eqb_eq (length _) _)) by known_length); cbn [negb]; layout;
  rewrite ?isZero_replicate, ?decode_encode_leaderWindow, ?be_put4_get by done;
  cbn [negb Z.eqb Pos.eqb and_then summaryVersion su_finalized su_leaderWindows su_lastFinalized su_lastLeaderWindow];
  rewrite ?le_put4_get, ?le_put8_get by done;
  (try replace (mkCandidateID (cid_Slot id) (cid_Hash id)) with id by (by destruct id));
  rewrite E9, E10; cbn [negb]; rewrite <- Ef, <- Ew; by destruct s.
Qed.

Lemma decode_encode_key k :
  length (sk_Seed k) = 32%nat -> length (sk_ADNLID k) = 32%nat -> is_u32 (sk_ElectionDate k) ->
  is_u32 (sk_PermanentExpireAt k) -> is_u32 (sk_TempExpireAt k) -> is_u32 (sk_ADNLExpireAt k) ->
  validateValidatorKey k = true ->
  exists value, encodeValidatorKey k = Ok value /\ decodeValidatorKey (sk_ID k) value = Ok k.
Proof.
  intros H1 H2 H3 H4 H5 H6 Hv. unfold encodeValidatorKey. rewrite Hv. cbn [negb]. eexists. split; [done|].
  unfold decodeValidatorKey, validatorKeyValueSize.
  set (flags := if sk_HasADNL k then _ else _).
  assert (Z.ldiff flags validatorKeyKnownFlags = 0 /\ negb (Z.land flags validatorKeyFlagPermanent =? 0) = sk_Permanent k /\
    negb (Z.land flags validatorKeyFlagADNL =? 0) = sk_HasADNL k) as (F1 & F2 & F3)
    by (unfold flags; by destruct (sk_Permanent k), (sk_HasADNL k)).
  rewrite (proj2 (Nat.eqb_eq (length _) _)) by known_length. cbn [negb].
  change ([validatorKeyVersion; flags] ++ ?l) with ([validatorKeyVersion] ++ [flags] ++ l).
  layout. rewrite Z.eqb_refl, F1, Z.eqb_refl, F2, F3, !le_put4_get by done. cbn [negb].
  by destruct k; simpl in *; rewrite Hv.
Qed.
