(* ===== verification/CollatorCodec.v ===== *)
(** * Records of the collator store ([src/service/validator/pebblestore/collator_codec.go],
      the types of [src/service/validator/collator/session_types.go] and their
      comparisons in [session_dto.go] and [session_transition.go])

    A collator session has an immutable descriptor, an optional activation and a
    chain view that only advances; a candidate record is the marker that keeps a
    restarted producer from signing a slot twice.  The encoder and decoder steps
    are those of [StoreCodec.v].  Proved here: what an encoder accepts, the
    decoder reads back unchanged, and the capacity computed for a marker is the
    length of its encoding. *)

From S2P Require Import Prelude.
From S2P Require Import SimplexTypes.
From S2P Require Import SimplexWire.
From S2P Require Import SimplexState.
From S2P Require Import StoreKeys.
From S2P Require Import StoreCodec.

#[local] Open Scope Z_scope.
#[local] Open Scope go_scope.

(** ** Data *)

(** [time.Time] as an instant: Unix seconds and nanoseconds. *)
Record Time := mkTime { t_Unix : Z; t_Nanosecond : Z }.
#[export] Instance Time_eq_dec : EqDecision Time.
Proof. solve_decision. Defined.
Definition zeroTime : Time := mkTime (-62135596800) 0.
Definition time_Equal (a b : Time) : bool := (t_Unix a =? t_Unix b) && (t_Nanosecond a =? t_Nanosecond b).
Definition time_IsZero (t : Time) : bool := time_Equal t zeroTime.
Definition second : Z := 1000000000.

(** [groups.ShardFSM] and [groups.ShardDescription]. *)
Definition ShardFSMNone : Z := 0.
Definition ShardFSMSplit : Z := 1.
Definition ShardFSMMerge : Z := 2.
Record ShardFSM := mkShardFSM { fsm_Kind : Z; fsm_UTime : Z; fsm_Interval : Z }.
#[export] Instance ShardFSM_eq_dec : EqDecision ShardFSM.
Proof. solve_decision. Defined.
Record ShardDescription := mkShardDescription {
  sd_Shard : ShardID;
  sd_Block : BlockIDExt;
  sd_NextCatchainSeqno : Z;
  sd_BeforeSplit : bool;
  sd_BeforeMerge : bool;
  sd_FSM : ShardFSM }.
#[export] Instance ShardDescription_eq_dec : EqDecision ShardDescription.
Proof. solve_decision. Defined.

Record SessionValidator := mkSessionValidator { sv_PublicKey : bytes; sv_ADNLID : bytes; sv_Weight : Z }.
#[export] Instance SessionValidator_eq_dec : EqDecision SessionValidator.
Proof. solve_decision. Defined.

Record Session := mkSession {
  cs_ID : bytes;
  cs_Shard : ShardID;
  cs_CatchainSeqno : Z;
  cs_ValidatorSetHash : Z;
  cs_ConsensusVersion : Z;
  cs_ConsensusFlags : Z;
  cs_ProtocolVersion : Z;
  cs_UseQUIC : bool;
  cs_SlotsPerLeaderWindow : Z;
  cs_Validators : list SessionValidator }.
#[export] Instance Session_eq_dec : EqDecision Session.
Proof. solve_decision. Defined.

Record SessionActivation := mkSessionActivation {
  ac_SessionID : bytes; ac_Genesis : list BlockIDExt; ac_MinMasterchain : BlockIDExt }.
#[export] Instance SessionActivation_eq_dec : EqDecision SessionActivation.
Proof. solve_decision. Defined.

(** Durations in nanoseconds. *)
Record SessionUpdate := mkSessionUpdate {
  up_SessionID : bytes;
  up_TargetRate : Z;
  up_NoEmptyBlocksOnErrTimeout : Z;
  up_MasterchainBlock : BlockIDExt;
  up_HasFinalizedBlock : bool;
  up_FinalizedBlock : BlockIDExt;
  up_Registered : list ShardDescription;
  up_HasCurrentWindow : bool;
  up_CurrentWindowStart : Z;
  up_CurrentWindowObservedSlot : Z;
  up_CurrentWindowStartAt : Time;
  up_CurrentBase : ParentID }.
#[export] Instance SessionUpdate_eq_dec : EqDecision SessionUpdate.
Proof. solve_decision. Defined.

Record SessionRecord := mkSessionRecord {
  sr_Session : Session; sr_Activation : option SessionActivation; sr_Update : SessionUpdate }.
#[export] Instance SessionRecord_eq_dec : EqDecision SessionRecord.
Proof. solve_decision. Defined.

Definition CandidateAuthoritySelf : Z := 1.
Definition CandidateAuthorityDelegated : Z := 2.
Record CandidateRecord := mkCandidateRecord {
  cm_WindowID : WindowID;
  cm_Authority : Z;
  cm_ID : CandidateID;
  cm_Parent : ParentID;
  cm_Leader : Z;
  cm_Empty : bool;
  cm_Block : BlockIDExt;
  cm_CollatedFileHash : bytes;
  cm_Signature : bytes;
  cm_DelegationKey : bytes;
  cm_DelegationSignature : bytes }.
#[export] Instance CandidateRecord_eq_dec : EqDecision CandidateRecord.
Proof. solve_decision. Defined.

(** ** Comparisons ([session_types.go], [session_dto.go], [session_transition.go]) *)

Definition sameBlockID (a b : BlockIDExt) : bool :=
  (b_Workchain a =? b_Workchain b) && (b_Shard a =? b_Shard b) && (b_SeqNo a =? b_SeqNo b) &&
  bool_decide (b_RootHash a = b_RootHash b) && bool_decide (b_FileHash a = b_FileHash b).

(** [slices.EqualFunc]. *)
Fixpoint slices_EqualFunc {A} (eq : A -> A -> bool) (l r : list A) : bool :=
  match l, r with
  | [], [] => true
  | x :: l, y :: r => eq x y && slices_EqualFunc eq l r
  | _, _ => false
  end.

Definition Session_Equal (s other : Session) : bool :=
  bool_decide (cs_ID s = cs_ID other) && bool_decide (cs_Shard s = cs_Shard other) &&
  (cs_CatchainSeqno s =? cs_CatchainSeqno other) && (cs_ValidatorSetHash s =? cs_ValidatorSetHash other) &&
  (cs_ConsensusVersion s =? cs_ConsensusVersion other) && (cs_ConsensusFlags s =? cs_ConsensusFlags other) &&
  (cs_ProtocolVersion s =? cs_ProtocolVersion other) && Bool.eqb (cs_UseQUIC s) (cs_UseQUIC other) &&
  (cs_SlotsPerLeaderWindow s =? cs_SlotsPerLeaderWindow other) &&
  bool_decide (cs_Validators s = cs_Validators other).

Definition SessionActivation_Equal (a other : SessionActivation) : bool :=
  bool_decide (ac_SessionID a = ac_SessionID other) &&
  slices_EqualFunc sameBlockID (ac_Genesis a) (ac_Genesis other) &&
  sameBlockID (ac_MinMasterchain a) (ac_MinMasterchain other).

Definition blockAdvances (old next : BlockIDExt) : bool :=
  if negb (b_Workchain old =? b_Workchain next) || negb (b_Shard old =? b_Shard next) || (b_SeqNo next <? b_SeqNo old)
  then false
  else if b_SeqNo next =? b_SeqNo old then sameBlockID old next
  else true.

Definition parentAdvances (old next : ParentID) : bool :=
  if par_Exists old && negb (par_Exists next) then false
  else if negb (par_Exists old) || negb (par_Exists next) then true
  else if cid_Slot (par_ID next) <? cid_Slot (par_ID old) then false
  else if cid_Slot (par_ID next) =? cid_Slot (par_ID old) then bool_decide (par_ID next = par_ID old)
  else true.

(** The current window of [old] and [next]: whether the first may follow. *)
Definition windowAdvances (old next : SessionUpdate) : bool :=
  if up_CurrentWindowStart next <? up_CurrentWindowStart old then false
  else if up_CurrentWindowStart next =? up_CurrentWindowStart old then
    negb (negb (time_Equal (up_CurrentWindowStartAt next) (up_CurrentWindowStartAt old)) ||
          (up_CurrentWindowObservedSlot next <? up_CurrentWindowObservedSlot old))
  else true.

(** [true] is a nil error, [false] [ErrSessionConflict]. *)
Definition ValidateSessionUpdateAdvance (old next : SessionUpdate) : bool :=
  if negb (bool_decide (up_SessionID old = up_SessionID next)) then false
  else if negb (blockAdvances (up_MasterchainBlock old) (up_MasterchainBlock next)) then false
  else if up_HasFinalizedBlock old && negb (up_HasFinalizedBlock next) then false
  else if up_HasFinalizedBlock old && up_HasFinalizedBlock next &&
          negb (blockAdvances (up_FinalizedBlock old) (up_FinalizedBlock next)) then false
  else if up_HasCurrentWindow old && negb (up_HasCurrentWindow next) then false
  else if up_HasCurrentWindow old && up_HasCurrentWindow next && negb (windowAdvances old next) then false
  else if negb (parentAdvances (up_CurrentBase old) (up_CurrentBase next)) then false
  else true.

(** [PreserveProgress] on the receiver [u]. *)
Definition PreserveProgress (u current : SessionUpdate) : SessionUpdate :=
  let finalized := up_HasFinalizedBlock current && negb (up_HasFinalizedBlock u) in
  let window := up_HasCurrentWindow current && negb (up_HasCurrentWindow u) in
  mkSessionUpdate (up_SessionID u) (up_TargetRate u) (up_NoEmptyBlocksOnErrTimeout u) (up_MasterchainBlock u)
    (if finalized then true else up_HasFinalizedBlock u)
    (if finalized then up_FinalizedBlock current else up_FinalizedBlock u)
    (up_Registered u)
    (if window then true else up_HasCurrentWindow u)
    (if window then up_CurrentWindowStart current else up_CurrentWindowStart u)
    (if window then up_CurrentWindowObservedSlot current else up_CurrentWindowObservedSlot u)
    (if window then up_CurrentWindowStartAt current else up_CurrentWindowStartAt u)
    (if window then up_CurrentBase current else up_CurrentBase u).

Definition collatorCandidateRecordsEqual (a b : CandidateRecord) : bool :=
  bool_decide (cm_WindowID a = cm_WindowID b) && (cm_Authority a =? cm_Authority b) && bool_decide (cm_ID a = cm_ID b) &&
  bool_decide (cm_Parent a = cm_Parent b) && (cm_Leader a =? cm_Leader b) && Bool.eqb (cm_Empty a) (cm_Empty b) &&
  (b_Workchain (cm_Block a) =? b_Workchain (cm_Block b)) && (b_Shard (cm_Block a) =? b_Shard (cm_Block b)) &&
  (b_SeqNo (cm_Block a) =? b_SeqNo (cm_Block b)) && bool_decide (b_RootHash (cm_Block a) = b_RootHash (cm_Block b)) &&
  bool_decide (b_FileHash (cm_Block a) = b_FileHash (cm_Block b)) &&
  bool_decide (cm_CollatedFileHash a = cm_CollatedFileHash b) && bool_decide (cm_Signature a = cm_Signature b) &&
  bool_decide (cm_DelegationKey a = cm_DelegationKey b) &&
  bool_decide (cm_DelegationSignature a = cm_DelegationSignature b).

(** ** Encoders *)

Definition collatorSessionRecordVersion : Z := 3.
Definition collatorCandidateRecordVersion : Z := 3.
Definition collatorBlockIDSize : nat := 80.
Definition collatorValidatorSize : nat := 72.
Definition collatorRegisteredSize : nat := 12 + collatorBlockIDSize + 15.
Definition collatorCandidateFixedSize : Z := 232.

Definition isZeroCollatorBlockID (b : BlockIDExt) : bool :=
  (b_Workchain b =? 0) && (b_Shard b =? 0) && (b_SeqNo b =? 0) &&
  (length (b_RootHash b) =? 0)%nat && (length (b_FileHash b) =? 0)%nat.
Definition zeroBlockID : BlockIDExt := mkBlockIDExt 0 0 0 [] [].

(** [addCount] and the loop over the elements. *)
Definition addCounted {A} (item : A -> collatorRecordEncoder -> collatorRecordEncoder) (l : list A) :
    collatorRecordEncoder -> collatorRecordEncoder :=
  enc_all [addCount (length l); enc_all (item <$> l)].
Definition enc_failIf (b : bool) (e : collatorRecordEncoder) : collatorRecordEncoder := if b then enc_fail e else e.
Definition enc_if (b : bool) (calls : list (collatorRecordEncoder -> collatorRecordEncoder)) :
    collatorRecordEncoder -> collatorRecordEncoder := if b then enc_all calls else fun e => e.

Definition encode_validator (v : SessionValidator) : collatorRecordEncoder -> collatorRecordEncoder :=
  enc_all [addFixed (sv_PublicKey v); addFixed (sv_ADNLID v); addUint64 (sv_Weight v)].
Definition encodeCollatorSession (s : Session) : collatorRecordEncoder -> collatorRecordEncoder :=
  enc_all
    [addFixed (cs_ID s);
     addShard (cs_Shard s);
     addUint32 (cs_CatchainSeqno s);
     addUint32 (cs_ValidatorSetHash s);
     addByte (cs_ConsensusVersion s);
     addByte (cs_ConsensusFlags s);
     addByte (cs_ProtocolVersion s);
     addBool (cs_UseQUIC s);
     addUint32 (cs_SlotsPerLeaderWindow s);
     addCounted encode_validator (cs_Validators s)].

Definition encodeCollatorSessionActivation (a : SessionActivation) : collatorRecordEncoder -> collatorRecordEncoder :=
  enc_all [addCounted addBlockID (ac_Genesis a); addBlockID (ac_MinMasterchain a)].

Definition encode_registered (d : ShardDescription) : collatorRecordEncoder -> collatorRecordEncoder :=
  enc_all
    [addShard (sd_Shard d);
     addBlockID (sd_Block d);
     addUint32 (sd_NextCatchainSeqno d);
     addBool (sd_BeforeSplit d);
     addBool (sd_BeforeMerge d);
     addByte (fsm_Kind (sd_FSM d));
     addUint32 (fsm_UTime (sd_FSM d));
     addUint32 (fsm_Interval (sd_FSM d))].

Definition encodeCollatorSessionUpdate (u : SessionUpdate) : collatorRecordEncoder -> collatorRecordEncoder :=
  enc_all
    [enc_failIf (up_TargetRate u <=? 0);
     enc_failIf (negb (up_HasFinalizedBlock u) && negb (isZeroCollatorBlockID (up_FinalizedBlock u)));
     enc_failIf (negb (up_HasCurrentWindow u) &&
       (negb (up_CurrentWindowStart u =? 0) || negb (up_CurrentWindowObservedSlot u =? 0) ||
        negb (time_IsZero (up_CurrentWindowStartAt u))));
     addFixed (up_SessionID u);
     addInt64 (up_TargetRate u);
     addInt64 (up_NoEmptyBlocksOnErrTimeout u);
     addBlockID (up_MasterchainBlock u);
     addBool (up_HasFinalizedBlock u);
     enc_if (up_HasFinalizedBlock u) [addBlockID (up_FinalizedBlock u)];
     addCounted encode_registered (up_Registered u);
     addBool (up_HasCurrentWindow u);
     enc_if (up_HasCurrentWindow u)
       [addUint32 (up_CurrentWindowStart u);
        addUint32 (up_CurrentWindowObservedSlot u);
        addInt64 (t_Unix (up_CurrentWindowStartAt u));
        addInt32 (i32 (t_Nanosecond (up_CurrentWindowStartAt u)))];
     addParent (up_CurrentBase u)].

(** What an encoder returns. *)
Definition enc_result (e : collatorRecordEncoder) : result codec_error bytes :=
  if enc_err e then Err ErrInvalid else Ok (enc_value e).

Definition encodeCollatorSessionRecord (r : SessionRecord) : result codec_error bytes :=
  enc_result (enc_all
    [addByte collatorSessionRecordVersion;
     encodeCollatorSession (sr_Session r);
     addBool (bool_decide (sr_Activation r <> None));
     match sr_Activation r with Some a => encodeCollatorSessionActivation a | None => fun e => e end;
     encodeCollatorSessionUpdate (sr_Update r)] newEncoder).

Definition validCandidateAuthority (authority : Z) : bool :=
  (authority =? CandidateAuthoritySelf) || (authority =? CandidateAuthorityDelegated).

Definition addCollatorRecordBytesSize (size : Z) (value : bytes) : result codec_error Z :=
  if 2 ^ 32 - 1 <? Z.of_nat (length value) then Err ErrInvalid else Ok (u64 (size + Z.of_nat (length value))).
Definition collatorCandidateRecordCapacity (r : CandidateRecord) : result codec_error Z :=
  if negb (par_Exists (cm_Parent r)) && negb (bool_decide (par_ID (cm_Parent r) = zeroCandidateID)) then Err ErrInvalid
  else if negb (length (b_RootHash (cm_Block r)) =? 32)%nat then Err ErrInvalid
  else if negb (length (b_FileHash (cm_Block r)) =? 32)%nat then Err ErrInvalid
  else
    let size := collatorCandidateFixedSize in
    let size := if par_Exists (cm_Parent r) then u64 (size + 36) else size in
    try size := addCollatorRecordBytesSize size (cm_Signature r) in
    try size := addCollatorRecordBytesSize size (cm_DelegationSignature r) in
    if 2 ^ 63 - 1 <? size then Err ErrInvalid else Ok size.

Definition encodeCollatorCandidateRecord (r : CandidateRecord) : result codec_error bytes :=
  if negb (validCandidateAuthority (cm_Authority r)) then Err ErrInvalid
  else
    try _ := collatorCandidateRecordCapacity r in
    enc_result (enc_all
      [addByte collatorCandidateRecordVersion;
       addFixed (wid_SessionID (cm_WindowID r));
       addUint32 (wid_StartSlot (cm_WindowID r));
       addCandidateID (cm_ID r);
       addParent (cm_Parent r);
       addUint32 (cm_Leader r);
       addBool (cm_Empty r);
       addBlockID (cm_Block r);
       addFixed (cm_CollatedFileHash r);
       addBytes (cm_Signature r);
       addFixed (cm_DelegationKey r);
       addBytes (cm_DelegationSignature r);
       addByte (cm_Authority r)] newEncoder).

(** ** Decoders *)

(** [make(\[\]T, count)] and the loop that fills it. *)
Fixpoint dec_repeat {A} (count : nat) (item : Dec A) : Dec (list A) :=
  match count with
  | O => mret []
  | S count => a ← item; l ← dec_repeat count item; mret (a :: l)
  end.
Definition dec_counted {A} (minimumRecordSize : nat) (item : Dec A) : Dec (list A) :=
  count ← dec_count (Z.of_nat minimumRecordSize); dec_repeat count item.

Definition decode_validator : Dec SessionValidator :=
  key ← dec_hash; adnl ← dec_hash; weight ← dec_uint64; mret (mkSessionValidator key adnl weight).
Definition decodeCollatorSession : Dec Session :=
  id ← dec_hash; shard ← dec_shard; ccSeqno ← dec_uint32; setHash ← dec_uint32;
  version ← dec_byte; flags ← dec_byte; protocol ← dec_byte; useQUIC ← dec_boolean; slots ← dec_uint32;
  validators ← dec_counted collatorValidatorSize decode_validator;
  mret (mkSession id shard ccSeqno setHash version flags protocol useQUIC slots validators).

Definition decodeCollatorSessionActivation (sessionID : bytes) : Dec SessionActivation :=
  genesis ← dec_counted collatorBlockIDSize dec_blockID; minMasterchain ← dec_blockID;
  mret (mkSessionActivation sessionID genesis minMasterchain).

Definition decode_registered : Dec ShardDescription :=
  shard ← dec_shard; block ← dec_blockID; ccSeqno ← dec_uint32; split ← dec_boolean; merge ← dec_boolean;
  kind ← dec_byte; utime ← dec_uint32; interval ← dec_uint32;
  _ ← dec_failIf (ShardFSMMerge <? kind);
  mret (mkShardDescription shard block ccSeqno split merge (mkShardFSM kind utime interval)).

(** The current window: start, observed slot and start time. *)
Definition decode_window (present : bool) : Dec (Z * Z * Time) :=
  if present then
    start ← dec_uint32; observed ← dec_uint32; seconds ← dec_int64; nanos ← dec_int32;
    failed ← dec_failed;
    if ((nanos <? 0) || (second <=? nanos)) && negb failed then dec_fail ≫= fun _ => mret (start, observed, zeroTime)
    else mret (start, observed, mkTime seconds nanos)
  else mret (0, 0, zeroTime).

Definition decodeCollatorSessionUpdate : Dec SessionUpdate :=
  sessionID ← dec_hash;
  rate ← dec_int64;
  _ ← dec_failIf (rate <=? 0);
  timeout ← dec_int64;
  _ ← dec_failIf (timeout <? 0);
  masterchain ← dec_blockID;
  hasFinalized ← dec_boolean;
  finalized ← (if (hasFinalized : bool) then dec_blockID else mret zeroBlockID);
  registered ← dec_counted collatorRegisteredSize decode_registered;
  hasWindow ← dec_boolean;
  window ← decode_window hasWindow;
  base ← dec_parent;
  mret (mkSessionUpdate sessionID rate timeout masterchain hasFinalized finalized registered hasWindow
    window.1.1 window.1.2 window.2 base).

Definition dec_sessionRecord : Dec SessionRecord :=
  session ← decodeCollatorSession;
  activated ← dec_boolean;
  activation ← (if (activated : bool) then a ← decodeCollatorSessionActivation (cs_ID session); mret (Some a) else mret None);
  update ← decodeCollatorSessionUpdate;
  mret (mkSessionRecord session activation update).

Definition decodeCollatorSessionRecord (value : bytes) : result codec_error SessionRecord :=
  try r := decode_record collatorSessionRecordVersion dec_sessionRecord value in
  if negb (bool_decide (up_SessionID (sr_Update r) = cs_ID (sr_Session r))) then Err ErrInvalid else Ok r.

Definition dec_candidateRecord : Dec CandidateRecord :=
  sessionID ← dec_hash; startSlot ← dec_uint32; id ← dec_candidateID; parent ← dec_parent; leader ← dec_uint32;
  empty ← dec_boolean; block ← dec_blockID; collated ← dec_hash; signature ← dec_bytes; key ← dec_hash;
  delegation ← dec_bytes; authority ← dec_byte;
  _ ← dec_failIf (negb (validCandidateAuthority authority));
  mret (mkCandidateRecord (mkWindowID sessionID startSlot) authority id parent leader empty block collated signature key
    delegation).
Definition decodeCollatorCandidateRecord (value : bytes) : result codec_error CandidateRecord :=
  decode_record collatorCandidateRecordVersion dec_candidateRecord value.

(** ** What a successful encoder wrote, the decoder reads *)

(** A failed encoder stays failed; a step that succeeds appends what [m] reads
    as [a]. *)
Definition sticky (f : collatorRecordEncoder -> collatorRecordEncoder) : Prop :=
  forall e, enc_err e = true -> enc_err (f e) = true.
Definition coded {A} (f : collatorRecordEncoder -> collatorRecordEncoder) (m : Dec A) (a : A) : Prop :=
  sticky f /\ forall v, enc_err (f (mkEncoder v false)) = false ->
    exists l, f (mkEncoder v false) = mkEncoder (v ++ l) false /\ reads m l a.

Lemma sticky_append l : sticky (enc_append l).
Proof. intros e He. unfold enc_append. by rewrite He. Qed.
Lemma sticky_fail : sticky enc_fail.
Proof. intros e He. unfold enc_fail. by rewrite He. Qed.
Lemma sticky_all fs : Forall sticky fs -> sticky (enc_all fs).
Proof. unfold enc_all. induction 1 as [|f fs Hf _ IH]; intros e He; simpl; [done|]. by apply IH, Hf. Qed.

Lemma coded_codes {A} f (m : Dec A) a : sticky f -> codes f m a -> coded f m a.
Proof. intros Hs (l & Hf & Hm). split; [done|]. intros v _. by exists l. Qed.
Lemma coded_nil {A} (a : A) : coded (enc_all []) (mret a) a.
Proof. apply coded_codes; [by intros e|apply codes_nil]. Qed.
Lemma coded_cons {A B} f fs (m : Dec A) (k : A -> Dec B) a b :
  coded f m a -> coded (enc_all fs) (k a) b -> coded (enc_all (f :: fs)) (m ≫= k) b.
Proof.
  intros [Sf Hf] [Ss Hs]. split; [intros e He; apply Ss, Sf, He|]. intros v Hok. unfold enc_all in *. simpl in *.
  destruct (enc_err (f (mkEncoder v false))) eqn:E; [by rewrite Ss in Hok|].
  destruct (Hf v E) as (l & El & Hm). rewrite El in *. destruct (Hs _ Hok) as (l' & El' & Hk).
  exists (l ++ l'). rewrite El', app_assoc. split; [done|by eapply reads_bind].
Qed.
Lemma coded_map {A B} f (m : Dec A) (g : A -> B) a b : g a = b -> coded f m a -> coded f (v ← m; mret (g v)) b.
Proof.
  intros <- [Sf Hf]. split; [done|]. intros v Hok. destruct (Hf v Hok) as (l & El & Hm). exists l. split; [done|]. by apply reads_map.
Qed.
(** A check that writes nothing. *)
Lemma coded_guard {A} b fs (m : Dec A) a :
  (b = false -> coded (enc_all fs) m a) -> sticky (enc_all fs) -> coded (enc_all (enc_failIf b :: fs)) m a.
Proof.
  intros Hc Hs. assert (sticky (enc_failIf b)) as Hb by (destruct b; [apply sticky_fail|by intros e]).
  split; [intros e He; apply Hs, Hb, He|]. intros v Hok. destruct b; [|by apply Hc].
  change (enc_err (enc_all fs (mkEncoder v true)) = false) in Hok. by rewrite Hs in Hok.
Qed.
(** A check of the decoder. *)
Lemma coded_failIf {A} f b (m : Dec A) a : b = false -> coded f m a -> coded f (dec_failIf b ≫= fun _ => m) a.
Proof.
  intros Hb [Sf Hf]. split; [done|]. intros v Hok. destruct (Hf v Hok) as (l & El & Hm). exists l. split; [done|].
  by apply reads_failIf.
Qed.
Lemma coded_skip {A B} fs (k : A -> Dec B) a b :
  coded (enc_all fs) (k a) b -> coded (enc_all ((fun e => e) :: fs)) (mret a ≫= k) b.
Proof. intros H. exact H. Qed.

Ltac sticky_auto :=
  repeat first
    [ apply sticky_append | apply sticky_fail | apply sticky_all
    | match goal with
      | |- Forall sticky _ => constructor
      | |- sticky (fun e => e) => by intros ? ?
      | |- sticky (if ?b then _ else _) => destruct b
      end ].

(** *** Fields *)

Definition typed_block (b : BlockIDExt) : Prop := is_i32 (b_Workchain b) /\ is_i64 (b_Shard b) /\ is_u32 (b_SeqNo b).
Definition typed_id (id : CandidateID) : Prop := is_u32 (cid_Slot id) /\ length (cid_Hash id) = 32%nat.

Lemma coded_byte v : coded (addByte v) dec_byte v.
Proof. apply coded_codes; [apply sticky_append|apply codes_byte]. Qed.
Lemma coded_bool v : coded (addBool v) dec_boolean v.
Proof. apply coded_codes; [unfold addBool; sticky_auto|apply codes_bool]. Qed.
Lemma coded_uint32 v : is_u32 v -> coded (addUint32 v) dec_uint32 v.
Proof. intros. apply coded_codes; [apply sticky_append|by apply codes_uint32]. Qed.
Lemma coded_uint64 v : is_u64 v -> coded (addUint64 v) dec_uint64 v.
Proof. intros. apply coded_codes; [apply sticky_append|by apply codes_uint64]. Qed.
Lemma coded_int32 v : is_i32 v -> coded (addInt32 v) dec_int32 v.
Proof. intros. apply coded_codes; [apply sticky_append|by apply codes_int32]. Qed.
Lemma coded_int64 v : is_i64 v -> coded (addInt64 v) dec_int64 v.
Proof. intros. apply coded_codes; [apply sticky_append|by apply codes_int64]. Qed.
Lemma coded_hash v : length v = 32%nat -> coded (addFixed v) dec_hash v.
Proof. intros. apply coded_codes; [apply sticky_append|by apply codes_hash]. Qed.
Lemma coded_shard s : wf_shard s -> coded (addShard s) dec_shard s.
Proof. intros [? ?]. apply coded_codes; [unfold addShard; sticky_auto|by apply codes_shard]. Qed.

Lemma coded_blockID b : typed_block b -> coded (addBlockID b) dec_blockID b.
Proof.
  intros (Hw & Hs & Hn). unfold addBlockID.
  destruct (Nat.eqb_spec (length (b_RootHash b)) 32) as [Hr|]; cbn [negb]; [|by split; [apply sticky_fail|]].
  destruct (Nat.eqb_spec (length (b_FileHash b)) 32) as [Hf|]; cbn [negb]; [|by split; [apply sticky_fail|]].
  apply coded_codes; [sticky_auto|]. destruct b as [w s n r f]; simpl in Hw, Hs, Hn, Hr, Hf. unfold dec_blockID. do 3 codes_step.
  eapply codes_cons; [apply codes_fixed; exact (eq_sym (f_equal Z.of_nat Hr))|]. eapply codes_cons; [apply codes_fixed; exact (eq_sym (f_equal Z.of_nat Hf))|]. codes_auto.
Qed.

Lemma coded_candidateID id : typed_id id -> coded (addCandidateID id) dec_candidateID id.
Proof.
  intros [Hs Hh]. apply coded_codes; [unfold addCandidateID; sticky_auto|]. destruct id as [s h]; simpl in *.
  unfold addCandidateID, dec_candidateID. codes_auto.
Qed.

Lemma coded_parent p : typed_id (par_ID p) -> coded (addParent p) dec_parent p.
Proof.
  intros Hid. assert (sticky (addParent p)) as Hs.
  { intros e He. unfold addParent. destruct (par_Exists p); [|destruct (negb _)].
    - apply coded_candidateID; [done|]. by apply coded_bool.
    - by apply sticky_fail, coded_bool.
    - by apply coded_bool. }
  destruct p as [[] id]; unfold addParent in *; simpl in *.
  - change (coded (enc_all [addBool true; addCandidateID id]) dec_parent (mkParentID true id)). unfold dec_parent.
    eapply coded_cons; [apply coded_bool|]. cbn [negb]. eapply coded_cons; [by apply coded_candidateID|]. apply coded_nil.
  - destruct (bool_decide_reflect (id = zeroCandidateID)) as [->|Hne]; simpl in *; (split; [done|]); [|done].
    intros v _. exists [0]. split; [done|]. unfold dec_parent. rewrite <- (app_nil_r [0]).
    destruct (codes_bool false) as (l & Hw & Hr). specialize (Hw []). injection Hw as <-.
    eapply reads_bind; [exact Hr|]. apply reads_ret.
Qed.

Lemma coded_bytes v : coded (addBytes v) dec_bytes v.
Proof.
  unfold addBytes. destruct (Z.ltb_spec (2 ^ 32 - 1) (Z.of_nat (length v))) as [?|Hl]; [by split; [apply sticky_fail|]|].
  apply coded_codes; [sticky_auto|].
  assert (is_u32 (Z.of_nat (length v))) as Hu by (unfold is_u32; lia).
  eapply codes_cons; [by apply codes_uint32|]. exists v. split; [by intros e|]. apply reads_failed. intros pre post.
  cbn -[dec_left dec_fixed]. unfold dec_left at 1. cbn [dec_value dec_pos]. rewrite !length_app, (proj2 (Z.ltb_ge _ _)) by lia.
  by apply (reads_field _ [] (fun v => v) v).
Qed.

(** *** Counted lists *)

(** Every encoding of an element has the minimal length at least. *)
Definition at_least (n : nat) (f : collatorRecordEncoder -> collatorRecordEncoder) : Prop :=
  forall v l, f (mkEncoder v false) = mkEncoder (v ++ l) false -> (n <= length l)%nat.

Lemma coded_repeat {A} (item : A -> collatorRecordEncoder -> collatorRecordEncoder) (dec : Dec A) l :
  Forall (fun a => coded (item a) dec a) l -> coded (enc_all (item <$> l)) (dec_repeat (length l) dec) l.
Proof.
  induction 1 as [|a l Ha _ IH]; simpl; [apply coded_nil|]. eapply coded_cons; [exact Ha|].
  eapply coded_map; [|exact IH]. done.
Qed.

Lemma repeat_length {A} (item : A -> collatorRecordEncoder -> collatorRecordEncoder) (dec : Dec A) n l v w :
  Forall (fun a => coded (item a) dec a /\ at_least n (item a)) l ->
  enc_all (item <$> l) (mkEncoder v false) = mkEncoder (v ++ w) false -> (n * length l <= length w)%nat.
Proof.
  intros Hl. revert v w. induction Hl as [|a l [[Sa Ha] Hn] Hl IH]; intros v w E; [simpl; lia|].
  change (enc_all (item <$> l) (item a (mkEncoder v false)) = mkEncoder (v ++ w) false) in E.
  destruct (coded_repeat item dec l) as [Sr Hr]; [eapply Forall_impl; [exact Hl|]; by intros x [? _]|].
  destruct (enc_err (item a (mkEncoder v false))) eqn:Ee; [apply Sr in Ee; by rewrite E in Ee|].
  destruct (Ha v Ee) as (w1 & E1 & _). pose proof (Hn _ _ E1) as H1. rewrite E1 in E.
  destruct (Hr (v ++ w1)) as (w2 & E2 & _); [by rewrite E|]. pose proof (IH _ _ E2) as H2.
  rewrite E in E2. injection E2 as E2. rewrite <- app_assoc in E2. apply app_inv_head in E2 as ->.
  rewrite length_app. simpl. lia.
Qed.

Lemma coded_counted {A} (item : A -> collatorRecordEncoder -> collatorRecordEncoder) (dec : Dec A) n l :
  (0 < n)%nat -> Forall (fun a => coded (item a) dec a /\ at_least n (item a)) l ->
  coded (addCounted item l) (dec_counted n dec) l.
Proof.
  intros Hn Hl. destruct (coded_repeat item dec l) as [Sr Hr]; [eapply Forall_impl; [exact Hl|]; by intros x [? _]|].
  unfold addCounted, dec_counted, addCount.
  destruct (Z.ltb_spec (2 ^ 32 - 1) (Z.of_nat (length l))) as [Hlen|Hlen].
  { split; [intros e He; by apply Sr, sticky_fail|]. intros v Hok. cbn -[enc_all] in Hok. unfold enc_all in Hok at 1.
    cbn -[enc_all] in Hok. by rewrite Sr in Hok. }
  split; [intros e He; by apply Sr, sticky_append|]. intros v Hok.
  unfold enc_all in Hok at 1. cbn -[enc_all le_put] in Hok. destruct (Hr _ Hok) as (w & Ew & Hw).
  exists (le_put 4 (Z.of_nat (length l)) ++ w). unfold enc_all at 1. cbn -[enc_all le_put]. rewrite Ew, app_assoc. split; [done|].
  pose proof (repeat_length item dec n l _ _ Hl Ew) as Hlw. intros pre post.
  assert (is_u32 (Z.of_nat (length l))) as Hu by (unfold is_u32; lia).
  destruct (codes_uint32 _ Hu) as (w' & Hw' & Hrd). specialize (Hw' []). cbn -[le_put] in Hw'. injection Hw' as <-.
  unfold dec_count, mbind, dec_bind. specialize (Hrd pre (w ++ post)). rewrite <- app_assoc, Hrd. cbn -[le_put dec_left].
  unfold dec_left. cbn [dec_value dec_pos]. 
  rewrite (proj2 (Z.ltb_ge (_ / _) _)), andb_false_r; [|apply Z.div_le_lower_bound; [lia|]; rewrite !length_app, length_le_put; lia].
  rewrite Nat2Z.id. specialize (Hw (pre ++ le_put 4 (Z.of_nat (length l))) post).
  rewrite length_app, length_le_put, <- app_assoc in Hw. rewrite length_le_put, Hw, length_app, length_le_put. do 2 f_equal. lia.
Qed.

(** ** Records *)

Definition typed_validator (v : SessionValidator) : Prop :=
  length (sv_PublicKey v) = 32%nat /\ length (sv_ADNLID v) = 32%nat /\ is_u64 (sv_Weight v).
(** The fields as Go types them. *)
Record typed_session (s : Session) : Prop := {
  ts_ID : length (cs_ID s) = 32%nat;
  ts_Shard : wf_shard (cs_Shard s);
  ts_CatchainSeqno : is_u32 (cs_CatchainSeqno s);
  ts_ValidatorSetHash : is_u32 (cs_ValidatorSetHash s);
  ts_Slots : is_u32 (cs_SlotsPerLeaderWindow s);
  ts_Validators : Forall typed_validator (cs_Validators s) }.
Definition typed_activation (a : SessionActivation) : Prop :=
  Forall typed_block (ac_Genesis a) /\ typed_block (ac_MinMasterchain a).
Definition typed_registered (d : ShardDescription) : Prop :=
  wf_shard (sd_Shard d) /\ typed_block (sd_Block d) /\ is_u32 (sd_NextCatchainSeqno d) /\
  is_u32 (fsm_UTime (sd_FSM d)) /\ is_u32 (fsm_Interval (sd_FSM d)).
Record typed_update (u : SessionUpdate) : Prop := {
  tu_SessionID : length (up_SessionID u) = 32%nat;
  tu_TargetRate : is_i64 (up_TargetRate u);
  tu_Timeout : is_i64 (up_NoEmptyBlocksOnErrTimeout u);
  tu_Masterchain : typed_block (up_MasterchainBlock u);
  tu_Finalized : typed_block (up_FinalizedBlock u);
  tu_Registered : Forall typed_registered (up_Registered u);
  tu_Start : is_u32 (up_CurrentWindowStart u);
  tu_Observed : is_u32 (up_CurrentWindowObservedSlot u);
  tu_StartAt : is_i64 (t_Unix (up_CurrentWindowStartAt u)) /\ 0 <= t_Nanosecond (up_CurrentWindowStartAt u) < second;
  tu_Base : typed_id (par_ID (up_CurrentBase u)) }.
Record typed_record (r : SessionRecord) : Prop := {
  tr_session : typed_session (sr_Session r);
  tr_activation : forall a, sr_Activation r = Some a -> typed_activation a;
  tr_update : typed_update (sr_Update r) }.

(** What the decoder checks and the encoder does not. *)
Definition readable_update (u : SessionUpdate) : Prop :=
  0 <= up_NoEmptyBlocksOnErrTimeout u /\ Forall (fun d => fsm_Kind (sd_FSM d) <= ShardFSMMerge) (up_Registered u).

(** One field of a record whose encoder may fail. *)
Ltac coded_step :=
  first
    [ apply coded_nil
    | eapply coded_cons;
      [first [apply coded_byte | apply coded_bool | apply coded_bytes | by apply coded_uint32 | by apply coded_uint64
             | by apply coded_int32 | by apply coded_int64 | by apply coded_hash | by apply coded_shard | by apply coded_blockID
             | by apply coded_candidateID | by apply coded_parent]|] ].
Ltac coded_auto := repeat coded_step.

Lemma coded_sticky {A} f (m : Dec A) a : coded f m a -> sticky f.
Proof. by intros [? _]. Qed.

(** The length of what a step appends, computed. *)
Lemma at_least_validator v : typed_validator v -> at_least collatorValidatorSize (encode_validator v).
Proof.
  intros (H1 & H2 & _) e l. cbn -[le_put]. intros [= E]. rewrite <- !app_assoc in E. apply app_inv_head in E as <-.
  unfold collatorValidatorSize. rewrite !length_app, length_le_put. lia.
Qed.
Lemma length_blockID b v l : addBlockID b (mkEncoder v false) = mkEncoder (v ++ l) false -> length l = collatorBlockIDSize.
Proof.
  unfold addBlockID, collatorBlockIDSize.
  destruct (Nat.eqb_spec (length (b_RootHash b)) 32) as [Hr|]; cbn [negb]; [|done].
  destruct (Nat.eqb_spec (length (b_FileHash b)) 32) as [Hf|]; cbn [negb]; [|done].
  cbn -[le_put]. intros [= E]. rewrite <- !app_assoc in E. apply app_inv_head in E as <-. rewrite !length_app, !length_le_put. lia.
Qed.
Lemma at_least_blockID b : at_least collatorBlockIDSize (addBlockID b).
Proof. intros v l E. by rewrite (length_blockID b v l E). Qed.

Lemma coded_validator v : typed_validator v -> coded (encode_validator v) decode_validator v.
Proof. intros (H1 & H2 & H3). destruct v; simpl in H1, H2, H3. unfold encode_validator, decode_validator. coded_auto. Qed.
Lemma coded_session s : typed_session s -> coded (encodeCollatorSession s) decodeCollatorSession s.
Proof.
  intros [H1 H2 H3 H4 H5 H6]. destruct s; simpl in H1, H2, H3, H4, H5, H6. unfold encodeCollatorSession, decodeCollatorSession.
  do 9 coded_step. eapply coded_cons; [|apply coded_nil]. apply coded_counted; [unfold collatorValidatorSize; lia|].
  eapply Forall_impl; [exact H6|]. intros v Hv. split; [by apply coded_validator|by apply at_least_validator].
Qed.
Lemma coded_activation a id :
  ac_SessionID a = id -> typed_activation a -> coded (encodeCollatorSessionActivation a) (decodeCollatorSessionActivation id) a.
Proof.
  intros <- [H1 H2]. destruct a; simpl in H1, H2. unfold encodeCollatorSessionActivation, decodeCollatorSessionActivation.
  eapply coded_cons; [|coded_auto]. apply coded_counted; [unfold collatorBlockIDSize; lia|].
  eapply Forall_impl; [exact H1|]. intros b Hb. split; [by apply coded_blockID|apply at_least_blockID].
Qed.

Lemma coded_registered d :
  typed_registered d -> fsm_Kind (sd_FSM d) <= ShardFSMMerge -> coded (encode_registered d) decode_registered d.
Proof.
  intros (H1 & H2 & H3 & H4 & H5) Hk. destruct d as [sh b cc s m [k u i]]; simpl in H1, H2, H3, H4, H5, Hk.
  unfold encode_registered, decode_registered. do 8 coded_step. apply coded_failIf; [by apply Z.ltb_ge|]. apply coded_nil.
Qed.
Lemma at_least_registered d : typed_registered d -> at_least collatorRegisteredSize (encode_registered d).
Proof.
  intros (H1 & H2 & _) v l E. unfold encode_registered, enc_all in E. cbn -[le_put addBlockID] in E.
  set (v1 := (v ++ _) ++ _) in E. destruct (addBlockID (sd_Block d) (mkEncoder v1 false)) as [v2 []] eqn:Eb.
  { destruct (sd_BeforeSplit d), (sd_BeforeMerge d); discriminate E. }
  destruct (coded_blockID (sd_Block d) H2) as [_ Hc]. destruct (Hc v1) as (w & Ew & _); [by rewrite Eb|].
  pose proof (length_blockID _ _ _ Ew) as Hw. rewrite Eb in Ew. injection Ew as ->.
  assert (length (v ++ l) = length v + collatorRegisteredSize)%nat as Hl.
  { apply (f_equal (fun e => length (enc_value e))) in E. cbn [enc_value] in E. rewrite <- E.
    unfold collatorRegisteredSize. destruct (sd_BeforeSplit d), (sd_BeforeMerge d); cbn -[le_put collatorBlockIDSize]; unfold v1;
      rewrite !length_app, !length_le_put, Hw; cbn [length]; unfold collatorBlockIDSize in *; lia. }
  rewrite length_app in Hl. lia.
Qed.

Lemma isZero_block b : isZeroCollatorBlockID b = true -> b = zeroBlockID.
Proof.
  unfold isZeroCollatorBlockID. rewrite !andb_true_iff, !Z.eqb_eq, !Nat.eqb_eq. intros [[[[? ?] ?] ?%length_zero_iff_nil] ?%length_zero_iff_nil].
  destruct b; simpl in *; by subst.
Qed.
Lemma time_IsZero_spec t : time_IsZero t = true -> t = zeroTime.
Proof. unfold time_IsZero, time_Equal. rewrite andb_true_iff, !Z.eqb_eq. destruct t. simpl. by intros [-> ->]. Qed.

Lemma coded_finalized u :
  typed_block (up_FinalizedBlock u) ->
  negb (up_HasFinalizedBlock u) && negb (isZeroCollatorBlockID (up_FinalizedBlock u)) = false ->
  coded (enc_if (up_HasFinalizedBlock u) [addBlockID (up_FinalizedBlock u)])
    (if up_HasFinalizedBlock u then dec_blockID else mret zeroBlockID) (up_FinalizedBlock u).
Proof.
  intros Ht Hz. destruct (up_HasFinalizedBlock u); simpl in *; [exact (coded_blockID _ Ht)|].
  apply negb_false_iff, isZero_block in Hz as ->. apply (coded_nil zeroBlockID).
Qed.

Lemma coded_window u :
  typed_update u ->
  negb (up_HasCurrentWindow u) && (negb (up_CurrentWindowStart u =? 0) || negb (up_CurrentWindowObservedSlot u =? 0) ||
    negb (time_IsZero (up_CurrentWindowStartAt u))) = false ->
  coded (enc_if (up_HasCurrentWindow u)
      [addUint32 (up_CurrentWindowStart u); addUint32 (up_CurrentWindowObservedSlot u);
       addInt64 (t_Unix (up_CurrentWindowStartAt u)); addInt32 (i32 (t_Nanosecond (up_CurrentWindowStartAt u)))])
    (decode_window (up_HasCurrentWindow u))
    (up_CurrentWindowStart u, up_CurrentWindowObservedSlot u, up_CurrentWindowStartAt u).
Proof.
  intros [_ _ _ _ _ _ H1 H2 [H3 H4] _] Hz. destruct (up_HasCurrentWindow u); simpl in Hz.
  - assert (is_i32 (t_Nanosecond (up_CurrentWindowStartAt u))) as Hi by (unfold is_i32, second in *; lia).
    cbn [enc_if]. rewrite i32_small by done. unfold decode_window. do 4 coded_step.
    apply coded_codes; [by intros e|]. exists []. split; [intros v; by rewrite app_nil_r|]. apply reads_failed.
    rewrite (proj2 (Z.ltb_ge _ _)), (proj2 (Z.leb_gt _ _)) by lia. cbn [orb andb].
    destruct (up_CurrentWindowStartAt u). apply reads_ret.
  - apply orb_false_iff in Hz as [[E1 E2]%orb_false_iff E3]. apply negb_false_iff in E1, E2, E3.
    apply Z.eqb_eq in E1 as ->. apply Z.eqb_eq in E2 as ->. apply time_IsZero_spec in E3 as ->. apply (coded_nil (0, 0, zeroTime)).
Qed.

Lemma coded_update u :
  typed_update u -> readable_update u -> coded (encodeCollatorSessionUpdate u) decodeCollatorSessionUpdate u.
Proof.
  intros Ht [Hto Hk]. pose proof Ht as [H1 H2 H3 H4 H5 H6 _ _ _ H10].
  assert (coded (addCounted encode_registered (up_Registered u)) (dec_counted collatorRegisteredSize decode_registered) (up_Registered u)) as Hreg.
  { apply coded_counted; [unfold collatorRegisteredSize; lia|]. apply Forall_forall. intros d Hd. rewrite Forall_forall in H6, Hk.
    split; [apply coded_registered; auto|apply at_least_registered; auto]. }
  unfold encodeCollatorSessionUpdate, decodeCollatorSessionUpdate.
  assert (sticky (enc_all [addFixed (up_SessionID u); addInt64 (up_TargetRate u); addInt64 (up_NoEmptyBlocksOnErrTimeout u);
     addBlockID (up_MasterchainBlock u); addBool (up_HasFinalizedBlock u);
     enc_if (up_HasFinalizedBlock u) [addBlockID (up_FinalizedBlock u)];
     addCounted encode_registered (up_Registered u); addBool (up_HasCurrentWindow u);
     enc_if (up_HasCurrentWindow u) [addUint32 (up_CurrentWindowStart u); addUint32 (up_CurrentWindowObservedSlot u);
        addInt64 (t_Unix (up_CurrentWindowStartAt u)); addInt32 (i32 (t_Nanosecond (up_CurrentWindowStartAt u)))];
     addParent (up_CurrentBase u)])) as Hst.
  { apply sticky_all. repeat constructor; try apply sticky_append.
    - by eapply coded_sticky, coded_blockID.
    - by eapply coded_sticky, coded_bool.
    - unfold enc_if. destruct (up_HasFinalizedBlock u); [|by intros e]. apply sticky_all. repeat constructor. by eapply coded_sticky, coded_blockID.
    - by eapply coded_sticky.
    - by eapply coded_sticky, coded_bool.
    - unfold enc_if. sticky_auto.
    - by eapply coded_sticky, coded_parent. }
  assert (forall b, sticky (enc_failIf b)) as Hb by (intros []; [apply sticky_fail|by intros e]).
  apply coded_guard; [intros G1|by intros e He; apply Hst, Hb, Hb].
  apply coded_guard; [intros G2|by intros e He; apply Hst, Hb].
  apply coded_guard; [intros G3|exact Hst]. clear Hst Hb.
  do 2 coded_step. apply coded_failIf; [done|]. coded_step. apply coded_failIf; [by apply Z.ltb_ge|]. do 2 coded_step.
  eapply coded_cons; [by apply coded_finalized|]. eapply coded_cons; [exact Hreg|]. coded_step.
  eapply coded_cons; [by apply coded_window|]. coded_step. destruct u. apply coded_nil.
Qed.

Lemma decode_record_coded {A} version fs (body : Dec A) a :
  coded (enc_all fs) body a -> enc_err (enc_all (addByte version :: fs) newEncoder) = false ->
  decode_record version body (enc_value (enc_all (addByte version :: fs) newEncoder)) = Ok a.
Proof.
  intros Hc Hok. assert (coded (enc_all (addByte version :: fs)) (v ← dec_byte; a ← body; mret (v, a)) (version, a)) as [_ Hall].
  { eapply coded_cons; [apply coded_byte|]. by eapply coded_map. }
  destruct (Hall [] Hok) as (l & El & Hr). change (mkEncoder [] false) with newEncoder in El. rewrite El. cbn [enc_value app].
  specialize (Hr [] []). cbn [app] in Hr. rewrite app_nil_r in Hr. unfold decode_record, newDecoder, mbind, dec_bind, mret, dec_ret in *.
  cbn [length] in Hr. destruct (dec_byte _) as [v d1], (body d1) as [a' d2] eqn:Eb. injection Hr as -> -> ->.
  rewrite Z.eqb_refl, andb_false_r. unfold dec_finish. cbn. by rewrite Nat.eqb_refl.
Qed.

Lemma enc_result_ok e value : enc_result e = Ok value -> enc_err e = false /\ value = enc_value e.
Proof. unfold enc_result. destruct (enc_err e); [done|]. by intros [= <-]. Qed.

(** A session record as [SaveSession] accepts it names one session. *)
Definition same_session (r : SessionRecord) : Prop :=
  up_SessionID (sr_Update r) = cs_ID (sr_Session r) /\
  forall a, sr_Activation r = Some a -> ac_SessionID a = cs_ID (sr_Session r).

Lemma decode_encode_sessionRecord r value :
  typed_record r -> readable_update (sr_Update r) -> same_session r -> encodeCollatorSessionRecord r = Ok value ->
  decodeCollatorSessionRecord value = Ok r.
Proof.
  intros [Hs Ha Hu] Hr [Hid Hact] E. apply enc_result_ok in E as [Ee ->]. unfold decodeCollatorSessionRecord.
  rewrite (decode_record_coded _ _ _ r); [|clear Ee|exact Ee].
  { cbn [and_then]. by rewrite bool_decide_true. }
  destruct r as [s [a|] u]; cbn [sr_Session sr_Activation sr_Update] in *; unfold dec_sessionRecord;
    (eapply coded_cons; [by apply coded_session|]); (eapply coded_cons; [apply coded_bool|]).
  - rewrite bool_decide_true by done. eapply coded_cons.
    { eapply coded_map; [|apply coded_activation; [by apply Hact|by apply Ha]]. done. }
    eapply coded_cons; [by apply coded_update|]. apply coded_nil.
  - rewrite bool_decide_false by (by intros H). apply coded_skip. eapply coded_cons; [by apply coded_update|]. apply coded_nil.
Qed.

(** *** Candidate markers *)

Record typed_marker (c : CandidateRecord) : Prop := {
  tm_SessionID : length (wid_SessionID (cm_WindowID c)) = 32%nat;
  tm_StartSlot : is_u32 (wid_StartSlot (cm_WindowID c));
  tm_ID : typed_id (cm_ID c);
  tm_Parent : typed_id (par_ID (cm_Parent c));
  tm_Leader : is_u32 (cm_Leader c);
  tm_Block : typed_block (cm_Block c);
  tm_Collated : length (cm_CollatedFileHash c) = 32%nat;
  tm_Key : length (cm_DelegationKey c) = 32%nat }.

Lemma decode_encode_marker c value :
  typed_marker c -> encodeCollatorCandidateRecord c = Ok value -> decodeCollatorCandidateRecord value = Ok c.
Proof.
  intros [H1 H2 H3 H4 H5 H6 H7 H8] E. unfold encodeCollatorCandidateRecord in E.
  destruct (validCandidateAuthority (cm_Authority c)) eqn:Ha; cbn [negb] in E; [|done].
  destruct (collatorCandidateRecordCapacity c); cbn [and_then] in E; [|done].
  apply enc_result_ok in E as [Ee ->]. apply decode_record_coded; [|exact Ee]. clear Ee.
  destruct c as [[sid st] au id pa le em bl co sg key dsg]; cbn [cm_WindowID cm_Authority cm_ID cm_Parent cm_Leader cm_Empty
    cm_Block cm_CollatedFileHash cm_Signature cm_DelegationKey cm_DelegationSignature wid_SessionID wid_StartSlot] in *.
  unfold dec_candidateRecord. do 12 coded_step. apply coded_failIf; [by rewrite Ha|]. apply coded_nil.
Qed.

(** A step that succeeds and appends [n] bytes. *)
Definition sized (f : collatorRecordEncoder -> collatorRecordEncoder) (n : nat) : Prop :=
  forall v, exists l, f (mkEncoder v false) = mkEncoder (v ++ l) false /\ length l = n.
Lemma sized_append l : sized (enc_append l) (length l).
Proof. intros v. by exists l. Qed.
Lemma sized_append' l n : length l = n -> sized (enc_append l) n.
Proof. intros <-. apply sized_append. Qed.
Lemma sized_all fs ns : Forall2 sized fs ns -> sized (enc_all fs) (sum_list ns).
Proof.
  induction 1 as [|f n fs ns Hf _ IH]; intros v; [exists []; by rewrite app_nil_r|].
  destruct (Hf v) as (l & El & Hl), (IH (v ++ l)) as (l' & El' & Hl'). exists (l ++ l').
  change (enc_all fs (f (mkEncoder v false)) = mkEncoder (v ++ l ++ l') false /\ length (l ++ l') = (n + sum_list ns)%nat).
  rewrite El, El', app_assoc, length_app. split; [done|]. lia.
Qed.
Lemma sized_uint32 x : sized (addUint32 x) 4.
Proof. apply sized_append', length_le_put. Qed.
Lemma sized_bool b : sized (addBool b) 1.
Proof. destruct b; apply sized_append. Qed.
Lemma sized_candidateID id : length (cid_Hash id) = 32%nat -> sized (addCandidateID id) 36.
Proof. intros Hh. apply (sized_all _ [4; 32]%nat). repeat constructor; [apply sized_uint32|by apply sized_append']. Qed.
Lemma sized_blockID b :
  length (b_RootHash b) = 32%nat -> length (b_FileHash b) = 32%nat -> sized (addBlockID b) collatorBlockIDSize.
Proof.
  intros Hr Hf v. assert (exists l, addBlockID b (mkEncoder v false) = mkEncoder (v ++ l) false) as [l E].
  { unfold addBlockID. rewrite Hr, Hf. cbn -[le_put]. eexists. by rewrite <- !app_assoc. }
  exists l. split; [done|]. by eapply length_blockID.
Qed.
(** The bytes the candidate's parent takes. *)
Definition parent_size (p : ParentID) : nat := if par_Exists p then 37 else 1.
Lemma sized_parent p :
  length (cid_Hash (par_ID p)) = 32%nat -> (par_Exists p = false -> par_ID p = zeroCandidateID) ->
  sized (addParent p) (parent_size p).
Proof.
  intros Hh Hz. unfold parent_size. destruct (par_Exists p) eqn:E.
  - intros v. unfold addParent. rewrite E.
    apply (sized_all [addBool true; addCandidateID (par_ID p)] [1; 36]%nat). repeat constructor; [apply sized_bool|by apply sized_candidateID].
  - intros v. unfold addParent. rewrite E, bool_decide_true by auto. by exists [0].
Qed.
Lemma sized_bytes b : Z.of_nat (length b) <= 2 ^ 32 - 1 -> sized (addBytes b) (4 + length b).
Proof.
  intros Hl v. unfold addBytes. rewrite (proj2 (Z.ltb_ge _ _)) by lia.
  destruct (sized_all [addUint32 (Z.of_nat (length b)); addFixed b] [4; length b]%nat) with v as (l & E & El).
  { repeat constructor; [apply sized_uint32|apply sized_append]. }
  exists l. split; [done|]. rewrite El. simpl. lia.
Qed.

(** The encoder of a marker succeeds whenever its capacity check does, and the
    capacity is the length. *)
Lemma marker_encodes c size :
  typed_marker c -> validCandidateAuthority (cm_Authority c) = true -> collatorCandidateRecordCapacity c = Ok size ->
  exists value, encodeCollatorCandidateRecord c = Ok value /\ Z.of_nat (length value) = size.
Proof.
  intros [H1 H2 [_ H3] [_ H4] H5 H6 H7 H8] Ha Hc. unfold encodeCollatorCandidateRecord. rewrite Ha, Hc. cbn [negb and_then].
  unfold collatorCandidateRecordCapacity, addCollatorRecordBytesSize in Hc.
  destruct (negb (par_Exists _) && _) eqn:Hp; [done|].
  assert (par_Exists (cm_Parent c) = false -> par_ID (cm_Parent c) = zeroCandidateID) as Hz.
  { intros E. rewrite E in Hp. cbn in Hp. by apply negb_false_iff, bool_decide_eq_true in Hp. }
  destruct (Nat.eqb_spec (length (b_RootHash (cm_Block c))) 32) as [Hr|]; cbn [negb] in Hc; [|done].
  destruct (Nat.eqb_spec (length (b_FileHash (cm_Block c))) 32) as [Hf|]; cbn [negb] in Hc; [|done].
  destruct (Z.ltb_spec (2 ^ 32 - 1) (Z.of_nat (length (cm_Signature c)))); cbn [and_then] in Hc; [done|].
  destruct (Z.ltb_spec (2 ^ 32 - 1) (Z.of_nat (length (cm_DelegationSignature c)))); cbn [and_then] in Hc; [done|].
  match type of Hc with (if ?b then _ else _) = _ => destruct b; [done|] end. injection Hc as <-.
  match goal with |- context [enc_result (enc_all ?fs newEncoder)] => assert (sized (enc_all fs)
    (sum_list [1; 32; 4; 36; parent_size (cm_Parent c); 4; 1; collatorBlockIDSize; 32; 4 + length (cm_Signature c); 32;
      4 + length (cm_DelegationSignature c); 1]%nat)) as Hs end.
  { apply sized_all. repeat constructor; try apply sized_uint32; try apply sized_bool; try by apply sized_append'.
    - by apply sized_candidateID.
    - by apply sized_parent.
    - by apply sized_blockID.
    - by apply sized_bytes.
    - by apply sized_bytes. }
  destruct (Hs []) as (l & El & Hl). unfold newEncoder. rewrite El. exists l. split; [done|]. rewrite Hl.
  unfold parent_size, collatorBlockIDSize, collatorCandidateFixedSize. cbn [sum_list sum_list_with foldr id].
  destruct (par_Exists (cm_Parent c)); unfold u64; Z.to_euclidean_division_equations; lia.
Qed.

(** ** Comparisons decide equality *)

Ltac split_andb :=
  repeat match goal with
  | H : _ && _ = true |- _ => apply andb_true_iff in H as [? ?]
  | H : (_ =? _) = true |- _ => apply Z.eqb_eq in H
  | H : bool_decide _ = true |- _ => apply bool_decide_eq_true in H
  | H : Bool.eqb _ _ = true |- _ => apply eqb_prop in H
  end.

Lemma sameBlockID_eq a b : sameBlockID a b = true <-> a = b.
Proof.
  split; [|intros ->; unfold sameBlockID; by rewrite !Z.eqb_refl, !bool_decide_true].
  unfold sameBlockID. intros E. split_andb. destruct a, b; simpl in *. congruence.
Qed.
Lemma slices_EqualFunc_eq {A} (eq : A -> A -> bool) l r :
  (forall a b, eq a b = true -> a = b) -> slices_EqualFunc eq l r = true -> l = r.
Proof.
  intros He. revert r. induction l as [|a l IH]; intros [|b r]; simpl; try done. intros [->%He ->%IH]%andb_true_iff. done.
Qed.
Lemma Session_Equal_eq a b : Session_Equal a b = true -> a = b.
Proof. unfold Session_Equal. intros E. split_andb. destruct a, b; simpl in *. congruence. Qed.
Lemma SessionActivation_Equal_eq a b : SessionActivation_Equal a b = true -> a = b.
Proof.
  unfold SessionActivation_Equal. intros E. split_andb.
  match goal with H : slices_EqualFunc _ _ _ = true |- _ => apply slices_EqualFunc_eq in H; [|by intros ? ? ?%sameBlockID_eq] end.
  match goal with H : sameBlockID _ _ = true |- _ => apply sameBlockID_eq in H end. destruct a, b; simpl in *. congruence.
Qed.
Lemma collatorCandidateRecordsEqual_eq a b : collatorCandidateRecordsEqual a b = true -> a = b.
Proof.
  unfold collatorCandidateRecordsEqual. intros E. split_andb.
  destruct a as [? ? ? ? ? ? []], b as [? ? ? ? ? ? []]; simpl in *. congruence.
Qed.

(** ** The chain view advances *)

Lemma blockAdvances_refl b : blockAdvances b b = true.
Proof. unfold blockAdvances. rewrite !Z.eqb_refl, Z.ltb_irrefl. by apply sameBlockID_eq. Qed.
Lemma blockAdvances_spec a b : blockAdvances a b = true <->
  b_Workchain a = b_Workchain b /\ b_Shard a = b_Shard b /\ (b_SeqNo a < b_SeqNo b \/ a = b).
Proof.
  unfold blockAdvances. destruct (Z.eqb_spec (b_Workchain a) (b_Workchain b)); simpl; [|split; [done|intros (? & ? & [?| ->]); done]].
  destruct (Z.eqb_spec (b_Shard a) (b_Shard b)); simpl; [|split; [done|intros (? & ? & [?| ->]); done]].
  destruct (Z.ltb_spec (b_SeqNo b) (b_SeqNo a)); simpl; [split; [done|intros (? & ? & [?| ->]); lia]|].
  destruct (Z.eqb_spec (b_SeqNo b) (b_SeqNo a)).
  - rewrite sameBlockID_eq. split; [by intros ->; auto|intros (? & ? & [?| ->]); [lia|done]].
  - split; [intros _; split_and!; [done..|lia]|done].
Qed.
Lemma blockAdvances_trans a b c : blockAdvances a b = true -> blockAdvances b c = true -> blockAdvances a c = true.
Proof.
  rewrite !blockAdvances_spec. intros (E1 & E2 & H1) (E3 & E4 & H2). split_and!; [congruence..|].
  destruct H1 as [?| ->], H2 as [?| ->]; [left; lia|auto..].
Qed.

Lemma parentAdvances_spec a b : parentAdvances a b = true <->
  (par_Exists a = true -> par_Exists b = true /\ (cid_Slot (par_ID a) < cid_Slot (par_ID b) \/ par_ID a = par_ID b)).
Proof.
  unfold parentAdvances. destruct (par_Exists a); simpl; [|by split]. destruct (par_Exists b); simpl; [|naive_solver].
  destruct (Z.ltb_spec (cid_Slot (par_ID b)) (cid_Slot (par_ID a))).
  { split; [done|]. intros Ha. destruct (Ha eq_refl) as [_ [?|E]]; [lia|rewrite E in *; lia]. }
  destruct (Z.eqb_spec (cid_Slot (par_ID b)) (cid_Slot (par_ID a))).
  - rewrite bool_decide_eq_true. split; [by intros ->; auto|]. intros Ha. destruct (Ha eq_refl) as [_ [?|E]]; [lia|done].
  - split; [|done]. intros _ _. split; [done|left; lia].
Qed.
Lemma parentAdvances_refl a : parentAdvances a a = true.
Proof. apply parentAdvances_spec. auto. Qed.
Lemma parentAdvances_trans a b c : parentAdvances a b = true -> parentAdvances b c = true -> parentAdvances a c = true.
Proof.
  rewrite !parentAdvances_spec. intros H1 H2 Ea. destruct (H1 Ea) as [Eb Hb]. destruct (H2 Eb) as [Ec Hc]. split; [done|].
  destruct Hb as [?|Eb'], Hc as [?|Ec']; [left; lia|left; congruence|left; congruence|right; congruence].
Qed.

Lemma time_Equal_eq a b : time_Equal a b = true <-> a = b.
Proof.
  unfold time_Equal. rewrite andb_true_iff, !Z.eqb_eq. destruct a, b; simpl. split; [by intros [-> ->]|by intros [= -> ->]].
Qed.
Lemma windowAdvances_spec a b : windowAdvances a b = true <->
  up_CurrentWindowStart a < up_CurrentWindowStart b \/
  up_CurrentWindowStart a = up_CurrentWindowStart b /\ up_CurrentWindowStartAt a = up_CurrentWindowStartAt b /\
  up_CurrentWindowObservedSlot a <= up_CurrentWindowObservedSlot b.
Proof.
  unfold windowAdvances. destruct (Z.ltb_spec (up_CurrentWindowStart b) (up_CurrentWindowStart a)); [split; [done|lia]|].
  destruct (Z.eqb_spec (up_CurrentWindowStart b) (up_CurrentWindowStart a)); [|split; [lia|done]].
  rewrite negb_true_iff, orb_false_iff, negb_false_iff, time_Equal_eq, Z.ltb_ge. split.
  - intros [-> ?]. right. by split_and!.
  - intros [?|(_ & -> & ?)]; [lia|done].
Qed.

(** Whether [b] may replace [a], as a conjunction. *)
Record advances (a b : SessionUpdate) : Prop := {
  av_session : up_SessionID a = up_SessionID b;
  av_masterchain : blockAdvances (up_MasterchainBlock a) (up_MasterchainBlock b) = true;
  av_finalized : up_HasFinalizedBlock a = true ->
    up_HasFinalizedBlock b = true /\ blockAdvances (up_FinalizedBlock a) (up_FinalizedBlock b) = true;
  av_window : up_HasCurrentWindow a = true -> up_HasCurrentWindow b = true /\ windowAdvances a b = true;
  av_base : parentAdvances (up_CurrentBase a) (up_CurrentBase b) = true }.

Lemma ValidateSessionUpdateAdvance_spec a b : ValidateSessionUpdateAdvance a b = true <-> advances a b.
Proof.
  unfold ValidateSessionUpdateAdvance. split.
  - intros E. case_bool_decide as H1; simpl in E; [|done].
    destruct (blockAdvances (up_MasterchainBlock a) (up_MasterchainBlock b)) eqn:H2; simpl in E; [|done].
    destruct (up_HasFinalizedBlock a) eqn:F1, (up_HasFinalizedBlock b) eqn:F2; simpl in E; try done;
      destruct (up_HasCurrentWindow a) eqn:W1, (up_HasCurrentWindow b) eqn:W2; simpl in E; try done;
      repeat match type of E with context [negb ?x] => destruct x eqn:?; simpl in E; try done end; constructor; by auto || (intros; by rewrite ?F1, ?F2, ?W1, ?W2 in *).
  - intros [H1 H2 H3 H4 H5]. rewrite bool_decide_true by done. simpl. rewrite H2. simpl.
    destruct (up_HasFinalizedBlock a); simpl; [destruct (H3 eq_refl) as [-> ->]; simpl|];
      (destruct (up_HasCurrentWindow a); simpl; [destruct (H4 eq_refl) as [-> ->]; simpl|]); by rewrite H5.
Qed.

#[export] Instance advances_preorder : PreOrder advances.
Proof.
  split.
  - intros a. constructor; [done|apply blockAdvances_refl|intros; split; [done|apply blockAdvances_refl]| |apply parentAdvances_refl].
    intros Hw. split; [done|]. apply windowAdvances_spec. right. by split_and!.
  - intros a b c [A1 A2 A3 A4 A5] [B1 B2 B3 B4 B5]. constructor.
    + congruence.
    + by eapply blockAdvances_trans.
    + intros Ha. destruct (A3 Ha) as [Hb ?], (B3 Hb) as [? ?]. split; [done|by eapply blockAdvances_trans].
    + intros Ha. destruct (A4 Ha) as [Hb Wa], (B4 Hb) as [? Wb]. split; [done|].
      apply windowAdvances_spec. apply windowAdvances_spec in Wa, Wb. destruct Wa as [?|(? & ? & ?)], Wb as [?|(? & ? & ?)]; [left; lia|left; lia|left; lia|].
      right. split_and!; [lia|congruence|lia].
    + by eapply parentAdvances_trans.
Qed.

(** A newer snapshot with the old progress carried over is an advance whenever
    what the snapshot itself observed is one. *)
Lemma PreserveProgress_advances current u :
  up_SessionID current = up_SessionID u -> blockAdvances (up_MasterchainBlock current) (up_MasterchainBlock u) = true ->
  (up_HasFinalizedBlock current = true -> up_HasFinalizedBlock u = true ->
    blockAdvances (up_FinalizedBlock current) (up_FinalizedBlock u) = true) ->
  (up_HasCurrentWindow current = true -> up_HasCurrentWindow u = true ->
    windowAdvances current u = true /\ parentAdvances (up_CurrentBase current) (up_CurrentBase u) = true) ->
  (up_HasCurrentWindow current = false -> parentAdvances (up_CurrentBase current) (up_CurrentBase u) = true) ->
  ValidateSessionUpdateAdvance current (PreserveProgress u current) = true.
Proof.
  intros H1 H2 H3 H4 H5. apply ValidateSessionUpdateAdvance_spec. unfold PreserveProgress. constructor; simpl; [done|done| | |].
  - intros E. rewrite E in *. destruct (up_HasFinalizedBlock u); simpl; (split; [done|]); [by apply H3|apply blockAdvances_refl].
  - intros E. rewrite E in *. destruct (up_HasCurrentWindow u); simpl; (split; [done|]); apply windowAdvances_spec; simpl.
    + apply windowAdvances_spec, H4; done.
    + right. by split_and!.
  - destruct (up_HasCurrentWindow current) eqn:E; simpl; [|by apply H5]. destruct (up_HasCurrentWindow u); simpl; [by apply H4|].
    apply parentAdvances_refl.
Qed.
