(* ===== verification/Pebble.v ===== *)
(** * The key-value database under the validator store

    The store runs on a Pebble database, which is not part of this repository.
    [Pebble] lists the operations the code calls, [PebbleLaws] what it relies on:
    an indexed batch reads its own writes over the database, a commit applies a
    batch atomically, an iterator visits a range in key order, and a reopened
    database is one of the states it went through, no older than the last one
    synced.  Any operation may fail with an I/O error.  [MemPebble] is an
    instance that never fails. *)

From stdpp Require Import sorting.
From S2P Require Import Prelude.
From S2P Require Import StoreKeys.

#[local] Open Scope Z_scope.

(** The outcome of a read, [pebble.ErrNotFound] apart. *)
Inductive read_result := Found (v : bytes) | NotFound | ReadFailed.

Notation kv := (@gmap bytes (@list_eq_dec Z numbers.Z.eq_dec) (@list_countable Z numbers.Z.eq_dec Z_countable) bytes).

(** Rows of a range and whether the iterator ended with an error; [None] when it
    could not be opened. *)
Notation rows := (option (list (bytes * bytes) * bool)).

Class Pebble := {
  DB : Type;
  Batch : Type;
  NewIndexedBatch : DB -> Batch;
  batch_Get : Batch -> bytes -> read_result;
  batch_Iter : Batch -> bytes -> option bytes -> rows;
  batch_Set : Batch -> bytes -> bytes -> option Batch;
  batch_Delete : Batch -> bytes -> option Batch;
  batch_DeleteRange : Batch -> bytes -> option bytes -> option Batch;
  batch_Empty : Batch -> bool;
  (** [batch.Commit(pebble.NoSync)], [batch.Close()] and
      [db.LogData(nil, pebble.Sync)]; [false] is an error. *)
  batch_Commit : DB -> Batch -> bool * DB;
  batch_Close : Batch -> bool;
  db_LogDataSync : DB -> bool * DB;
  (** [db.Set(key, value, pebble.Sync)]. *)
  db_SetSync : DB -> bytes -> bytes -> bool * DB;
  (** Reads of a snapshot. *)
  db_Get : DB -> bytes -> read_result;
  db_Iter : DB -> bytes -> option bytes -> rows;
  (** [pebble.Open] on what a closed or killed process left behind. *)
  db_Reopen : DB -> DB -> Prop }.

Definition key_lt (a b : bytes * bytes) : Prop := bytes_Less a.1 b.1 = true.

(** What an iterator over [m] yields: the rows in key order, all of them unless it
    stopped on an error. *)
Definition range_of (m : kv) (lo : bytes) (hi : option bytes) (r : list (bytes * bytes) * bool) : Prop :=
  StronglySorted key_lt r.1 /\
  (forall k v, (k, v) ∈ r.1 -> m !! k = Some v /\ in_bounds lo hi k = true) /\
  (r.2 = false -> forall k v, m !! k = Some v -> in_bounds lo hi k = true -> (k, v) ∈ r.1).

Definition read_of (m : kv) (k : bytes) (r : read_result) : Prop :=
  match r with Found v => m !! k = Some v | NotFound => m !! k = None | ReadFailed => True end.

Definition delete_range (lo : bytes) (hi : option bytes) (m : kv) : kv :=
  filter (fun p => in_bounds lo hi p.1 = false) m.

Class PebbleLaws `{Pebble} := {
  (** Every state since the database was opened, oldest first, and the position
      of the newest one known to be on disk. *)
  versions : DB -> list kv;
  stable : DB -> nat;
  (** The state under a batch and the state with its writes. *)
  base : Batch -> kv;
  view : Batch -> kv;
  law_stable db : (stable db < length (versions db))%nat;
  law_new db : base (NewIndexedBatch db) = view (NewIndexedBatch db) /\
    last (versions db) = Some (view (NewIndexedBatch db));
  law_batch_get b k : read_of (view b) k (batch_Get b k);
  law_batch_iter b lo hi r : batch_Iter b lo hi = Some r -> range_of (view b) lo hi r;
  law_set b k v b' : batch_Set b k v = Some b' -> base b' = base b /\ view b' = <[k := v]> (view b);
  law_delete b k b' : batch_Delete b k = Some b' -> base b' = base b /\ view b' = delete k (view b);
  law_delete_range b lo hi b' : batch_DeleteRange b lo hi = Some b' ->
    base b' = base b /\ view b' = delete_range lo hi (view b);
  law_empty b : batch_Empty b = true -> view b = base b;
  law_commit db b db' : last (versions db) = Some (base b) -> batch_Commit db b = (true, db') ->
    versions db' = versions db ++ [view b] /\ (stable db <= stable db')%nat;
  law_commit_failed db b db' : batch_Commit db b = (false, db') ->
    (versions db' = versions db \/ versions db' = versions db ++ [view b]) /\ (stable db <= stable db')%nat;
  law_sync db db' : db_LogDataSync db = (true, db') ->
    versions db' = versions db /\ S (stable db') = length (versions db);
  law_sync_failed db db' : db_LogDataSync db = (false, db') ->
    versions db' = versions db /\ (stable db <= stable db')%nat;
  law_set_sync db k v db' m : last (versions db) = Some m -> db_SetSync db k v = (true, db') ->
    versions db' = versions db ++ [<[k := v]> m] /\ S (stable db') = length (versions db');
  law_set_sync_failed db k v db' m : last (versions db) = Some m -> db_SetSync db k v = (false, db') ->
    (versions db' = versions db \/ versions db' = versions db ++ [<[k := v]> m]) /\ (stable db <= stable db')%nat;
  law_get db k m : last (versions db) = Some m -> read_of m k (db_Get db k);
  law_iter db lo hi m r : last (versions db) = Some m -> db_Iter db lo hi = Some r -> range_of m lo hi r;
  law_reopen db db' : db_Reopen db db' ->
    exists n m, (stable db <= n)%nat /\ versions db !! n = Some m /\ versions db' = [m] }.

(** The current contents. *)
Definition contents `{PebbleLaws} (db : DB) : kv := view (NewIndexedBatch db).

Section Contents.
Context `{PebbleLaws}.

Lemma contents_last db : last (versions db) = Some (contents db).
Proof. apply law_new. Qed.
Lemma contents_unique db m : last (versions db) = Some m -> contents db = m.
Proof. rewrite contents_last. by intros [= ->]. Qed.
Lemma contents_elem db : contents db ∈ versions db.
Proof. apply last_Some_elem_of, contents_last. Qed.
End Contents.

(** ** An instance *)

(** A state is an association list; the first entry of a key counts. *)
Module MemPebble.

Notation alist := (list (bytes * bytes)).
Definition to_map (l : alist) : kv := list_to_map l.

Fixpoint norm (l : alist) : alist :=
  match l with
  | [] => []
  | (k, v) :: l => (k, v) :: filter (fun p => p.1 <> k) (norm l)
  end.
Fixpoint place (p : bytes * bytes) (l : alist) : alist :=
  match l with
  | [] => [p]
  | q :: l => if bytes_Less p.1 q.1 then p :: q :: l else q :: place p l
  end.
Definition scan_rows (l : alist) (lo : bytes) (hi : option bytes) : alist :=
  foldr place [] (filter (fun p => in_bounds lo hi p.1 = true) (norm l)).

Record mem := mkMem { mem_versions : list alist; mem_last : alist; mem_stable : nat }.
Record membatch := mkMemBatch { mb_base : alist; mb_rows : alist }.

#[export] Instance pebble : Pebble := {|
  DB := mem;
  Batch := membatch;
  NewIndexedBatch db := mkMemBatch (mem_last db) (mem_last db);
  batch_Get b k := match (to_map (mb_rows b)) !! k with Some v => Found v | None => NotFound end;
  batch_Iter b lo hi := Some (scan_rows (mb_rows b) lo hi, false);
  batch_Set b k v := Some (mkMemBatch (mb_base b) ((k, v) :: mb_rows b));
  batch_Delete b k := Some (mkMemBatch (mb_base b) (filter (fun p => p.1 <> k) (mb_rows b)));
  batch_DeleteRange b lo hi :=
    Some (mkMemBatch (mb_base b) (filter (fun p => in_bounds lo hi p.1 = false) (mb_rows b)));
  batch_Empty b := bool_decide (mb_rows b = mb_base b);
  batch_Commit db b := (true, mkMem (mem_versions db ++ [mem_last db]) (mb_rows b) (mem_stable db));
  batch_Close _ := true;
  db_LogDataSync db := (true, mkMem (mem_versions db) (mem_last db) (length (mem_versions db)));
  db_SetSync db k v := (true, mkMem (mem_versions db ++ [mem_last db]) ((k, v) :: mem_last db) (S (length (mem_versions db))));
  db_Get db k := match (to_map (mem_last db)) !! k with Some v => Found v | None => NotFound end;
  db_Iter db lo hi := Some (scan_rows (mem_last db) lo hi, false);
  db_Reopen db db' := exists n l, (mem_stable db <= n)%nat /\ (mem_versions db ++ [mem_last db]) !! n = Some l /\
    db' = mkMem [] l 0 |}.

Lemma to_map_filter l (P : bytes -> Prop) `{!forall k, Decision (P k)} k :
  to_map (filter (fun p => P p.1) l) !! k = if decide (P k) then to_map l !! k else None.
Proof.
  unfold to_map. induction l as [|[k' v] l IH]; [by case_decide|]. rewrite filter_cons. simpl in *.
  destruct (decide (P k')) as [HP|HP]; simpl.
  - destruct (decide (k' = k)) as [->|]; [by rewrite !lookup_insert_eq, decide_True|by rewrite !lookup_insert_ne].
  - rewrite IH. case_decide; [|done]. rewrite lookup_insert_ne; [done|]. by intros ->.
Qed.

Lemma elem_of_norm l k v : (k, v) ∈ norm l <-> to_map l !! k = Some v.
Proof.
  unfold to_map. induction l as [|[k' v'] l IH]; simpl; [by split; [intros ?%elem_of_nil|]|].
  rewrite elem_of_cons, list_elem_of_filter, IH. destruct (decide (k' = k)) as [->|].
  - rewrite lookup_insert_eq. naive_solver.
  - rewrite lookup_insert_ne by done. naive_solver.
Qed.

Lemma norm_nodup l : NoDup (norm l).*1.
Proof.
  induction l as [|[k v] l IH]; simpl; constructor.
  - intros (p & Hp & Hin)%list_elem_of_fmap. apply list_elem_of_filter in Hin as [Hne _]. by rewrite <- Hp in Hne.
  - eapply sublist_NoDup; [exact IH|]. apply fmap_sublist, sublist_filter.
Qed.

Lemma elem_of_place p q l : p ∈ place q l <-> p = q \/ p ∈ l.
Proof. induction l as [|r l IH]; simpl; [set_solver|]. case_match; set_solver. Qed.

Lemma place_sorted p l :
  StronglySorted key_lt l -> (forall q, q ∈ l -> q.1 <> p.1) -> StronglySorted key_lt (place p l).
Proof.
  induction 1 as [|q l Hs IH Hq]; intros Hne; simpl; [by repeat constructor|].
  assert (q.1 <> p.1) by (apply Hne; left). destruct (bytes_Less p.1 q.1) eqn:E.
  - constructor; [by constructor|]. constructor; [done|]. eapply Forall_impl; [exact Hq|].
    intros r Hr. by eapply bytes_Less_trans.
  - constructor; [apply IH; set_solver|]. apply Forall_forall. intros r [->|Hr]%elem_of_place.
    + destruct (bytes_Less_total q.1 p.1) as [?|?]; [done|done|]. unfold key_lt. congruence.
    + rewrite Forall_forall in Hq. by apply Hq.
Qed.

Lemma elem_of_sort p l : p ∈ foldr place [] l <-> p ∈ l.
Proof. induction l as [|q l IH]; simpl; [done|]. rewrite elem_of_place, IH. set_solver. Qed.
Lemma sort_sorted l : NoDup l.*1 -> StronglySorted key_lt (foldr place [] l).
Proof.
  induction l as [|p l IH]; simpl; [constructor|]. intros [Hp Hl]%NoDup_cons. apply place_sorted; [auto|].
  intros q Hq E. apply Hp. apply list_elem_of_fmap. exists q. split; [done|]. by apply elem_of_sort.
Qed.

Lemma scan_rows_range l lo hi : range_of (to_map l) lo hi (scan_rows l lo hi, false).
Proof.
  unfold scan_rows. split_and!; simpl.
  - apply sort_sorted. eapply sublist_NoDup; [apply norm_nodup|]. apply fmap_sublist, sublist_filter.
  - intros k v. rewrite elem_of_sort, list_elem_of_filter, elem_of_norm. tauto.
  - intros _ k v Hk Hb. rewrite elem_of_sort, list_elem_of_filter, elem_of_norm. tauto.
Qed.

Lemma last_versions db : last (to_map <$> (mem_versions db ++ [mem_last db])) = Some (to_map (mem_last db)).
Proof. rewrite fmap_app. apply last_snoc. Qed.

#[export, refine] Instance laws : PebbleLaws := {|
  versions db := to_map <$> (mem_versions db ++ [mem_last db]);
  stable db := Nat.min (mem_stable db) (length (mem_versions db));
  base b := to_map (mb_base b);
  view b := to_map (mb_rows b) |}.
Proof.
  all: simpl.
  - intros db. rewrite length_fmap, length_app. simpl. lia.
  - intros db. split; [done|]. apply last_versions.
  - intros b k. by destruct (to_map (mb_rows b) !! k) eqn:E.
  - intros b lo hi r [= <-]. apply scan_rows_range.
  - by intros b k v b' [= <-].
  - intros b k b' [= <-]. split; [done|]. simpl. apply map_eq. intros j.
    etrans; [exact (to_map_filter (mb_rows b) (fun j => j <> k) j)|]. rewrite lookup_delete. repeat case_decide; naive_solver.
  - intros b lo hi b' [= <-]. split; [done|]. simpl. apply map_eq. intros j. unfold delete_range.
    etrans; [exact (to_map_filter (mb_rows b) (fun j => in_bounds lo hi j = false) j)|]. rewrite map_lookup_filter. unfold guard. simpl.
    destruct (to_map (mb_rows b) !! j); simpl; repeat case_decide; done.
  - intros b E%bool_decide_eq_true. by rewrite E.
  - intros db b db' _ [= <-]. simpl. rewrite !fmap_app, length_app. simpl. split; [done|lia].
  - done.
  - intros db db' [= <-]. simpl. rewrite length_fmap, length_app. simpl. split; [done|lia].
  - done.
  - intros db k v db' m. rewrite last_versions. intros [= <-] [= <-]. simpl. split; [by rewrite !fmap_app|].
    rewrite length_fmap, !length_app. cbn [length]. rewrite !Nat.add_1_r, Nat.min_id. done.
  - done.
  - intros db k m. rewrite last_versions. intros [= <-]. by destruct (to_map (mem_last db) !! k) eqn:E.
  - intros db lo hi m r. rewrite last_versions. intros [= <-] [= <-]. apply scan_rows_range.
  - intros db db' (n & l & Hn & Hl & ->). exists n, (to_map l). split_and!; [lia| |done].
    by rewrite list_lookup_fmap, Hl.
Defined.
End MemPebble.
