(* ===== verification/Files.v ===== *)
(** * Directories and files (Go [os])

    The part of a file system the candidate packs use: directories of one level,
    files as byte strings.  Every system call takes its outcome from a list, so a
    run may fail at any call; a failed or short write leaves a prefix of its data.
    [files_le] orders file systems by growth of their files. *)

From S2P Require Import Prelude.

#[local] Open Scope Z_scope.

(** ** Computations with an error and a state *)

Definition EST (E S A : Type) : Type := S -> result E A * S.
#[export] Instance est_ret E S : MRet (EST E S) := fun A a s => (Ok a, s).
#[export] Instance est_bind E S : MBind (EST E S) := fun A B k m s =>
  match m s with
  | (Ok a, s) => k a s
  | (Err e, s) => (Err e, s)
  end.
Definition est_fail {E S A} (e : E) : EST E S A := fun s => (Err e, s).
Definition est_gets {E S A} (f : S -> A) : EST E S A := fun s => (Ok (f s), s).
Definition est_modify {E S} (f : S -> S) : EST E S unit := fun s => (Ok tt, f s).
(** The result as a value, errors included. *)
Definition est_catch {E S A} (m : EST E S A) : EST E S (result E A) := fun s => let '(r, s) := m s in (Ok r, s).

(** ** System calls *)

(** How a call ends: as asked, after a part of its work without an error, or with
    one. *)
Inductive outcome := Done | Short (n : nat) | Failed (n : nat).
(** [os.ErrNotExist], [io.EOF], any other error. *)
Inductive io_error := ErrNotExist | ErrEOF | ErrSystem.
#[export] Instance io_error_eq_dec : EqDecision io_error.
Proof. solve_decision. Defined.

Inductive entry := File (data : bytes) | Directory.
Notation directory := (gmap bytes entry).
Record files := mkFiles { fi_dirs : gmap bytes directory; fi_outcomes : list outcome }.
#[export] Instance eta_files : Eta files := fun f => mkFiles (fi_dirs f) (fi_outcomes f).
Definition path : Type := bytes * bytes.

Definition lookup_path (f : files) (p : path) : option entry := fi_dirs f !! p.1 ≫= lookup p.2.

Notation Sys := (EST io_error files).

Definition next_outcome : Sys outcome := fun f =>
  match fi_outcomes f with
  | [] => (Ok Done, f)
  | o :: rest => (Ok o, f <| fi_outcomes := rest |>)
  end.
(** A call that does all of its work or fails without any. *)
Definition syscall {A} (m : Sys A) : Sys A :=
  o ← next_outcome;
  match o with Failed _ => est_fail ErrSystem | _ => m end.

Definition os_MkdirAll (dir : bytes) : Sys unit :=
  syscall (est_modify (fun f =>
    match fi_dirs f !! dir with Some _ => f | None => f <| fi_dirs := <[dir := ∅]> (fi_dirs f) |> end)).
(** [os.ReadDir]: the names, each with [IsDir]. *)
Definition os_ReadDir (dir : bytes) : Sys (list (bytes * bool)) :=
  syscall (d ← est_gets (fun f => fi_dirs f !! dir);
    match d with
    | None => est_fail ErrNotExist
    | Some d => mret (prod_map id (fun e => match e with Directory => true | File _ => false end) <$> map_to_list d)
    end).
(** [os.OpenFile] with [O_CREATE|O_EXCL]. *)
Definition os_Create (p : path) : Sys unit :=
  syscall (d ← est_gets (fun f => fi_dirs f !! p.1);
    match d with
    | None => est_fail ErrNotExist
    | Some d =>
        match d !! p.2 with
        | Some _ => est_fail ErrSystem
        | None => est_modify (fun f => f <| fi_dirs := <[p.1 := <[p.2 := File []]> d]> (fi_dirs f) |>)
        end
    end).
(** [os.Open]; the handle is what the path named. *)
Definition os_Open (p : path) : Sys entry :=
  syscall (e ← est_gets (fun f => lookup_path f p); match e with None => est_fail ErrNotExist | Some e => mret e end).
Definition os_Close : Sys unit := syscall (mret tt).
Definition os_Remove (p : path) : Sys unit :=
  syscall (d ← est_gets (fun f => fi_dirs f !! p.1);
    match d with
    | None => est_fail ErrNotExist
    | Some d =>
        match d !! p.2 with
        | None => est_fail ErrNotExist
        | Some _ => est_modify (fun f => f <| fi_dirs := <[p.1 := delete p.2 d]> (fi_dirs f) |>)
        end
    end).
(** [os.RemoveAll]: a failure may come after some entries are gone. *)
Definition os_RemoveAll (dir : bytes) : Sys unit :=
  o ← next_outcome;
  match o with
  | Failed n =>
      _ ← est_modify (fun f => f <| fi_dirs := alter (fun d : directory => list_to_map (drop n (map_to_list d))) dir (fi_dirs f) |>);
      est_fail ErrSystem
  | _ => est_modify (fun f => f <| fi_dirs := delete dir (fi_dirs f) |>)
  end.

(** [file.ReadAt] of [len] bytes. *)
Definition os_ReadAt (e : entry) (len off : Z) : Sys bytes :=
  syscall (
    match e with
    | Directory => est_fail ErrSystem
    | File data =>
        if Z.of_nat (length data) <? off + len then est_fail ErrEOF
        else mret (take (Z.to_nat len) (drop (Z.to_nat off) data))
    end).

Definition write_at (file : bytes) (off : nat) (data : bytes) : bytes :=
  match data with
  | [] => file
  | _ => take off (file ++ replicate (off - length file) 0) ++ data ++ drop (off + length data) file
  end.
Definition update_file (p : path) (g : bytes -> bytes) (f : files) : files :=
  f <| fi_dirs := alter (fun d : directory => alter (fun e => match e with File x => File (g x) | e => e end) p.2 d) p.1 (fi_dirs f) |>.
(** [file.WriteAt] on a handle of the file [p]; a file removed meanwhile takes the
    bytes along. *)
Definition os_WriteAt (p : path) (data : bytes) (off : Z) : Sys Z :=
  o ← next_outcome;
  let n := match o with Done => length data | Short n | Failed n => Nat.min n (length data) end in
  _ ← est_modify (update_file p (fun x => write_at x (Z.to_nat off) (take n data)));
  match o with Failed _ => est_fail ErrSystem | _ => mret (Z.of_nat n) end.

(** ** What computations establish *)

Section Specs.
Context {E S : Type}.

(** From [P], a result satisfies [Q] and an error [R]. *)
Definition est_spec {A} (P : S -> Prop) (m : EST E S A) (Q : A -> S -> Prop) (R : E -> S -> Prop) : Prop :=
  forall s, P s -> match m s with (Ok a, s') => Q a s' | (Err e, s') => R e s' end.

Lemma est_spec_ret {A} (a : A) (P : S -> Prop) (Q : A -> S -> Prop) R : (forall s, P s -> Q a s) -> est_spec P (mret a) Q R.
Proof. intros HQ s Hs. by apply HQ. Qed.
Lemma est_spec_fail {A} e (P : S -> Prop) (Q : A -> S -> Prop) (R : E -> S -> Prop) :
  (forall s, P s -> R e s) -> est_spec P (est_fail e) Q R.
Proof. intros HR s Hs. by apply HR. Qed.
Lemma est_spec_gets {A} (f : S -> A) (P : S -> Prop) (Q : A -> S -> Prop) R :
  (forall s, P s -> Q (f s) s) -> est_spec P (est_gets f) Q R.
Proof. intros HQ s Hs. by apply HQ. Qed.
Lemma est_spec_modify (f : S -> S) (P : S -> Prop) (Q : unit -> S -> Prop) R :
  (forall s, P s -> Q tt (f s)) -> est_spec P (est_modify f) Q R.
Proof. intros HQ s Hs. by apply HQ. Qed.
Lemma est_spec_bind {A B} (m : EST E S A) (k : A -> EST E S B) (P : S -> Prop) (T : A -> S -> Prop) Q R :
  est_spec P m T R -> (forall a, est_spec (T a) (k a) Q R) -> est_spec P (m ≫= k) Q R.
Proof.
  intros Hm Hk s Hs. specialize (Hm s Hs). unfold mbind, est_bind. destruct (m s) as [[a|e] s']; [by apply Hk|done].
Qed.
Lemma est_spec_catch {A} (m : EST E S A) (P : S -> Prop) (Q : result E A -> S -> Prop) R :
  est_spec P m (fun a => Q (Ok a)) (fun e => Q (Err e)) -> est_spec P (est_catch m) Q R.
Proof. intros Hm s Hs. specialize (Hm s Hs). unfold est_catch. by destruct (m s) as [[a|e] s']. Qed.
Lemma est_spec_mono {A} (m : EST E S A) (P P' : S -> Prop) (Q Q' : A -> S -> Prop) (R R' : E -> S -> Prop) :
  est_spec P m Q R -> (forall s, P' s -> P s) -> (forall a s, Q a s -> Q' a s) -> (forall e s, R e s -> R' e s) ->
  est_spec P' m Q' R'.
Proof. intros Hm HP HQ HR s Hs. specialize (Hm s (HP s Hs)). destruct (m s) as [[a|e] s']; auto. Qed.
End Specs.

(** ** What the calls do to the files *)

(** A call that only reads; it takes its outcome from the list. *)
Definition same_dirs (f f' : files) : Prop := fi_dirs f' = fi_dirs f.
(** Every file is still there, perhaps longer. *)
Definition files_le (f f' : files) : Prop :=
  forall p data, lookup_path f p = Some (File data) -> exists tail, lookup_path f' p = Some (File (data ++ tail)).
(** [t] was appended to the file [p], whose contents were [x]. *)
Definition grown (p : path) (x t : bytes) (f f' : files) : Prop :=
  lookup_path f p = Some (File x) /\ lookup_path f' p = Some (File (x ++ t)) /\
  forall q, q <> p -> lookup_path f' q = lookup_path f q.

#[export] Instance files_le_preorder : PreOrder files_le.
Proof.
  split; [by intros f p data Hp; exists []; rewrite app_nil_r|].
  intros f g h H1 H2 p data (t & Ht)%H1. apply H2 in Ht as [t' Ht']. exists (t ++ t'). by rewrite app_assoc.
Qed.
Lemma same_files_le f f' : same_dirs f f' -> files_le f f'.
Proof. intros E p data. unfold lookup_path. rewrite E. exists []. by rewrite app_nil_r. Qed.
Lemma same_lookup_path f f' p : same_dirs f f' -> lookup_path f' p = lookup_path f p.
Proof. unfold lookup_path. by intros ->. Qed.
Lemma grown_le p x t f f' : grown p x t f f' -> files_le f f'.
Proof.
  intros (Hx & Hx' & Hq) q data Hd. destruct (decide (q = p)) as [->|Hne].
  - rewrite Hx in Hd. injection Hd as <-. by exists t.
  - exists []. by rewrite (Hq q Hne), app_nil_r.
Qed.
Lemma grown_trans p x t u f f' f'' : grown p x t f f' -> grown p (x ++ t) u f' f'' -> grown p x (t ++ u) f f''.
Proof.
  intros (H1 & H2 & H3) (_ & H5 & H6). split_and!; [done|by rewrite app_assoc|]. intros q Hq. by rewrite H6, H3.
Qed.
Lemma grown_nil p x f : lookup_path f p = Some (File x) -> grown p x [] f f.
Proof. intros Hx. split_and!; [done|by rewrite app_nil_r|done]. Qed.

Lemma next_outcome_same f : exists o f', next_outcome f = (Ok o, f') /\ same_dirs f f'.
Proof. unfold next_outcome. destruct (fi_outcomes f) as [|o l]; eexists _, _; by split. Qed.

Lemma update_file_lookup p g f q :
  lookup_path (update_file p g f) q =
  if decide (q = p) then (fun e => match e with File x => File (g x) | e => e end) <$> lookup_path f p else lookup_path f q.
Proof.
  destruct p as [d n], q as [d' n']. unfold lookup_path, update_file. simpl. destruct (decide (d' = d)) as [->|Hd].
  - rewrite lookup_alter_eq. destruct (fi_dirs f !! d) as [m|]; simpl; [|by case_decide].
    destruct (decide (n' = n)) as [->|Hn]; [by rewrite lookup_alter_eq, decide_True|].
    rewrite lookup_alter_ne by done. rewrite decide_False; [done|]. by intros [= ->].
  - rewrite lookup_alter_ne by done. rewrite decide_False; [done|]. by intros [= -> _].
Qed.

Lemma write_at_end x data : write_at x (length x) data = x ++ data.
Proof.
  destruct data as [|b data]; [by rewrite app_nil_r|]. unfold write_at. rewrite Nat.sub_diag. simpl replicate.
  rewrite app_nil_r, take_ge by lia. rewrite drop_ge by lia. by rewrite app_nil_r.
Qed.

Lemma os_WriteAt_grown p data x f :
  lookup_path f p = Some (File x) ->
  match os_WriteAt p data (Z.of_nat (length x)) f with
  | (Ok n, f') => exists k, n = Z.of_nat k /\ (k <= length data)%nat /\ grown p x (take k data) f f'
  | (Err _, f') => exists k, grown p x (take k data) f f'
  end.
Proof.
  intros Hx. unfold os_WriteAt, mbind, est_bind. destruct (next_outcome_same f) as (o & f1 & -> & Hs). simpl.
  set (k := match o with Done => length data | Short n | Failed n => Nat.min n (length data) end).
  assert (k <= length data)%nat as Hk by (destruct o; lia).
  assert (grown p x (take k data) f (update_file p (fun x0 => write_at x0 (Z.to_nat (Z.of_nat (length x))) (take k data)) f1)) as Hg.
  { split_and!; [done|..].
    - rewrite update_file_lookup, decide_True by done. rewrite (same_lookup_path f) by done. rewrite Hx. simpl.
      by rewrite Nat2Z.id, write_at_end.
    - intros q Hq. rewrite update_file_lookup, decide_False by done. by apply same_lookup_path. }
  destruct o; simpl; eauto.
Qed.

Lemma syscall_same {A} (m : Sys A) f (Q : A -> files -> Prop) (R : io_error -> files -> Prop) :
  (forall f', same_dirs f f' -> match m f' with (Ok a, f'') => Q a f'' | (Err e, f'') => R e f'' end) ->
  (forall f', same_dirs f f' -> R ErrSystem f') ->
  match syscall m f with (Ok a, f'') => Q a f'' | (Err e, f'') => R e f'' end.
Proof.
  intros Hm HR. unfold syscall, mbind, est_bind. destruct (next_outcome_same f) as (o & f1 & -> & Hs).
  destruct o; [by apply Hm|by apply Hm|by apply HR].
Qed.
