(* ===== verification/StoreWriter.v ===== *)
(** * The writer of the validator store ([src/service/validator/pebblestore/store.go])

    All writes of the store go through one queue and one writer goroutine, which
    groups requests into batches of one durability class, applies and commits
    each batch, and hands its callbacks to a goroutine of their own.  The state
    is a record, the goroutines are the steps of [store_step]: a client sends a
    request, the writer takes a batch, a callback goroutine syncs the log, a
    callback runs.  [W] is what the requests use besides the batch (the candidate
    packs), [D] the callbacks.  The context of [submitContext] and the races of
    its [select] are arguments. *)

From S2P Require Import Prelude.
From S2P Require Import StoreKeys.
From S2P Require Import StoreCodec.
From S2P Require Import Pebble.

#[local] Open Scope Z_scope.

Definition maxWriteBatch : nat := 128.
Definition maxWriteBatchBytes : Z := Z.shiftl 16 20.

Inductive durabilityClass := durableCommitment | restartRecoverable.
#[export] Instance durabilityClass_eq_dec : EqDecision durabilityClass.
Proof. solve_decision. Defined.

(** The errors a caller can tell apart. *)
Inductive store_error :=
| ErrStorageClosed
| ErrSessionClosed
| ErrSessionConflict
| ErrCandidateConflict
| ErrDelegationConflict
| ErrRecordNotFound
| ErrAlreadySaved
| ErrSummaryMissing
| ErrSessionRetired
| ErrContext
| ErrRecord (e : codec_error)
| ErrCorrupt
| ErrStale
| ErrOverflow
| ErrPack
| ErrClosed
| ErrSeedChanged
| ErrUnsupportedSchema
| ErrUnversionedDatabase
| ErrPanic
| ErrIO.
#[export] Instance store_error_eq_dec : EqDecision store_error.
Proof. solve_decision. Defined.

(** What an [apply] function returns: an error marked by [rejectRequest] fails one
    request, any other fails the batch. *)
Inductive apply_error := Rejected (e : store_error) | Fatal (e : store_error).

(** ** Transactions: the body of an [apply] function *)

Definition Tx `{Pebble} (W A : Type) : Type := Batch * W -> result apply_error A * (Batch * W).

Section Transactions.
Context `{Pebble} {W : Type}.

#[export] Instance tx_ret : MRet (Tx W) := fun A a s => (Ok a, s).
#[export] Instance tx_bind : MBind (Tx W) := fun A B k m s =>
  match m s with
  | (Ok a, s) => k a s
  | (Err e, s) => (Err e, s)
  end.
Definition tx_reject {A} (e : store_error) : Tx W A := fun s => (Err (Rejected e), s).
Definition tx_fatal {A} (e : store_error) : Tx W A := fun s => (Err (Fatal e), s).
Definition tx_of {A} (wrap : store_error -> apply_error) (r : result codec_error A) : Tx W A := fun s =>
  match r with Ok a => (Ok a, s) | Err e => (Err (wrap (ErrRecord e)), s) end.

(** [getBatchCopy]: a missing key is [None], a failed read fails the batch. *)
Definition getBatchCopy (key : bytes) : Tx W (option bytes) := fun s =>
  match batch_Get s.1 key with
  | Found v => (Ok (Some v), s)
  | NotFound => (Ok None, s)
  | ReadFailed => (Err (Fatal ErrIO), s)
  end.
Definition tx_write (write : Batch -> option Batch) : Tx W unit := fun s =>
  match write s.1 with
  | Some b => (Ok tt, (b, s.2))
  | None => (Err (Fatal ErrIO), s)
  end.
Definition tx_Set (key value : bytes) : Tx W unit := tx_write (fun b => batch_Set b key value).
Definition tx_Delete (key : bytes) : Tx W unit := tx_write (fun b => batch_Delete b key).
Definition tx_DeleteRange (lower : bytes) (upper : option bytes) : Tx W unit :=
  tx_write (fun b => batch_DeleteRange b lower upper).
End Transactions.

(** ** Requests and batches *)

Record writeRequest `{Pebble} (W D : Type) := mkRequest {
  rq_apply : Tx W unit;
  rq_done : D;
  rq_sizeHint : Z;
  rq_durability : durabilityClass }.
Arguments mkRequest {_ W D} _ _ _ _.
Arguments rq_apply {_ W D} _.
Arguments rq_done {_ W D} _.
Arguments rq_sizeHint {_ W D} _.
Arguments rq_durability {_ W D} _.

(** The callback goroutine of one batch.  [fl_ready] is set once it has waited for
    the log; then the callbacks run in order. *)
Record inflight (D : Type) := mkInflight {
  fl_class : durabilityClass;
  fl_done : list (D * option store_error);
  fl_fatal : option store_error;
  fl_ready : bool }.
Arguments mkInflight {D} _ _ _ _.
Arguments fl_class {D} _.
Arguments fl_done {D} _.
Arguments fl_fatal {D} _.
Arguments fl_ready {D} _.

Record Store `{Pebble} (W D : Type) := mkStore {
  s_db : DB;
  s_w : W;
  s_queue : list (writeRequest W D);
  s_carried : option (writeRequest W D);
  s_isClosed : bool;
  s_inflight : list (inflight D);
  s_outstanding : Z }.
Arguments mkStore {_ W D} _ _ _ _ _ _ _.
Arguments s_db {_ W D} _.
Arguments s_w {_ W D} _.
Arguments s_queue {_ W D} _.
Arguments s_carried {_ W D} _.
Arguments s_isClosed {_ W D} _.
Arguments s_inflight {_ W D} _.
Arguments s_outstanding {_ W D} _.
#[export] Instance eta_Store `{Pebble} W D : Eta (Store W D) := fun s =>
  mkStore (s_db s) (s_w s) (s_queue s) (s_carried s) (s_isClosed s) (s_inflight s) (s_outstanding s).

Section Writer.
Context `{Pebble} {W D : Type}.
Implicit Types (rq : writeRequest W D) (st : Store W D).

(** [submitContext]: [ctxErr] is the context on entry, [sent] the branch the
    [select] takes. *)
Definition submitContext (ctxErr sent : bool) (rq : writeRequest W D) (st : Store W D) :
    result store_error unit * Store W D :=
  if ctxErr then (Err ErrContext, st)
  else if s_isClosed st then (Err ErrStorageClosed, st)
  else
    let st := st <| s_outstanding := s_outstanding st + 1 |> in
    if sent then (Ok tt, st <| s_queue := s_queue st ++ [rq] |>)
    else (Err ErrContext, st <| s_outstanding := s_outstanding st - 1 |>).
Definition submit (rq : writeRequest W D) (st : Store W D) : result store_error unit * Store W D :=
  submitContext false true rq st.

Definition writeBatchCanAppend (batchBytes : Z) (class : durabilityClass) (rq : writeRequest W D) : bool :=
  if negb (bool_decide (rq_durability rq = class)) then false
  else (batchBytes <? maxWriteBatchBytes) && (rq_sizeHint rq <=? maxWriteBatchBytes - batchBytes).

(** The drain loop of [runWriter]: [avail] requests are ready before the [select]
    finds the queue empty, [n] are in the batch.  Gives the requests taken, the
    one carried over and the rest of the queue. *)
Fixpoint drain (avail n : nat) (batchBytes : Z) (class : durabilityClass) (queue : list (writeRequest W D)) :
    list (writeRequest W D) * option (writeRequest W D) * list (writeRequest W D) :=
  match avail, queue with
  | S avail, rq :: rest =>
      if negb (n <? maxWriteBatch)%nat then ([], None, queue)
      else if negb (writeBatchCanAppend batchBytes class rq) then ([], Some rq, rest)
      else
        let '(rqs, carried, rest) := drain avail (S n) (batchBytes + rq_sizeHint rq) class rest in
        (rq :: rqs, carried, rest)
  | _, _ => ([], None, queue)
  end.

(** The apply loop of [commitRequests]: the result of each request, and the error
    that failed the batch. *)
Fixpoint apply_loop (rqs : list (writeRequest W D)) (s : Batch * W) :
    list (option store_error) * option store_error * (Batch * W) :=
  match rqs with
  | [] => ([], None, s)
  | rq :: rqs =>
      match rq_apply rq s with
      | (Ok _, s) => let '(results, fatal, s) := apply_loop rqs s in (None :: results, fatal, s)
      | (Err (Rejected e), s) => let '(results, fatal, s) := apply_loop rqs s in (Some e :: results, fatal, s)
      | (Err (Fatal e), s) => (replicate (S (length rqs)) None, Some e, s)
      end
  end.

Definition first_class (rqs : list (writeRequest W D)) : durabilityClass :=
  match rqs with rq :: _ => rq_durability rq | [] => durableCommitment end.

Definition commitRequests (rqs : list (writeRequest W D)) (db : DB) (w : W) : inflight D * DB * W :=
  let '(results, fatal, (batch, w)) := apply_loop rqs (NewIndexedBatch db, w) in
  let '(fatal, db) :=
    match fatal with
    | Some e => (Some e, db)
    | None =>
        if batch_Empty batch then (None, db)
        else let '(ok, db) := batch_Commit db batch in (if (ok : bool) then None else Some ErrIO, db)
    end in
  let fatal := match fatal with Some e => Some e | None => if batch_Close batch then None else Some ErrIO end in
  (mkInflight (first_class rqs) (zip (rq_done <$> rqs) results) fatal false, db, w).

(** One round of [runWriter]: the batch it takes, then the commit. *)
Definition take_batch (avail : nat) (st : Store W D) :
    option (list (writeRequest W D) * option (writeRequest W D) * list (writeRequest W D)) :=
  let next :=
    match s_carried st, s_queue st with
    | Some rq, queue => Some (rq, queue)
    | None, rq :: queue => Some (rq, queue)
    | None, [] => None
    end in
  '(first, queue) ← next;
  let '(rqs, carried, queue) := drain avail 1 (rq_sizeHint first) (rq_durability first) queue in
  Some (first :: rqs, carried, queue).
Definition writer_round (avail : nat) (st : Store W D) : option (Store W D) :=
  '(rqs, carried, queue) ← take_batch avail st;
  let '(fl, db, w) := commitRequests rqs (s_db st) (s_w st) in
  Some (mkStore db w queue carried (s_isClosed st) (s_inflight st ++ [fl]) (s_outstanding st)).

(** The callback goroutine: first the wait for the log, then the results. *)
Definition callback_sync (fl : inflight D) (db : DB) : inflight D * DB :=
  let '(fatal, db) :=
    match fl_fatal fl, fl_class fl with
    | None, durableCommitment =>
        let '(ok, db) := db_LogDataSync db in (if (ok : bool) then None else Some ErrIO, db)
    | fatal, _ => (fatal, db)
    end in
  let fill r := match r, fatal with None, Some e => Some e | r, _ => r end in
  (mkInflight (fl_class fl) (prod_map id fill <$> fl_done fl) fatal true, db).
Definition wait_log (i : nat) (st : Store W D) : option (Store W D) :=
  fl ← s_inflight st !! i;
  if fl_ready fl then None
  else
    let '(fl, db) := callback_sync fl (s_db st) in
    Some (st <| s_db := db |> <| s_inflight := <[i := fl]> (s_inflight st) |>).
Definition run_callback (i : nat) (st : Store W D) : option ((D * option store_error) * Store W D) :=
  fl ← s_inflight st !! i;
  if negb (fl_ready fl) then None
  else
    match fl_done fl with
    | [] => None
    | d :: rest =>
        Some (d, st <| s_inflight := <[i := mkInflight (fl_class fl) rest (fl_fatal fl) true]> (s_inflight st) |>
                    <| s_outstanding := s_outstanding st - 1 |>)
    end.

(** [Close] up to the wait for the writer. *)
Definition Close (st : Store W D) : Store W D := st <| s_isClosed := true |>.
End Writer.

(** ** Runs of a store *)

Definition openStore `{Pebble} {W D} (db : DB) (w : W) : Store W D := mkStore db w [] None false [] 0.

(** The requests accepted and the batches formed so far, the database after each
    batch, and the callbacks run, each with the number of its batch. *)
Record history `{Pebble} (W D : Type) := mkHistory {
  h_submitted : list (writeRequest W D);
  h_batches : list (list (writeRequest W D));
  h_dbs : list DB;
  h_ran : list (nat * (D * option store_error)) }.
Arguments mkHistory {_ W D} _ _ _ _.
Arguments h_submitted {_ W D} _.
Arguments h_batches {_ W D} _.
Arguments h_dbs {_ W D} _.
Arguments h_ran {_ W D} _.

(** Nobody but the requests. *)
Definition no_env {W : Type} (_ _ : W) : Prop := False.

Section Runs.
Context `{Pebble} {W D : Type}.
(** What others do to [W] outside the requests. *)
Context (env : W -> W -> Prop).
Implicit Types (rq : writeRequest W D) (st : Store W D).

(** Clients, the writer, callback goroutines and [Close], in any order. *)
Inductive runs (db0 : DB) (w0 : W) : history W D -> Store W D -> Prop :=
| run_open : runs db0 w0 (mkHistory [] [] [] []) (openStore db0 w0)
| run_submit h st rq st' :
    runs db0 w0 h st -> submit rq st = (Ok tt, st') ->
    runs db0 w0 (mkHistory (h_submitted h ++ [rq]) (h_batches h) (h_dbs h) (h_ran h)) st'
| run_round h st avail rqs carried queue st' :
    runs db0 w0 h st -> take_batch avail st = Some (rqs, carried, queue) -> writer_round avail st = Some st' ->
    runs db0 w0 (mkHistory (h_submitted h) (h_batches h ++ [rqs]) (h_dbs h ++ [s_db st']) (h_ran h)) st'
| run_wait h st i st' :
    runs db0 w0 h st -> wait_log i st = Some st' -> runs db0 w0 h st'
| run_done h st i d st' :
    runs db0 w0 h st -> run_callback i st = Some (d, st') ->
    runs db0 w0 (mkHistory (h_submitted h) (h_batches h) (h_dbs h) (h_ran h ++ [(i, d)])) st'
| run_close h st : runs db0 w0 h st -> runs db0 w0 h (Close st)
| run_env h st w : runs db0 w0 h st -> env (s_w st) w -> runs db0 w0 h (st <| s_w := w |>).

(** The callbacks of batch [i] that have run, in order. *)
Definition ran_of (i : nat) (h : history W D) : list D :=
  omap (fun p => if decide (p.1 = i) then Some p.2.1 else None) (h_ran h).

(** A batch is bounded, of one durability class, and only a batch of one request
    exceeds the size bound. *)
Record good_batch (rqs : list (writeRequest W D)) : Prop := {
  gb_first : exists rq rest, rqs = rq :: rest;
  gb_bound : (length rqs <= maxWriteBatch)%nat;
  gb_class : Forall (fun rq => rq_durability rq = first_class rqs) rqs;
  gb_bytes : (length rqs = 1)%nat \/ foldr (fun rq n => rq_sizeHint rq + n) 0 rqs <= maxWriteBatchBytes }.

Lemma drain_spec avail n bytes_ class queue rqs carried rest :
  drain avail n bytes_ class queue = (rqs, carried, rest) ->
  queue = rqs ++ option_list carried ++ rest /\
  ((n <= maxWriteBatch)%nat -> (n + length rqs <= maxWriteBatch)%nat) /\
  Forall (fun rq => rq_durability rq = class) rqs /\
  (rqs = [] \/ bytes_ + foldr (fun rq n => rq_sizeHint rq + n) 0 rqs <= maxWriteBatchBytes).
Proof.
  revert n bytes_ queue rqs carried rest. induction avail as [|avail IH]; intros n bytes_ queue rqs carried rest; simpl.
  { intros [= <- <- <-]. split_and!; [done|cbn [length]; lia|done|auto]. }
  destruct queue as [|rq queue]; [intros [= <- <- <-]; split_and!; [done|cbn [length]; lia|done|auto]|].
  destruct (Nat.ltb_spec n maxWriteBatch) as [Hn|Hn]; simpl; [|intros [= <- <- <-]; split_and!; [done|cbn [length]; lia|done|auto]].
  destruct (writeBatchCanAppend bytes_ class rq) eqn:Ec; simpl; [|intros [= <- <- <-]; split_and!; [done|cbn [length]; lia|done|auto]].
  destruct (drain _ _ _ _ queue) as [[rqs' carried'] rest'] eqn:E. intros [= <- <- <-].
  apply IH in E as (-> & Hlen & Hcl & Hsz). unfold writeBatchCanAppend in Ec.
  destruct (bool_decide_reflect (rq_durability rq = class)); [|done]. simpl in Ec.
  apply andb_prop in Ec as [?%Z.ltb_lt ?%Z.leb_le]. split_and!; [done|cbn [length]; lia|by constructor|].
  right. cbn [foldr]. destruct Hsz as [->|Hsz]; cbn [foldr]; lia.
Qed.

Lemma take_batch_spec avail st rqs carried queue :
  take_batch avail st = Some (rqs, carried, queue) ->
  option_list (s_carried st) ++ s_queue st = rqs ++ option_list carried ++ queue /\ good_batch rqs.
Proof.
  unfold take_batch. intros ([first q] & Hnext & E)%bind_Some.
  destruct (drain avail 1 _ _ q) as [[rqs' c'] q'] eqn:Ed. injection E as <- <- <-.
  apply drain_spec in Ed as (Eq & Hlen & Hcl & Hsz). split.
  - simpl. rewrite <- Eq. destruct (s_carried st), (s_queue st); simpl in *; congruence.
  - constructor; [by eexists _, _|cbn [length]; unfold maxWriteBatch in *; lia|by constructor|].
    destruct Hsz as [->|Hsz]; [by left|by right].
Qed.

Lemma length_apply_loop (rqs : list (writeRequest W D)) s : length (apply_loop rqs s).1.1 = length rqs.
Proof.
  revert s. induction rqs as [|rq rqs IH]; intros s; simpl; [done|].
  destruct (rq_apply rq s) as [[?|[e|e]] s']; simpl; [specialize (IH s')..|by rewrite length_replicate];
    destruct (apply_loop rqs s') as [[rs f] s'']; simpl in *; by rewrite IH.
Qed.

Lemma commitRequests_done (rqs : list (writeRequest W D)) db w : (fl_done (commitRequests rqs db w).1.1).*1 = rq_done <$> rqs /\
  fl_class (commitRequests rqs db w).1.1 = first_class rqs.
Proof.
  unfold commitRequests. pose proof (length_apply_loop rqs (NewIndexedBatch db, w)) as Hl.
  destruct (apply_loop rqs _) as [[results fatal] [batch w']]; simpl in Hl.
  destruct fatal; [|destruct (batch_Empty batch); [|destruct (batch_Commit db batch)]]; simpl;
    (split; [|done]); rewrite fst_zip; rewrite ?length_fmap; lia || done.
Qed.

Record run_inv (h : history W D) (st : Store W D) : Prop := {
  ri_fifo : h_submitted h = concat (h_batches h) ++ option_list (s_carried st) ++ s_queue st;
  ri_good : Forall good_batch (h_batches h);
  ri_len : length (s_inflight st) = length (h_batches h);
  ri_ran : Forall (fun p => (p.1 < length (h_batches h))%nat) (h_ran h);
  ri_done : forall i rqs fl, h_batches h !! i = Some rqs -> s_inflight st !! i = Some fl ->
    ran_of i h ++ (fl_done fl).*1 = rq_done <$> rqs;
  ri_out : s_outstanding st = Z.of_nat (length (h_submitted h)) - Z.of_nat (length (h_ran h)) }.

Lemma ran_of_fresh i (h : history W D) : Forall (fun p => (p.1 < i)%nat) (h_ran h) -> ran_of i h = [].
Proof.
  unfold ran_of. induction 1 as [|p l Hp _ IH]; simpl; [done|]. rewrite decide_False by lia. done.
Qed.

Lemma wait_log_spec i st st' : wait_log i st = Some st' ->
  s_queue st' = s_queue st /\ s_carried st' = s_carried st /\ s_outstanding st' = s_outstanding st /\
  length (s_inflight st') = length (s_inflight st) /\
  forall j fl', s_inflight st' !! j = Some fl' -> exists fl, s_inflight st !! j = Some fl /\ (fl_done fl').*1 = (fl_done fl).*1.
Proof.
  unfold wait_log. intros (fl & Hfl & E)%bind_Some. destruct (fl_ready fl); [done|].
  destruct (callback_sync fl (s_db st)) as [fl2 db2] eqn:Ec. injection E as <-. simpl. rewrite length_insert.
  split_and!; try done. intros j fl' Hj. destruct (decide (i = j)) as [->|Hne].
  - rewrite list_lookup_insert_eq in Hj by (by eapply lookup_lt_Some). injection Hj as <-. exists fl. split; [done|].
    unfold callback_sync in Ec. destruct (match fl_fatal fl with Some _ => _ | None => _ end) as [f db3].
    injection Ec as <- <-. simpl. rewrite <- list_fmap_compose. apply list_fmap_ext. by intros ? [].
  - rewrite list_lookup_insert_ne in Hj by done. by exists fl'.
Qed.

Lemma run_callback_spec i d st st' : run_callback i st = Some (d, st') ->
  s_queue st' = s_queue st /\ s_carried st' = s_carried st /\ s_outstanding st' = s_outstanding st - 1 /\
  length (s_inflight st') = length (s_inflight st) /\ (i < length (s_inflight st))%nat /\
  forall j fl', s_inflight st' !! j = Some fl' -> exists fl, s_inflight st !! j = Some fl /\
    fl_done fl = (if decide (i = j) then d :: fl_done fl' else fl_done fl').
Proof.
  unfold run_callback. intros (fl & Hfl & E)%bind_Some. destruct (negb (fl_ready fl)); [done|].
  destruct (fl_done fl) as [|d' rest] eqn:Ed; [done|]. injection E as -> <-. simpl. rewrite length_insert.
  split_and!; try done; [by eapply lookup_lt_Some|]. intros j fl' Hj. destruct (decide (i = j)) as [->|Hne].
  - rewrite list_lookup_insert_eq in Hj by (by eapply lookup_lt_Some). injection Hj as <-. by exists fl.
  - rewrite list_lookup_insert_ne in Hj by done. by exists fl'.
Qed.

Lemma writer_round_take avail st st' rqs carried queue :
  take_batch avail st = Some (rqs, carried, queue) -> writer_round avail st = Some st' ->
  exists fl db w, commitRequests rqs (s_db st) (s_w st) = (fl, db, w) /\
    st' = mkStore db w queue carried (s_isClosed st) (s_inflight st ++ [fl]) (s_outstanding st).
Proof.
  unfold writer_round. intros ->. simpl. destruct (commitRequests _ _ _) as [[fl db] w] eqn:E. intros [= <-].
  by exists fl, db, w.
Qed.

Lemma ran_of_snoc i j d (h : history W D) sub bat dbs :
  ran_of i (mkHistory sub bat dbs (h_ran h ++ [(j, d)])) = ran_of i h ++ (if decide (j = i) then [d.1] else []).
Proof. unfold ran_of. simpl. rewrite omap_app. simpl. by destruct (decide (j = i)). Qed.

Lemma runs_inv db0 w0 h st : runs db0 w0 h st -> run_inv h st.
Proof.
  induction 1 as [|h st rq st' _ [I1 I2 I3 I4 I5 I6] Hs|h st avail rqs c q st' _ [I1 I2 I3 I4 I5 I6] Ht Hw
    |h st i st' _ [I1 I2 I3 I4 I5 I6] Hw|h st i d st' _ [I1 I2 I3 I4 I5 I6] Hd|h st _ [I1 I2 I3 I4 I5 I6]|h st w _ [I1 I2 I3 I4 I5 I6] _].
  - by constructor.
  - unfold submit, submitContext in Hs. simpl in Hs. destruct (s_isClosed st); [done|]. injection Hs as <-.
    constructor; simpl; [by rewrite I1, <- !app_assoc|done|done|done|done|rewrite length_app; simpl; lia].
  - destruct (take_batch_spec _ _ _ _ _ Ht) as [Eq Hg]. destruct (writer_round_take _ _ _ _ _ _ Ht Hw) as (fl & db & w & Ec & ->).
    constructor; simpl.
    + by rewrite concat_app, I1, Eq, concat_cons, concat_nil, app_nil_r, <- app_assoc.
    + apply Forall_app. by split; [|constructor].
    + rewrite !length_app. simpl. lia.
    + eapply Forall_impl; [exact I4|]. intros p. simpl. rewrite length_app. lia.
    + intros i rqs' fl' Hb Hf. apply lookup_app_Some in Hb as [Hb|[Hge Hb]].
      * rewrite lookup_app_l in Hf by (rewrite I3; by eapply lookup_lt_Some). by eapply I5.
      * rewrite lookup_app_r, I3 in Hf by lia. destruct (i - length (h_batches h))%nat eqn:Ei; [|done].
        simplify_eq/=. rewrite (ran_of_fresh i); [|simpl; eapply Forall_impl; [exact I4|]; simpl; lia].
        pose proof (commitRequests_done rqs' (s_db st) (s_w st)) as [Hd _]. by rewrite Ec in Hd.
    + done.
  - destruct (wait_log_spec _ _ _ Hw) as (Eq & Ec & Eo & El & Hf). constructor; rewrite ?Eq, ?Ec, ?Eo, ?El; try done.
    intros j rqs fl' Hb Hj. destruct (Hf j fl' Hj) as (fl & Hfl & ->). by eapply I5.
  - destruct (run_callback_spec _ _ _ _ Hd) as (Eq & Ec & Eo & El & Hi & Hf).
    constructor; simpl; rewrite ?Eq, ?Ec, ?Eo, ?El; try done.
    + apply Forall_app. split; [done|]. constructor; [simpl; lia|done].
    + intros j rqs fl' Hb Hj. destruct (Hf j fl' Hj) as (fl & Hfl & Efl). rewrite ran_of_snoc, <- (I5 j rqs fl Hb Hfl), Efl.
      rewrite <- app_assoc. f_equal. case_decide; by simplify_eq/=.
    + rewrite length_app. simpl. lia.
  - by constructor.
  - by constructor.
Qed.

(** C11: the writer is a FIFO with exactly-once callbacks.  However clients, the
    writer, callback goroutines and [Close] interleave: the requests accepted are
    the batches formed, in order, then the request carried over, then the queue;
    every batch is of one durability class, within the count bound, and within
    the size bound unless it is a single request; the callbacks of a batch run in
    order, each once, and those not yet run are still held by its goroutine; and
    [outstanding] counts the requests accepted and not called back. *)
Theorem writer_fifo db0 w0 h st :
  runs db0 w0 h st ->
  h_submitted h = concat (h_batches h) ++ option_list (s_carried st) ++ s_queue st /\
  Forall good_batch (h_batches h) /\
  length (s_inflight st) = length (h_batches h) /\
  (forall i rqs fl, h_batches h !! i = Some rqs -> s_inflight st !! i = Some fl ->
    ran_of i h ++ (fl_done fl).*1 = rq_done <$> rqs) /\
  s_outstanding st = Z.of_nat (length (h_submitted h)) - Z.of_nat (length (h_ran h)).
Proof. intros [I1 I2 I3 _ I5 I6]%runs_inv. done. Qed.
End Runs.

(** ** Draining *)

Section Drain.
Context `{Pebble} {W D : Type}.
Implicit Types (st : Store W D).

(** What the store does by itself: the writer and the callback goroutines. *)
Inductive internal_step : Store W D -> Store W D -> Prop :=
| is_round st avail st' : writer_round avail st = Some st' -> internal_step st st'
| is_wait st i st' : wait_log i st = Some st' -> internal_step st st'
| is_done st i d st' : run_callback i st = Some (d, st') -> internal_step st st'.

Definition fl_work (fl : inflight D) : nat := (length (fl_done fl) + if fl_ready fl then 0 else 1)%nat.
Definition work st : nat :=
  (3 * length (option_list (s_carried st) ++ s_queue st) + sum_list_with fl_work (s_inflight st))%nat.

Lemma work_insert (l : list (inflight D)) i fl fl' :
  l !! i = Some fl ->
  (sum_list_with fl_work (<[i := fl']> l) + fl_work fl = sum_list_with fl_work l + fl_work fl')%nat.
Proof.
  revert i. induction l as [|x l IH]; intros [|i] Hl; simplify_eq/=; [lia|]. specialize (IH i Hl). lia.
Qed.

Lemma internal_step_work st st' : internal_step st st' -> (work st' < work st)%nat.
Proof.
  intros [st1 avail st2 Hw|st1 i st2 Hw|st1 i d st2 Hd]; unfold work.
  - pose proof Hw as ([[rqs c] q] & Ht & _)%bind_Some.
    destruct (take_batch_spec _ _ _ _ _ Ht) as [Eq [(rq & rest & Er) _ _ _]].
    destruct (writer_round_take _ _ _ _ _ _ Ht Hw) as (fl & db & w & Ec & ->).
    pose proof (commitRequests_done rqs (s_db st1) (s_w st1)) as [Hd _]. rewrite Ec in Hd. simpl in *.
    apply (f_equal length) in Hd. rewrite !length_fmap in Hd.
    rewrite Eq, sum_list_with_app, !length_app. simpl. unfold fl_work at 2. rewrite Hd, Er. simpl. case_match; lia.
  - unfold wait_log in Hw. apply bind_Some in Hw as (fl & Hfl & E). destruct (fl_ready fl) eqn:Hr; [done|].
    destruct (callback_sync fl (s_db st1)) as [fl2 db2] eqn:Ec. injection E as <-. simpl.
    pose proof (work_insert _ i fl fl2 Hfl) as Hi. unfold callback_sync in Ec.
    destruct (match fl_fatal fl with Some _ => _ | None => _ end) as [f db3]. injection Ec as <- <-.
    unfold fl_work at 2 4 in Hi. simpl in Hi. rewrite length_fmap, Hr in Hi. lia.
  - unfold run_callback in Hd. apply bind_Some in Hd as (fl & Hfl & E). destruct (fl_ready fl) eqn:Hr; [|done]. simpl in E.
    destruct (fl_done fl) as [|d' rest] eqn:Ed; [done|]. injection E as -> <-. simpl.
    pose proof (work_insert _ i fl (mkInflight (fl_class fl) rest (fl_fatal fl) true) Hfl) as Hi.
    unfold fl_work at 2 4 in Hi. simpl in Hi. rewrite Ed, Hr in Hi. simpl in Hi. lia.
Qed.

(** Nothing is queued and every callback has run. *)
Definition drained st : Prop :=
  s_queue st = [] /\ s_carried st = None /\ Forall (fun fl => fl_done fl = [] /\ fl_ready fl = true) (s_inflight st).

Lemma internal_progress st : drained st \/ exists st', internal_step st st'.
Proof.
  destruct (decide (option_list (s_carried st) ++ s_queue st = [])) as [He|He].
  - assert (forall fl : inflight D, {fl_done fl = [] /\ fl_ready fl = true} + {~ (fl_done fl = [] /\ fl_ready fl = true)}) as Hdec.
    { intros fl. destruct (fl_done fl), (fl_ready fl); (left; done) || (right; intros [? ?]; done). }
    destruct (Forall_Exists_dec _ _ Hdec (s_inflight st)) as [Hall|Hex].
    + left. split_and!; [by apply app_eq_nil in He as [_ ?]|by destruct (s_carried st)|done].
    + right. apply Exists_exists in Hex as (fl & Hin & Hfl). apply list_elem_of_lookup in Hin as [i Hi].
      destruct (fl_ready fl) eqn:Hr.
      * destruct (fl_done fl) as [|d rest] eqn:Ed; [exfalso; apply Hfl; done|]. eexists. eapply (is_done _ i).
        unfold run_callback. rewrite Hi. simpl. by rewrite Hr, Ed.
      * destruct (callback_sync fl (s_db st)) as [fl2 db2] eqn:Ec. eexists. eapply (is_wait _ i).
        unfold wait_log. rewrite Hi. simpl. by rewrite Hr, Ec.
  - right. assert (is_Some (take_batch 0 st)) as [[[rqs c] q] Ht].
    { unfold take_batch. destruct (s_carried st), (s_queue st); simpl in *; by eauto. }
    destruct (commitRequests rqs (s_db st) (s_w st)) as [[fl db] w] eqn:Ec. eexists. apply (is_round _ 0).
    unfold writer_round. rewrite Ht. simpl. by rewrite Ec.
Qed.

(** C10: [Close] terminates and loses nothing: from any state the writer and the
    callback goroutines can only take finitely many steps, whatever their order,
    and they stop only when the queue is empty and every callback has run. *)
Theorem store_drains st :
  Acc (fun a b => internal_step b a) st /\
  (forall st', rtc internal_step st st' -> (exists st'', internal_step st' st'') \/ drained st').
Proof.
  split.
  - remember (work st) as n eqn:En. revert st En. induction n as [n IH] using lt_wf_ind. intros st ->. constructor.
    intros st' Hs. eapply IH; [by apply internal_step_work|done].
  - intros st' _. destruct (internal_progress st'); auto.
Qed.
End Drain.

(** ** Durability *)

Section Durability.
Context `{PebbleLaws} {W D : Type} (env : W -> W -> Prop).
Implicit Types (st : Store W D).

(** The states of a database only grow, and what is on disk stays. *)
Definition extends (db db' : DB) : Prop :=
  versions db `prefix_of` versions db' /\ (stable db <= stable db')%nat.
#[export] Instance extends_preorder : PreOrder extends.
Proof.
  split; [by intros db|]. intros a b c [P1 S1] [P2 S2]. split; [by etrans|lia].
Qed.

Lemma apply_loop_base (rqs : list (writeRequest W D)) s :
  (forall rq s, rq ∈ rqs -> base (rq_apply rq s).2.1 = base s.1) -> base (apply_loop rqs s).2.1 = base s.1.
Proof.
  revert s. induction rqs as [|rq rqs IH]; intros s Hb; simpl; [done|].
  pose proof (Hb rq s ltac:(left)) as Hr. destruct (rq_apply rq s) as [[?|[e|e]] s']; simpl in *; [| |done];
    (specialize (IH s' ltac:(intros; apply Hb; by right)); destruct (apply_loop rqs s') as [[rs f] s''];
     simpl in *; congruence).
Qed.

(** Requests only touch the batch through its operations. *)
Definition batch_local (rq : writeRequest W D) : Prop := forall s, base (rq_apply rq s).2.1 = base s.1.

Lemma commitRequests_extends (rqs : list (writeRequest W D)) db w :
  Forall batch_local rqs -> extends db (commitRequests rqs db w).1.2.
Proof.
  intros Hl. unfold commitRequests.
  assert (base (apply_loop rqs (NewIndexedBatch db, w)).2.1 = base (NewIndexedBatch db)) as Hb.
  { apply apply_loop_base. intros rq s Hin. rewrite Forall_forall in Hl. by apply Hl. }
  destruct (apply_loop rqs _) as [[results fatal] [batch w']]. simpl in Hb.
  destruct (law_new db) as [Hn Hlast]. rewrite <- Hn, <- Hb in Hlast.
  destruct fatal; simpl; [done|]. destruct (batch_Empty batch); simpl; [done|].
  destruct (batch_Commit db batch) as [[] db'] eqn:Ec; simpl.
  - apply law_commit in Ec as [Ev ?]; [|done]. split; [rewrite Ev; by apply prefix_app_r|done].
  - apply law_commit_failed in Ec as [[Ev|Ev] ?]; (split; [rewrite Ev|done]); [done|by apply prefix_app_r].
Qed.

Lemma callback_sync_extends (fl : inflight D) db : extends db (callback_sync fl db).2.
Proof.
  unfold callback_sync. destruct (fl_fatal fl); simpl; [done|]. destruct (fl_class fl); simpl; [|done].
  destruct (db_LogDataSync db) as [[] db'] eqn:Es; simpl.
  - apply law_sync in Es as [Ev Es]. pose proof (law_stable db). split; [by rewrite Ev|lia].
  - apply law_sync_failed in Es as [Ev ?]. split; [by rewrite Ev|done].
Qed.

(** On disk: the database has a stable state that is this one or a later one. *)
Definition on_disk (db db' : DB) : Prop :=
  exists k, (k <= stable db')%nat /\ versions db' !! k = Some (contents db).

Lemma on_disk_extends db db' db'' : extends db' db'' -> on_disk db db' -> on_disk db db''.
Proof. intros [Hp Hs] (k & Hk & Hv). exists k. split; [lia|]. by eapply prefix_lookup_Some. Qed.

Lemma extends_synced db db' db2 : extends db db' -> db_LogDataSync db' = (true, db2) -> on_disk db db2.
Proof.
  intros [[more Hm] _] Hs. apply law_sync in Hs as [Ev Es]. exists (pred (length (versions db))). rewrite Ev.
  pose proof (law_stable db). pose proof (contents_last db) as Hl. rewrite last_lookup in Hl. rewrite Hm in *.
  rewrite length_app in Es. split; [lia|]. by apply lookup_app_l_Some.
Qed.

(** What the goroutine of a batch knows once it has waited. *)
Definition fl_durable (db : DB) (dbi : DB) (fl : inflight D) : Prop :=
  fl_ready fl = true -> fl_class fl = durableCommitment ->
  (fl_fatal fl = None -> on_disk dbi db) /\ (fl_fatal fl <> None -> Forall (fun p => p.2 <> None) (fl_done fl)).

Lemma callback_sync_durable (fl : inflight D) dbi db :
  extends dbi db -> fl_durable (callback_sync fl db).2 dbi (callback_sync fl db).1.
Proof.
  intros He _. unfold callback_sync. destruct (fl_fatal fl) eqn:Ef; simpl.
  { intros _. split; [done|]. intros _. apply Forall_fmap, Forall_true. by intros [? []]. }
  destruct (fl_class fl) eqn:Ecl; simpl; [intros _|done].
  destruct (db_LogDataSync db) as [[] db'] eqn:Es; simpl.
  - split; [|done]. intros _. by eapply extends_synced.
  - split; [done|]. intros _. apply Forall_fmap, Forall_true. by intros [? []].
Qed.

Record durable_inv (h : history W D) st : Prop := {
  di_len : length (h_dbs h) = length (s_inflight st);
  di_len' : length (h_batches h) = length (s_inflight st);
  di_ext : forall i dbi, h_dbs h !! i = Some dbi -> extends dbi (s_db st);
  di_fl : forall i dbi fl, h_dbs h !! i = Some dbi -> s_inflight st !! i = Some fl -> fl_durable (s_db st) dbi fl;
  di_class : forall i rqs fl, h_batches h !! i = Some rqs -> s_inflight st !! i = Some fl -> fl_class fl = first_class rqs;
  di_ran : forall i d dbi rqs, (i, (d, None)) ∈ h_ran h -> h_dbs h !! i = Some dbi -> h_batches h !! i = Some rqs ->
    first_class rqs = durableCommitment -> on_disk dbi (s_db st);
  di_idx : forall i d, (i, d) ∈ h_ran h -> (i < length (s_inflight st))%nat }.

(** A step that changes neither the history nor the goroutines. *)
Lemma durable_inv_same (h h' : history W D) st st' :
  h_dbs h' = h_dbs h -> h_batches h' = h_batches h -> h_ran h' = h_ran h -> s_db st' = s_db st ->
  s_inflight st' = s_inflight st -> durable_inv h st -> durable_inv h' st'.
Proof. intros E1 E2 E3 E4 E5 [I1 I2 I3 I4 I5 I6 I7]. constructor; rewrite ?E1, ?E2, ?E3, ?E4, ?E5; done. Qed.

Lemma lookup_snoc_cases {A} (l : list A) x i y :
  (l ++ [x]) !! i = Some y -> l !! i = Some y /\ (i < length l)%nat \/ i = length l /\ y = x.
Proof.
  intros [Hl|[Hge Hl]]%lookup_app_Some; [left; split; [done|by eapply lookup_lt_Some]|right].
  apply list_lookup_singleton_Some in Hl as [? ->]. split; [lia|done].
Qed.

Lemma fl_durable_extends db db' dbi (fl : inflight D) : extends db db' -> fl_durable db dbi fl -> fl_durable db' dbi fl.
Proof.
  intros He Hf Hr Hc. destruct (Hf Hr Hc) as [Hd Hn]. split; [|done]. intros Hfat. eapply on_disk_extends; [done|by apply Hd].
Qed.

Lemma durable_round h st avail rqs carried queue st' :
  Forall batch_local rqs -> durable_inv h st ->
  take_batch avail st = Some (rqs, carried, queue) -> writer_round avail st = Some st' ->
  durable_inv (mkHistory (h_submitted h) (h_batches h ++ [rqs]) (h_dbs h ++ [s_db st']) (h_ran h)) st' /\
  extends (s_db st) (s_db st').
Proof.
  intros Hl [I1 I2 I3 I4 I5 I6 I7] Ht Hw. destruct (writer_round_take _ _ _ _ _ _ Ht Hw) as (fl & db & w & Ec & ->).
  pose proof (commitRequests_extends rqs (s_db st) (s_w st) Hl) as He. rewrite Ec in He. simpl in He.
  pose proof (commitRequests_done rqs (s_db st) (s_w st)) as [_ Hcl]. rewrite Ec in Hcl. simpl in Hcl.
  assert (fl_ready fl = false) as Hr.
  { unfold commitRequests in Ec. repeat case_match; by simplify_eq. }
  split; [|done]. constructor; simpl.
  - rewrite !length_app. simpl. lia.
  - rewrite !length_app. simpl. lia.
  - intros i dbi [[Hi _]|[-> ->]]%lookup_snoc_cases; [|done]. etrans; [by eapply I3|done].
  - intros i dbi f Hi Hf. apply lookup_snoc_cases in Hf as [[Hf ?]|[-> ->]]; [|by intros ?; congruence].
    apply lookup_snoc_cases in Hi as [[Hi _]|[-> ->]]; [|lia]. eapply fl_durable_extends; [done|by eapply I4].
  - intros i rqs' f [[Hi ?]|[-> ->]]%lookup_snoc_cases [[Hf ?]|[? ->]]%lookup_snoc_cases; [by eapply I5|lia|lia|done].
  - intros i d dbi rqs' Hran Hd Hb Hc. pose proof (I7 _ _ Hran) as Hi.
    apply lookup_snoc_cases in Hd as [[Hd _]|[-> ->]]; [|lia]. apply lookup_snoc_cases in Hb as [[Hb _]|[-> ->]]; [|lia].
    eapply on_disk_extends; [done|by eapply I6].
  - intros i d Hran. rewrite length_app. pose proof (I7 _ _ Hran). simpl. lia.
Qed.

Lemma durable_wait h st i st' : durable_inv h st -> wait_log i st = Some st' -> durable_inv h st'.
Proof.
  intros [I1 I2 I3 I4 I5 I6 I7] Hw. unfold wait_log in Hw. apply bind_Some in Hw as (fl & Hfl & E).
  destruct (fl_ready fl) eqn:Hr; [done|]. pose proof (callback_sync_extends fl (s_db st)) as He.
  pose proof (fun dbi => callback_sync_durable fl dbi (s_db st)) as Hdur.
  assert (fl_class (callback_sync fl (s_db st)).1 = fl_class fl) as Hcl
    by (unfold callback_sync; by repeat case_match).
  destruct (callback_sync fl (s_db st)) as [fl2 db2]. injection E as <-. simpl in *.
  constructor; simpl; rewrite ?length_insert; try done.
  - intros j dbi Hj. etrans; [by eapply I3|done].
  - intros j dbi f Hj Hf. destruct (decide (i = j)) as [->|Hne].
    + rewrite list_lookup_insert_eq in Hf by (by eapply lookup_lt_Some). injection Hf as <-. apply Hdur. by eapply I3.
    + rewrite list_lookup_insert_ne in Hf by done. eapply fl_durable_extends; [done|by eapply I4].
  - intros j rqs f Hj Hf. destruct (decide (i = j)) as [->|Hne].
    + rewrite list_lookup_insert_eq in Hf by (by eapply lookup_lt_Some). injection Hf as <-. rewrite Hcl. by eapply I5.
    + rewrite list_lookup_insert_ne in Hf by done. by eapply I5.
  - intros j d dbi rqs Hran Hd Hb Hc. eapply on_disk_extends; [done|by eapply I6].
Qed.

Lemma durable_callback h st i d st' : durable_inv h st -> run_callback i st = Some (d, st') ->
  durable_inv (mkHistory (h_submitted h) (h_batches h) (h_dbs h) (h_ran h ++ [(i, d)])) st'.
Proof.
  intros [I1 I2 I3 I4 I5 I6 I7] Hd. unfold run_callback in Hd. apply bind_Some in Hd as (fl & Hfl & E).
  destruct (fl_ready fl) eqn:Hr; [|done]. simpl in E. destruct (fl_done fl) as [|d' rest] eqn:Ed; [done|].
  injection E as -> <-. pose proof (lookup_lt_Some _ _ _ Hfl) as Hlt. constructor; simpl; rewrite ?length_insert; try done.
  - intros j dbi f Hj Hf. destruct (decide (i = j)) as [->|Hne].
    + rewrite list_lookup_insert_eq in Hf by done. injection Hf as <-. intros _ Hc. simpl in *.
      destruct (I4 j dbi fl Hj Hfl Hr Hc) as [Hd Hn]. split; [done|]. intros Hf. specialize (Hn Hf). rewrite Ed in Hn.
      by apply Forall_cons in Hn as [_ ?].
    + rewrite list_lookup_insert_ne in Hf by done. by eapply I4.
  - intros j rqs f Hj Hf. destruct (decide (i = j)) as [->|Hne].
    + rewrite list_lookup_insert_eq in Hf by done. injection Hf as <-. simpl. by eapply I5.
    + rewrite list_lookup_insert_ne in Hf by done. by eapply I5.
  - intros j d0 dbi rqs [Hran|Hran]%elem_of_app Hd Hb Hc; [by eapply I6|].
    apply list_elem_of_singleton in Hran as [= -> <-].
    destruct (I4 _ _ _ Hd Hfl Hr) as [Hdur Hn]; [by rewrite (I5 _ _ _ Hb Hfl)|]. apply Hdur.
    destruct (fl_fatal fl); [|done]. specialize (Hn ltac:(done)). rewrite Ed in Hn. by apply Forall_cons in Hn as [? _].
  - intros j d0 [Hran|Hran]%elem_of_app; [by eapply I7|]. by apply list_elem_of_singleton in Hran as [= -> ->].
Qed.

Lemma runs_durable db0 w0 h st : runs env db0 w0 h st -> Forall batch_local (h_submitted h) -> durable_inv h st.
Proof.
  induction 1 as [|h st rq st' Hrun IH Hs|h st avail rqs c q st' Hrun IH Ht Hw|h st i st' _ IH Hw|h st i d st' _ IH Hd|h st _ IH|h st w _ IH _];
    simpl; intros Hl.
  - constructor; simpl; try done; by intros ? ? ?%elem_of_nil.
  - apply Forall_app in Hl as [Hl _]. specialize (IH Hl). unfold submit, submitContext in Hs. simpl in Hs.
    destruct (s_isClosed st); [done|]. injection Hs as <-. eapply durable_inv_same; [..|exact IH]; done.
  - eapply durable_round; [|by apply IH|exact Ht|exact Hw].
    pose proof (runs_inv env _ _ _ _ Hrun) as [Hfifo _ _ _ _ _]. destruct (take_batch_spec _ _ _ _ _ Ht) as [Eq _].
    rewrite Hfifo, Eq in Hl. apply Forall_app in Hl as [_ Hl]. by apply Forall_app in Hl as [? _].
  - by eapply durable_wait; [apply IH|].
  - by eapply durable_callback; [apply IH|].
  - eapply durable_inv_same; [..|by apply IH]; done.
  - eapply durable_inv_same; [..|by apply IH]; done.
Qed.

(** C7: a commitment is durable before its callback reports success.  Once the
    callback of a request in a [durableCommitment] batch has run with a nil error,
    a database reopened after a crash is in the state that batch left or in a
    later one, so the record is never lost. *)
Theorem commitments_are_durable db0 w0 h st i d rqs dbi :
  runs env db0 w0 h st -> Forall batch_local (h_submitted h) ->
  (i, (d, None)) ∈ h_ran h -> h_batches h !! i = Some rqs -> first_class rqs = durableCommitment ->
  h_dbs h !! i = Some dbi ->
  forall db', db_Reopen (s_db st) db' ->
    exists k n, (k <= n)%nat /\ versions (s_db st) !! k = Some (contents dbi) /\
      versions (s_db st) !! n = Some (contents db').
Proof.
  intros Hrun Hl Hran Hb Hc Hd db' Hre. destruct (runs_durable _ _ _ _ Hrun Hl) as [_ _ _ _ _ I6 _].
  destruct (I6 _ _ _ _ Hran Hd Hb Hc) as (k & Hk & Hv). apply law_reopen in Hre as (n & m & Hn & Hm & Ev).
  exists k, n. split_and!; [lia|done|]. rewrite Hm. f_equal. symmetry. apply contents_unique. by rewrite Ev.
Qed.
End Durability.
