(* ===== verification/StoreHistory.v ===== *)
(** * Invariants of the writer's runs

    What a client of the writer of [StoreWriter.v] wants to know is always of the
    same form: every request keeps an invariant of the database and of [W], takes
    it to a later state, and establishes something when it is applied.  [runs_kept]
    lifts this from single requests to runs, across batching, failed commits and
    the order of the callbacks: the invariant holds after every batch, every state
    the database went through is an earlier one, and what a callback reported as
    done is still so.  *)

From S2P Require Import Prelude.
From S2P Require Import StoreKeys.
From S2P Require Import StoreCodec.
From S2P Require Import Pebble.
From S2P Require Import StoreWriter.

#[local] Open Scope Z_scope.

Section History.
Context `{PebbleLaws} {W D : Type} (env : W -> W -> Prop).
Implicit Types (rq : writeRequest W D) (st : Store W D) (m : kv) (w : W).

(** The invariant, the order of states, the part of it that concerns [W] alone
    and the part that concerns the database alone, and what a callback stands
    for. *)
Context (Inv : kv -> W -> Prop) (Step : kv -> W -> kv -> W -> Prop) (StepW : W -> W -> Prop) (StepDB : kv -> kv -> Prop)
  (Post : D -> kv -> W -> Prop).

Record history_order : Prop := {
  ho_refl : forall m w, Inv m w -> Step m w m w;
  ho_trans : forall m1 w1 m2 w2 m3 w3, Step m1 w1 m2 w2 -> Step m2 w2 m3 w3 -> Step m1 w1 m3 w3;
  ho_inv : forall m w m' w', Step m w m' w' -> Inv m' w';
  ho_post : forall m w m' w' d, Step m w m' w' -> Post d m w -> Post d m' w';
  ho_w : forall m w m' w', Step m w m' w' -> StepW w w';
  ho_w_trans : forall w1 w2 w3, StepW w1 w2 -> StepW w2 w3 -> StepW w1 w3;
  (** A batch that fails leaves the database and what it did to [W]. *)
  ho_fatal : forall m w w', Inv m w -> StepW w w' -> Step m w m w';
  ho_db_refl : forall m w, Inv m w -> StepDB m m;
  ho_db : forall m w m' w' m0, Step m w m' w' -> StepDB m0 m -> StepDB m0 m';
  ho_env : forall m w w', env w w' -> Inv m w -> Inv m w' /\ forall d, Post d m w -> Post d m w' }.

(** A request that respects the order. *)
Definition keeps rq : Prop :=
  batch_local rq /\ forall s, Inv (view s.1) s.2 ->
    match rq_apply rq s with
    | (Ok _, s') => Step (view s.1) s.2 (view s'.1) s'.2 /\ Post (rq_done rq) (view s'.1) s'.2
    | (Err (Rejected _), s') => Step (view s.1) s.2 (view s'.1) s'.2
    | (Err (Fatal _), s') => StepW s.2 s'.2
    end.

Context (Ho : history_order).

Lemma apply_loop_kept rqs s results fatal s' :
  Forall keeps rqs -> Inv (view s.1) s.2 -> apply_loop rqs s = (results, fatal, s') ->
  StepW s.2 s'.2 /\ (fatal = None -> Step (view s.1) s.2 (view s'.1) s'.2 /\
    Forall2 (fun rq r => r = None -> Post (rq_done rq) (view s'.1) s'.2) rqs results).
Proof.
  intros Hf. revert s results s'. induction Hf as [|rq rqs [_ Hrq] _ IH]; intros s results s' Hi; simpl.
  { intros [= <- <- <-]. pose proof (ho_refl Ho _ _ Hi) as Hr. split; [by eapply ho_w|]. intros _. by split. }
  specialize (Hrq s Hi). destruct (rq_apply rq s) as [[u|[e|e]] s1].
  - destruct Hrq as [Hs Hp]. destruct (apply_loop rqs s1) as [[rs f] s2] eqn:E. intros [= <- <- <-].
    destruct (IH s1 rs s2 (ho_inv Ho _ _ _ _ Hs) E) as [Hw Hrest].
    split; [eapply ho_w_trans; [done|by eapply ho_w|done]|]. intros Hn. destruct (Hrest Hn) as [Hs' Hf2].
    split; [by eapply ho_trans|]. constructor; [|done]. intros _. by eapply ho_post.
  - destruct (apply_loop rqs s1) as [[rs f] s2] eqn:E. intros [= <- <- <-].
    destruct (IH s1 rs s2 (ho_inv Ho _ _ _ _ Hrq) E) as [Hw Hrest].
    split; [eapply ho_w_trans; [done|by eapply ho_w|done]|]. intros Hn. destruct (Hrest Hn) as [Hs' Hf2].
    split; [by eapply ho_trans|]. by constructor.
  - intros [= <- <- <-]. by split.
Qed.

(** A batch adds at most one state to the database. *)
Lemma commit_versions (rqs : list (writeRequest W D)) db w fl db' w' :
  Forall batch_local rqs -> commitRequests rqs db w = (fl, db', w') ->
  versions db' = versions db \/ versions db' = versions db ++ [contents db'].
Proof.
  intros Hl Hc. unfold commitRequests in Hc.
  assert (base (apply_loop rqs (NewIndexedBatch db, w)).2.1 = contents db) as Hb.
  { rewrite apply_loop_base; [apply law_new|]. intros rq s Hin. rewrite Forall_forall in Hl. by apply Hl. }
  destruct (apply_loop rqs _) as [[results fatal] [b w2]]. cbn in Hb.
  destruct fatal; [injection Hc as <- <- <-; by left|]. destruct (batch_Empty b); [injection Hc as <- <- <-; by left|].
  destruct (batch_Commit db b) as [ok db2] eqn:Ec. injection Hc as <- <- <-.
  assert (versions db2 = versions db \/ versions db2 = versions db ++ [view b]) as [Ev|Ev].
  { destruct ok; [apply law_commit in Ec as [? _]; [by right|rewrite Hb; apply contents_last]|by apply law_commit_failed in Ec as [? _]]. }
  - by left.
  - right. rewrite Ev. do 2 f_equal. symmetry. apply contents_unique. rewrite Ev. apply last_snoc.
Qed.

Lemma keeps_local rqs : Forall keeps rqs -> Forall batch_local rqs.
Proof. intros Hf. eapply Forall_impl; [exact Hf|]. by intros rq [? _]. Qed.

(** A batch: unless it failed, what it reports done is done. *)
Lemma commit_kept rqs db w fl db' w' :
  Forall keeps rqs -> Inv (contents db) w -> commitRequests rqs db w = (fl, db', w') ->
  Step (contents db) w (contents db') w' /\
  (fl_fatal fl = None -> forall d, (d, None) ∈ fl_done fl -> Post d (contents db') w').
Proof.
  intros Hf Hi Hc. unfold commitRequests in Hc. destruct (apply_loop rqs _) as [[results fatal] [b w2]] eqn:E.
  destruct (apply_loop_kept rqs (NewIndexedBatch db, w) results fatal (b, w2) Hf Hi E) as [Hw Hrest]. cbn [fst snd] in *.
  fold (contents db) in *.
  assert (base b = contents db) as Hb.
  { pose proof (apply_loop_base rqs (NewIndexedBatch db, w)) as Hl. rewrite E in Hl. simpl in Hl. rewrite Hl; [apply law_new|].
    intros rq s Hin. rewrite Forall_forall in Hf. by apply (Hf rq Hin). }
  pose proof (ho_fatal Ho _ _ _ Hi Hw) as Hsame.
  destruct fatal as [e|]; [injection Hc as <- <- <-; by split|]. destruct (Hrest eq_refl) as [Hs Hf2].
  assert (forall d, (d, None) ∈ zip (rq_done <$> rqs) results -> Post d (view b) w2) as Hres.
  { intros d Hin. apply list_elem_of_lookup in Hin as [i Hi']. apply lookup_zip_Some in Hi' as [Hdd Hr].
    apply list_lookup_fmap_Some in Hdd as (rq & -> & Hrq). by apply (Forall2_lookup_lr _ _ _ _ _ _ Hf2 Hrq Hr). }
  destruct (batch_Empty b) eqn:Eb.
  { injection Hc as <- <- <-. apply law_empty in Eb. rewrite Eb, Hb in *. by split. }
  destruct (batch_Commit db b) as [ok db2] eqn:Ec. injection Hc as <- <- <-. destruct ok; simpl.
  - apply law_commit in Ec as [Ev _]; [|rewrite Hb; apply contents_last].
    rewrite (contents_unique db2 (view b)); [by split|]. rewrite Ev. apply last_snoc.
  - split; [|done]. apply law_commit_failed in Ec as [[Ev|Ev] _].
    + rewrite (contents_unique db2 (contents db)); [done|]. rewrite Ev. apply contents_last.
    + rewrite (contents_unique db2 (view b)); [done|]. rewrite Ev. apply last_snoc.
Qed.

(** The invariant of a run. *)
Record run_kept (h : history W D) (st : Store W D) : Prop := {
  rk_inv : Inv (contents (s_db st)) (s_w st);
  rk_inflight : forall i fl d, s_inflight st !! i = Some fl -> fl_fatal fl = None -> (d, None) ∈ fl_done fl ->
    Post d (contents (s_db st)) (s_w st);
  rk_failed : forall i fl, s_inflight st !! i = Some fl -> fl_ready fl = true -> fl_fatal fl <> None ->
    Forall (fun p => p.2 <> None) (fl_done fl);
  rk_ran : forall i d, (i, (d, None)) ∈ h_ran h -> Post d (contents (s_db st)) (s_w st);
  rk_versions : forall m, m ∈ versions (s_db st) -> StepDB m (contents (s_db st));
  (** The states of the database in order, and what held right after a batch. *)
  rk_sorted : forall i j mi mj, versions (s_db st) !! i = Some mi -> versions (s_db st) !! j = Some mj -> (i <= j)%nat ->
    StepDB mi mj;
  rk_len : length (h_dbs h) = length (s_inflight st);
  rk_after : forall i fl d dbi, s_inflight st !! i = Some fl -> h_dbs h !! i = Some dbi -> fl_fatal fl = None ->
    (d, None) ∈ fl_done fl -> exists w, Post d (contents dbi) w;
  rk_ran_after : forall i d dbi, (i, (d, None)) ∈ h_ran h -> h_dbs h !! i = Some dbi -> exists w, Post d (contents dbi) w }.

Lemma ran_index (h : history W D) (st : Store W D) i d dbi (x : DB) :
  length (h_dbs h) = length (s_inflight st) -> (forall i d, (i, d) ∈ h_ran h -> (i < length (s_inflight st))%nat) ->
  (i, d) ∈ h_ran h -> (h_dbs h ++ [x]) !! i = Some dbi -> h_dbs h !! i = Some dbi.
Proof.
  intros Hl Hi Hran Hd. pose proof (Hi _ _ Hran). apply lookup_snoc_cases in Hd as [[? _]|[-> _]]; [done|lia].
Qed.

Lemma run_kept_round h st avail rqs carried queue st' :
  Forall keeps rqs -> (forall i d, (i, d) ∈ h_ran h -> (i < length (s_inflight st))%nat) -> run_kept h st ->
  take_batch avail st = Some (rqs, carried, queue) -> writer_round avail st = Some st' ->
  run_kept (mkHistory (h_submitted h) (h_batches h ++ [rqs]) (h_dbs h ++ [s_db st']) (h_ran h)) st'.
Proof.
  intros Hf Hidx [I1 I2 I3 I4 I5 I6 I7 I8 I9] Ht Hw. destruct (writer_round_take _ _ _ _ _ _ Ht Hw) as (fl & db & w & Ec & ->).
  destruct (commit_kept _ _ _ _ _ _ Hf I1 Ec) as [Hs Hnew]. pose proof (ho_inv Ho _ _ _ _ Hs) as Hi.
  pose proof (commit_versions _ _ _ _ _ _ (keeps_local _ Hf) Ec) as Hv.
  assert (forall m, m ∈ versions db -> StepDB m (contents db)) as Hall.
  { intros m Hm. destruct Hv as [Ev|Ev]; rewrite Ev in Hm; [by eapply (ho_db Ho), I5|].
    apply elem_of_app in Hm as [Hm| ->%list_elem_of_singleton]; [by eapply (ho_db Ho), I5|by eapply ho_db_refl]. }
  constructor; cbn; [done| | | |done| | | |].
  - intros i f d [[Hi' _]|[_ ->]]%lookup_snoc_cases Hn Hd; [by eapply (ho_post Ho), I2|by apply Hnew].
  - intros i f [[Hi' _]|[_ ->]]%lookup_snoc_cases; [by eapply I3|]. intros Hr. exfalso.
    unfold commitRequests in Ec. repeat case_match; by simplify_eq.
  - intros i d Hd. by eapply (ho_post Ho), I4.
  - intros i j mi mj Hmi Hmj Hij. destruct Hv as [Ev|Ev]; [rewrite Ev in *; by eapply I6|].
    assert (mi ∈ versions db) as Hin by by eapply list_elem_of_lookup_2. rewrite Ev in Hmi, Hmj.
    apply lookup_snoc_cases in Hmj as [[Hmj ?]|[-> ->]]; [|by apply Hall].
    apply lookup_snoc_cases in Hmi as [[Hmi ?]|[-> ->]]; [by eapply I6|lia].
  - rewrite !length_app. simpl. lia.
  - intros i f d dbi [[Hi' ?]|[-> ->]]%lookup_snoc_cases [[Hd' ?]|[? ->]]%lookup_snoc_cases Hn Hd; [by eapply I8|lia|lia|].
    exists w. by apply Hnew.
  - intros i d dbi Hran Hd. eapply I9; [done|]. by eapply ran_index.
Qed.

Lemma callback_sync_contents (fl : inflight D) db : versions (callback_sync fl db).2 = versions db.
Proof.
  unfold callback_sync. destruct (fl_fatal fl); [done|]. destruct (fl_class fl); [|done].
  destruct (db_LogDataSync db) as [[] db'] eqn:Es; [by apply law_sync in Es as [? _]|by apply law_sync_failed in Es as [? _]].
Qed.
Lemma callback_sync_fills (fl : inflight D) db :
  (fl_fatal (callback_sync fl db).1 = None -> fl_fatal fl = None /\ fl_done (callback_sync fl db).1 = fl_done fl) /\
  (fl_fatal (callback_sync fl db).1 <> None -> Forall (fun p => p.2 <> None) (fl_done (callback_sync fl db).1)).
Proof.
  unfold callback_sync. destruct (match fl_fatal fl with Some _ => _ | None => _ end) as [fatal db'] eqn:E. cbn. split.
  - intros ->. split; [destruct (fl_fatal fl); [by destruct (fl_class fl)|done]|].
    rewrite <- (list_fmap_id (fl_done fl)) at 2. apply list_fmap_ext. by intros ? [d [e|]] ?.
  - intros Hn. destruct fatal as [e|]; [|done]. apply Forall_fmap, Forall_true. by intros [d [e'|]].
Qed.

Lemma run_kept_wait h st i st' : run_kept h st -> wait_log i st = Some st' -> run_kept h st'.
Proof.
  intros [I1 I2 I3 I4 I5 I6 I7 I8 I9] Hw. unfold wait_log in Hw. apply bind_Some in Hw as (fl & Hfl & E). destruct (fl_ready fl); [done|].
  pose proof (callback_sync_contents fl (s_db st)) as Hv. pose proof (callback_sync_fills fl (s_db st)) as [F1 F2].
  destruct (callback_sync fl (s_db st)) as [fl2 db2]. injection E as <-. cbn in *.
  assert (contents db2 = contents (s_db st)) as Hc by (apply contents_unique; rewrite Hv; apply contents_last).
  constructor; cbn; rewrite ?Hc, ?Hv, ?length_insert; try done.
  - intros j f d [(<- & <- & _)|[_ Hj]]%list_lookup_insert_Some; [|by eapply I2]. intros Hn. destruct (F1 Hn) as [Hn' ->]. by eapply I2.
  - intros j f [(<- & <- & _)|[_ Hj]]%list_lookup_insert_Some; [auto|by eapply I3].
  - intros j f d dbi [(<- & <- & _)|[_ Hj]]%list_lookup_insert_Some; [|by eapply I8]. intros Hd Hn. destruct (F1 Hn) as [Hn' ->].
    by eapply I8.
Qed.

Lemma run_kept_callback h st i d st' :
  run_kept h st -> run_callback i st = Some (d, st') ->
  run_kept (mkHistory (h_submitted h) (h_batches h) (h_dbs h) (h_ran h ++ [(i, d)])) st'.
Proof.
  intros [I1 I2 I3 I4 I5 I6 I7 I8 I9] Hd. unfold run_callback in Hd. apply bind_Some in Hd as (fl & Hfl & E).
  destruct (fl_ready fl) eqn:Hr; [|done]. cbn in E. destruct (fl_done fl) as [|d' rest] eqn:Ed; [done|]. injection E as -> <-.
  assert (d.2 = None -> fl_fatal fl = None) as Hfat.
  { intros Hd. destruct (fl_fatal fl) eqn:Ef; [|done]. exfalso.
    specialize (I3 i fl Hfl Hr ltac:(congruence)). rewrite Ed in I3. by apply Forall_cons in I3 as [? _]. }
  constructor; cbn; rewrite ?length_insert; try done.
  - intros j f d0 [(<- & <- & _)|[_ Hj]]%list_lookup_insert_Some; [|by eapply I2]. cbn. intros Hn Hin.
    apply (I2 i fl); [done..|]. rewrite Ed. by right.
  - intros j f [(<- & <- & _)|[_ Hj]]%list_lookup_insert_Some; [|by eapply I3]. cbn. intros _ Hn.
    specialize (I3 i fl Hfl Hr Hn). rewrite Ed in I3. by apply Forall_cons in I3 as [_ ?].
  - intros j d0 [Hin|Hin%list_elem_of_singleton]%elem_of_app; [by eapply I4|]. injection Hin as -> <-.
    apply (I2 i fl); [done|by apply Hfat|rewrite Ed; left].
  - intros j f d0 dbi [(<- & <- & _)|[_ Hj]]%list_lookup_insert_Some; [|by eapply I8]. cbn. intros Hd Hn Hin.
    apply (I8 i fl); [done..|]. rewrite Ed. by right.
  - intros j d0 dbi [Hin|Hin%list_elem_of_singleton]%elem_of_app Hd; [by eapply I9|]. injection Hin as -> <-.
    apply (I8 i fl); [done|done|by apply Hfat|rewrite Ed; left].
Qed.

Lemma runs_kept db0 w0 h st :
  Inv (contents db0) w0 -> versions db0 = [contents db0] ->
  runs env db0 w0 h st -> Forall keeps (h_submitted h) -> run_kept h st.
Proof.
  intros Hi Hv. induction 1 as [|h st rq st' Hrun IH Hs|h st avail rqs c q st' Hrun IH Ht Hw|h st i st' _ IH Hw|h st i d st' _ IH Hd'|h st _ IH|h st w _ IH He];
    cbn; intros Hl.
  - constructor; cbn; try done; try (by intros ? ? ?%elem_of_nil); try (by intros ? ? ? ?%elem_of_nil); rewrite Hv.
    + intros m ->%list_elem_of_singleton. by eapply ho_db_refl.
    + intros [|i] [|j] mi mj; try done. intros [= <-] [= <-] _. by eapply ho_db_refl.
  - apply Forall_app in Hl as [Hl _]. specialize (IH Hl). unfold submit, submitContext in Hs. cbn in Hs.
    destruct (s_isClosed st); [done|]. injection Hs as <-. destruct IH. by constructor.
  - pose proof (runs_inv _ _ _ _ _ Hrun) as [Hfifo _ Hlen Hran _ _].
    eapply run_kept_round; [| |by apply IH|exact Ht|exact Hw].
    2:{ intros i d Hd. rewrite Forall_forall in Hran. rewrite Hlen. exact (Hran _ Hd). } destruct (take_batch_spec _ _ _ _ _ Ht) as [Eq _].
    rewrite Hfifo, Eq in Hl. apply Forall_app in Hl as [_ Hl]. by apply Forall_app in Hl as [? _].
  - by eapply run_kept_wait; [apply IH|].
  - by eapply run_kept_callback; [apply IH|].
  - destruct (IH Hl). by constructor.
  - destruct (IH Hl) as [I1 I2 I3 I4 I5 I6 I7 I8 I9]. destruct (ho_env Ho _ _ _ He I1) as [Hi' Hs]. constructor; cbn; try done.
    + intros i fl d H1 H2 H3. by eapply Hs, I2.
    + intros i d H1. by eapply Hs, I4.
Qed.

(** A request that asked for durability and was reported done is in every database
    reopened later. *)
Lemma durable_kept db0 w0 h st i d db' :
  Inv (contents db0) w0 -> versions db0 = [contents db0] -> runs env db0 w0 h st -> Forall keeps (h_submitted h) ->
  (i, (d, None)) ∈ h_ran h -> (forall rq, rq ∈ h_submitted h -> rq_done rq = d -> rq_durability rq = durableCommitment) ->
  db_Reopen (s_db st) db' -> exists m w, Post d m w /\ StepDB m (contents db').
Proof.
  intros Hi Hv Hrun Hl Hran Hdur Hre. pose proof (runs_kept _ _ _ _ Hi Hv Hrun Hl) as [_ _ _ _ _ Hsort Hlen _ Hafter].
  pose proof (runs_inv _ _ _ _ _ Hrun) as [Hfifo Hgood Hl2 Hidx Hdone _].
  destruct (runs_durable _ _ _ _ _ Hrun (keeps_local _ Hl)) as [_ _ _ _ _ Hdisk _].
  rewrite Forall_forall in Hidx. pose proof (Hidx _ Hran) as Hlt. cbn in Hlt.
  destruct (lookup_lt_is_Some_2 _ _ Hlt) as [rqs Hb].
  destruct (lookup_lt_is_Some_2 (h_dbs h) i) as [dbi Hd]; [lia|].
  destruct (lookup_lt_is_Some_2 (s_inflight st) i) as [fl Hfl]; [lia|].
  assert (first_class rqs = durableCommitment) as Hc.
  { pose proof (Hdone i rqs fl Hb Hfl) as E. assert (d ∈ rq_done <$> rqs) as Hin.
    { rewrite <- E. apply elem_of_app. left. unfold ran_of. apply list_elem_of_omap. exists (i, (d, None)). cbn. by rewrite decide_True. }
    apply list_elem_of_fmap in Hin as (rq & -> & Hrq). rewrite Forall_forall in Hgood.
    destruct (Hgood rqs) as [_ _ Hcl _]; [by eapply list_elem_of_lookup_2|]. rewrite Forall_forall in Hcl. rewrite <- (Hcl rq Hrq).
    apply Hdur; [|done]. rewrite Hfifo. apply elem_of_app. left. apply list_elem_of_In, in_concat. exists rqs.
    split; [apply list_elem_of_In; by eapply list_elem_of_lookup_2|by apply list_elem_of_In]. }
  destruct (Hdisk _ _ _ _ Hran Hd Hb Hc) as (k & Hk & Hvk). apply law_reopen in Hre as (n & m & Hn & Hm & Ev).
  destruct (Hafter _ _ _ Hran Hd) as [w Hp]. exists (contents dbi), w. split; [done|].
  rewrite (contents_unique db' m) by by rewrite Ev. eapply Hsort; [done..|lia].
Qed.
End History.
