(* ===== verification/Keyring.v ===== *)
(** * The validator keyring ([src/service/validator/keyring/keyring.go])

    A keyring owns the validator's Ed25519 keys: it generates them, gives them an
    election, a temporary-key lifetime and an ADNL address, and signs.  Every
    change is saved before it is published.  The durable storage is the interface
    [KeyStorage], what it promises [KeyStorageLaws]; [StoreKeyring.v] implements
    both with the validator store.  [writeMu] makes the changes sequential, so a
    call is one function of the keyring and the storage.  Ed25519 and the random
    source are parameters; wiping of secrets is left out. *)

From S2P Require Import Prelude.
From S2P Require Import SimplexTypes.
From S2P Require Import SimplexWire.
From S2P Require Import Sha256.
From S2P Require Import SimplexCert.
From S2P Require Import SimplexCandidate.
From S2P Require Import StoreCodec.
From S2P Require Import StoreWriter.

#[local] Open Scope Z_scope.

(** [crypto/ed25519]: the public key of a seed and [Sign].  A private key is the
    seed followed by the public key. *)
Class Ed25519Keys := { ed25519_public : bytes -> bytes; ed25519_Sign : bytes -> bytes -> bytes }.
Definition NewKeyFromSeed `{Ed25519Keys} (seed : bytes) : bytes := seed ++ ed25519_public seed.
Definition private_Seed (private : bytes) : bytes := take 32 private.
Definition private_Public (private : bytes) : bytes := drop 32 private.

Class Ed25519KeysLaws `{Ed25519Keys} `{Ed25519} : Prop := {
  law_public_length seed : length (ed25519_public seed) = 32%nat;
  law_sign seed payload : length seed = 32%nat ->
    ed25519_Verify (ed25519_public seed) payload (ed25519_Sign (NewKeyFromSeed seed) payload) = true }.

(** [keyring.Storage]. *)
Class KeyStorage := {
  ks_state : Type;
  LoadValidatorKeys : ks_state -> result store_error (list StoredKey);
  SaveValidatorKey : StoredKey -> ks_state -> result store_error unit * ks_state;
  (** [ks_reopen s s' s'']: the process ended while the storage went from [s] to
      [s'], and the storage was opened again. *)
  ks_reopen : ks_state -> ks_state -> ks_state -> Prop }.

Record KeyInfo := mkKeyInfo {
  ki_ID : bytes; ki_Permanent : bool; ki_ElectionDate : Z; ki_PermanentExpireAt : Z; ki_TempExpireAt : Z;
  ki_HasADNL : bool; ki_ADNLID : bytes; ki_ADNLExpireAt : Z }.
#[export] Instance KeyInfo_eq_dec : EqDecision KeyInfo.
Proof. solve_decision. Defined.
#[export] Instance eta_KeyInfo : Eta KeyInfo := fun i =>
  mkKeyInfo (ki_ID i) (ki_Permanent i) (ki_ElectionDate i) (ki_PermanentExpireAt i) (ki_TempExpireAt i) (ki_HasADNL i)
    (ki_ADNLID i) (ki_ADNLExpireAt i).
Record signingKey := mkSigningKey { sg_private : bytes; sg_public : bytes; sg_info : KeyInfo }.
#[export] Instance eta_signingKey : Eta signingKey := fun k => mkSigningKey (sg_private k) (sg_public k) (sg_info k).

(** [storage] is nil for a keyring made by [New]. *)
Record Keyring := mkKeyring { kr_storage : bool; kr_keys : gmap bytes signingKey; kr_order : list bytes }.
#[export] Instance eta_Keyring : Eta Keyring := fun k => mkKeyring (kr_storage k) (kr_keys k) (kr_order k).
Definition newKeyring (storage : bool) : Keyring := mkKeyring storage ∅ [].

Inductive keyring_error :=
| KErrNotFound | KErrReadOnly | KErrContext | KErrRandom | KErrHash | KErrLength | KErrDuplicate | KErrElection
| KErrMetadata | KErrMismatch | KErrTemp | KErrADNL | KErrStorage (e : store_error).

Section Keyring.
Context `{TLRuntime} `{Ed25519Keys}.

Definition publicKeyID (public : bytes) : result keyring_error bytes :=
  match KeyNodeIDShort public with None => Err KErrHash | Some hash => Ok (copy32 hash) end.

(** [New], over the private keys left. *)
Fixpoint New_loop (privateKeys : list bytes) (k : Keyring) : result keyring_error Keyring :=
  match privateKeys with
  | [] => Ok k
  | private :: rest =>
      if negb (length private =? 64)%nat then Err KErrLength
      else
        let public := private_Public private in
        and_then (publicKeyID public) (fun keyID =>
        if bool_decide (is_Some (kr_keys k !! keyID)) then Err KErrDuplicate
        else
          New_loop rest (k <| kr_keys := <[keyID := mkSigningKey private public
              (mkKeyInfo keyID true 0 0 0 false zeroHash 0)]> (kr_keys k) |> <| kr_order := kr_order k ++ [keyID] |>))
  end.
Definition New (privateKeys : list bytes) : result keyring_error Keyring :=
  if (length privateKeys =? 0)%nat then Err KErrLength else New_loop privateKeys (newKeyring false).

Definition info_of_stored (k : StoredKey) : KeyInfo :=
  mkKeyInfo (sk_ID k) (sk_Permanent k) (sk_ElectionDate k) (sk_PermanentExpireAt k) (sk_TempExpireAt k) (sk_HasADNL k)
    (sk_ADNLID k) (sk_ADNLExpireAt k).
Definition signingKeyFromStored (stored : StoredKey) : result keyring_error signingKey :=
  if negb (validateValidatorKey stored) then Err KErrMetadata
  else
    let private := NewKeyFromSeed (sk_Seed stored) in
    let public := private_Public private in
    and_then (publicKeyID public) (fun keyID =>
    if negb (bool_decide (keyID = sk_ID stored)) then Err KErrMismatch
    else Ok (mkSigningKey private public (info_of_stored stored))).
Definition storedKeyFromSigning (record : signingKey) : StoredKey :=
  let info := sg_info record in
  mkStoredKey (ki_ID info) (copy32 (private_Seed (sg_private record))) (ki_Permanent info) (ki_ElectionDate info)
    (ki_PermanentExpireAt info) (ki_TempExpireAt info) (ki_HasADNL info) (ki_ADNLID info) (ki_ADNLExpireAt info).

(** [Open], over the stored keys left. *)
Fixpoint Open_loop (storedKeys : list StoredKey) (elections : gmap Z bytes) (k : Keyring) : result keyring_error Keyring :=
  match storedKeys with
  | [] => Ok k
  | stored :: rest =>
      and_then (signingKeyFromStored stored) (fun record =>
      let info := sg_info record in
      if bool_decide (is_Some (kr_keys k !! ki_ID info)) then Err KErrDuplicate
      else if ki_Permanent info && bool_decide (is_Some (elections !! ki_ElectionDate info)) then Err KErrElection
      else
        Open_loop rest (if ki_Permanent info then <[ki_ElectionDate info := ki_ID info]> elections else elections)
          (k <| kr_keys := <[ki_ID info := record]> (kr_keys k) |> <| kr_order := kr_order k ++ [ki_ID info] |>))
  end.

Context `{KeyStorage}.

Definition Open (ctxErr : bool) (s : ks_state) : result keyring_error Keyring :=
  if ctxErr then Err KErrContext
  else
    match LoadValidatorKeys s with
    | Err e => Err (KErrStorage e)
    | Ok storedKeys => Open_loop storedKeys ∅ (newKeyring true)
    end.

Definition save (record : signingKey) (s : ks_state) : result keyring_error unit * ks_state :=
  match SaveValidatorKey (storedKeyFromSigning record) s with
  | (Ok u, s) => (Ok u, s)
  | (Err e, s) => (Err (KErrStorage e), s)
  end.

(** [Generate] for the outcomes [draws] of the random source: seeds, or errors;
    [None] while it still draws. *)
Fixpoint Generate_loop (draws : list (option bytes)) (k : Keyring) (s : ks_state) :
    option (result keyring_error bytes * Keyring * ks_state) :=
  match draws with
  | [] => None
  | None :: _ => Some (Err KErrRandom, k, s)
  | Some seed :: draws =>
      let private := NewKeyFromSeed seed in
      match publicKeyID (ed25519_public seed) with
      | Err e => Some (Err e, k, s)
      | Ok keyID =>
          if bool_decide (is_Some (kr_keys k !! keyID)) then Generate_loop draws k s
          else
            let record := mkSigningKey private (ed25519_public seed) (mkKeyInfo keyID false 0 0 0 false zeroHash 0) in
            match save record s with
            | (Err e, s) => Some (Err e, k, s)
            | (Ok _, s) =>
                Some (Ok keyID, k <| kr_keys := <[keyID := record]> (kr_keys k) |> <| kr_order := kr_order k ++ [keyID] |>, s)
            end
      end
  end.
Definition Generate (ctxErr : bool) (draws : list (option bytes)) (k : Keyring) (s : ks_state) :
    option (result keyring_error bytes * Keyring * ks_state) :=
  if negb (kr_storage k) then Some (Err KErrReadOnly, k, s)
  else if ctxErr then Some (Err KErrContext, k, s)
  else Generate_loop draws k s.

(** Another permanent key has the election date. *)
Definition election_taken (k : Keyring) (keyID : bytes) (electionDate : Z) : bool :=
  bool_decide (map_Exists (fun otherID other =>
    otherID <> keyID /\ ki_Permanent (sg_info other) = true /\ ki_ElectionDate (sg_info other) = electionDate) (kr_keys k)).

(** Saves a changed record, then publishes it. *)
Definition replace (keyID : bytes) (record : signingKey) (k : Keyring) (s : ks_state) :
    result keyring_error unit * Keyring * ks_state :=
  match save record s with
  | (Err e, s) => (Err e, k, s)
  | (Ok _, s) => (Ok tt, k <| kr_keys := <[keyID := record]> (kr_keys k) |>, s)
  end.

Definition AddPermanent (ctxErr : bool) (keyID : bytes) (electionDate expireAt : Z) (k : Keyring) (s : ks_state) :
    result keyring_error unit * Keyring * ks_state :=
  if negb (kr_storage k) then (Err KErrReadOnly, k, s)
  else if ctxErr then (Err KErrContext, k, s)
  else
    match kr_keys k !! keyID with
    | None => (Err KErrNotFound, k, s)
    | Some record =>
        let info := sg_info record in
        if election_taken k keyID electionDate then (Err KErrElection, k, s)
        else if ki_Permanent info && negb (ki_ElectionDate info =? electionDate) then (Err KErrElection, k, s)
        else if ki_Permanent info && (ki_PermanentExpireAt info =? expireAt) then (Ok tt, k, s)
        else
          replace keyID (record <| sg_info := info <| ki_Permanent := true |> <| ki_ElectionDate := electionDate |>
            <| ki_PermanentExpireAt := expireAt |> |>) k s
    end.

Definition update (ctxErr : bool) (keyID : bytes) (apply : KeyInfo -> result keyring_error KeyInfo) (k : Keyring) (s : ks_state) :
    result keyring_error unit * Keyring * ks_state :=
  if negb (kr_storage k) then (Err KErrReadOnly, k, s)
  else if ctxErr then (Err KErrContext, k, s)
  else
    match kr_keys k !! keyID with
    | None => (Err KErrNotFound, k, s)
    | Some record =>
        match apply (sg_info record) with
        | Err e => (Err e, k, s)
        | Ok info => if bool_decide (info = sg_info record) then (Ok tt, k, s) else replace keyID (record <| sg_info := info |>) k s
        end
    end.

Definition AddTemp (ctxErr : bool) (permanentKeyID keyID : bytes) (expireAt : Z) (k : Keyring) (s : ks_state) :
    result keyring_error unit * Keyring * ks_state :=
  if negb (bool_decide (permanentKeyID = keyID)) then (Err KErrTemp, k, s)
  else
    update ctxErr permanentKeyID (fun info =>
      if negb (ki_Permanent info) then Err KErrTemp else Ok (info <| ki_TempExpireAt := expireAt |>)) k s.

Definition AddADNL (ctxErr : bool) (permanentKeyID adnlID : bytes) (expireAt : Z) (k : Keyring) (s : ks_state) :
    result keyring_error unit * Keyring * ks_state :=
  update ctxErr permanentKeyID (fun info =>
    if negb (ki_Permanent info) then Err KErrADNL
    else if ki_HasADNL info && negb (bool_decide (ki_ADNLID info = adnlID)) then Err KErrADNL
    else Ok (info <| ki_HasADNL := true |> <| ki_ADNLID := adnlID |> <| ki_ADNLExpireAt := expireAt |>)) k s.

(** *** Reads *)

Definition zeroInfo : KeyInfo := mkKeyInfo zeroHash false 0 0 0 false zeroHash 0.
(** [k.keys\[id\].info], the zero value for a missing key. *)
Definition info_at (k : Keyring) (id : bytes) : KeyInfo :=
  match kr_keys k !! id with Some record => sg_info record | None => zeroInfo end.
Definition Entries (k : Keyring) : list KeyInfo := info_at k <$> kr_order k.
Definition KeyIDs (k : Keyring) : list bytes := filter (fun id => ki_Permanent (info_at k id) = true) (kr_order k).
Definition Sign (keyID payload : bytes) (k : Keyring) : result keyring_error bytes :=
  match kr_keys k !! keyID with
  | None => Err KErrNotFound
  | Some key => Ok (ed25519_Sign (sg_private key) payload)
  end.
Definition PublicKeyFor (keyID : bytes) (k : Keyring) : result keyring_error bytes :=
  match kr_keys k !! keyID with
  | None => Err KErrNotFound
  | Some key => Ok (sg_public key)
  end.
End Keyring.

(** ** What the storage promises *)

Record typed_key (k : StoredKey) : Prop := {
  tk_id : length (sk_ID k) = 32%nat;
  tk_seed : length (sk_Seed k) = 32%nat;
  tk_adnl : length (sk_ADNLID k) = 32%nat;
  tk_date : is_u32 (sk_ElectionDate k);
  tk_expire : is_u32 (sk_PermanentExpireAt k);
  tk_temp : is_u32 (sk_TempExpireAt k);
  tk_adnl_expire : is_u32 (sk_ADNLExpireAt k) }.

Notation keymap := (gmap bytes StoredKey).

(** A key the storage accepts: its metadata is consistent and the seed of its id
    does not change. *)
Definition saveable (m : keymap) (k : StoredKey) : Prop :=
  validateValidatorKey k = true /\ forall k0, m !! sk_ID k = Some k0 -> sk_Seed k0 = sk_Seed k.
Definition maybe_saved (m : keymap) (k : StoredKey) (m' : keymap) : Prop :=
  m' = m \/ (saveable m k /\ m' = <[sk_ID k := k]> m).

(** The storage went through [ks_versions] since it was opened, and a reopened one
    is in one of them, not before [ks_synced].  A save that fails may have reached
    the disk; one that succeeds is synced. *)
Class KeyStorageLaws `{KeyStorage} := {
  ks_ok : ks_state -> Prop;
  ks_versions : ks_state -> list keymap;
  ks_synced : ks_state -> nat;
  ks_current : ks_state -> keymap;
  law_ks_current s : last (ks_versions s) = Some (ks_current s);
  law_ks_synced s : (ks_synced s < length (ks_versions s))%nat;
  law_ks_load s : ks_ok s ->
    match LoadValidatorKeys s with
    | Ok l => NoDup (sk_ID <$> l) /\ forall k, k ∈ l <-> ks_current s !! sk_ID k = Some k
    | Err e => e = ErrIO
    end;
  law_ks_save s k r s' : ks_ok s -> typed_key k -> SaveValidatorKey k s = (r, s') ->
    ks_ok s' /\ (ks_synced s <= ks_synced s')%nat /\
    (exists l, ks_versions s' = ks_versions s ++ l /\ Forall (maybe_saved (ks_current s) k) l) /\
    (r = Ok tt -> saveable (ks_current s) k /\ ks_current s' = <[sk_ID k := k]> (ks_current s) /\
      S (ks_synced s') = length (ks_versions s'));
  law_ks_reopen s s' s'' : ks_ok s -> ks_ok s' -> ks_reopen s s' s'' ->
    ks_ok s'' /\ exists n m, (ks_synced s <= n)%nat /\ ks_versions s' !! n = Some m /\ ks_versions s'' = [m] }.

(** ** The invariant *)

Section Rings.
Context `{TLRuntime} `{Ed25519KeysLaws} `{KeyStorageLaws}.
Implicit Types (k : Keyring) (s : ks_state) (m M : keymap) (K : StoredKey).

(** A stored key whose id is that of its seed. *)
Definition stored_ok K : Prop :=
  typed_key K /\ validateValidatorKey K = true /\ publicKeyID (ed25519_public (sk_Seed K)) = Ok (sk_ID K).
Definition sound m : Prop := forall id K, m !! id = Some K -> sk_ID K = id /\ stored_ok K.
Definition one_election m : Prop := forall id id' K K', m !! id = Some K -> m !! id' = Some K' ->
  sk_Permanent K = true -> sk_Permanent K' = true -> sk_ElectionDate K = sk_ElectionDate K' -> id = id'.

Definition signing_of K : signingKey :=
  mkSigningKey (NewKeyFromSeed (sk_Seed K)) (ed25519_public (sk_Seed K)) (info_of_stored K).

(** What a change of a key never takes back: its election and its ADNL address. *)
Definition info_keeps (i i' : KeyInfo) : Prop :=
  (ki_Permanent i = true -> ki_Permanent i' = true /\ ki_ElectionDate i' = ki_ElectionDate i) /\
  (ki_HasADNL i = true -> ki_HasADNL i' = true /\ ki_ADNLID i' = ki_ADNLID i).
Definition keeps_key K K' : Prop :=
  sk_ID K' = sk_ID K /\ sk_Seed K' = sk_Seed K /\ info_keeps (info_of_stored K) (info_of_stored K').
Definition covers M m : Prop := forall id K, M !! id = Some K -> exists K', m !! id = Some K' /\ keeps_key K K'.

(** The keyring holds the keys of [M]. *)
Record ring_of M k : Prop := {
  ro_storage : kr_storage k = true;
  ro_keys : kr_keys k = signing_of <$> M;
  ro_sound : sound M;
  ro_election : one_election M;
  ro_nodup : NoDup (kr_order k);
  ro_order : forall id, id ∈ kr_order k <-> is_Some (M !! id) }.
(** What a crash can bring back has all of [M]. *)
Record kept_by M s : Prop := {
  kb_ok : ks_ok s;
  kb_sound : forall m, m ∈ ks_versions s -> sound m;
  kb_covers : forall n m, (ks_synced s <= n)%nat -> ks_versions s !! n = Some m -> covers M m }.
Definition exactly M s : Prop := forall n m, (ks_synced s <= n)%nat -> ks_versions s !! n = Some m -> m = M.

Lemma stored_signing K : length (sk_Seed K) = 32%nat -> storedKeyFromSigning (signing_of K) = K.
Proof.
  intros Hl. assert (private_Seed (NewKeyFromSeed (sk_Seed K)) = sk_Seed K) as E.
  { unfold private_Seed, NewKeyFromSeed. by rewrite take_app_length'. }
  unfold storedKeyFromSigning. cbn [signing_of sg_private sg_info]. rewrite E, copy32_id by done. by destruct K.
Qed.
Lemma signing_stored K : stored_ok K -> signingKeyFromStored K = Ok (signing_of K).
Proof.
  intros (Ht & Hv & Hid). unfold signingKeyFromStored. rewrite Hv. cbn. unfold private_Public, NewKeyFromSeed.
  rewrite drop_app_length' by (symmetry; apply Ht). rewrite Hid. cbn. by rewrite bool_decide_eq_true_2.
Qed.
Lemma info_keeps_refl i : info_keeps i i.
Proof. by repeat split. Qed.
Lemma keeps_key_refl K : keeps_key K K.
Proof. repeat split; done. Qed.
Lemma keeps_key_trans K1 K2 K3 : keeps_key K1 K2 -> keeps_key K2 K3 -> keeps_key K1 K3.
Proof.
  intros (I1 & S1 & P1 & A1) (I2 & S2 & P2 & A2). do 2 (split; [congruence|]). split; intros Hp.
  - destruct (P1 Hp) as [Hp2 E]. destruct (P2 Hp2) as [? E2]. split; [done|congruence].
  - destruct (A1 Hp) as [Hp2 E]. destruct (A2 Hp2) as [? E2]. split; [done|congruence].
Qed.
Lemma publicKeyID_length public id : publicKeyID public = Ok id -> length id = 32%nat /\ KeyNodeIDShort public = Some id.
Proof.
  unfold publicKeyID, KeyNodeIDShort. destruct (tl_Serialize _) as [b|]; [|done]. cbn.
  rewrite copy32_id by apply length_sha256. intros [= <-]. split; [apply length_sha256|done].
Qed.

(** A save of a new or changed key. *)
Lemma save_kept M s K r s' :
  kept_by M s -> stored_ok K -> (forall K0, M !! sk_ID K = Some K0 -> keeps_key K0 K) ->
  SaveValidatorKey K s = (r, s') ->
  kept_by M s' /\ (forall n m, (ks_synced s <= n)%nat -> ks_versions s' !! n = Some m -> covers M m) /\
  (r = Ok tt -> kept_by (<[sk_ID K := K]> M) s' /\ (exactly M s -> exactly (<[sk_ID K := K]> M) s')).
Proof.
  intros [Hok Hs Hc] HK HM E. destruct (law_ks_save _ _ _ _ Hok (proj1 HK) E) as (Hok' & Hle & (l & Hv & Hl) & Hr).
  assert (ks_current s ∈ ks_versions s) as Hcur by apply last_Some_elem_of, law_ks_current.
  assert (covers M (ks_current s)) as Hcc.
  { pose proof (law_ks_synced s) as Hlt. eapply (Hc (pred (length (ks_versions s)))); [lia|]. rewrite <- last_lookup. apply law_ks_current. }
  assert (forall m, sound m -> sound (<[sk_ID K := K]> m)) as Hsi.
  { intros m Hm id K1 [[<- <-]|[_ HK1]]%lookup_insert_Some; [by split|by apply Hm]. }
  assert (covers M (<[sk_ID K := K]> (ks_current s))) as Hci.
  { intros id K0 H0'. destruct (decide (id = sk_ID K)) as [->|Hne]; [rewrite lookup_insert_eq; by eauto|].
    rewrite lookup_insert_ne by done. by apply Hcc. }
  assert (forall m, m ∈ l -> sound m /\ covers M m) as Hnew.
  { intros m Hm. rewrite Forall_forall in Hl. destruct (Hl m Hm) as [->|[_ ->]]; [split; [by apply Hs|done]|split; [by apply Hsi, Hs|done]]. }
  assert (forall m, m ∈ ks_versions s' -> sound m) as Hs'.
  { intros m. rewrite Hv. intros [Hm|Hm]%elem_of_app; [by apply Hs|by apply Hnew]. }
  assert (forall n m, (ks_synced s <= n)%nat -> ks_versions s' !! n = Some m -> covers M m) as Hc'.
  { intros n m Hn. rewrite Hv. intros [Hm|[_ Hm]]%lookup_app_Some; [by eapply Hc|]. apply Hnew. by eapply list_elem_of_lookup_2. }
  split; [constructor; [done..|]; intros n m Hn; apply Hc'; lia|]. split; [done|]. intros ->.
  destruct (Hr eq_refl) as (_ & Hcur' & Hlen).
  assert (forall n m, (ks_synced s' <= n)%nat -> ks_versions s' !! n = Some m -> m = <[sk_ID K := K]> (ks_current s)) as Hlast.
  { intros n m Hn Hm. pose proof (lookup_lt_Some _ _ _ Hm). assert (n = pred (length (ks_versions s'))) as -> by lia.
    rewrite <- last_lookup, law_ks_current in Hm. congruence. }
  split.
  - constructor; [done..|]. intros n m Hn Hm. rewrite (Hlast n m Hn Hm). intros id K0 [[<- <-]|[Hne H0']]%lookup_insert_Some.
    + rewrite lookup_insert_eq. eexists. split; [done|apply keeps_key_refl].
    + rewrite lookup_insert_ne by done. by apply Hcc.
  - intros He n m Hn Hm. rewrite (Hlast n m Hn Hm). f_equal. eapply (He (pred (length (ks_versions s)))); [pose proof (law_ks_synced s); lia|].
    rewrite <- last_lookup. apply law_ks_current.
Qed.

(** ** [Open] *)

Definition add_keys (l : list StoredKey) M : keymap := foldl (fun M K => <[sk_ID K := K]> M) M l.

Lemma lookup_add_keys l M id K :
  NoDup (sk_ID <$> l) -> (forall K, K ∈ l -> M !! sk_ID K = None) ->
  add_keys l M !! id = Some K <-> M !! id = Some K \/ (K ∈ l /\ sk_ID K = id).
Proof.
  revert M. induction l as [|K0 l IH]; intros M; cbn; [set_solver|]. intros [Hn Hnd]%NoDup_cons Hf.
  assert (M !! sk_ID K0 = None) as H0' by (apply Hf; left). unfold add_keys in *. rewrite IH; [|done|].
  - rewrite lookup_insert_Some, elem_of_cons. split; [naive_solver|]. intros [Hk|[[->|Hk] E]]; [|by auto..].
    left. right. split; [congruence|done].
  - intros K1 H1'. rewrite lookup_insert_ne; [apply Hf; by right|]. intros E. apply Hn. rewrite E. by apply list_elem_of_fmap_2.
Qed.

(** A keyring with one more key, or a changed one. *)
Definition publish K k : Keyring :=
  k <| kr_keys := <[sk_ID K := signing_of K]> (kr_keys k) |>
    <| kr_order := if bool_decide (is_Some (kr_keys k !! sk_ID K)) then kr_order k else kr_order k ++ [sk_ID K] |>.

Lemma ring_publish M k K :
  ring_of M k -> stored_ok K -> one_election (<[sk_ID K := K]> M) -> ring_of (<[sk_ID K := K]> M) (publish K k).
Proof.
  intros [R1 R2 R3 R4 R5 R6] HK He. assert (is_Some (kr_keys k !! sk_ID K) <-> sk_ID K ∈ kr_order k) as Hin
    by (by rewrite R2, lookup_fmap, fmap_is_Some, R6).
  constructor; cbn; [done|by rewrite fmap_insert, R2| |done| |].
  - intros id K1 [[<- <-]|[_ HK1]]%lookup_insert_Some; [by split|by apply R3].
  - case_bool_decide as Hb; [done|]. apply NoDup_app. split_and!; [done| |apply NoDup_singleton].
    intros x Hx ->%list_elem_of_singleton. by apply Hb, Hin.
  - intros id. destruct (decide (id = sk_ID K)) as [->|Hne].
    + rewrite lookup_insert_eq. split; [by eauto|]. intros _. case_bool_decide as Hb; [by apply Hin|]. apply elem_of_app. right. by apply list_elem_of_singleton.
    + rewrite lookup_insert_ne, <- R6 by done. case_bool_decide; [done|]. rewrite elem_of_app, list_elem_of_singleton. naive_solver.
Qed.

Lemma Open_loop_spec l E k M :
  ring_of M k -> (forall K, K ∈ l -> stored_ok K /\ M !! sk_ID K = None) -> NoDup (sk_ID <$> l) ->
  (forall d, is_Some (E !! d) <-> exists id K, M !! id = Some K /\ sk_Permanent K = true /\ sk_ElectionDate K = d) ->
  match Open_loop l E k with
  | Ok k' => ring_of (add_keys l M) k'
  | Err e => e = KErrElection /\ ~ one_election (add_keys l M)
  end.
Proof.
  revert E k M. induction l as [|K l IH]; intros E k M Hr Hl Hnd HE; [done|]. cbn [Open_loop fmap list_fmap] in *.
  apply NoDup_cons in Hnd as [Hn Hnd]. destruct (Hl K) as [HK HM]; [left|]. rewrite (signing_stored K HK). cbn [and_then signing_of sg_info].
  change (ki_ID (info_of_stored K)) with (sk_ID K). change (ki_Permanent (info_of_stored K)) with (sk_Permanent K).
  change (ki_ElectionDate (info_of_stored K)) with (sk_ElectionDate K).
  assert (kr_keys k !! sk_ID K = None) as Hk by (by rewrite (ro_keys _ _ Hr), lookup_fmap, HM).
  rewrite bool_decide_eq_false_2 by (rewrite Hk; by intros []).
  assert (forall K1, K1 ∈ l -> <[sk_ID K := K]> M !! sk_ID K1 = None) as Hfresh.
  { intros K1 H1'. rewrite lookup_insert_ne; [apply Hl; by right|]. intros Eq. apply Hn. rewrite Eq. by apply list_elem_of_fmap_2. }
  destruct (sk_Permanent K && bool_decide (is_Some (E !! sk_ElectionDate K))) eqn:Ee.
  - apply andb_prop in Ee as [Hp Hd%bool_decide_eq_true]. apply HE in Hd as (id & K1 & HK1 & Hp1 & Hd1). split; [done|].
    intros Hone. assert (id = sk_ID K) as ->; [|congruence]. apply (Hone id (sk_ID K) K1 K); try done.
    + cbn. apply lookup_add_keys; [done|done|]. left. rewrite lookup_insert_ne; [done|]. congruence.
    + cbn. apply lookup_add_keys; [done|done|]. left. apply lookup_insert_eq.
  - assert (one_election (<[sk_ID K := K]> M)) as Hone.
    { assert (forall id K1, M !! id = Some K1 -> sk_Permanent K1 = true -> sk_Permanent K = true -> sk_ElectionDate K1 = sk_ElectionDate K -> False) as Hno.
      { intros id K1 HK1 Hp1 Hp Hd. rewrite Hp in Ee. cbn in Ee. apply bool_decide_eq_false in Ee. apply Ee, HE. eauto. }
      intros id id' K1 K2 [[<- <-]|[_ H1']]%lookup_insert_Some [[<- <-]|[_ H2']]%lookup_insert_Some Hp1 Hp2 Hd; [done| | |by eapply (ro_election _ _ Hr)].
      - exfalso. eapply (Hno id'); [done..|by symmetry].
      - exfalso. by eapply (Hno id). }
    pose proof (ring_publish _ _ _ Hr HK Hone) as Hr'.
    match goal with |- context[Open_loop l ?E' ?k'] => assert (k' = publish K k) as -> end.
    { unfold publish. rewrite bool_decide_eq_false_2; [done|]. rewrite Hk. by intros []. }
    apply (IH _ _ (<[sk_ID K := K]> M)); [done| |done|].
    + intros K1 H1'. split; [apply Hl; by right|by apply Hfresh].
    + intros d. destruct (sk_Permanent K) eqn:Hp.
      * rewrite lookup_insert_is_Some', HE. split.
        -- intros [<-|(id & K1 & HK1 & Hp1 & Hd1)]; [exists (sk_ID K), K; by rewrite lookup_insert_eq|].
           exists id, K1. split; [|done]. rewrite lookup_insert_ne; [done|]. congruence.
        -- intros (id & K1 & [[<- <-]|[_ HK1]]%lookup_insert_Some & Hp1 & Hd1); [by left|right; eauto].
      * rewrite HE. split.
        -- intros (id & K1 & HK1 & Hp1 & Hd1). exists id, K1. split; [|done]. rewrite lookup_insert_ne; [done|]. congruence.
        -- intros (id & K1 & [[<- <-]|[_ HK1]]%lookup_insert_Some & Hp1 & Hd1); [congruence|eauto].
Qed.

Lemma ring_of_new : ring_of ∅ (newKeyring true).
Proof.
  constructor; cbn; [done|symmetry; apply fmap_empty| | |constructor|].
  - intros id K HK. by rewrite lookup_empty in HK.
  - intros id id' K K' HK. by rewrite lookup_empty in HK.
  - intros id. rewrite lookup_empty. split; [by intros ?%elem_of_nil|by intros []].
Qed.

Lemma Open_spec s : ks_ok s -> sound (ks_current s) ->
  match Open false s with
  | Ok k => ring_of (ks_current s) k
  | Err e => e = KErrStorage ErrIO \/ (e = KErrElection /\ ~ one_election (ks_current s))
  end.
Proof.
  intros Hok Hs. unfold Open. pose proof (law_ks_load s Hok) as Hl. destruct (LoadValidatorKeys s) as [l|e]; [|left; by subst].
  destruct Hl as [Hnd Hl]. assert (add_keys l ∅ = ks_current s) as <-.
  { apply map_eq. intros id. apply option_eq. intros K. rewrite lookup_add_keys; [|done|by intros; apply lookup_empty].
    rewrite lookup_empty. split.
    - intros [?|[Hin <-]]; [done|by apply Hl].
    - intros HK. right. destruct (Hs id K HK) as [<- _]. split; [by apply Hl|done]. }
  pose proof (Open_loop_spec l ∅ (newKeyring true) ∅ ring_of_new) as Ho. destruct (Open_loop l ∅ (newKeyring true)) as [k|e].
  - apply Ho; [|done|]; [intros K Hin; split; [by apply (Hs (sk_ID K)), Hl|apply lookup_empty]|].
    intros d. rewrite lookup_empty. split; [by intros []|]. by intros (? & ? & HK & _); rewrite lookup_empty in HK.
  - right. apply Ho; [|done|]; [intros K Hin; split; [by apply (Hs (sk_ID K)), Hl|apply lookup_empty]|].
    intros d. rewrite lookup_empty. split; [by intros []|]. by intros (? & ? & HK & _); rewrite lookup_empty in HK.
Qed.

(** ** The operations *)

Definition error_of {A} (r : result keyring_error A) : option keyring_error := match r with Ok _ => None | Err e => Some e end.

(** One call: [e] is the error it returned. *)
Record step_kept M s (e : option keyring_error) M' s' : Prop := {
  sp_covers : forall n m, (ks_synced s <= n)%nat -> ks_versions s' !! n = Some m -> covers M m;
  sp_kept : kept_by M' s';
  sp_grows : covers M M';
  sp_exact : exactly M s -> (forall e', e = Some (KErrStorage e') -> ks_versions s' = ks_versions s) -> exactly M' s';
  sp_openable : exactly M s -> forall n m, (ks_synced s <= n)%nat -> ks_versions s' !! n = Some m -> one_election m }.
Definition step_result M k s e k' s' : Prop := exists M', ring_of M' k' /\ step_kept M s e M' s'.

Lemma covers_refl M : covers M M.
Proof. intros id K HK. exists K. split; [done|apply keeps_key_refl]. Qed.

Lemma no_step M k s e : ring_of M k -> kept_by M s -> step_result M k s e k s.
Proof.
  intros Hr Hk. exists M. split; [done|]. constructor; [apply Hk|done|apply covers_refl|done|].
  intros He n m Hn Hm. rewrite (He n m Hn Hm). apply Hr.
Qed.

Lemma save_step M k s K r s' :
  ring_of M k -> kept_by M s -> stored_ok K -> (forall K0, M !! sk_ID K = Some K0 -> keeps_key K0 K) ->
  one_election (<[sk_ID K := K]> M) -> save (signing_of K) s = (r, s') ->
  step_result M k s (error_of r) (if is_ok r then publish K k else k) s'.
Proof.
  intros Hr Hk HK HM Hone. unfold save. rewrite stored_signing by apply HK. intros E.
  destruct (SaveValidatorKey K s) as [r0 s0] eqn:Es. destruct (save_kept _ _ _ _ _ Hk HK HM Es) as (Hk' & Hc & Hok).
  destruct (law_ks_save _ _ _ _ (kb_ok _ _ Hk) (proj1 HK) Es) as (_ & Hle & (l & Hv & Hl) & _).
  assert (s0 = s') as -> by (by destruct r0; injection E as _ ->).
  assert (exactly M s -> forall n m, (ks_synced s <= n)%nat -> ks_versions s' !! n = Some m -> one_election m) as Hopen.
  { intros He n m Hn. rewrite Hv. intros [Hm|[_ Hm]]%lookup_app_Some; [rewrite (He n m Hn Hm); apply Hr|].
    assert (ks_current s = M) as Hcur.
    { eapply (He (pred (length (ks_versions s)))); [pose proof (law_ks_synced s); lia|]. rewrite <- last_lookup. apply law_ks_current. }
    rewrite Forall_forall in Hl. destruct (Hl m) as [->|[_ ->]]; [by eapply list_elem_of_lookup_2|rewrite Hcur; apply Hr|by rewrite Hcur]. }
  assert (covers M (<[sk_ID K := K]> M)) as Hg.
  { intros id K0 H0'. destruct (decide (id = sk_ID K)) as [->|Hne]; [rewrite lookup_insert_eq; eauto|].
    rewrite lookup_insert_ne by done. exists K0. split; [done|apply keeps_key_refl]. }
  destruct r0 as [[]|e]; injection E as <-; cbn [is_ok error_of].
  - destruct (Hok eq_refl) as [Hk2 He]. exists (<[sk_ID K := K]> M). split; [by apply ring_publish|]. constructor; [done..|by auto|done].
  - exists M. split; [done|]. constructor; [done|done|apply covers_refl| |done]. intros He Hsame n m Hn Hm.
    rewrite (Hsame e eq_refl) in Hm. eapply He; [|done]. lia.
Qed.

Lemma ring_lookup M k id r : ring_of M k -> kr_keys k !! id = Some r ->
  exists K, M !! id = Some K /\ r = signing_of K /\ sk_ID K = id /\ stored_ok K.
Proof.
  intros Hr. rewrite (ro_keys _ _ Hr), lookup_fmap. destruct (M !! id) as [K|] eqn:E; [|done]. intros [= <-].
  destruct (ro_sound _ _ Hr id K E). by exists K.
Qed.

(** A key with other metadata. *)
Definition with_info K (i : KeyInfo) : StoredKey :=
  mkStoredKey (ki_ID i) (sk_Seed K) (ki_Permanent i) (ki_ElectionDate i) (ki_PermanentExpireAt i) (ki_TempExpireAt i)
    (ki_HasADNL i) (ki_ADNLID i) (ki_ADNLExpireAt i).

Lemma replace_step M k s K i r k' s' :
  ring_of M k -> kept_by M s -> M !! sk_ID K = Some K -> ki_ID i = sk_ID K -> stored_ok (with_info K i) ->
  info_keeps (info_of_stored K) i -> one_election (<[sk_ID K := with_info K i]> M) ->
  replace (sk_ID K) (signing_of K <| sg_info := i |>) k s = (r, k', s') -> step_result M k s (error_of r) k' s'.
Proof.
  intros Hr Hk HM Hid HK Hkeep Hone. unfold replace.
  assert (signing_of K <| sg_info := i |> = signing_of (with_info K i)) as -> by (by destruct i).
  destruct (save _ s) as [r0 s0] eqn:Es. intros E.
  assert (step_result M k s (error_of r0) (if is_ok r0 then publish (with_info K i) k else k) s0) as Hs.
  { apply (save_step M k s (with_info K i)); [done|done|done| |by cbn; rewrite Hid|done].
    cbn [with_info sk_ID]. rewrite Hid, HM. intros K0 [= <-]. split; [done|]. split; [done|]. by destruct i. }
  destruct r0 as [[]|e]; injection E as <- <- <-; [|done]. cbn [is_ok error_of] in *. unfold publish in Hs.
  rewrite bool_decide_eq_true_2 in Hs; [cbn [with_info sk_ID] in Hs; by rewrite Hid in Hs|].
  cbn [with_info sk_ID]. rewrite Hid, (ro_keys _ _ Hr), lookup_fmap, HM. cbn. by eauto.
Qed.

Lemma one_election_same M K K' : one_election M -> M !! sk_ID K = Some K ->
  sk_Permanent K = true -> sk_ElectionDate K' = sk_ElectionDate K -> one_election (<[sk_ID K := K']> M).
Proof.
  intros Hone HM Hp Hd id id' K1 K2 [[<- <-]|[_ H1']]%lookup_insert_Some [[<- <-]|[_ H2']]%lookup_insert_Some Hp1 Hp2 E; [done| | |by eapply Hone].
  - eapply (Hone _ _ K K2); try done. congruence.
  - eapply (Hone _ _ K1 K); try done. congruence.
Qed.

Lemma AddPermanent_step M k s ctxErr id date expire r k' s' :
  ring_of M k -> kept_by M s -> is_u32 date -> is_u32 expire ->
  AddPermanent ctxErr id date expire k s = (r, k', s') -> step_result M k s (error_of r) k' s'.
Proof.
  intros Hr Hk Ud Ue. unfold AddPermanent. rewrite (ro_storage _ _ Hr). cbn [negb].
  destruct ctxErr; [intros [= <- <- <-]; by apply no_step|].
  destruct (kr_keys k !! id) as [record|] eqn:El; [|intros [= <- <- <-]; by apply no_step].
  destruct (ring_lookup _ _ _ _ Hr El) as (K & HM & -> & <- & HK).
  destruct (election_taken k (sk_ID K) date) eqn:Et; [intros [= <- <- <-]; by apply no_step|].
  destruct (ki_Permanent _ && negb _) eqn:E1; [intros [= <- <- <-]; by apply no_step|].
  destruct (ki_Permanent _ && (ki_PermanentExpireAt _ =? _)) eqn:E2; [intros [= <- <- <-]; by apply no_step|].
  apply replace_step; [done|done|done|done| | |].
  - destruct HK as (Ht & Hv & Hp). destruct Ht. split; [by constructor|]. split; [|done].
    unfold validateValidatorKey in *. cbn in *. destruct (sk_HasADNL K); [done|]. cbn in *. by destruct (negb (sk_Permanent K) && _).
  - split; cbn; intros Hp; [|done]. split; [done|]. cbn in E1. rewrite Hp in E1. cbn in E1. apply negb_false_iff, Z.eqb_eq in E1. done.
  - unfold election_taken in Et. apply bool_decide_eq_false in Et.
    assert (forall id' K', M !! id' = Some K' -> sk_Permanent K' = true -> sk_ElectionDate K' = date -> id' = sk_ID K) as Hno.
    { intros id' K' HK' Hp' Hd'. destruct (decide (id' = sk_ID K)) as [|Hne]; [done|]. exfalso. apply Et.
      exists id', (signing_of K'). split; [by rewrite (ro_keys _ _ Hr), lookup_fmap, HK'|done]. }
    intros id1 id2 K1 K2 [[<- <-]|[_ H1']]%lookup_insert_Some [[<- <-]|[_ H2']]%lookup_insert_Some Hp1 Hp2 E; [done| | |by eapply (ro_election _ _ Hr)].
    + symmetry. by eapply (Hno id2 K2).
    + by eapply (Hno id1 K1).
Qed.

Lemma update_step M k s ctxErr id apply r k' s' :
  ring_of M k -> kept_by M s ->
  (forall K i, M !! id = Some K -> sk_ID K = id -> stored_ok K -> apply (info_of_stored K) = Ok i ->
    sk_Permanent K = true /\ stored_ok (with_info K i) /\ info_keeps (info_of_stored K) i /\ ki_ID i = id) ->
  update ctxErr id apply k s = (r, k', s') -> step_result M k s (error_of r) k' s'.
Proof.
  intros Hr Hk Ha. unfold update. rewrite (ro_storage _ _ Hr). cbn [negb].
  destruct ctxErr; [intros [= <- <- <-]; by apply no_step|].
  destruct (kr_keys k !! id) as [record|] eqn:El; [|intros [= <- <- <-]; by apply no_step].
  destruct (ring_lookup _ _ _ _ Hr El) as (K & HM & -> & <- & HK). cbn [signing_of sg_info].
  destruct (apply (info_of_stored K)) as [i|e] eqn:Ei; [|intros [= <- <- <-]; by apply no_step].
  case_bool_decide; [intros [= <- <- <-]; by apply no_step|]. destruct (Ha K i HM eq_refl HK Ei) as (Hp & HK' & Hkeep & Hid).
  apply replace_step; [done..|]. apply one_election_same; [apply Hr|done|done|]. by apply Hkeep.
Qed.

Lemma AddTemp_step M k s ctxErr pid id expire r k' s' :
  ring_of M k -> kept_by M s -> is_u32 expire ->
  AddTemp ctxErr pid id expire k s = (r, k', s') -> step_result M k s (error_of r) k' s'.
Proof.
  intros Hr Hk Ue. unfold AddTemp. destruct (negb _); [intros [= <- <- <-]; by apply no_step|].
  apply update_step; [done|done|]. intros K i HM Hid (Ht & Hv & Hpk). cbn. destruct (sk_Permanent K) eqn:Hp; [|done]. intros [= <-].
  destruct Ht. split; [done|]. split; [split; [by constructor|split; [|done]]|split; [by split|done]].
  unfold validateValidatorKey in *. cbn in *. rewrite Hp in *. done.
Qed.

Lemma AddADNL_step M k s ctxErr id adnl expire r k' s' :
  ring_of M k -> kept_by M s -> is_u32 expire -> length adnl = 32%nat ->
  AddADNL ctxErr id adnl expire k s = (r, k', s') -> step_result M k s (error_of r) k' s'.
Proof.
  intros Hr Hk Ue Hl. unfold AddADNL. apply update_step; [done|done|]. intros K i HM Hid (Ht & Hv & Hpk). cbn.
  destruct (sk_Permanent K) eqn:Hp; [|done]. cbn. destruct (sk_HasADNL K && _) eqn:Ea; [done|]. intros [= <-].
  destruct Ht. split; [done|]. split; [split; [by constructor|split; [|done]]|split; [split|done]].
  - unfold validateValidatorKey in *. cbn in *. by rewrite Hp in *.
  - done.
  - cbn. intros HA. rewrite HA in Ea. cbn in Ea. by apply negb_false_iff, bool_decide_eq_true in Ea.
Qed.

Lemma Generate_step M k s ctxErr draws r k' s' :
  ring_of M k -> kept_by M s -> (forall seed, Some seed ∈ draws -> length seed = 32%nat) ->
  Generate ctxErr draws k s = Some (r, k', s') -> step_result M k s (error_of r) k' s'.
Proof.
  intros Hr Hk Hd. unfold Generate. rewrite (ro_storage _ _ Hr). cbn [negb].
  destruct ctxErr; [intros [= <- <- <-]; by apply no_step|].
  induction draws as [|[seed|] draws IH]; cbn [Generate_loop]; [done| |intros [= <- <- <-]; by apply no_step].
  destruct (publicKeyID (ed25519_public seed)) as [id|e] eqn:Eid; [|intros [= <- <- <-]; by apply no_step].
  case_bool_decide as Hb; [apply IH; intros; apply Hd; by right|]. set (K := mkStoredKey id seed false 0 0 0 false zeroHash 0).
  change (mkSigningKey _ _ _) with (signing_of K). destruct (save (signing_of K) s) as [r0 s0] eqn:Es. intros E.
  assert (M !! id = None) as HM.
  { destruct (M !! id) eqn:EM; [|done]. exfalso. apply Hb. rewrite (ro_keys _ _ Hr), lookup_fmap, EM. cbn. by eauto. }
  assert (step_result M k s (error_of r0) (if is_ok r0 then publish K k else k) s0) as Hs.
  { apply (save_step M k s K); [done|done| | | |done].
    - split; [|split; [done|exact Eid]]. constructor; cbn; [by apply publicKeyID_length in Eid as []|apply Hd; left|done|unfold is_u32; lia..].
    - cbn. rewrite HM. done.
    - cbn. intros id1 id2 K1 K2 [[<- <-]|[_ H1']]%lookup_insert_Some [[<- <-]|[_ H2']]%lookup_insert_Some Hp1 Hp2 Ee; try done.
      by eapply (ro_election _ _ Hr). }
  destruct r0 as [u|e]; injection E as <- <- <-; [|done]. cbn [is_ok error_of] in *. unfold publish in Hs.
  rewrite bool_decide_eq_false_2 in Hs; [exact Hs|done].
Qed.

(** ** Runs *)

(** A call of the keyring and the error it returned. *)
Inductive ring_step : Keyring -> ks_state -> option keyring_error -> Keyring -> ks_state -> Prop :=
| step_generate ctxErr draws k s r k' s' :
    (forall seed, Some seed ∈ draws -> length seed = 32%nat) -> Generate ctxErr draws k s = Some (r, k', s') ->
    ring_step k s (error_of r) k' s'
| step_permanent ctxErr id date expire k s r k' s' :
    is_u32 date -> is_u32 expire -> AddPermanent ctxErr id date expire k s = (r, k', s') -> ring_step k s (error_of r) k' s'
| step_temp ctxErr pid id expire k s r k' s' :
    is_u32 expire -> AddTemp ctxErr pid id expire k s = (r, k', s') -> ring_step k s (error_of r) k' s'
| step_adnl ctxErr id adnl expire k s r k' s' :
    is_u32 expire -> length adnl = 32%nat -> AddADNL ctxErr id adnl expire k s = (r, k', s') ->
    ring_step k s (error_of r) k' s'.

(** A storage just opened, holding keys whose ids are those of their seeds. *)
Definition opened s : Prop := ks_ok s /\ ks_versions s = [ks_current s] /\ sound (ks_current s).

(** [clean] when no save that was reported as failed reached the storage. *)
Inductive ring_runs : bool -> Keyring -> ks_state -> Prop :=
| ring_open s k : opened s -> Open false s = Ok k -> ring_runs true k s
| ring_call clean clean' k s e k' s' :
    ring_runs clean k s -> ring_step k s e k' s' ->
    (clean' = true -> clean = true /\ forall e', e = Some (KErrStorage e') -> ks_versions s' = ks_versions s) ->
    ring_runs clean' k' s'.

Lemma ring_step_kept M k s e k' s' : ring_of M k -> kept_by M s -> ring_step k s e k' s' -> step_result M k s e k' s'.
Proof.
  intros Hr Hk Hst. destruct Hst as [???????? E|??????????? E|?????????? E|??????????? E].
  - by eapply Generate_step in E.
  - by eapply AddPermanent_step in E.
  - by eapply AddTemp_step in E.
  - by eapply AddADNL_step in E.
Qed.

Lemma ring_runs_kept clean k s : ring_runs clean k s ->
  exists M, ring_of M k /\ kept_by M s /\ (clean = true -> exactly M s).
Proof.
  induction 1 as [s k (Hok & Hv & Hs) Ho|clean clean' k s e k' s' _ (M & Hr & Hk & He) Hst Hc].
  - pose proof (Open_spec s Hok Hs) as Hr. rewrite Ho in Hr. exists (ks_current s). split; [done|].
    assert (exactly (ks_current s) s) as He.
    { intros n m _. rewrite Hv. by intros ->%list_elem_of_lookup_2%list_elem_of_singleton. }
    split; [|done]. constructor; [done| |].
    + rewrite Hv. by intros m ->%list_elem_of_singleton.
    + intros n m Hn Hm. rewrite (He n m Hn Hm). apply covers_refl.
  - destruct (ring_step_kept _ _ _ _ _ _ Hr Hk Hst) as (M' & Hr' & [_ Hk' _ He' _]). exists M'. do 2 (split; [done|]).
    intros ->. destruct (Hc eq_refl) as [-> Hq]. by auto.
Qed.

Lemma reopened_sound M s s' s'' : kept_by M s -> (s' = s \/ exists M', kept_by M' s') -> ks_reopen s s' s'' ->
  opened s'' /\ exists n, (ks_synced s <= n)%nat /\ ks_versions s' !! n = Some (ks_current s'').
Proof.
  intros Hk Hs' Hre. assert (exists M', kept_by M' s') as [M' Hk'] by (destruct Hs' as [->|]; eauto).
  destruct (law_ks_reopen _ _ _ (kb_ok _ _ Hk) (kb_ok _ _ Hk') Hre) as (Hok & n & m & Hn & Hm & Hv).
  pose proof (law_ks_current s'') as Hl. rewrite Hv in Hl. injection Hl as ->. split; [|eauto].
  split; [done|]. split; [done|]. eapply kb_sound; [done|]. by eapply list_elem_of_lookup_2.
Qed.

(** C18: the keyring's keys survive the process.  If the process ends at any time,
    also in the middle of a call, and the reopened storage is opened as a keyring,
    that keyring has every key the old one had published, with the same key pair,
    and keeps the elections and ADNL addresses given; [Open] fails only on an I/O
    error or on two keys of one election. *)
Theorem keys_survive clean k s e k' s' s'' :
  ring_runs clean k s -> (ring_step k s e k' s' \/ s' = s) -> ks_reopen s s' s'' ->
  opened s'' /\
  match Open false s'' with
  | Ok k'' => forall id r, kr_keys k !! id = Some r -> exists r', kr_keys k'' !! id = Some r' /\
      sg_private r' = sg_private r /\ sg_public r' = sg_public r /\ info_keeps (sg_info r) (sg_info r')
  | Err e => e = KErrStorage ErrIO \/ e = KErrElection
  end.
Proof.
  intros (M & Hr & Hk & _)%ring_runs_kept Hst Hre.
  assert (exists M', kept_by M' s' /\ forall n m, (ks_synced s <= n)%nat -> ks_versions s' !! n = Some m -> covers M m) as (M' & Hk' & Hc).
  { destruct Hst as [Hst| ->]; [|exists M; split; [done|apply Hk]].
    destruct (ring_step_kept _ _ _ _ _ _ Hr Hk Hst) as (M' & _ & Hs). exists M'. split; apply Hs. }
  destruct (reopened_sound M s s' s'' Hk (or_intror (ex_intro _ M' Hk')) Hre) as ((Hok & Hv & Hs) & n & Hn & Hm).
  split; [done|]. pose proof (Open_spec s'' Hok Hs) as Ho. destruct (Open false s'') as [k''|er]; [|tauto].
  intros id r Hl. destruct (ring_lookup _ _ _ _ Hr Hl) as (K & HM & -> & _ & _). destruct (Hc n _ Hn Hm id K HM) as (K' & HK' & _ & Es & Hi).
  exists (signing_of K'). split; [by rewrite (ro_keys _ _ Ho), lookup_fmap, HK'|]. cbn. by rewrite Es.
Qed.

(** C20: after calls whose failed saves, if any, did not reach the storage, the
    keyring opened again is the old one, or, when the process ended in a call, one
    that call could leave: [Open] never refuses it. *)
Theorem restart_restores k s e k' s' s'' :
  ring_runs true k s -> (ring_step k s e k' s' \/ s' = s) -> ks_reopen s s' s'' ->
  match Open false s'' with
  | Ok k'' => s' = s -> kr_keys k'' = kr_keys k
  | Err e => e = KErrStorage ErrIO
  end.
Proof.
  intros (M & Hr & Hk & He)%ring_runs_kept Hst Hre. specialize (He eq_refl).
  assert (exists M', kept_by M' s' /\ forall n m, (ks_synced s <= n)%nat -> ks_versions s' !! n = Some m -> one_election m) as (M' & Hk' & Hone).
  { destruct Hst as [Hst| ->].
    - destruct (ring_step_kept _ _ _ _ _ _ Hr Hk Hst) as (M' & _ & Hs). exists M'. split; [apply Hs|by apply (sp_openable _ _ _ _ _ Hs)].
    - exists M. split; [done|]. intros n m Hn Hm. rewrite (He n m Hn Hm). apply Hr. }
  destruct (reopened_sound M s s' s'' Hk (or_intror (ex_intro _ M' Hk')) Hre) as ((Hok & Hv & Hs) & n & Hn & Hm).
  pose proof (Open_spec s'' Hok Hs) as Ho. destruct (Open false s'') as [k''|er].
  - intros ->. by rewrite (ro_keys _ _ Ho), (ro_keys _ _ Hr), (He n _ Hn Hm).
  - destruct Ho as [?|[_ Hno]]; [done|]. exfalso. by eapply Hno, Hone.
Qed.

(** C19: what a keyring signs verifies.  [Sign] and [PublicKeyFor] know the same ids;
    the public key of an id hashes to it and verifies every signature made under
    it; the ids listed are distinct, and no two permanent keys share an election. *)
Theorem keyring_signs clean k s :
  ring_runs clean k s ->
  (forall id payload,
    match PublicKeyFor id k, Sign id payload k with
    | Ok public, Ok signature => KeyNodeIDShort public = Some id /\ ed25519_Verify public payload signature = true
    | Err e, Err e' => e = KErrNotFound /\ e' = KErrNotFound /\ id ∉ (ki_ID <$> Entries k)
    | _, _ => False
    end) /\
  NoDup (ki_ID <$> Entries k) /\
  KeyIDs k = ki_ID <$> filter (fun i => ki_Permanent i = true) (Entries k) /\
  (forall i i', i ∈ Entries k -> i' ∈ Entries k -> ki_Permanent i = true -> ki_Permanent i' = true ->
    ki_ElectionDate i = ki_ElectionDate i' -> i = i').
Proof.
  intros (M & Hr & _ & _)%ring_runs_kept.
  assert (forall id, id ∈ kr_order k -> exists K, M !! id = Some K /\ sk_ID K = id /\ info_at k id = info_of_stored K) as Hat.
  { intros id Hid. apply (ro_order _ _ Hr) in Hid as [K HK]. exists K. split; [done|]. split; [by apply (ro_sound _ _ Hr)|].
    unfold info_at. by rewrite (ro_keys _ _ Hr), lookup_fmap, HK. }
  assert (ki_ID <$> Entries k = kr_order k) as Hids.
  { unfold Entries. rewrite <- list_fmap_compose. rewrite <- (list_fmap_id (kr_order k)) at 2. apply list_fmap_ext. intros i id Hi.
    apply list_elem_of_lookup_2, Hat in Hi as (K & _ & <- & E). cbn. by rewrite E. }
  split_and!.
  - intros id payload. unfold PublicKeyFor, Sign. destruct (kr_keys k !! id) as [r|] eqn:El.
    + destruct (ring_lookup _ _ _ _ Hr El) as (K & _ & -> & <- & Ht & _ & Hp). cbn.
      split; [by apply publicKeyID_length in Hp as [_ ?]|apply law_sign; apply Ht].
    + do 2 (split; [done|]). rewrite Hids, (ro_order _ _ Hr). intros [K HK]. rewrite (ro_keys _ _ Hr), lookup_fmap, HK in El. done.
  - rewrite Hids. apply Hr.
  - clear Hids. unfold KeyIDs, Entries. induction (kr_order k) as [|id l IH]; [done|]. cbn [fmap list_fmap]. rewrite !filter_cons.
    destruct (Hat id) as (K & _ & E & EK); [left|]. rewrite IH by (intros; apply Hat; by right).
    case_decide; [|done]. cbn [fmap list_fmap]. f_equal. by rewrite EK, <- E.
  - intros i i' (id & -> & Hid)%list_elem_of_fmap (id' & -> & Hid')%list_elem_of_fmap Hp Hp' Hd.
    destruct (Hat _ Hid) as (K & HK & E1 & EK). destruct (Hat _ Hid') as (K' & HK' & E2 & EK'). rewrite EK, EK' in *.
    assert (id = id') as ->; [|congruence]. by eapply (ro_election _ _ Hr).
Qed.
End Rings.
