(* ===== verification/StoreSession.v ===== *)
(** * Session records of the validator store ([src/service/validator/storage.go] and,
      in [src/service/validator/pebblestore], [ensureSession] of [store.go],
      [summary.go], [session.go] and [sessions.go])

    A session owns a namespace of keys: its descriptor, a summary with counters,
    and the records of the kinds in [keys.go].  The bodies of the write requests
    are transactions over a batch, the reads work on a snapshot.  Contexts are
    taken not to expire.  [TLDbId] stands for the two functions of the TL library
    that [SessionStorageID.Namespace] calls. *)

From S2P Require Import Prelude.
From S2P Require Import SimplexTypes.
From S2P Require Import Sha256.
From S2P Require Import StoreKeys.
From S2P Require Import StoreCodec.
From S2P Require Import Pebble.
From S2P Require Import StoreWriter.

#[local] Open Scope Z_scope.

(** [tl.CRC] of the [consensus.dbId] schema and the bytes [tl.AppendBool] appends. *)
Class TLDbId := { consensusDBIDConstructorID : Z; tl_Bool : bool -> bytes }.

(** ** Namespaces *)

Section Namespaces.
Context `{TLDbId}.

Definition dbid_wire (id : SessionStorageID) : bytes :=
  le_put 4 consensusDBIDConstructorID ++ ss_SessionID id ++ tl_Bool (ss_IsValidator id) ++
  ss_ValidatorKeyID id ++ ss_LocalADNLID id.
Definition Namespace (id : SessionStorageID) : option bytes :=
  if SessionStorageID_Validate id then Some (sha256 (dbid_wire id)) else None.

Definition namespaceForSession (id : SessionStorageID) : option bytes :=
  dbID ← Namespace id;
  Some (le_put 4 (u32 (sh_Workchain (ss_Shard id))) ++ le_put 8 (u64 (sh_Shard (ss_Shard id))) ++
        le_put 4 (ss_CatchainSeqno id) ++ dbID).
End Namespaces.

(** ** Bodies of the write requests *)

Section Bodies.
Context `{Pebble} {W : Type}.

Definition saveSessionSummary (ns : bytes) (s : sessionSummary) : Tx W unit :=
  tx_Set (summaryKey ns) (encodeSessionSummary s).
Definition loadSessionSummary (ns : bytes) : Tx W (option sessionSummary) :=
  value ← getBatchCopy (summaryKey ns);
  match value with
  | None => mret None
  | Some value => s ← tx_of Fatal (decodeSessionSummary value); mret (Some s)
  end.
Definition incrementSummaryCount (count : Z) : Tx W Z :=
  if count =? 2 ^ 64 - 1 then tx_fatal ErrOverflow else mret (count + 1).

Definition ensureSession (id : SessionStorageID) (ns : bytes) : Tx W sessionSummary :=
  stored ← getBatchCopy (sessionKey ns);
  match stored with
  | None =>
      _ ← tx_Set (sessionKey ns) (encodeSessionID id);
      _ ← saveSessionSummary ns emptySummary;
      mret emptySummary
  | Some stored =>
      if negb (bool_decide (stored = encodeSessionID id)) then
        match decodeSessionID stored with
        | Err e => tx_reject (ErrRecord e)
        | Ok _ => tx_reject ErrSessionConflict
        end
      else
        summary ← loadSessionSummary ns;
        match summary with
        | None => tx_reject ErrSummaryMissing
        | Some summary => mret summary
        end
  end.

Definition markFinalized_body (session : SessionStorageID) (ns : bytes) (id : CandidateID) : Tx W unit :=
  summary ← ensureSession session ns;
  stored ← getBatchCopy (finalizedKey ns id);
  match stored with
  | Some _ => mret tt
  | None =>
      _ ← tx_Set (finalizedKey ns id) [];
      n ← incrementSummaryCount (su_finalized summary);
      let summary := summary <| su_finalized := n |> in
      let isLast := match su_lastFinalized summary with None => true | Some last => candidateIDLess last id end in
      saveSessionSummary ns (if isLast then summary <| su_lastFinalized := Some id |> else summary)
  end.

Definition recordLeaderWindow_body (session : SessionStorageID) (ns : bytes) (window : LeaderWindowRecord) : Tx W unit :=
  summary ← ensureSession session ns;
  let advances := match su_lastLeaderWindow summary with
    None => true | Some last => lw_StartSlot last <? lw_StartSlot window end in
  n ← (if (advances : bool) then incrementSummaryCount (su_leaderWindows summary) else mret (su_leaderWindows summary));
  let summary := summary <| su_leaderWindows := n |> in
  let replaces := match su_lastLeaderWindow summary with
    None => true | Some last => lw_StartSlot last <=? lw_StartSlot window end in
  saveSessionSummary ns (if replaces then summary <| su_lastLeaderWindow := Some window |> else summary).

Definition saveDelegation_body (session : SessionStorageID) (ns : bytes) (a : DelegationAuthorization) (value : bytes) :
    Tx W unit :=
  _ ← ensureSession session ns;
  stored ← getBatchCopy (delegationAuthorizationKey ns (da_StartSlot a));
  match stored with
  | Some stored =>
      if bool_decide (stored = value) then mret tt
      else
        b ← tx_of Rejected (decodeDelegationAuthorization stored);
        if negb (da_StartSlot b =? da_StartSlot a) then tx_reject ErrCorrupt else tx_reject ErrDelegationConflict
  | None => tx_Set (delegationAuthorizationKey ns (da_StartSlot a)) value
  end.

(** The prefixes [DeleteSession] removes, besides the descriptor. *)
Definition deletePrefixes (ns : bytes) : list bytes :=
  [votePrefix ns; poolStateKey ns; candidateIndexPrefix ns; candidateContentPrefix ns; finalizedPrefix ns;
   leaderWindowPrefix ns; acceptedProofPrefix ns; delegationAuthorizationPrefix ns; summaryKey ns].
Fixpoint delete_prefixes (prefixes : list bytes) : Tx W unit :=
  match prefixes with
  | [] => mret tt
  | prefix :: prefixes =>
      _ ← tx_DeleteRange (prefixBounds prefix).1 (prefixBounds prefix).2; delete_prefixes prefixes
  end.

(** [closeNamespace] is the writer's part of the candidate packs. *)
Definition deleteSession_body (closeNamespace : Tx W unit) (session : SessionStorageID) (ns : bytes) : Tx W unit :=
  stored ← getBatchCopy (sessionKey ns);
  match stored with
  | None => tx_reject ErrRecordNotFound
  | Some stored =>
      storedID ← tx_of Fatal (decodeSessionID stored);
      if negb (bool_decide (storedID = session)) then tx_reject ErrSessionConflict
      else
        summary ← getBatchCopy (summaryKey ns);
        match summary with
        | None => tx_fatal ErrSummaryMissing
        | Some summary =>
            _ ← tx_of Fatal (decodeSessionSummary summary);
            _ ← delete_prefixes (deletePrefixes ns);
            _ ← tx_Delete (sessionKey ns);
            closeNamespace
        end
  end.
End Bodies.

(** ** Reads of a snapshot *)

Section Reads.
Context `{Pebble}.

Definition readerGetCopy (db : DB) (key : bytes) : result store_error (option bytes) :=
  match db_Get db key with
  | Found v => Ok (Some v)
  | NotFound => Ok None
  | ReadFailed => Err ErrIO
  end.
Definition codec {A} (r : result codec_error A) : result store_error A :=
  match r with Ok a => Ok a | Err e => Err (ErrRecord e) end.

Definition validateStoredDescriptor (db : DB) (expected : SessionStorageID) (ns : bytes) : result store_error unit :=
  and_then (readerGetCopy db (sessionKey ns)) (fun stored =>
  match stored with
  | None => Err ErrRecordNotFound
  | Some stored =>
      and_then (codec (decodeSessionID stored)) (fun storedID =>
      if negb (bool_decide (storedID = expected)) then Err ErrSessionConflict
      else
        and_then (readerGetCopy db (summaryKey ns)) (fun summary =>
        match summary with
        | None => Err ErrSummaryMissing
        | Some summary => and_then (codec (decodeSessionSummary summary)) (fun _ => Ok tt)
        end))
  end).

(** [iteratePrefix] with the visitor [visit] and its accumulator: an error of the
    visitor wins over one of the iterator. *)
Fixpoint visit_rows {A} (visit : A -> bytes -> bytes -> result store_error A) (acc : A) (l : list (bytes * bytes)) :
    result store_error A :=
  match l with
  | [] => Ok acc
  | (k, v) :: l => and_then (visit acc k v) (fun acc => visit_rows visit acc l)
  end.
Definition iteratePrefix {A} (db : DB) (prefix : bytes) (visit : A -> bytes -> bytes -> result store_error A) (acc : A) :
    result store_error A :=
  match db_Iter db (prefixBounds prefix).1 (prefixBounds prefix).2 with
  | None => Err ErrIO
  | Some (l, failed) => and_then (visit_rows visit acc l) (fun acc => if (failed : bool) then Err ErrIO else Ok acc)
  end.

Definition loadCandidateIDs (db : DB) (ns : bytes) : result store_error (list CandidateID) :=
  let prefix := candidateIndexPrefix ns in
  iteratePrefix db prefix (fun ids key value =>
    match candidateIDFromKey key prefix with
    | None => Err ErrCorrupt
    | Some id => and_then (codec (decodeCandidatePackPointer value)) (fun _ => Ok (ids ++ [id]))
    end) [].
Definition loadFinalized (db : DB) (ns : bytes) : result store_error (list CandidateID) :=
  let prefix := finalizedPrefix ns in
  iteratePrefix db prefix (fun ids key _ =>
    match candidateIDFromKey key prefix with
    | None => Err ErrCorrupt
    | Some id => Ok (ids ++ [id])
    end) [].

(** [StoredSessionState] without the descriptor it repeats. *)
Record StoredSessionState := mkStoredState { st_CandidateIDs : list CandidateID; st_Finalized : list CandidateID }.
Definition LoadSession (db : DB) (session : SessionStorageID) (ns : bytes) : result store_error StoredSessionState :=
  and_then (validateStoredDescriptor db session ns) (fun _ =>
  and_then (loadCandidateIDs db ns) (fun candidates =>
  and_then (loadFinalized db ns) (fun finalized => Ok (mkStoredState candidates finalized)))).

Definition DelegationAuthorization_read (db : DB) (session : SessionStorageID) (ns : bytes) (startSlot : Z) :
    result store_error DelegationAuthorization :=
  and_then (validateStoredDescriptor db session ns) (fun _ =>
  and_then (readerGetCopy db (delegationAuthorizationKey ns startSlot)) (fun value =>
  match value with
  | None => Err ErrRecordNotFound
  | Some value =>
      and_then (codec (decodeDelegationAuthorization value)) (fun a =>
      if negb (da_StartSlot a =? startSlot) then Err ErrCorrupt else Ok a)
  end)).
End Reads.

Section SessionIDs.
Context `{Pebble} `{TLDbId}.
Definition enumerateSessionIDs (db : DB) : result store_error (list SessionStorageID) :=
  iteratePrefix db [keySession] (fun ids key value =>
    if negb (length key =? 1 + 48)%nat then Err ErrCorrupt
    else
      and_then (codec (decodeSessionID value)) (fun id =>
      match namespaceForSession id with
      | None => Err ErrCorrupt
      | Some ns => if negb (bool_decide (drop 1 key = ns)) then Err ErrCorrupt else Ok (ids ++ [id])
      end)) [].
End SessionIDs.
