(* ===== verification/CollatorStore.v ===== *)
(** * The collator's records ([collator_store.go] and [collator_status.go] of
      [src/service/validator/pebblestore])

    The collator keeps a record per session and, for every candidate it signs, a
    marker.  Both are requests of the writer in [StoreWriter.v]; the database is
    shared with the consensus records.  A gate with the sessions being deleted and
    those deleted stands before the queue.  Signature checks may panic ([None]) as
    the TL serializer does; a panic ends the process, so what its batch wrote is
    never committed, as after a fatal error.  [bytes.Clone] of the caller's slices
    is the identity here: values are not shared. *)

From S2P Require Import Prelude.
From S2P Require Import SimplexTypes.
From S2P Require Import SimplexWire.
From S2P Require Import SimplexCert.
From S2P Require Import SimplexState.
From S2P Require Import SimplexCandidate.
From S2P Require Import StoreKeys.
From S2P Require Import StoreCodec.
From S2P Require Import CollatorCodec.
From S2P Require Import Pebble.
From S2P Require Import StoreWriter.
From S2P Require Import StoreSession.

#[local] Open Scope Z_scope.

(** ** Validation of a marker *)

Definition candidateSlotInWindow (session : Session) (record : CandidateRecord) : bool :=
  let endSlot := wid_StartSlot (cm_WindowID record) + cs_SlotsPerLeaderWindow session in
  (wid_StartSlot (cm_WindowID record) <=? cid_Slot (cm_ID record)) && (cid_Slot (cm_ID record) <? endSlot).

(** The leader's index; [None] when the number of validators is zero modulo
    [2^32], where the remainder panics. *)
Definition validateCandidateSessionBoundary (session : SessionRecord) (record : CandidateRecord) :
    option (result store_error Z) :=
  let update := sr_Update session in
  let slots := cs_SlotsPerLeaderWindow (sr_Session session) in
  let start := wid_StartSlot (cm_WindowID record) in
  if bool_decide (sr_Activation session = None) || (slots =? 0) ||
     (length (cs_Validators (sr_Session session)) =? 0)%nat || negb (up_HasCurrentWindow update) ||
     negb (up_CurrentWindowStart update =? start) ||
     negb (up_CurrentWindowObservedSlot update =? up_CurrentWindowStart update) ||
     negb (start mod slots =? 0) || negb (candidateSlotInWindow (sr_Session session) record)
  then Some (Err ErrCandidateConflict)
  else
    let validators := u32 (Z.of_nat (length (cs_Validators (sr_Session session)))) in
    if validators =? 0 then None
    else
      let leader := start / slots mod validators in
      if negb (cm_Leader record =? leader) then Some (Err ErrCandidateConflict) else Some (Ok leader).

Section Markers.
Context `{TLRuntime} `{Ed25519}.

Definition validateDelegatedCandidateMarker (session : SessionRecord) (record : CandidateRecord) :
    option (result store_error unit) :=
  boundary ← validateCandidateSessionBoundary session record;
  match boundary with
  | Err e => Some (Err e)
  | Ok leader =>
      collatorID ← KeyNodeIDShort (cm_DelegationKey record);
      validator ← cs_Validators (sr_Session session) !! Z.to_nat leader;
      delegated ← VerifyDelegationSignature (sv_PublicKey validator) (cs_ID (sr_Session session))
        (wid_StartSlot (cm_WindowID record)) collatorID (cm_DelegationSignature record);
      if negb delegated then Some (Err ErrCandidateConflict)
      else
        signed ← VerifyCandidateSignature (cm_DelegationKey record) (cs_ID (sr_Session session)) (cm_ID record)
          (cm_Signature record);
        if negb signed then Some (Err ErrCandidateConflict) else Some (Ok tt)
  end.

Definition validateSelfCandidateMarker (session : SessionRecord) (record : CandidateRecord) :
    option (result store_error unit) :=
  boundary ← validateCandidateSessionBoundary session record;
  match boundary with
  | Err e => Some (Err e)
  | Ok leader =>
      if negb (bool_decide (cm_DelegationKey record = zeroHash)) || negb (length (cm_DelegationSignature record) =? 0)%nat
      then Some (Err ErrCandidateConflict)
      else
        validator ← cs_Validators (sr_Session session) !! Z.to_nat leader;
        signed ← VerifyCandidateSignature (sv_PublicKey validator) (cs_ID (sr_Session session)) (cm_ID record)
          (cm_Signature record);
        if negb signed then Some (Err ErrCandidateConflict) else Some (Ok tt)
  end.
End Markers.

(** ** Bodies of the requests *)

Section Bodies.
Context `{Pebble} {W : Type}.

(** A check made by an [apply] function: its errors reject the request.  [None], a
    panic that would end the process, fails the whole batch. *)
Definition tx_check {A} (r : option (result store_error A)) : Tx W A :=
  match r with
  | None => tx_fatal ErrPanic
  | Some (Err e) => tx_reject e
  | Some (Ok a) => mret a
  end.

Definition collatorSessionFromBatch (sessionID : bytes) : Tx W SessionRecord :=
  value ← getBatchCopy (collatorSessionKey sessionID);
  match value with
  | None => tx_reject ErrRecordNotFound
  | Some value =>
      record ← tx_of Rejected (decodeCollatorSessionRecord value);
      if negb (bool_decide (cs_ID (sr_Session record) = sessionID)) then tx_reject ErrCorrupt else mret record
  end.

(** The loop of [validateCandidateWindowAuthority] over the rows of the window. *)
Fixpoint authority_loop (record : CandidateRecord) (l : list (bytes * bytes)) : result store_error unit :=
  match l with
  | [] => Ok tt
  | (_, value) :: l =>
      match decodeCollatorCandidateRecord value with
      | Err e => Err (ErrRecord e)
      | Ok stored =>
          if negb (bool_decide (cm_WindowID stored = cm_WindowID record)) ||
             negb (cm_Authority stored =? cm_Authority record) || negb (cm_Leader stored =? cm_Leader record)
          then Err ErrCandidateConflict
          else if (cm_Authority record =? CandidateAuthorityDelegated) &&
             (negb (bool_decide (cm_DelegationKey stored = cm_DelegationKey record)) ||
              negb (bool_decide (cm_DelegationSignature stored = cm_DelegationSignature record)))
          then Err ErrCandidateConflict
          else authority_loop record l
      end
  end.
Definition validateCandidateWindowAuthority (record : CandidateRecord) : Tx W unit := fun s =>
  let bounds := prefixBounds (collatorCandidatePrefix (cm_WindowID record)) in
  match batch_Iter s.1 bounds.1 bounds.2 with
  | None => (Err (Fatal ErrIO), s)
  | Some (l, failed) =>
      match authority_loop record l with
      | Err e => (Err (Rejected e), s)
      | Ok _ => if (failed : bool) then (Err (Fatal ErrIO), s) else (Ok tt, s)
      end
  end.

Definition saveSession_body (record : SessionRecord) (value : bytes) : Tx W unit :=
  let key := collatorSessionKey (cs_ID (sr_Session record)) in
  stored ← getBatchCopy key;
  match stored with
  | None => tx_Set key value
  | Some storedValue =>
      if bool_decide (storedValue = value) then mret tt
      else
        stored ← tx_of Fatal (decodeCollatorSessionRecord storedValue);
        if negb (Session_Equal (sr_Session stored) (sr_Session record)) then tx_reject ErrSessionConflict
        else if
          match sr_Activation stored, sr_Activation record with
          | None, _ => false
          | Some _, None => true
          | Some a, Some b => negb (SessionActivation_Equal a b)
          end then tx_reject ErrSessionConflict
        else if negb (ValidateSessionUpdateAdvance (sr_Update stored) (sr_Update record)) then tx_reject ErrSessionConflict
        else tx_Set key value
  end.

Context `{TLRuntime} `{Ed25519}.
Definition saveMarker_body (record : CandidateRecord) (value : bytes) : Tx W unit :=
  session ← collatorSessionFromBatch (wid_SessionID (cm_WindowID record));
  _ ← validateCandidateWindowAuthority record;
  let key := collatorCandidateKey (cm_WindowID record) (cid_Slot (cm_ID record)) in
  stored ← getBatchCopy key;
  match stored with
  | Some stored =>
      if bool_decide (stored = value) then mret tt
      else
        storedRecord ← tx_of Rejected (decodeCollatorCandidateRecord stored);
        if collatorCandidateRecordsEqual storedRecord record then mret tt else tx_reject ErrCandidateConflict
  | None =>
      _ ← (if cm_Authority record =? CandidateAuthorityDelegated then
             tx_check (validateDelegatedCandidateMarker session record)
           else if cm_Authority record =? CandidateAuthoritySelf then
             tx_check (validateSelfCandidateMarker session record)
           else tx_reject ErrCandidateConflict);
      tx_Set key value
  end.

Definition deleteCollatorSession_body (sessionID : bytes) : Tx W unit :=
  value ← getBatchCopy (collatorSessionKey sessionID);
  match value with
  | None => tx_reject ErrRecordNotFound
  | Some value =>
      record ← tx_of Fatal (decodeCollatorSessionRecord value);
      if negb (bool_decide (cs_ID (sr_Session record) = sessionID)) then tx_fatal ErrCorrupt
      else
        _ ← delete_prefixes [collatorCandidateSessionPrefix sessionID];
        tx_Delete (collatorSessionKey sessionID)
  end.
End Bodies.

(** ** Reads *)

Section Reads.
Context `{Pebble}.

Definition Session_read (db : DB) (sessionID : bytes) : result store_error SessionRecord :=
  and_then (readerGetCopy db (collatorSessionKey sessionID)) (fun value =>
  match value with
  | None => Err ErrRecordNotFound
  | Some value =>
      and_then (codec (decodeCollatorSessionRecord value)) (fun record =>
      if negb (bool_decide (cs_ID (sr_Session record) = sessionID)) then Err ErrCorrupt else Ok record)
  end).

(** The checks of a session row, shared by [Sessions] and [countSessions]. *)
Definition session_row (key value : bytes) : result store_error SessionRecord :=
  let prefix := collatorRecordPrefix collatorKeySession in
  if negb (length key =? length prefix + 32)%nat then Err ErrCorrupt
  else
    and_then (codec (decodeCollatorSessionRecord value)) (fun record =>
    if negb (bool_decide (drop (length prefix) key = cs_ID (sr_Session record))) then Err ErrCorrupt else Ok record).
Definition Sessions (db : DB) : result store_error (list SessionRecord) :=
  iteratePrefix db (collatorRecordPrefix collatorKeySession) (fun records key value =>
    and_then (session_row key value) (fun record => Ok (records ++ [record]))) [].
Definition countSessions (db : DB) : result store_error Z :=
  iteratePrefix db (collatorRecordPrefix collatorKeySession) (fun count key value =>
    and_then (session_row key value) (fun _ => Ok (u64 (count + 1)))) 0.

Definition Candidate_read (db : DB) (id : WindowID) (slot : Z) : result store_error CandidateRecord :=
  and_then (readerGetCopy db (collatorCandidateKey id slot)) (fun value =>
  match value with
  | None => Err ErrRecordNotFound
  | Some value =>
      and_then (codec (decodeCollatorCandidateRecord value)) (fun record =>
      if negb (bool_decide (cm_WindowID record = id)) || negb (cid_Slot (cm_ID record) =? slot) then Err ErrCorrupt
      else Ok record)
  end).

Definition countCandidates (db : DB) : result store_error Z :=
  let prefix := collatorRecordPrefix collatorKeyCandidate in
  let n := length prefix in
  iteratePrefix db prefix (fun count key value =>
    if negb (length key =? n + 40)%nat then Err ErrCorrupt
    else if (length value <? 41)%nat || negb (byte_at value 0 =? collatorCandidateRecordVersion) then Err ErrCorrupt
    else if negb (validCandidateAuthority (byte_at value (length value - 1))) then Err ErrCorrupt
    else if negb (bool_decide (slice key n (n + 32) = slice value 1 33)) ||
      negb (be_get (slice key (n + 32) (n + 36)) =? le_get (slice value 33 37)) ||
      negb (be_get (slice key (n + 36) (n + 40)) =? le_get (slice value 37 41)) then Err ErrCorrupt
    else Ok (u64 (count + 1))) 0.
End Reads.

(** ** The gate *)

Record CollatorStore `{Pebble} (W D : Type) := mkCollatorStore {
  k_store : Store W D;
  k_deleting : gset bytes;
  k_deleted : gset bytes }.
Arguments mkCollatorStore {_ W D} _ _ _.
Arguments k_store {_ W D} _.
Arguments k_deleting {_ W D} _.
Arguments k_deleted {_ W D} _.
#[export] Instance eta_CollatorStore `{Pebble} W D : Eta (CollatorStore W D) := fun s =>
  mkCollatorStore (k_store s) (k_deleting s) (k_deleted s).

Definition collatorStoreError (r : result store_error unit) : result store_error unit :=
  match r with Err ErrStorageClosed => Err ErrClosed | r => r end.

Section Gate.
Context `{Pebble} {W D : Type}.
Implicit Types (s : CollatorStore W D) (rq : writeRequest W D).

Definition submitSession (sessionID : bytes) rq s : result store_error unit * CollatorStore W D :=
  if bool_decide (sessionID ∈ k_deleting s) then (Err ErrSessionRetired, s)
  else if bool_decide (sessionID ∈ k_deleted s) then (Err ErrSessionRetired, s)
  else let '(r, st) := submit rq (k_store s) in (collatorStoreError r, s <| k_store := st |>).

(** [ctxErr] and [sent] as in [submitContext]. *)
Definition submitSessionGeneration (ctxErr sent : bool) (sessionID : bytes) rq s :
    result store_error unit * CollatorStore W D :=
  if bool_decide (sessionID ∈ k_deleting s) then (Err ErrSessionRetired, s)
  else
    let reopening := bool_decide (sessionID ∈ k_deleted s) in
    let s := s <| k_deleted := k_deleted s ∖ {[sessionID]} |> in
    let '(r, st) := submitContext ctxErr sent rq (k_store s) in
    let s := s <| k_store := st |> in
    match collatorStoreError r with
    | Err e => (Err e, if reopening then s <| k_deleted := {[sessionID]} ∪ k_deleted s |> else s)
    | Ok u => (Ok u, s)
    end.

(** A save reports its error to [done] at once, or leaves a request. *)
Definition reported (r : result store_error unit * CollatorStore W D) : option store_error * CollatorStore W D :=
  match r with (Ok _, s) => (None, s) | (Err e, s) => (Some e, s) end.

Definition SaveSession (ctxErr sent : bool) (record : SessionRecord) (done : D) s : option store_error * CollatorStore W D :=
  if negb (bool_decide (up_SessionID (sr_Update record) = cs_ID (sr_Session record))) then (Some ErrSessionConflict, s)
  else if
    match sr_Activation record with
    | Some a => negb (bool_decide (ac_SessionID a = cs_ID (sr_Session record)))
    | None => false
    end then (Some ErrSessionConflict, s)
  else
    match encodeCollatorSessionRecord record with
    | Err e => (Some (ErrRecord e), s)
    | Ok value =>
        match decodeCollatorSessionRecord value with
        | Err e => (Some (ErrRecord e), s)
        | Ok ownedRecord =>
            reported (submitSessionGeneration ctxErr sent (cs_ID (sr_Session ownedRecord))
              (mkRequest (saveSession_body ownedRecord value) done (Z.of_nat (length value)) restartRecoverable) s)
        end
    end.

Context `{TLRuntime} `{Ed25519}.
Definition SaveCandidate (record : CandidateRecord) (done : D) s : option store_error * CollatorStore W D :=
  if negb (validCandidateAuthority (cm_Authority record)) then (Some ErrCandidateConflict, s)
  else
    match encodeCollatorCandidateRecord record with
    | Err e => (Some (ErrRecord e), s)
    | Ok value =>
        reported (submitSession (wid_SessionID (cm_WindowID record))
          (mkRequest (saveMarker_body record value) done (Z.of_nat (length value)) restartRecoverable) s)
    end.

(** [DeleteSession]: the check, the request, and what follows its callback. *)
Definition DeleteSession_enter (ctxErr : bool) (sessionID : bytes) s : result store_error (CollatorStore W D) :=
  if ctxErr then Err ErrContext
  else if bool_decide (sessionID ∈ k_deleting s) then Err ErrSessionRetired
  else if bool_decide (sessionID ∈ k_deleted s) then Err ErrSessionRetired
  else Ok (s <| k_deleting := {[sessionID]} ∪ k_deleting s |>).
Definition DeleteSession_submit (sessionID : bytes) (done : D) s : result store_error unit * CollatorStore W D :=
  let '(r, st) := submit (mkRequest (deleteCollatorSession_body sessionID) done 0 durableCommitment) (k_store s) in
  (collatorStoreError r, s <| k_store := st |>).
Definition DeleteSession_leave (sessionID : bytes) (err : option store_error) s : CollatorStore W D :=
  let s := s <| k_deleting := k_deleting s ∖ {[sessionID]} |> in
  match err with None => s <| k_deleted := {[sessionID]} ∪ k_deleted s |> | Some _ => s end.
End Gate.

(** ** The life of a session at the gate *)

(** Requests admitted to the queue, and how an admitted deletion ended. *)
Inductive gate_event := AdmittedSession | AdmittedMarker | AdmittedDelete | DeleteDone | DeleteFailed.

(** The abstract life cycle: markers only while the session is open; once a
    deletion is admitted nothing more until it ends; after a deletion only a new
    session record. *)
Inductive phase := Open | Deleting | Deleted.
Definition phase_step (p : phase) (e : gate_event) : option phase :=
  match p, e with
  | Open, (AdmittedSession | AdmittedMarker) => Some Open
  | Open, AdmittedDelete => Some Deleting
  | Deleting, DeleteDone => Some Deleted
  | Deleting, DeleteFailed => Some Open
  | Deleted, AdmittedSession => Some Open
  | _, _ => None
  end.
Fixpoint lifecycle (p : phase) (l : list gate_event) : option phase :=
  match l with [] => Some p | e :: l => p ← phase_step p e; lifecycle p l end.

Section Lifecycle.
Context `{Pebble} `{TLRuntime} `{Ed25519} {W D : Type}.
Implicit Types (s : CollatorStore W D) (log : list (bytes * gate_event)).

(** The session [SaveSession] submits for. *)
Definition owned_session (r : SessionRecord) : option bytes :=
  match encodeCollatorSessionRecord r with
  | Ok v => match decodeCollatorSessionRecord v with Ok o => Some (cs_ID (sr_Session o)) | Err _ => None end
  | Err _ => None
  end.

(** Calls in any order; a [DeleteSession] call is in [deletes] from its check to
    its return, with [true] once its request is admitted.  The writer changes the
    store in between. *)
Inductive gate_runs : list (bytes * gate_event) -> gmap bytes bool -> CollatorStore W D -> Prop :=
| gr_open st : gate_runs [] ∅ (mkCollatorStore st ∅ ∅)
| gr_session log deletes s ctxErr sent r d s' sid :
    gate_runs log deletes s -> SaveSession ctxErr sent r d s = (None, s') -> owned_session r = Some sid ->
    gate_runs (log ++ [(sid, AdmittedSession)]) deletes s'
| gr_session_failed log deletes s ctxErr sent r d e s' :
    gate_runs log deletes s -> SaveSession ctxErr sent r d s = (Some e, s') -> gate_runs log deletes s'
| gr_marker log deletes s c d s' :
    gate_runs log deletes s -> SaveCandidate c d s = (None, s') ->
    gate_runs (log ++ [(wid_SessionID (cm_WindowID c), AdmittedMarker)]) deletes s'
| gr_marker_failed log deletes s c d e s' :
    gate_runs log deletes s -> SaveCandidate c d s = (Some e, s') -> gate_runs log deletes s'
| gr_enter log deletes s ctxErr sid s' :
    gate_runs log deletes s -> DeleteSession_enter ctxErr sid s = Ok s' -> gate_runs log (<[sid := false]> deletes) s'
| gr_submit log deletes s sid d s' :
    gate_runs log deletes s -> deletes !! sid = Some false -> DeleteSession_submit sid d s = (Ok tt, s') ->
    gate_runs (log ++ [(sid, AdmittedDelete)]) (<[sid := true]> deletes) s'
| gr_submit_failed log deletes s sid d e s' :
    gate_runs log deletes s -> deletes !! sid = Some false -> DeleteSession_submit sid d s = (Err e, s') ->
    gate_runs log (delete sid deletes) (DeleteSession_leave sid (Some e) s')
| gr_leave log deletes s sid err :
    gate_runs log deletes s -> deletes !! sid = Some true ->
    gate_runs (log ++ [(sid, match err with None => DeleteDone | Some _ => DeleteFailed end)]) (delete sid deletes)
      (DeleteSession_leave sid err s)
| gr_store log deletes s st : gate_runs log deletes s -> gate_runs log deletes (s <| k_store := st |>).

Definition events (sid : bytes) log : list gate_event := omap (fun p => if decide (p.1 = sid) then Some p.2 else None) log.
Lemma events_snoc sid log sid' e : events sid (log ++ [(sid', e)]) = events sid log ++ (if decide (sid' = sid) then [e] else []).
Proof. unfold events. rewrite omap_app. simpl. by case_decide. Qed.
Lemma lifecycle_snoc p l e : lifecycle p (l ++ [e]) = (q ← lifecycle p l; phase_step q e).
Proof.
  revert p. induction l as [|x l IH]; intros p; simpl; [by destruct (phase_step p e)|]. destruct (phase_step p x); simpl; [apply IH|done].
Qed.

(** The sets of the gate are the phases. *)
Record gate_inv log (deletes : gmap bytes bool) s : Prop := {
  gi_deleting : forall sid, sid ∈ k_deleting s <-> is_Some (deletes !! sid);
  gi_disjoint : forall sid, sid ∈ k_deleting s -> sid ∉ k_deleted s;
  gi_phase : forall sid, lifecycle Open (events sid log) = Some
    (if decide (sid ∈ k_deleted s) then Deleted else if decide (deletes !! sid = Some true) then Deleting else Open) }.

Lemma SaveCandidate_gate c d s res s' :
  SaveCandidate c d s = (res, s') ->
  k_deleting s' = k_deleting s /\ k_deleted s' = k_deleted s /\
  (res = None -> wid_SessionID (cm_WindowID c) ∉ k_deleting s /\ wid_SessionID (cm_WindowID c) ∉ k_deleted s).
Proof.
  unfold SaveCandidate. destruct (negb _); [by intros [= <- <-]|]. destruct (encodeCollatorCandidateRecord c); [|by intros [= <- <-]].
  unfold reported, submitSession. case_bool_decide; [by intros [= <- <-]|]. case_bool_decide; [by intros [= <- <-]|].
  destruct (submit _ _) as [r st]. destruct (collatorStoreError r); by intros [= <- <-].
Qed.
Lemma SaveSession_gate ctxErr sent r d s res s' :
  SaveSession ctxErr sent r d s = (res, s') ->
  k_deleting s' = k_deleting s /\
  match res with
  | Some _ => k_deleted s' = k_deleted s
  | None => exists sid, owned_session r = Some sid /\ sid ∉ k_deleting s /\ k_deleted s' = k_deleted s ∖ {[sid]}
  end.
Proof.
  unfold SaveSession, owned_session. destruct (negb _); [by intros [= <- <-]|].
  match goal with |- context [if ?b then _ else _] => destruct b end; [by intros [= <- <-]|].
  destruct (encodeCollatorSessionRecord r) as [v|]; [|by intros [= <- <-]].
  destruct (decodeCollatorSessionRecord v) as [o|]; [|by intros [= <- <-]]. unfold reported, submitSessionGeneration.
  case_bool_decide as Hd; [by intros [= <- <-]|]. destruct (submitContext _ _ _ _) as [r' st].
  destruct (collatorStoreError r').
  - intros [= <- <-]. split; [done|]. by exists (cs_ID (sr_Session o)).
  - case_bool_decide as Hr; intros [= <- <-]; (split; [done|]); simpl; apply set_eq; intros x; set_unfold; destruct (decide (x = cs_ID (sr_Session o))); naive_solver.
Qed.

(** The phases of the gate, and an event of one session. *)
Definition gate_phase (deletes : gmap bytes bool) s (sid : bytes) : phase :=
  if decide (sid ∈ k_deleted s) then Deleted else if decide (deletes !! sid = Some true) then Deleting else Open.
Lemma phase_event log deletes s deletes' s' sid e :
  (forall x, lifecycle Open (events x log) = Some (gate_phase deletes s x)) ->
  (forall x, x <> sid -> gate_phase deletes' s' x = gate_phase deletes s x) ->
  phase_step (gate_phase deletes s sid) e = Some (gate_phase deletes' s' sid) ->
  forall x, lifecycle Open (events x (log ++ [(sid, e)])) = Some (gate_phase deletes' s' x).
Proof.
  intros Hp Hne He x. rewrite events_snoc. destruct (decide (sid = x)) as [->|Hx].
  - rewrite lifecycle_snoc, Hp. exact He.
  - rewrite app_nil_r, Hp. f_equal. symmetry. apply Hne. congruence.
Qed.
Lemma gate_phase_same deletes s deletes' s' x :
  (x ∈ k_deleted s' <-> x ∈ k_deleted s) -> (deletes' !! x = Some true <-> deletes !! x = Some true) ->
  gate_phase deletes' s' x = gate_phase deletes s x.
Proof. intros E1 E2. unfold gate_phase. by repeat case_decide; try tauto. Qed.

Lemma gate_runs_inv log deletes s : gate_runs log deletes s -> gate_inv log deletes s.
Proof.
  assert (forall log deletes s, gate_inv log deletes s <->
    (forall sid, sid ∈ k_deleting s <-> is_Some (deletes !! sid)) /\ (forall sid, sid ∈ k_deleting s -> sid ∉ k_deleted s) /\
    forall sid, lifecycle Open (events sid log) = Some (gate_phase deletes s sid)) as Hinv
    by (intros; split; [intros []; by split_and!|intros (? & ? & ?); by constructor]).
  induction 1 as [st|log deletes s ctxErr sent r d s' sid _ IH Hs Ho|log deletes s ctxErr sent r d e s' _ IH Hs
    |log deletes s c d s' _ IH Hs|log deletes s c d e s' _ IH Hs|log deletes s ctxErr sid s' _ IH He
    |log deletes s sid d s' _ IH Hd Hs|log deletes s sid d e s' _ IH Hd Hs|log deletes s sid err _ IH Hd|log deletes s st _ IH];
    rewrite Hinv in *; [|destruct IH as (I1 & I2 & I3)..].
  - split_and!; [|set_solver|].
    + intros sid. rewrite lookup_empty. split; [set_solver|by intros []].
    + intros sid. unfold gate_phase. simpl. by rewrite decide_False by set_solver.
  - apply SaveSession_gate in Hs as [E1 (sid' & Ho' & Hn & E2)]. rewrite Ho in Ho'. injection Ho' as <-. rewrite E1, E2.
    split_and!; [done|set_solver|]. apply (phase_event log deletes s); [done| |].
    + intros x Hx. apply gate_phase_same; [|done]. rewrite E2. set_solver.
    + assert (deletes !! sid <> Some true) as Hd by (intros E; apply Hn, I1; by exists true).
      unfold gate_phase. rewrite E2. rewrite (decide_False (P := sid ∈ k_deleted s ∖ {[sid]})) by set_solver. rewrite !(decide_False (P := deletes !! sid = Some true)) by done.
      by case_decide.
  - apply SaveSession_gate in Hs as [E1 E2]. rewrite E1, E2. split_and!; [done..|]. intros x. rewrite I3. f_equal.
    apply gate_phase_same; by rewrite ?E2.
  - apply SaveCandidate_gate in Hs as (E1 & E2 & Hn). destruct (Hn eq_refl) as [N1 N2]. rewrite E1, E2.
    split_and!; [done..|]. apply (phase_event log deletes s); [done|intros x _; apply gate_phase_same; by rewrite ?E2|].
    assert (deletes !! wid_SessionID (cm_WindowID c) <> Some true) as Hd by (intros E; apply N1, I1; by exists true).
    unfold gate_phase. rewrite E2, !(decide_False (P := _ ∈ _)), !(decide_False (P := _ = Some true)) by done. done.
  - apply SaveCandidate_gate in Hs as (E1 & E2 & _). rewrite E1, E2. split_and!; [done..|]. intros x. rewrite I3. f_equal.
    apply gate_phase_same; by rewrite ?E2.
  - unfold DeleteSession_enter in He. destruct ctxErr; [done|]. case_bool_decide as N1; [done|]. case_bool_decide as N2; [done|]. injection He as <-. simpl.
    split_and!.
    + intros x. rewrite lookup_insert_is_Some'. set_solver.
    + set_solver.
    + intros x. rewrite I3. f_equal. symmetry. apply gate_phase_same; [done|]. destruct (decide (x = sid)) as [->|].
      * rewrite lookup_insert_eq. split; [done|]. intros E. exfalso. apply N1, I1. by exists true.
      * by rewrite lookup_insert_ne.
  - unfold DeleteSession_submit in Hs. destruct (submit _ _) as [r st]. injection Hs as _ <-. simpl.
    assert (sid ∈ k_deleting s) as Hin by (apply I1; by exists false). pose proof (I2 _ Hin) as Hnd. split_and!; [|done|].
    + intros x. rewrite lookup_insert_is_Some'. rewrite I1. split; [by right|]. intros [<-|?]; [by exists false|done].
    + apply (phase_event log deletes s); [done| |].
      * intros x Hx. apply gate_phase_same; [done|]. by rewrite lookup_insert_ne.
      * unfold gate_phase. simpl. rewrite !(decide_False (P := sid ∈ k_deleted s)) by done. rewrite lookup_insert_eq, Hd.
        by rewrite decide_False, decide_True.
  - unfold DeleteSession_submit in Hs. destruct (submit _ _) as [r st]. injection Hs as _ <-. simpl. split_and!.
    + intros x. rewrite lookup_delete_is_Some, elem_of_difference, I1, elem_of_singleton. naive_solver.
    + set_solver.
    + intros x. rewrite I3. f_equal. symmetry. apply gate_phase_same; [done|]. destruct (decide (x = sid)) as [->|].
      * by rewrite lookup_delete_eq, Hd.
      * by rewrite lookup_delete_ne.
  - assert (sid ∈ k_deleting s) as Hin by (apply I1; by exists true). pose proof (I2 _ Hin) as Hnd. split_and!.
    + intros x. rewrite lookup_delete_is_Some. destruct err; simpl; rewrite elem_of_difference, I1, elem_of_singleton; naive_solver.
    + intros x. destruct err; set_solver.
    + apply (phase_event log deletes s); [done| |].
      * intros x Hx. apply gate_phase_same; [destruct err; set_solver|]. by rewrite lookup_delete_ne.
      * unfold gate_phase at 1. rewrite (decide_False (P := sid ∈ k_deleted s)), decide_True by done. unfold gate_phase. rewrite lookup_delete_eq.
        destruct err; simpl; [rewrite !decide_False by done|rewrite decide_True by set_solver]; done.
  - by split_and!.
Qed.

(** C16: the gate implements the session life cycle.  However [SaveSession],
    [SaveCandidate] and [DeleteSession] calls of any sessions and goroutines
    interleave, the requests admitted for a session follow [lifecycle]: markers are
    admitted only while the session is open, nothing of the session is admitted
    between its deletion and the deletion's end, and after a deletion only a new
    session record is; the phase is what the gate's two sets say. *)
Theorem gate_follows_lifecycle log deletes s sid :
  gate_runs log deletes s ->
  lifecycle Open (events sid log) = Some
    (if decide (sid ∈ k_deleted s) then Deleted else if decide (deletes !! sid = Some true) then Deleting else Open).
Proof. intros Hr. apply (gi_phase _ _ _ (gate_runs_inv _ _ _ Hr)). Qed.
End Lifecycle.
