(* ===== verification/StoreRecovery.v ===== *)
(** * What the journal recovers

    Proofs about [StoreJournal.v].  A database state is described by the list of
    journal records it holds ([journal_ok]); every request of the journal adds its
    record or leaves the list, requests of other clients leave it, and the scan of
    a state returns its records.  With the writer's laws this gives what a session
    finds after a crash. *)

From stdpp Require Import sorting.
From S2P Require Import Prelude.
From S2P Require Import SimplexTypes.
From S2P Require Import SimplexWire.
From S2P Require Import Sha256.
From S2P Require Import SimplexCert.
From S2P Require Import StoreKeys.
From S2P Require Import StoreCodec.
From S2P Require Import Pebble.
From S2P Require Import StoreWriter.
From S2P Require Import StoreSession.
From S2P Require Import StoreJournal.

#[local] Open Scope Z_scope.

(** ** Transactions over the contents of a batch *)

Section Specs.
Context `{PebbleLaws} {W : Type}.

(** [P] holds before; [Q] after a result, [E] after a rejection.  What a fatal
    error leaves is never committed. *)
Definition tx_spec {A : Type} (P : kv -> Prop) (m : Tx W A) (Q : A -> kv -> Prop) (E : kv -> Prop) : Prop :=
  forall s, P (view s.1) ->
    match m s with
    | (Ok a, s') => Q a (view s'.1)
    | (Err (Rejected _), s') => E (view s'.1)
    | (Err (Fatal _), _) => True
    end.

Lemma tx_spec_ret {A : Type} (a : A) (P : kv -> Prop) (Q : A -> kv -> Prop) (E : kv -> Prop) :
  (forall m, P m -> Q a m) -> tx_spec P (mret a) Q E.
Proof. intros Hq s Hp. by apply Hq. Qed.
Lemma tx_spec_bind {A B : Type} (m : Tx W A) (k : A -> Tx W B) (P : kv -> Prop) (R : A -> kv -> Prop) (Q : B -> kv -> Prop) (E : kv -> Prop) :
  tx_spec P m R E -> (forall a, tx_spec (R a) (k a) Q E) -> tx_spec P (m ≫= k) Q E.
Proof.
  intros Hm Hk s Hp. specialize (Hm s Hp). unfold mbind, tx_bind. destruct (m s) as [[a|[e|e]] s']; [|done..]. by apply Hk.
Qed.
Lemma tx_spec_mono {A : Type} (m : Tx W A) (P P' : kv -> Prop) (Q Q' : A -> kv -> Prop) (E E' : kv -> Prop) :
  tx_spec P m Q E -> (forall x, P' x -> P x) -> (forall a x, Q a x -> Q' a x) -> (forall x, E x -> E' x) -> tx_spec P' m Q' E'.
Proof. intros Hm HP HQ HE s Hp. specialize (Hm s (HP _ Hp)). destruct (m s) as [[a|[e|e]] s']; auto. Qed.
Lemma tx_spec_get key (P : kv -> Prop) (Q : option bytes -> kv -> Prop) (E : kv -> Prop) :
  (forall m, P m -> Q (m !! key) m) -> tx_spec P (getBatchCopy key) Q E.
Proof.
  intros Hq s Hp. unfold getBatchCopy. pose proof (law_batch_get s.1 key) as Hr. specialize (Hq _ Hp).
  destruct (batch_Get s.1 key); simpl in *; rewrite ?Hr in Hq; done.
Qed.
Lemma tx_spec_Set key value (P : kv -> Prop) (Q : unit -> kv -> Prop) (E : kv -> Prop) :
  (forall m, P m -> Q tt (<[key := value]> m)) -> tx_spec P (tx_Set key value) Q E.
Proof.
  intros Hq s Hp. unfold tx_Set, tx_write. destruct (batch_Set s.1 key value) as [b|] eqn:Es; [|done]. simpl.
  apply law_set in Es as [_ ->]. by apply Hq.
Qed.
Lemma tx_spec_reject {A : Type} e (P : kv -> Prop) (Q : A -> kv -> Prop) (E : kv -> Prop) : (forall m, P m -> E m) -> tx_spec P (tx_reject e) Q E.
Proof. intros He s Hp. by apply He. Qed.
Lemma tx_spec_fatal {A : Type} e (P : kv -> Prop) (Q : A -> kv -> Prop) (E : kv -> Prop) : tx_spec P (tx_fatal e) Q E.
Proof. by intros s Hp. Qed.
Lemma tx_spec_increment n (P : kv -> Prop) (Q : Z -> kv -> Prop) (E : kv -> Prop) :
  (forall m, P m -> is_u64 n -> n + 1 < 2 ^ 64 -> Q (n + 1) m) -> (forall m, P m -> is_u64 n) ->
  tx_spec P (incrementSummaryCount n) Q E.
Proof.
  intros Hq Hn s Hp. unfold incrementSummaryCount. destruct (Z.eqb_spec n (2 ^ 64 - 1)); [done|].
  specialize (Hn _ Hp). apply Hq; [done|done|]. unfold is_u64 in Hn. lia.
Qed.

(** Requests only use the batch through its operations. *)
Definition tx_local {A : Type} (m : Tx W A) : Prop := forall s, base (m s).2.1 = base s.1.
Lemma tx_local_bind {A B : Type} (m : Tx W A) (k : A -> Tx W B) : tx_local m -> (forall a, tx_local (k a)) -> tx_local (m ≫= k).
Proof.
  intros Hm Hk s. specialize (Hm s). unfold mbind, tx_bind. destruct (m s) as [[a|e] s']; simpl in *; [|done].
  by rewrite (Hk a s').
Qed.
Lemma tx_local_get key : tx_local (getBatchCopy key).
Proof. intros s. unfold getBatchCopy. by destruct (batch_Get s.1 key). Qed.
Lemma tx_local_Set key value : tx_local (tx_Set key value).
Proof.
  intros s. unfold tx_Set, tx_write. destruct (batch_Set s.1 key value) as [b|] eqn:Es; [|done]. simpl. by apply law_set in Es as [-> _].
Qed.
Lemma tx_local_Delete key : tx_local (tx_Delete key).
Proof.
  intros s. unfold tx_Delete, tx_write. destruct (batch_Delete s.1 key) as [b|] eqn:Es; [|done]. simpl. by apply law_delete in Es as [-> _].
Qed.
Lemma tx_local_DeleteRange lo hi : tx_local (tx_DeleteRange lo hi).
Proof.
  intros s. unfold tx_DeleteRange, tx_write. destruct (batch_DeleteRange s.1 lo hi) as [b|] eqn:Es; [|done]. simpl.
  by apply law_delete_range in Es as [-> _].
Qed.
Lemma tx_local_of {A : Type} wrap (r : result codec_error A) : tx_local (tx_of wrap r).
Proof. intros s. unfold tx_of. by destruct r. Qed.
Lemma tx_local_increment n : tx_local (incrementSummaryCount n).
Proof. intros s. unfold incrementSummaryCount. by destruct (_ =? _). Qed.
End Specs.

Ltac tx_local_auto :=
  repeat first
    [ apply tx_local_get | apply tx_local_Set | apply tx_local_Delete | apply tx_local_DeleteRange | apply tx_local_of
    | apply tx_local_increment | apply tx_local_bind; [|intros] | (intros ?; reflexivity)
    | match goal with
      | |- tx_local (match ?x with _ => _ end) => destruct x
      | |- tx_local (if ?x then _ else _) => destruct x
      end ].

Lemma tx_local_ensureSession `{PebbleLaws} {W} id ns : tx_local (W := W) (ensureSession id ns).
Proof. unfold ensureSession, saveSessionSummary, loadSessionSummary. tx_local_auto. Qed.

(** ** Records *)

Inductive record := RVote (v : Vote) (seqno : Z) | RCert (c : Certificate).

Section Records.
Context `{TLLaws}.

Definition rec_hash (r : record) : option bytes :=
  match r with RVote v _ => OurVoteRecordHash v | RCert c => CertificateRecordHash c end.
Definition rec_value (r : record) : option bytes :=
  match r with RVote v s => EncodeOurVoteRecord v s | RCert c => EncodeCertificateRecord c end.
(** The row of a record: its key and its value. *)
Definition rec_row (ns : bytes) (r : record) (k x : bytes) : Prop :=
  exists h rk, rec_hash r = Some h /\ VoteRecordKey h = Some rk /\ k = voteKey ns rk /\ rec_value r = Some x.

Definition wf_record (maxSignatures : nat) (r : record) : Prop :=
  match r with
  | RVote v s => sized_vote v /\ 0 <= s < 2 ^ 63 - 1
  | RCert c => wf_cert c /\ (length (cert_Signatures c) <= maxSignatures)%nat
  end.

Lemma hash_some r n : wf_record n r -> exists h, rec_hash r = Some h /\ length h = 32%nat.
Proof.
  destruct r as [v s|c]; simpl.
  - intros [(t & Et & Hwt)%sized_TL _]. destruct (law_serialize_vote t Hwt) as [b Eb].
    unfold OurVoteRecordHash, VoteBytes. rewrite Et. simpl. rewrite Eb. eexists. split; [done|apply length_sha256].
  - intros [[b Eb]%certificate_serialize_some _]. unfold CertificateRecordHash. rewrite Eb. eexists. split; [done|apply length_sha256].
Qed.
Lemma value_decodes r n : wf_record n r -> exists x, rec_value r = Some x /\
  DecodeVoteJournalRecord x n = Ok (match r with RVote v s => JournalVote v s | RCert c => JournalCert c end).
Proof.
  destruct r as [v s|c]; simpl.
  - intros [Hv Hs]. apply vote_record; [done|unfold is_i64; lia].
  - intros [Hc Hl]. by apply certificate_record.
Qed.
Lemma rec_row_some ns r n : wf_record n r -> exists k x, rec_row ns r k x.
Proof.
  intros Hr. destruct (hash_some r n Hr) as (h & Eh & Hl). destruct (law_serialize_key h Hl) as [rk Ek].
  destruct (value_decodes r n Hr) as (x & Ex & _). by exists (voteKey ns rk), x, h, rk.
Qed.
Lemma rec_row_key ns r r' n k x x' : wf_record n r -> wf_record n r' ->
  rec_row ns r k x -> rec_row ns r' k x' -> rec_hash r = rec_hash r'.
Proof.
  intros Hr Hr' (h & rk & Eh & Ek & -> & _) (h' & rk' & Eh' & Ek' & E & _). apply voteKey_inj in E as <-.
  destruct (hash_some r n Hr) as (h1 & E1 & Hl), (hash_some r' n Hr') as (h2 & E2 & Hl'). simplify_eq.
  rewrite Eh, Eh'. f_equal. unfold VoteRecordKey in *. rewrite <- Ek' in Ek. by apply law_serialize_key_inj in Ek.
Qed.
Lemma rec_row_bounds ns r k x : rec_row ns r k x ->
  in_bounds (prefixBounds (votePrefix ns)).1 (prefixBounds (votePrefix ns)).2 k = true.
Proof. intros (h & rk & _ & _ & -> & _). apply prefix_in_bounds. by exists rk. Qed.
End Records.

(** ** The state of a session's journal in the database *)

Section States.
Context `{TLLaws} (session : SessionStorageID) (ns : bytes) (maxSignatures : nat).

Notation vote_bounds k := (in_bounds (prefixBounds (votePrefix ns)).1 (prefixBounds (votePrefix ns)).2 k).

Definition rows_ok (m : kv) (R : list record) : Prop :=
  forall k x, vote_bounds k = true -> m !! k = Some x <-> exists r, r ∈ R /\ rec_row ns r k x.
Definition pool_ok (m : kv) (window : Z) : Prop :=
  match m !! poolStateKey ns with None => window = 0 | Some x => DecodePoolStateRecord x = Ok window end.

(** The session is open: the descriptor, a summary, the pool state it repeats and
    the records. *)
Record open_ok (m : kv) (R : list record) (su : sessionSummary) : Prop := {
  oo_rows : rows_ok m R;
  oo_desc : m !! sessionKey ns = Some (encodeSessionID session);
  oo_summary : m !! summaryKey ns = Some (encodeSessionSummary su);
  oo_wf : wf_summary su;
  oo_pool : pool_ok m (su_firstNonAnnouncedWindow su) }.
Record absent (m : kv) : Prop := {
  ab_rows : rows_ok m [];
  ab_desc : m !! sessionKey ns = None;
  ab_pool : m !! poolStateKey ns = None }.
Definition journal_ok (m : kv) (R : list record) : Prop := (exists su, open_ok m R su) \/ R = [] /\ absent m.

(** Keys outside the journal. *)
Definition foreign_key (k : bytes) : Prop :=
  vote_bounds k = false /\ k <> sessionKey ns /\ k <> summaryKey ns /\ k <> poolStateKey ns.

Hypothesis Hns : bytes_ok ns.

Lemma bytes_ok_prefix kind : is_byte kind -> bytes_ok (namespacedPrefix kind ns).
Proof. intros. by constructor. Qed.
Lemma not_vote_key kind r : is_byte kind -> kind <> keyVote -> vote_bounds (namespacedPrefix kind ns ++ r) = false.
Proof.
  intros Hk Hne. destruct (vote_bounds _) eqn:E; [|done]. apply in_bounds_same_length in E; [|by apply bytes_ok_prefix..|done].
  by injection E as E.
Qed.
Lemma not_vote_key_nil kind : is_byte kind -> kind <> keyVote -> vote_bounds (namespacedPrefix kind ns) = false.
Proof. intros Hk Hne. rewrite <- (app_nil_r (namespacedPrefix kind ns)). by apply not_vote_key. Qed.

Lemma rows_ok_other m R k x : vote_bounds k = false -> rows_ok m R -> rows_ok (<[k := x]> m) R.
Proof. intros Hk Hr k' x' Hk'. rewrite lookup_insert_ne by congruence. by apply Hr. Qed.
Lemma pool_ok_other m w k x : k <> poolStateKey ns -> pool_ok m w -> pool_ok (<[k := x]> m) w.
Proof. intros Hk. unfold pool_ok. by rewrite lookup_insert_ne by done. Qed.

Lemma open_ok_summary m R su su' :
  open_ok m R su -> wf_summary su' -> su_firstNonAnnouncedWindow su' = su_firstNonAnnouncedWindow su ->
  open_ok (<[summaryKey ns := encodeSessionSummary su']> m) R su'.
Proof.
  intros [Hr Hd Hs Hw Hp] Hw' Ef. constructor; [| | |done|].
  - by apply rows_ok_other; [apply not_vote_key_nil|].
  - by rewrite lookup_insert_ne.
  - by rewrite lookup_insert_eq.
  - rewrite Ef. by apply pool_ok_other.
Qed.
Lemma open_ok_pool m R su value window :
  open_ok m R su -> is_u32 window -> EncodePoolStateRecord window = Some value ->
  open_ok (<[summaryKey ns := encodeSessionSummary (su <| su_firstNonAnnouncedWindow := window |>)]>
    (<[poolStateKey ns := value]> m)) R (su <| su_firstNonAnnouncedWindow := window |>).
Proof.
  intros [Hr Hd Hs Hw Hp] Hu Ev. constructor.
  - by do 2 (apply rows_ok_other; [by apply not_vote_key_nil|]).
  - by rewrite !lookup_insert_ne.
  - by rewrite lookup_insert_eq.
  - destruct Hw. by constructor.
  - apply pool_ok_other; [done|]. unfold pool_ok. rewrite lookup_insert_eq. simpl. unfold DecodePoolStateRecord.
    rewrite (law_parse TyDbPoolState (TLDbPoolState (i32 window)) value); [|apply i32_range|done]. simpl. by rewrite u32_i32.
Qed.
Lemma open_ok_foreign m R su k x : foreign_key k -> open_ok m R su -> open_ok (<[k := x]> m) R su.
Proof.
  intros (Hb & Hd & Hs & Hp) [? ? ? ? ?]. constructor; rewrite ?lookup_insert_ne by done; try done.
  - by apply rows_ok_other.
  - by apply pool_ok_other.
Qed.

(** A new record. *)
Lemma open_ok_record m R su r k x :
  Forall (wf_record maxSignatures) R -> wf_record maxSignatures r -> rec_hash r ∉ rec_hash <$> R -> rec_row ns r k x ->
  open_ok m R su -> open_ok (<[k := x]> m) (R ++ [r]) su.
Proof.
  intros HR Hr Hnew Hrow [Hrows Hd Hs Hw Hp]. pose proof (rec_row_bounds ns r k x Hrow) as Hb.
  assert (forall kind, is_byte kind -> kind <> keyVote -> k <> namespacedPrefix kind ns) as Hne.
  { intros kind Hk Hne ->. by rewrite not_vote_key_nil in Hb. }
  constructor; [|by rewrite lookup_insert_ne by (by apply Hne)..|done|by apply pool_ok_other; [apply Hne|]].
  intros k' x' Hk'. destruct (decide (k = k')) as [<-|Hn].
  - rewrite lookup_insert_eq. split.
    + intros [= <-]. exists r. split; [set_solver|done].
    + intros (r' & [Hin|Hin]%elem_of_app & Hrow').
      * exfalso. apply Hnew, list_elem_of_fmap. exists r'. split; [|done]. rewrite Forall_forall in HR.
        eapply rec_row_key; [done|by apply HR|done|done].
      * apply list_elem_of_singleton in Hin as ->. destruct Hrow as (? & ? & _ & _ & _ & E), Hrow' as (? & ? & _ & _ & _ & E'). congruence.
  - rewrite lookup_insert_ne by done. rewrite (Hrows k' x' Hk'). split; intros (r' & Hin & Hrow').
    + exists r'. split; [set_solver|done].
    + apply elem_of_app in Hin as [Hin|Hin]; [by exists r'|]. apply list_elem_of_singleton in Hin as ->.
      destruct Hrow as (h & rk & Eh & Ek & -> & _), Hrow' as (h' & rk' & Eh' & Ek' & -> & _). congruence.
Qed.
End States.

(** ** Requests on a session's journal *)

(** The summaries [MarkFinalized] and [RecordLeaderWindow] write. *)
Lemma wf_finalized_summary su n id :
  wf_summary su -> 0 < n < 2 ^ 64 -> is_u32 (cid_Slot id) /\ length (cid_Hash id) = 32%nat ->
  let su := su <| su_finalized := n |> in
  wf_summary (if (match su_lastFinalized su with None => true | Some last => candidateIDLess last id end : bool)
    then su <| su_lastFinalized := Some id |> else su).
Proof.
  intros [W1 W2 W3 W4 W5 W6 W7 W8 W9 W10] Hn Hid. cbv zeta.
  destruct (match su_lastFinalized _ with None => true | Some last => candidateIDLess last id end) eqn:E;
    constructor; simpl; try done; try (unfold is_u64; lia).
  - by intros ? [= <-].
  - split; [lia|done].
  - split; [lia|]. intros E'. simpl in E. by rewrite E' in E.
Qed.
Lemma wf_window_summary su n w :
  wf_summary su -> wf_window w -> validateLeaderWindow w = true -> is_u64 n ->
  let adv := match su_lastLeaderWindow su with None => true | Some last => lw_StartSlot last <? lw_StartSlot w end in
  (adv = true -> 0 < n) -> (adv = false -> n = su_leaderWindows su) ->
  let su := su <| su_leaderWindows := n |> in
  wf_summary (if (match su_lastLeaderWindow su with None => true | Some last => lw_StartSlot last <=? lw_StartSlot w end : bool)
    then su <| su_lastLeaderWindow := Some w |> else su).
Proof.
  intros [W1 W2 W3 W4 W5 W6 W7 W8 W9 W10] Hw Hv Hn adv Ht Hf. subst adv. simpl.
  destruct (su_lastLeaderWindow su) as [last|] eqn:El.
  - assert (n <> 0) as Hn0.
    { destruct (lw_StartSlot last <? lw_StartSlot w); [specialize (Ht eq_refl); lia|]. rewrite (Hf eq_refl). by intros ?%W10. }
    destruct (lw_StartSlot last <=? lw_StartSlot w); constructor; simpl; rewrite ?El; try done.
    by intros ? [= <-].
  - specialize (Ht eq_refl). constructor; simpl; try done; [by intros ? [= <-]|]. split; [lia|done].
Qed.

Section Requests.
Context `{TLLaws} `{PebbleLaws} {W : Type} (session : SessionStorageID) (ns : bytes) (maxSignatures : nat).
Hypothesis Hns : bytes_ok ns.

Lemma wf_emptySummary : wf_summary emptySummary.
Proof. constructor; simpl; unfold is_u64, is_u32; try lia; done. Qed.

Lemma ensureSession_spec R :
  tx_spec (W := W) (fun m => journal_ok session ns m R) (ensureSession session ns)
    (fun su m => open_ok session ns m R su) (fun _ => False).
Proof.
  unfold ensureSession. eapply tx_spec_bind.
  { apply (tx_spec_get _ _ (fun stored m => journal_ok session ns m R /\ stored = m !! sessionKey ns)). auto. }
  intros [stored|]; simpl.
  - destruct (bool_decide_reflect (stored = encodeSessionID session)) as [Hs|Hs]; simpl.
    2:{ intros s [[[su Ho]|[_ Ha]] E]; [rewrite (oo_desc _ _ _ _ _ Ho) in E; congruence|].
        rewrite (ab_desc _ _ Ha) in E. congruence. }
    eapply tx_spec_bind.
    { unfold loadSessionSummary. eapply tx_spec_bind.
      - apply (tx_spec_get _ _ (fun value m => exists su, value = Some (encodeSessionSummary su) /\ open_ok session ns m R su)).
        intros m [[[su Ho]|[_ Ha]] E]; [exists su; split; [by rewrite (oo_summary _ _ _ _ _ Ho)|done]|].
        rewrite (ab_desc _ _ Ha) in E. congruence.
      - intros value. apply (fun h => h : tx_spec _ _ (fun o m => exists su, o = Some su /\ open_ok session ns m R su) _).
        intros s (su & -> & Ho). unfold tx_of, mbind, tx_bind, mret, tx_ret.
        rewrite (decode_encode_summary su (oo_wf _ _ _ _ _ Ho)). by exists su. }
    intros o s (su & -> & Ho). done.
  - eapply tx_spec_bind.
    { apply (tx_spec_Set _ _ _ (fun _ m => rows_ok ns m R /\ R = [] /\ m !! sessionKey ns = Some (encodeSessionID session) /\
        m !! poolStateKey ns = None)).
      intros m [[[su Ho]|[HR [Hr Hd Hp]]] E]; [rewrite (oo_desc _ _ _ _ _ Ho) in E; congruence|].
      split_and!; [rewrite HR|done|by rewrite lookup_insert_eq|by rewrite lookup_insert_ne].
      by apply rows_ok_other; [apply not_vote_key_nil|]. }
    intros _u. apply (tx_spec_bind _ _ _ (fun _ m => open_ok session ns m R emptySummary)); [|intros _; by apply tx_spec_ret].
    apply tx_spec_Set. intros m (Hr & -> & Hd & Hp). constructor.
    + by apply rows_ok_other; [apply not_vote_key_nil|].
    + by rewrite lookup_insert_ne.
    + by rewrite lookup_insert_eq.
    + apply wf_emptySummary.
    + unfold pool_ok. rewrite lookup_insert_ne by done. by rewrite Hp.
Qed.

(** The record requests, once the session is open. *)
Lemma record_spec R r k x (count : sessionSummary -> Z) (bump : sessionSummary -> Z -> sessionSummary) :
  Forall (wf_record maxSignatures) R -> wf_record maxSignatures r -> rec_hash r ∉ rec_hash <$> R -> rec_row ns r k x ->
  (forall su, wf_summary su -> is_u64 (count su)) ->
  (forall su n, wf_summary su -> is_u64 n -> wf_summary (bump su n)) ->
  (forall su n, su_firstNonAnnouncedWindow (bump su n) = su_firstNonAnnouncedWindow su) ->
  tx_spec (W := W) (fun m => journal_ok session ns m R)
    (summary ← ensureSession session ns;
     stored ← getBatchCopy k;
     match stored with
     | Some _ => tx_reject ErrAlreadySaved
     | None =>
         _ ← tx_Set k x; n ← incrementSummaryCount (count summary); saveSessionSummary ns (bump summary n)
     end) (fun _ m => journal_ok session ns m (R ++ [r])) (fun _ => False).
Proof.
  intros HR Hr Hnew Hrow Hc Hb Hf. eapply tx_spec_bind; [apply ensureSession_spec|]. intros su. eapply tx_spec_bind.
  { apply (tx_spec_get _ _ (fun stored m => open_ok session ns m R su /\ stored = m !! k)). auto. }
  intros [stored|]; simpl.
  { intros s [Ho E]. symmetry in E. apply (oo_rows _ _ _ _ _ Ho) in E as (r' & Hin & Hrow'); [|by eapply rec_row_bounds].
    apply Hnew, list_elem_of_fmap. exists r'. split; [|done]. rewrite Forall_forall in HR. eapply rec_row_key; [done|by apply HR|done..]. }
  apply (tx_spec_bind _ _ _ (fun _ m => open_ok session ns m (R ++ [r]) su)).
  { apply tx_spec_Set. intros m [Ho _]. by eapply open_ok_record. }
  intros _. eapply (tx_spec_bind _ _ _ (fun n m => open_ok session ns m (R ++ [r]) su /\ is_u64 n)).
  { apply tx_spec_increment; [|intros m Ho; by eapply Hc, oo_wf]. intros m Ho [? ?] ?. split; [done|]. unfold is_u64. lia. }
  intros n. apply tx_spec_Set. intros m [Ho Hn]. left. eexists. eapply open_ok_summary; [done|exact Ho| |apply Hf].
  by eapply Hb; [eapply oo_wf|].
Qed.

Lemma saveOurVote_spec R r k x :
  Forall (wf_record maxSignatures) R -> wf_record maxSignatures r -> rec_hash r ∉ rec_hash <$> R -> rec_row ns r k x ->
  tx_spec (W := W) (fun m => journal_ok session ns m R) (saveOurVote_body session ns k x)
    (fun _ m => journal_ok session ns m (R ++ [r])) (fun _ => False).
Proof.
  intros. apply record_spec with (count := su_votesCount) (bump := fun su n => su <| su_votesCount := n |>); try done.
  - by intros su [].
  - intros su n [] ?. by constructor.
Qed.
Lemma saveCertificate_spec R r k x :
  Forall (wf_record maxSignatures) R -> wf_record maxSignatures r -> rec_hash r ∉ rec_hash <$> R -> rec_row ns r k x ->
  tx_spec (W := W) (fun m => journal_ok session ns m R) (saveCertificate_body session ns k x)
    (fun _ m => journal_ok session ns m (R ++ [r])) (fun _ => False).
Proof.
  intros. apply record_spec with (count := su_certificates) (bump := fun su n => su <| su_certificates := n |>); try done.
  - by intros su [].
  - intros su n [] ?. by constructor.
Qed.

Lemma saveWindow_spec R window value :
  is_u32 window -> EncodePoolStateRecord window = Some value ->
  tx_spec (W := W) (fun m => journal_ok session ns m R) (saveWindow_body session ns window value)
    (fun _ m => journal_ok session ns m R) (fun m => journal_ok session ns m R).
Proof.
  intros Hu Ev. unfold saveWindow_body. eapply tx_spec_bind.
  { eapply tx_spec_mono; [apply (ensureSession_spec R)|done|exact (fun _ _ h => h)|done]. }
  intros su. eapply tx_spec_bind; [by apply (tx_spec_get _ _ (fun _ m => open_ok session ns m R su))|]. intros stored.
  apply (tx_spec_bind _ _ _ (fun _ m => open_ok session ns m R su)).
  { destruct stored as [stored|]; [destruct (DecodePoolStateRecord stored); [|apply tx_spec_fatal]|];
      (destruct (negb _); [apply tx_spec_fatal|by apply tx_spec_ret]). }
  intros current. destruct (window <=? current); [apply tx_spec_reject; intros m Ho; left; by exists su|].
  intros s Ho. unfold saveSessionSummary, tx_Set, tx_write, mbind, tx_bind. destruct (batch_Set s.1 _ value) as [b|] eqn:E1; [|done]. simpl.
  destruct (batch_Set b _ _) as [b2|] eqn:E2; [|done]. simpl. apply law_set in E1 as [_ E1], E2 as [_ E2]. rewrite E2, E1.
  left. eexists. by eapply open_ok_pool.
Qed.

(** Requests that leave the journal of [ns] as it is. *)
Definition respects {A : Type} (m : Tx W A) : Prop :=
  tx_local m /\ forall R, tx_spec (fun x => journal_ok session ns x R) m
    (fun _ x => journal_ok session ns x R) (fun x => journal_ok session ns x R).

Lemma initialize_respects : respects (initialize_body session ns).
Proof.
  split; [apply tx_local_bind; [apply tx_local_ensureSession|by intros a s]|]. intros R. eapply tx_spec_bind.
  { eapply tx_spec_mono; [apply (ensureSession_spec R)|done|exact (fun _ _ h => h)|done]. }
  intros su. apply tx_spec_ret. intros m Ho. left. by exists su.
Qed.
Lemma saveWindow_respects window value :
  is_u32 window -> EncodePoolStateRecord window = Some value -> respects (saveWindow_body session ns window value).
Proof.
  intros Hu Ev. split; [|intros R; by apply saveWindow_spec].
  apply tx_local_bind; [apply tx_local_ensureSession|]. intros. unfold saveSessionSummary. tx_local_auto.
Qed.

(** The other requests of the same session. *)
Lemma respects_open {A : Type} (k : sessionSummary -> Tx W A) :
  (forall su, tx_local (k su)) ->
  (forall R su, tx_spec (fun m => open_ok session ns m R su) (k su)
    (fun _ m => journal_ok session ns m R) (fun m => journal_ok session ns m R)) ->
  respects (ensureSession session ns ≫= k).
Proof.
  intros Hl Hk. split; [apply tx_local_bind; [apply tx_local_ensureSession|done]|]. intros R. eapply tx_spec_bind; [|apply Hk].
  eapply tx_spec_mono; [apply (ensureSession_spec R)|done|exact (fun _ _ h => h)|done].
Qed.

Lemma foreign_namespaced kind r : is_byte kind -> kind ∉ [keyVote; keySession; keySummary; keyPoolState] ->
  foreign_key ns (namespacedPrefix kind ns ++ r).
Proof.
  intros Hb Hk. split; [apply not_vote_key; [done|done|set_solver]|].
  split_and!; intros E; symmetry in E; apply namespaced_inj_nil in E as (E & _); set_solver.
Qed.

Lemma markFinalized_respects id : sized_id id -> respects (markFinalized_body session ns id).
Proof.
  intros [Hs Hh]. apply respects_open.
  { intros su. unfold saveSessionSummary. tx_local_auto. }
  intros R su. eapply tx_spec_bind; [by apply (tx_spec_get _ _ (fun _ m => open_ok session ns m R su))|].
  intros [stored|]; [apply tx_spec_ret; intros m Ho; left; by exists su|].
  apply (tx_spec_bind _ _ _ (fun _ m => open_ok session ns m R su)).
  { apply tx_spec_Set. intros m. apply open_ok_foreign. apply (foreign_namespaced keyFinalized); [done|set_solver]. }
  intros _. apply (tx_spec_bind _ _ _ (fun n m => open_ok session ns m R su /\ 0 < n < 2 ^ 64)).
  { apply tx_spec_increment; [|intros m Ho; apply oo_wf in Ho as []; done]. intros m Ho [? ?] ?. split; [done|lia]. }
  intros n. apply tx_spec_Set. intros m [Ho Hn]. left. eexists. eapply open_ok_summary; [done|exact Ho| |by case_match].
  apply wf_finalized_summary; [by apply oo_wf in Ho|done|done].
Qed.

Lemma recordLeaderWindow_respects w :
  wf_window w -> validateLeaderWindow w = true -> respects (recordLeaderWindow_body session ns w).
Proof.
  intros Hw Hv. apply respects_open.
  { intros su. unfold saveSessionSummary. apply tx_local_bind; [|intros; tx_local_auto]. case_match; tx_local_auto. }
  intros R su. set (adv := match su_lastLeaderWindow su with None => true | Some last => lw_StartSlot last <? lw_StartSlot w end).
  apply (tx_spec_bind _ _ _ (fun n m => open_ok session ns m R su /\ is_u64 n /\ (adv = true -> 0 < n) /\
    (adv = false -> n = su_leaderWindows su))).
  { destruct adv; [apply tx_spec_increment|apply tx_spec_ret].
    - intros m Ho [? ?] ?. unfold is_u64. split_and!; [done|lia|lia|lia|done].
    - intros m Ho. by apply oo_wf in Ho as [].
    - intros m Ho. split_and!; [done|by apply oo_wf in Ho as []|done|done]. }
  intros n. apply tx_spec_Set. intros m (Ho & Hn & Ht & Hf). left. eexists. eapply open_ok_summary; [done|exact Ho| |by case_match].
  apply (wf_window_summary su n w); [by apply oo_wf in Ho|done..].
Qed.

Lemma saveDelegation_respects a value : respects (saveDelegation_body session ns a value).
Proof.
  apply respects_open; [intros su; tx_local_auto|].
  intros R su. eapply tx_spec_bind; [by apply (tx_spec_get _ _ (fun _ m => open_ok session ns m R su))|].
  assert (forall e, tx_spec (W := W) (fun m => open_ok session ns m R su) (tx_reject e)
    (fun _ : unit => fun m => journal_ok session ns m R) (fun m => journal_ok session ns m R)) as Hrej.
  { intros e. apply tx_spec_reject. intros m Ho. left. by exists su. }
  intros [stored|].
  - case_bool_decide; [apply tx_spec_ret; intros m Ho; left; by exists su|].
    apply (tx_spec_bind _ _ _ (fun _ m => open_ok session ns m R su)); [|intros b; by case_match].
    intros s Ho. unfold tx_of. destruct (decodeDelegationAuthorization stored); [done|]. left. by exists su.
  - apply tx_spec_Set. intros m Ho. left. exists su. apply open_ok_foreign; [|done].
    apply (foreign_namespaced keyDelegationAuthorization); [done|set_solver].
Qed.
End Requests.

(** ** Requests of other sessions *)

Section OtherSessions.
Context `{TLLaws} `{PebbleLaws} {W : Type}.

(** [m] writes keys of [K] only. *)
Definition touches {A : Type} (K : bytes -> Prop) (m : Tx W A) : Prop :=
  tx_local m /\ forall s k, ~ K k -> view (m s).2.1 !! k = view s.1 !! k.

Lemma touches_bind {A B : Type} K (m : Tx W A) (k : A -> Tx W B) :
  touches K m -> (forall a, touches K (k a)) -> touches K (m ≫= k).
Proof.
  intros [Lm Hm] Hk. split; [apply tx_local_bind; [done|apply Hk]|]. intros s key Hn. specialize (Hm s key Hn).
  unfold mbind, tx_bind. destruct (m s) as [[a|e] s']; simpl in *; [|done]. rewrite <- Hm. by apply Hk.
Qed.
Lemma touches_pure {A : Type} K (m : Tx W A) : (forall s, (m s).2 = s) -> touches K m.
Proof. intros Hm. split; [intros s; by rewrite Hm|]. intros s k _. by rewrite Hm. Qed.
Lemma touches_Set K key value : K key -> touches K (tx_Set key value).
Proof.
  intros HK. split; [apply tx_local_Set|]. intros s k Hn. unfold tx_Set, tx_write.
  destruct (batch_Set s.1 key value) as [b|] eqn:Es; [|done]. simpl. apply law_set in Es as [_ ->].
  rewrite lookup_insert_ne; [done|]. by intros ->.
Qed.
Lemma touches_Delete K key : K key -> touches K (tx_Delete key).
Proof.
  intros HK. split; [apply tx_local_Delete|]. intros s k Hn. unfold tx_Delete, tx_write.
  destruct (batch_Delete s.1 key) as [b|] eqn:Es; [|done]. simpl. apply law_delete in Es as [_ ->].
  rewrite lookup_delete_ne; [done|]. by intros ->.
Qed.
Lemma touches_DeleteRange K lo hi : (forall k, in_bounds lo hi k = true -> K k) -> touches K (tx_DeleteRange lo hi).
Proof.
  intros HK. split; [apply tx_local_DeleteRange|]. intros s k Hn. unfold tx_DeleteRange, tx_write.
  destruct (batch_DeleteRange s.1 lo hi) as [b|] eqn:Es; [|done]. simpl. apply law_delete_range in Es as [_ ->].
  unfold delete_range. rewrite map_lookup_filter. destruct (view s.1 !! k); [|done]. simpl.
  destruct (in_bounds lo hi k) eqn:E; [by apply HK in E|]. done.
Qed.

(** The keys of a session.  Validator keys and the collator's records are of later kinds. *)
Definition consensus_kind (kind : Z) : Prop := 0 <= kind < keyValidatorKey.
Lemma consensus_kind_byte kind : consensus_kind kind -> is_byte kind.
Proof. unfold consensus_kind, keyValidatorKey, is_byte. lia. Qed.
Definition session_key (ns k : bytes) : Prop :=
  exists kind, consensus_kind kind /\ in_bounds (prefixBounds (namespacedPrefix kind ns)).1 (prefixBounds (namespacedPrefix kind ns)).2 k = true.
Lemma session_key_app ns kind r : consensus_kind kind -> session_key ns (namespacedPrefix kind ns ++ r).
Proof. intros Hk. exists kind. split; [done|]. apply prefix_in_bounds. by exists r. Qed.
Lemma session_key_nil ns kind : consensus_kind kind -> session_key ns (namespacedPrefix kind ns).
Proof. intros Hk. rewrite <- (app_nil_r (namespacedPrefix kind ns)). by apply session_key_app. Qed.
Lemma session_key_inj ns ns' k :
  bytes_ok ns -> bytes_ok ns' -> length ns = length ns' -> session_key ns k -> session_key ns' k -> ns = ns'.
Proof.
  intros Hn Hn' Hl (kind & Hk & Hb) (kind' & Hk' & Hb').
  assert (namespacedPrefix kind ns = namespacedPrefix kind' ns') as E.
  { eapply ranges_disjoint; [constructor; [by apply consensus_kind_byte|done]..|simpl; lia|done|done]. }
  by injection E.
Qed.

Lemma journal_ok_agree session ns m m' R :
  (forall k, session_key ns k -> m' !! k = m !! k) -> journal_ok session ns m R -> journal_ok session ns m' R.
Proof.
  intros Ha. assert (forall R, rows_ok ns m R -> rows_ok ns m' R) as Hrows.
  { intros R' Hr k x Hk. rewrite Ha; [by apply Hr|]. exists keyVote. by split. }
  assert (m' !! poolStateKey ns = m !! poolStateKey ns) as Ep by by apply Ha, session_key_nil.
  assert (m' !! sessionKey ns = m !! sessionKey ns) as Ed by by apply Ha, session_key_nil.
  assert (m' !! summaryKey ns = m !! summaryKey ns) as Es by by apply Ha, session_key_nil.
  intros [[su [? ? ? ? Hp]]|[-> [? ? ?]]]; [left; exists su|right; split; [done|]]; constructor; rewrite ?Ed, ?Es, ?Ep; auto.
  unfold pool_ok in *. by rewrite Ep.
Qed.

Lemma other_session_respects {A : Type} session ns ns' (m : Tx W A) :
  bytes_ok ns -> bytes_ok ns' -> length ns = length ns' -> ns <> ns' -> touches (session_key ns') m -> respects session ns m.
Proof.
  intros Hn Hn' Hl Hne [Hloc Ht]. split; [done|]. intros R s Hj.
  assert (journal_ok session ns (view (m s).2.1) R) as Hj'.
  { eapply journal_ok_agree; [|exact Hj]. intros k Hk. apply Ht. intros Hk'. by eapply Hne, session_key_inj. }
  by destruct (m s) as [[a|[e|e]] s'].
Qed.

Ltac touches_auto :=
  repeat first
    [ apply touches_bind; [|intros]
    | apply touches_Set; first [by apply session_key_nil | by apply session_key_app]
    | apply touches_Delete; by apply session_key_nil
    | match goal with
      | |- touches _ (getBatchCopy _) => apply touches_pure; intros s; unfold getBatchCopy; by destruct (batch_Get _ _)
      | |- touches _ (tx_of _ ?r) => apply touches_pure; intros s; unfold tx_of; by destruct r
      | |- touches _ (incrementSummaryCount _) => apply touches_pure; intros s; unfold incrementSummaryCount; by destruct (_ =? _)
      | |- touches _ (match ?x with _ => _ end) => destruct x
      end
    | apply touches_pure; intros ?; reflexivity ].

Lemma touches_ensureSession id ns : touches (session_key ns) (ensureSession id ns).
Proof. unfold ensureSession, saveSessionSummary, loadSessionSummary. touches_auto. Qed.

Lemma saves_touch session ns key value id w a value' :
  touches (session_key ns) (saveOurVote_body session ns (voteKey ns key) value) /\
  touches (session_key ns) (saveCertificate_body session ns (voteKey ns key) value) /\
  touches (session_key ns) (markFinalized_body session ns id) /\
  touches (session_key ns) (recordLeaderWindow_body session ns w) /\
  touches (session_key ns) (saveDelegation_body session ns a value').
Proof.
  split_and!; (apply touches_bind; [apply touches_ensureSession|intros su]); unfold saveSessionSummary; touches_auto.
Qed.

Lemma deleteSession_touches closeNamespace session ns :
  touches (session_key ns) closeNamespace -> touches (session_key ns) (deleteSession_body closeNamespace session ns).
Proof.
  intros Hc. unfold deleteSession_body. touches_auto; try done; apply touches_DeleteRange; intros k Hb; eexists; (split; [|exact Hb]); done.
Qed.

Lemma delete_prefixes_ok l (s s' : Batch * W) :
  delete_prefixes l s = (Ok tt, s') ->
  forall k, (view s.1 !! k = None -> view s'.1 !! k = None) /\
    (forall p, p ∈ l -> in_bounds (prefixBounds p).1 (prefixBounds p).2 k = true -> view s'.1 !! k = None).
Proof.
  revert s. induction l as [|p l IH]; intros s; cbn [delete_prefixes].
  { intros [= <-] k. split; [done|]. by intros p ?%elem_of_nil. }
  unfold mbind, tx_bind, tx_DeleteRange, tx_write. destruct (batch_DeleteRange s.1 _ _) as [b|] eqn:Es; [|done].
  intros E k. apply law_delete_range in Es as [_ Ev]. destruct (IH _ E k) as [Hn Hp]. cbn [fst] in Hn.
  assert (view s.1 !! k = None \/ in_bounds (prefixBounds p).1 (prefixBounds p).2 k = true -> view s'.1 !! k = None) as Hk.
  { intros Hc. apply Hn. rewrite Ev. unfold delete_range. apply map_lookup_filter_None.
    destruct Hc as [|Hc]; [by left|right]. intros x _ Hf. cbn [fst] in Hf. congruence. }
  split; [auto|]. intros q [->|Hq]%elem_of_cons Hb; [auto|by eapply Hp].
Qed.

Lemma deleteSession_ok (closeNamespace : Tx W unit) session ns (s s' : Batch * W) :
  (forall s, (closeNamespace s).2.1 = s.1) -> deleteSession_body closeNamespace session ns s = (Ok tt, s') ->
  forall k, k = sessionKey ns \/ (exists p, p ∈ deletePrefixes ns /\ in_bounds (prefixBounds p).1 (prefixBounds p).2 k = true) ->
    view s'.1 !! k = None.
Proof.
  intros Hc Hr k Hk. unfold deleteSession_body, getBatchCopy, mbind, tx_bind in Hr. remember (delete_prefixes (deletePrefixes ns)) as dp eqn:Edp.
  destruct (batch_Get s.1 (sessionKey ns)) as [stored| |]; [|done..]. unfold tx_of in Hr.
  destruct (decodeSessionID stored) as [id|]; [|done]. destruct (negb _); [done|].
  destruct (batch_Get s.1 (summaryKey ns)) as [summary| |]; [|done..]. destruct (decodeSessionSummary summary); [|done].
  destruct (dp s) as [[[]|e] s1] eqn:E1; [|done]. subst dp. pose proof (delete_prefixes_ok _ _ _ E1) as Hd.
  unfold tx_Delete, tx_write in Hr. destruct (batch_Delete s1.1 (sessionKey ns)) as [b|] eqn:E2; [|done].
  apply law_delete in E2 as [_ E2]. specialize (Hc (b, s1.2)). rewrite Hr in Hc. simpl in Hc. rewrite Hc, E2.
  destruct Hk as [->|(p & Hp & Hb)]; [apply lookup_delete_eq|]. apply lookup_delete_None. right. by eapply Hd.
Qed.

Lemma delete_kinds ns kind : keyVote <= kind <= keyDelegationAuthorization -> namespacedPrefix kind ns ∈ deletePrefixes ns.
Proof.
  unfold keyVote, keyDelegationAuthorization. intros Hk.
  assert (kind ∈ seqZ 2 9) as Hin by (apply elem_of_seqZ; lia). cbn in Hin.
  repeat (apply elem_of_cons in Hin as [->|Hin]; [apply list_elem_of_In; simpl; tauto|]). by apply elem_of_nil in Hin.
Qed.

End OtherSessions.

(** ** The scan returns the records *)

Definition vote_of (r : record) : option (Z * Vote) := match r with RVote v s => Some (s, v) | RCert _ => None end.
Definition cert_of (r : record) : option Certificate := match r with RVote _ _ => None | RCert c => Some c end.
Definition votes_of (R : list record) : list (Z * Vote) := omap vote_of R.
Definition certs_of (R : list record) : list Certificate := omap cert_of R.

(** Own votes are numbered from zero, in order. *)
Definition numbered (R : list record) : Prop := (votes_of R).*1 = Z.of_nat <$> seq 0 (length (votes_of R)).

(** The bookkeeping of the scan over a list of records. *)
Definition next_seq (n : Z) (r : record) : Z :=
  match r with RVote _ s => if n <=? s then s + 1 else n | RCert _ => n end.

Lemma next_seq_bound n R : 0 <= n -> (forall s v, (s, v) ∈ votes_of R -> 0 <= s) ->
  let N := foldl next_seq n R in
  n <= N /\ (forall s v, (s, v) ∈ votes_of R -> s < N) /\ (N = n \/ exists s v, (s, v) ∈ votes_of R /\ N = s + 1).
Proof.
  revert n. induction R as [|r R IH]; intros n Hn Hs; simpl; [split_and!; [lia|by intros s v ?%elem_of_nil|by left]|].
  destruct r as [v s|c]; simpl in *.
  - destruct (IH (if n <=? s then s + 1 else n)) as (I1 & I2 & I3).
    { destruct (Z.leb_spec n s); lia. }
    { intros s' v' Hin. apply (Hs s' v'). by right. }
    split_and!; [destruct (Z.leb_spec n s); lia| |].
    + intros s' v' [[= -> ->]|Hin]%elem_of_cons; [destruct (Z.leb_spec n s); lia|by eapply I2].
    + destruct I3 as [->|(s' & v' & Hin & ->)]; [|right; exists s', v'; split; [by right|done]].
      destruct (Z.leb_spec n s); [right; exists s, v; split; [by left|done]|by left].
  - by apply IH.
Qed.

Lemma numbered_lookup R i s v : numbered R -> votes_of R !! i = Some (s, v) -> s = Z.of_nat i.
Proof.
  intros Hn Hi. assert ((votes_of R).*1 !! i = Some s) as Hs by by rewrite list_lookup_fmap, Hi.
  rewrite Hn, list_lookup_fmap in Hs. apply lookup_lt_Some in Hi. rewrite lookup_seq_lt in Hs by done. simpl in Hs. congruence.
Qed.
Lemma numbered_snoc R v s : numbered R -> s = Z.of_nat (length (votes_of R)) -> numbered (R ++ [RVote v s]).
Proof.
  unfold numbered, votes_of. intros Hn ->. rewrite omap_app. simpl. rewrite length_app, fmap_app, Hn. simpl.
  by rewrite seq_app, fmap_app.
Qed.
Lemma numbered_cert R c : numbered R -> numbered (R ++ [RCert c]).
Proof. unfold numbered, votes_of. intros Hn. rewrite omap_app. simpl. by rewrite app_nil_r. Qed.
Lemma votes_of_take R n : votes_of (take n R) `prefix_of` votes_of R.
Proof. exists (votes_of (drop n R)). unfold votes_of. by rewrite <- omap_app, take_drop. Qed.
Lemma numbered_prefix R n : numbered R -> numbered (take n R).
Proof.
  intros Hn. destruct (votes_of_take R n) as [rest E]. unfold numbered in *. rewrite E, fmap_app, length_app, seq_app, fmap_app in Hn.
  apply app_inj_1 in Hn as [Hn _]; [done|]. by rewrite !length_fmap, length_seq.
Qed.

Lemma next_seq_numbered R L : numbered R -> L ≡ₚ R -> foldl next_seq 0 L = Z.of_nat (length (votes_of R)).
Proof.
  intros Hn HL. assert (votes_of L ≡ₚ votes_of R) as HV by (unfold votes_of; by rewrite HL).
  assert (forall s v, (s, v) ∈ votes_of L -> 0 <= s < Z.of_nat (length (votes_of R))) as Hr.
  { intros s v Hin. rewrite HV in Hin. apply list_elem_of_lookup in Hin as [i Hi]. pose proof (lookup_lt_Some _ _ _ Hi).
    rewrite (numbered_lookup _ _ _ _ Hn Hi). lia. }
  destruct (next_seq_bound 0 L) as (H1 & H2 & H3); [lia|intros s v Hin; by eapply Hr|].
  assert (Z.of_nat (length (votes_of R)) <= foldl next_seq 0 L).
  { destruct (decide (length (votes_of R) = 0%nat)) as [|Hne]; [lia|].
    destruct (lookup_lt_is_Some_2 (votes_of R) (length (votes_of R) - 1)) as [[s v] Hl]; [lia|].
    pose proof (numbered_lookup _ _ _ _ Hn Hl). assert (s < foldl next_seq 0 L); [|lia]. eapply H2. rewrite HV.
    by eapply list_elem_of_lookup_2. }
  destruct H3 as [?|(s & v & Hin & E)]; [lia|]. specialize (Hr s v Hin). lia.
Qed.

(** Sorting by sequence number. *)
Definition seq_le (p q : Z * Vote) : Prop := p.1 <= q.1.
Lemma sort_place_perm p l : sort_place p l ≡ₚ p :: l.
Proof. induction l as [|q l IH]; simpl; [done|]. destruct (p.1 <? q.1); [done|]. rewrite IH. apply Permutation_swap. Qed.
Lemma sort_votes_perm l : sort_votes l ≡ₚ l.
Proof. induction l as [|p l IH]; simpl; [done|]. unfold sort_votes in IH. by rewrite sort_place_perm, IH. Qed.
Lemma sort_place_sorted p l : StronglySorted seq_le l -> StronglySorted seq_le (sort_place p l).
Proof.
  induction 1 as [|q l Hs IH Hq]; simpl; [by repeat constructor|]. unfold seq_le in *. destruct (Z.ltb_spec p.1 q.1).
  - constructor; [by constructor|]. constructor; [lia|]. eapply Forall_impl; [exact Hq|]. simpl. lia.
  - constructor; [done|]. apply Forall_forall. intros r. rewrite sort_place_perm. intros [->|Hr]%elem_of_cons; [lia|].
    rewrite Forall_forall in Hq. by apply Hq.
Qed.
Lemma sort_votes_sorted l : StronglySorted seq_le (sort_votes l).
Proof. induction l; simpl; [constructor|]. by apply sort_place_sorted. Qed.

Lemma seq_sorted (l : list (Z * Vote)) k : l.*1 = Z.of_nat <$> seq k (length l) -> StronglySorted seq_le l.
Proof.
  revert k. induction l as [|p l IH]; intros k; [constructor|]. cbn. intros [= E1 E2]. constructor; [by eapply IH|].
  apply Forall_forall. intros q Hq. apply (list_elem_of_fmap_2 fst) in Hq. rewrite E2 in Hq.
  apply list_elem_of_fmap in Hq as (i & Ei & Hi%elem_of_seq). unfold seq_le. lia.
Qed.
Lemma numbered_sorted R : numbered R -> StronglySorted seq_le (votes_of R).
Proof. apply seq_sorted. Qed.
Lemma sort_numbered R L : numbered R -> L ≡ₚ R -> sort_votes (votes_of L) = votes_of R.
Proof.
  intros Hn HL. apply (StronglySorted_unique_strong seq_le); [|apply sort_votes_sorted|by apply numbered_sorted|].
  - intros [s v] [s' v'] Hp Hq H1 H2. unfold seq_le in *. simpl in *. assert (s = s') as <- by lia.
    rewrite sort_votes_perm in Hp. unfold votes_of in Hp. rewrite HL in Hp. fold (votes_of R) in Hp.
    apply list_elem_of_lookup in Hp as [i Hi], Hq as [j Hj].
    pose proof (numbered_lookup _ _ _ _ Hn Hi). pose proof (numbered_lookup _ _ _ _ Hn Hj). assert (i = j) as <- by lia. congruence.
  - rewrite sort_votes_perm. unfold votes_of. by rewrite HL.
Qed.
Lemma numbered_distinct R : numbered R -> has_duplicate (votes_of R) = false.
Proof.
  intros Hn. assert (forall i p q, votes_of R !! i = Some p -> votes_of R !! S i = Some q -> p.1 <> q.1) as Hd.
  { intros i [s v] [s' v'] Hi Hj. rewrite (numbered_lookup _ _ _ _ Hn Hi), (numbered_lookup _ _ _ _ Hn Hj). simpl. lia. }
  clear Hn. induction (votes_of R) as [|p [|q l] IH]; [done..|]. cbn [has_duplicate].
  rewrite (proj2 (Z.eqb_neq _ _)) by (by apply (Hd 0%nat)). apply IH. intros i. apply (Hd (S i)).
Qed.

Section ScanProofs.
Context `{TLLaws} (session : SessionStorageID) (ns : bytes) (maxSignatures : nat).

Lemma scan_row_ok acc r k x h :
  wf_record maxSignatures r -> rec_row ns r k x -> rec_hash r = Some h -> h ∉ sc_reserved acc ->
  scan_row ns maxSignatures acc k x = Some (Ok (mkScanned ({[h]} ∪ sc_reserved acc)
    (sc_votes acc ++ option_list (vote_of r)) (sc_certificates acc ++ option_list (cert_of r)) (next_seq (sc_nextSeq acc) r))).
Proof.
  intros Hr (h' & rk & Eh & Ek & -> & Ex) E Hn. simplify_eq. destruct (value_decodes r maxSignatures Hr) as (x' & Ex' & Ed).
  simplify_eq. unfold scan_row. rewrite Ed. destruct r as [v s|c]; simpl in Eh.
  - destruct Hr as [_ Hs]. rewrite (proj2 (Z.ltb_ge _ _)) by lia. rewrite Eh. simpl. rewrite Ek. simpl.
    rewrite bool_decide_true by done. cbn [negb]. rewrite bool_decide_false by done.
    rewrite i64_small by (unfold is_i64; lia). by rewrite app_nil_r.
  - rewrite Eh. simpl. rewrite Ek. simpl. rewrite bool_decide_true by done. cbn [negb]. rewrite bool_decide_false by done.
    by rewrite app_nil_r.
Qed.

Lemma scan_rows_ok L l acc :
  Forall2 (fun r kx => rec_row ns r kx.1 kx.2) L l -> Forall (wf_record maxSignatures) L -> NoDup (rec_hash <$> L) ->
  (forall r h, r ∈ L -> rec_hash r = Some h -> h ∉ sc_reserved acc) ->
  scan_rows ns maxSignatures acc l = Some (Ok (mkScanned (list_to_set (omap rec_hash L) ∪ sc_reserved acc)
    (sc_votes acc ++ votes_of L) (sc_certificates acc ++ certs_of L) (foldl next_seq (sc_nextSeq acc) L))).
Proof.
  intros Hrows. revert acc. induction Hrows as [|r [k x] L l Hrow _ IH]; intros acc HL Hnd Hfresh.
  { simpl. destruct acc; simpl. by rewrite union_empty_l_L, !app_nil_r. }
  apply Forall_cons in HL as [Hr HL]. rewrite fmap_cons in Hnd. apply NoDup_cons in Hnd as [Hni Hnd].
  pose proof Hrow as (h & _ & Eh & _). cbn [scan_rows].
  rewrite (scan_row_ok acc r k x h Hr Hrow Eh) by (eapply Hfresh; [by left|done]). cbn [mbind option_bind].
  rewrite IH; [|done..|].
  - cbn [sc_reserved sc_votes sc_certificates sc_nextSeq]. f_equal. f_equal. f_equal.
    + simpl. rewrite Eh. simpl. set_solver.
    + unfold votes_of. simpl. rewrite <- app_assoc. f_equal. by destruct (vote_of r).
    + unfold certs_of. simpl. rewrite <- app_assoc. f_equal. by destruct (cert_of r).
  - intros r' h' Hin Eh'. cbn [sc_reserved]. apply not_elem_of_union. split; [|eapply Hfresh; [by right|done]].
    intros ->%elem_of_singleton. apply Hni, list_elem_of_fmap. exists r'. split; [congruence|done].
Qed.

Lemma sorted_keys_nodup (l : list (bytes * bytes)) : StronglySorted key_lt l -> NoDup l.*1.
Proof.
  induction 1 as [|p l Hs IH Hp]; simpl; constructor; [|done].
  intros (q & Eq & Hq)%list_elem_of_fmap. rewrite Forall_forall in Hp. specialize (Hp q Hq). unfold key_lt in Hp.
  by rewrite <- Eq, bytes_Less_irrefl in Hp.
Qed.

(** An iterator over the journal yields the rows of its records. *)
Lemma range_records m R l failed :
  Forall (wf_record maxSignatures) R -> NoDup (rec_hash <$> R) -> rows_ok ns m R ->
  range_of m (prefixBounds (votePrefix ns)).1 (prefixBounds (votePrefix ns)).2 (l, failed) ->
  exists L, Forall2 (fun r kx => rec_row ns r kx.1 kx.2) L l /\ Forall (wf_record maxSignatures) L /\
    NoDup (rec_hash <$> L) /\ (failed = false -> L ≡ₚ R).
Proof.
  intros HR Hnd Hrows (Hsorted & Hin & Hall). cbn [fst snd] in *. rewrite Forall_forall in HR.
  assert (exists L, Forall2 (fun r kx => r ∈ R /\ rec_row ns r kx.1 kx.2) L l) as [L HL].
  { assert (Forall (fun kx => exists r, r ∈ R /\ rec_row ns r kx.1 kx.2) l) as Hf.
    { apply Forall_forall. intros [k x] Hkx. destruct (Hin k x Hkx) as [Hm Hb]. by apply (Hrows k x Hb). }
    clear Hsorted Hin Hall. induction Hf as [|kx l [r Hr] _ [L HL]]; [by exists []|]. exists (r :: L). by constructor. }
  assert (Forall2 (fun r kx => rec_row ns r kx.1 kx.2) L l) as HL2 by (eapply Forall2_impl; [exact HL|by intros ? ? []]).
  assert (forall r, r ∈ L -> r ∈ R) as Hsub.
  { intros r Hr. apply list_elem_of_lookup in Hr as [i Hi]. destruct (Forall2_lookup_l _ _ _ _ _ HL Hi) as (kx & _ & ? & _). done. }
  assert (forall r r', r ∈ R -> r' ∈ R -> rec_hash r = rec_hash r' -> r = r') as Hinj.
  { intros r r' Hr Hr' E. apply list_elem_of_lookup in Hr as [i Hi], Hr' as [i' Hi'].
    assert (i = i') as <-; [|congruence]. eapply NoDup_lookup; [exact Hnd|rewrite list_lookup_fmap, Hi; done|].
    rewrite list_lookup_fmap, Hi'. simpl. by rewrite E. }
  assert (NoDup L) as HnL.
  { apply NoDup_alt. intros i i' r Hi Hi'. destruct (Forall2_lookup_l _ _ _ _ _ HL2 Hi) as ([k x] & Hk & Hrow).
    destruct (Forall2_lookup_l _ _ _ _ _ HL2 Hi') as ([k' x'] & Hk' & Hrow').
    assert (k = k') as <-.
    { cbn [fst snd] in Hrow, Hrow'. destruct Hrow as (h & rk & Eh & Ek & -> & _), Hrow' as (h' & rk' & Eh' & Ek' & -> & _). congruence. }
    eapply NoDup_lookup; [exact (sorted_keys_nodup l Hsorted)|by rewrite list_lookup_fmap, Hk|by rewrite list_lookup_fmap, Hk']. }
  exists L. split_and!; [done|apply Forall_forall; auto|apply NoDup_fmap_2_strong; auto|].
  intros ->. specialize (Hall eq_refl). apply NoDup_Permutation; [done|eapply NoDup_fmap_1; exact Hnd|].
  intros r. split; [apply Hsub|]. intros Hr. destruct (rec_row_some ns r maxSignatures (HR r Hr)) as (k & x & Hrow).
  pose proof (rec_row_bounds ns r k x Hrow) as Hb.
  assert (m !! k = Some x) as Hm by (apply (Hrows k x Hb); by exists r). pose proof (Hall k x Hm Hb) as Hkx.
  apply list_elem_of_lookup in Hkx as [i Hi]. destruct (Forall2_lookup_r _ _ _ _ _ HL Hi) as (r' & Hr' & Hin' & Hrow').
  rewrite (Hinj r r' Hr Hin'); [by eapply list_elem_of_lookup_2|]. eapply rec_row_key; [by apply HR|by apply HR|done..].
Qed.
End ScanProofs.

(** What the records of a session must satisfy. *)
Record wf_records `{TLRuntime} (maxSignatures : nat) (R : list record) : Prop := {
  wr_each : Forall (wf_record maxSignatures) R;
  wr_distinct : NoDup (rec_hash <$> R);
  wr_numbered : numbered R }.

Section ScanResult.
Context `{TLLaws} `{PebbleLaws} (session : SessionStorageID) (ns : bytes) (maxSignatures : nat).
Hypothesis Hwf : wf_session session.
Hypothesis Hval : SessionStorageID_Validate session = true.

(** What [scan] makes of the records [R]: votes in the order of their numbers, the
    certificates in some order. *)
Definition scan_result (m : kv) (R : list record) (r : BootstrapState * gset bytes * Z) : Prop :=
  exists L window, L ≡ₚ R /\ pool_ok ns m window /\
    r = (mkBootstrap window (votes_of R).*2 (Some <$> certs_of L), list_to_set (omap rec_hash R), Z.of_nat (length (votes_of R))).

Lemma scan_spec db j m R :
  j_session j = session -> j_namespace j = ns -> j_maxSignatures j = maxSignatures ->
  last (versions db) = Some m -> journal_ok session ns m R -> wf_records maxSignatures R ->
  scan false db j = Some (Err ErrIO) \/ absent ns m /\ scan false db j = Some (Err ErrRecordNotFound) \/
  exists r, scan_result m R r /\ scan false db j = Some (Ok r).
Proof.
  intros E1 E2 E3 Hlast Hj [HR Hnd Hnum]. unfold scan, validateStoredDescriptor, readerGetCopy. rewrite E1, E2, E3.
  pose proof (law_get db (sessionKey ns) m Hlast) as Hd. destruct Hj as [[su [Hrows Ed Es Hsu Hp]]|[-> Ha]].
  2:{ pose proof (ab_desc _ _ Ha) as E. destruct (db_Get db (sessionKey ns)); simpl in *; [congruence|by right; left|by left]. }
  destruct (db_Get db (sessionKey ns)) as [v| |]; simpl in Hd; [|congruence|by left]. cbn [and_then].
  unfold codec. rewrite Ed in Hd. injection Hd as <-. rewrite (decode_encode_sessionID session Hwf Hval). cbn [and_then].
  rewrite bool_decide_true by done. cbn [negb]. pose proof (law_get db (summaryKey ns) m Hlast) as Hs.
  destruct (db_Get db (summaryKey ns)) as [v| |]; simpl in Hs; [|congruence|by left]. rewrite Es in Hs. injection Hs as <-. cbn [and_then].
  rewrite (decode_encode_summary su Hsu). cbn [and_then]. pose proof (law_get db (poolStateKey ns) m Hlast) as Hpo.
  unfold pool_ok in Hp.
  assert (db_Get db (poolStateKey ns) = ReadFailed \/ exists pool, and_then (match db_Get db (poolStateKey ns) with
    | Found v => Ok (Some v) | NotFound => Ok None | ReadFailed => Err ErrIO end) (fun pool =>
      match pool with None => Ok 0
      | Some pool => match DecodePoolStateRecord pool with Ok w => Ok w | Err _ => Err ErrCorrupt end end)
    = Ok pool /\ pool_ok ns m pool) as [Ef|(window & Ew & Hw)].
  { destruct (db_Get db (poolStateKey ns)) as [v| |]; simpl in Hpo; [right|right|by left]; rewrite Hpo in Hp; cbn [and_then].
    - rewrite Hp. eexists. split; [done|]. unfold pool_ok. by rewrite Hpo.
    - eexists. split; [done|]. unfold pool_ok. by rewrite Hpo. }
  { rewrite Ef. by left. }
  rewrite Ew. destruct (db_Iter db _ _) as [[l failed]|] eqn:Ei; [|by left].
  pose proof (law_iter _ _ _ _ _ Hlast Ei) as Hr.
  destruct (range_records ns maxSignatures m R l failed HR Hnd Hrows Hr) as (L & Hf2 & HwL & HnL & HL).
  rewrite (scan_rows_ok ns maxSignatures L l); [|done..|set_solver]. cbn [mbind option_bind].
  destruct failed; [by left|]. specialize (HL eq_refl).
  cbn [sc_votes sc_nextSeq sc_certificates sc_reserved app]. rewrite (sort_numbered R L Hnum HL), (numbered_distinct R Hnum).
  right. right. eexists. split; [|done]. exists L, window. split_and!; [done|done|].
  rewrite (next_seq_numbered R L Hnum HL). f_equal. f_equal. rewrite union_empty_r_L, HL. done.
Qed.
End ScanResult.

(** ** Example *)

(** Two sessions, the first of which is deleted. *)
Module ExampleDelete.
Import MemPebble.

Definition gone : bytes := replicate 48 1.
Definition kept_ns : bytes := replicate 48 2.
Definition rows : list (bytes * bytes) := [(summaryKey gone, [0]); (summaryKey kept_ns, [7])].
Definition held : SessionStorageID :=
  mkSessionStorageID (replicate 32 9) (mkShardID 0 0) 0 true (replicate 32 5) (replicate 32 6) 1 (mkSessionProtocol 0 0 0 false 4).
Definition close_packs : Tx unit unit := fun s => (Ok tt, s).

End ExampleDelete.
