(* ===== verification/StoreKeyring.v ===== *)
(** * The validator store as the keyring's storage

    [validator_keys.go] of [src/service/validator/pebblestore]: [LoadValidatorKeys]
    and [SaveValidatorKey], and the proof that they keep the promises of
    [KeyStorageLaws] ([Keyring.v]).  The save is one request of the store's single
    writer; which batches of other requests are committed before it, and which
    share its batch, is part of the state. *)

From S2P Require Import Prelude.
From S2P Require Import SimplexTypes.
From S2P Require Import SimplexWire.
From S2P Require Import Sha256.
From S2P Require Import SimplexCert.
From S2P Require Import SimplexCandidate.
From S2P Require Import StoreKeys.
From S2P Require Import StoreCodec.
From S2P Require Import Pebble.
From S2P Require Import StoreWriter.
From S2P Require Import StoreHistory.
From S2P Require Import Keyring.
From S2P Require Import StoreSession.
From S2P Require Import StoreRecovery.

#[local] Open Scope Z_scope.

(** ** The code *)

Section KeyStore.
Context `{Pebble} {W : Type}.

Definition saveValidatorKey_body (key : StoredKey) (value : bytes) : Tx W unit :=
  let storageKey := validatorKeyKey (sk_ID key) in
  stored ← getBatchCopy storageKey;
  match stored with
  | Some storedValue =>
      stored ← tx_of Rejected (decodeValidatorKey (sk_ID key) storedValue);
      if negb (bool_decide (sk_Seed stored = sk_Seed key)) then tx_reject ErrSeedChanged
      else if bool_decide (storedValue = value) then mret tt
      else tx_Set storageKey value
  | None => tx_Set storageKey value
  end.

Definition load_key (keys : list StoredKey) (key value : bytes) : result store_error (list StoredKey) :=
  match validatorKeyIDFromKey key with
  | None => Err ErrCorrupt
  | Some id => and_then (codec (decodeValidatorKey id value)) (fun stored => Ok (keys ++ [stored]))
  end.
Definition loadKeys (db : DB) : result store_error (list StoredKey) := iteratePrefix db validatorKeyPrefix load_key [].

(** What happens around one save: the context of the caller, an error of
    [submitContext], the batches committed before that of the save, and the
    requests that share its batch.  The callbacks are marked with the key saved,
    [None] for those of others. *)
Notation request := (writeRequest W (option StoredKey)).
Record save_env := mkSaveEnv {
  se_ctxErr : bool;
  se_refused : option store_error;
  se_before : list (list request);
  se_ahead : list request;
  se_behind : list request }.

Record KeyStore := mkKeyStore { kd_db : DB; kd_w : W; kd_env : list save_env }.

(** A batch, up to its callbacks. *)
Definition commit_batch (rqs : list request) (s : DB * W) : list (option StoredKey * option store_error) * (DB * W) :=
  let '(fl, db, w) := commitRequests rqs s.1 s.2 in
  let '(fl, db) := callback_sync fl db in
  (fl_done fl, (db, w)).
Definition commit_batches (l : list (list request)) (s : DB * W) : DB * W := foldl (fun s rqs => (commit_batch rqs s).2) s l.

(** [SaveValidatorKey] up to its return, [e] being what happens around it. *)
Definition saveKey (e : save_env) (key : StoredKey) (s : DB * W) : result store_error unit * (DB * W) :=
  if se_ctxErr e then (Err ErrContext, s)
  else
    match encodeValidatorKey key with
    | Err er => (Err (ErrRecord er), s)
    | Ok value =>
        match se_refused e with
        | Some er => (Err er, s)
        | None =>
            let rq := mkRequest (saveValidatorKey_body key value) (Some key) (Z.of_nat (length value)) durableCommitment in
            let s := commit_batches (se_before e) s in
            let '(results, s) := commit_batch (se_ahead e ++ rq :: se_behind e) s in
            match results !! length (se_ahead e) with
            | Some (_, None) => (Ok tt, s)
            | Some (_, Some er) => (Err er, s)
            | None => (Err ErrPanic, s)
            end
        end
    end.
Definition undisturbed : save_env := mkSaveEnv false None [] [] [].
Definition storeKey (key : StoredKey) (s : KeyStore) : result store_error unit * KeyStore :=
  let '(e, rest) := match kd_env s with [] => (undisturbed, []) | e :: rest => (e, rest) end in
  let '(r, (db, w)) := saveKey e key (kd_db s, kd_w s) in (r, mkKeyStore db w rest).
End KeyStore.
Arguments save_env {_} W.
Arguments KeyStore {_} W.

(** ** The keys in a database *)

Definition key_row (k : bytes) : bool := in_bounds (prefixBounds validatorKeyPrefix).1 (prefixBounds validatorKeyPrefix).2 k.
Definition row_key (k v : bytes) : option StoredKey :=
  match k with
  | kind :: id =>
      if (kind =? keyValidatorKey) && (length id =? 32)%nat then
        match decodeValidatorKey id v with Ok K => Some K | Err _ => None end
      else None
  | [] => None
  end.
Definition keys_of (m : kv) : gmap bytes StoredKey :=
  map_fold (fun k v acc => match row_key k v with Some K => <[sk_ID K := K]> acc | None => acc end) ∅ m.

(** All rows of the range are keys. *)
Definition key_rows_ok (m : kv) : Prop := forall k v, m !! k = Some v -> key_row k = true ->
  exists id K, k = validatorKeyKey id /\ length id = 32%nat /\ decodeValidatorKey id v = Ok K.

Lemma decoded_key id v K : decodeValidatorKey id v = Ok K -> sk_ID K = id /\ validateValidatorKey K = true.
Proof.
  unfold decodeValidatorKey. destruct (negb (_ =? _)%nat); [done|]. destruct (negb (_ =? _)); [done|].
  destruct (negb (Z.ldiff _ _ =? 0)); [done|]. destruct (validateValidatorKey _) eqn:E; [|done]. by intros [= <-].
Qed.
Lemma row_key_Some k v K : row_key k v = Some K <->
  k = validatorKeyKey (sk_ID K) /\ length (sk_ID K) = 32%nat /\ decodeValidatorKey (sk_ID K) v = Ok K.
Proof.
  split.
  - destruct k as [|kind id]; cbn; [done|]. destruct ((kind =? keyValidatorKey) && _) eqn:E; [|done].
    apply andb_prop in E as [->%Z.eqb_eq Hl%Nat.eqb_eq]. destruct (decodeValidatorKey id v) eqn:Ed; [|done]. intros [= ->].
    by destruct (decoded_key _ _ _ Ed) as [-> _].
  - intros (-> & Hl & Hd). cbn. rewrite Hl. cbn. by rewrite Hd.
Qed.
Lemma lookup_keys_of m id K : keys_of m !! id = Some K <->
  length id = 32%nat /\ exists v, m !! validatorKeyKey id = Some v /\ decodeValidatorKey id v = Ok K.
Proof.
  revert id K. unfold keys_of. apply (map_fold_weak_ind (fun acc m => forall id K, acc !! id = Some K <->
    length id = 32%nat /\ exists v, m !! validatorKeyKey id = Some v /\ decodeValidatorKey id v = Ok K)).
  { intros id K. rewrite lookup_empty. split; [done|]. intros (_ & v & Hv & _). by rewrite lookup_empty in Hv. }
  clear m. intros k v m acc Hk IH id K. destruct (row_key k v) as [K0|] eqn:Er.
  - apply row_key_Some in Er as (-> & Hl & Hd). destruct (decide (id = sk_ID K0)) as [->|Hne].
    + rewrite lookup_insert_eq. split; [intros [= <-]; split; [done|]; exists v; by rewrite lookup_insert_eq|].
      intros (_ & v' & Hv & Hd'). rewrite lookup_insert_eq in Hv. congruence.
    + rewrite lookup_insert_ne, IH by done. rewrite lookup_insert_ne; [done|]. by intros [= E].
  - rewrite IH. split; (intros (Hl & v' & Hv & Hd); split; [done|exists v'; split; [|done]]).
    + rewrite lookup_insert_ne; [done|]. intros ->. rewrite Hk in Hv. done.
    + apply lookup_insert_Some in Hv as [[-> ->]|[_ Hv]]; [|done]. exfalso.
      destruct (decoded_key _ _ _ Hd) as [Ei _]. assert (row_key (validatorKeyKey id) v' = Some K) by (apply row_key_Some; by rewrite Ei).
      congruence.
Qed.
Lemma key_row_key id : key_row (validatorKeyKey id) = true.
Proof. apply prefix_in_bounds. by exists id. Qed.

(** ** The laws *)

Section Laws.
Context `{PebbleLaws} {W : Type}.
Notation request := (writeRequest W (option StoredKey)).
Implicit Types (rq : request) (K : StoredKey) (m : kv).

(** A request of somebody else. *)
Definition foreign_request rq : Prop :=
  rq_done rq = None /\ touches (fun k => key_row k = false) (rq_apply rq).
Record env_ok (e : save_env W) : Prop := {
  eo_before : Forall (Forall foreign_request) (se_before e);
  eo_ahead : Forall foreign_request (se_ahead e);
  eo_behind : Forall foreign_request (se_behind e);
  (** A batch has one durability class. *)
  eo_class : Forall (fun rq => rq_durability rq = durableCommitment) (se_ahead e) }.

(** The order of states while [K] is being saved. *)
Definition keys_move K m m' : Prop := maybe_saved (keys_of m) K (keys_of m').
Definition moves_key K m (_ : W) m' (_ : W) : Prop := key_rows_ok m' /\ keys_move K m m'.
Definition key_saved K (d : option StoredKey) m (_ : W) : Prop := d = Some K -> keys_of m !! sk_ID K = Some K.
Definition rows_inv m (_ : W) : Prop := key_rows_ok m.
Definition no_move (_ _ : W) : Prop := True.

Lemma keys_move_refl K m : keys_move K m m.
Proof. by left. Qed.
Lemma keys_move_trans K m1 m2 m3 : keys_move K m1 m2 -> keys_move K m2 m3 -> keys_move K m1 m3.
Proof.
  unfold keys_move, maybe_saved. intros [E|[Hs E]] [E'|[Hs' E']]; rewrite E', ?E in *; [by left|by right|by right|]. right.
  split; [done|]. apply insert_insert_eq.
Qed.
Lemma keys_order K : history_order no_env rows_inv (moves_key K) no_move (keys_move K) (key_saved K).
Proof.
  constructor; unfold rows_inv, moves_key, no_move; try done.
  - intros m _ Hm. split; [done|apply keys_move_refl].
  - intros m1 _ m2 _ m3 _ [_ M1] [? M2]. split; [done|by eapply keys_move_trans].
  - by intros m _ m' _ [? _].
  - intros m w m' w' d [_ [E|[_ E]]] Hd Ed; rewrite E; [by apply Hd|apply lookup_insert_eq].
  - intros m _ _ Hm _. split; [done|apply keys_move_refl].
  - intros m w _. apply keys_move_refl.
  - intros m _ m' _ m0 [_ M1] M0. by eapply keys_move_trans.
Qed.

Lemma foreign_rows rq s : foreign_request rq -> forall k, key_row k = true ->
  view (rq_apply rq s).2.1 !! k = view s.1 !! k.
Proof. intros [_ [_ Ht]] k Hk. apply Ht. by rewrite Hk. Qed.
Lemma same_rows m m' : (forall k, key_row k = true -> m' !! k = m !! k) -> key_rows_ok m ->
  key_rows_ok m' /\ keys_of m' = keys_of m.
Proof.
  intros Hs Hm. split.
  - intros k v Hv Hk. apply Hm; [by rewrite <- Hs|done].
  - apply map_eq. intros id. apply option_eq. intros K. rewrite !lookup_keys_of. by rewrite Hs by apply key_row_key.
Qed.
Lemma foreign_request_keeps K rq : foreign_request rq -> keeps rows_inv (moves_key K) no_move (key_saved K) rq.
Proof.
  intros Hf. split; [apply Hf|]. intros s Hi. destruct (same_rows _ _ (foreign_rows rq s Hf) Hi) as [Hr Hk].
  destruct (rq_apply rq s) as [[u|[e|e]] s']; cbn in *; [|split; [done|by left]|done].
  split; [split; [done|by left]|]. unfold key_saved. destruct Hf as [-> _]. done.
Qed.

Lemma keys_of_insert m K value : length (sk_ID K) = 32%nat -> decodeValidatorKey (sk_ID K) value = Ok K ->
  keys_of (<[validatorKeyKey (sk_ID K) := value]> m) = <[sk_ID K := K]> (keys_of m).
Proof.
  intros Hl Hd. apply map_eq. intros id. apply option_eq. intros K'. rewrite lookup_keys_of. destruct (decide (id = sk_ID K)) as [->|Hne].
  - rewrite !lookup_insert_eq. split; [intros (_ & v & [= <-] & Hv); congruence|]. intros [= <-]. split; [done|]. by exists value.
  - rewrite !lookup_insert_ne, lookup_keys_of; [done|done|]. by intros [= E].
Qed.
Lemma key_rows_insert m K value : length (sk_ID K) = 32%nat -> decodeValidatorKey (sk_ID K) value = Ok K ->
  key_rows_ok m -> key_rows_ok (<[validatorKeyKey (sk_ID K) := value]> m).
Proof. intros Hl Hd Hm k v [[<- <-]|[_ Hv]]%lookup_insert_Some Hk; [by exists (sk_ID K), K|by apply Hm]. Qed.

Lemma saveKey_keeps K value hint :
  length (sk_ID K) = 32%nat -> decodeValidatorKey (sk_ID K) value = Ok K ->
  keeps rows_inv (moves_key K) no_move (key_saved K) (mkRequest (saveValidatorKey_body K value) (Some K) hint durableCommitment).
Proof.
  intros Hl Hd. split.
  { intros s. cbn [rq_apply]. revert s. change (tx_local (W := W) (saveValidatorKey_body K value)). unfold saveValidatorKey_body. tx_local_auto. }
  intros s Hi. cbn [rq_apply rq_done]. unfold saveValidatorKey_body, mbind, tx_bind, getBatchCopy.
  pose proof (law_batch_get s.1 (validatorKeyKey (sk_ID K))) as Hg. unfold rows_inv in Hi.
  assert (moves_key K (view s.1) s.2 (view s.1) s.2) as Hsame by (split; [done|apply keys_move_refl]).
  assert (saveable (keys_of (view s.1)) K -> match tx_Set (validatorKeyKey (sk_ID K)) value s with
    | (Ok _, s') => moves_key K (view s.1) s.2 (view s'.1) s'.2 /\ key_saved K (Some K) (view s'.1) s'.2
    | (Err (Rejected _), s') => moves_key K (view s.1) s.2 (view s'.1) s'.2
    | (Err (Fatal _), s') => no_move s.2 s'.2
    end) as Hset.
  { intros Hs. unfold tx_Set, tx_write. destruct (batch_Set s.1 _ value) as [b|] eqn:Eb; [|done]. apply law_set in Eb as [_ Eb]. cbn [fst snd].
    unfold moves_key, key_saved, keys_move, maybe_saved. rewrite Eb, keys_of_insert by done.
    split; [split; [by apply key_rows_insert|by right]|]. intros _. apply lookup_insert_eq. }
  assert (validateValidatorKey K = true) as Hv by by apply decoded_key in Hd as [_ ?].
  destruct (batch_Get s.1 _) as [stored| |]; cbn in Hg; [|apply Hset|done].
  - unfold tx_of. destruct (decodeValidatorKey (sk_ID K) stored) as [K0|e] eqn:E0; [|done].
    assert (keys_of (view s.1) !! sk_ID K = Some K0) as HK0 by (apply lookup_keys_of; split; [done|by exists stored]).
    case_bool_decide as Es; [|done]. cbn [negb]. case_bool_decide as Ev.
    + subst stored. split; [done|]. intros _. congruence.
    + apply Hset. split; [done|]. intros K1 H1'. congruence.
  - split; [done|]. intros K0 (_ & v & Hv' & _)%lookup_keys_of. exfalso. clear -Hg Hv'. change (view s.1 !! validatorKeyKey (sk_ID K) = None) in Hg. congruence.
Qed.

(** A batch. *)
Lemma commit_batch_keys K (rqs : list request) db w results db' w' :
  Forall (keeps rows_inv (moves_key K) no_move (key_saved K)) rqs -> key_rows_ok (contents db) ->
  commit_batch rqs (db, w) = (results, (db', w')) ->
  key_rows_ok (contents db') /\ keys_move K (contents db) (contents db') /\ extends db db' /\
  (versions db' = versions db \/ versions db' = versions db ++ [contents db']) /\
  results.*1 = rq_done <$> rqs /\
  (forall d, (d, None) ∈ results -> key_saved K d (contents db') w' /\
    (first_class rqs = durableCommitment -> S (stable db') = length (versions db'))).
Proof.
  intros Hf Hi. unfold commit_batch. cbn [fst snd]. destruct (commitRequests rqs db w) as [[fl db1] w1] eqn:Ec.
  destruct (commit_kept _ _ _ _ _ _ (keys_order K) rqs db w fl db1 w1 Hf Hi Ec) as [[Hr Hm] Hd].
  pose proof (keeps_local _ _ _ _ _ Hf) as Hloc. pose proof (commit_versions _ _ _ _ _ _ Hloc Ec) as Hv.
  pose proof (commitRequests_extends rqs db w Hloc) as Hx. pose proof (commitRequests_done rqs db w) as [Hdone Hcl].
  pose proof (callback_sync_extends fl db1) as Hx2. pose proof (callback_sync_contents fl db1) as Hv2.
  pose proof (callback_sync_fills fl db1) as [F1 F2]. rewrite Ec in Hx, Hdone, Hcl. cbn [fst snd] in *.
  destruct (callback_sync fl db1) as [fl2 db2] eqn:Es. intros [= <- <- <-]. cbn [fst snd] in *.
  assert (contents db2 = contents db1) as Ecn by (apply contents_unique; rewrite Hv2; apply contents_last).
  rewrite Ecn, Hv2. split; [done|]. split; [done|]. split; [by etrans|]. split; [done|].
  assert ((fl_done fl2).*1 = rq_done <$> rqs) as Hds.
  { rewrite <- Hdone. unfold callback_sync in Es. destruct (match fl_fatal fl with Some _ => _ | None => _ end) as [f db3].
    injection Es as <- <-. cbn. rewrite <- list_fmap_compose. apply list_fmap_ext. by intros ? []. }
  split; [done|]. intros d Hin. destruct (fl_fatal fl2) eqn:Ef.
  { exfalso. specialize (F2 ltac:(done)). rewrite Forall_forall in F2. by apply (F2 _ Hin). }
  destruct (F1 eq_refl) as [Hn Ed]. rewrite Ed in Hin. split; [by apply Hd|]. intros Hc. rewrite Hc in Hcl.
  unfold callback_sync in Es. rewrite Hn, Hcl in Es. destruct (db_LogDataSync db1) as [[] db3] eqn:El; injection Es as <- <-; [|done].
  by apply law_sync in El as [_ ?].
Qed.

(** What a database goes through while [K] is being saved. *)
Definition saving K (db db' : DB) : Prop :=
  key_rows_ok (contents db') /\ keys_move K (contents db) (contents db') /\ (stable db <= stable db')%nat /\
  exists l, versions db' = versions db ++ l /\ Forall (fun m => key_rows_ok m /\ keys_move K (contents db) m) l.
Lemma saving_refl K db : key_rows_ok (contents db) -> saving K db db.
Proof. intros Hr. split; [done|]. split; [apply keys_move_refl|]. split; [done|]. exists []. split; [by rewrite app_nil_r|done]. Qed.
Lemma saving_trans K db1 db2 db3 : saving K db1 db2 -> saving K db2 db3 -> saving K db1 db3.
Proof.
  intros (_ & M1 & S1 & l1 & V1 & F1) (R2 & M2 & S2 & l2 & V2 & F2). split; [done|]. split; [by eapply keys_move_trans|].
  split; [lia|]. exists (l1 ++ l2). split; [by rewrite V2, V1, app_assoc|]. apply Forall_app. split; [done|].
  eapply Forall_impl; [exact F2|]. intros m [? ?]. split; [done|by eapply keys_move_trans].
Qed.
Lemma commit_batch_saving K rqs db w results db' w' :
  Forall (keeps rows_inv (moves_key K) no_move (key_saved K)) rqs -> key_rows_ok (contents db) ->
  commit_batch rqs (db, w) = (results, (db', w')) -> saving K db db'.
Proof.
  intros Hf Hi E. destruct (commit_batch_keys K _ _ _ _ _ _ Hf Hi E) as (Hr & Hm & [_ Hs] & Hv & _). split; [done|]. split; [done|].
  split; [done|]. destruct Hv as [Hv|Hv]; [exists []|exists [contents db']]; (split; [by rewrite ?app_nil_r|]); [done|]. apply Forall_singleton. by split.
Qed.
Lemma commit_batches_saving K l db w :
  Forall (Forall foreign_request) l -> key_rows_ok (contents db) -> saving K db (commit_batches l (db, w)).1.
Proof.
  intros Hf. revert db w. induction Hf as [|rqs l Hr _ IH]; intros db w Hi; [by apply saving_refl|].
  cbn. destruct (commit_batch rqs (db, w)) as [results [db1 w1]] eqn:E.
  assert (saving K db db1) as Hs. { eapply commit_batch_saving; [|done|exact E]. eapply Forall_impl; [exact Hr|apply foreign_request_keeps]. }
  eapply saving_trans; [exact Hs|]. apply IH, Hs.
Qed.

Lemma saveKey_spec K e db w r db' w' :
  env_ok e -> typed_key K -> key_rows_ok (contents db) -> saveKey e K (db, w) = (r, (db', w')) ->
  saving K db db' /\ (r = Ok tt -> keys_of (contents db') !! sk_ID K = Some K /\ S (stable db') = length (versions db')).
Proof.
  intros [E1 E2 E3 E4] Ht Hi. unfold saveKey. pose proof (saving_refl K db Hi) as Hrefl.
  destruct (se_ctxErr e); [by intros [= <- <- <-]|]. destruct (encodeValidatorKey K) as [value|er] eqn:Ev; [|by intros [= <- <- <-]].
  destruct (se_refused e); [by intros [= <- <- <-]|].
  assert (decodeValidatorKey (sk_ID K) value = Ok K) as Hd.
  { destruct Ht. unfold encodeValidatorKey in Ev. destruct (validateValidatorKey K) eqn:Hv; [|done].
    destruct (decode_encode_key K) as (v & Hv' & Hd); [done..|]. unfold encodeValidatorKey in Hv'. rewrite Hv in Hv'. congruence. }
  pose proof (commit_batches_saving K (se_before e) db w E1 Hi) as Hs1.
  destruct (commit_batches (se_before e) (db, w)) as [db1 w1]. cbn [fst] in Hs1.
  set (rq := mkRequest _ _ _ _). set (rqs := se_ahead e ++ rq :: se_behind e).
  destruct (commit_batch rqs (db1, w1)) as [results [db2 w2]] eqn:E.
  assert (Forall (keeps rows_inv (moves_key K) no_move (key_saved K)) rqs) as Hf.
  { apply Forall_app. split; [eapply Forall_impl; [exact E2|apply foreign_request_keeps]|]. constructor; [by apply saveKey_keeps; [apply Ht|]|].
    eapply Forall_impl; [exact E3|apply foreign_request_keeps]. }
  pose proof (commit_batch_saving K rqs db1 w1 results db2 w2 Hf (proj1 Hs1) E) as Hs2.
  destruct (commit_batch_keys K rqs db1 w1 results db2 w2 Hf (proj1 Hs1) E) as (_ & _ & _ & _ & Hdone & Hres).
  assert (saving K db db2) as Hs by by eapply saving_trans. intros Er.
  assert (results.*1 !! length (se_ahead e) = Some (Some K)) as Hat.
  { rewrite Hdone. unfold rqs. rewrite fmap_app, lookup_app_r, length_fmap, Nat.sub_diag; [done|by rewrite length_fmap]. }
  rewrite list_lookup_fmap in Hat. destruct (results !! length (se_ahead e)) as [[d [er|]]|] eqn:El; injection Er as <- <- <-; [by split| |by split].
  split; [done|]. intros _. injection Hat as ->. destruct (Hres (Some K)) as [Hk Hst]; [by eapply list_elem_of_lookup_2|].
  split; [by apply Hk|]. apply Hst. unfold rqs. destruct (se_ahead e); [done|]. by apply Forall_cons in E4 as [? _].
Qed.

Lemma load_rows acc l :
  Forall (fun p => exists id K, p.1 = validatorKeyKey id /\ length id = 32%nat /\ decodeValidatorKey id p.2 = Ok K) l ->
  visit_rows load_key acc l = Ok (acc ++ omap (fun p => row_key p.1 p.2) l).
Proof.
  intros Hf. revert acc. induction Hf as [|[k v] l (id & K & Hk & Hl & Hd) _ IH]; intros acc; cbn [visit_rows omap list_omap fst snd];
    [by rewrite app_nil_r|].
  cbn [fst snd] in Hk, Hd. subst k. assert (load_key acc (validatorKeyKey id) v = Ok (acc ++ [K])) as ->.
  { unfold load_key. assert (validatorKeyIDFromKey (validatorKeyKey id) = Some id) as ->; [|by rewrite Hd].
    unfold validatorKeyIDFromKey, validatorKeyKey. by rewrite length_app, Hl. }
  cbn [and_then]. rewrite IH. destruct (decoded_key _ _ _ Hd) as [Ei _].
  rewrite (proj2 (row_key_Some _ v K)) by (by rewrite Ei). by rewrite <- app_assoc.
Qed.
Lemma row_keys_nodup (l : list (bytes * bytes)) : NoDup l.*1 -> NoDup (sk_ID <$> omap (fun p => row_key p.1 p.2) l).
Proof.
  induction l as [|[k v] l IH]; [constructor|]. cbn [fmap list_fmap fst omap list_omap snd]. intros [Hn Hnd]%NoDup_cons.
  destruct (row_key k v) as [K|] eqn:Er; [|by apply IH]. cbn [fmap list_fmap]. constructor; [|by apply IH].
  intros (K' & E & ([k' v'] & Hin & Er')%list_elem_of_omap)%list_elem_of_fmap. apply Hn. cbn in Er'.
  apply row_key_Some in Er as (-> & _). apply row_key_Some in Er' as (-> & _). rewrite E.
  apply (list_elem_of_fmap_2 fst _ _ Hin).
Qed.

Lemma loadKeys_spec db : key_rows_ok (contents db) ->
  match loadKeys db with
  | Ok l => NoDup (sk_ID <$> l) /\ forall K, K ∈ l <-> keys_of (contents db) !! sk_ID K = Some K
  | Err e => e = ErrIO
  end.
Proof.
  intros Hr. unfold loadKeys, iteratePrefix. destruct (db_Iter db _ _) as [[l failed]|] eqn:Ei; [|done].
  destruct (law_iter _ _ _ _ _ (contents_last db) Ei) as (Hsort & Hin & Hall). cbn [fst snd] in *.
  rewrite load_rows.
  2:{ apply Forall_forall. intros [k v] Hp. destruct (Hin k v Hp) as [Hv Hb]. by apply Hr. }
  cbn [and_then]. destruct failed; [done|]. cbn [app]. split; [by apply row_keys_nodup, sorted_keys_nodup|].
  intros K. rewrite list_elem_of_omap, lookup_keys_of. split.
  - intros ([k v] & Hp & Er). cbn [fst snd] in Er. apply row_key_Some in Er as (-> & Hl & Hd). split; [done|]. exists v. split; [by apply Hin|done].
  - intros (Hl & v & Hv & Hd). exists (validatorKeyKey (sk_ID K), v). split; [|by apply row_key_Some].
    apply Hall; [done|done|]. apply key_row_key.
Qed.

#[export] Instance key_storage : KeyStorage := {|
  ks_state := KeyStore W;
  LoadValidatorKeys s := loadKeys (kd_db s);
  SaveValidatorKey := storeKey;
  ks_reopen s s' s'' := exists db, extends (kd_db s) db /\ extends db (kd_db s') /\ db_Reopen db (kd_db s'') /\
    Forall env_ok (kd_env s'') |}.

#[export, refine] Instance key_storage_laws : KeyStorageLaws := {|
  ks_ok s := (forall m, m ∈ versions (kd_db s) -> key_rows_ok m) /\ Forall env_ok (kd_env s);
  ks_versions s := keys_of <$> versions (kd_db s);
  ks_synced s := stable (kd_db s);
  ks_current s := keys_of (contents (kd_db s)) |}.
Proof.
  - intros s. by rewrite fmap_last, contents_last.
  - intros s. rewrite length_fmap. apply law_stable.
  - intros s [Hr _]. apply loadKeys_spec, Hr, contents_elem.
  - intros s K r s' [Hr He] Ht. cbn. unfold storeKey.
    destruct (match kd_env s with [] => _ | e :: rest => _ end) as [e rest] eqn:Ee.
    assert (env_ok e /\ Forall env_ok rest) as [He' Hrest].
    { destruct (kd_env s); injection Ee as <- <-; [split; [|done]; by constructor|]. by apply Forall_cons in He. }
    destruct (saveKey e K (kd_db s, kd_w s)) as [r0 [db w]] eqn:Es. intros [= <- <-]. cbn.
    destruct (saveKey_spec _ _ _ _ _ _ _ He' Ht (Hr _ (contents_elem _)) Es) as ((_ & Hm & Hst & l & Hv & Hl) & Hok).
    rewrite Hv, fmap_app. split.
    + split; [|done]. intros m [Hin|Hin]%elem_of_app; [by apply Hr|]. rewrite Forall_forall in Hl. by apply Hl.
    + split; [done|]. split; [exists (keys_of <$> l); split; [done|]|].
      * apply Forall_fmap. eapply Forall_impl; [exact Hl|]. by intros m [_ ?].
      * intros Er. destruct (Hok Er) as [HK Hlen]. rewrite Hv in Hlen. rewrite <- fmap_app, length_fmap.
        assert (validateValidatorKey K = true) as HvK by (apply lookup_keys_of in HK as (_ & v & _ & [_ ?]%decoded_key); done).
        destruct Hm as [E|[Hs E]]; [|done]. rewrite E in HK. split; [split; [done|]; intros k0 Hk0; congruence|].
        split; [|done]. rewrite E. symmetry. by apply insert_id.
  - intros s s' s'' [Hr _] [Hr' _] (db & [_ S1] & [P2 _] & Hre & He). cbn.
    apply law_reopen in Hre as (n & m & Hn & Hm & Hv). pose proof (prefix_lookup_Some _ _ _ _ Hm P2) as Hm'. split.
    + split; [|done]. rewrite Hv. intros m' ->%list_elem_of_singleton. apply Hr'. by eapply list_elem_of_lookup_2.
    + exists n, (keys_of m). split; [lia|]. by rewrite list_lookup_fmap, Hm', Hv.
Defined.
End Laws.

(** The requests of consensus sessions and of the collator are foreign. *)
Section Foreign.
Context `{PebbleLaws} {W : Type}.

Lemma key_row_head kind r : kind <> keyValidatorKey -> key_row (kind :: r) = false.
Proof.
  intros Hk. destruct (key_row (kind :: r)) eqn:E; [|done]. apply in_bounds_head in E as [k' E]; [|done]. congruence.
Qed.
Lemma other_kind_foreign K (rq : writeRequest W (option StoredKey)) :
  (forall k, K k -> exists kind r, k = kind :: r /\ kind <> keyValidatorKey) -> rq_done rq = None -> touches K (rq_apply rq) ->
  foreign_request rq.
Proof.
  intros HK Hd [Hl Ht]. split; [done|]. split; [done|]. intros s k Hk. apply Ht. intros (kind & r & -> & Hne)%HK.
  apply Hk. by apply key_row_head.
Qed.
Lemma session_foreign ns (rq : writeRequest W (option StoredKey)) :
  rq_done rq = None -> touches (session_key ns) (rq_apply rq) -> foreign_request rq.
Proof.
  apply other_kind_foreign. intros k (kind & [Hk1 Hk2] & Hb). apply in_bounds_head in Hb as [k' ->]; [|unfold keyValidatorKey in Hk2; lia].
  exists kind, k'. split; [done|lia].
Qed.
End Foreign.

(** ** An example *)

(** A keyring is opened on an empty store, generates a key and is opened again by
    the next process. *)
Module ExampleKeyring.
Import ExampleTL.
Import MemPebble.

(** A private key signs with its public half twice. *)
#[local] Instance toy_keys : Ed25519Keys := {
  ed25519_public := copy32; ed25519_Sign private _ := private_Public private ++ private_Public private }.
#[local] Instance toy_verify : Ed25519 := { ed25519_Verify key _ sig := bool_decide (sig = key ++ key) }.
Lemma length_copy32 l : length (copy32 l) = 32%nat.
Proof. unfold copy32. rewrite length_app, length_take, length_drop. change (length zeroHash) with 32%nat. lia. Qed.
#[local] Instance toy_laws : Ed25519KeysLaws.
Proof.
  constructor; [apply length_copy32|]. intros seed payload Hl. cbn. unfold private_Public, NewKeyFromSeed.
  rewrite drop_app_length' by done. by apply bool_decide_eq_true_2.
Qed.

Notation state := (@ks_state (key_storage (W := unit))).
Definition seed : bytes := replicate 32 7.
Definition disk : state := mkKeyStore (mkMem [] [] 0) tt [].
Definition fresh (K : StoredKey) (v : bytes) : state :=
  mkKeyStore (mkMem [[]] [(validatorKeyKey (sk_ID K), v)] 1) tt [].
Definition generated (id : bytes) : StoredKey := mkStoredKey id seed false 0 0 0 false zeroHash 0.
Definition stored_value : bytes := [1; 0] ++ seed ++ replicate 48 0.

Definition next (id : bytes) : state := mkKeyStore (mkMem [] [(validatorKeyKey id, stored_value)] 0) tt [].

Lemma disk_opened : opened disk.
Proof.
  split; [split; [|constructor]|split; [reflexivity|]].
  - intros m Hm k v Hv. apply list_elem_of_singleton in Hm. rewrite Hm in Hv. done.
  - intros id K HK. by apply lookup_keys_of in HK as (_ & v & Hv & _).
Qed.
Lemma Generate_first id : publicKeyID (ed25519_public seed) = Ok id ->
  Generate false [Some seed] (newKeyring true) disk =
    Some (Ok id, publish (generated id) (newKeyring true), fresh (generated id) stored_value).
Proof. intros Hid. unfold Generate, Generate_loop. rewrite Hid. reflexivity. Qed.

Lemma first_run : exists id, publicKeyID (ed25519_public seed) = Ok id /\
  ring_runs true (publish (generated id) (newKeyring true)) (fresh (generated id) stored_value).
Proof.
  destruct (publicKeyID (ed25519_public seed)) as [id|e] eqn:Hid; [|discriminate Hid]. exists id. split; [done|].
  eapply (ring_call true true _ disk); [apply (ring_open disk (newKeyring true)); [exact disk_opened|reflexivity]| |].
  - eapply (step_generate false [Some seed] _ _ (Ok id)); [|apply Generate_first, Hid].
    intros x Hx. apply list_elem_of_singleton in Hx. injection Hx as ->. reflexivity.
  - intros _. split; [done|]. done.
Qed.
Lemma first_reopen id : ks_reopen (fresh (generated id) stored_value) (fresh (generated id) stored_value)
  (next id).
Proof.
  exists (mkMem [[]] [(validatorKeyKey id, stored_value)] 1). do 2 (split; [reflexivity|]). split; [|constructor].
  exists 1%nat, [(validatorKeyKey id, stored_value)]. split; [cbn; lia|]. split; reflexivity.
Qed.

Lemma keys_survive_witness : exists (id : bytes) (s : state),
  match Keyring.Open false s with
  | Ok k => exists r, kr_keys k !! id = Some r /\ sg_private r = NewKeyFromSeed seed
  | Err e => e = KErrStorage ErrIO \/ e = KErrElection
  end.
Proof.
  destruct first_run as (id & _ & Hr). exists id, (next id).
  pose proof (proj2 (keys_survive true _ _ None (newKeyring true) _ _ Hr (or_intror eq_refl) (first_reopen id))) as Hs.
  destruct (Keyring.Open false _) as [k|e]; [|exact Hs].
  destruct (Hs id (signing_of (generated id))) as (r & Hk & Hp & _); [apply lookup_insert_eq|]. by exists r.
Defined.

Lemma restart_restores_witness : exists (id : bytes) (s : state),
  match Keyring.Open false s with
  | Ok k => kr_keys k = kr_keys (publish (generated id) (newKeyring true))
  | Err e => e = KErrStorage ErrIO
  end.
Proof.
  destruct first_run as (id & _ & Hr). exists id, (next id).
  pose proof (restart_restores _ _ None (newKeyring true) _ _ Hr (or_intror eq_refl) (first_reopen id)) as Hs.
  destruct (Keyring.Open false _) as [k|e]; [by apply Hs|exact Hs].
Defined.

Lemma keyring_signs_witness : exists id public, KeyNodeIDShort public = Some id /\
  ed25519_Verify public [1; 2; 3] (public ++ public) = true.
Proof.
  destruct first_run as (id & _ & Hr). destruct (keyring_signs true _ _ Hr) as [Hs _]. specialize (Hs id [1; 2; 3]).
  unfold PublicKeyFor, Sign in Hs.
  assert (kr_keys (publish (generated id) (newKeyring true)) !! id = Some (signing_of (generated id))) as E by apply lookup_insert_eq.
  rewrite E in Hs. exists id, (copy32 seed). exact Hs.
Defined.
End ExampleKeyring.
