(* ===== verification/StoreOpen.v ===== *)
(** * Opening the validator store ([src/service/validator/pebblestore/open.go])

    [Open] and its check of the schema marker, and the status view of
    [status.go].  Directories, caches and channels are left out: the outcomes of
    creating the directory and of opening the database are arguments. *)

From S2P Require Import Prelude.
From S2P Require Import SimplexTypes.
From S2P Require Import SimplexWire.
From S2P Require Import StoreKeys.
From S2P Require Import StoreCodec.
From S2P Require Import Pebble.
From S2P Require Import StoreWriter.
From S2P Require Import StoreHistory.
From S2P Require Import StoreSession.
From S2P Require Import StoreRecovery.

#[local] Open Scope Z_scope.

Definition schemaVersion : Z := 1.
Definition defaultCacheSize : Z := Z.shiftl 8 20.
Definition defaultQueueSize : Z := 1024.

Record Options := mkOptions { o_Dir : bytes; o_CacheSize : Z; o_QueueSize : Z }.

Section Open.
Context `{Pebble}.

Definition ensureSchema (db : DB) : result store_error unit * DB :=
  match db_Get db schemaKey with
  | Found value =>
      if negb (length value =? 4)%nat then (Err ErrUnsupportedSchema, db)
      else if negb (le_get value =? schemaVersion) then (Err ErrUnsupportedSchema, db)
      else (Ok tt, db)
  | ReadFailed => (Err ErrIO, db)
  | NotFound =>
      match db_Iter db [] None with
      | None => (Err ErrIO, db)
      | Some (_ :: _, _) => (Err ErrUnversionedDatabase, db)
      | Some ([], failed) =>
          if (failed : bool) then (Err ErrIO, db)
          else
            match db_SetSync db schemaKey (le_put 4 schemaVersion) with
            | (true, db) => (Ok tt, db)
            | (false, db) => (Err ErrIO, db)
            end
      end
  end.

(** The options after the defaults; [None] when they are refused. *)
Definition checkOptions (opts : Options) : option Options :=
  if (length (o_Dir opts) =? 0)%nat then None
  else if o_CacheSize opts <? 0 then None
  else if o_QueueSize opts <? 0 then None
  else
    Some (mkOptions (o_Dir opts) (if o_CacheSize opts =? 0 then defaultCacheSize else o_CacheSize opts)
      (if o_QueueSize opts =? 0 then defaultQueueSize else o_QueueSize opts)).

(** [Open]: [mkdir] is whether the directory exists or was made, [opened] the
    database there, [None] when it cannot be opened.  The database is returned
    also when the store is refused: its files remain. *)
Definition Open {W D} (opts : Options) (mkdir : bool) (opened : option DB) (w : W) :
    result store_error (Store W D) * option DB :=
  match checkOptions opts with
  | None => (Err ErrCorrupt, None)
  | Some _ =>
      if negb mkdir then (Err ErrIO, None)
      else
        match opened with
        | None => (Err ErrIO, None)
        | Some db =>
            match ensureSchema db with
            | (Err e, db) => (Err e, Some db)
            | (Ok _, db) => (Ok (openStore db w), Some db)
            end
        end
  end.

(** ** [status.go] *)

Record StoredSession := mkStoredSession {
  ss_ID : SessionStorageID; ss_Candidates : Z; ss_Finalized : Z; ss_Votes : Z; ss_Certificates : Z; ss_LeaderWindows : Z;
  ss_FirstNonAnnouncedWindow : Z; ss_LastFinalized : option CandidateID; ss_LastLeaderWindow : option LeaderWindowRecord }.
Definition storedSession (summary : sessionSummary) (id : SessionStorageID) : StoredSession :=
  mkStoredSession id (su_candidates summary) (su_finalized summary) (su_votesCount summary) (su_certificates summary)
    (su_leaderWindows summary) (su_firstNonAnnouncedWindow summary) (su_lastFinalized summary) (su_lastLeaderWindow summary).
Definition loadStoredSessionStatus (db : DB) (id : SessionStorageID) (ns : bytes) : result store_error StoredSession :=
  match readerGetCopy db (summaryKey ns) with
  | Err e => Err e
  | Ok None => Err ErrSummaryMissing
  | Ok (Some value) => and_then (codec (decodeSessionSummary value)) (fun summary => Ok (storedSession summary id))
  end.

Context `{TLDbId}.
Fixpoint status_loop (db : DB) (ids : list SessionStorageID) : result store_error (list StoredSession) :=
  match ids with
  | [] => Ok []
  | id :: ids =>
      match namespaceForSession id with
      | None => Err ErrCorrupt
      | Some ns =>
          and_then (loadStoredSessionStatus db id ns) (fun session =>
          and_then (status_loop db ids) (fun sessions => Ok (session :: sessions)))
      end
  end.
(** [Status] without the metrics of the database. *)
Definition Status {W D} (st : Store W D) : result store_error (list StoredSession * Z) :=
  and_then (enumerateSessionIDs (s_db st)) (fun ids =>
  and_then (status_loop (s_db st) ids) (fun sessions => Ok (sessions, s_outstanding st))).
End Open.

(** ** The marker *)

Section Schema.
Context `{PebbleLaws} {W D : Type} (env : W -> W -> Prop).
Implicit Types (rq : writeRequest W D) (st : Store W D) (m : kv).

Definition has_schema m : Prop := exists v, m !! schemaKey = Some v /\ length v = 4%nat /\ le_get v = schemaVersion.
(** Whatever a crash leaves has the marker. *)
Definition marked (db : DB) : Prop := forall n m, (stable db <= n)%nat -> versions db !! n = Some m -> has_schema m.
(** A request that leaves the marker alone. *)
Definition off_schema rq : Prop := touches (fun k => k <> schemaKey) (rq_apply rq).

Lemma marked_contents db : marked db -> has_schema (contents db).
Proof.
  intros Hm. apply (Hm (pred (length (versions db)))); [pose proof (law_stable db); lia|]. rewrite <- last_lookup. apply contents_last.
Qed.

Definition schema_inv m (_ : W) : Prop := has_schema m.
Definition schema_step (_ : kv) (_ : W) m (_ : W) : Prop := has_schema m.
Definition anything_w (_ _ : W) : Prop := True.
Definition anything_db (_ _ : kv) : Prop := True.
Definition anything_done (_ : D) (_ : kv) (_ : W) : Prop := True.
Lemma schema_order : history_order env schema_inv schema_step anything_w anything_db anything_done.
Proof. by constructor. Qed.
Lemma off_schema_keeps rq : off_schema rq -> keeps schema_inv schema_step anything_w anything_done rq.
Proof.
  intros [Hl Ht]. split; [done|]. intros s Hi.
  assert (has_schema (view (rq_apply rq s).2.1)) as Hs.
  { destruct Hi as (v & Hv & Hm). exists v. rewrite Ht; [done|]. by intros []. }
  destruct (rq_apply rq s) as [[u|[e|e]] s']; done.
Qed.

Lemma runs_marked db0 w0 h st :
  marked db0 -> runs env db0 w0 h st -> Forall off_schema (h_submitted h) -> marked (s_db st).
Proof.
  intros H0'. induction 1 as [|h st rq st' Hrun IH Hs|h st avail rqs c q st' Hrun IH Ht Hw|h st i st' _ IH Hw|h st i d st' _ IH Hd|h st _ IH|h st w _ IH He];
    cbn; intros Hl; [done| | | | |by apply IH|by apply IH].
  - apply Forall_app in Hl as [Hl _]. unfold submit, submitContext in Hs. cbn in Hs. destruct (s_isClosed st); [done|]. injection Hs as <-. by apply IH.
  - pose proof (IH Hl) as Hm. destruct (writer_round_take _ _ _ _ _ _ Ht Hw) as (fl & db & w & Ec & ->). cbn.
    assert (Forall (keeps schema_inv schema_step anything_w anything_done) rqs) as Hf.
    { pose proof (runs_inv _ _ _ _ _ Hrun) as [Hfifo _ _ _ _ _]. destruct (take_batch_spec _ _ _ _ _ Ht) as [Eq _].
      rewrite Hfifo, Eq in Hl. apply Forall_app in Hl as [_ Hl]. apply Forall_app in Hl as [Hl _].
      eapply Forall_impl; [exact Hl|apply off_schema_keeps]. }
    destruct (commit_kept _ _ _ _ _ _ schema_order _ _ _ _ _ _ Hf (marked_contents _ Hm) Ec) as [Hs _].
    pose proof (commitRequests_extends rqs (s_db st) (s_w st) (keeps_local _ _ _ _ _ Hf)) as [_ Hle]. rewrite Ec in Hle. cbn in Hle.
    destruct (commit_versions _ _ _ _ _ _ (keeps_local _ _ _ _ _ Hf) Ec) as [Ev|Ev]; intros n m Hn; rewrite Ev.
    + apply Hm. lia.
    + intros [[Hm' _]|[_ ->]]%lookup_snoc_cases; [eapply Hm; [|done]; lia|done].
  - specialize (IH Hl). unfold wait_log in Hw. apply bind_Some in Hw as (fl & _ & E). destruct (fl_ready fl); [done|].
    pose proof (callback_sync_contents fl (s_db st)) as Hv. pose proof (callback_sync_extends fl (s_db st)) as [_ Hle].
    destruct (callback_sync fl (s_db st)) as [fl2 db2]. injection E as <-. cbn in *. intros n m Hn. rewrite Hv. apply IH. lia.
  - specialize (IH Hl). unfold run_callback in Hd. apply bind_Some in Hd as (fl & _ & E). destruct (negb _); [done|].
    destruct (fl_done fl); [done|]. by injection E as _ <-.
Qed.

Lemma has_schema_insert m : has_schema (<[schemaKey := le_put 4 schemaVersion]> m).
Proof. exists (le_put 4 schemaVersion). rewrite lookup_insert_eq. by vm_compute. Qed.
Lemma ensureSchema_marked db : has_schema (contents db) -> ensureSchema db = (Ok tt, db) \/ ensureSchema db = (Err ErrIO, db).
Proof.
  intros (v & Hv & Hl & Hg'). unfold ensureSchema. pose proof (law_get db schemaKey _ (contents_last db)) as Hg.
  destruct (db_Get db schemaKey) as [v'| |]; cbn [read_of] in Hg; [|congruence|by right].
  assert (v' = v) as -> by congruence. rewrite Hl, Hg'. by left.
Qed.
(** What [ensureSchema] accepts and what it does to it. *)
Lemma ensureSchema_Ok db u db1 : versions db = [contents db] -> ensureSchema db = (Ok u, db1) ->
  marked db1 /\ ((db1 = db /\ has_schema (contents db)) \/
    (contents db = ∅ /\ contents db1 = {[ schemaKey := le_put 4 schemaVersion ]})).
Proof.
  intros Hv. unfold ensureSchema. pose proof (law_get db schemaKey _ (contents_last db)) as Hg.
  destruct (db_Get db schemaKey) as [v| |]; cbn [read_of] in Hg; [| |done].
  - destruct (Nat.eqb_spec (length v) 4) as [Hl|]; [|done]. destruct (Z.eqb_spec (le_get v) schemaVersion) as [Hver|]; [|done].
    intros [= _ <-]. assert (has_schema (contents db)) as Hs by by exists v. split; [|by left].
    intros n m _. rewrite Hv. by intros ->%list_elem_of_lookup_2%list_elem_of_singleton.
  - destruct (db_Iter db [] None) as [[l failed]|] eqn:Ei; [|done].
    destruct (law_iter _ _ _ _ _ (contents_last db) Ei) as (_ & _ & Hall). cbn [fst snd] in Hall. destruct l; [|done].
    destruct failed; [done|]. specialize (Hall eq_refl). assert (contents db = ∅) as He.
    { apply map_eq. intros k. rewrite lookup_empty. destruct (contents db !! k) as [v|] eqn:Ek; [|done]. exfalso.
      specialize (Hall k v Ek). assert (in_bounds [] None k = true) as Hb by (unfold in_bounds; by destruct k).
      by apply Hall, elem_of_nil in Hb. }
    destruct (db_SetSync db schemaKey _) as [[] db'] eqn:Es; [|done]. intros [= _ <-].
    apply (law_set_sync _ _ _ _ _ (contents_last db)) in Es as [Ev Est].
    assert (contents db' = <[schemaKey := le_put 4 schemaVersion]> ∅) as Hc by (apply contents_unique; rewrite Ev, last_snoc; by rewrite He).
    split; [|by right]. intros n m Hn Hm. pose proof (lookup_lt_Some _ _ _ Hm). rewrite Ev, Hv in *. cbn in *. assert (n = 1%nat) as -> by lia.
    injection Hm as <-. apply has_schema_insert.
Qed.

(** C21: a database this store has opened can be opened again.  [Open] takes a
    database with the marker, which it leaves alone, or an empty one, in which it
    writes the marker; nothing else, so foreign data is never adopted.  After any
    run of requests that leave the marker alone and a crash, the next [Open]
    accepts what is left, unless a read fails. *)
Theorem store_reopens opts mkdir db w0 st0 x h st db' opts' :
  versions db = [contents db] -> Open opts mkdir (Some db) w0 = (Ok st0, x) ->
  ((s_db st0 = db /\ has_schema (contents db)) \/
   (contents db = ∅ /\ contents (s_db st0) = {[ schemaKey := le_put 4 schemaVersion ]})) /\
  (runs env (s_db st0) w0 h st -> Forall off_schema (h_submitted h) -> db_Reopen (s_db st) db' -> checkOptions opts' <> None ->
   Open (D := D) opts' true (Some db') w0 = (Ok (openStore db' w0), Some db') \/
   Open (D := D) opts' true (Some db') w0 = (Err ErrIO, Some db')).
Proof.
  intros Hv. unfold Open. destruct (checkOptions opts); [|done]. destruct mkdir; [|done]. cbn [negb].
  destruct (ensureSchema db) as [[u|e] db1] eqn:Es; [|done]. intros [= <- _]. destruct (ensureSchema_Ok _ _ _ Hv Es) as [Hm Hd].
  split; [done|]. intros Hrun Hl Hre Ho. destruct (checkOptions opts'); [|done]. pose proof (runs_marked _ _ _ _ Hm Hrun Hl) as Hm'.
  apply law_reopen in Hre as (n & m & Hn & Hx & Ev). destruct (ensureSchema_marked db') as [-> | ->]; [|by left|by right].
  rewrite (contents_unique db' m) by by rewrite Ev. by eapply Hm'.
Qed.

(** The requests of consensus sessions leave the marker alone. *)
Lemma session_off_schema ns rq : ns <> [] -> touches (session_key ns) (rq_apply rq) -> off_schema rq.
Proof.
  intros Hns [Hl Ht]. split; [done|]. intros s k Hk. apply Ht. intros (kind & Hkind & Hb). apply Hk. intros ->.
  apply andb_prop in Hb as [Hlo _]. destruct ns as [|b ns]; [done|]. cbn in Hlo.
  destruct Hkind as [Hk0 _]. unfold keySchema in Hlo. destruct (Z.ltb_spec 0 kind); [done|]. assert (kind = 0) as -> by lia. done.
Qed.
End Schema.

(** ** An example *)

Module ExampleOpen.
Import MemPebble.

Definition options : Options := mkOptions [100] 0 0.
Definition blank : DB := mkMem [] [] 0.
Definition versioned : DB := mkMem [[]] [(schemaKey, le_put 4 schemaVersion)] 1.

(** A new store is made, closed and opened again. *)
Lemma store_reopens_witness :
  Open (D := nat) options true (Some (mkMem [] [(schemaKey, le_put 4 schemaVersion)] 0)) tt =
    (Ok (openStore (mkMem [] [(schemaKey, le_put 4 schemaVersion)] 0) tt), Some (mkMem [] [(schemaKey, le_put 4 schemaVersion)] 0)) \/
  Open (D := nat) options true (Some (mkMem [] [(schemaKey, le_put 4 schemaVersion)] 0)) tt =
    (Err ErrIO, Some (mkMem [] [(schemaKey, le_put 4 schemaVersion)] 0)).
Proof.
  apply (proj2 (store_reopens (H0 := laws) (D := nat) no_env options true blank tt (openStore versioned tt) (Some versioned) (mkHistory [] [] [] [])
    (openStore versioned tt) (mkMem [] [(schemaKey, le_put 4 schemaVersion)] 0) options eq_refl eq_refl)).
  - apply run_open.
  - constructor.
  - exists 1%nat, [(schemaKey, le_put 4 schemaVersion)]. split; [cbn; lia|]. split; reflexivity.
  - done.
Defined.
End ExampleOpen.
