(* ===== verification/StorePack.v ===== *)
(** * Candidate packs ([src/service/validator/pebblestore/candidate_pack.go] and
      [SaveCandidate], [Candidate] of [session.go])

    Candidate wires, which are megabytes, are kept in append-only files, one
    directory of numbered segments per session; the database holds a pointer with
    the hash of the wire.  Neither is synced.  The directories are named by the
    hex digits of the namespace.  [candidatePackStore] is a state, its methods are
    computations that may fail at every system call. *)

From S2P Require Import Prelude.
From S2P Require Import SimplexTypes.
From S2P Require Import Sha256.
From S2P Require Import StoreKeys.
From S2P Require Import StoreCodec.
From S2P Require Import Pebble.
From S2P Require Import Files.
From S2P Require Import StoreWriter.
From S2P Require Import StoreSession.
From S2P Require Import StoreJournal.
From S2P Require Import StoreRecovery.

#[local] Open Scope Z_scope.

Definition candidatePackFileSuffix : bytes := [46; 112; 97; 99; 107].
Definition candidatePackRecordHeader : Z := 4.
Definition defaultCandidatePackSize : Z := Z.shiftl 1 30.
Definition candidatePackMagic : bytes := [71; 84; 79; 78; 67; 80; 75; 1].

(** ** Names *)

Definition hex_digit (d : Z) : Z := if d <? 10 then 48 + d else 87 + d.
Definition hex_value (c : Z) : option Z :=
  if (48 <=? c) && (c <=? 57) then Some (c - 48)
  else if (97 <=? c) && (c <=? 102) then Some (c - 87)
  else if (65 <=? c) && (c <=? 70) then Some (c - 55)
  else None.
(** [fmt.Sprintf("%x", b)] of a byte slice. *)
Definition hex_bytes (b : bytes) : bytes := b ≫= (fun x => [hex_digit (x / 16); hex_digit (x mod 16)]).
(** [strconv.ParseUint(s, 16, 32)] on at most eight characters. *)
Definition ParseUint16 (s : bytes) : option Z :=
  match s with
  | [] => None
  | _ => foldl (fun acc c => acc ← acc; d ← hex_value c; Some (16 * acc + d)) (Some 0) s
  end.

Definition candidatePackFileName (segment : Z) : bytes := hex_bytes (be_put 4 segment) ++ candidatePackFileSuffix.
Definition sessionDir (ns : bytes) : bytes := hex_bytes ns.
Definition packPath (ns : bytes) (segment : Z) : path := (sessionDir ns, candidatePackFileName segment).

(** ** The store *)

Record candidatePackFile := mkPackFile { pf_segment : Z; pf_size : Z }.
Record candidatePackStore := mkPacks {
  pk_files : files;
  pk_maxSize : Z;
  pk_current : gmap bytes candidatePackFile }.
#[export] Instance eta_packs : Eta candidatePackStore := fun s => mkPacks (pk_files s) (pk_maxSize s) (pk_current s).
Definition newCandidatePackStore (f : files) : candidatePackStore := mkPacks f defaultCandidatePackSize ∅.

Notation Pk := (EST store_error candidatePackStore).

(** A system call; [wrap] is the error it becomes. *)
Definition pk_sys {A} (wrap : io_error -> store_error) (m : Sys A) : Pk A := fun s =>
  let '(r, f) := m (pk_files s) in
  (match r with Ok a => Ok a | Err e => Err (wrap e) end, s <| pk_files := f |>).
Definition pack_failed (_ : io_error) : store_error := ErrPack.
Definition set_current (ns : bytes) (pack : option candidatePackFile) : Pk unit :=
  est_modify (fun s => s <| pk_current :=
    match pack with Some pack => <[ns := pack]> (pk_current s) | None => delete ns (pk_current s) end |>).

Definition candidatePackReadError (cause : io_error) : store_error :=
  match cause with ErrNotExist | ErrEOF => ErrRecordNotFound | ErrSystem => ErrPack end.

(** The loop of [writeCandidatePackAt]; a round writes at least a byte or ends it. *)
Fixpoint write_loop (fuel : nat) (p : path) (data : bytes) (offset : Z) : Sys unit :=
  match fuel, data with
  | _, [] => mret tt
  | O, _ => est_fail ErrSystem
  | S fuel, _ =>
      written ← os_WriteAt p data offset;
      if written =? 0 then est_fail ErrSystem
      else write_loop fuel p (drop (Z.to_nat written) data) (i64 (offset + written))
  end.
Definition writeCandidatePackAt (p : path) (data : bytes) (offset : Z) : Sys unit :=
  write_loop (length data) p data offset.

(** The loop of [nextCandidatePackSegment] over the directory entries. *)
Definition packSegment (name : bytes) (isDir : bool) : option Z :=
  if isDir || negb (length name =? 8 + length candidatePackFileSuffix)%nat ||
     negb (bool_decide (drop 8 name = candidatePackFileSuffix)) then None
  else ParseUint16 (take 8 name).
Fixpoint highestSegment (entries : list (bytes * bool)) (highest : option Z) : option Z :=
  match entries with
  | [] => highest
  | (name, isDir) :: entries =>
      highestSegment entries
        match packSegment name isDir, highest with
        | None, _ => highest
        | Some segment, None => Some segment
        | Some segment, Some h => if h <? segment then Some segment else highest
        end
  end.
Definition nextCandidatePackSegment (dir : bytes) : Pk Z :=
  entries ← pk_sys pack_failed (os_ReadDir dir);
  match highestSegment entries None with
  | None => mret 0
  | Some highest => if highest =? 2 ^ 32 - 1 then est_fail ErrPack else mret (u32 (highest + 1))
  end.

Definition rotate (ns : bytes) (previous : option candidatePackFile) : Pk candidatePackFile :=
  _ ← (match previous with
       | None => mret tt
       | Some _ => _ ← set_current ns None; pk_sys pack_failed os_Close
       end);
  _ ← pk_sys pack_failed (os_MkdirAll (sessionDir ns));
  segment ← nextCandidatePackSegment (sessionDir ns);
  let p := packPath ns segment in
  _ ← pk_sys pack_failed (os_Create p);
  r ← est_catch (pk_sys pack_failed (writeCandidatePackAt p candidatePackMagic 0));
  match r with
  | Err e =>
      _ ← est_catch (pk_sys pack_failed os_Close);
      _ ← est_catch (pk_sys pack_failed (os_Remove p));
      est_fail e
  | Ok _ =>
      let pack := mkPackFile segment (Z.of_nat (length candidatePackMagic)) in
      _ ← set_current ns (Some pack);
      mret pack
  end.

Definition abandon {A} (ns : bytes) (e : store_error) : Pk A :=
  _ ← set_current ns None;
  _ ← est_catch (pk_sys pack_failed os_Close);
  est_fail e.

(** The three parts of [append]: the segment, the record, the whole. *)
Definition append_select (ns : bytes) (recordSize : Z) : Pk candidatePackFile := fun s =>
  match pk_current s !! ns with
  | None => rotate ns None s
  | Some pack =>
      if (Z.of_nat (length candidatePackMagic) <? pf_size pack) && (pk_maxSize s <? i64 (pf_size pack + recordSize))
      then rotate ns (Some pack) s else (Ok pack, s)
  end.
Definition append_record (ns wire hash : bytes) (recordSize : Z) (pack : candidatePackFile) : Pk candidatePackPointer :=
  let recordOffset := pf_size pack in
  let p := packPath ns (pf_segment pack) in
  r ← est_catch (pk_sys pack_failed (writeCandidatePackAt p (le_put 4 (u32 (Z.of_nat (length wire)))) recordOffset));
  match r with
  | Err e => abandon ns e
  | Ok _ =>
      r ← est_catch (pk_sys pack_failed (writeCandidatePackAt p wire (i64 (recordOffset + candidatePackRecordHeader))));
      match r with
      | Err e => abandon ns e
      | Ok _ =>
          _ ← set_current ns (Some (mkPackFile (pf_segment pack) (i64 (pf_size pack + recordSize))));
          mret (mkPackPointer (pf_segment pack) (u64 recordOffset) (u32 (Z.of_nat (length wire))) hash)
      end
  end.
Definition append (ns wire hash : bytes) : Pk candidatePackPointer :=
  if 2 ^ 32 - 1 <? Z.of_nat (length wire) then est_fail ErrPack
  else
    let recordSize := i64 (candidatePackRecordHeader + Z.of_nat (length wire)) in
    pack ← append_select ns recordSize;
    append_record ns wire hash recordSize pack.

Definition read (ns : bytes) (pointer : candidatePackPointer) : Pk bytes :=
  file ← pk_sys candidatePackReadError (os_Open (packPath ns (pp_segment pointer)));
  magic ← pk_sys candidatePackReadError (os_ReadAt file (Z.of_nat (length candidatePackMagic)) 0);
  if negb (bool_decide (magic = candidatePackMagic)) then est_fail ErrRecordNotFound
  else if (pp_offset pointer <? Z.of_nat (length candidatePackMagic)) || (2 ^ 63 - 1 <? pp_offset pointer)
  then est_fail ErrRecordNotFound
  else
    record ← pk_sys candidatePackReadError (os_ReadAt file (candidatePackRecordHeader + pp_size pointer) (pp_offset pointer));
    if negb (le_get (take 4 record) =? pp_size pointer) then est_fail ErrRecordNotFound
    else
      let wire := drop 4 record in
      if negb (bool_decide (sha256 wire = pp_hash pointer)) then est_fail ErrRecordNotFound else mret wire.

Definition closeNamespace (ns : bytes) : Pk unit :=
  pack ← est_gets (fun s => pk_current s !! ns);
  match pack with
  | None => mret tt
  | Some _ => _ ← set_current ns None; pk_sys pack_failed os_Close
  end.
Definition delete_packs (ns : bytes) : Pk unit := pk_sys pack_failed (os_RemoveAll (sessionDir ns)).

(** ** Candidates of a session *)

Record CandidateRecord := mkCandidateRecord { cr_ID : CandidateID; cr_Wire : bytes; cr_ContentHash : bytes }.
Definition zero_hash : bytes := replicate 32 0.
Definition wireHash_of (c : CandidateRecord) : bytes :=
  if bool_decide (cr_ContentHash c = zero_hash) then sha256 (cr_Wire c) else cr_ContentHash c.

Section Candidates.
Context `{Pebble}.

(** A call of the packs from a request. *)
Definition tx_packs {A} (wrap : store_error -> apply_error) (m : Pk A) : Tx candidatePackStore A := fun s =>
  let '(r, w) := m s.2 in
  (match r with Ok a => Ok a | Err e => Err (wrap e) end, (s.1, w)).

Definition saveCandidate_body (session : SessionStorageID) (ns : bytes) (c : CandidateRecord) : Tx candidatePackStore unit :=
  let wireHash := wireHash_of c in
  summary ← ensureSession session ns;
  let indexKey := candidateIndexKey ns (cr_ID c) in
  stored ← getBatchCopy indexKey;
  lost ← (match stored with
          | None => mret true
          | Some stored =>
              pointer ← tx_of Rejected (decodeCandidatePackPointer stored);
              if negb (bool_decide (pp_hash pointer = wireHash)) then tx_reject ErrCandidateConflict
              else
                r ← tx_packs Rejected (est_catch (read ns pointer));
                match r with
                | Ok _ => mret false
                | Err ErrRecordNotFound => mret true
                | Err e => tx_reject e
                end
          end);
  if negb lost then mret tt
  else
    pointer ← tx_packs Rejected (append ns (cr_Wire c) wireHash);
    _ ← tx_Set indexKey (encodeCandidatePackPointer pointer);
    match stored with
    | Some _ => mret tt
    | None =>
        n ← incrementSummaryCount (su_candidates summary);
        saveSessionSummary ns (summary <| su_candidates := n |>)
    end.

(** [SaveCandidate] after the namespace: the request it submits. *)
Definition SaveCandidate (session : SessionStorageID) (ns : bytes) (c : CandidateRecord) (client : nat)
    (s : ValidatorStore candidatePackStore) : result store_error unit * ValidatorStore candidatePackStore :=
  submitSession ns (mkRequest (saveCandidate_body session ns c) (DoneOther client)
    (Z.of_nat candidatePackPointerSize) restartRecoverable) s.

(** [Candidate]: [packs] are the files and the outcomes of its own system calls. *)
Definition Candidate (db : DB) (packs : candidatePackStore) (session : SessionStorageID) (ns : bytes) (id : CandidateID) :
    result store_error CandidateRecord :=
  and_then (validateStoredDescriptor db session ns) (fun _ =>
  and_then (readerGetCopy db (candidateIndexKey ns id)) (fun value =>
  match value with
  | None => Err ErrRecordNotFound
  | Some value =>
      and_then (codec (decodeCandidatePackPointer value)) (fun pointer =>
      and_then (read ns pointer packs).1 (fun wire => Ok (mkCandidateRecord id wire (pp_hash pointer))))
  end)).
End Candidates.

(** ** Names are distinct *)

Lemma hex_value_digit d : 0 <= d < 16 -> hex_value (hex_digit d) = Some d.
Proof.
  intros Hd. unfold hex_digit, hex_value. destruct (Z.ltb_spec d 10).
  - rewrite (proj2 (andb_true_iff _ _)); [f_equal; lia|]. split; apply Z.leb_le; lia.
  - replace ((48 <=? 87 + d) && (87 + d <=? 57)) with false; [|symmetry; apply andb_false_iff; right; apply Z.leb_gt; lia].
    rewrite (proj2 (andb_true_iff _ _)); [f_equal; lia|]. split; apply Z.leb_le; lia.
Qed.
Lemma byte_digits b : is_byte b -> 0 <= b / 16 < 16 /\ 0 <= b mod 16 < 16 /\ b = 16 * (b / 16) + b mod 16.
Proof. unfold is_byte. intros. Z.div_mod_to_equations. lia. Qed.
Lemma hex_digit_inj d d' : 0 <= d < 16 -> 0 <= d' < 16 -> hex_digit d = hex_digit d' -> d = d'.
Proof. intros H H' E%(f_equal hex_value). rewrite !hex_value_digit in E by done. congruence. Qed.
Lemma hex_bytes_inj a b : bytes_ok a -> bytes_ok b -> hex_bytes a = hex_bytes b -> a = b.
Proof.
  intros Ha. revert b. induction Ha as [|x a Hx _ IH]; intros b Hb; destruct Hb as [|y b Hy Hb]; [done..|].
  destruct (byte_digits x Hx) as (? & ? & Ex), (byte_digits y Hy) as (? & ? & Ey).
  cbn. intros [= E1%hex_digit_inj E2%hex_digit_inj E3%IH]; [|done..]. rewrite Ex, Ey. congruence.
Qed.
Lemma parse_hex_bytes l acc : bytes_ok l ->
  foldl (fun acc c => acc ← acc; d ← hex_value c; Some (16 * acc + d)) (Some acc) (hex_bytes l) =
  Some (foldl (fun acc b => 256 * acc + b) acc l).
Proof.
  intros Hl. revert acc. induction Hl as [|b l Hb _ IH]; intros acc; [done|].
  destruct (byte_digits b Hb) as (? & ? & Eb). cbn. rewrite !hex_value_digit by done. cbn. fold (hex_bytes l).
  replace (16 * (16 * acc + b / 16) + b mod 16) with (256 * acc + b) by lia. apply IH.
Qed.
Lemma foldl_be_put4 x : is_u32 x -> foldl (fun acc b => 256 * acc + b) 0 (be_put 4 x) = x.
Proof. intros Hx. unfold be_put, le_put, is_u32 in *. cbn. Z.div_mod_to_equations. lia. Qed.
Lemma packSegment_name segment : is_u32 segment -> packSegment (candidatePackFileName segment) false = Some segment.
Proof.
  intros Hs. unfold packSegment, candidatePackFileName.
  assert (length (hex_bytes (be_put 4 segment)) = 8%nat) as Hl by reflexivity.
  rewrite length_app, Hl, drop_app_length' by done. rewrite bool_decide_true by done. cbn [orb negb Nat.eqb length Nat.add candidatePackFileSuffix].
  rewrite take_app_length' by done. unfold ParseUint16. destruct (hex_bytes (be_put 4 segment)) eqn:E; [done|].
  rewrite <- E. rewrite parse_hex_bytes by apply be_put_bytes. by rewrite foldl_be_put4.
Qed.
Lemma hex_value_range c d : hex_value c = Some d -> 0 <= d < 16.
Proof.
  unfold hex_value. repeat case_match; intros; simplify_eq; rewrite ?andb_true_iff, ?Z.leb_le in *; lia.
Qed.
Lemma parse_range s acc n v : 0 <= acc < 16 ^ n -> 0 <= n ->
  foldl (fun acc c => acc ← acc; d ← hex_value c; Some (16 * acc + d)) (Some acc) s = Some v ->
  0 <= v < 16 ^ (n + Z.of_nat (length s)).
Proof.
  revert acc n. induction s as [|c s IH]; intros acc n Ha Hn; cbn; [intros [= <-]; by rewrite Z.add_0_r|].
  destruct (hex_value c) as [d|] eqn:E; cbn.
  - apply hex_value_range in E. intros Hv. apply (IH _ (n + 1)) in Hv; [|rewrite Z.pow_add_r by lia; lia|lia].
    by replace (n + Z.of_nat (S (length s))) with (n + 1 + Z.of_nat (length s)) by lia.
  - intros Hv. exfalso. clear -Hv. induction s as [|c s IH]; [done|]. by apply IH.
Qed.
Lemma packSegment_range name isDir v : packSegment name isDir = Some v -> is_u32 v.
Proof.
  unfold packSegment. case_match; [done|]. unfold ParseUint16. destruct (take 8 name) as [|c l] eqn:E; [done|].
  rewrite <- E. intros Hv. apply (parse_range _ _ 0) in Hv; [|lia..]. rewrite length_take in Hv. unfold is_u32.
  assert (16 ^ (0 + Z.of_nat (8 `min` length name)) <= 16 ^ 8) by (apply Z.pow_le_mono_r; lia). lia.
Qed.
Lemma packPath_inj ns ns' s s' : bytes_ok ns -> bytes_ok ns' -> packPath ns s = packPath ns' s' -> ns = ns'.
Proof. intros H H' [= E _]. by apply hex_bytes_inj. Qed.

Lemma highestSegment_spec entries h : 
  (forall name isDir v, (name, isDir) ∈ entries -> packSegment name isDir = Some v ->
    exists v', highestSegment entries h = Some v' /\ v <= v') /\
  (forall v, h = Some v -> exists v', highestSegment entries h = Some v' /\ v <= v') /\
  (forall v, highestSegment entries h = Some v -> h = Some v \/ exists name isDir, (name, isDir) ∈ entries /\ packSegment name isDir = Some v).
Proof.
  revert h. induction entries as [|[name isDir] l IH]; intros h; simpl.
  { split_and!; [by intros ??? ?%elem_of_nil|naive_solver lia|auto]. }
  match goal with |- context [highestSegment l ?h'] => destruct (IH h') as (I1 & I2 & I3); set (H := h') in * end.
  split_and!.
  - intros n d v [E|Hin]%elem_of_cons Hv; [|by apply (I1 n d v)]. injection E as -> ->. subst H. rewrite Hv in *.
    destruct h as [h|]; [destruct (Z.ltb_spec h v)|]; [by apply I2| |by apply I2].
    destruct (I2 h eq_refl) as (v' & ? & ?). exists v'. split; [done|lia].
  - intros v ->. subst H. destruct (packSegment name isDir) as [s|]; [|by apply I2].
    destruct (Z.ltb_spec v s); [|by apply I2]. destruct (I2 s eq_refl) as (v' & ? & ?). exists v'. split; [done|lia].
  - intros v [Hv|(n & d & Hin & Hv)]%I3; [|right; exists n, d; split; [by right|done]]. subst H.
    destruct (packSegment name isDir) as [s|] eqn:Es; [|by left]. destruct h as [h|]; [destruct (h <? s)|];
      [|by left|]; right; exists name, isDir; (split; [left|congruence]).
Qed.

(** ** Records in the packs *)

Notation file_at s p := (lookup_path (pk_files s) p).

(** The pointer names a record with the wire [w]. *)
Record readable (s : candidatePackStore) (ns : bytes) (p : candidatePackPointer) (w data : bytes) : Prop := {
  re_file : file_at s (packPath ns (pp_segment p)) = Some (File data);
  re_magic : candidatePackMagic `prefix_of` data;
  re_offset : 8 <= pp_offset p < 2 ^ 63;
  re_size : is_u32 (pp_size p);
  re_bound : pp_offset p + 4 + pp_size p <= Z.of_nat (length data);
  re_header : le_get (take 4 (drop (Z.to_nat (pp_offset p)) data)) = pp_size p;
  re_wire : w = take (Z.to_nat (pp_size p)) (drop (Z.to_nat (pp_offset p) + 4) data);
  re_hash : sha256 w = pp_hash p }.
Definition packs_le (s s' : candidatePackStore) : Prop := files_le (pk_files s) (pk_files s').

Lemma readable_le s s' ns p w data : packs_le s s' -> readable s ns p w data -> exists data', readable s' ns p w data'.
Proof.
  intros Hle [H1 [m Hm] H3 H4 H5 H6 H7 H8]. destruct (Hle _ _ H1) as [t Ht]. exists (data ++ t). unfold is_u32 in H4.
  constructor; try done; [exists (m ++ t); by rewrite Hm, <- app_assoc|rewrite length_app; lia|..].
  - rewrite drop_app_le, take_app_le by (rewrite ?length_drop; lia). done.
  - rewrite drop_app_le, take_app_le by (rewrite ?length_drop; lia). done.
Qed.

Lemma pk_sys_spec {A} wrap (m : Sys A) (P : candidatePackStore -> Prop) (Q : A -> candidatePackStore -> Prop) R :
  (forall s, P s -> match m (pk_files s) with
    | (Ok a, f) => Q a (s <| pk_files := f |>)
    | (Err e, f) => R (wrap e) (s <| pk_files := f |>) end) ->
  est_spec P (pk_sys wrap m) Q R.
Proof. intros Hm s Hs. specialize (Hm s Hs). unfold pk_sys. by destruct (m (pk_files s)) as [[a|e] f]. Qed.

(** A reading call on a state the assertion does not tell from others with the
    same files. *)
Lemma pk_syscall_spec {A} wrap (m : Sys A) (P : candidatePackStore -> Prop) (Q : A -> candidatePackStore -> Prop) R :
  (forall s f, P s -> same_dirs (pk_files s) f -> match m f with
    | (Ok a, f) => Q a (s <| pk_files := f |>)
    | (Err e, f) => R (wrap e) (s <| pk_files := f |>) end) ->
  (forall s f, P s -> same_dirs (pk_files s) f -> R (wrap ErrSystem) (s <| pk_files := f |>)) ->
  est_spec P (pk_sys wrap (syscall m)) Q R.
Proof.
  intros Hm HR. apply pk_sys_spec. intros s Hs.
  apply (syscall_same m (pk_files s) (fun a f => Q a (s <| pk_files := f |>)) (fun e f => R (wrap e) (s <| pk_files := f |>)));
    intros f Hf; [exact (Hm s f Hs Hf)|exact (HR s f Hs Hf)].
Qed.

(** *** Reading *)

Definition reads_back (s : candidatePackStore) (ns : bytes) (p : candidatePackPointer) : Prop :=
  exists w data, readable s ns p w data.
(** Only outcomes of system calls were used up. *)
Definition same_packs (s s' : candidatePackStore) : Prop :=
  same_dirs (pk_files s) (pk_files s') /\ pk_current s' = pk_current s /\ pk_maxSize s' = pk_maxSize s.
Lemma same_packs_files s s' f : same_packs s s' -> same_dirs (pk_files s') f -> same_packs s (s' <| pk_files := f |>).
Proof. intros (H1 & H2 & H3) Hf. unfold same_packs, same_dirs in *. simpl. split_and!; congruence. Qed.
Lemma same_packs_path s s' p : same_packs s s' -> file_at s' p = file_at s p.
Proof. intros (H & _). by apply same_lookup_path. Qed.

(** [read] changes nothing but the list of outcomes; what it returns is the record
    the pointer names; it fails on a record of the packs only when the system does. *)
Lemma read_spec ns p s0 :
  is_u32 (pp_size p) ->
  est_spec (same_packs s0) (read ns p)
    (fun w s => same_packs s0 s /\ exists data, readable s0 ns p w data)
    (fun e s => same_packs s0 s /\ (reads_back s0 ns p -> e = ErrPack)).
Proof.
  intros Hsz. unfold read.
  apply est_spec_bind with (fun e s => same_packs s0 s /\ file_at s0 (packPath ns (pp_segment p)) = Some e).
  { apply pk_syscall_spec; [|intros s f Hs Hf; split; [by apply same_packs_files|done]].
    intros s f Hs Hf. unfold mbind, est_bind, est_gets. cbv beta iota.
    rewrite (same_lookup_path _ _ _ Hf), (same_packs_path _ _ _ Hs). destruct (file_at s0 _) as [e|] eqn:E; cbn beta iota;
      (split; [by apply same_packs_files|done || (intros (w & data & []); congruence)]). }
  intros e. apply est_spec_bind with (fun magic s => same_packs s0 s /\ file_at s0 (packPath ns (pp_segment p)) = Some e /\
    exists data, e = File data /\ magic = take 8 data /\ (8 <= length data)%nat).
  { apply pk_syscall_spec; [|intros s f [Hs _] Hf; split; [by apply same_packs_files|done]].
    intros s f [Hs He] Hf. destruct e as [data|].
    - destruct (Z.ltb_spec (Z.of_nat (length data)) (0 + Z.of_nat (length candidatePackMagic))); cbn.
      + split; [by apply same_packs_files|]. intros (w & data' & [H1 [t Ht] _ _ _ _ _ _]). rewrite He in H1. injection H1 as <-.
        exfalso. rewrite Ht, length_app in *. cbn [length candidatePackMagic] in *. lia.
      + split; [by apply same_packs_files|]. split; [done|]. exists data. split_and!; [done|done|simpl in *; lia].
    - split; [by apply same_packs_files|]. by intros (w & data' & []); simplify_eq. }
  intros magic s (Hs & He & data & -> & -> & H8).
  destruct (bool_decide_reflect (take 8 data = candidatePackMagic)) as [Hm|Hm]; cbn [negb].
  2:{ split; [done|]. intros (w & data' & [H1 [t Ht] _ _ _ _ _ _]). rewrite He in H1. injection H1 as ->. by rewrite Ht in Hm. }
  destruct (Z.ltb_spec (pp_offset p) (Z.of_nat (length candidatePackMagic))) as [Ho|Ho]; cbn [orb].
  { split; [done|]. intros (w & data' & [_ _ H3 _ _ _ _ _]). cbn [length candidatePackMagic] in Ho. lia. }
  destruct (Z.ltb_spec (2 ^ 63 - 1) (pp_offset p)) as [Ho'|Ho'].
  { split; [done|]. intros (w & data' & [_ _ H3 _ _ _ _ _]). lia. }
  revert s Hs. set (len := candidatePackRecordHeader + pp_size p). unfold candidatePackRecordHeader in len.
  refine (est_spec_bind _ _ (same_packs s0) (fun record s => same_packs s0 s /\
    pp_offset p + len <= Z.of_nat (length data) /\ record = take (Z.to_nat len) (drop (Z.to_nat (pp_offset p)) data)) _ _ _ _).
  { apply pk_syscall_spec; [|intros s f Hs Hf; split; [by apply same_packs_files|done]]. intros s f Hs Hf.
    destruct (Z.ltb_spec (Z.of_nat (length data)) (pp_offset p + len)); cbn; (split; [by apply same_packs_files|]); [|by split].
    intros (w & data' & [H1 _ _ _ H5 _ _ _]). rewrite He in H1. injection H1 as ->. lia. }
  intros record s (Hs & Hb & ->). unfold is_u32 in Hsz. set (off := Z.to_nat (pp_offset p)) in *.
  assert (take 4 (take (Z.to_nat len) (drop off data)) = take 4 (drop off data)) as E4 by (rewrite take_take; f_equal; lia).
  assert (drop 4 (take (Z.to_nat len) (drop off data)) = take (Z.to_nat (pp_size p)) (drop (off + 4) data)) as Ew.
  { replace (Z.to_nat len) with (4 + Z.to_nat (pp_size p))%nat by lia. by rewrite <- take_drop_commute, drop_drop. }
  rewrite E4, Ew. destruct (Z.eqb_spec (le_get (take 4 (drop off data))) (pp_size p)) as [Eh|Eh]; cbn [negb].
  2:{ split; [done|]. intros (w & data' & [H1 _ _ _ _ H6 _ _]). rewrite He in H1. injection H1 as ->. done. }
  case_bool_decide as Ehash; cbn [negb]; (split; [done|]).
  - exists data. constructor; try done; [|cbn [length candidatePackMagic] in Ho; lia|lia]. exists (drop 8 data). by rewrite <- Hm, take_drop.
  - intros (w & data' & [H1 _ _ _ _ _ H7 H8']). rewrite He in H1. injection H1 as ->. unfold off in Ehash. congruence.
Qed.
Lemma read_same ns p s0 : est_spec (same_packs s0) (read ns p) (fun _ => same_packs s0) (fun _ => same_packs s0).
Proof.
  assert (forall A (m : Sys A), (forall f, (m f).2 = f) ->
    est_spec (same_packs s0) (pk_sys candidatePackReadError (syscall m)) (fun _ => same_packs s0) (fun _ => same_packs s0)) as Hsys.
  { intros A m Hm. apply pk_syscall_spec; [|intros s f Hs Hf; by apply same_packs_files]. intros s f Hs Hf. specialize (Hm f).
    destruct (m f) as [[a|e] f']; cbn in Hm; subst f'; by apply same_packs_files. }
  unfold read. apply est_spec_bind with (fun _ => same_packs s0).
  { apply Hsys. intros f. unfold mbind, est_bind, est_gets. by destruct (lookup_path f _). }
  intros e. apply est_spec_bind with (fun _ => same_packs s0).
  { apply Hsys. intros f. destruct e; [|done]. by destruct (_ <? _). }
  intros magic. destruct (negb _); [by apply est_spec_fail|]. destruct (_ || _); [by apply est_spec_fail|].
  apply est_spec_bind with (fun _ => same_packs s0).
  { apply Hsys. intros f. destruct e; [|done]. by destruct (_ <? _). }
  intros record. destruct (negb _); [by apply est_spec_fail|]. destruct (negb _); [by apply est_spec_fail|by apply est_spec_ret].
Qed.
Lemma readable_unique s ns p w w' data data' : readable s ns p w data -> readable s ns p w' data' -> w = w'.
Proof. intros [] []. simplify_eq. congruence. Qed.

Lemma read_succeeds s ns p w data :
  readable s ns p w data -> fi_outcomes (pk_files s) = [] -> (read ns p s).1 = Ok w.
Proof.
  destruct s as [[dirs os] mx cur]. intros [H1 [t Ht] H3 H4 H5 H6 H7 H8] Hos. cbn in Hos. subst os.
  assert (length data = 8 + length t)%nat as Hl by (by rewrite Ht). unfold is_u32 in H4. cbn [pk_files] in H1.
  unfold read, mbind, est_bind, pk_sys, os_Open, os_ReadAt, syscall, mbind, est_bind, next_outcome, est_gets. cbn -[lookup_path].
  rewrite H1. cbn -[lookup_path]. rewrite (proj2 (Z.ltb_ge _ _)) by (cbn; lia).
  cbn -[lookup_path]. rewrite bool_decide_true by by rewrite Ht. cbn -[lookup_path].
  rewrite (proj2 (Z.ltb_ge (pp_offset p) (Z.of_nat 8))), (proj2 (Z.ltb_ge (2 ^ 63 - 1) (pp_offset p))) by lia. cbn -[lookup_path].
  unfold candidatePackRecordHeader. rewrite (proj2 (Z.ltb_ge (Z.of_nat (length data)) _)) by lia. cbn -[lookup_path Z.add].
  rewrite take_take. replace (4 `min` Z.to_nat (4 + pp_size p))%nat with 4%nat by lia. rewrite H6, Z.eqb_refl. cbn -[lookup_path Z.add].
  replace (Z.to_nat (4 + pp_size p)) with (4 + Z.to_nat (pp_size p))%nat by lia.
  rewrite <- take_drop_commute, drop_drop, <- H7, bool_decide_true by done. done.
Qed.

(** *** Writing *)

(** The open segments: what the store believes of them is true. *)
Record pack_inv (s : candidatePackStore) : Prop := {
  pi_max : 0 <= pk_maxSize s < 2 ^ 62;
  pi_current : forall ns pack, pk_current s !! ns = Some pack ->
    bytes_ok ns /\ is_u32 (pf_segment pack) /\ 8 <= pf_size pack <= Z.max (pk_maxSize s) (2 ^ 33) /\
    exists data, file_at s (packPath ns (pf_segment pack)) = Some (File data) /\
      candidatePackMagic `prefix_of` data /\ Z.of_nat (length data) = pf_size pack }.

(** Only the file [p] changed. *)
Definition only_at (p : path) (s s' : candidatePackStore) : Prop :=
  (forall q, q <> p -> file_at s' q = file_at s q) /\ pk_current s' = pk_current s /\ pk_maxSize s' = pk_maxSize s.

Lemma only_at_inv ns segment s s' :
  bytes_ok ns -> pk_current s !! ns = None -> only_at (packPath ns segment) s s' -> pack_inv s -> pack_inv s'.
Proof.
  intros Hns Hc (Hq & Hcur & Hmax) [I1 I2]. constructor; rewrite ?Hmax, ?Hcur; [done|].
  intros ns' pack Hp. destruct (I2 ns' pack Hp) as (Hb & Hs & Hsz & data & Hd & Hrest). do 3 (split; [done|]).
  exists data. split; [|done]. rewrite Hq; [done|]. intros E%packPath_inj; [|done..]. congruence.
Qed.
(** No file changed. *)
Definition alike (s s' : candidatePackStore) : Prop :=
  (forall q, file_at s' q = file_at s q) /\ pk_current s' = pk_current s /\ pk_maxSize s' = pk_maxSize s.
Lemma same_packs_alike s s' : same_packs s s' -> alike s s'.
Proof. intros Hs. split; [intros q; by apply same_packs_path|apply Hs]. Qed.
Lemma alike_inv s s' : alike s s' -> pack_inv s -> pack_inv s'.
Proof.
  intros (Hq & Hcur & Hmax) [I1 I2]. constructor; rewrite ?Hmax, ?Hcur; [done|].
  intros ns pack Hp. destruct (I2 ns pack Hp) as (Hb & Hsg & Hsz & data & Hd & Hrest). do 3 (split; [done|]).
  exists data. split; [|done]. by rewrite Hq.
Qed.
Lemma alike_le s0 s s' : alike s s' -> packs_le s0 s -> packs_le s0 s'.
Proof. intros (Hq & _) Hle p data (t & Ht)%Hle. exists t. by rewrite Hq. Qed.
Lemma forget_inv ns s : pack_inv s -> pack_inv (s <| pk_current := delete ns (pk_current s) |>).
Proof. intros [I1 I2]. constructor; [done|]. intros ns' pack. simpl. intros [_ Hp]%lookup_delete_Some. by apply I2. Qed.

Lemma write_loop_grown fuel p data x f :
  lookup_path f p = Some (File x) -> Z.of_nat (length x + length data) < 2 ^ 63 -> (length data <= fuel)%nat ->
  match write_loop fuel p data (Z.of_nat (length x)) f with
  | (Ok _, f') => grown p x data f f'
  | (Err _, f') => exists k, grown p x (take k data) f f'
  end.
Proof.
  revert data x f. induction fuel as [|fuel IH]; intros data x f Hx Hb Hf.
  { destruct data; [|simpl in Hf; lia]. simpl. by apply grown_nil. }
  destruct data as [|b data]; [simpl; by apply grown_nil|]. set (d := b :: data) in *. cbn [write_loop]. subst d. cbv beta iota.
  set (d := b :: data) in *. unfold mbind, est_bind. pose proof (os_WriteAt_grown p d x f Hx) as Hw.
  destruct (os_WriteAt p d (Z.of_nat (length x)) f) as [[n|e] f1]; [|done]. destruct Hw as (k & -> & Hk & Hg).
  destruct (Z.eqb_spec (Z.of_nat k) 0) as [|Hk0]; [by exists k|]. rewrite Nat2Z.id.
  assert (i64 (Z.of_nat (length x) + Z.of_nat k) = Z.of_nat (length (x ++ take k d))) as ->.
  { rewrite length_app, length_take, i64_small; [lia|]. unfold is_i64. lia. }
  pose proof Hg as (_ & Hx1 & _). specialize (IH (drop k d) (x ++ take k d) f1 Hx1).
  assert (Z.of_nat (length (x ++ take k d) + length (drop k d)) < 2 ^ 63) as B1 by (rewrite length_app, length_take, length_drop; lia).
  assert (length (drop k d) <= fuel)%nat as B2 by (rewrite length_drop; lia). specialize (IH B1 B2).
  destruct (write_loop fuel p (drop k d) _ f1) as [[u|e] f2].
  - rewrite <- (take_drop k d) at 1. by eapply grown_trans.
  - destruct IH as [j Hj]. exists (k + j)%nat. rewrite <- take_take_drop. by eapply grown_trans.
Qed.
Lemma writeCandidatePackAt_grown p data x f :
  lookup_path f p = Some (File x) -> Z.of_nat (length x + length data) < 2 ^ 63 ->
  match writeCandidatePackAt p data (Z.of_nat (length x)) f with
  | (Ok _, f') => grown p x data f f'
  | (Err _, f') => exists k, grown p x (take k data) f f'
  end.
Proof. intros Hx Hb. by apply write_loop_grown. Qed.

(** *** A new segment *)

(** The packs grew from [s0] and the session [ns] has no open segment. *)
Definition idle (s0 : candidatePackStore) (ns : bytes) (s : candidatePackStore) : Prop :=
  packs_le s0 s /\ pack_inv s /\ pk_current s !! ns = None.
Lemma idle_alike s0 ns s s' : alike s s' -> idle s0 ns s -> idle s0 ns s'.
Proof.
  intros Ha (H1 & H2 & H3). split_and!; [by eapply alike_le|by eapply alike_inv|]. destruct Ha as (_ & -> & _). done.
Qed.
Lemma idle_files s0 ns s f : same_dirs (pk_files s) f -> idle s0 ns s -> idle s0 ns (s <| pk_files := f |>).
Proof. intros Hf. apply idle_alike, same_packs_alike. by split. Qed.
#[local] Hint Resolve idle_files : packs.

Lemma os_Close_spec s0 ns : est_spec (idle s0 ns) (pk_sys pack_failed os_Close) (fun _ => idle s0 ns) (fun _ => idle s0 ns).
Proof. apply pk_syscall_spec; cbn; eauto with packs. Qed.

Lemma os_MkdirAll_spec s0 ns dir :
  est_spec (idle s0 ns) (pk_sys pack_failed (os_MkdirAll dir)) (fun _ => idle s0 ns) (fun _ => idle s0 ns).
Proof.
  apply pk_syscall_spec; [|cbn; eauto with packs]. intros s f Hs Hf. cbn. eapply (idle_files _ _ _ f) in Hs; [|done].
  destruct (fi_dirs f !! dir) eqn:E; [done|]. revert Hs. apply idle_alike. split; [|done]. intros [d n]. cbn. unfold lookup_path. cbn.
  destruct (decide (d = dir)) as [->|]; [|by rewrite lookup_insert_ne]. by rewrite lookup_insert_eq, E.
Qed.

Lemma nextCandidatePackSegment_spec s0 ns dir :
  est_spec (idle s0 ns) (nextCandidatePackSegment dir)
    (fun segment s => idle s0 ns s /\ is_u32 segment) (fun _ => idle s0 ns).
Proof.
  unfold nextCandidatePackSegment. apply est_spec_bind with (fun _ => idle s0 ns).
  { apply pk_syscall_spec; [|cbn; eauto with packs]. intros s f Hs Hf. unfold mbind, est_bind, est_gets. cbn.
    destruct (fi_dirs f !! dir); cbn; eauto with packs. }
  intros entries. pose proof (highestSegment_spec entries None) as (_ & _ & H3).
  destruct (highestSegment entries None) as [h|]; [|apply est_spec_ret; intros s Hs; split; [done|unfold is_u32; lia]].
  destruct (H3 h eq_refl) as [|(name & isDir & _ & Hv)]; [done|]. apply packSegment_range in Hv. unfold is_u32 in Hv.
  destruct (Z.eqb_spec h (2 ^ 32 - 1)); [by apply est_spec_fail|]. apply est_spec_ret. intros s Hs. split; [done|].
  rewrite u32_small; unfold is_u32; lia.
Qed.

(** The segment was created after [s0] and holds [x]. *)
Definition created (s0 : candidatePackStore) (ns : bytes) (segment : Z) (x : bytes) (s : candidatePackStore) : Prop :=
  idle s0 ns s /\ (forall data, file_at s0 (packPath ns segment) <> Some (File data)) /\
  file_at s (packPath ns segment) = Some (File x).

Lemma created_only_at s0 ns segment x s s' e :
  bytes_ok ns -> idle s0 ns s -> (forall data, file_at s0 (packPath ns segment) <> Some (File data)) ->
  only_at (packPath ns segment) s s' -> file_at s' (packPath ns segment) = e ->
  idle s0 ns s' /\ (e = Some (File x) -> created s0 ns segment x s').
Proof.
  intros Hns (H1 & H2 & H3) Hno Ho He.
  assert (idle s0 ns s') as Hi.
  { split_and!; [|by eapply only_at_inv|by destruct Ho as (_ & -> & _)].
    intros q data Hq. destruct (H1 q data Hq) as [t Ht]. exists t. destruct Ho as [Ho _]. rewrite Ho; [done|].
    intros ->. by apply Hno in Hq. }
  split; [done|]. intros ->. by split_and!.
Qed.

(** A call on the state left by taking its outcome. *)
Lemma pk_syscall_stable {A} wrap (m : Sys A) (P : candidatePackStore -> Prop) (Q : A -> candidatePackStore -> Prop) R :
  (forall s f, P s -> same_dirs (pk_files s) f -> P (s <| pk_files := f |>)) ->
  (forall s, P s -> match m (pk_files s) with
    | (Ok a, f) => Q a (s <| pk_files := f |>)
    | (Err e, f) => R (wrap e) (s <| pk_files := f |>) end) ->
  (forall s, P s -> R (wrap ErrSystem) s) ->
  est_spec P (pk_sys wrap (syscall m)) Q R.
Proof.
  intros Hp Hm HR. apply pk_syscall_spec; intros s f Hs Hf; specialize (Hp s f Hs Hf).
  - specialize (Hm _ Hp). by destruct s.
  - by apply HR.
Qed.

Lemma os_Create_spec s0 ns segment :
  bytes_ok ns ->
  est_spec (idle s0 ns) (pk_sys pack_failed (os_Create (packPath ns segment))) (fun _ => created s0 ns segment []) (fun _ => idle s0 ns).
Proof.
  intros Hns. apply pk_syscall_stable; [eauto with packs| |done]. intros s Hs. unfold mbind, est_bind, est_gets.
  destruct (fi_dirs (pk_files s) !! (packPath ns segment).1) as [d|] eqn:Ed; [|by destruct s].
  destruct (d !! (packPath ns segment).2) as [e|] eqn:Ee; [by destruct s|]. cbn.
  assert (file_at s (packPath ns segment) = None) as Hnone by (unfold lookup_path; by rewrite Ed).
  eapply created_only_at; [done|exact Hs| | |reflexivity|].
  - intros data Hd. destruct Hs as (Hle & _). destruct (Hle _ _ Hd). congruence.
  - split; [|done]. intros [d' n'] Hq. unfold lookup_path. cbn. destruct (decide (d' = (packPath ns segment).1)) as [->|Hne].
    + rewrite lookup_insert_eq, Ed. cbn. rewrite lookup_insert_ne; [done|]. intros <-. by apply Hq.
    + by rewrite lookup_insert_ne.
  - unfold lookup_path. cbn. by rewrite lookup_insert_eq; cbn; rewrite lookup_insert_eq.
Qed.

Lemma write_created_spec s0 ns segment data x :
  bytes_ok ns -> Z.of_nat (length x + length data) < 2 ^ 63 ->
  est_spec (created s0 ns segment x) (pk_sys pack_failed (writeCandidatePackAt (packPath ns segment) data (Z.of_nat (length x))))
    (fun _ => created s0 ns segment (x ++ data)) (fun _ s => exists y, created s0 ns segment y s).
Proof.
  intros Hns Hb. apply pk_sys_spec. intros s (Hi & Hno & Hx).
  pose proof (writeCandidatePackAt_grown _ data x (pk_files s) Hx Hb) as Hw.
  assert (forall f t, grown (packPath ns segment) x t (pk_files s) f -> created s0 ns segment (x ++ t) (s <| pk_files := f |>)) as Hg.
  { intros f t (_ & Hx' & Hq). eapply created_only_at; [done|exact Hi|done|by split|exact Hx'|done]. }
  destruct (writeCandidatePackAt _ _ _ _) as [[u|e] f]; [by apply Hg|]. destruct Hw as [k Hk]. eexists. by apply Hg.
Qed.

Lemma os_Remove_spec s0 ns segment :
  bytes_ok ns ->
  est_spec (fun s => exists x, created s0 ns segment x s) (pk_sys pack_failed (os_Remove (packPath ns segment)))
    (fun _ => idle s0 ns) (fun _ => idle s0 ns).
Proof.
  intros Hns. apply pk_syscall_stable; [| |by intros s (x & Hi & _)].
  { intros s f (x & Hi & Hno & Hx) Hf. exists x. split_and!; [by apply idle_files|done|]. cbn. by rewrite (same_lookup_path _ _ _ Hf). }
  intros s (x & Hi & Hno & Hx). unfold mbind, est_bind, est_gets.
  destruct (fi_dirs (pk_files s) !! (packPath ns segment).1) as [d|] eqn:Ed; [|by destruct s].
  destruct (d !! (packPath ns segment).2) as [e|] eqn:Ee; [|by destruct s]. cbn.
  refine (proj1 (created_only_at s0 ns segment [] s _ _ Hns Hi Hno _ eq_refl)). split; [|done]. intros [d' n'] Hq. unfold lookup_path. cbn.
  destruct (decide (d' = (packPath ns segment).1)) as [->|Hne]; [|by rewrite lookup_insert_ne].
  rewrite lookup_insert_eq, Ed. cbn. rewrite lookup_delete_ne; [done|]. intros <-. by apply Hq.
Qed.

(** The store after a call: grown from [s0] and consistent. *)
Definition kept (s0 s : candidatePackStore) : Prop := packs_le s0 s /\ pack_inv s.

Lemma rotate_spec s0 ns previous :
  bytes_ok ns ->
  est_spec (fun s => kept s0 s /\ (previous = None -> pk_current s !! ns = None)) (rotate ns previous)
    (fun pack s => kept s0 s /\ pk_current s !! ns = Some pack /\ pf_size pack = 8) (fun _ => kept s0).
Proof.
  intros Hns. unfold rotate. assert (forall s, idle s0 ns s -> kept s0 s) as Hk by (intros s (H1 & H2 & _); by split).
  apply est_spec_bind with (fun _ => idle s0 ns).
  { destruct previous as [pack|]; [|apply est_spec_ret; intros s [[H1 H2] H3]; split_and!; auto].
    apply est_spec_bind with (fun _ => idle s0 ns).
    - apply est_spec_modify. intros s [[H1 H2] _]. split_and!; [done|by apply (forget_inv ns)|]. cbn. apply lookup_delete_eq.
    - intros _. eapply est_spec_mono; [apply os_Close_spec|done|done|intros ? s; apply Hk]. }
  intros _. apply est_spec_bind with (fun _ => idle s0 ns).
  { eapply est_spec_mono; [apply os_MkdirAll_spec|done|done|intros ? s; apply Hk]. }
  intros _. apply est_spec_bind with (fun segment s => idle s0 ns s /\ is_u32 segment).
  { eapply est_spec_mono; [apply nextCandidatePackSegment_spec|done|done|intros ? s; apply Hk]. }
  intros segment. apply est_spec_bind with (fun _ s => created s0 ns segment [] s /\ is_u32 segment).
  { intros s [Hs Hseg]. pose proof (os_Create_spec s0 ns segment Hns s Hs) as Hc. destruct (pk_sys _ _ s) as [[u|e] s']; [by split|auto]. }
  intros _. apply est_spec_bind with (fun r s => is_u32 segment /\
    match r with Ok _ => created s0 ns segment candidatePackMagic s | Err _ => exists x, created s0 ns segment x s end).
  { apply est_spec_catch. intros s [Hs Hseg].
    pose proof (write_created_spec s0 ns segment candidatePackMagic [] Hns ltac:(cbn; lia) s Hs) as Hc.
    destruct (pk_sys _ _ s) as [[u|e] s']; by split. }
  intros [u|e].
  - apply est_spec_bind with (fun _ s => kept s0 s /\ pk_current s !! ns = Some (mkPackFile segment 8));
      [|intros _; apply est_spec_ret; intros s Hs; split_and!; [apply Hs|apply Hs|done]].
    apply est_spec_modify. intros s [Hseg ((H1 & [I1 I2] & H3) & _ & Hf)]. cbn. rewrite lookup_insert_eq. split; [|done].
    split; [done|]. constructor; [done|]. cbn. intros ns' pack [[<- <-]|[Hne Hp]]%lookup_insert_Some; [|by apply I2].
    do 2 (split; [done|]). split; [cbn; lia|]. by exists candidatePackMagic.
  - apply est_spec_bind with (fun _ s => exists x, created s0 ns segment x s).
    { apply est_spec_catch. apply pk_syscall_spec; cbn; intros s f [_ (x & Hi & Hno & Hx)] Hf; exists x; (split_and!;
        [by apply idle_files|done|cbn; by rewrite (same_lookup_path _ _ _ Hf)]). }
    intros _. apply est_spec_bind with (fun _ => idle s0 ns);
      [apply est_spec_catch; by apply os_Remove_spec|intros _; by apply est_spec_fail].
Qed.

(** *** Appending *)

(** The segment of [ns] holds [x], which may be ahead of its recorded size. *)
Record writing (s0 : candidatePackStore) (max : Z) (ns : bytes) (segment : Z) (x : bytes) (s : candidatePackStore) : Prop := {
  wr_max : pk_maxSize s = max;
  wr_le : packs_le s0 s;
  wr_inv : pack_inv (s <| pk_current := delete ns (pk_current s) |>);
  wr_file : file_at s (packPath ns segment) = Some (File x) }.

Lemma write_open_spec s0 max ns segment data x :
  bytes_ok ns -> Z.of_nat (length x + length data) < 2 ^ 63 ->
  est_spec (writing s0 max ns segment x) (pk_sys pack_failed (writeCandidatePackAt (packPath ns segment) data (Z.of_nat (length x))))
    (fun _ => writing s0 max ns segment (x ++ data)) (fun _ s => exists y, writing s0 max ns segment y s).
Proof.
  intros Hns Hb. apply pk_sys_spec. intros s [Hmax Hle Hinv Hx].
  pose proof (writeCandidatePackAt_grown _ data x (pk_files s) Hx Hb) as Hw.
  assert (forall f t, grown (packPath ns segment) x t (pk_files s) f -> writing s0 max ns segment (x ++ t) (s <| pk_files := f |>)) as Hg.
  { intros f t Hg. pose proof Hg as (_ & Hx' & Hq). constructor; [done|..|exact Hx'].
    - unfold packs_le. etrans; [exact Hle|]. by eapply grown_le.
    - eapply (only_at_inv ns segment); [done| | |exact Hinv]; [cbn; apply lookup_delete_eq|by split]. }
  destruct (writeCandidatePackAt _ _ _ _) as [[u|e] f]; [by apply Hg|]. destruct Hw as [k Hk]. eexists. by apply Hg.
Qed.

Lemma abandon_spec {A} s0 max ns segment e (Q : A -> candidatePackStore -> Prop) :
  est_spec (fun s => exists x, writing s0 max ns segment x s) (abandon ns e) Q (fun _ => kept s0).
Proof.
  unfold abandon. apply est_spec_bind with (fun _ => idle s0 ns).
  { apply est_spec_modify. intros s (x & [_ H1 H2 _]). split_and!; [done..|]. cbn. apply lookup_delete_eq. }
  intros _. apply est_spec_bind with (fun _ => idle s0 ns); [apply est_spec_catch, os_Close_spec|].
  intros _. apply est_spec_fail. intros s (H1 & H2 & _). by split.
Qed.

(** The segment an append goes to has room for the record. *)
Definition selected (s0 : candidatePackStore) (ns : bytes) (size : Z) (pack : candidatePackFile) (s : candidatePackStore) : Prop :=
  kept s0 s /\ pk_current s !! ns = Some pack /\ pf_size pack + size <= Z.max (pk_maxSize s) (2 ^ 33).
Lemma append_select_spec s0 ns size :
  bytes_ok ns -> 0 <= size <= 2 ^ 32 + 3 ->
  est_spec (kept s0) (append_select ns size) (selected s0 ns size) (fun _ => kept s0).
Proof.
  intros Hns Hsz s Hs. unfold append_select. assert (forall previous, (previous = None -> pk_current s !! ns = None) ->
    match rotate ns previous s with (Ok pack, s') => selected s0 ns size pack s' | (Err _, s') => kept s0 s' end) as Hrot.
  { intros previous Hp. pose proof (rotate_spec s0 ns previous Hns s (conj Hs Hp)) as Hr.
    destruct (rotate ns previous s) as [[pack|e] s']; [|done]. destruct Hr as (Hk & Hc & H8). split_and!; [done..|]. lia. }
  destruct (pk_current s !! ns) as [pack|] eqn:Ec; [|by apply Hrot].
  destruct (_ && _) eqn:Eb; [by apply Hrot|]. cbn. split_and!; [done..|].
  destruct Hs as [_ [Hmax Hcur]]. destruct (Hcur ns pack Ec) as (_ & _ & Hsize & _).
  apply andb_false_iff in Eb as [Eb%Z.ltb_ge|Eb%Z.ltb_ge]; [cbn in Eb; lia|].
  rewrite i64_small in Eb; [lia|]. unfold is_i64. lia.
Qed.

Definition wf_pointer (p : candidatePackPointer) : Prop :=
  is_u32 (pp_segment p) /\ is_u64 (pp_offset p) /\ is_u32 (pp_size p).

(** The record just written is readable. *)
Lemma written_readable s ns segment x wire hash :
  file_at s (packPath ns segment) = Some (File (x ++ le_put 4 (Z.of_nat (length wire)) ++ wire)) ->
  candidatePackMagic `prefix_of` x -> Z.of_nat (length x) < 2 ^ 63 -> Z.of_nat (length wire) < 2 ^ 32 -> sha256 wire = hash ->
  readable s ns (mkPackPointer segment (Z.of_nat (length x)) (Z.of_nat (length wire)) hash) wire
    (x ++ le_put 4 (Z.of_nat (length wire)) ++ wire).
Proof.
  intros Hf [t Ht] Hx Hw Hh. constructor; cbn [pp_segment pp_offset pp_size pp_hash]; try done.
  - exists (t ++ le_put 4 (Z.of_nat (length wire)) ++ wire). rewrite Ht. by rewrite <- app_assoc.
  - split; [|done]. rewrite Ht, length_app. cbn. lia.
  - unfold is_u32. lia.
  - rewrite !length_app, length_le_put. lia.
  - rewrite Nat2Z.id, drop_app_length, take_app_length' by (by rewrite length_le_put). apply le_put4_get. unfold is_u32. lia.
  - rewrite !Nat2Z.id, <- drop_drop, drop_app_length, drop_app_length' by (by rewrite length_le_put). by rewrite firstn_all.
Qed.

Lemma append_record_writing s0 max ns wire hash pack x :
  bytes_ok ns -> Z.of_nat (length wire) < 2 ^ 32 -> 0 <= max < 2 ^ 62 -> is_u32 (pf_segment pack) ->
  pf_size pack + (4 + Z.of_nat (length wire)) <= Z.max max (2 ^ 33) ->
  candidatePackMagic `prefix_of` x -> Z.of_nat (length x) = pf_size pack ->
  est_spec (writing s0 max ns (pf_segment pack) x) (append_record ns wire hash (4 + Z.of_nat (length wire)) pack)
    (fun p s => kept s0 s /\ wf_pointer p /\ pp_hash p = hash /\ (sha256 wire = hash -> exists data, readable s ns p wire data))
    (fun _ => kept s0).
Proof.
  intros Hns Hlen Hmax Hseg Hroom Hmagic Hlx. set (seg := pf_segment pack) in *. set (hdr := le_put 4 (Z.of_nat (length wire))).
  assert (length hdr = 4%nat) as Hh by apply length_le_put. unfold append_record. fold seg. rewrite (u32_small (Z.of_nat _)) by (unfold is_u32; lia).
  fold hdr. apply est_spec_bind with (fun r s =>
    match r with Ok _ => writing s0 max ns seg (x ++ hdr) s | Err _ => exists y, writing s0 max ns seg y s end).
  { apply est_spec_catch. rewrite <- Hlx. apply write_open_spec; [done|lia]. }
  intros [[]|e]; [|apply abandon_spec]. apply est_spec_bind with (fun r s =>
    match r with Ok _ => writing s0 max ns seg ((x ++ hdr) ++ wire) s | Err _ => exists y, writing s0 max ns seg y s end).
  { apply est_spec_catch. unfold candidatePackRecordHeader.
    replace (i64 (pf_size pack + 4)) with (Z.of_nat (length (x ++ hdr)));
      [apply write_open_spec; [done|]|rewrite i64_small; [|unfold is_i64]]; rewrite ?length_app; lia. }
  intros [[]|e]; [|apply abandon_spec]. rewrite !i64_small by (unfold is_i64; lia).
  rewrite (u64_small (pf_size pack)) by (unfold is_u64; lia). rewrite <- Hlx.
  apply est_spec_bind with (fun _ s => kept s0 s /\ file_at s (packPath ns seg) = Some (File (x ++ hdr ++ wire))).
  - apply est_spec_modify. intros s [H1 H2 [I1 I2] H4]. rewrite <- app_assoc in H4. split; [|done]. split; [done|].
    constructor; [exact I1|]. cbn. intros ns' pack' [[<- <-]|[Hne Hp]]%lookup_insert_Some.
    + do 2 (split; [done|]). cbn. rewrite H1. destruct Hmagic as [t Ht]. split; [rewrite Ht, length_app in *; cbn in *; lia|].
      exists (x ++ hdr ++ wire). split; [done|]. rewrite Ht, <- app_assoc. split; [by eexists|].
      rewrite !length_app, Hh. cbn. lia.
    + apply I2. cbn. by rewrite lookup_delete_ne.
  - intros _. apply est_spec_ret. intros s [Hk Hf]. split; [done|]. unfold wf_pointer, is_u64, is_u32 in *. cbn. split; [lia|].
    split; [done|]. intros Hsha. exists (x ++ hdr ++ wire). apply written_readable; [done|done|lia|done|done].
Qed.

Lemma append_spec s0 ns wire hash :
  bytes_ok ns ->
  est_spec (kept s0) (append ns wire hash)
    (fun p s => kept s0 s /\ wf_pointer p /\ pp_hash p = hash /\ (sha256 wire = hash -> exists data, readable s ns p wire data))
    (fun _ => kept s0).
Proof.
  intros Hns. unfold append. destruct (Z.ltb_spec (2 ^ 32 - 1) (Z.of_nat (length wire))) as [|Hlen]; [by apply est_spec_fail|].
  unfold candidatePackRecordHeader. rewrite i64_small by (unfold is_i64; lia).
  eapply est_spec_bind; [apply append_select_spec; [done|lia]|]. intros pack s [[Hle Hinv] [Hc Hroom]]. pose proof Hinv as [Hmax Hcur].
  destruct (Hcur ns pack Hc) as (_ & Hseg & Hsize & x & Hx & Hmagic & Hlx).
  apply (append_record_writing s0 (pk_maxSize s) ns wire hash pack x); [done|lia|done..|]. constructor; [done|done|by apply forget_inv|done].
Qed.
