(* ===== verification/StoreCandidate.v ===== *)
(** * What [Candidate] returns

    Proofs about the candidates of [StorePack.v].  [saved] says that the index row
    of a candidate names a record of the packs with a given hash.  Saving
    candidates, of any session, and every request that leaves the index and the
    packs alone keep it; so does removing the packs of another session.  With the
    writer's history this gives [saved_candidates_are_served]. *)

From S2P Require Import Prelude.
From S2P Require Import SimplexTypes.
From S2P Require Import SimplexWire.
From S2P Require Import Sha256.
From S2P Require Import StoreKeys.
From S2P Require Import StoreCodec.
From S2P Require Import Pebble.
From S2P Require Import Files.
From S2P Require Import StoreWriter.
From S2P Require Import StoreHistory.
From S2P Require Import StoreSession.
From S2P Require Import StoreJournal.
From S2P Require Import StoreRecovery.
From S2P Require Import StorePack.

#[local] Open Scope Z_scope.

(** ** Requests over a batch and the packs *)

Section Specs.
Context `{PebbleLaws}.
Notation W := candidatePackStore.

(** Like [tx_spec] of [StoreRecovery], with the packs; [F] is what a fatal error
    leaves of them. *)
Definition tw_spec {A : Type} (P : kv -> W -> Prop) (m : Tx W A) (Q : A -> kv -> W -> Prop) (E : kv -> W -> Prop) (F : W -> Prop) : Prop :=
  forall s, P (view s.1) s.2 ->
    match m s with
    | (Ok a, s') => Q a (view s'.1) s'.2
    | (Err (Rejected _), s') => E (view s'.1) s'.2
    | (Err (Fatal _), s') => F s'.2
    end.

Lemma tw_spec_ret {A : Type} (a : A) P (Q : A -> kv -> W -> Prop) E F : (forall m w, P m w -> Q a m w) -> tw_spec P (mret a) Q E F.
Proof. intros HQ s Hs. by apply HQ. Qed.
Lemma tw_spec_bind {A B : Type} (m : Tx W A) (k : A -> Tx W B) P (T : A -> kv -> W -> Prop) Q E F :
  tw_spec P m T E F -> (forall a, tw_spec (T a) (k a) Q E F) -> tw_spec P (m ≫= k) Q E F.
Proof.
  intros Hm Hk s Hs. specialize (Hm s Hs). unfold mbind, tx_bind. destruct (m s) as [[a|[e|e]] s']; [by apply Hk|done..].
Qed.
Lemma tw_spec_mono {A : Type} (m : Tx W A) (P P' : kv -> W -> Prop) (Q Q' : A -> kv -> W -> Prop) (E E' : kv -> W -> Prop) (F F' : W -> Prop) :
  tw_spec P m Q E F -> (forall x w, P' x w -> P x w) -> (forall a x w, Q a x w -> Q' a x w) -> (forall x w, E x w -> E' x w) ->
  (forall w, F w -> F' w) -> tw_spec P' m Q' E' F'.
Proof. intros Hm HP HQ HE HF s Hs. specialize (Hm s (HP _ _ Hs)). destruct (m s) as [[a|[e|e]] s']; auto. Qed.
Lemma tw_spec_get key (P : kv -> W -> Prop) (Q : option bytes -> kv -> W -> Prop) E (F : W -> Prop) :
  (forall m w, P m w -> Q (m !! key) m w) -> (forall m w, P m w -> F w) -> tw_spec P (getBatchCopy key) Q E F.
Proof.
  intros HQ HF s Hs. unfold getBatchCopy. pose proof (law_batch_get s.1 key) as Hr. specialize (HQ _ _ Hs). specialize (HF _ _ Hs).
  destruct (batch_Get s.1 key); simpl in *; rewrite ?Hr in HQ; done.
Qed.
Lemma tw_spec_Set key value (P : kv -> W -> Prop) (Q : unit -> kv -> W -> Prop) E (F : W -> Prop) :
  (forall m w, P m w -> Q tt (<[key := value]> m) w) -> (forall m w, P m w -> F w) -> tw_spec P (tx_Set key value) Q E F.
Proof.
  intros HQ HF s Hs. unfold tx_Set, tx_write. destruct (batch_Set s.1 key value) as [b|] eqn:Es; [|by eapply HF]. simpl.
  apply law_set in Es as [_ ->]. by apply HQ.
Qed.
Lemma tw_spec_reject {A : Type} e P (Q : A -> kv -> W -> Prop) (E : kv -> W -> Prop) F :
  (forall m w, P m w -> E m w) -> tw_spec P (tx_reject e) Q E F.
Proof. intros HE s Hs. by apply HE. Qed.
Lemma tw_spec_packs {A : Type} (m : Pk A) (P : kv -> W -> Prop) (Q : A -> kv -> W -> Prop) (E : kv -> W -> Prop) F :
  (forall x w, P x w -> match m w with (Ok a, w') => Q a x w' | (Err _, w') => E x w' end) -> tw_spec P (tx_packs Rejected m) Q E F.
Proof. intros Hm s Hs. specialize (Hm _ _ Hs). unfold tx_packs. by destruct (m s.2) as [[a|e] w']. Qed.
Lemma tw_spec_increment n (P : kv -> W -> Prop) (Q : Z -> kv -> W -> Prop) E (F : W -> Prop) :
  (forall m w, P m w -> n + 1 <> 2 ^ 64 -> Q (n + 1) m w) -> (forall m w, P m w -> F w) ->
  tw_spec P (incrementSummaryCount n) Q E F.
Proof.
  intros HQ HF s Hs. unfold incrementSummaryCount. destruct (Z.eqb_spec n (2 ^ 64 - 1)); [by eapply HF|]. apply HQ; [done|lia].
Qed.
End Specs.

(** ** Saved candidates *)

Lemma decode_wf_pointer p :
  wf_pointer p -> length (pp_hash p) = 32%nat -> decodeCandidatePackPointer (encodeCandidatePackPointer p) = Ok p.
Proof. intros (H1 & H2 & H3). by apply decode_encode_pointer. Qed.

Section Saved.
Context `{PebbleLaws} (session : SessionStorageID) (ns : bytes).
Notation W := candidatePackStore.

(** The session's descriptor and summary are there. *)
Definition opened (m : kv) : Prop :=
  m !! sessionKey ns = Some (encodeSessionID session) /\
  exists su, m !! summaryKey ns = Some (encodeSessionSummary su) /\ wf_summary su.
(** The rows of the index are pointers. *)
Definition indexed (m : kv) : Prop :=
  forall k v, candidateIndexPrefix ns `prefix_of` k -> m !! k = Some v ->
    exists p, v = encodeCandidatePackPointer p /\ wf_pointer p /\ length (pp_hash p) = 32%nat.
Definition described (m : kv) : Prop := (opened m \/ m !! sessionKey ns = None) /\ indexed m.

Definition saved (id : CandidateID) (h : bytes) (m : kv) (w : W) : Prop :=
  opened m /\ exists p, m !! candidateIndexKey ns id = Some (encodeCandidatePackPointer p) /\ wf_pointer p /\ pp_hash p = h /\
    length h = 32%nat /\ reads_back w ns p.

(** A candidate id stays bound to the hash it was first saved with. *)
Definition bound (m0 m : kv) : Prop :=
  forall k v p, candidateIndexPrefix ns `prefix_of` k -> m0 !! k = Some v -> decodeCandidatePackPointer v = Ok p ->
    exists v' p', m !! k = Some v' /\ decodeCandidatePackPointer v' = Ok p' /\ pp_hash p' = pp_hash p.
#[export] Instance bound_preorder : PreOrder bound.
Proof.
  split; [by intros m k v p _ Hv Hp; exists v, p|]. intros a b c H1 H2 k v p Hk Hv Hp.
  destruct (H1 k v p Hk Hv Hp) as (v' & p' & Hv' & Hp' & <-). by apply (H2 k v' p').
Qed.
Lemma bound_rows m0 m : (forall k, candidateIndexPrefix ns `prefix_of` k -> m !! k = m0 !! k) -> bound m0 m.
Proof. intros Hr k v p Hk Hv Hp. exists v, p. by rewrite Hr. Qed.

(** From [m0] and [w0]: the packs grew, every candidate saved is still saved, and
    every id is bound as before. *)
Record keeping (m0 : kv) (w0 : W) (m : kv) (w : W) : Prop := {
  ke_packs : kept w0 w;
  ke_described : described m;
  ke_saved : forall id h, saved id h m0 w0 -> saved id h m w;
  ke_bound : bound m0 m }.

Lemma saved_rows id h m m' w w' :
  opened m' -> m' !! candidateIndexKey ns id = m !! candidateIndexKey ns id -> packs_le w w' -> saved id h m w -> saved id h m' w'.
Proof.
  intros Ho Hrow Hle [_ (p & Hp & Hwf & Hh & Hl & wire & data & Hr)]. split; [done|]. exists p. rewrite Hrow.
  do 4 (split; [done|]). exists wire. by eapply readable_le.
Qed.

(** [ensureSession] on a described session opens it. *)
Lemma ensureSession_opens (m0 : kv) (w0 : W) :
  tw_spec (fun m w => described m /\ m = m0 /\ w = w0) (ensureSession session ns)
    (fun su m w => m !! sessionKey ns = Some (encodeSessionID session) /\ m !! summaryKey ns = Some (encodeSessionSummary su) /\
      wf_summary su /\ (forall k, k <> sessionKey ns -> k <> summaryKey ns -> m !! k = m0 !! k) /\ w = w0)
    (fun _ _ => False) (fun w => w = w0).
Proof.
  unfold ensureSession. apply tw_spec_bind with (fun stored m w => described m /\ m = m0 /\ w = w0 /\ stored = m !! sessionKey ns).
  { apply tw_spec_get; [tauto|by intros m w (_ & _ & ->)]. }
  intros [stored|].
  - case_bool_decide as Es; cbn [negb].
    + eapply tw_spec_bind with (fun o m w => exists su, o = Some su /\ opened m /\ m = m0 /\ w = w0 /\
        m !! summaryKey ns = Some (encodeSessionSummary su) /\ wf_summary su).
      2:{ intros o s (su & -> & [Ho _] & Em & Ew & Hsu & Hwf). cbn. do 4 (split; [done || (intros k _ _; by rewrite Em)|]). done. }
      unfold loadSessionSummary. apply tw_spec_bind with (fun v m w => exists su, v = Some (encodeSessionSummary su) /\ opened m /\ m = m0 /\ w = w0 /\
        m !! summaryKey ns = Some (encodeSessionSummary su) /\ wf_summary su).
      { apply tw_spec_get; [|by intros m w (_ & _ & -> & _)]. intros m w ([[Ho|Ho] _] & -> & -> & Hs); [|congruence].
        pose proof Ho as [_ (su & Hsu & Hwf)]. exists su. by split_and!. }
      intros v s (su & -> & Hrest & Hm & Hw & Hsu & Hwf). unfold tx_of, mbind, tx_bind. rewrite decode_encode_summary by done. cbn. by exists su.
    + intros s ([[Ho|Ho] _] & _ & _ & Hs); [|congruence]. destruct Ho as [Ho _]. congruence.
  - apply tw_spec_bind with (fun _ m w => m = <[sessionKey ns := encodeSessionID session]> m0 /\ w = w0).
    { apply tw_spec_Set; [by intros m w (_ & -> & -> & _)|by intros m w (_ & _ & -> & _)]. }
    intros []. apply tw_spec_bind with (fun _ m w =>
      m = <[summaryKey ns := encodeSessionSummary emptySummary]> (<[sessionKey ns := encodeSessionID session]> m0) /\ w = w0).
    { apply tw_spec_Set; [by intros m w (-> & ->)|by intros m w (_ & ->)]. }
    intros []. apply tw_spec_ret. intros m w (-> & ->). split_and!; [|by rewrite lookup_insert_eq|apply wf_emptySummary| |done].
    + rewrite lookup_insert_ne by done. by rewrite lookup_insert_eq.
    + intros k H1 H2. by rewrite !lookup_insert_ne.
Qed.

(** The session is open with the summary [su], and nothing else changed. *)
Record session_open (m0 : kv) (w0 : W) (su : sessionSummary) (m : kv) (w : W) : Prop := {
  so_desc : m !! sessionKey ns = Some (encodeSessionID session);
  so_summary : m !! summaryKey ns = Some (encodeSessionSummary su);
  so_wf : wf_summary su;
  so_rows : forall k, k <> sessionKey ns -> k <> summaryKey ns -> m !! k = m0 !! k;
  so_indexed : indexed m0;
  so_packs : kept w0 w }.

Lemma index_key_prefix id : candidateIndexPrefix ns `prefix_of` candidateIndexKey ns id.
Proof. by eexists. Qed.
Lemma session_open_indexed m0 w0 su m w : session_open m0 w0 su m w -> indexed m.
Proof.
  intros [_ _ _ Hr Hi _] k v Hk Hv. apply (Hi k v Hk). destruct Hk as [r ->]. by rewrite <- Hr.
Qed.
Lemma session_open_keeping m0 w0 su m w : session_open m0 w0 su m w -> keeping m0 w0 m w.
Proof.
  intros Hso. pose proof Hso as [Hd Hs Hwf Hr _ Hk]. assert (opened m) as Ho by (split; [done|by exists su]).
  constructor; [done|split; [by left|by eapply session_open_indexed]| |].
  - intros id h. apply saved_rows; [done| |apply Hk]. by apply Hr.
  - apply bound_rows. intros k [r ->]. by apply Hr.
Qed.

Lemma session_open_same m0 w0 su m w w' : same_packs w w' -> session_open m0 w0 su m w -> session_open m0 w0 su m w'.
Proof.
  intros Ha%same_packs_alike [? ? ? ? ? [Hle Hi]]. constructor; try done. split; [by eapply alike_le|by eapply alike_inv].
Qed.

(** Nothing is lost when the row of [id] is written with the hash [h]. *)
Definition may_write (m0 : kv) (w0 : W) (id : CandidateID) (h : bytes) : Prop :=
  (forall id' h', saved id' h' m0 w0 -> candidateIndexKey ns id' <> candidateIndexKey ns id) /\
  forall v p, m0 !! candidateIndexKey ns id = Some v -> decodeCandidatePackPointer v = Ok p -> pp_hash p = h.

(** The body up to the decision to append. *)
Lemma candidate_lookup m0 w0 su (c : CandidateRecord) stored :
  bytes_ok ns -> stored = m0 !! candidateIndexKey ns (cr_ID c) ->
  tw_spec (session_open m0 w0 su)
    (match stored with
     | None => mret true
     | Some stored =>
         pointer ← tx_of Rejected (decodeCandidatePackPointer stored);
         if negb (bool_decide (pp_hash pointer = wireHash_of c)) then tx_reject ErrCandidateConflict
         else
           r ← tx_packs Rejected (est_catch (read ns pointer));
           match r with
           | Ok _ => mret false
           | Err ErrRecordNotFound => mret true
           | Err e => tx_reject e
           end
     end)
    (fun lost m w => session_open m0 w0 su m w /\
      if (lost : bool) then may_write m0 w0 (cr_ID c) (wireHash_of c)
      else saved (cr_ID c) (wireHash_of c) m w)
    (keeping m0 w0) (kept w0).
Proof.
  intros Hns Es. destruct stored as [stored|].
  2:{ apply tw_spec_ret. intros m w Ho. split; [done|]. split; [intros id h [_ (p & Hp & _)] E|intros v p Hv]; congruence. }
  intros s Hs. pose proof (so_indexed _ _ _ _ _ Hs _ stored (index_key_prefix (cr_ID c)) (eq_sym Es)) as (p & -> & Hwf & Hl).
  unfold tx_of, mbind, tx_bind. rewrite decode_wf_pointer by done.
  case_bool_decide as Eh; cbn [negb]; [|by eapply session_open_keeping]. unfold tx_packs, est_catch.
  pose proof (read_spec ns p s.2 (proj2 (proj2 Hwf)) s.2 (conj eq_refl (conj eq_refl eq_refl))) as Hread.
  destruct (read ns p s.2) as [[wire|e] w']; destruct Hread as [Hsame Hread];
    pose proof (session_open_same _ _ _ _ _ _ Hsame Hs) as Ho; cbn -[candidateIndexKey].
  - split; [done|]. pose proof Ho as [Hd Hsu Hw Hr _ _].
    split; [split; [done|by exists su]|]. exists p. rewrite Hr, <- Es by done. split_and!; try done; [apply Hwf..|by rewrite <- Eh|].
    destruct Hread as [data Hread]. exists wire. eapply readable_le; [|exact Hread]. apply same_files_le, Hsame.
  - destruct (decide (e = ErrRecordNotFound)) as [->|Hne]; [|by destruct e; try done; eapply session_open_keeping].
    split; [done|]. split; [|intros v p' Hv Hp'; rewrite <- Es in Hv; injection Hv as <-; rewrite decode_wf_pointer in Hp'; congruence].
    intros id h [_ (p' & Hp' & Hwf' & Hh' & Hl' & wire & data & Hrd)] E. rewrite E, <- Es in Hp'.
    assert (p = p') as <-.
    { apply (inj Some), (f_equal decodeCandidatePackPointer) in Hp'.
      rewrite !decode_wf_pointer in Hp' by (done || by rewrite Hh'). congruence. }
    apply (readable_le w0 s.2) in Hrd as [data' Hrd]; [|apply Hs]. discriminate Hread. by exists wire, data'.
Qed.

(** The row is written: every candidate saved before is still saved, and this one
    is if its record can be read. *)
Lemma index_written m0 w0 su m w id p w' m' su' :
  session_open m0 w0 su m w -> may_write m0 w0 id (pp_hash p) ->
  kept w0 w' -> wf_pointer p -> length (pp_hash p) = 32%nat ->
  m' = <[summaryKey ns := encodeSessionSummary su']> (<[candidateIndexKey ns id := encodeCandidatePackPointer p]> m) ->
  wf_summary su' -> keeping m0 w0 m' w' /\ (reads_back w' ns p -> saved id (pp_hash p) m' w').
Proof.
  intros [Hd Hs Hwf Hr Hi _] [Hno Hbd] Hk Hp Hl -> Hwf'.
  assert (opened (<[summaryKey ns := encodeSessionSummary su']> (<[candidateIndexKey ns id := encodeCandidatePackPointer p]> m))) as Ho.
  { split; [by rewrite !lookup_insert_ne by done|]. exists su'. by rewrite lookup_insert_eq. }
  split; [constructor; [done|split; [by left|]| |]|].
  - intros k v [r ->]. rewrite lookup_insert_ne by done. destruct (decide (candidateIndexKey ns id = candidateIndexPrefix ns ++ r)) as [->|Hne].
    + rewrite lookup_insert_eq. intros [= <-]. by exists p.
    + rewrite lookup_insert_ne, Hr by done. apply Hi. by eexists.
  - intros id' h Hsv. eapply saved_rows; [done| |apply Hk|exact Hsv].
    rewrite lookup_insert_ne, lookup_insert_ne, Hr by (done || (symmetry; by eapply Hno)). done.
  - intros k v q [r ->] Hv Hq. rewrite lookup_insert_ne by done.
    destruct (decide (candidateIndexKey ns id = candidateIndexPrefix ns ++ r)) as [E|Hne].
    + rewrite <- E in *. rewrite lookup_insert_eq. exists (encodeCandidatePackPointer p), p.
      split_and!; [done|by apply decode_wf_pointer|symmetry; by eapply Hbd].
    + rewrite lookup_insert_ne, Hr by done. by exists v, q.
  - intros Hrb. split; [done|]. exists p. rewrite lookup_insert_ne, lookup_insert_eq by done. by split_and!.
Qed.

(** The row is in the batch; the summary is still to be written. *)
Definition row_written m0 w0 su (c : CandidateRecord) (p : candidatePackPointer) (m : kv) (w : W) : Prop :=
  exists m1 w1, session_open m0 w0 su m1 w1 /\
    m = <[candidateIndexKey ns (cr_ID c) := encodeCandidatePackPointer p]> m1 /\ kept w0 w /\ forall m' su', wf_summary su' ->
    m' = <[summaryKey ns := encodeSessionSummary su']> (<[candidateIndexKey ns (cr_ID c) := encodeCandidatePackPointer p]> m1) ->
    keeping m0 w0 m' w /\ (sha256 (cr_Wire c) = wireHash_of c -> saved (cr_ID c) (wireHash_of c) m' w).

Lemma saveCandidate_keeps c m0 w0 :
  bytes_ok ns -> length (wireHash_of c) = 32%nat ->
  tw_spec (fun m w => described m /\ m = m0 /\ w = w0 /\ pack_inv w0) (saveCandidate_body session ns c)
    (fun _ m w => keeping m0 w0 m w /\ (sha256 (cr_Wire c) = wireHash_of c -> saved (cr_ID c) (wireHash_of c) m w))
    (keeping m0 w0) (kept w0).
Proof.
  intros Hns Hl. unfold saveCandidate_body. apply tw_spec_bind with (fun su m w => session_open m0 w0 su m w).
  { intros s (Hd & Hm & Hw & Hinv). pose proof (ensureSession_opens m0 w0 s (conj Hd (conj Hm Hw))) as He.
    assert (kept w0 w0) as Hk by (split; [unfold packs_le; reflexivity|done]). destruct (ensureSession session ns s) as [[su|[e|e]] s']; [|done|by rewrite He].
    destruct He as (H1 & H2 & H3 & H4 & ->). constructor; try done. rewrite <- Hm. apply Hd. }
  intros su. apply tw_spec_bind with (fun stored m w => session_open m0 w0 su m w /\ stored = m0 !! candidateIndexKey ns (cr_ID c)).
  { apply tw_spec_get; [|intros m w Ho; apply Ho]. intros m w Ho. split; [done|]. by apply (so_rows _ _ _ _ _ Ho). }
  intros stored. apply (tw_spec_bind _ _ _ (fun lost m w => session_open m0 w0 su m w /\
      if (lost : bool) then may_write m0 w0 (cr_ID c) (wireHash_of c)
      else saved (cr_ID c) (wireHash_of c) m w)).
  { intros s [Ho Es]. exact (candidate_lookup m0 w0 su c stored Hns Es s Ho). }
  intros [|]; cbn [negb].
  2:{ apply tw_spec_ret. intros m w [Ho Hsv]. split; [by eapply session_open_keeping|done]. }
  apply tw_spec_bind with (fun p m w => kept w0 w /\ wf_pointer p /\ pp_hash p = wireHash_of c /\
    (sha256 (cr_Wire c) = wireHash_of c -> reads_back w ns p) /\ exists w1, session_open m0 w0 su m w1 /\
      may_write m0 w0 (cr_ID c) (wireHash_of c)).
  { apply tw_spec_packs. intros m w [Ho Hno]. pose proof (append_spec w0 ns (cr_Wire c) (wireHash_of c) Hns w (so_packs _ _ _ _ _ Ho)) as Ha.
    destruct (append ns (cr_Wire c) (wireHash_of c) w) as [[p|e] w'].
    - destruct Ha as (H1 & H2 & H3 & H4). split_and!; try done; [apply H2..|intros E; destruct (H4 E) as [data ?]; by exists (cr_Wire c), data|by exists w].
    - assert (session_open m0 w0 su m w') by (destruct Ho; by constructor). by eapply session_open_keeping. }
  intros p. apply tw_spec_bind with (fun _ => row_written m0 w0 su c p).
  { apply tw_spec_Set; [|by intros m w [Hk _]]. intros m w (Hk & Hp & Hh & Hrb & w1 & Ho & Hno). exists m, w1. split_and!; [done..|].
    intros m' su' Hwf' Em'. rewrite <- Hh in *.
    destruct (index_written m0 w0 su m w1 (cr_ID c) p w m' su' Ho Hno Hk Hp Hl Em' Hwf') as [H1 H2]. split; [done|auto]. }
  intros []. destruct stored as [stored|].
  - apply tw_spec_ret. intros m w (m1 & w1 & Ho & -> & Hk & Hw). apply (Hw _ su); [apply Ho|]. symmetry. apply insert_id.
    rewrite lookup_insert_ne by done. apply Ho.
  - apply tw_spec_bind with (fun n m w => is_u64 n /\ row_written m0 w0 su c p m w).
    { apply tw_spec_increment; [|by intros m w (m1 & w1 & _ & _ & Hk & _)]. intros m w (m1 & w1 & Ho & Hrest) Hn.
      split; [|by exists m1, w1]. pose proof (wm_candidates _ (so_wf _ _ _ _ _ Ho)) as Hu. unfold is_u64 in *. lia. }
    intros n. apply tw_spec_Set; [|by intros m w (_ & m1 & w1 & _ & _ & Hk & _)].
    intros m w (Hn & m1 & w1 & Ho & -> & Hk & Hw). apply (Hw _ (su <| su_candidates := n |>)); [|done].
    destruct (so_wf _ _ _ _ _ Ho) as [W1 W2 W3 W4 W5 W6 W7 W8 W9 W10]. by constructor.
Qed.

(** *** Requests that keep the candidates *)

Definition keeps_saved (t : Tx W unit) : Prop :=
  tx_local t /\ forall m0 w0, tw_spec (fun m w => described m /\ m = m0 /\ w = w0 /\ pack_inv w0) t
    (fun _ => keeping m0 w0) (keeping m0 w0) (kept w0).

(** The session is open, and the index is as before. *)
Definition index_kept (m0 : kv) (w0 : W) (m : kv) (w : W) : Prop :=
  opened m /\ (forall k, candidateIndexPrefix ns `prefix_of` k -> m !! k = m0 !! k) /\ indexed m0 /\ kept w0 w.
Lemma index_kept_keeping m0 w0 m w : index_kept m0 w0 m w -> keeping m0 w0 m w.
Proof.
  intros (Ho & Hr & Hi & Hk). constructor; [done|split; [by left|]| |by apply bound_rows].
  - intros k v Hp. rewrite Hr by done. by apply Hi.
  - intros id h. apply saved_rows; [done| |apply Hk]. apply Hr, index_key_prefix.
Qed.

(** A step of a request that stays within [index_kept]. *)
Definition tame {A : Type} (t : Tx W A) : Prop :=
  tx_local t /\ forall m0 w0, tw_spec (index_kept m0 w0) t (fun _ => index_kept m0 w0) (index_kept m0 w0) (kept w0).

Lemma tame_bind {A B : Type} (t : Tx W A) (k : A -> Tx W B) : tame t -> (forall a, tame (k a)) -> tame (t ≫= k).
Proof.
  intros [Lt Ht] Hk. split; [apply tx_local_bind; [done|apply Hk]|]. intros m0 w0. eapply tw_spec_bind; [apply Ht|intros a; apply (proj2 (Hk a))].
Qed.
Lemma tame_pure {A : Type} (t : Tx W A) : (forall s, (t s).2 = s) -> tame t.
Proof.
  intros Ht. split; [intros s; by rewrite Ht|]. intros m0 w0 s Hs. specialize (Ht s).
  destruct (t s) as [[a|[e|e]] s']; cbn in Ht; subst s'; [done|done|apply Hs].
Qed.
Lemma tame_increment {B : Type} n (k : Z -> Tx W B) :
  is_u64 n -> (forall n', n' = n + 1 -> is_u64 n' -> tame (k n')) -> tame (incrementSummaryCount n ≫= k).
Proof.
  intros Hn Hk. unfold incrementSummaryCount. destruct (Z.eqb_spec n (2 ^ 64 - 1)); [by apply tame_pure|].
  apply (Hk (n + 1)); [done|]. unfold is_u64 in *. lia.
Qed.
Lemma tame_Set key value :
  key <> sessionKey ns -> key <> summaryKey ns -> ~ candidateIndexPrefix ns `prefix_of` key -> tame (tx_Set key value).
Proof.
  intros H1 H2 H3. split; [apply tx_local_Set|]. intros m0 w0. apply tw_spec_Set; [|intros m w Hi; apply Hi].
  intros m w ([Hd (su & Hs & Hwf)] & Hr & Hi & Hk). split_and!; [split; [|exists su; split; [|done]]| |done..].
  - by rewrite lookup_insert_ne.
  - by rewrite lookup_insert_ne.
  - intros k Hp. rewrite lookup_insert_ne; [by apply Hr|]. by intros ->.
Qed.
Lemma tame_summary su : wf_summary su -> tame (saveSessionSummary ns su).
Proof.
  intros Hwf. split; [apply tx_local_Set|]. intros m0 w0. apply tw_spec_Set; [|intros m w Hi; apply Hi].
  intros m w ([Hd _] & Hr & Hi & Hk). split_and!; [split; [by rewrite lookup_insert_ne|exists su; by rewrite lookup_insert_eq]| |done..].
  intros k [r ->]. rewrite lookup_insert_ne by done. apply Hr. by eexists.
Qed.
Lemma ensureSession_keeps (k : sessionSummary -> Tx W unit) :
  (forall su, wf_summary su -> tame (k su)) -> (forall su, tx_local (k su)) -> keeps_saved (ensureSession session ns ≫= k).
Proof.
  intros Hk Hl. split; [apply tx_local_bind; [apply tx_local_ensureSession|done]|]. intros m0 w0.
  apply tw_spec_bind with (fun su m w => wf_summary su /\ index_kept m0 w0 m w).
  { intros s (Hd & Hm & Hw & Hinv). pose proof (ensureSession_opens m0 w0 s (conj Hd (conj Hm Hw))) as He.
    assert (kept w0 w0) as Hk0 by (split; [unfold packs_le; reflexivity|done]).
    destruct (ensureSession session ns s) as [[su|[e|e]] s']; [|done|by rewrite He]. destruct He as (H1 & H2 & H3 & H4 & ->).
    split; [done|]. split_and!; [split; [done|by exists su]| |rewrite <- Hm; apply Hd|done]. intros key [r ->]. by apply H4. }
  intros su s [Hwf Hi]. destruct (Hk su Hwf) as [_ Ht]. specialize (Ht m0 w0 s Hi).
  destruct (k su s) as [[a|[e|e]] s']; [by apply index_kept_keeping..|done].
Qed.
End Saved.

Ltac tame_auto :=
  repeat first
    [ apply tame_increment; [by eapply wm_votes || by eapply wm_certificates || by eapply wm_finalized || by eapply wm_windows
      |intros ? ? ?]
    | apply tame_bind; [|intros]
    | match goal with
      | |- tame _ _ (getBatchCopy _) => apply tame_pure; intros s; unfold getBatchCopy; by destruct (batch_Get _ _)
      | |- tame _ _ (tx_of _ ?r) => apply tame_pure; intros s; unfold tx_of; by destruct r
      | |- tame _ _ (match ?x with _ => _ end) => destruct x
      end
    | apply tame_pure; intros ?; reflexivity ].

Section Requests.
Context `{TLRuntime} `{PebbleLaws} (session : SessionStorageID) (ns : bytes).
Notation W := candidatePackStore.

(** The other requests of the session: the journal's, finality marks, leader
    windows and delegations. *)
Inductive session_request : Tx W unit -> Prop :=
| sr_initialize : session_request (initialize_body session ns)
| sr_vote key value : session_request (saveOurVote_body session ns (voteKey ns key) value)
| sr_certificate key value : session_request (saveCertificate_body session ns (voteKey ns key) value)
| sr_window window value : is_u32 window -> session_request (saveWindow_body session ns window value)
| sr_finalized id : sized_id id -> session_request (markFinalized_body session ns id)
| sr_leader w : wf_window w -> validateLeaderWindow w = true -> session_request (recordLeaderWindow_body session ns w)
| sr_delegation a value : session_request (saveDelegation_body session ns a value).

Lemma leader_window_tame w su :
  wf_window w -> validateLeaderWindow w = true -> wf_summary su ->
  let advances := match su_lastLeaderWindow su with None => true | Some last => lw_StartSlot last <? lw_StartSlot w end in
  tame session ns (n ← (if (advances : bool) then incrementSummaryCount (su_leaderWindows su) else mret (su_leaderWindows su));
    let summary := su <| su_leaderWindows := n |> in
    let replaces := match su_lastLeaderWindow summary with None => true | Some last => lw_StartSlot last <=? lw_StartSlot w end in
    saveSessionSummary ns (if replaces then summary <| su_lastLeaderWindow := Some w |> else summary)).
Proof.
  intros Hw Hv Hsu advances. pose proof (wm_windows _ Hsu) as Hn. destruct advances eqn:Ea.
  - apply tame_increment; [done|]. intros n' -> Hn'. apply tame_summary, wf_window_summary; try done; fold advances; [|congruence].
    intros _. unfold is_u64 in *. lia.
  - match goal with |- tame _ _ (mbind ?k (mret ?x)) => change (tame session ns (k x)) end. apply tame_summary.
    apply wf_window_summary; try done; fold advances; congruence.
Qed.

Lemma session_request_keeps t : session_request t -> keeps_saved session ns t.
Proof.
  assert (forall kind r, kind <> keyCandidateIndex -> ~ candidateIndexPrefix ns `prefix_of` (namespacedPrefix kind ns ++ r)) as Hpre.
  { intros kind r Hne [x E]. apply Hne. by injection E. }
  destruct 1; apply ensureSession_keeps; intros su;
    try (unfold saveSessionSummary; tx_local_auto; fail); intros Hsu.
  6: by apply leader_window_tame.
  all: tame_auto; try (apply tame_Set; [done|done|by (apply Hpre || (rewrite <- (app_nil_r (poolStateKey ns)); apply Hpre))]).
  all: apply tame_summary; try (apply wf_finalized_summary; [done|pose proof (wm_finalized _ Hsu); unfold is_u64 in *; lia|done]).
  all: destruct Hsu; by constructor.
Qed.
End Requests.

(** *** Requests of other sessions *)

Section OtherSessions.
Context `{PebbleLaws}.
Notation W := candidatePackStore.

(** A request that leaves the packs consistent. *)
Definition tx_kept {A : Type} (t : Tx W A) : Prop := forall s, pack_inv s.2 -> kept s.2 (t s).2.2.

Lemma kept_refl w : pack_inv w -> kept w w.
Proof. intros Hi. split; [unfold packs_le; reflexivity|done]. Qed.
Lemma kept_trans w0 w1 w2 : kept w0 w1 -> kept w1 w2 -> kept w0 w2.
Proof. intros [H1 _] [H2 H3]. split; [|done]. unfold packs_le in *. by etrans. Qed.
Lemma tx_kept_bind {A B : Type} (t : Tx W A) (k : A -> Tx W B) : tx_kept t -> (forall a, tx_kept (k a)) -> tx_kept (t ≫= k).
Proof.
  intros Ht Hk s Hs. specialize (Ht s Hs). unfold mbind, tx_bind. destruct (t s) as [[a|e] s']; [|done].
  eapply kept_trans; [exact Ht|]. apply Hk, Ht.
Qed.
Lemma tx_kept_quiet {A : Type} (t : Tx W A) : (forall s, (t s).2.2 = s.2) -> tx_kept t.
Proof. intros Ht s Hs. rewrite Ht. by apply kept_refl. Qed.
Lemma tx_kept_packs {A : Type} wrap (m : Pk A) :
  (forall w, pack_inv w -> kept w (m w).2) -> tx_kept (tx_packs wrap m).
Proof. intros Hm s Hs. specialize (Hm s.2 Hs). unfold tx_packs. by destruct (m s.2) as [r w']. Qed.

Lemma read_kept ns p w : pack_inv w -> kept w (est_catch (read ns p) w).2.
Proof.
  intros Hi. pose proof (read_same ns p w w (conj eq_refl (conj eq_refl eq_refl))) as Hr. unfold est_catch.
  assert (forall w', same_packs w w' -> kept w w') as Hs.
  { intros w' Ha%same_packs_alike. split; [|by eapply alike_inv]. eapply alike_le; [done|unfold packs_le; reflexivity]. }
  destruct (read ns p w) as [[a|e] w']; by apply Hs.
Qed.
Lemma append_kept ns wire hash w : bytes_ok ns -> pack_inv w -> kept w (append ns wire hash w).2.
Proof.
  intros Hns Hi. pose proof (append_spec w ns wire hash Hns w (kept_refl w Hi)) as Ha.
  destruct (append ns wire hash w) as [[p|e] w']; [apply Ha|done].
Qed.
Lemma closeNamespace_kept ns w : pack_inv w -> kept w (closeNamespace ns w).2.
Proof.
  intros Hi. unfold closeNamespace, mbind, est_bind, est_gets. destruct (pk_current w !! ns); [|by apply kept_refl].
  pose proof (os_Close_spec w ns (w <| pk_current := delete ns (pk_current w) |>)) as Hc. unfold set_current, est_modify.
  cbv beta iota. destruct (pk_sys pack_failed os_Close _) as [[u|e] w']; destruct Hc as (H1 & H2 & _); try done;
    (split_and!; [unfold packs_le; reflexivity|by apply forget_inv|cbn; apply lookup_delete_eq]).
Qed.

Ltac tx_kept_auto :=
  repeat first
    [ apply tx_kept_bind; [|intros]
    | match goal with
      | |- tx_kept (getBatchCopy _) => apply tx_kept_quiet; intros s; unfold getBatchCopy; by destruct (batch_Get _ _)
      | |- tx_kept (tx_of _ ?r) => apply tx_kept_quiet; intros s; unfold tx_of; by destruct r
      | |- tx_kept (tx_Set _ _) => apply tx_kept_quiet; intros s; unfold tx_Set, tx_write; by destruct (batch_Set _ _ _)
      | |- tx_kept (tx_Delete _) => apply tx_kept_quiet; intros s; unfold tx_Delete, tx_write; by destruct (batch_Delete _ _)
      | |- tx_kept (tx_DeleteRange _ _) =>
          apply tx_kept_quiet; intros s; unfold tx_DeleteRange, tx_write; by destruct (batch_DeleteRange _ _ _)
      | |- tx_kept (saveSessionSummary _ _) => unfold saveSessionSummary
      | |- tx_kept (incrementSummaryCount _) => apply tx_kept_quiet; intros s; unfold incrementSummaryCount; by destruct (_ =? _)
      | |- tx_kept (match ?x with _ => _ end) => destruct x
      end
    | apply tx_kept_quiet; intros ?; reflexivity ].

Lemma saveCandidate_kept session ns c : bytes_ok ns -> tx_kept (saveCandidate_body session ns c).
Proof.
  intros Hns. unfold saveCandidate_body, ensureSession, loadSessionSummary. tx_kept_auto;
    apply tx_kept_packs; intros w; [apply read_kept|by apply append_kept].
Qed.

Lemma touches_packs {A : Type} K wrap (m : Pk A) : touches K (tx_packs wrap m).
Proof. split; [intros s|intros s k _]; unfold tx_packs; by destruct (m s.2). Qed.
Lemma saveCandidate_touches session ns c : touches (session_key ns) (saveCandidate_body session ns c).
Proof.
  unfold saveCandidate_body. apply touches_bind; [apply touches_ensureSession|intros su].
  apply touches_bind; [apply touches_pure; intros s; unfold getBatchCopy; by destruct (batch_Get _ _)|intros stored].
  apply touches_bind.
  { destruct stored as [stored|]; [|by apply touches_pure].
    apply touches_bind; [apply touches_pure; intros s; unfold tx_of; by destruct (decodeCandidatePackPointer stored)|intros p].
    destruct (negb _); [by apply touches_pure|]. apply touches_bind; [apply touches_packs|intros [|[]]; by apply touches_pure]. }
  intros [|]; cbn [negb]; [|by apply touches_pure]. apply touches_bind; [apply touches_packs|intros p].
  apply touches_bind; [apply touches_Set, (session_key_app ns keyCandidateIndex); done|intros []].
  destruct stored; [by apply touches_pure|]. apply touches_bind; [|intros n; by apply touches_Set, session_key_nil].
  apply touches_pure. intros s. unfold incrementSummaryCount. by destruct (_ =? _).
Qed.

Lemma other_session_keeps session ns ns' (t : Tx W unit) :
  bytes_ok ns -> bytes_ok ns' -> length ns = length ns' -> ns <> ns' ->
  touches (session_key ns') t -> tx_kept t -> keeps_saved session ns t.
Proof.
  intros Hn Hn' Hl Hne [Hloc Ht] Hk. split; [done|]. intros m0 w0 s (Hd & Hm & Hw & Hi).
  specialize (Hk s ltac:(by rewrite Hw)). rewrite Hw in Hk.
  assert (forall k, session_key ns k -> view (t s).2.1 !! k = m0 !! k) as Hs.
  { intros k Hk'. rewrite Ht; [by rewrite Hm|]. intros Hk2. by eapply Hne, session_key_inj. }
  assert (forall k, candidateIndexPrefix ns `prefix_of` k -> view (t s).2.1 !! k = m0 !! k) as Hix.
  { intros k [r ->]. apply Hs. by apply (session_key_app ns keyCandidateIndex). }
  assert (keeping session ns m0 w0 (view (t s).2.1) (t s).2.2) as Hkeep.
  { rewrite Hm in Hd. assert (opened session ns m0 -> opened session ns (view (t s).2.1)) as Ho.
    { intros [H1 (su & H2 & H3)]. split; [rewrite Hs; [done|by apply session_key_nil]|].
      exists su. split; [rewrite Hs; [done|by apply session_key_nil]|done]. }
    constructor; [done| | |by apply bound_rows].
    - destruct Hd as [Hd Hx]. split; [|intros k v Hp; rewrite Hix by done; by apply Hx].
      destruct Hd as [?|Hd]; [by left; auto|right; rewrite Hs; [done|by apply session_key_nil]].
    - intros id h Hsv. eapply saved_rows; [apply Ho, Hsv|apply Hix, index_key_prefix|apply Hk|done]. }
  destruct (t s) as [[u|[e|e]] s']; [done|done|exact Hk].
Qed.
Lemma other_candidate_keeps session ns session' ns' c :
  bytes_ok ns -> bytes_ok ns' -> length ns = length ns' -> ns <> ns' -> keeps_saved session ns (saveCandidate_body session' ns' c).
Proof. intros. eapply other_session_keeps; [done..|apply saveCandidate_touches|by apply saveCandidate_kept]. Qed.

Lemma own_candidate_keeps session ns c :
  bytes_ok ns -> length (wireHash_of c) = 32%nat -> keeps_saved session ns (saveCandidate_body session ns c).
Proof.
  intros Hns Hl. split; [apply saveCandidate_touches|]. intros m0 w0.
  eapply tw_spec_mono; [exact (saveCandidate_keeps session ns c m0 w0 Hns Hl)|done| |done|done]. by intros a m w [Hk _].
Qed.

Lemma other_delete_keeps session ns session' ns' :
  bytes_ok ns -> bytes_ok ns' -> length ns = length ns' -> ns <> ns' ->
  keeps_saved session ns (deleteSession_body (tx_packs Fatal (closeNamespace ns')) session' ns').
Proof.
  intros. eapply other_session_keeps; [done..|apply deleteSession_touches, touches_packs|]. unfold deleteSession_body. tx_kept_auto.
  apply tx_kept_packs. intros w. apply closeNamespace_kept.
Qed.
End OtherSessions.

(** Saving a candidate leaves the journal of its session alone. *)
Lemma saveCandidate_respects `{TLLaws} `{PebbleLaws} session ns c :
  bytes_ok ns -> respects session ns (saveCandidate_body session ns c).
Proof.
  intros Hns. apply respects_open; [done|..].
  { intros su. apply tx_local_bind; [apply tx_local_get|intros stored]. apply tx_local_bind.
    - destruct stored; [|by intros s]. apply tx_local_bind; [apply tx_local_of|intros p]. destruct (negb _); [by intros s|].
      apply tx_local_bind; [apply (touches_packs (fun _ => True))|intros [|[]]; by intros s].
    - intros [|]; [|by intros s]. apply tx_local_bind; [apply (touches_packs (fun _ => True))|intros p].
      unfold saveSessionSummary. tx_local_auto. }
  intros R su. eapply tx_spec_bind; [by apply (tx_spec_get _ _ (fun _ m => open_ok session ns m R su))|]. intros stored.
  assert (forall A wrap (m : Pk A), tx_spec (fun m => open_ok session ns m R su) (tx_packs wrap m)
    (fun _ m => open_ok session ns m R su) (fun m => journal_ok session ns m R)) as Hpk.
  { intros A wrap m s Ho. unfold tx_packs. destruct (m s.2) as [[a|e] w]; [done|]. destruct (wrap e); [|done]. left. by exists su. }
  apply (tx_spec_bind _ _ _ (fun _ m => open_ok session ns m R su)).
  { destruct stored as [stored|]; [|by apply tx_spec_ret]. apply (tx_spec_bind _ _ _ (fun _ m => open_ok session ns m R su)).
    - intros s Ho. unfold tx_of. destruct (decodeCandidatePackPointer stored); [done|]. left. by exists su.
    - intros p. destruct (negb _); [apply tx_spec_reject; intros m Ho; left; by exists su|].
      eapply tx_spec_bind; [apply Hpk|]. intros [|[]]; first [by apply tx_spec_ret|apply tx_spec_reject; intros m Ho; left; by exists su]. }
  intros [|]; cbn [negb]; [|apply tx_spec_ret; intros m Ho; left; by exists su].
  eapply tx_spec_bind; [apply Hpk|]. intros p. apply (tx_spec_bind _ _ _ (fun _ m => open_ok session ns m R su)).
  { apply tx_spec_Set. intros m. apply open_ok_foreign, (foreign_namespaced ns Hns keyCandidateIndex); [done|set_solver]. }
  intros []. destruct stored; [apply tx_spec_ret; intros m Ho; left; by exists su|].
  apply (tx_spec_bind _ _ _ (fun n m => open_ok session ns m R su /\ is_u64 n)).
  { apply tx_spec_increment; [|intros m Ho; by apply oo_wf in Ho as []]. intros m Ho [? ?] ?. split; [done|unfold is_u64; lia]. }
  intros n. apply tx_spec_Set. intros m [Ho Hn]. left. eexists. eapply open_ok_summary; [done|exact Ho| |done].
  apply oo_wf in Ho as []. by constructor.
Qed.

(** ** The writer *)

Section Runs.
Context `{PebbleLaws} {D : Type} (session : SessionStorageID) (ns : bytes).
Notation W := candidatePackStore.
Hypothesis Hns : bytes_ok ns.
Implicit Types (rq : writeRequest W D) (st : Store W D).

(** [T d c]: the callback [d] belongs to [SaveCandidate] of [c]. *)
Context (T : D -> CandidateRecord -> Prop).

(** The digest given with a candidate, if any, is the digest of its wire. *)
Definition honest_hash (c : CandidateRecord) : Prop := sha256 (cr_Wire c) = wireHash_of c.

Definition acceptable rq : Prop :=
  keeps_saved session ns (rq_apply rq) /\
  forall c, T (rq_done rq) c -> rq_apply rq = saveCandidate_body session ns c /\ honest_hash c.
Definition is_saved (m : kv) (w : W) (d : D) : Prop := forall c, T d c -> saved session ns (cr_ID c) (wireHash_of c) m w.

Lemma honest_length c : honest_hash c -> length (wireHash_of c) = 32%nat.
Proof. intros <-. apply length_sha256. Qed.
Lemma keeping_refl m w : described session ns m -> pack_inv w -> keeping session ns m w m w.
Proof. intros Hd Hi. constructor; [split; [unfold packs_le; reflexivity|done]|done|done|reflexivity]. Qed.
Lemma keeping_trans m0 w0 m1 w1 m2 w2 :
  keeping session ns m0 w0 m1 w1 -> keeping session ns m1 w1 m2 w2 -> keeping session ns m0 w0 m2 w2.
Proof. intros [K1 _ S1 B1] [K2 D2 S2 B2]. constructor; [by eapply kept_trans|done|auto|by etrans]. Qed.
Lemma keeping_is_saved m0 w0 m w d : keeping session ns m0 w0 m w -> is_saved m0 w0 d -> is_saved m w d.
Proof. intros [_ _ Hs _] Hd c Hc. by apply Hs, Hd. Qed.

Lemma acceptable_apply rq s :
  acceptable rq -> described session ns (view s.1) -> pack_inv s.2 ->
  match rq_apply rq s with
  | (Ok _, s') => keeping session ns (view s.1) s.2 (view s'.1) s'.2 /\ is_saved (view s'.1) s'.2 (rq_done rq)
  | (Err (Rejected _), s') => keeping session ns (view s.1) s.2 (view s'.1) s'.2
  | (Err (Fatal _), s') => kept s.2 s'.2
  end.
Proof.
  intros [[_ Hk] HT] Hd Hi. specialize (Hk (view s.1) s.2 s (conj Hd (conj eq_refl (conj eq_refl Hi)))).
  destruct (rq_apply rq s) as [[u|[e|e]] s'] eqn:E; [|done..]. split; [done|]. intros c Hc. destruct (HT c Hc) as [Ea Hh].
  rewrite Ea in E. pose proof (saveCandidate_keeps session ns c (view s.1) s.2 Hns (honest_length c Hh) s (conj Hd (conj eq_refl (conj eq_refl Hi)))) as Hs.
  rewrite E in Hs. by apply Hs.
Qed.

(** [DeleteSession] of another session removes its packs, after the writer has
    closed them. *)
Definition removes_other (w w' : W) : Prop :=
  exists ns', bytes_ok ns' /\ ns' <> ns /\ pk_current w !! ns' = None /\ w' = (delete_packs ns' w).2.

Lemma delete_packs_files ns' w q :
  q.1 <> sessionDir ns' -> file_at (delete_packs ns' w).2 q = file_at w q.
Proof.
  intros Hq. unfold delete_packs, pk_sys, os_RemoveAll, mbind, est_bind.
  destruct (next_outcome_same (pk_files w)) as (o & f & -> & Hf). rewrite <- (same_lookup_path _ f q Hf).
  destruct o; cbn; unfold lookup_path; cbn; by (rewrite lookup_delete_ne || rewrite lookup_alter_ne).
Qed.
Lemma delete_packs_state ns' w : pk_current (delete_packs ns' w).2 = pk_current w /\ pk_maxSize (delete_packs ns' w).2 = pk_maxSize w.
Proof. unfold delete_packs, pk_sys. by destruct (os_RemoveAll _ _). Qed.

Lemma removes_other_saved w w' : removes_other w w' -> pack_inv w ->
  pack_inv w' /\ forall m id h, saved session ns id h m w -> saved session ns id h m w'.
Proof.
  intros (ns' & Hb & Hne & Hc & ->) [I1 I2]. destruct (delete_packs_state ns' w) as [Ec Em]. split.
  - constructor; rewrite ?Em, ?Ec; [done|]. intros ns2 pack Hp. destruct (I2 ns2 pack Hp) as (Hb2 & H2 & H3 & data & Hd & Hrest).
    do 3 (split; [done|]). exists data. split; [|done]. rewrite delete_packs_files; [done|]. cbn.
    intros ->%hex_bytes_inj; [congruence|done..].
  - intros m id h [Ho (p & Hp & Hwf & Hh & Hl & wire & data & [R1 R2 R3 R4 R5 R6 R7 R8])]. split; [done|]. exists p.
    do 4 (split; [done|]). exists wire, data. constructor; try done. rewrite delete_packs_files; [done|]. cbn.
    intros ->%hex_bytes_inj; done.
Qed.

(** The order of [StoreHistory.v] for candidates. *)
Definition holds (m : kv) (w : W) : Prop := described session ns m /\ pack_inv w.
Definition earlier (m m' : kv) : Prop := described session ns m /\ bound ns m m'.
Definition reported (d : D) (m : kv) (w : W) : Prop := is_saved m w d.

Lemma candidate_order : history_order removes_other holds (keeping session ns) kept earlier reported.
Proof.
  constructor.
  - intros m w [Hd Hi]. by apply keeping_refl.
  - apply keeping_trans.
  - intros m w m' w' [Hk Hd _ _]. split; [done|apply Hk].
  - intros m w m' w' d. apply keeping_is_saved.
  - by intros m w m' w' [].
  - intros w1 w2 w3. apply kept_trans.
  - intros m w w' [Hd Hi] Hk. constructor; [done|done| |reflexivity]. intros id h Hs. eapply saved_rows; [apply Hs|done|apply Hk|done].
  - intros m w [Hd _]. by split.
  - intros m w m' w' m0 [_ _ _ Hb] [Hd Hb']. split; [done|by etrans].
  - intros m w w' He [Hd Hi]. destruct (removes_other_saved _ _ He Hi) as [Hi' Hs]. split; [done|].
    intros d Hsv c Hc. by apply Hs, Hsv.
Qed.
Lemma acceptable_keeps rq : acceptable rq -> StoreHistory.keeps holds (keeping session ns) kept reported rq.
Proof. intros Ha. split; [apply Ha|]. intros s [Hd Hi]. exact (acceptable_apply rq s Ha Hd Hi). Qed.

(** What holds in a run: what has been reported saved is saved, and every state of
    the database binds the ids as the last one does. *)
Record serving (h : history W D) st : Prop := {
  sv_described : described session ns (contents (s_db st));
  sv_packs : pack_inv (s_w st);
  sv_ran : forall i d, (i, (d, None)) ∈ h_ran h -> is_saved (contents (s_db st)) (s_w st) d;
  sv_versions : forall m, m ∈ versions (s_db st) -> described session ns m /\ bound ns m (contents (s_db st)) }.

Lemma runs_serving db0 w0 h st :
  described session ns (contents db0) -> versions db0 = [contents db0] -> pack_inv w0 ->
  runs removes_other db0 w0 h st -> Forall acceptable (h_submitted h) -> serving h st.
Proof.
  intros Hd Hv Hi Hrun Hl.
  destruct (runs_kept _ _ _ _ _ _ candidate_order db0 w0 h st) as [[K1 K1'] _ _ K4 K5 _ _ _ _]; [done..| |by constructor].
  eapply Forall_impl; [exact Hl|]. apply acceptable_keeps.
Qed.

(** *** Reading a saved candidate *)

Definition with_outcomes (os : list outcome) (w : W) : W := w <| pk_files := mkFiles (fi_dirs (pk_files w)) os |>.

Lemma read_saved_row db k v :
  contents db !! k = Some v ->
  readerGetCopy db k = Ok (Some v) \/ readerGetCopy db k = Err ErrIO /\ db_Get db k = ReadFailed.
Proof.
  intros Hk. unfold readerGetCopy. pose proof (law_get db k (contents db) (contents_last db)) as Hr.
  destruct (db_Get db k); cbn in Hr; [left; by rewrite Hk in Hr; injection Hr as ->|congruence|by right].
Qed.

Lemma Candidate_saved db w id h os :
  wf_session session -> SessionStorageID_Validate session = true -> saved session ns id h (contents db) w ->
  match Candidate db (with_outcomes os w) session ns id with
  | Ok r => cr_ID r = id /\ cr_ContentHash r = h /\ sha256 (cr_Wire r) = h
  | Err e => e = ErrPack /\ os <> [] \/ e = ErrIO /\ exists k, db_Get db k = ReadFailed
  end.
Proof.
  intros Hwf Hv [[Hd (su & Hsu & Hwsu)] (p & Hp & Hwp & Hh & Hl & wire & data & Hr)]. unfold Candidate, validateStoredDescriptor.
  destruct (read_saved_row db _ _ Hd) as [->|[-> ?]]; cbn [and_then]; [|right; split; [done|by eexists]].
  rewrite decode_encode_sessionID by done. cbn [codec and_then]. rewrite bool_decide_true by done. cbn [negb].
  destruct (read_saved_row db _ _ Hsu) as [->|[-> ?]]; cbn [and_then]; [|right; split; [done|by eexists]].
  rewrite decode_encode_summary by done. cbn [codec and_then].
  destruct (read_saved_row db _ _ Hp) as [->|[-> ?]]; cbn [and_then]; [|right; split; [done|by eexists]].
  rewrite decode_wf_pointer by (done || by rewrite Hh). cbn [codec and_then].
  assert (readable (with_outcomes os w) ns p wire data) as Hr' by (destruct Hr; by constructor).
  pose proof (read_spec ns p (with_outcomes os w) (proj2 (proj2 Hwp)) _ (conj eq_refl (conj eq_refl eq_refl))) as Hread.
  pose proof (read_succeeds _ _ _ _ _ Hr') as Hok.
  destruct (read ns p (with_outcomes os w)) as [[wire'|e] w']; destruct Hread as [_ Hread]; cbn in *.
  - destruct Hread as [data' Hread]. split_and!; [done|done|]. rewrite <- Hh. by apply re_hash in Hread.
  - left. split; [apply Hread; by exists wire, data|]. intros ->. by specialize (Hok eq_refl).
Qed.

Lemma Candidate_authentic db w id r :
  Candidate db w session ns id = Ok r ->
  cr_ID r = id /\ exists v p, contents db !! candidateIndexKey ns id = Some v /\ decodeCandidatePackPointer v = Ok p /\
    pp_hash p = cr_ContentHash r /\ (is_u32 (pp_size p) -> sha256 (cr_Wire r) = cr_ContentHash r).
Proof.
  unfold Candidate. destruct (validateStoredDescriptor db session ns); [|done]. cbn [and_then]. unfold readerGetCopy.
  pose proof (law_get db (candidateIndexKey ns id) (contents db) (contents_last db)) as Hr.
  destruct (db_Get db (candidateIndexKey ns id)) as [v| |]; cbn in Hr |- *; [|done..].
  destruct (decodeCandidatePackPointer v) as [p|] eqn:Ep; cbn; [|done].
  pose proof (fun Hs => read_spec ns p w Hs w (conj eq_refl (conj eq_refl eq_refl))) as Hread.
  destruct (read ns p w) as [[wire|e] w']; cbn; [|done]. intros [= <-]. split; [done|]. exists v, p. split_and!; [done..|].
  intros Hs. destruct (Hread Hs) as [_ [data Hd]]. cbn. by apply re_hash in Hd.
Qed.

(** C12: a candidate whose save was reported successful is served.  The requests are
    saves of candidates, of any session, and others that keep the index and the
    packs; the packs of other sessions may be removed meanwhile; system calls and
    batches may fail at any point.  Once the callback of [SaveCandidate] has
    reported success, [Candidate] returns the id with the hash and a wire of that
    hash, unless one of its own reads fails. *)
Theorem saved_candidates_are_served db0 w0 h st i d c os :
  wf_session session -> SessionStorageID_Validate session = true ->
  described session ns (contents db0) -> versions db0 = [contents db0] -> pack_inv w0 ->
  runs removes_other db0 w0 h st -> Forall acceptable (h_submitted h) ->
  (i, (d, None)) ∈ h_ran h -> T d c ->
  match Candidate (s_db st) (with_outcomes os (s_w st)) session ns (cr_ID c) with
  | Ok r => cr_ID r = cr_ID c /\ cr_ContentHash r = wireHash_of c /\ sha256 (cr_Wire r) = wireHash_of c
  | Err e => e = ErrPack /\ os <> [] \/ e = ErrIO /\ exists k, db_Get (s_db st) k = ReadFailed
  end.
Proof.
  intros Hwf Hv Hd Hvs Hi Hrun Hacc Hran HT. apply Candidate_saved; [done..|].
  by eapply (sv_ran _ _ (runs_serving _ _ _ _ Hd Hvs Hi Hrun Hacc)).
Qed.

(** C13: what a crash can do to candidates.  Pack files and their pointers are
    written without a sync, so after a crash the files may be in any state [w'] and
    the database in any of its states.  What [Candidate] then returns has the hash
    of its pointer; if the candidate's save had been reported, it has the hash
    saved; and the database is again one the first theorem starts from. *)
Theorem candidates_after_crash db0 w0 h st db' :
  described session ns (contents db0) -> versions db0 = [contents db0] -> pack_inv w0 ->
  runs removes_other db0 w0 h st -> Forall acceptable (h_submitted h) -> db_Reopen (s_db st) db' ->
  described session ns (contents db') /\ versions db' = [contents db'] /\
  forall w' id r, Candidate db' w' session ns id = Ok r ->
    cr_ID r = id /\ sha256 (cr_Wire r) = cr_ContentHash r /\
    forall i d c, (i, (d, None)) ∈ h_ran h -> T d c -> cr_ID c = id -> cr_ContentHash r = wireHash_of c.
Proof.
  intros Hd Hvs Hi Hrun Hacc Hre. pose proof (runs_serving _ _ _ _ Hd Hvs Hi Hrun Hacc) as Hsv.
  apply law_reopen in Hre as (n & m & _ & Hm & Ev). assert (contents db' = m) as Ec by (apply contents_unique; by rewrite Ev).
  destruct (sv_versions _ _ Hsv m) as [Hdm Hb]; [by eapply list_elem_of_lookup_2|]. rewrite Ec. split_and!; [done..|].
  intros w' id r Hr. apply Candidate_authentic in Hr as (Hid & v & p & Hv & Hp & Hh & Hsha). rewrite Ec in Hv.
  pose proof (proj2 Hdm _ v (index_key_prefix ns id) Hv) as (p' & -> & Hwf & Hl).
  rewrite decode_wf_pointer in Hp by done. injection Hp as ->. split_and!; [done|apply Hsha, Hwf|].
  intros i d c Hran HT <-. destruct (sv_ran _ _ Hsv i d Hran c HT) as [_ (q & Hq & Hwq & Hhq & Hlq & _)].
  destruct (Hb _ _ _ (index_key_prefix ns (cr_ID c)) Hv (decode_wf_pointer p Hwf Hl)) as (v2 & p2 & Hv2 & Hp2 & Eh).
  rewrite Hq in Hv2. injection Hv2 as <-. rewrite decode_wf_pointer in Hp2 by (done || by rewrite Hhq). congruence.
Qed.
End Runs.

(** ** A run *)

(** Two saves of one candidate: the system fails the first, which leaves half a
    record in the pack; the second succeeds in a new segment. *)
Module ExampleCandidate.
Import MemPebble.

Definition session : SessionStorageID := mkSessionStorageID (replicate 32 9) (mkShardID 0 (-(2 ^ 63))) 0 true (replicate 32 5) (replicate 32 6) 1
  (mkSessionProtocol 0 0 0 false 4).
Definition ns : bytes := replicate 48 3.
Definition candidate : CandidateRecord := mkCandidateRecord (mkCandidateID 7 (replicate 32 8)) [1; 2; 3] zero_hash.
Definition disk : DB := mkMem [] [] 0.
Definition packs : candidatePackStore := newCandidatePackStore (mkFiles ∅ [Done; Done; Done; Done; Done; Failed 2]).
Definition request (d : nat) : writeRequest candidatePackStore nat :=
  mkRequest (saveCandidate_body session ns candidate) d 49 restartRecoverable.
Definition T (d : nat) (c : CandidateRecord) : Prop := d = 1%nat /\ c = candidate.

Definition queued0 : Store candidatePackStore nat := (submit (request 0) (openStore disk packs)).2.
Definition queued : Store candidatePackStore nat := (submit (request 1) queued0).2.
Definition written : option (Store candidatePackStore nat) := writer_round 5 queued ≫= wait_log 0.
Definition called : option (list (nat * option store_error) * Store candidatePackStore nat) :=
  st ← written; '(d0, st) ← run_callback 0 st; '(d1, st) ← run_callback 0 st; Some ([d0; d1], st).

Lemma called_results : match called with Some (l, st) => (l, mem_stable (s_db st)) | None => ([], 0%nat) end =
  ([(0%nat, Some ErrPack); (1%nat, None)], 0%nat).
Proof. vm_compute. reflexivity. Qed.
Lemma take_two : take_batch 5 queued = Some ([request 0; request 1], None, []).
Proof. reflexivity. Qed.

Lemma called_runs : exists h st, runs (removes_other ns) disk packs h st /\ h_submitted h = [request 0; request 1] /\
  (0%nat, (1%nat, None)) ∈ h_ran h /\ mem_stable (s_db st) = 0%nat.
Proof.
  pose proof called_results as Hr. unfold called, written in Hr.
  destruct (writer_round 5 queued) as [st1|] eqn:E1; [|discriminate Hr]. cbn [mbind option_bind] in Hr.
  destruct (wait_log 0 st1) as [st2|] eqn:E2; [|discriminate Hr]. cbn [mbind option_bind] in Hr.
  destruct (run_callback 0 st2) as [[d0 st3]|] eqn:E3; [|discriminate Hr]. cbn [mbind option_bind] in Hr.
  destruct (run_callback 0 st3) as [[d1 st4]|] eqn:E4; [|discriminate Hr]. cbn [mbind option_bind] in Hr. injection Hr as -> -> Hst.
  eexists _, st4. split.
  - eapply run_done; [|exact E4]. eapply run_done; [|exact E3]. eapply run_wait; [|exact E2].
    eapply run_round; [|exact take_two|exact E1].
    eapply (run_submit _ _ _ _ queued0 (request 1)); [|reflexivity].
    eapply (run_submit _ _ _ _ _ (request 0)); [apply run_open|reflexivity].
  - split; [reflexivity|]. split; [apply elem_of_app; right; left|exact Hst].
Qed.

Lemma ns_ok : bytes_ok ns.
Proof. unfold ns, bytes_ok. apply Forall_replicate. unfold is_byte. lia. Qed.
Lemma session_wf : wf_session session.
Proof. constructor; try reflexivity; unfold is_u32, wf_shard, is_i32, is_i64; cbn; lia. Qed.
Lemma disk_described : described session ns (contents disk).
Proof. split; [right; reflexivity|]. intros k v _ Hv. discriminate Hv. Qed.
Lemma packs_ok : pack_inv packs.
Proof. constructor; [split; reflexivity || discriminate|]. intros n pack Hp. discriminate Hp. Qed.
Lemma requests_ok d : acceptable session ns T (request d).
Proof.
  split; [apply own_candidate_keeps; [exact ns_ok|apply length_sha256]|]. intros c [_ ->]. split; reflexivity.
Qed.

Lemma requests_acceptable (h : history candidatePackStore nat) : h_submitted h = [request 0; request 1] ->
  Forall (acceptable session ns T) (h_submitted h).
Proof. intros ->. exact (Forall_cons_2 _ _ _ (requests_ok 0) (Forall_cons_2 _ _ _ (requests_ok 1) (Forall_nil_2 _))). Qed.

Lemma saved_candidates_are_served_witness :
  exists st : Store candidatePackStore nat,
    match Candidate (s_db st) (with_outcomes [] (s_w st)) session ns (cr_ID candidate) with
    | Ok r => sha256 (cr_Wire r) = wireHash_of candidate
    | Err e => e = ErrIO
    end.
Proof.
  destruct called_runs as (h & st & Hrun & Hsub & Hran & _). exists st.
  pose proof (saved_candidates_are_served session ns ns_ok T disk packs h st 0 1%nat candidate [] session_wf eq_refl
    disk_described eq_refl packs_ok Hrun (requests_acceptable h Hsub) Hran (conj eq_refl eq_refl)) as Hs.
  destruct (Candidate _ _ _ _ _); [apply Hs|]. destruct Hs as [[_ []]|[E _]]; [reflexivity|exact E].
Defined.

Lemma candidates_after_crash_witness : exists (st : Store candidatePackStore nat) db',
  db_Reopen (s_db st) db' /\ forall w' r, Candidate db' w' session ns (cr_ID candidate) = Ok r -> cr_ContentHash r = wireHash_of candidate.
Proof.
  destruct called_runs as (h & st & Hrun & Hsub & Hran & Hst). exists st, (mkMem [] (mem_last (s_db st)) 0).
  assert (db_Reopen (s_db st) (mkMem [] (mem_last (s_db st)) 0)) as Hre.
  { exists (length (mem_versions (s_db st))), (mem_last (s_db st)). rewrite Hst. split; [lia|]. split; [|reflexivity].
    rewrite lookup_app_r by reflexivity. by rewrite Nat.sub_diag. }
  split; [exact Hre|]. intros w' r Hr.
  destruct (candidates_after_crash session ns ns_ok T disk packs h st _ disk_described eq_refl packs_ok Hrun
    (requests_acceptable h Hsub) Hre) as (_ & _ & H). destruct (H w' _ r Hr) as (_ & _ & Hc).
  exact (Hc 0%nat 1%nat candidate Hran (conj eq_refl eq_refl) eq_refl).
Defined.
End ExampleCandidate.
