(* ===== verification/StoreDelegation.v ===== *)
(** * Delegation authorizations

    A leader authorizes at most one collator for a window, also across crashes.
    Proofs about [saveDelegation_body] of [StoreSession.v], the request of
    [SaveDelegationAuthorization] ([src/service/validator/pebblestore/session.go]):
    it asks for durability, so its callback runs after the log is synced. *)

From S2P Require Import Prelude.
From S2P Require Import SimplexTypes.
From S2P Require Import SimplexWire.
From S2P Require Import StoreKeys.
From S2P Require Import StoreCodec.
From S2P Require Import Pebble.
From S2P Require Import Files.
From S2P Require Import StoreWriter.
From S2P Require Import StoreHistory.
From S2P Require Import StoreSession.
From S2P Require Import StoreJournal.
From S2P Require Import StoreRecovery.
From S2P Require Import StorePack.
From S2P Require Import StoreCandidate.

#[local] Open Scope Z_scope.

(** [SaveDelegationAuthorization]: what it reports at once, [None] when the request
    was queued.  [ctxErr] is the context on entry, [ctxErr'] and [sent] as in
    [submitContext]. *)
Definition SaveDelegationAuthorization `{Pebble} `{TLDbId} {W} (ctxErr ctxErr' sent : bool) (session : SessionStorageID)
    (authorization : DelegationAuthorization) (client : nat) (s : ValidatorStore W) : option store_error * ValidatorStore W :=
  if ctxErr then (Some ErrContext, s)
  else
    match namespaceForSession session with
    | None => (Some ErrCorrupt, s)
    | Some ns =>
        match encodeDelegationAuthorization authorization with
        | Err e => (Some (ErrRecord e), s)
        | Ok value =>
            match submitSessionContext ctxErr' sent ns
              (mkRequest (saveDelegation_body session ns authorization value) (DoneOther client) (Z.of_nat (length value)) durableCommitment) s with
            | (Ok _, s) => (None, s)
            | (Err e, s) => (Some e, s)
            end
        end
    end.

Section Delegations.
Context `{TLRuntime} `{PebbleLaws} {D : Type} (env : candidatePackStore -> candidatePackStore -> Prop).
Context (session : SessionStorageID) (ns : bytes).
Notation W := candidatePackStore.
Implicit Types (rq : writeRequest W D) (st : Store W D).

(** The authorization stored for the window that begins at [start]. *)
Definition authorized (m : kv) (start : Z) (a : DelegationAuthorization) : Prop :=
  exists v, m !! delegationAuthorizationKey ns start = Some v /\ decodeDelegationAuthorization v = Ok a.
Definition off_delegations (k : bytes) : Prop := forall start, k <> delegationAuthorizationKey ns start.

(** Rows of authorizations are never changed. *)
Definition rows_kept (m m' : kv) : Prop :=
  forall start v, m !! delegationAuthorizationKey ns start = Some v -> m' !! delegationAuthorizationKey ns start = Some v.
#[local] Instance rows_kept_preorder : PreOrder rows_kept.
Proof. split; [by intros m start v|]. intros a b c H1' H2' start v Hv. by apply H2', H1'. Qed.
Lemma authorized_kept m m' start a : rows_kept m m' -> authorized m start a -> authorized m' start a.
Proof. intros Hk (v & Hv & Ha). exists v. auto. Qed.
Lemma authorized_inj m start a a' : authorized m start a -> authorized m start a' -> a = a'.
Proof. intros (v & H1' & H2') (v' & H3' & H4'). congruence. Qed.

Lemma off_set key value : off_delegations key -> touches (W := W) off_delegations (tx_Set key value).
Proof. apply touches_Set. Qed.
Ltac off_auto :=
  repeat first
    [ apply touches_bind; [|intros]
    | apply off_set; intros ?; discriminate
    | apply touches_packs
    | match goal with
      | |- touches _ (getBatchCopy _) => apply touches_pure; intros s; unfold getBatchCopy; by destruct (batch_Get _ _)
      | |- touches _ (tx_of _ ?r) => apply touches_pure; intros s; unfold tx_of; by destruct r
      | |- touches _ (incrementSummaryCount _) => apply touches_pure; intros s; unfold incrementSummaryCount; by destruct (_ =? _)
      | |- touches _ (match ?x with _ => _ end) => destruct x
      end
    | apply touches_pure; intros ?; reflexivity ].

Lemma ensureSession_off : touches (W := W) off_delegations (ensureSession session ns).
Proof. unfold ensureSession, saveSessionSummary, loadSessionSummary. off_auto. Qed.

(** The other requests of the session. *)
Lemma saveCandidate_off c : touches off_delegations (saveCandidate_body session ns c).
Proof. unfold saveCandidate_body, saveSessionSummary. apply touches_bind; [apply ensureSession_off|intros]. off_auto. Qed.
Lemma session_request_off t :
  session_request session ns t -> touches off_delegations t \/ exists a value, t = saveDelegation_body session ns a value.
Proof.
  destruct 1; [left..|right; by eexists _, _];
    unfold initialize_body, saveOurVote_body, saveCertificate_body, saveWindow_body, markFinalized_body, recordLeaderWindow_body, saveSessionSummary;
    (apply touches_bind; [apply ensureSession_off|intros]); off_auto.
Qed.

(** *** The request *)

Lemma saveDelegation_local a value : tx_local (W := W) (saveDelegation_body session ns a value).
Proof. unfold saveDelegation_body. apply tx_local_bind; [apply tx_local_ensureSession|intros]. tx_local_auto. Qed.

Lemma touches_kept {A : Type} (t : Tx W A) s : touches off_delegations t -> rows_kept (view s.1) (view (t s).2.1).
Proof. intros [_ Ht] start v Hv. rewrite Ht; [done|]. intros Ho. by apply (Ho start). Qed.

Lemma saveDelegation_spec a value (s : Batch * W) :
  decodeDelegationAuthorization value = Ok a ->
  match saveDelegation_body session ns a value s with
  | (Ok _, s') => rows_kept (view s.1) (view s'.1) /\ authorized (view s'.1) (da_StartSlot a) a
  | (Err _, s') => rows_kept (view s.1) (view s'.1)
  end.
Proof.
  intros Hd. unfold saveDelegation_body, mbind, tx_bind. pose proof (touches_kept _ s ensureSession_off) as Hk.
  destruct (ensureSession session ns s) as [[su|e] s1]; [|done]. unfold getBatchCopy.
  pose proof (law_batch_get s1.1 (delegationAuthorizationKey ns (da_StartSlot a))) as Hg. cbn [snd] in Hk.
  destruct (batch_Get s1.1 _) as [stored| |]; cbn in Hg; [| |done].
  - case_bool_decide as Es; [subst stored; split; [done|by exists value]|]. unfold tx_of, mbind, tx_bind.
    destruct (decodeDelegationAuthorization stored); [|done]. by destruct (negb _).
  - unfold tx_Set, tx_write. destruct (batch_Set s1.1 _ value) as [b|] eqn:Eb; [|done]. apply law_set in Eb as [_ Eb]. cbn [fst].
    rewrite Eb. split; [|exists value; by rewrite lookup_insert_eq].
    etrans; [exact Hk|]. intros start v Hv. destruct (decide (delegationAuthorizationKey ns (da_StartSlot a) = delegationAuthorizationKey ns start)) as [E|Hne].
    + rewrite <- E in Hv. exfalso. clear -Hg Hv. change (view s1.1 !! delegationAuthorizationKey ns (da_StartSlot a) = None) in Hg. congruence.
    + by rewrite lookup_insert_ne.
Qed.

(** ** Runs *)

(** [T d]: the authorization whose save the callback [d] reports. *)
Context (T : D -> option DelegationAuthorization).

(** Durable saves of authorizations, and requests that write none. *)
Definition authorizing rq : Prop :=
  match T (rq_done rq) with
  | Some a => exists value, encodeDelegationAuthorization a = Ok value /\ decodeDelegationAuthorization value = Ok a /\
      rq_apply rq = saveDelegation_body session ns a value /\ rq_durability rq = durableCommitment
  | None => touches off_delegations (rq_apply rq)
  end.

Definition granted (d : D) (m : kv) (_ : W) : Prop := forall a, T d = Some a -> authorized m (da_StartSlot a) a.
Definition later (m0 m : kv) (_ : W) : Prop := rows_kept m0 m.
Definition moves (m0 m : kv) (_ : W) (m' : kv) (w' : W) : Prop := rows_kept m m' /\ later m0 m' w'.
Definition anyW (_ _ : W) : Prop := True.

Lemma delegation_order m0 : history_order env (later m0) (moves m0) anyW rows_kept granted.
Proof.
  constructor; try done.
  - intros m1 w1 m2 w2 m3 w3 [K1 _] [K2 L2]. split; [by etrans|done].
  - by intros m w m' w' [_ ?].
  - intros m w m' w' d [Hk _] Hg a Ha. by eapply authorized_kept, Hg.
  - intros m w m' w' m1 [Hk _] ?. by etrans.
Qed.

Lemma authorizing_keeps rq m0 : authorizing rq -> keeps (later m0) (moves m0) anyW granted rq.
Proof.
  unfold authorizing. destruct (T (rq_done rq)) as [a|] eqn:ET.
  - intros (value & _ & Hd & Ea & _). split; [intros s; rewrite Ea; apply saveDelegation_local|].
    intros s Hl. rewrite Ea. pose proof (saveDelegation_spec a value s Hd) as Hs. unfold moves, later, granted in *.
    destruct (saveDelegation_body session ns a value s) as [[u|[e|e]] s']; [| |done].
    + destruct Hs as [Hk Ha]. split; [split; [done|by etrans]|]. intros a' E. rewrite ET in E. by injection E as <-.
    + split; [done|by etrans].
  - intros Ht. split; [apply Ht|]. intros s Hl. pose proof (touches_kept _ s Ht) as Hk. unfold moves, later, granted in *.
    destruct (rq_apply rq s) as [[u|[e|e]] s']; [|split; [done|by etrans]|done].
    split; [split; [done|by etrans]|]. intros a' E. congruence.
Qed.

End Delegations.

(** ** An example *)

Module ExampleDelegation.
Import MemPebble.

Definition session : SessionStorageID := mkSessionStorageID (replicate 32 9) (mkShardID 0 (-(2 ^ 63))) 0 true (replicate 32 5) (replicate 32 6) 1
  (mkSessionProtocol 0 0 0 false 4).
Definition ns : bytes := replicate 48 3.
Definition authorization (c : Z) : DelegationAuthorization := mkDelegationAuthorization 8 (replicate 32 c) (replicate 64 1).
Definition disk : DB := mkMem [] [] 0.
Definition packs : candidatePackStore := newCandidatePackStore (mkFiles ∅ []).
Definition T (d : nat) : option DelegationAuthorization :=
  match d with 0%nat => Some (authorization 1) | 1%nat => Some (authorization 2) | _ => None end.
Definition value (d : nat) : bytes :=
  match encodeDelegationAuthorization (authorization (Z.of_nat (S d))) with Ok v => v | Err _ => [] end.
Definition request (d : nat) : writeRequest candidatePackStore nat :=
  mkRequest (saveDelegation_body session ns (authorization (Z.of_nat (S d))) (value d)) d 101 durableCommitment.
Definition queued0 : Store candidatePackStore nat := (submit (request 0) (openStore disk packs)).2.
Definition queued1 : Store candidatePackStore nat := (submit (request 1) queued0).2.
Definition finished : option (list (nat * option store_error) * Store candidatePackStore nat) :=
  st ← writer_round 5 queued1; st ← wait_log 0 st; '(d0, st) ← run_callback 0 st; '(d1, st) ← run_callback 0 st; Some ([d0; d1], st).

Lemma finished_delegations :
  option_map fst finished = Some [(0%nat, None); (1%nat, Some ErrDelegationConflict)].
Proof. vm_compute. reflexivity. Qed.
Lemma take_delegations : take_batch 5 queued1 = Some ([request 0; request 1], None, []).
Proof. reflexivity. Qed.
Lemma delegation_runs : exists h st, runs no_env disk packs h st /\ h_submitted h = [request 0; request 1] /\
  (0%nat, (0%nat, None)) ∈ h_ran h.
Proof.
  pose proof finished_delegations as Hr. unfold finished in Hr.
  destruct (writer_round 5 queued1) as [st1|] eqn:E1; [|discriminate Hr]. cbn [mbind option_bind] in Hr.
  destruct (wait_log 0 st1) as [st2|] eqn:E2; [|discriminate Hr]. cbn [mbind option_bind] in Hr.
  destruct (run_callback 0 st2) as [[d0 st3]|] eqn:E3; [|discriminate Hr]. cbn [mbind option_bind] in Hr.
  destruct (run_callback 0 st3) as [[d1 st4]|] eqn:E4; [|discriminate Hr]. cbn [mbind option_bind option_map fst] in Hr.
  injection Hr as -> ->. eexists _, st4. split.
  - eapply run_done; [|exact E4]. eapply run_done; [|exact E3]. eapply run_wait; [|exact E2].
    eapply run_round; [|exact take_delegations|exact E1].
    eapply (run_submit _ _ _ _ queued0 (request 1)); [|reflexivity].
    eapply (run_submit _ _ _ _ _ (request 0)); [apply run_open|reflexivity].
  - split; [reflexivity|]. cbn [h_ran app]. left.
Qed.
Lemma delegations_authorizing (h : history candidatePackStore nat) : h_submitted h = [request 0; request 1] ->
  Forall (authorizing session ns T) (h_submitted h).
Proof.
  intros ->. repeat constructor; unfold authorizing; cbn [T rq_done request].
  - exists (value 0). repeat split; vm_compute; reflexivity.
  - exists (value 1). repeat split; vm_compute; reflexivity.
Qed.

End ExampleDelegation.
