(* ===== verification/CollatorMarkers.v ===== *)
(** * What the collator store promises

    Proofs about [CollatorStore.v].  While a session is not deleted, its record
    only advances and its markers stay; two markers of one slot are the same
    marker, whatever windows they were requested for, and the markers of a window
    share one authority.  All of it holds for the database shared with the
    consensus records and with other sessions of the collator. *)

From S2P Require Import Prelude.
From S2P Require Import SimplexTypes.
From S2P Require Import SimplexWire.
From S2P Require Import SimplexCert.
From S2P Require Import SimplexCandidate.
From S2P Require Import StoreKeys.
From S2P Require Import StoreCodec.
From S2P Require Import CollatorCodec.
From S2P Require Import Pebble.
From S2P Require Import StoreWriter.
From S2P Require Import StoreHistory.
From S2P Require Import StoreSession.
From S2P Require Import StoreRecovery.
From S2P Require Import CollatorStore.

#[local] Open Scope Z_scope.

(** ** Keys *)

Definition session_id (sid : bytes) : Prop := length sid = 32%nat /\ bytes_ok sid.
Definition marker_key (sid : bytes) (start slot : Z) : bytes := collatorCandidateKey (mkWindowID sid start) slot.

Lemma bytes_ok_app a b : bytes_ok a -> bytes_ok b -> bytes_ok (a ++ b).
Proof. intros. by apply Forall_app. Qed.
Lemma bytes_ok_session sid : session_id sid -> bytes_ok (collatorSessionKey sid).
Proof. intros [_ Hb]. apply bytes_ok_app; [|done]. by repeat constructor. Qed.
Lemma bytes_ok_marker sid start slot : session_id sid -> bytes_ok (marker_key sid start slot).
Proof.
  intros [_ Hb]. repeat apply bytes_ok_app; try apply be_put_bytes; [|done]. by repeat constructor.
Qed.
Lemma marker_key_inj sid sid' start slot start' slot' :
  session_id sid -> session_id sid' -> is_u32 start -> is_u32 slot -> is_u32 start' -> is_u32 slot' ->
  marker_key sid start slot = marker_key sid' start' slot' -> sid = sid' /\ start = start' /\ slot = slot'.
Proof.
  intros [Hl _] [Hl' _] H1 H2 H3 H4 E. unfold marker_key, collatorCandidateKey, collatorCandidatePrefix in E. simpl in E.
  injection E as E. rewrite <- !app_assoc in E. apply app_inj_1 in E as [-> E]; [|by rewrite Hl, Hl'].
  apply app_inj_1 in E as [E1 E2]; [|by rewrite !length_be_put].
  apply (f_equal be_get) in E1, E2. by rewrite !be_put4_get in E1, E2.
Qed.
Lemma session_marker_key sid sid' start slot : collatorSessionKey sid <> marker_key sid' start slot.
Proof. done. Qed.
Lemma session_key_differs sid sid' : sid <> sid' -> collatorSessionKey sid <> collatorSessionKey sid'.
Proof. intros Hne E. by injection E. Qed.

(** The keys the collator uses for a session. *)
Definition collator_key (sid k : bytes) : Prop :=
  k = collatorSessionKey sid \/ exists start slot, is_u32 start /\ is_u32 slot /\ k = marker_key sid start slot.
Lemma collator_key_ok sid k : session_id sid -> collator_key sid k -> bytes_ok k.
Proof. intros Hs [->|(start & slot & _ & _ & ->)]; [by apply bytes_ok_session|by apply bytes_ok_marker]. Qed.

(** Consensus records are elsewhere. *)
Lemma consensus_keys sid ns k : session_id sid -> bytes_ok ns -> collator_key sid k -> ~ session_key ns k.
Proof.
  intros Hs Hns Hk (kind & Hkind & Hb). apply in_bounds_prefix in Hb as [r E].
  - destruct Hk as [->|(start & slot & _ & _ & ->)]; injection E as E _; unfold consensus_kind, keyValidatorKey, collatorKeyspace in *; lia.
  - constructor; [by apply consensus_kind_byte|done].
  - by eapply collator_key_ok.
Qed.

(** ** Sessions and markers of a database *)

Section States.
Context (sid : bytes) (Hsid : session_id sid).

Definition session_at (m : kv) (r : SessionRecord) : Prop :=
  exists v, m !! collatorSessionKey sid = Some v /\ decodeCollatorSessionRecord v = Ok r.
Definition marker_at (m : kv) (start slot : Z) (c : CandidateRecord) : Prop :=
  is_u32 start /\ is_u32 slot /\ exists v, m !! marker_key sid start slot = Some v /\ decodeCollatorCandidateRecord v = Ok c.

(** [slot] lies in the aligned window that begins at [start]. *)
Definition in_window (s : Session) (start slot : Z) : Prop :=
  start mod cs_SlotsPerLeaderWindow s = 0 /\ start <= slot < start + cs_SlotsPerLeaderWindow s.
Definition same_authority (c c' : CandidateRecord) : Prop :=
  cm_Authority c = cm_Authority c' /\ cm_Leader c = cm_Leader c' /\
  (cm_Authority c = CandidateAuthorityDelegated ->
    cm_DelegationKey c = cm_DelegationKey c' /\ cm_DelegationSignature c = cm_DelegationSignature c').

Record markers_ok (m : kv) : Prop := {
  mo_session : forall v, m !! collatorSessionKey sid = Some v ->
    exists r, decodeCollatorSessionRecord v = Ok r /\ cs_ID (sr_Session r) = sid;
  mo_marker : forall start slot v, is_u32 start -> is_u32 slot -> m !! marker_key sid start slot = Some v ->
    exists c r, decodeCollatorCandidateRecord v = Ok c /\ cm_WindowID c = mkWindowID sid start /\ cid_Slot (cm_ID c) = slot /\
      session_at m r /\ in_window (sr_Session r) start slot;
  mo_authority : forall start slot slot' c c', marker_at m start slot c -> marker_at m start slot' c' -> same_authority c c' }.

(** A later record of the same session. *)
Definition follows (r r' : SessionRecord) : Prop :=
  sr_Session r = sr_Session r' /\ (forall a, sr_Activation r = Some a -> sr_Activation r' = Some a) /\
  advances (sr_Update r) (sr_Update r').
#[export] Instance follows_preorder : PreOrder follows.
Proof.
  split; [by intros r|]. intros a b c (E1 & A1 & U1) (E2 & A2 & U2). split; [congruence|]. split; [auto|by etrans].
Qed.

(** What may happen between two states of the database. *)
Definition progress (m m' : kv) : Prop :=
  (forall start slot c, marker_at m start slot c -> marker_at m' start slot c) /\
  (forall r, session_at m r -> exists r', session_at m' r' /\ follows r r').
#[export] Instance progress_preorder : PreOrder progress.
Proof.
  split; [intros m; split; [done|]; intros r Hr; by exists r|]. intros a b c [M1 S1] [M2 S2]. split; [auto|].
  intros r Hr. destruct (S1 r Hr) as (r1 & H1 & F1), (S2 r1 H1) as (r2 & H2 & F2). exists r2. split; [done|by etrans].
Qed.

Lemma session_at_inj m r r' : session_at m r -> session_at m r' -> r = r'.
Proof. intros (v & H1 & H2) (v' & H3 & H4). congruence. Qed.
Lemma marker_at_inj m start slot c c' : marker_at m start slot c -> marker_at m start slot c' -> c = c'.
Proof. intros (_ & _ & v & H1 & H2) (_ & _ & v' & H3 & H4). congruence. Qed.

Lemma window_unique s start start' slot : in_window s start slot -> in_window s start' slot -> start = start'.
Proof.
  intros [M1 R1] [M2 R2]. apply Z.div_exact in M1, M2; [|lia..].
  assert (start / cs_SlotsPerLeaderWindow s = slot / cs_SlotsPerLeaderWindow s) as E1
    by (apply (Z.div_unique _ _ _ (slot - start)); lia).
  assert (start' / cs_SlotsPerLeaderWindow s = slot / cs_SlotsPerLeaderWindow s) as E2
    by (apply (Z.div_unique _ _ _ (slot - start')); lia).
  congruence.
Qed.

(** One marker per slot. *)
Lemma slot_unique m start start' slot c c' :
  markers_ok m -> marker_at m start slot c -> marker_at m start' slot c' -> start = start' /\ c = c'.
Proof.
  intros Hok (U1 & U2 & v & Hv & Hc) (U1' & U2' & v' & Hv' & Hc').
  destruct (mo_marker _ Hok _ _ _ U1 U2 Hv) as (c1 & r & E & _ & _ & Hr & Hw).
  destruct (mo_marker _ Hok _ _ _ U1' U2' Hv') as (c2 & r' & E' & _ & _ & Hr' & Hw').
  rewrite (session_at_inj _ _ _ Hr' Hr) in Hw'. pose proof (window_unique _ _ _ _ Hw Hw') as <-. split; [done|congruence].
Qed.

Lemma markers_ok_agree m m' : (forall k, collator_key sid k -> m' !! k = m !! k) -> markers_ok m -> markers_ok m' /\ progress m m'.
Proof.
  intros Ha [O1 O2 O3].
  assert (m' !! collatorSessionKey sid = m !! collatorSessionKey sid) as Es by (apply Ha; by left).
  assert (forall start slot, is_u32 start -> is_u32 slot -> m' !! marker_key sid start slot = m !! marker_key sid start slot) as Em
    by (intros start slot H1 H2; apply Ha; right; by exists start, slot).
  assert (forall r, session_at m' r <-> session_at m r) as Hs by (intros r; unfold session_at; by rewrite Es).
  assert (forall start slot c, marker_at m' start slot c <-> marker_at m start slot c) as Hm.
  { intros start slot c. unfold marker_at. split; intros (H1 & H2 & v & H3 & H4); (split; [done|split; [done|exists v]]);
      by rewrite Em in *. }
  split; [constructor|split].
  - by rewrite Es.
  - intros start slot v H1 H2. rewrite Em by done. intros Hv. destruct (O2 _ _ _ H1 H2 Hv) as (c & r & H). exists c, r. by rewrite Hs.
  - intros start slot slot' c c' H1%Hm H2%Hm. by eapply O3.
  - intros start slot c. apply Hm.
  - intros r Hr. exists r. split; [by apply Hs|done].
Qed.

(** A database without records of the session. *)
Lemma markers_ok_empty m : (forall k, collator_key sid k -> m !! k = None) -> markers_ok m.
Proof.
  intros Hn. constructor.
  - intros v. rewrite Hn; [done|by left].
  - intros start slot v H1 H2. rewrite Hn; [done|right; by exists start, slot].
  - intros start slot slot' c c' (H1 & H2 & v & Hv & _). rewrite Hn in Hv; [done|right; by exists start, slot].
Qed.

(** *** The session's record is written *)
Lemma session_written m r value :
  markers_ok m -> decodeCollatorSessionRecord value = Ok r -> cs_ID (sr_Session r) = sid ->
  (forall r0, session_at m r0 -> follows r0 r) ->
  let m' := <[collatorSessionKey sid := value]> m in markers_ok m' /\ progress m m' /\ session_at m' r.
Proof.
  intros [O1 O2 O3] Hd Hid Hf m'.
  assert (session_at m' r) as Hr by (exists value; unfold m'; by rewrite lookup_insert_eq).
  assert (forall start slot, m' !! marker_key sid start slot = m !! marker_key sid start slot) as Em
    by (intros; unfold m'; by rewrite lookup_insert_ne).
  assert (forall start slot c, marker_at m' start slot c <-> marker_at m start slot c) as Hm
    by (intros start slot c; unfold marker_at; by rewrite Em).
  split_and!; [constructor|split|done].
  - intros v. unfold m'. rewrite lookup_insert_eq. intros [= <-]. by exists r.
  - intros start slot v H1 H2. rewrite Em. intros Hv. destruct (O2 _ _ _ H1 H2 Hv) as (c & r0 & E1 & E2 & E3 & Hr0 & Hw).
    exists c, r. split_and!; try done; destruct (Hf r0 Hr0) as [<- _]; apply Hw.
  - intros start slot slot' c c' H1%Hm H2%Hm. by eapply O3.
  - intros start slot c. apply Hm.
  - intros r0 Hr0. exists r. split; [done|by apply Hf].
Qed.

(** *** A marker is written *)
Lemma marker_written m r c start slot value :
  markers_ok m -> session_at m r -> is_u32 start -> is_u32 slot -> decodeCollatorCandidateRecord value = Ok c ->
  cm_WindowID c = mkWindowID sid start -> cid_Slot (cm_ID c) = slot -> in_window (sr_Session r) start slot ->
  m !! marker_key sid start slot = None ->
  (forall slot' c', marker_at m start slot' c' -> same_authority c' c) ->
  let m' := <[marker_key sid start slot := value]> m in markers_ok m' /\ progress m m' /\ marker_at m' start slot c.
Proof.
  intros [O1 O2 O3] Hr Hu1 Hu2 Hd Hw Hs Hin Hnone Hauth m'.
  assert (marker_at m' start slot c) as Hc by (split_and!; [done..|]; exists value; unfold m'; by rewrite lookup_insert_eq).
  assert (forall r, session_at m' r <-> session_at m r) as Hsess by (intros; unfold session_at, m'; by rewrite lookup_insert_ne).
  assert (forall start' slot' c', marker_at m' start' slot' c' ->
    marker_at m start' slot' c' \/ start' = start /\ slot' = slot /\ c' = c) as Hcases.
  { intros start' slot' c' (H1 & H2 & v & Hv & Hdc). destruct (decide (start' = start /\ slot' = slot)) as [[-> ->]|Hne].
    - right. unfold m' in Hv. rewrite lookup_insert_eq in Hv. split_and!; [done..|congruence].
    - left. split_and!; [done..|]. exists v. unfold m' in Hv. rewrite lookup_insert_ne in Hv; [done|].
      intros E. apply marker_key_inj in E as (_ & -> & ->); [by apply Hne|done..]. }
  split_and!; [constructor|split|done].
  - intros v. unfold m'. rewrite lookup_insert_ne by done. apply O1.
  - intros start' slot' v H1 H2 Hv. destruct (decide (marker_key sid start slot = marker_key sid start' slot')) as [E|Hne].
    + apply marker_key_inj in E as (_ & <- & <-); [|done..]. unfold m' in Hv. rewrite lookup_insert_eq in Hv. injection Hv as <-.
      exists c, r. rewrite Hsess. by split_and!; try apply Hin.
    + unfold m' in Hv. rewrite lookup_insert_ne in Hv by done. destruct (O2 _ _ _ H1 H2 Hv) as (c0 & r0 & H). exists c0, r0. by rewrite Hsess.
  - assert (forall a b, same_authority a b -> same_authority b a) as Hsym.
    { intros a b (E1 & E2 & E). split_and!; [done..|]. intros Ha. rewrite <- E1 in Ha. destruct (E Ha). done. }
    intros start' slot1 slot2 c1 c2 [H1|(E1 & _ & ->)]%Hcases [H2|(E2 & _ & ->)]%Hcases; subst.
    + by eapply O3.
    + by eapply Hauth.
    + by eapply Hsym, Hauth.
    + by split_and!.
  - intros start' slot' c' (H1 & H2 & v & Hv & Hdc). split_and!; [done..|]. exists v. unfold m'. rewrite lookup_insert_ne; [done|].
    intros E. rewrite <- E in Hv. congruence.
  - intros r0 Hr0. exists r0. split; [by apply Hsess|done].
Qed.
End States.

(** ** The requests *)

Lemma boundary_in_window s c leader :
  validateCandidateSessionBoundary s c = Some (Ok leader) ->
  in_window (sr_Session s) (wid_StartSlot (cm_WindowID c)) (cid_Slot (cm_ID c)).
Proof.
  unfold validateCandidateSessionBoundary. match goal with |- context [if ?b then _ else _] => destruct b eqn:E end; [done|].
  intros _. rewrite !orb_false_iff, !negb_false_iff in E. destruct E as [[_ Hmod%Z.eqb_eq] Hin].
  unfold candidateSlotInWindow in Hin. apply andb_prop in Hin as [?%Z.leb_le ?%Z.ltb_lt]. by split.
Qed.

Lemma authority_loop_ok c l k v :
  authority_loop c l = Ok tt -> (k, v) ∈ l -> exists c', decodeCollatorCandidateRecord v = Ok c' /\ same_authority c' c.
Proof.
  induction l as [|[k' v'] l IH]; simpl; [by intros _ ?%elem_of_nil|].
  destruct (decodeCollatorCandidateRecord v') as [stored|] eqn:Ed; [|done].
  match goal with |- context [if ?b then _ else _] => destruct b eqn:E1 end; [done|].
  match goal with |- context [if ?b then _ else _] => destruct b eqn:E2 end; [done|].
  intros Hok [Hkv|Hkv]%elem_of_cons; [|by apply IH]. injection Hkv as -> ->. exists stored. split; [done|].
  rewrite !orb_false_iff, !negb_false_iff, !Z.eqb_eq in E1. destruct E1 as [[_ Ha] Hl]. split_and!; [done..|].
  intros Hdel. rewrite <- Ha, Hdel in E2. simpl in E2. apply orb_false_iff in E2 as [E2 E3].
  apply negb_false_iff, bool_decide_eq_true in E2, E3. done.
Qed.

Section Requests.
Context `{TLRuntime} `{Ed25519} `{PebbleLaws} {W : Type}.
Context (sid : bytes) (Hsid : session_id sid).

(** What a request of the session leaves: on success [Q], on rejection nothing. *)
Definition request_spec (t : Tx W unit) (Q : kv -> Prop) : Prop :=
  tx_local t /\ forall m0, markers_ok sid m0 ->
    tx_spec (fun m => m = m0) t (fun _ m => markers_ok sid m /\ progress sid m0 m /\ Q m) (fun m => m = m0).

Lemma tx_spec_of {A : Type} wrap (r : result codec_error A) (P : kv -> Prop) (Q : A -> kv -> Prop) (E : kv -> Prop) :
  (forall a m, r = Ok a -> P m -> Q a m) -> (forall m, P m -> E m) -> tx_spec (W := W) P (tx_of wrap r) Q E.
Proof. intros HQ HE s Hp. unfold tx_of. destruct r as [a|e]; [by apply HQ|]. destruct (wrap (ErrRecord e)); [by apply HE|done]. Qed.

Lemma authority_pure c (s : Batch * W) : (validateCandidateWindowAuthority c s).2 = s.
Proof. unfold validateCandidateWindowAuthority. by repeat case_match. Qed.
Lemma check_pure {A : Type} (r : option (result store_error A)) (s : Batch * W) : (tx_check r s).2 = s.
Proof. by destruct r as [[]|]. Qed.

Lemma saveSession_request r value :
  decodeCollatorSessionRecord value = Ok r -> cs_ID (sr_Session r) = sid ->
  request_spec (saveSession_body r value) (fun m => exists r', session_at sid m r' /\ follows r r').
Proof.
  intros Hd Hid. split; [unfold saveSession_body; tx_local_auto|]. intros m0 Hok. unfold saveSession_body. rewrite Hid.
  apply (tx_spec_bind _ _ _ (fun stored m => m = m0 /\ stored = m0 !! collatorSessionKey sid)).
  { apply tx_spec_get. by intros m ->. }
  assert ((forall r0, session_at sid m0 r0 -> follows r0 r) -> forall m, m = m0 ->
    let m' := <[collatorSessionKey sid := value]> m in
    markers_ok sid m' /\ progress sid m0 m' /\ exists r', session_at sid m' r' /\ follows r r') as Hset.
  { intros Hf m -> m'. destruct (session_written sid m0 r value Hok Hd Hid Hf) as (K1 & K2 & K3). split_and!; [done..|]. by exists r. }
  intros [stored|].
  2:{ apply tx_spec_Set. intros m [-> En]. apply Hset; [|done]. intros r0 (v & Hv & _). congruence. }
  destruct (bool_decide_reflect (stored = value)) as [->|Hne].
  { apply tx_spec_ret. intros m [-> Es]. split; [done|]. split; [done|]. exists r. split; [|done]. by exists value. }
  apply (tx_spec_bind _ _ _ (fun old m => m = m0 /\ session_at sid m0 old)).
  { apply tx_spec_of; [|by intros m [-> _]]. intros old m Eo [-> Es]. split; [done|]. by exists stored. }
  intros old. destruct (Session_Equal (sr_Session old) (sr_Session r)) eqn:E1; cbn [negb]; [|apply tx_spec_reject; by intros m [-> _]].
  match goal with |- context [if ?b then tx_reject _ else _] => destruct b eqn:E2 end; [apply tx_spec_reject; by intros m [-> _]|].
  destruct (ValidateSessionUpdateAdvance (sr_Update old) (sr_Update r)) eqn:E3; cbn [negb]; [|apply tx_spec_reject; by intros m [-> _]].
  apply tx_spec_Set. intros m [-> Hold]. apply Hset; [|done]. intros r0 Hr0. rewrite (session_at_inj sid _ _ _ Hr0 Hold).
  split; [by apply Session_Equal_eq|]. split; [|by apply ValidateSessionUpdateAdvance_spec].
  intros a Ea. rewrite Ea in E2. destruct (sr_Activation r) as [b|]; [|done].
  apply negb_false_iff, SessionActivation_Equal_eq in E2. by rewrite E2.
Qed.

Lemma window_authority_spec c start m0 :
  cm_WindowID c = mkWindowID sid start ->
  tx_spec (W := W) (fun m => m = m0) (validateCandidateWindowAuthority c)
    (fun _ m => m = m0 /\ forall slot' c', marker_at sid m0 start slot' c' -> same_authority c' c) (fun m => m = m0).
Proof.
  intros Hw s <-. unfold validateCandidateWindowAuthority.
  destruct (batch_Iter s.1 _ _) as [[l failed]|] eqn:Ei; [|done]. apply law_batch_iter in Ei as (_ & _ & Hall).
  destruct (authority_loop c l) as [[]|e] eqn:El; [|done]. destruct failed; [done|]. split; [done|].
  intros slot' c' (K1 & K2 & v & Hv & Hd).
  destruct (authority_loop_ok c l (marker_key sid start slot') v El) as (c2 & E2 & Ha); [|congruence].
  apply (Hall eq_refl); [done|]. apply prefix_in_bounds. rewrite Hw. by eexists.
Qed.

Lemma session_from_batch_spec m0 :
  tx_spec (W := W) (fun m => m = m0) (collatorSessionFromBatch sid) (fun r m => m = m0 /\ session_at sid m0 r) (fun m => m = m0).
Proof.
  unfold collatorSessionFromBatch. apply (tx_spec_bind _ _ _ (fun stored m => m = m0 /\ stored = m0 !! collatorSessionKey sid)).
  { apply tx_spec_get. by intros m ->. }
  intros [v|]; [|apply tx_spec_reject; by intros m [-> _]].
  apply (tx_spec_bind _ _ _ (fun r m => m = m0 /\ session_at sid m0 r)).
  { apply tx_spec_of; [|by intros m [-> _]]. intros r m Er [-> Ev]. split; [done|]. by exists v. }
  intros r. destruct (negb _); [apply tx_spec_reject; by intros m [-> _]|by apply tx_spec_ret].
Qed.

Lemma tx_spec_check {A : Type} (r : option (result store_error A)) (P : kv -> Prop) (Q : A -> kv -> Prop) (E : kv -> Prop) :
  (forall a m, r = Some (Ok a) -> P m -> Q a m) -> (forall m, P m -> E m) -> tx_spec (W := W) P (tx_check r) Q E.
Proof.
  intros HQ HE. destruct r as [[a|e]|]; [apply tx_spec_ret; intros m; by apply HQ|by apply tx_spec_reject|apply tx_spec_fatal].
Qed.

Lemma checked_in_window s c :
  validateDelegatedCandidateMarker s c = Some (Ok tt) \/ validateSelfCandidateMarker s c = Some (Ok tt) ->
  in_window (sr_Session s) (wid_StartSlot (cm_WindowID c)) (cid_Slot (cm_ID c)).
Proof.
  unfold validateDelegatedCandidateMarker, validateSelfCandidateMarker.
  intros [(b & Eb & Hrest)%bind_Some|(b & Eb & Hrest)%bind_Some]; (destruct b as [leader|]; [|done]); by eapply boundary_in_window.
Qed.

Lemma saveMarker_request c value :
  typed_marker c -> encodeCollatorCandidateRecord c = Ok value -> wid_SessionID (cm_WindowID c) = sid ->
  request_spec (saveMarker_body c value)
    (fun m => marker_at sid m (wid_StartSlot (cm_WindowID c)) (cid_Slot (cm_ID c)) c).
Proof.
  intros Ht He Hs. pose proof (decode_encode_marker c value Ht He) as Hd. pose proof Ht as [_ U1 [U2 _] _ _ _ _ _].
  assert (cm_WindowID c = mkWindowID sid (wid_StartSlot (cm_WindowID c))) as Hw by (rewrite <- Hs; by destruct (cm_WindowID c)).
  split.
  { unfold saveMarker_body, collatorSessionFromBatch.
    tx_local_auto; intros s; by rewrite ?authority_pure, ?check_pure. }
  intros m0 Hok. unfold saveMarker_body. rewrite Hs. eapply tx_spec_bind; [apply session_from_batch_spec|]. intros session.
  set (start := wid_StartSlot (cm_WindowID c)) in *. set (slot := cid_Slot (cm_ID c)) in *.
  apply (tx_spec_bind _ _ _ (fun _ m => m = m0 /\ session_at sid m0 session /\
    forall slot' c', marker_at sid m0 start slot' c' -> same_authority c' c)).
  { intros s [Hm Hss]. pose proof (window_authority_spec c start m0 Hw s Hm) as Hv.
    destruct (validateCandidateWindowAuthority c s) as [[[]|[e|e]] s']; [|done..]. destruct Hv. by split_and!. }
  intros _. rewrite Hw. fold (marker_key sid start slot).
  apply (tx_spec_bind _ _ _ (fun stored m => (m = m0 /\ session_at sid m0 session /\
    forall slot' c', marker_at sid m0 start slot' c' -> same_authority c' c) /\ stored = m0 !! marker_key sid start slot)).
  { apply tx_spec_get. intros m Hall. split; [done|]. by destruct Hall as [-> _]. }
  intros [stored|].
  - assert (forall m, m = m0 -> Some stored = m0 !! marker_key sid start slot -> decodeCollatorCandidateRecord stored = Ok c ->
      markers_ok sid m /\ progress sid m0 m /\ marker_at sid m start slot c) as Hsame.
    { intros m -> Es Ed. do 2 (split; [done|]). do 2 (split; [done|]). by exists stored. }
    destruct (bool_decide_reflect (stored = value)) as [->|Hne]; [apply tx_spec_ret; intros m [[-> _] Es]; by apply Hsame|].
    apply (tx_spec_bind _ _ _ (fun old m => m = m0 /\ Some stored = m0 !! marker_key sid start slot /\
      decodeCollatorCandidateRecord stored = Ok old)).
    { apply tx_spec_of; [|by intros m [[-> _] _]]. by intros old m Eo [[-> _] Es]. }
    intros old. destruct (collatorCandidateRecordsEqual old c) eqn:Ec; [|apply tx_spec_reject; by intros m [-> _]].
    apply collatorCandidateRecordsEqual_eq in Ec as ->. apply tx_spec_ret. intros m (-> & Es & Ed). by apply Hsame.
  - apply (tx_spec_bind _ _ _ (fun _ m => (m = m0 /\ session_at sid m0 session /\
      forall slot' c', marker_at sid m0 start slot' c' -> same_authority c' c) /\ None = m0 !! marker_key sid start slot /\
      in_window (sr_Session session) start slot)).
    { repeat case_match; [apply tx_spec_check|apply tx_spec_check|apply tx_spec_reject]; try by intros m [[-> _] _].
      - intros [] m E [Hm En]. do 2 (split; [done|]). apply checked_in_window. by left.
      - intros [] m E [Hm En]. do 2 (split; [done|]). apply checked_in_window. by right. }
    intros []. apply tx_spec_Set. intros m ((-> & Hss & Ha) & En & Hin).
    by eapply (marker_written sid Hsid m0 session c start slot value).
Qed.
End Requests.

(** ** Runs of the writer *)

(** The call a callback belongs to. *)
Inductive collator_call := CallSession (r : SessionRecord) | CallMarker (c : CandidateRecord).

Section Runs.
Context `{TLRuntime} `{Ed25519} `{PebbleLaws} {W D : Type} (env : W -> W -> Prop).
Context (sid : bytes) (Hsid : session_id sid) (T : D -> option collator_call).
Implicit Types (rq : writeRequest W D) (st : Store W D).

(** A request that writes no key of the session. *)
Definition foreign (t : Tx W unit) : Prop := exists K, touches K t /\ forall k, collator_key sid k -> ~ K k.

(** The requests of [SaveSession] and [SaveCandidate], of any session, and any
    request that stays off the session's keys. *)
Definition acceptable rq : Prop :=
  match T (rq_done rq) with
  | Some (CallSession r) => exists value, decodeCollatorSessionRecord value = Ok r /\ rq_apply rq = saveSession_body r value
  | Some (CallMarker c) => exists value, encodeCollatorCandidateRecord c = Ok value /\ typed_marker c /\
      session_id (wid_SessionID (cm_WindowID c)) /\ rq_apply rq = saveMarker_body c value
  | None => foreign (rq_apply rq)
  end.

Definition completed (d : D) (m : kv) (_ : W) : Prop :=
  match T d with
  | Some (CallSession r) => cs_ID (sr_Session r) = sid -> exists r', session_at sid m r' /\ follows r r'
  | Some (CallMarker c) => wid_SessionID (cm_WindowID c) = sid ->
      marker_at sid m (wid_StartSlot (cm_WindowID c)) (cid_Slot (cm_ID c)) c
  | None => True
  end.

(** The database was [m0] when it was opened. *)
Definition since (m0 m : kv) (_ : W) : Prop := markers_ok sid m /\ progress sid m0 m.
Definition onward (m0 m : kv) (_ : W) (m' : kv) (w' : W) : Prop := since m0 m' w' /\ progress sid m m'.
Definition any (_ _ : W) : Prop := True.
Definition before (m m' : kv) : Prop := markers_ok sid m /\ progress sid m m'.

Lemma completed_progress d m w m' w' : progress sid m m' -> completed d m w -> completed d m' w'.
Proof.
  intros [Pm Ps]. unfold completed. destruct (T d) as [[r|c]|]; [|by auto|done].
  intros Hc E. destruct (Hc E) as (r1 & K1 & F1), (Ps r1 K1) as (r2 & K2 & F2). exists r2. split; [done|by etrans].
Qed.

Lemma collator_order m0 : history_order env (since m0) (onward m0) any before completed.
Proof.
  constructor.
  - intros m w Hs. by split.
  - intros m1 w1 m2 w2 m3 w3 [_ P1] [S2 P2]. split; [done|by etrans].
  - by intros m w m' w' [? _].
  - intros m w m' w' d [_ P]. by apply completed_progress.
  - done.
  - done.
  - intros m w w' Hs _. by split.
  - intros m w [Hs _]. by split.
  - intros m w m' w' m1 [_ P] [Hm P1]. split; [done|by etrans].
  - intros m w w' _ Hs. split; [exact Hs|]. intros d. by apply completed_progress.
Qed.

Lemma request_keeps rq t Q m0 :
  rq_apply rq = t -> request_spec sid t Q -> (forall m w, Q m -> completed (rq_done rq) m w) ->
  keeps (since m0) (onward m0) any completed rq.
Proof.
  intros Et [Hl Hs] HQ. split; [intros s; rewrite Et; apply Hl|]. intros s [Hok Hp]. rewrite Et.
  specialize (Hs (view s.1) Hok s eq_refl). destruct (t s) as [[u|[e|e]] s']; [| |done].
  - destruct Hs as (K1 & K2 & K3). split; [|by apply HQ]. split; [|done]. split; [done|by etrans].
  - rewrite Hs. by split.
Qed.
Lemma foreign_keeps rq m0 :
  foreign (rq_apply rq) -> (forall m w, completed (rq_done rq) m w) -> keeps (since m0) (onward m0) any completed rq.
Proof.
  intros (K & [Hl Ht] & HK) Hc. split; [exact Hl|]. intros s [Hok Hp].
  destruct (markers_ok_agree sid (view s.1) (view (rq_apply rq s).2.1)) as [K1 K2]; [|done|].
  { intros k Hk. apply Ht. by apply HK. }
  assert (onward m0 (view s.1) s.2 (view (rq_apply rq s).2.1) (rq_apply rq s).2.2) as Ho
    by (split; [split; [done|by etrans]|done]).
  destruct (rq_apply rq s) as [[u|[e|e]] s']; [by split|done..].
Qed.

(** The requests of other sessions. *)
Lemma saveSession_touches r value : touches (fun k => k = collatorSessionKey (cs_ID (sr_Session r))) (saveSession_body (W := W) r value).
Proof.
  unfold saveSession_body. apply touches_bind; [apply touches_pure; intros s; unfold getBatchCopy; by destruct (batch_Get _ _)|].
  intros [v|]; [|by apply touches_Set]. case_match; [by apply touches_pure|].
  apply touches_bind; [apply touches_pure; intros s; unfold tx_of; by case_match|]. intros old.
  repeat match goal with |- touches _ (if ?b then _ else _) => destruct b end; first [by apply touches_pure | by apply touches_Set].
Qed.
Lemma saveMarker_touches c value :
  touches (fun k => k = collatorCandidateKey (cm_WindowID c) (cid_Slot (cm_ID c))) (saveMarker_body (W := W) c value).
Proof.
  assert (forall K key, touches (W := W) K (getBatchCopy key)) as Hget
    by (intros; apply touches_pure; intros s; unfold getBatchCopy; by destruct (batch_Get _ _)).
  assert (forall A K wrap (r : result codec_error A), touches (W := W) K (tx_of wrap r)) as Hof
    by (intros; apply touches_pure; intros s; unfold tx_of; by case_match).
  unfold saveMarker_body, collatorSessionFromBatch. apply touches_bind.
  { apply touches_bind; [done|]. intros [v|]; [|by apply touches_pure]. apply touches_bind; [done|]. intros r. case_match; by apply touches_pure. }
  intros session. apply touches_bind; [apply touches_pure; apply authority_pure|]. intros _. apply touches_bind; [done|].
  intros [v|].
  - case_match; [by apply touches_pure|]. apply touches_bind; [done|]. intros old. case_match; by apply touches_pure.
  - apply touches_bind; [|intros; by apply touches_Set]. repeat case_match; apply touches_pure; intros s; done || apply check_pure.
Qed.

Lemma marker_request_keeps rq m0 : acceptable rq -> keeps (since m0) (onward m0) any completed rq.
Proof.
  unfold acceptable. destruct (T (rq_done rq)) as [[r|c]|] eqn:ET; [intros (value & Hd & Ea)|intros (value & He & Ht & Hid & Ea)|].
  - destruct (decide (cs_ID (sr_Session r) = sid)) as [Es|Hne].
    + eapply request_keeps; [exact Ea|by apply saveSession_request|]. intros m w Hm. unfold completed. by rewrite ET.
    + apply foreign_keeps; [|intros m w; unfold completed; by rewrite ET]. rewrite Ea. eexists. split; [apply saveSession_touches|].
      intros k [->|(start & slot & _ & _ & ->)] E; [|done]. apply Hne. symmetry. by injection E.
  - destruct (decide (wid_SessionID (cm_WindowID c) = sid)) as [Es|Hne].
    + eapply request_keeps; [exact Ea|by apply saveMarker_request|]. intros m w Hm. unfold completed. by rewrite ET.
    + apply foreign_keeps; [|intros m w; unfold completed; by rewrite ET]. rewrite Ea. eexists. split; [apply saveMarker_touches|].
      intros k [->|(start & slot & U1 & U2 & ->)] E; [done|]. apply Hne. destruct Ht as [_ U3 [U4 _] _ _ _ _ _].
      destruct (cm_WindowID c) as [sid' start'] eqn:Ew. apply marker_key_inj in E as [-> _]; done.
  - intros Hf. apply foreign_keeps; [done|]. intros m w. unfold completed. by rewrite ET.
Qed.

Lemma runs_since db0 w0 h st :
  runs env db0 w0 h st -> markers_ok sid (contents db0) -> versions db0 = [contents db0] -> Forall acceptable (h_submitted h) ->
  since (contents db0) (contents (s_db st)) (s_w st) /\
  (forall i d, (i, (d, None)) ∈ h_ran h -> completed d (contents (s_db st)) (s_w st)) /\
  forall m, m ∈ versions (s_db st) -> before m (contents (s_db st)).
Proof.
  intros Hrun Hok Hv Hacc.
  destruct (runs_kept _ _ _ _ _ _ (collator_order (contents db0)) db0 w0 h st) as [K1 _ _ K4 K5 _ _ _ _]; [by split|done|done| |done].
  eapply Forall_impl; [exact Hacc|]. intros rq. apply marker_request_keeps.
Qed.

(** *** Reads *)

Lemma Candidate_read_marker db start slot c :
  markers_ok sid (contents db) -> marker_at sid (contents db) start slot c ->
  Candidate_read db (mkWindowID sid start) slot = Ok c \/ Candidate_read db (mkWindowID sid start) slot = Err ErrIO.
Proof.
  intros Hok (U1 & U2 & v & Hv & Hd). unfold Candidate_read, readerGetCopy.
  pose proof (law_get db (marker_key sid start slot) (contents db) (contents_last db)) as Hr. unfold marker_key in *.
  destruct (db_Get db _); cbn in *; [|congruence|by right]. rewrite Hv in Hr. injection Hr as <-. rewrite Hd. cbn. left.
  destruct (mo_marker _ _ Hok start slot v U1 U2 Hv) as (c' & r & Hd' & Hw & Hs & _). rewrite Hd in Hd'. injection Hd' as <-.
  rewrite Hw, Hs, Z.eqb_refl, bool_decide_true by done. done.
Qed.
Lemma Candidate_read_at db start slot c :
  is_u32 start -> is_u32 slot -> Candidate_read db (mkWindowID sid start) slot = Ok c -> marker_at sid (contents db) start slot c.
Proof.
  intros U1 U2. unfold Candidate_read, readerGetCopy.
  pose proof (law_get db (marker_key sid start slot) (contents db) (contents_last db)) as Hr. unfold marker_key in *.
  destruct (db_Get db _) as [v| |]; cbn in *; [|done..]. destruct (decodeCollatorCandidateRecord v) as [c'|] eqn:Ed; cbn; [|done].
  case_match; [done|]. intros [= <-]. do 2 (split; [done|]). by exists v.
Qed.
Lemma Session_read_at db r :
  markers_ok sid (contents db) -> session_at sid (contents db) r -> Session_read db sid = Ok r \/ Session_read db sid = Err ErrIO.
Proof.
  intros Hok (v & Hv & Hd). unfold Session_read, readerGetCopy.
  pose proof (law_get db (collatorSessionKey sid) (contents db) (contents_last db)) as Hr.
  destruct (db_Get db _); cbn in *; [|congruence|by right]. rewrite Hv in Hr. injection Hr as <-. rewrite Hd. cbn. left.
  destruct (mo_session _ _ Hok v Hv) as (r' & Hd' & Hid). rewrite Hd in Hd'. injection Hd' as <-. by rewrite bool_decide_true.
Qed.

Lemma reopened db db' : (forall m, m ∈ versions db -> before m (contents db)) -> db_Reopen db db' ->
  markers_ok sid (contents db') /\ versions db' = [contents db'].
Proof.
  intros Hb (n & m & _ & Hm & Ev)%law_reopen. assert (contents db' = m) as -> by (apply contents_unique; by rewrite Ev).
  split; [|done]. by apply (Hb m), list_elem_of_lookup_2 with n.
Qed.


End Runs.

(** ** The calls leave such requests *)

Section Calls.
Context `{TLRuntime} `{Ed25519} `{PebbleLaws} {W D : Type}.
Implicit Types (s : CollatorStore W D).

Lemma submit_gate sent (rq : writeRequest W D) st r st' ctxErr : submitContext ctxErr sent rq st = (r, st') ->
  match collatorStoreError r with
  | Ok _ => s_queue st' = s_queue st ++ [rq]
  | Err _ => s_queue st' = s_queue st
  end.
Proof.
  unfold submitContext. destruct ctxErr; [by intros [= <- <-]|]. destruct (s_isClosed st); [by intros [= <- <-]|].
  destruct sent; by intros [= <- <-].
Qed.

(** A call that reports nothing at once has put its request into the queue. *)
Lemma SaveCandidate_queues c d s s' :
  SaveCandidate c d s = (None, s') ->
  exists value, encodeCollatorCandidateRecord c = Ok value /\
    s_queue (k_store s') = s_queue (k_store s) ++ [mkRequest (saveMarker_body c value) d (Z.of_nat (length value)) restartRecoverable].
Proof.
  unfold SaveCandidate. destruct (negb _); [done|]. destruct (encodeCollatorCandidateRecord c) as [value|]; [|done].
  unfold reported, submitSession. do 2 (case_bool_decide; [done|]).
  unfold submit. destruct (submitContext _ _ _ (k_store s)) as [r st'] eqn:Es. apply (submit_gate true) in Es.
  destruct (collatorStoreError r); [|done]. intros [= <-]. by exists value.
Qed.
Lemma SaveSession_queues ctxErr sent r d s s' :
  typed_record r -> readable_update (sr_Update r) -> SaveSession ctxErr sent r d s = (None, s') ->
  exists value, decodeCollatorSessionRecord value = Ok r /\
    s_queue (k_store s') = s_queue (k_store s) ++ [mkRequest (saveSession_body r value) d (Z.of_nat (length value)) restartRecoverable].
Proof.
  intros Ht Hr. unfold SaveSession. case_bool_decide as E1; cbn [negb]; [|done].
  match goal with |- context [if ?b then _ else _] => destruct b eqn:E2 end; [done|].
  destruct (encodeCollatorSessionRecord r) as [value|] eqn:Ee; [|done].
  assert (same_session r) as Hs.
  { split; [done|]. intros a Ea. rewrite Ea in E2. by apply negb_false_iff, bool_decide_eq_true in E2. }
  pose proof (decode_encode_sessionRecord r value Ht Hr Hs Ee) as Hd. rewrite Hd. unfold reported, submitSessionGeneration.
  case_bool_decide; [done|]. destruct (submitContext _ _ _ _) as [res st'] eqn:Es. apply submit_gate in Es.
  destruct (collatorStoreError res); [|by case_match]. intros [= <-]. by exists value.
Qed.

(** Consensus requests and the deletion of another session are off the keys of
    a session. *)
Lemma consensus_foreign sid ns (t : Tx W unit) :
  session_id sid -> bytes_ok ns -> touches (session_key ns) t -> foreign sid t.
Proof. intros Hs Hns Ht. exists (session_key ns). split; [done|]. intros k Hk. by eapply consensus_keys. Qed.

Definition deleted_key (sid k : bytes) : Prop :=
  k = collatorSessionKey sid \/
  in_bounds (prefixBounds (collatorCandidateSessionPrefix sid)).1 (prefixBounds (collatorCandidateSessionPrefix sid)).2 k = true.
Lemma deleteCollatorSession_touches sid : touches (deleted_key sid) (deleteCollatorSession_body (W := W) sid).
Proof.
  unfold deleteCollatorSession_body, delete_prefixes.
  apply touches_bind; [apply touches_pure; intros s; unfold getBatchCopy; by destruct (batch_Get _ _)|].
  intros [v|]; [|by apply touches_pure]. apply touches_bind; [apply touches_pure; intros s; unfold tx_of; by case_match|].
  intros r. case_match; [by apply touches_pure|]. apply touches_bind; [|intros; apply touches_Delete; by left].
  apply touches_bind; [apply touches_DeleteRange; intros k Hk; by right|intros; by apply touches_pure].
Qed.
Lemma other_delete_foreign sid sid' :
  session_id sid -> session_id sid' -> sid <> sid' -> foreign sid (deleteCollatorSession_body (W := W) sid').
Proof.
  intros Hs Hs' Hne. eexists. split; [apply deleteCollatorSession_touches|].
  assert (forall x, session_id x -> bytes_ok (collatorCandidateSessionPrefix x)) as Hb.
  { intros x [_ Hx]. apply bytes_ok_app; [|done]. by repeat constructor. }
  intros k Hk [->|Hin].
  - destruct Hk as [E|(start & slot & _ & _ & E)]; [injection E as E; by apply Hne|done].
  - apply in_bounds_prefix in Hin as [r E]; [|by apply Hb|exact (collator_key_ok sid k Hs Hk)].
    destruct Hk as [->|(start & slot & _ & _ & ->)]; [done|]. unfold marker_key, collatorCandidateKey, collatorCandidatePrefix, collatorCandidateSessionPrefix in E.
    simpl in E. injection E as E. rewrite <- !app_assoc in E. apply app_inj_1 in E as [-> _]; [done|].
    destruct Hs as [-> _], Hs' as [-> _]. done.
Qed.
End Calls.

(** ** An example *)

Module ExampleMarkers.
Import ExampleTL.
Import MemPebble.

(** A signature is the key twice. *)
#[local] Instance twice : Ed25519 := { ed25519_Verify key _ sig := bool_decide (sig = key ++ key) }.

Definition sid : bytes := replicate 32 9.
Definition block : BlockIDExt := mkBlockIDExt (-1) (- 2 ^ 63) 17 zeroHash zeroHash.
Definition session : Session :=
  mkSession sid (mkShardID 0 (- 2 ^ 63)) 3 4 0 0 0 false 4
    [mkSessionValidator (replicate 32 1) (replicate 32 2) 5; mkSessionValidator (replicate 32 3) (replicate 32 4) 6].
Definition record : SessionRecord :=
  mkSessionRecord session (Some (mkSessionActivation sid [block] block))
    (mkSessionUpdate sid 1000 0 block false zeroBlockID [mkShardDescription (mkShardID 0 (- 2 ^ 63)) block 1 false false (mkShardFSM 0 0 0)]
      true 8 8 (mkTime 1700000000 5) Genesis).
Definition marker (hash : Z) : CandidateRecord :=
  mkCandidateRecord (mkWindowID sid 8) CandidateAuthoritySelf (mkCandidateID 9 (replicate 32 hash)) Genesis 0 false block zeroHash
    (replicate 64 1) zeroHash [].

Definition disk : DB := mkMem [] [] 0.
Definition T (d : nat) : option collator_call :=
  match d with
  | 0%nat => Some (CallSession record)
  | 1%nat => Some (CallMarker (marker 7))
  | 2%nat => Some (CallMarker (marker 8))
  | _ => None
  end.

Definition encoded (r : result codec_error bytes) : bytes := match r with Ok v => v | Err _ => [] end.
(** [SaveSession], then two candidates for one slot. *)
Definition request (d : nat) : writeRequest unit nat :=
  match T d with
  | Some (CallSession r) =>
      mkRequest (saveSession_body r (encoded (encodeCollatorSessionRecord r))) d 636 restartRecoverable
  | Some (CallMarker c) =>
      mkRequest (saveMarker_body c (encoded (encodeCollatorCandidateRecord c))) d 296 restartRecoverable
  | None => mkRequest (fun s => (Ok tt, s)) d 0 restartRecoverable
  end.
Definition queued0 : Store unit nat := (submit (request 0) (openStore disk tt)).2.
Definition queued1 : Store unit nat := (submit (request 1) queued0).2.
Definition queued2 : Store unit nat := (submit (request 2) queued1).2.
Definition finished : option (list (nat * option store_error) * Store unit nat) :=
  st ← writer_round 5 queued2; st ← wait_log 0 st; '(d0, st) ← run_callback 0 st; '(d1, st) ← run_callback 0 st;
  '(d2, st) ← run_callback 0 st; Some ([d0; d1; d2], st).

Lemma finished_results :
  option_map fst finished = Some [(0%nat, None); (1%nat, None); (2%nat, Some ErrCandidateConflict)].
Proof. vm_compute. reflexivity. Qed.
Lemma take_three : take_batch 5 queued2 = Some ([request 0; request 1; request 2], None, []).
Proof. reflexivity. Qed.

Lemma finished_runs : exists h st, runs no_env disk tt h st /\ h_submitted h = [request 0; request 1; request 2] /\
  (0%nat, (0%nat, None)) ∈ h_ran h /\ (0%nat, (1%nat, None)) ∈ h_ran h.
Proof.
  pose proof finished_results as Hr. unfold finished in Hr.
  destruct (writer_round 5 queued2) as [st1|] eqn:E1; [|discriminate Hr]. cbn [mbind option_bind] in Hr.
  destruct (wait_log 0 st1) as [st2|] eqn:E2; [|discriminate Hr]. cbn [mbind option_bind] in Hr.
  destruct (run_callback 0 st2) as [[d0 st3]|] eqn:E3; [|discriminate Hr]. cbn [mbind option_bind] in Hr.
  destruct (run_callback 0 st3) as [[d1 st4]|] eqn:E4; [|discriminate Hr]. cbn [mbind option_bind] in Hr.
  destruct (run_callback 0 st4) as [[d2 st5]|] eqn:E5; [|discriminate Hr]. cbn [mbind option_bind option_map fst] in Hr.
  injection Hr as -> -> ->. eexists _, st5. split.
  - eapply run_done; [|exact E5]. eapply run_done; [|exact E4]. eapply run_done; [|exact E3]. eapply run_wait; [|exact E2].
    eapply run_round; [|exact take_three|exact E1].
    eapply (run_submit _ _ _ _ queued1 (request 2)); [|reflexivity].
    eapply (run_submit _ _ _ _ queued0 (request 1)); [|reflexivity].
    eapply (run_submit _ _ _ _ _ (request 0)); [apply run_open|reflexivity].
  - split; [reflexivity|]. cbn [h_ran app]. split; [left|right; left].
Qed.

Lemma sid_ok : session_id sid.
Proof. split; [reflexivity|]. apply Forall_replicate. unfold is_byte. lia. Qed.
Lemma typed_example h : typed_marker (marker h).
Proof. constructor; try reflexivity; repeat split; cbn; unfold is_u32, is_i32, is_i64; lia || reflexivity. Qed.
Lemma marker_requests_acceptable (h : history unit nat) : h_submitted h = [request 0; request 1; request 2] ->
  Forall (acceptable sid T) (h_submitted h).
Proof.
  intros ->. repeat constructor; unfold acceptable; cbn [T rq_done request].
  - exists (encoded (encodeCollatorSessionRecord record)). split; [vm_compute; reflexivity|reflexivity].
  - exists (encoded (encodeCollatorCandidateRecord (marker 7))). split; [vm_compute; reflexivity|].
    split; [apply typed_example|]. split; [exact sid_ok|reflexivity].
  - exists (encoded (encodeCollatorCandidateRecord (marker 8))). split; [vm_compute; reflexivity|].
    split; [apply typed_example|]. split; [exact sid_ok|reflexivity].
Qed.
Lemma disk_ok : markers_ok sid (contents disk).
Proof. apply markers_ok_empty. reflexivity. Qed.


(** A session is saved, gets a marker and is deleted. *)
Definition gate0 : CollatorStore unit nat := mkCollatorStore (openStore disk tt) ∅ ∅.
Definition gate1 : CollatorStore unit nat := (SaveSession false true record 0%nat gate0).2.
Definition gate2 : CollatorStore unit nat := (SaveCandidate (marker 7) 1%nat gate1).2.
Definition gate3 : CollatorStore unit nat := match DeleteSession_enter false sid gate2 with Ok s => s | Err _ => gate2 end.
Definition gate4 : CollatorStore unit nat := (DeleteSession_submit sid 2%nat gate3).2.
Definition gate_log : list (bytes * gate_event) :=
  [(sid, AdmittedSession); (sid, AdmittedMarker); (sid, AdmittedDelete); (sid, DeleteDone)].

Definition succeeds {A} (r : result store_error A) : bool := match r with Ok _ => true | Err _ => false end.

Lemma pair_of {A B} (p : A * B) a : p.1 = a -> p = (a, p.2).
Proof. intros <-. by destruct p. Qed.
Lemma saved_session : (SaveSession false true record 0%nat gate0).1 = None /\ owned_session record = Some sid.
Proof. split; vm_compute; reflexivity. Qed.
Lemma saved_marker : (SaveCandidate (marker 7) 1%nat gate1).1 = None.
Proof. vm_compute. reflexivity. Qed.
Lemma entered_delete : DeleteSession_enter false sid gate2 = Ok gate3.
Proof.
  assert (succeeds (DeleteSession_enter false sid gate2) = true) as Hs by (vm_compute; reflexivity).
  unfold gate3. by destruct (DeleteSession_enter false sid gate2).
Qed.
Lemma submitted_delete : (DeleteSession_submit sid 2%nat gate3).1 = Ok tt.
Proof. vm_compute. reflexivity. Qed.

Lemma gate_log_runs : exists deletes, gate_runs gate_log deletes (DeleteSession_leave sid None gate4).
Proof.
  pose proof (gr_open (D := nat) (openStore disk tt)) as Hrun.
  apply (gr_session _ _ _ false true record 0%nat gate1 sid) in Hrun;
    [|exact (pair_of _ _ (proj1 saved_session))|exact (proj2 saved_session)].
  apply (gr_marker _ _ _ (marker 7) 1%nat gate2) in Hrun; [|exact (pair_of _ _ saved_marker)].
  apply (gr_enter _ _ _ false sid gate3) in Hrun; [|exact entered_delete].
  apply (gr_submit _ _ _ sid 2%nat gate4) in Hrun;
    [|apply lookup_insert_eq|exact (pair_of _ _ submitted_delete)].
  apply (gr_leave _ _ _ sid None) in Hrun; [|apply lookup_insert_eq].
  eexists. exact Hrun.
Qed.

Lemma gate_follows_lifecycle_witness : lifecycle Open (events sid gate_log) = Some Deleted.
Proof.
  destruct gate_log_runs as [deletes Hr]. pose proof (gate_follows_lifecycle _ _ _ sid Hr) as Hl. rewrite Hl.
  rewrite decide_True; [reflexivity|]. apply elem_of_union_l, elem_of_singleton. reflexivity.
Defined.
End ExampleMarkers.
