(* ===== verification/StoreCrash.v ===== *)
(** * The journal across crashes

    One session of the validator store as a transition system: the journal's
    client saves votes, certificates and windows, other clients submit requests
    that leave the session's journal alone, the writer and the callback goroutines
    run in any order.  The process may stop at any point.  [journal_survives]: a
    database reopened then holds the votes saved up to some call, among them every
    one whose callback reported success. *)

From S2P Require Import Prelude.
From S2P Require Import SimplexTypes.
From S2P Require Import SimplexWire.
From S2P Require Import Sha256.
From S2P Require Import SimplexCert.
From S2P Require Import SimplexVoting.
From S2P Require Import StoreKeys.
From S2P Require Import StoreCodec.
From S2P Require Import Pebble.
From S2P Require Import StoreWriter.
From S2P Require Import StoreSession.
From S2P Require Import StoreJournal.
From S2P Require Import StoreRecovery.

#[local] Open Scope Z_scope.

(** The initialization goroutine of a journal. *)
Inductive init_state := InitNotStarted | InitWaiting | InitResult (r : option store_error) | InitFinished.

(** A session of the store.  The last four fields are history: the writer's
    history, the votes saved, the completions delivered, and whether a batch has
    failed. *)
Record system `{Pebble} (W : Type) := mkSystem {
  q_store : ValidatorStore W;
  q_journal : journal;
  q_init : init_state;
  q_hist : history W done;
  q_called : list Vote;
  q_completed : list (journal_call * option store_error);
  q_failed : bool }.
Arguments mkSystem {_ W} _ _ _ _ _ _ _.
Arguments q_store {_ W} _.
Arguments q_journal {_ W} _.
Arguments q_init {_ W} _.
Arguments q_hist {_ W} _.
Arguments q_called {_ W} _.
Arguments q_completed {_ W} _.
Arguments q_failed {_ W} _.
#[export] Instance eta_system `{Pebble} W : Eta (system W) := fun q =>
  mkSystem (q_store q) (q_journal q) (q_init q) (q_hist q) (q_called q) (q_completed q) (q_failed q).

Notation q_st q := (v_store (q_store q)).
Notation q_db q := (s_db (v_store (q_store q))).

Section System.
Context `{TLLaws} `{PebbleLaws} {W : Type} (session : SessionStorageID) (ns : bytes) (maxSignatures : nat).
Implicit Types (q : system W).

Definition is_closed q : bool := s_isClosed (q_st q).

(** The history after a call: what it added to the queue was submitted. *)
Definition submitted q (s' : ValidatorStore W) : history W done :=
  let h := q_hist q in
  mkHistory (h_submitted h ++ drop (length (s_queue (q_st q))) (s_queue (v_store s'))) (h_batches h) (h_dbs h) (h_ran h).

(** A call returned: its immediate answer, if any, is a completion. *)
Definition after_call q (call : journal_call) (r : option store_error) (j' : journal) (s' : ValidatorStore W) : system W :=
  q <| q_store := s' |> <| q_journal := j' |> <| q_hist := submitted q s' |>
    <| q_completed := match r with Some e => q_completed q ++ [(call, Some e)] | None => q_completed q end |>.

(** The hash of [v] is not the hash of another record: of one the database held
    at the start, or one a call reserved. *)
Definition no_collision (R0 : list record) q (v : Vote) : Prop :=
  forall h, OurVoteRecordHash v = Some h ->
    (forall r, r ∈ R0 -> rec_hash r = Some h -> exists s, r = RVote v s) /\
    (forall rq call, rq ∈ h_submitted (q_hist q) -> rq_done rq = DoneReserved h call -> call = CallVote v).

(** The steps, labelled with the call of the journal's client, if it is one.  A
    batch may fail; then no later batch reaches the database.  A failed sync of
    the log ends the process. *)
Inductive step (R0 : list record) : system W -> option journal_call -> system W -> Prop :=
| st_init q s' r :
    q_init q = InitNotStarted ->
    submitSession ns (mkRequest (initialize_body session ns) DoneInit 0 restartRecoverable) (q_store q) = (r, s') ->
    step R0 q None (q <| q_store := s' |> <| q_hist := submitted q s' |>
      <| q_init := match r with Ok _ => InitWaiting | Err e => InitResult (Some e) end |>)
| st_init_failed q e :
    q_init q = InitResult (Some e) ->
    step R0 q None (q <| q_journal := finishInitialization (Some e) (q_journal q) |> <| q_init := InitFinished |>)
| st_recover q err j' :
    q_init q = InitResult None ->
    recoverReservations (is_closed q) (q_db q) (j_writeGen (q_journal q)) (q_journal q) = Some (err, j') ->
    step R0 q None (q <| q_journal := finishInitialization err j' |> <| q_init := InitFinished |>)
| st_vote q v r j' s' :
    j_ready (q_journal q) = true -> sized_vote v -> no_collision R0 q v ->
    Z.of_nat (length R0 + length (q_called q)) < 2 ^ 63 - 1 ->
    SaveOurVote v (q_journal q) (q_store q) = Some (r, j', s') ->
    step R0 q (Some (CallVote v)) (after_call q (CallVote v) r j' s' <| q_called := q_called q ++ [v] |>)
| st_certificate q c r j' s' :
    j_ready (q_journal q) = true -> wf_cert c -> (length (cert_Signatures c) <= maxSignatures)%nat ->
    SaveCertificate c (q_journal q) (q_store q) = Some (r, j', s') ->
    step R0 q (Some (CallCertificate c)) (after_call q (CallCertificate c) r j' s')
| st_window q w r j' s' :
    j_ready (q_journal q) = true -> is_u32 w ->
    SaveFirstNonAnnouncedWindow w (q_journal q) (q_store q) = Some (r, j', s') ->
    step R0 q (Some (CallWindow w)) (after_call q (CallWindow w) r j' s')
| st_bootstrap q r j' :
    j_ready (q_journal q) = true -> Bootstrap (is_closed q) (q_db q) (q_journal q) = Some (r, j') ->
    step R0 q None (q <| q_journal := j' |>)
| st_other q rq client st' :
    respects session ns (rq_apply rq) -> rq_done rq = DoneOther client -> submit rq (q_st q) = (Ok tt, st') ->
    step R0 q None (q <| q_store := q_store q <| v_store := st' |> |> <| q_hist := submitted q (q_store q <| v_store := st' |>) |>)
| st_round q avail rqs carried queue st' fl :
    take_batch avail (q_st q) = Some (rqs, carried, queue) -> writer_round avail (q_st q) = Some st' ->
    last (s_inflight st') = Some fl ->
    (q_failed q = true -> fl_fatal fl <> None /\ versions (s_db st') = versions (q_db q)) ->
    step R0 q None (q <| q_store := q_store q <| v_store := st' |> |>
      <| q_hist := mkHistory (h_submitted (q_hist q)) (h_batches (q_hist q) ++ [rqs]) (h_dbs (q_hist q) ++ [s_db st']) (h_ran (q_hist q)) |>
      <| q_failed := q_failed q || bool_decide (is_Some (fl_fatal fl)) |>)
| st_wait q i st' fl fl' :
    wait_log i (q_st q) = Some st' -> s_inflight (q_st q) !! i = Some fl -> s_inflight st' !! i = Some fl' ->
    fl_fatal fl' = fl_fatal fl ->
    step R0 q None (q <| q_store := q_store q <| v_store := st' |> |>)
| st_done q i d r st' j' completion :
    run_callback i (q_st q) = Some ((d, r), st') -> journal_done d r (q_journal q) = (j', completion) ->
    step R0 q None (q <| q_store := q_store q <| v_store := st' |> |> <| q_journal := j' |>
      <| q_init := match d, q_init q with DoneInit, InitWaiting => InitResult r | _, i => i end |>
      <| q_hist := mkHistory (h_submitted (q_hist q)) (h_batches (q_hist q)) (h_dbs (q_hist q)) (h_ran (q_hist q) ++ [(i, (d, r))]) |>
      <| q_completed := q_completed q ++ option_list completion |>)
| st_close q :
    step R0 q None (q <| q_store := q_store q <| v_store := Close (q_st q) |> |>).

(** A process that opened the database [db0]. *)
Definition initial (db0 : DB) (w0 : W) : system W :=
  mkSystem (mkValidatorStore (openStore db0 w0) ∅ ∅ ∅) (newJournal session ns maxSignatures) InitNotStarted
    (mkHistory [] [] [] []) [] [] false.
Definition system_reachable (R0 : list record) (db0 : DB) (w0 : W) q : Prop :=
  rtc (fun q q' => exists call, step R0 q call q') (initial db0 w0) q.
End System.
#[local] Arguments submitted : simpl never.

(** ** Requests of the system *)

Section Requests.
Context `{TLLaws} `{PebbleLaws} {W : Type} (session : SessionStorageID) (ns : bytes) (maxSignatures : nat).
Hypothesis Hns : bytes_ok ns.
Implicit Types (rq : writeRequest W done) (q : system W).

(** The request saves the record. *)
Inductive saves rq : record -> Prop :=
| saves_vote v s k x h :
    rec_row ns (RVote v s) k x -> OurVoteRecordHash v = Some h ->
    rq = mkRequest (saveOurVote_body session ns k x) (DoneReserved h (CallVote v)) 0 durableCommitment -> saves rq (RVote v s)
| saves_cert c k x h :
    rec_row ns (RCert c) k x -> CertificateRecordHash c = Some h ->
    rq = mkRequest (saveCertificate_body session ns k x) (DoneReserved h (CallCertificate c)) 0 restartRecoverable ->
    saves rq (RCert c).
Definition silent rq : Prop := respects session ns (rq_apply rq) /\ forall h c, rq_done rq <> DoneReserved h c.

(** The records a list of requests saves, in order. *)
Inductive produces : list (writeRequest W done) -> list record -> Prop :=
| produces_nil : produces [] []
| produces_record rq r rqs P : saves rq r -> produces rqs P -> produces (rq :: rqs) (r :: P)
| produces_silent rq rqs P : silent rq -> produces rqs P -> produces (rq :: rqs) P.
Definition known rq : Prop := silent rq \/ exists r, saves rq r.

Lemma produces_app a b P P' : produces a P -> produces b P' -> produces (a ++ b) (P ++ P').
Proof. induction 1; simpl; [done|constructor; auto|intros; apply produces_silent; auto]. Qed.
Lemma produces_app_inv a b P : produces (a ++ b) P -> exists P1 P2, P = P1 ++ P2 /\ produces a P1 /\ produces b P2.
Proof.
  revert P. induction a as [|rq a IH]; intros P; simpl; [exists [], P; split_and!; [done|constructor|done]|].
  inversion 1 as [|? r ? P' Hs Hp|? ? ? Hs Hp]; subst; apply IH in Hp as (P1 & P2 & -> & H1' & H2').
  - exists (r :: P1), P2. split_and!; [done|by constructor|done].
  - exists P1, P2. split_and!; [done|by apply produces_silent|done].
Qed.
Lemma produces_vote rqs P rq h v :
  produces rqs P -> rq ∈ rqs -> rq_done rq = DoneReserved h (CallVote v) -> exists s, RVote v s ∈ P.
Proof.
  induction 1 as [|rq' r' rqs P Hs _ IH|rq' rqs P [_ Hs] _ IH]; intros Hin Hd; [by apply elem_of_nil in Hin|..];
    apply elem_of_cons in Hin as [<-|Hin].
  - destruct Hs as [v' s k x h' _ _ ->|c k x h' _ _ ->]; simplify_eq/=. exists s. by left.
  - destruct (IH Hin Hd) as [s Hs']. exists s. by right.
  - by destruct (Hs h (CallVote v)).
  - by apply IH.
Qed.
Lemma produces_known rqs P : produces rqs P -> Forall known rqs.
Proof. induction 1; constructor; try done; [right; by eexists|by left]. Qed.

Lemma known_local rq : known rq -> batch_local rq.
Proof.
  intros [[[Hl _] _]|[r [v s k x h _ _ ->|c k x h _ _ ->]]]; [exact Hl|..]; simpl;
    (apply tx_local_bind; [apply tx_local_ensureSession|intros; unfold saveSessionSummary; tx_local_auto]).
Qed.
Lemma known_vote rq h v : known rq -> rq_done rq = DoneReserved h (CallVote v) -> rq_durability rq = durableCommitment.
Proof. intros [[_ Hs]|[r [v' s k x h' _ _ ->|c k x h' _ _ ->]]] E; [by destruct (Hs h (CallVote v))|done|done]. Qed.

(** A batch of such requests, on a state that holds [D]: unless it fails it adds
    the records, and no record request is refused. *)
Lemma apply_loop_records rqs P D (s : Batch * W) results fatal s' :
  produces rqs P -> Forall (wf_record maxSignatures) (D ++ P) -> NoDup (rec_hash <$> (D ++ P)) ->
  journal_ok session ns (view s.1) D -> apply_loop rqs s = (results, fatal, s') -> fatal = None ->
  journal_ok session ns (view s'.1) (D ++ P) /\
  Forall2 (fun rq res => forall h c, rq_done rq = DoneReserved h c -> res = None) rqs results.
Proof.
  intros Hp. revert D s results s'. induction Hp as [|rq r rqs P Hs _ IH|rq rqs P [[_ Hs] Hn] _ IH]; intros D s results s' Hwf Hnd Hj; simpl.
  { intros [= <- <- <-] _. rewrite app_nil_r. by split. }
  - assert (tx_spec (fun m => journal_ok session ns m D) (rq_apply rq)
      (fun _ m => journal_ok session ns m (D ++ [r])) (fun _ => False)) as Hspec.
    { apply Forall_app in Hwf as [HD [Hr _]%Forall_cons]. rewrite fmap_app, fmap_cons in Hnd.
      apply NoDup_app in Hnd as (_ & Hnd & _).
      assert (rec_hash r ∉ rec_hash <$> D) by (intros Hin; apply (Hnd _ Hin); by left).
      destruct Hs as [v sq k x h Hrow _ ->|c k x h Hrow _ ->]; simpl;
        [eapply saveOurVote_spec|eapply saveCertificate_spec]; eauto. }
    specialize (Hspec s Hj). destruct (rq_apply rq s) as [[[]|[e|e]] s1]; [|done|by intros [= <- <- <-]].
    destruct (apply_loop rqs s1) as [[rs f] s2] eqn:E. intros [= <- <- <-] ->.
    rewrite (cons_middle r D P), app_assoc in Hwf, Hnd. destruct (IH (D ++ [r]) s1 rs s2 Hwf Hnd Hspec E eq_refl) as [Hj' Hf].
    rewrite <- app_assoc in Hj'. split; [done|]. by constructor.
  - specialize (Hs D s Hj). destruct (rq_apply rq s) as [[u|[e|e]] s1]; [| |by intros [= <- <- <-]].
    all: destruct (apply_loop rqs s1) as [[rs f] s2] eqn:E; intros [= <- <- <-] ->;
      destruct (IH D s1 rs s2 Hwf Hnd Hs E eq_refl) as [Hj' Hf]; (split; [done|]);
      constructor; [intros h c Hd; by destruct (Hn h c)|done].
Qed.

Lemma commit_records rqs P D db w fl db' w' :
  produces rqs P -> Forall (wf_record maxSignatures) (D ++ P) -> NoDup (rec_hash <$> (D ++ P)) ->
  journal_ok session ns (contents db) D -> commitRequests rqs db w = (fl, db', w') ->
  extends db db' /\
  (versions db' = versions db \/ exists m, versions db' = versions db ++ [m] /\ journal_ok session ns m (D ++ P)) /\
  (fl_fatal fl = None -> journal_ok session ns (contents db') (D ++ P) /\
    forall h c r, (DoneReserved h c, r) ∈ fl_done fl -> r = None).
Proof.
  intros Hp Hwf Hnd Hj Hc. split.
  { pose proof (commitRequests_extends rqs db w) as He. rewrite Hc in He. apply He.
    eapply Forall_impl; [by eapply produces_known|]. intros rq. apply known_local. }
  unfold commitRequests in Hc. destruct (apply_loop rqs _) as [[results fatal] [b w2]] eqn:E.
  assert (base b = contents db) as Hb.
  { pose proof (apply_loop_base rqs (NewIndexedBatch db, w)) as Hl. rewrite E in Hl. simpl in Hl. rewrite Hl; [apply law_new|].
    intros rq s Hin. apply produces_known in Hp. rewrite Forall_forall in Hp. by apply known_local, Hp. }
  destruct fatal as [e|]; [injection Hc as <- <- <-; split; [by left|done]|].
  destruct (apply_loop_records _ _ D (NewIndexedBatch db, w) _ _ _ Hp Hwf Hnd Hj E eq_refl) as [Hj' Hf]. cbn [fst] in Hj'.
  assert (forall h c r, (DoneReserved h c, r) ∈ zip (rq_done <$> rqs) results -> r = None) as Hres.
  { intros h c r Hin. apply list_elem_of_lookup in Hin as [i Hi]. apply lookup_zip_Some in Hi as [Hd Hr].
    apply list_lookup_fmap_Some in Hd as (rq & Hd & Hrq). by eapply (Forall2_lookup_lr _ _ _ _ _ _ Hf Hrq Hr h c). }
  destruct (batch_Empty b) eqn:Eb.
  - injection Hc as <- <- <-. split; [by left|]. intros _. split; [|done]. simpl. rewrite <- Hb, <- (law_empty b Eb). done.
  - destruct (batch_Commit db b) as [ok db2] eqn:Ec. injection Hc as <- <- <-. destruct ok; simpl.
    + apply law_commit in Ec as [Ev _]; [|rewrite Hb; apply contents_last]. split; [right; by exists (view b)|].
      intros _. split; [|done]. rewrite (contents_unique db2 (view b)); [done|]. rewrite Ev. apply last_snoc.
    + apply law_commit_failed in Ec as [[Ev|Ev] _]; (split; [|done]); [by left|right; by exists (view b)].
Qed.
End Requests.

(** ** What a call does *)

Section Calls.
Context `{TLLaws} `{PebbleLaws} {W : Type}.
Implicit Types (s : ValidatorStore W) (j : journal).

Definition gates_open s : Prop := v_deleting s = ∅ /\ v_deleted s = ∅.

Lemma submit_cases (rq : writeRequest W done) st r st' :
  submit rq st = (r, st') ->
  s_isClosed st = false /\ r = Ok tt \/ s_isClosed st = true /\ r = Err ErrStorageClosed /\ st' = st.
Proof. unfold submit, submitContext. simpl. destruct (s_isClosed st); intros E; [right|left]; by simplify_eq/=. Qed.
Lemma submit_queue (rq : writeRequest W done) st st' : submit rq st = (Ok tt, st') ->
  s_queue st' = s_queue st ++ [rq] /\ s_carried st' = s_carried st /\ s_db st' = s_db st /\ s_inflight st' = s_inflight st /\
  s_isClosed st' = s_isClosed st.
Proof. unfold submit, submitContext. simpl. destruct (s_isClosed st) eqn:Ec; [done|]. by intros [= <-]. Qed.

Lemma gate_leave_fields ns s :
  v_store (gate_leave ns s) = v_store s /\ v_deleting (gate_leave ns s) = v_deleting s /\ v_deleted (gate_leave ns s) = v_deleted s.
Proof. unfold gate_leave. by destruct (v_admitting s !! ns) as [[|[|n]]|]. Qed.

Lemma submitSession_cases ns rq s r s' :
  gates_open s -> submitSession ns rq s = (r, s') ->
  gates_open s' /\ submit rq (v_store s) = (r, v_store s').
Proof.
  intros [Ha Hb]. unfold submitSession, submitSessionContext, gate_enter, gates_open. rewrite Ha, Hb.
  rewrite !bool_decide_false by set_solver. cbn [orb v_store assign]. unfold submit.
  destruct (submitContext false true rq (v_store s)) as [r1 st] eqn:E. intros E0.
  destruct (gate_leave_fields ns (s <| v_admitting := <[ns:=S (default 0%nat (v_admitting s !! ns))]> (v_admitting s) |> <| v_store := st |>))
    as (E1 & E2 & E3). injection E0 as -> <-. by rewrite E1, E2, E3.
Qed.

(** The journal answered without touching anything, or the store is closed. *)
Definition refused q_closed j (r : option store_error) j' : Prop :=
  r <> None /\ (stateErrorLocked j <> None \/ q_closed = true) /\
  j_session j' = j_session j /\ j_namespace j' = j_namespace j /\ j_maxSignatures j' = j_maxSignatures j /\
  j_initErr j' = j_initErr j /\ j_ready j' = j_ready j /\ j_isDeleted j' = j_isDeleted j /\
  j_reserved j' = j_reserved j /\ (is_i64 (j_nextSeq j) -> j_nextSeq j' = j_nextSeq j).

Lemma i64_back n : is_i64 n -> i64 (i64 (n + 1) - 1) = n.
Proof.
  unfold is_i64. intros Hn. destruct (decide (n = 2 ^ 63 - 1)) as [->|]; [reflexivity|].
  rewrite (i64_small (n + 1)) by (unfold is_i64; lia). rewrite i64_small by (unfold is_i64; lia). lia.
Qed.

Lemma SaveOurVote_cases v j s r j' s' :
  gates_open s -> SaveOurVote v j s = Some (r, j', s') ->
  gates_open s' /\ exists h, OurVoteRecordHash v = Some h /\
  (refused (s_isClosed (v_store s)) j r j' /\ v_store s' = v_store s \/
   stateErrorLocked j = None /\ h ∈ j_reserved j /\ r = Some ErrAlreadySaved /\ j' = j /\ v_store s' = v_store s \/
   stateErrorLocked j = None /\ h ∉ j_reserved j /\ r = None /\
   j' = j <| j_nextSeq := i64 (j_nextSeq j + 1) |> <| j_reserved := {[h]} ∪ j_reserved j |> /\
   exists rk x, VoteRecordKey h = Some rk /\ EncodeOurVoteRecord v (j_nextSeq j) = Some x /\
     submit (mkRequest (saveOurVote_body (j_session j) (j_namespace j) (voteKey (j_namespace j) rk) x)
       (DoneReserved h (CallVote v)) 0 durableCommitment) (v_store s) = (Ok tt, v_store s')).
Proof.
  intros Hg. unfold SaveOurVote. intros (h & Eh & Hr)%bind_Some. destruct (stateErrorLocked j) as [e|] eqn:Ee.
  { injection Hr as <- <- <-. split; [done|]. exists h. split; [done|]. left. unfold refused. by split_and!; try (by left; rewrite Ee). }
  destruct (bool_decide_reflect (h ∈ j_reserved j)) as [Hin|Hin].
  { injection Hr as <- <- <-. split; [done|]. exists h. split; [done|]. right. left. done. }
  apply bind_Some in Hr as (key & Ek & Hr). apply bind_Some in Hr as (x & Ex & Hr).
  apply fmap_Some in Ek as (rk & Ek & ->). cbn [j_namespace j_session assign] in *.
  destruct (submitSession _ _ s) as [r1 s1] eqn:Es. apply submitSession_cases in Es as [Hg1 Es]; [|done].
  pose proof (submit_cases _ _ _ _ Es) as Hc. destruct r1 as [[]|e]; injection Hr as <- <- <-; (split; [done|]); exists h; (split; [done|]).
  - right. right. split_and!; [done..|]. exists rk, x. by split_and!.
  - left. destruct Hc as [[_ ?]|(Hcl & [= ->] & ->)]; [done|]. split; [|done]. unfold refused. simpl. split_and!; try done; [by right|set_solver|].
    apply i64_back.
Qed.

Lemma SaveCertificate_cases c j s r j' s' :
  gates_open s -> SaveCertificate c j s = Some (r, j', s') ->
  gates_open s' /\ exists h, CertificateRecordHash c = Some h /\
  (refused (s_isClosed (v_store s)) j r j' /\ v_store s' = v_store s \/
   stateErrorLocked j = None /\ h ∈ j_reserved j /\ r = Some ErrAlreadySaved /\ j' = j /\ v_store s' = v_store s \/
   stateErrorLocked j = None /\ h ∉ j_reserved j /\ r = None /\ j' = j <| j_reserved := {[h]} ∪ j_reserved j |> /\
   exists rk x, VoteRecordKey h = Some rk /\ EncodeCertificateRecord c = Some x /\
     submit (mkRequest (saveCertificate_body (j_session j) (j_namespace j) (voteKey (j_namespace j) rk) x)
       (DoneReserved h (CallCertificate c)) 0 restartRecoverable) (v_store s) = (Ok tt, v_store s')).
Proof.
  intros Hg. unfold SaveCertificate. intros (h & Eh & Hr)%bind_Some. destruct (stateErrorLocked j) as [e|] eqn:Ee.
  { injection Hr as <- <- <-. split; [done|]. exists h. split; [done|]. left. unfold refused. by split_and!; try (by left; rewrite Ee). }
  destruct (bool_decide_reflect (h ∈ j_reserved j)) as [Hin|Hin].
  { injection Hr as <- <- <-. split; [done|]. exists h. split; [done|]. right. left. done. }
  apply bind_Some in Hr as (key & Ek & Hr). apply bind_Some in Hr as (x & Ex & Hr).
  apply fmap_Some in Ek as (rk & Ek & ->). cbn [j_namespace j_session assign] in *.
  destruct (submitSession _ _ s) as [r1 s1] eqn:Es. apply submitSession_cases in Es as [Hg1 Es]; [|done].
  pose proof (submit_cases _ _ _ _ Es) as Hc. destruct r1 as [[]|e]; injection Hr as <- <- <-; (split; [done|]); exists h; (split; [done|]).
  - right. right. split_and!; [done..|]. exists rk, x. by split_and!.
  - left. destruct Hc as [[_ ?]|(Hcl & [= ->] & ->)]; [done|]. split; [|done]. unfold refused. simpl. split_and!; try done; [by right|set_solver].
Qed.

Lemma SaveWindow_cases w j s r j' s' :
  gates_open s -> SaveFirstNonAnnouncedWindow w j s = Some (r, j', s') ->
  gates_open s' /\ j' = j /\
  (r <> None /\ v_store s' = v_store s \/
   r = None /\ exists x, EncodePoolStateRecord w = Some x /\
     submit (mkRequest (saveWindow_body (j_session j) (j_namespace j) w x) (DoneWrite w) 0 restartRecoverable) (v_store s)
       = (Ok tt, v_store s')).
Proof.
  intros Hg. unfold SaveFirstNonAnnouncedWindow. destruct (stateErrorLocked j); [intros [= <- <- <-]; auto|].
  destruct (w =? 0); [intros [= <- <- <-]; auto|]. intros (x & Ex & Hr)%bind_Some.
  destruct (submitSession _ _ s) as [r1 s1] eqn:Es. apply submitSession_cases in Es as [Hg1 Es]; [|done].
  pose proof (submit_cases _ _ _ _ Es) as Hc. destruct r1 as [[]|e]; injection Hr as <- <- <-.
  - split_and!; [done|done|]. right. split; [done|]. by exists x.
  - destruct Hc as [[_ ?]|(Hcl & [= ->] & ->)]; [done|]. auto.
Qed.
End Calls.

(** ** The invariant *)

Section Invariant.
Context `{TLLaws} `{PebbleLaws} {W : Type} (session : SessionStorageID) (ns : bytes) (maxSignatures : nat).
Context (R0 : list record) (db0 : DB) (w0 : W).
Hypothesis Hns : bytes_ok ns.
Hypothesis Hsession : wf_session session.
Hypothesis Hvalid : SessionStorageID_Validate session = true.
Implicit Types (q : system W).

Notation step := (step session ns maxSignatures R0).
Notation known := (known session ns).
Notation journal_ok := (journal_ok session ns).

(** The store's own history, and whose journal it is. *)
Record base_inv q : Prop := {
  bi_runs : runs no_env db0 w0 (q_hist q) (q_st q);
  bi_gates : gates_open (q_store q);
  bi_session : j_session (q_journal q) = session;
  bi_namespace : j_namespace (q_journal q) = ns;
  bi_max : j_maxSignatures (q_journal q) = maxSignatures;
  bi_live : j_isDeleted (q_journal q) = false;
  bi_known : Forall known (h_submitted (q_hist q)) }.

Lemma submitted_none q s' : v_store s' = v_store (q_store q) -> submitted q s' = q_hist q.
Proof. intros E. unfold submitted. rewrite E, drop_all, app_nil_r. by destruct (q_hist q). Qed.
Lemma submitted_one q s' rq : submit rq (q_st q) = (Ok tt, v_store s') ->
  submitted q s' = mkHistory (h_submitted (q_hist q) ++ [rq]) (h_batches (q_hist q)) (h_dbs (q_hist q)) (h_ran (q_hist q)).
Proof. intros (E & _)%submit_queue. unfold submitted. by rewrite E, drop_app_length. Qed.

Lemma base_refused q r s' j' :
  base_inv q -> gates_open s' -> v_store s' = v_store (q_store q) -> j_session j' = session -> j_namespace j' = ns ->
  j_maxSignatures j' = maxSignatures -> j_isDeleted j' = false ->
  base_inv (q <| q_store := s' |> <| q_journal := j' |> <| q_hist := submitted q s' |> <| q_completed := r |>).
Proof. intros [] Hg E ? ? ? ?. rewrite (submitted_none _ _ E). constructor; simpl; rewrite ?E; done. Qed.
Lemma base_submitted q r s' j' rq :
  base_inv q -> gates_open s' -> submit rq (q_st q) = (Ok tt, v_store s') -> known rq -> j_session j' = session ->
  j_namespace j' = ns -> j_maxSignatures j' = maxSignatures -> j_isDeleted j' = false ->
  base_inv (q <| q_store := s' |> <| q_journal := j' |> <| q_hist := submitted q s' |> <| q_completed := r |>).
Proof.
  intros [] Hg E Hk ? ? ? ?. rewrite (submitted_one _ _ _ E). constructor; simpl; try done.
  - by eapply run_submit.
  - apply Forall_app. by split; [|constructor].
Qed.

(** The records of accepted calls. *)
Lemma accepted_vote q v h rk x :
  base_inv q -> OurVoteRecordHash v = Some h -> VoteRecordKey h = Some rk -> EncodeOurVoteRecord v (j_nextSeq (q_journal q)) = Some x ->
  saves session ns (W := W) (mkRequest (saveOurVote_body (j_session (q_journal q)) (j_namespace (q_journal q))
    (voteKey (j_namespace (q_journal q)) rk) x) (DoneReserved h (CallVote v)) 0 durableCommitment) (RVote v (j_nextSeq (q_journal q))).
Proof.
  intros [_ _ E1 E2 _ _ _] Eh Ek Ex. rewrite E1, E2. econstructor; [|exact Eh|reflexivity]. exists h, rk. done.
Qed.
Lemma accepted_cert q c h rk x :
  base_inv q -> CertificateRecordHash c = Some h -> VoteRecordKey h = Some rk -> EncodeCertificateRecord c = Some x ->
  saves session ns (W := W) (mkRequest (saveCertificate_body (j_session (q_journal q)) (j_namespace (q_journal q))
    (voteKey (j_namespace (q_journal q)) rk) x) (DoneReserved h (CallCertificate c)) 0 restartRecoverable) (RCert c).
Proof.
  intros [_ _ E1 E2 _ _ _] Eh Ek Ex. rewrite E1, E2. econstructor; [|exact Eh|reflexivity]. exists h, rk. done.
Qed.
Lemma window_silent q w x :
  base_inv q -> is_u32 w -> EncodePoolStateRecord w = Some x ->
  silent session ns (W := W) (mkRequest (saveWindow_body (j_session (q_journal q)) (j_namespace (q_journal q)) w x)
    (DoneWrite w) 0 restartRecoverable).
Proof. intros [_ _ E1 E2 _ _ _] Hw Ex. rewrite E1, E2. split; [by apply saveWindow_respects|done]. Qed.

Lemma journal_done_fields d r j j' completion : journal_done d r j = (j', completion) ->
  j_session j' = j_session j /\ j_namespace j' = j_namespace j /\ j_maxSignatures j' = j_maxSignatures j /\
  j_isDeleted j' = j_isDeleted j /\ j_ready j' = j_ready j /\ j_initErr j' = j_initErr j /\ j_nextSeq j' = j_nextSeq j.
Proof.
  destruct d; simpl; intros [= <- <-]; [| |done..]; unfold finishReserved, finishWrite; destruct r as [[]|]; done.
Qed.
Lemma recover_fields closed db g j err j' : recoverReservations closed db g j = Some (err, j') ->
  j_session j' = j_session j /\ j_namespace j' = j_namespace j /\ j_maxSignatures j' = j_maxSignatures j /\
  j_isDeleted j' = j_isDeleted j /\ j_initErr j' = j_initErr j.
Proof.
  unfold recoverReservations. intros (r & _ & Hr)%bind_Some. destruct r as [[[st res] n]|e]; simplify_eq; [|done].
  unfold bootstrap_end. by case_match.
Qed.
Lemma Bootstrap_fields closed db j r j' : Bootstrap closed db j = Some (r, j') -> exists b, j' = j <| j_bootstrap := b |>.
Proof.
  unfold Bootstrap. assert (exists b, j = j <| j_bootstrap := b |>) as Hj by (exists (j_bootstrap j); by destruct j).
  destruct (bootstrap_begin closed db j) as [[[c|] g]|e]; [by intros [= <- <-]| |by intros [= <- <-]].
  intros (x & _ & Hr)%bind_Some. destruct x as [[[st res] n]|e]; simplify_eq; [|done]. unfold bootstrap_end.
  case_match; [by eexists|done].
Qed.

Lemma base_vote q v r j' s' :
  base_inv q -> SaveOurVote v (q_journal q) (q_store q) = Some (r, j', s') -> base_inv (after_call q (CallVote v) r j' s').
Proof.
  intros Hb Hc. pose proof Hb as [_ Hg E1 E2 E3 E4 _]. apply SaveOurVote_cases in Hc as (Hg' & h & Eh & Hc); [|done]. unfold after_call.
  destruct Hc as [[(_ & _ & ? & ? & ? & _ & _ & ? & _) Es]|[(_ & _ & -> & -> & Es)|(_ & _ & -> & -> & rk & x & Ek & Ex & Hs)]].
  - apply base_refused; congruence || done.
  - apply base_refused; done.
  - eapply base_submitted; [done|done|exact Hs|right; eexists; by eapply accepted_vote|done..].
Qed.
Lemma base_certificate q c r j' s' :
  base_inv q -> SaveCertificate c (q_journal q) (q_store q) = Some (r, j', s') -> base_inv (after_call q (CallCertificate c) r j' s').
Proof.
  intros Hb Hc. pose proof Hb as [_ Hg E1 E2 E3 E4 _]. apply SaveCertificate_cases in Hc as (Hg' & h & Eh & Hc); [|done]. unfold after_call.
  destruct Hc as [[(_ & _ & ? & ? & ? & _ & _ & ? & _) Es]|[(_ & _ & -> & -> & Es)|(_ & _ & -> & -> & rk & x & Ek & Ex & Hs)]].
  - apply base_refused; congruence || done.
  - apply base_refused; done.
  - eapply base_submitted; [done|done|exact Hs|right; eexists; by eapply accepted_cert|done..].
Qed.
Lemma base_window q w r j' s' : is_u32 w ->
  base_inv q -> SaveFirstNonAnnouncedWindow w (q_journal q) (q_store q) = Some (r, j', s') -> base_inv (after_call q (CallWindow w) r j' s').
Proof.
  intros Hw Hb Hc. pose proof Hb as [_ Hg E1 E2 E3 E4 _]. apply SaveWindow_cases in Hc as (Hg' & -> & Hc); [|done]. unfold after_call.
  destruct Hc as [[_ Es]|[_ (x & Ex & Hs)]]; [apply base_refused; done|].
  eapply base_submitted; [done|done|exact Hs|left; by eapply window_silent|done..].
Qed.

Lemma step_base q call q' : base_inv q -> step q call q' -> base_inv q'.
Proof.
  intros Hb Hs. revert Hb. destruct Hs as [q s' r _ Hs|q e _|q err j' _ Hs|q v r j' s' _ _ _ _ Hs|q c r j' s' _ _ _ Hs|q w r j' s' _ Hw Hs
    |q r j' _ Hs|q rq client st' Hre Hd Hs|q avail rqs carried queue st' fl Ht Hs _ _|q i st' fl fl' Hs _ _ _|q i d r st' j' completion Hs Hd|q];
    intros Hb; pose proof Hb as [Hr Hg E1 E2 E3 E4 Hk].
  - apply submitSession_cases in Hs as [Hg' Hs]; [|done]. destruct (submit_cases _ _ _ _ Hs) as [[_ ->]|(_ & -> & Es)].
    + rewrite (submitted_one _ _ _ Hs). constructor; simpl; try done; [by eapply run_submit|].
      apply Forall_app. split; [done|]. constructor; [left; split; [by apply initialize_respects|done]|done].
    + rewrite (submitted_none _ _ Es). constructor; simpl; rewrite ?Es; done.
  - by constructor.
  - apply recover_fields in Hs as (? & ? & ? & ? & ?). constructor; simpl; try done; destruct err; simpl; congruence.
  - pose proof (base_vote _ _ _ _ _ Hb Hs) as []. by constructor.
  - by eapply base_certificate.
  - by eapply base_window.
  - apply Bootstrap_fields in Hs as [b ->]. by constructor.
  - assert (submit rq (q_st q) = (Ok tt, v_store (q_store q <| v_store := st' |>))) as Hs' by exact Hs.
    rewrite (submitted_one _ _ _ Hs'). constructor; simpl; try done; [by eapply run_submit|].
    apply Forall_app. split; [done|]. constructor; [left; split; [done|by rewrite Hd]|done].
  - constructor; simpl; try done. by eapply run_round.
  - constructor; simpl; try done. by eapply run_wait.
  - apply journal_done_fields in Hd as (? & ? & ? & ? & _). constructor; simpl; try congruence; [|done]. by eapply run_done.
  - constructor; simpl; try done. by apply run_close.
Qed.

Notation produces := (produces session ns).

(** The states of the database against the records: each holds a prefix of them,
    a later state a longer one. *)
Record cuts_ok (db : DB) (R : list record) (cuts : list nat) : Prop := {
  cu_rows : Forall2 (fun m n => journal_ok m (take n R)) (versions db) cuts;
  cu_mono : forall i j a b, (i <= j)%nat -> cuts !! i = Some a -> cuts !! j = Some b -> (a <= b)%nat;
  cu_range : Forall (fun n => (length R0 <= n <= length R)%nat) cuts }.

(** What is known of the callbacks of a batch that left the database [dbi]. *)
Record fl_inv (R : list record) (dbi : DB) (fl : inflight done) : Prop := {
  fi_fatal : fl_ready fl = true -> fl_fatal fl <> None -> Forall (fun p => p.2 <> None) (fl_done fl);
  fi_class : forall h v r, (DoneReserved h (CallVote v), r) ∈ fl_done fl -> fl_class fl = durableCommitment;
  fi_rows : fl_fatal fl = None -> forall h v, (DoneReserved h (CallVote v), None) ∈ fl_done fl ->
    exists s k x, RVote v s ∈ R /\ rec_row ns (RVote v s) k x /\ contents dbi !! k = Some x }.

(** The votes saved: those of the records are the calls up to some point. *)
Definition saved_votes (R : list record) (calls : list Vote) : Prop :=
  (votes_of R).*2 = journal_of ((votes_of R0).*2 ++ calls).
Definition refusing q : Prop := is_closed q = true \/ stateErrorLocked (q_journal q) <> None.

(** While no batch has failed: the records not in the database are those of the
    pending requests, and the journal has reserved them all. *)
Record live_inv q (R : list record) (cuts : list nat) : Prop := {
  li_pending : exists D P, R = D ++ P /\ journal_ok (contents (q_db q)) D /\ last cuts = Some (length D) /\
    produces (option_list (s_carried (q_st q)) ++ s_queue (q_st q)) P;
  li_inflight : Forall (fun fl => fl_fatal fl = None /\ forall h c r, (DoneReserved h c, r) ∈ fl_done fl -> r = None)
    (s_inflight (q_st q));
  li_called : exists a, (a <= length (q_called q))%nat /\ saved_votes R (take a (q_called q)) /\
    (a = length (q_called q) \/ refusing q);
  li_ready : j_ready (q_journal q) = true -> stateErrorLocked (q_journal q) = None ->
    j_reserved (q_journal q) = list_to_set (omap rec_hash R) /\ j_nextSeq (q_journal q) = Z.of_nat (length (votes_of R));
  li_unready : j_ready (q_journal q) = false -> R = R0 }.

Record main_inv q (R : list record) (cuts : list nat) : Prop := {
  mi_wf : wf_records maxSignatures R;
  mi_prefix : R0 `prefix_of` R;
  mi_init : j_ready (q_journal q) = true -> q_init q = InitFinished;
  mi_called : j_ready (q_journal q) = false -> q_called q = [];
  mi_sub : forall r, r ∈ R -> r ∈ R0 \/ exists rq, rq ∈ h_submitted (q_hist q) /\ saves session ns rq r;
  mi_cuts : cuts_ok (q_db q) R cuts;
  mi_votes : exists a, (a <= length (q_called q))%nat /\ saved_votes R (take a (q_called q));
  mi_fl : forall i dbi fl, h_dbs (q_hist q) !! i = Some dbi -> s_inflight (q_st q) !! i = Some fl -> fl_inv R dbi fl;
  mi_done : forall v, (CallVote v, None) ∈ q_completed q ->
    exists k n, (k <= stable (q_db q))%nat /\ cuts !! k = Some n /\ v ∈ (votes_of (take n R)).*2;
  mi_live : q_failed q = false -> live_inv q R cuts }.

(** A step that touches neither the database nor the callbacks. *)
Lemma main_frame q q' R cuts :
  main_inv q R cuts -> (j_ready (q_journal q') = true -> q_init q' = InitFinished) ->
  (j_ready (q_journal q') = false -> q_called q' = []) ->
  h_submitted (q_hist q) ⊆ h_submitted (q_hist q') -> h_dbs (q_hist q') = h_dbs (q_hist q) ->
  q_db q' = q_db q -> s_inflight (q_st q') = s_inflight (q_st q) -> q_called q `prefix_of` q_called q' ->
  (forall v, (CallVote v, None) ∈ q_completed q' -> (CallVote v, None) ∈ q_completed q) ->
  q_failed q' = q_failed q -> (q_failed q = false -> live_inv q' R cuts) -> main_inv q' R cuts.
Proof.
  intros [I1 I2 I3 I4 I5 I6 [a [Ha I7]] I8 I9 I10] Hi Hca Hsub Hdbs Hdb Hfl Hc Hcomp Hf Hl.
  constructor; rewrite ?Hdb, ?Hdbs, ?Hfl, ?Hf; auto.
  - intros r [?|(rq & Hin & Hs)]%I5; [by left|right]. exists rq. split; [by apply Hsub|done].
  - destruct Hc as [more ->]. exists a. rewrite length_app, take_app_le by lia. split; [lia|done].
Qed.

Lemma votes_of_app R R' : votes_of (R ++ R') = votes_of R ++ votes_of R'.
Proof. unfold votes_of. by rewrite omap_app. Qed.
Lemma length_votes_of R : (length (votes_of R) <= length R)%nat.
Proof. induction R as [|[v s|c] R IH]; [done|..]; unfold votes_of in *; csimpl; lia. Qed.
Lemma length_journal_of V : (length (journal_of V) <= length V)%nat.
Proof.
  induction V as [|v V IH] using rev_ind; [done|]. unfold journal_of in *. rewrite foldl_app, length_app. simpl.
  unfold journal_add at 1. case_decide; [lia|]. rewrite length_app. simpl. lia.
Qed.
Lemma saved_votes_snoc_old R calls v : saved_votes R calls -> v ∈ (votes_of R).*2 -> saved_votes R (calls ++ [v]).
Proof.
  unfold saved_votes. intros E Hv. rewrite app_assoc. unfold journal_of at 1. rewrite foldl_app. simpl.
  fold (journal_of ((votes_of R0).*2 ++ calls)). unfold journal_add. rewrite <- E. by rewrite decide_True.
Qed.
Lemma saved_votes_snoc_new R calls v s :
  saved_votes R calls -> v ∉ (votes_of R).*2 -> saved_votes (R ++ [RVote v s]) (calls ++ [v]).
Proof.
  unfold saved_votes. intros E Hv. rewrite app_assoc. unfold journal_of at 1. rewrite foldl_app. simpl.
  fold (journal_of ((votes_of R0).*2 ++ calls)). unfold journal_add. rewrite <- E, decide_False by done.
  by rewrite votes_of_app, fmap_app.
Qed.
Lemma saved_votes_cert R calls c : saved_votes R calls -> saved_votes (R ++ [RCert c]) calls.
Proof. unfold saved_votes. intros E. rewrite votes_of_app, fmap_app. simpl. by rewrite app_nil_r. Qed.

Lemma elem_of_votes R v : v ∈ (votes_of R).*2 <-> exists s, RVote v s ∈ R.
Proof.
  unfold votes_of. rewrite list_elem_of_fmap. split.
  - intros ([s w] & -> & Hin). apply list_elem_of_omap in Hin as ([w' s'|c] & Hr & E); simplify_eq/=. by exists s.
  - intros [s Hs]. exists (s, v). split; [done|]. apply list_elem_of_omap. by exists (RVote v s).
Qed.
Lemma elem_of_hashes R h : h ∈@{gset bytes} list_to_set (omap rec_hash R) <-> exists r, r ∈ R /\ rec_hash r = Some h.
Proof. rewrite elem_of_list_to_set, list_elem_of_omap. done. Qed.

(** Adding a record at the end of the list. *)
Lemma cuts_ok_snoc db R cuts r : cuts_ok db R cuts -> cuts_ok db (R ++ [r]) cuts.
Proof.
  intros [H1' H2' H3']. constructor; [|done|].
  - apply Forall2_same_length_lookup. split; [by eapply Forall2_length|]. intros i m n Hm Hn.
    rewrite take_app_le; [by eapply (Forall2_lookup_lr _ _ _ _ _ _ H1')|]. rewrite Forall_forall in H3'.
    by apply H3', list_elem_of_lookup_2 with i.
  - eapply Forall_impl; [exact H3'|]. intros n. rewrite length_app. simpl. lia.
Qed.
Lemma fl_inv_incl R R' dbi fl : (forall r, r ∈ R -> r ∈ R') -> fl_inv R dbi fl -> fl_inv R' dbi fl.
Proof.
  intros Hi [F1 F2 F3]. constructor; [done|done|]. intros Hf h v Hin. destruct (F3 Hf h v Hin) as (s & k & x & ? & ? & ?).
  exists s, k, x. auto.
Qed.
Lemma done_snoc db (cuts : list nat) R r (v : Vote) : cuts_ok db R cuts ->
  (exists k n, (k <= stable db)%nat /\ cuts !! k = Some n /\ v ∈ (votes_of (take n R)).*2) ->
  exists k n, (k <= stable db)%nat /\ cuts !! k = Some n /\ v ∈ (votes_of (take n (R ++ [r]))).*2.
Proof.
  intros [_ _ Hr] (k & n & Hk & Hc & Hv). exists k, n. split_and!; [done..|]. rewrite take_app_le; [done|].
  rewrite Forall_forall in Hr. by apply Hr, list_elem_of_lookup_2 with k.
Qed.

(** A record is accepted. *)
Lemma main_accept q q' R cuts r rq :
  main_inv q R cuts -> q_failed q = false -> wf_records maxSignatures (R ++ [r]) -> saves session ns rq r ->
  (j_ready (q_journal q') = true -> q_init q' = InitFinished) -> j_ready (q_journal q') = true ->
  submit rq (q_st q) = (Ok tt, v_store (q_store q')) -> q_hist q' = submitted q (q_store q') ->
  q_completed q' = q_completed q -> q_failed q' = q_failed q ->
  (j_reserved (q_journal q') = list_to_set (omap rec_hash (R ++ [r])) /\
   j_nextSeq (q_journal q') = Z.of_nat (length (votes_of (R ++ [r])))) ->
  saved_votes (R ++ [r]) (q_called q') -> main_inv q' (R ++ [r]) cuts.
Proof.
  intros [I1 I2 I3 I4 I5 I6 _ I8 I9 I10] Hf Hwf Hs Hi Hready Hsub Hh Hcomp Hf' Hj Hv.
  pose proof (submitted_one _ _ _ Hsub) as Esub. rewrite Esub in Hh. pose proof (submit_queue _ _ _ Hsub) as (Eq & Ec & Ed & Ei & Ecl).
  destruct (I10 Hf) as [(D & P & ER & HD & HcD & HP) L2 _ _ _].
  constructor; rewrite ?Hh, ?Ed, ?Ei, ?Hcomp; cbn [h_submitted h_dbs]; auto.
  - by apply prefix_app_r.
  - by rewrite Hready.
  - intros r' [Hr'|Hr']%elem_of_app; [|apply list_elem_of_singleton in Hr' as ->; right; exists rq; split; [set_solver|done]].
    destruct (I5 r' Hr') as [?|(rq' & Hin & ?)]; [by left|right]. exists rq'. split; [set_solver|done].
  - by apply cuts_ok_snoc.
  - exists (length (q_called q')). split; [done|]. by rewrite take_ge.
  - intros i dbi fl Hd Hfl. eapply fl_inv_incl; [|by eapply I8]. set_solver.
  - intros v Hin. eapply done_snoc; [done|by apply I9].
  - intros _. constructor; rewrite ?Ed, ?Ec, ?Eq, ?Ei; auto.
    + exists D, (P ++ [r]). split_and!; [by rewrite ER, app_assoc|done|done|]. rewrite app_assoc. apply produces_app; [done|].
      apply produces_record; [done|constructor].
    + exists (length (q_called q')). rewrite take_ge by done. auto.
    + by rewrite Hready.
Qed.

Lemma hash_distinct R r h : wf_records maxSignatures R -> rec_hash r = Some h -> h ∉@{gset bytes} list_to_set (omap rec_hash R) ->
  NoDup (rec_hash <$> (R ++ [r])).
Proof.
  intros [_ Hnd _] Eh Hn. rewrite fmap_app. apply NoDup_app. split_and!; [done| |apply NoDup_singleton].
  intros x Hx Hr. apply list_elem_of_fmap in Hx as (r' & -> & Hin). apply list_elem_of_singleton in Hr.
  apply Hn, elem_of_hashes. exists r'. by rewrite Hr.
Qed.
Lemma wf_records_vote R v s h :
  wf_records maxSignatures R -> sized_vote v -> s = Z.of_nat (length (votes_of R)) -> s < 2 ^ 63 - 1 ->
  OurVoteRecordHash v = Some h -> h ∉@{gset bytes} list_to_set (omap rec_hash R) -> wf_records maxSignatures (R ++ [RVote v s]).
Proof.
  intros Hwf Hv -> Hb Eh Hn. pose proof Hwf as [He Hnd Hnum]. constructor.
  - apply Forall_app. split; [done|]. constructor; [|done]. split; [done|lia].
  - by eapply hash_distinct.
  - by apply numbered_snoc.
Qed.
Lemma wf_records_cert R c h :
  wf_records maxSignatures R -> wf_cert c -> (length (cert_Signatures c) <= maxSignatures)%nat ->
  CertificateRecordHash c = Some h -> h ∉@{gset bytes} list_to_set (omap rec_hash R) -> wf_records maxSignatures (R ++ [RCert c]).
Proof.
  intros Hwf Hv Hb Eh Hn. pose proof Hwf as [He Hnd Hnum]. constructor.
  - apply Forall_app. split; [done|]. by constructor.
  - by eapply hash_distinct.
  - by apply numbered_cert.
Qed.

(** The journal refuses, or the record is already there: nothing is submitted. *)
Lemma main_unsubmitted q call r j' s' called' R cuts :
  main_inv q R cuts -> j_ready (q_journal q) = true -> j_ready j' = true -> v_store s' = v_store (q_store q) ->
  q_called q `prefix_of` called' -> (call <> call \/ r <> None) ->
  (q_failed q = false -> exists a, (a <= length called')%nat /\ saved_votes R (take a called') /\
    (a = length called' \/ is_closed q = true \/ stateErrorLocked j' <> None)) ->
  (q_failed q = false -> stateErrorLocked j' = None ->
    j_reserved j' = j_reserved (q_journal q) /\ j_nextSeq j' = j_nextSeq (q_journal q) /\ stateErrorLocked (q_journal q) = None) ->
  main_inv (after_call q call r j' s' <| q_called := called' |>) R cuts.
Proof.
  intros HI Hready Hready' Es Hpre Hr Hcalled Hj. eapply main_frame; [exact HI|..]; unfold after_call; simpl; try done.
  - intros _. by apply (mi_init _ _ _ HI).
  - by rewrite Hready'.
  - set_solver.
  - by rewrite Es.
  - by rewrite Es.
  - intros v. destruct r as [e|]; [|by destruct Hr]. rewrite elem_of_app, list_elem_of_singleton. naive_solver.
  - intros Hf. destruct (mi_live _ _ _ HI Hf) as [L1 L2 _ L4 _]. destruct (Hcalled Hf) as (a & Ha & Hv & Hs).
    constructor; simpl; rewrite ?Es; try done.
    + exists a. split_and!; [done..|]. unfold refusing, is_closed. simpl. rewrite Es. exact Hs.
    + intros _ Herr. destruct (Hj Hf Herr) as (-> & -> & E). by apply L4.
    + by rewrite Hready'.
Qed.

Lemma main_vote q v r j' s' R cuts :
  base_inv q -> main_inv q R cuts -> j_ready (q_journal q) = true -> sized_vote v -> no_collision R0 q v ->
  Z.of_nat (length R0 + length (q_called q)) < 2 ^ 63 - 1 ->
  SaveOurVote v (q_journal q) (q_store q) = Some (r, j', s') ->
  exists R', main_inv (after_call q (CallVote v) r j' s' <| q_called := q_called q ++ [v] |>) R' cuts.
Proof.
  intros Hb HI Hready Hv Hnc Hbound Hs. apply SaveOurVote_cases in Hs as (_ & h & Eh & Hc); [|apply Hb].
  assert (q_failed q = false -> stateErrorLocked (q_journal q) = None ->
    j_nextSeq (q_journal q) = Z.of_nat (length (votes_of R)) /\ Z.of_nat (length (votes_of R)) < 2 ^ 63 - 1) as Hseq.
  { intros Hf He. destruct (mi_live _ _ _ HI Hf) as [_ _ (a & Ha & Hsv & _) L4 _]. destruct (L4 Hready He) as [_ E]. split; [done|].
    apply (f_equal length) in Hsv. rewrite length_fmap in Hsv.
    pose proof (length_journal_of ((votes_of R0).*2 ++ take a (q_called q))) as Hl. rewrite length_app, length_fmap, length_take in Hl.
    pose proof (length_votes_of R0). lia. }
  destruct Hc as [[(Hr & Hwhy & _ & _ & _ & Eie & Erd & Edel & Eres & Enext) Es]|[(He & Hin & -> & -> & Es)|(He & Hin & -> & -> & rk & x & Ek & Ex & Hs)]].
  - exists R. assert (stateErrorLocked j' = stateErrorLocked (q_journal q)) as Ese by (unfold stateErrorLocked; by rewrite Eie, Edel).
    apply main_unsubmitted; [done|done|by rewrite Erd|done|by apply prefix_app_r|by right|..].
    + intros Hf. destruct (mi_live _ _ _ HI Hf) as [_ _ (a & Ha & Hsv & _) _ _]. exists a. rewrite length_app, take_app_le by done.
      split_and!; [lia|done|]. rewrite Ese. tauto.
    + intros Hf. rewrite Ese. intros He. split_and!; [done| |done]. apply Enext. destruct (Hseq Hf He) as [-> ?]. unfold is_i64. lia.
  - exists R. apply main_unsubmitted; [done|done|done|done|by apply prefix_app_r|by right|..]; [|done].
    intros Hf. destruct (mi_live _ _ _ HI Hf) as [_ _ (a & Ha & Hsv & Hend) L4 _]. destruct (L4 Hready He) as [Eres _].
    destruct Hend as [->|Hend].
    + exists (length (q_called q ++ [v])). rewrite take_ge in * by done. split_and!; [done| |by left]. apply saved_votes_snoc_old; [done|].
      rewrite Eres, elem_of_hashes in Hin. destruct Hin as (r & Hr & Ehr). destruct (Hnc h Eh) as [Hn0 Hn1]. apply elem_of_votes.
      destruct (mi_sub _ _ _ HI r Hr) as [H0'|(rq & Hrq & Hsv')].
      * destruct (Hn0 r H0' Ehr) as [s ->]. by exists s.
      * destruct Hsv' as [w s k x h' _ Eh' Erq|c k x h' _ Eh' Erq]; simpl in Ehr; simplify_eq;
          pose proof (Hn1 _ _ Hrq eq_refl) as Ecall; simplify_eq. by exists s.
    + exists a. rewrite length_app, take_app_le by done. split_and!; [lia|done|]. right. exact Hend.
  - destruct (q_failed q) eqn:Hf.
    + exists R. eapply main_frame; [exact HI|..]; unfold after_call; simpl; try done; rewrite ?(submitted_one _ _ _ Hs);
        pose proof (submit_queue _ _ _ Hs) as (Eq & Ec & Ed & Ei & _); simpl; rewrite ?Ed, ?Ei; try done.
      * intros _. by apply (mi_init _ _ _ HI).
      * by rewrite Hready.
      * set_solver.
      * by apply prefix_app_r.
      * by rewrite Hf.
    + destruct (mi_live _ _ _ HI Hf) as [_ _ (a & Ha & Hsv & Hend) L4 _]. destruct (L4 Hready He) as [Eres _].
      destruct (Hseq eq_refl He) as [Enext Hlt]. exists (R ++ [RVote v (j_nextSeq (q_journal q))]).
      assert (is_closed q = false) as Hcl.
      { destruct (submit_cases _ _ _ _ Hs) as [[? _]|(_ & ? & _)]; done. }
      destruct Hend as [->|[?|?]]; [|congruence|done]. rewrite take_ge in Hsv by done.
      assert (v ∉ (votes_of R).*2) as Hnv.
      { rewrite elem_of_votes. intros [s Hin']. apply Hin. rewrite Eres. apply elem_of_hashes. by exists (RVote v s). }
      rewrite Eres in Hin. eapply main_accept; [exact HI|done|eapply wf_records_vote; eauto; [by apply HI|lia]|by eapply accepted_vote|..];
        unfold after_call; simpl; try done.
      * intros _. by apply (mi_init _ _ _ HI).
      * rewrite Eres, Enext. split; [|rewrite votes_of_app, length_app; simpl; rewrite i64_small by (unfold is_i64; lia); lia].
        rewrite omap_app. simpl. rewrite Eh. set_solver.
      * by apply saved_votes_snoc_new.
Qed.

Lemma main_certificate q c r j' s' R cuts :
  base_inv q -> main_inv q R cuts -> j_ready (q_journal q) = true -> wf_cert c ->
  (length (cert_Signatures c) <= maxSignatures)%nat -> SaveCertificate c (q_journal q) (q_store q) = Some (r, j', s') ->
  exists R', main_inv (after_call q (CallCertificate c) r j' s') R' cuts.
Proof.
  intros Hb HI Hready Hc Hl Hs. apply SaveCertificate_cases in Hs as (_ & h & Eh & Hcase); [|apply Hb].
  assert (forall j' r, j_ready j' = true -> v_store s' = v_store (q_store q) -> r <> None ->
    stateErrorLocked j' = stateErrorLocked (q_journal q) ->
    (q_failed q = false -> stateErrorLocked (q_journal q) = None ->
      j_reserved j' = j_reserved (q_journal q) /\ j_nextSeq j' = j_nextSeq (q_journal q)) ->
    main_inv (after_call q (CallCertificate c) r j' s') R cuts) as Hsame.
  { intros j2 r2 Hrd Es Hr Ese Hj. pose proof (main_unsubmitted q (CallCertificate c) r2 j2 s' (q_called q) R cuts) as Hu.
    assert (after_call q (CallCertificate c) r2 j2 s' <| q_called := q_called q |> = after_call q (CallCertificate c) r2 j2 s') as E by done.
    rewrite <- E. apply Hu; [done|done|done|done|done|by right|..].
    - intros Hf. destruct (mi_live _ _ _ HI Hf) as [_ _ (a & Ha & Hsv & Hend) _ _]. exists a. rewrite Ese. done.
    - intros Hf. rewrite Ese. intros He. destruct (Hj Hf He). done. }
  destruct Hcase as [[(Hr & Hwhy & _ & _ & _ & Eie & Erd & Edel & Eres & Enext) Es]|[(He & Hin & -> & -> & Es)|(He & Hin & -> & -> & rk & x & Ek & Ex & Hs)]].
  - exists R. apply Hsame; [by rewrite Erd|done|done|unfold stateErrorLocked; by rewrite Eie, Edel|].
    intros Hf He. split; [done|]. apply Enext. destruct (mi_live _ _ _ HI Hf) as [_ _ _ L4 _]. destruct (L4 Hready He) as [_ ->].
    destruct (mi_wf _ _ _ HI) as [Hall _ Hnum]. rewrite Forall_forall in Hall. unfold is_i64. split; [lia|].
    destruct (decide (length (votes_of R) = 0%nat)) as [->|Hne]; [lia|].
    destruct (lookup_lt_is_Some_2 (votes_of R) (length (votes_of R) - 1)) as [[s v] Hlk]; [lia|].
    pose proof (numbered_lookup _ _ _ _ Hnum Hlk) as ->. apply list_elem_of_lookup_2 in Hlk.
    apply list_elem_of_omap in Hlk as ([v1 s1|] & Hin & E); simplify_eq/=. destruct (Hall _ Hin) as [_ ?]. lia.
  - exists R. by apply Hsame.
  - destruct (q_failed q) eqn:Hf.
    + exists R. eapply main_frame; [exact HI|..]; unfold after_call; simpl; try done; rewrite ?(submitted_one _ _ _ Hs);
        pose proof (submit_queue _ _ _ Hs) as (Eq & Ec & Ed & Ei & _); simpl; rewrite ?Ed, ?Ei; try done.
      * intros _. by apply (mi_init _ _ _ HI).
      * by rewrite Hready.
      * set_solver.
      * by rewrite Hf.
    + destruct (mi_live _ _ _ HI Hf) as [_ _ (a & Ha & Hsv & Hend) L4 _]. destruct (L4 Hready He) as [Eres Enext].
      exists (R ++ [RCert c]).
      assert (is_closed q = false) as Hcl.
      { destruct (submit_cases _ _ _ _ Hs) as [[? _]|(_ & ? & _)]; done. }
      destruct Hend as [->|[?|?]]; [|congruence|done]. rewrite take_ge in Hsv by done.
      rewrite Eres in Hin. eapply main_accept; [exact HI|done|eapply wf_records_cert; eauto; by apply HI|by eapply accepted_cert|..];
        unfold after_call; simpl; try done.
      * intros _. by apply (mi_init _ _ _ HI).
      * rewrite Eres, Enext, votes_of_app, length_app. simpl. split; [|lia]. rewrite omap_app. simpl. rewrite Eh. set_solver.
      * by apply saved_votes_cert.
Qed.

(** A request that leaves the records alone is queued; the journal may change in
    what does not matter. *)
Lemma main_silent q q' rq R cuts :
  main_inv q R cuts -> silent session ns rq -> submit rq (q_st q) = (Ok tt, v_store (q_store q')) ->
  q_hist q' = submitted q (q_store q') -> q_journal q' = q_journal q -> (j_ready (q_journal q) = true -> q_init q' = InitFinished) ->
  q_called q' = q_called q -> q_completed q' = q_completed q -> q_failed q' = q_failed q -> main_inv q' R cuts.
Proof.
  intros HI Hsil Hs Hh Hj Hi Hc Hcomp Hf. rewrite (submitted_one _ _ _ Hs) in Hh. pose proof (submit_queue _ _ _ Hs) as (Eq & Ec & Ed & Ei & Ecl).
  eapply main_frame; [exact HI|..]; rewrite ?Hh, ?Hj, ?Hc, ?Hcomp; simpl; try done.
  - by apply (mi_called _ _ _ HI).
  - set_solver.
  - intros Hf0. destruct (mi_live _ _ _ HI Hf0) as [(D & P & ER & HD & HcD & HP) L2 L3 L4 L5].
    constructor; rewrite ?Hj, ?Hc, ?Ed, ?Ec, ?Eq, ?Ei; try done.
    + exists D, P. split_and!; [done..|]. rewrite app_assoc, <- (app_nil_r P). apply produces_app; [done|].
      apply produces_silent; [done|constructor].
    + destruct L3 as (a & Ha & Hsv & Hend). exists a. split_and!; [done..|]. unfold refusing, is_closed in *. by rewrite Hj, Ecl.
Qed.

(** Steps of the journal that keep its reservations. *)
Lemma main_journal q j' R cuts :
  main_inv q R cuts -> j_ready j' = j_ready (q_journal q) -> stateErrorLocked j' = stateErrorLocked (q_journal q) ->
  (q_failed q = false -> j_reserved j' = j_reserved (q_journal q) /\ j_nextSeq j' = j_nextSeq (q_journal q)) ->
  main_inv (q <| q_journal := j' |>) R cuts.
Proof.
  intros HI Er Ee Hj. eapply main_frame; [exact HI|..]; simpl; rewrite ?Er; try done.
  - apply (mi_init _ _ _ HI).
  - apply (mi_called _ _ _ HI).
  - intros Hf. destruct (mi_live _ _ _ HI Hf) as [L1 L2 L3 L4 L5]. destruct (Hj Hf) as [E1 E2].
    constructor; simpl; rewrite ?Er, ?Ee, ?E1, ?E2; try done.
    destruct L3 as (a & Ha & Hsv & Hend). exists a. split_and!; [done..|]. unfold refusing in *. simpl. by rewrite Ee.
Qed.

(** The end of the initialization. *)
Lemma main_finish q j' R cuts :
  main_inv q R cuts -> j_ready (q_journal q) = false -> j_ready j' = true ->
  (q_failed q = false -> stateErrorLocked j' = None ->
    j_reserved j' = list_to_set (omap rec_hash R0) /\ j_nextSeq j' = Z.of_nat (length (votes_of R0))) ->
  main_inv (q <| q_journal := j' |> <| q_init := InitFinished |>) R cuts.
Proof.
  intros HI Hr Hr' Hj. eapply main_frame; [exact HI|..]; simpl; rewrite ?Hr'; try done.
  intros Hf. destruct (mi_live _ _ _ HI Hf) as [L1 L2 (a & Ha & Hsv & _) L4 L5]. specialize (L5 Hr). subst R.
  pose proof (mi_called _ _ _ HI Hr) as Ec. constructor; simpl; rewrite ?Hr'; try done.
  - exists 0%nat. rewrite Ec in *. simpl in *. split_and!; [lia|by rewrite take_nil in Hsv|by left].
  - auto.
Qed.

Lemma main_recover q err j' R cuts :
  base_inv q -> main_inv q R cuts -> q_init q = InitResult None ->
  recoverReservations (is_closed q) (q_db q) (j_writeGen (q_journal q)) (q_journal q) = Some (err, j') ->
  main_inv (q <| q_journal := finishInitialization err j' |> <| q_init := InitFinished |>) R cuts.
Proof.
  intros Hb HI Hi Hrec. assert (j_ready (q_journal q) = false) as Hr.
  { destruct (j_ready (q_journal q)) eqn:E; [|done]. apply (mi_init _ _ _ HI) in E. congruence. }
  apply main_finish; [done|done|by destruct err|]. intros Hf He.
  destruct (mi_live _ _ _ HI Hf) as [(D & P & ER & HD & HcD & HP) _ _ _ L5]. specialize (L5 Hr).
  rewrite L5 in ER, HI. clear L5. assert (P = []) as ->.
  { destruct (mi_cuts _ _ _ HI) as [_ _ Hrange]. rewrite Forall_forall in Hrange.
    destruct (Hrange (length D)) as [Hd _]; [by apply last_Some_elem_of|]. apply (f_equal length) in ER. rewrite length_app in ER.
    destruct P; [done|simpl in ER; lia]. }
  rewrite app_nil_r in ER. rewrite <- ER in HD. destruct Hb as [_ _ E1 E2 E3 _ _].
  unfold recoverReservations in Hrec. apply bind_Some in Hrec as (r & Hscan & Hrec).
  destruct (is_closed q); [unfold scan in Hscan; simplify_eq; done|].
  destruct (scan_spec session ns maxSignatures Hsession Hvalid (q_db q) (q_journal q) _ R0 E1 E2 E3 (contents_last _) HD (mi_wf _ _ _ HI))
    as [Hx|[[_ Hx]|(r' & (L & window & _ & _ & ->) & Hx)]]; rewrite Hx in Hscan; simplify_eq; [done..|].
  unfold bootstrap_end. by case_match.
Qed.

Lemma main_close q R cuts : main_inv q R cuts -> main_inv (q <| q_store := q_store q <| v_store := Close (q_st q) |> |>) R cuts.
Proof.
  intros HI. eapply main_frame; [exact HI|..]; simpl; try done; [apply (mi_init _ _ _ HI)|apply (mi_called _ _ _ HI)|].
  intros Hf. destruct (mi_live _ _ _ HI Hf) as [L1 L2 (a & Ha & Hsv & Hend) L4 L5]. constructor; simpl; try done.
  exists a. split_and!; [done..|]. unfold refusing, is_closed. simpl. auto.
Qed.

(** The log is synced for a batch. *)
Lemma callback_sync_same (fl : inflight done) db fl' db' :
  callback_sync fl db = (fl', db') -> fl_fatal fl' = fl_fatal fl ->
  versions db' = versions db /\ (stable db <= stable db')%nat /\ fl_class fl' = fl_class fl /\
  (fl_fatal fl = None -> fl_done fl' = fl_done fl) /\
  (fl_fatal fl <> None -> Forall (fun p => p.2 <> None) (fl_done fl') /\ (fl_done fl').*1 = (fl_done fl).*1).
Proof.
  unfold callback_sync. destruct (match fl_fatal fl with Some _ => _ | None => _ end) as [f db2] eqn:E. intros [= <- <-]. simpl.
  assert (versions db2 = versions db /\ (stable db <= stable db2)%nat) as [Hv Hst].
  { destruct (fl_fatal fl); [by simplify_eq|]. destruct (fl_class fl); [|by simplify_eq].
    destruct (db_LogDataSync db) as [[] db3] eqn:Es; simplify_eq.
    - apply law_sync in Es as [? ?]. pose proof (law_stable db). split; [done|lia].
    - by apply law_sync_failed in Es. }
  intros ->. split_and!; try done.
  - intros ->. rewrite <- (list_fmap_id (fl_done fl)) at 2. apply list_fmap_ext. by intros i [d [e|]] _.
  - intros Hne. destruct (fl_fatal fl) as [e|]; [|done]. split.
    + apply Forall_fmap, Forall_true. by intros [d [e'|]].
    + rewrite <- list_fmap_compose. apply list_fmap_ext. by intros i [d r] _.
Qed.

Lemma contents_same db db' : versions db' = versions db -> contents db' = contents db.
Proof. intros E. apply contents_unique. rewrite E. apply contents_last. Qed.
Lemma cuts_ok_same db db' R cuts : versions db' = versions db -> cuts_ok db R cuts -> cuts_ok db' R cuts.
Proof. intros E [? ? ?]. constructor; [by rewrite E|done..]. Qed.

Lemma main_wait q i st' fl fl' R cuts :
  main_inv q R cuts -> wait_log i (q_st q) = Some st' -> s_inflight (q_st q) !! i = Some fl -> s_inflight st' !! i = Some fl' ->
  fl_fatal fl' = fl_fatal fl -> main_inv (q <| q_store := q_store q <| v_store := st' |> |>) R cuts.
Proof.
  intros HI Hw Hfl Hfl' Hfat. unfold wait_log in Hw. rewrite Hfl in Hw. simpl in Hw. destruct (fl_ready fl) eqn:Hr; [done|].
  destruct (callback_sync fl (q_db q)) as [fl2 db2] eqn:Ec. injection Hw as <-. simpl in Hfl'.
  rewrite list_lookup_insert_eq in Hfl' by (by eapply lookup_lt_Some). injection Hfl' as ->.
  destruct (callback_sync_same _ _ _ _ Ec Hfat) as (Ev & Est & Ecl & Hnone & Hsome).
  destruct HI as [I1 I2 I3 I4 I5 I6 I7 I8 I9 I10]. constructor; simpl; try done.
  - by eapply cuts_ok_same.
  - intros k dbi f Hd Hf. destruct (decide (i = k)) as [->|Hne].
    + rewrite list_lookup_insert_eq in Hf by (by eapply lookup_lt_Some). injection Hf as <-.
      destruct (I8 k dbi fl Hd Hfl) as [F1 F2 F3]. destruct (fl_fatal fl) as [e|] eqn:Efat.
      * destruct (Hsome ltac:(done)) as [Hall Hfst]. constructor; [done| |by rewrite Hfat].
        intros h v r Hin. rewrite Ecl. apply (list_elem_of_fmap_2 fst) in Hin. rewrite Hfst in Hin.
        apply list_elem_of_fmap in Hin as ([d r'] & [= <-] & Hin). by eapply F2.
      * rewrite (Hnone eq_refl) in *. constructor; rewrite ?(Hnone eq_refl), ?Ecl, ?Hfat; try done.
    + rewrite list_lookup_insert_ne in Hf by done. by eapply I8.
  - intros v Hv. destruct (I9 v Hv) as (k & n & ? & ? & ?). exists k, n. split_and!; [lia|done|done].
  - intros Hf. destruct (I10 Hf) as [(D & P & ER & HD & HcD & HP) L2 L3 L4 L5]. constructor; simpl; try done.
    + exists D, P. split_and!; [done| |done|done]. by rewrite (contents_same _ _ Ev).
    + apply Forall_insert; [done|]. rewrite Forall_forall in L2. destruct (L2 fl) as [Hn Hall]; [by eapply list_elem_of_lookup_2|].
      rewrite Hfat, (Hnone Hn). done.
Qed.

Lemma journal_ok_rows m R r k x : journal_ok m R -> r ∈ R -> rec_row ns r k x -> m !! k = Some x.
Proof.
  intros [[su Ho]|[-> _]] Hin Hrow; [|by apply elem_of_nil in Hin].
  apply (oo_rows _ _ _ _ _ Ho); [by eapply rec_row_bounds|]. by exists r.
Qed.
Lemma journal_ok_row_inv m R k x :
  journal_ok m R -> in_bounds (prefixBounds (votePrefix ns)).1 (prefixBounds (votePrefix ns)).2 k = true -> m !! k = Some x ->
  exists r, r ∈ R /\ rec_row ns r k x.
Proof. intros [[su Ho]|[-> [Hr _ _]]] Hb Hm; [by apply (oo_rows _ _ _ _ _ Ho)|by apply Hr]. Qed.
Lemma same_hash R r r' k x x' :
  wf_records maxSignatures R -> r ∈ R -> r' ∈ R -> rec_row ns r k x -> rec_row ns r' k x' -> r = r'.
Proof.
  intros [Hall Hnd _] Hr Hr' Hrow Hrow'. rewrite Forall_forall in Hall.
  pose proof (rec_row_key ns r r' maxSignatures k x x' (Hall r Hr) (Hall r' Hr') Hrow Hrow') as E.
  apply list_elem_of_lookup in Hr as [i Hi], Hr' as [i' Hi']. assert (i = i') as <-; [|congruence].
  eapply NoDup_lookup; [exact Hnd|by rewrite list_lookup_fmap, Hi|rewrite list_lookup_fmap, Hi'; simpl; by rewrite E].
Qed.

(** Two descriptions of one state by prefixes of the records are the same. *)
Lemma journal_ok_extend m D P : wf_records maxSignatures (D ++ P) -> journal_ok m D -> journal_ok m (D ++ P) -> P = [].
Proof.
  intros Hwf HD HDP. destruct P as [|r P]; [done|exfalso]. assert (r ∈ D ++ r :: P) as Hin by set_solver.
  pose proof (wr_each _ _ Hwf) as Hall. rewrite Forall_forall in Hall. destruct (rec_row_some ns r maxSignatures (Hall r Hin)) as (k & x & Hrow).
  pose proof (journal_ok_rows _ _ _ _ _ HDP Hin Hrow) as Hm. apply (journal_ok_row_inv _ _ _ _ HD) in Hm as (r' & Hr' & Hrow'); [|by eapply rec_row_bounds].
  assert (r' = r) as -> by (eapply same_hash; [exact Hwf|set_solver|done|done|done]).
  pose proof (wr_distinct _ _ Hwf) as Hnd. rewrite fmap_app, fmap_cons in Hnd. apply NoDup_app in Hnd as (_ & Hnd & _).
  apply (Hnd (rec_hash r)); [by apply list_elem_of_fmap_2|by left].
Qed.

Lemma wf_records_prefix D P : wf_records maxSignatures (D ++ P) -> wf_records maxSignatures D.
Proof.
  intros [Ha Hn Hnum]. constructor; [by apply Forall_app in Ha as [? _]| |].
  - rewrite fmap_app in Hn. by apply NoDup_app in Hn as [? _].
  - pose proof (numbered_prefix _ (length D) Hnum) as E. by rewrite take_app_length in E.
Qed.

(** A new state of the database. *)
Lemma cuts_ok_push db db' R cuts m n last_n :
  cuts_ok db R cuts -> versions db' = versions db ++ [m] -> journal_ok m (take n R) -> last cuts = Some last_n ->
  (last_n <= n <= length R)%nat -> cuts_ok db' R (cuts ++ [n]).
Proof.
  intros [H1' H2' H3'] Ev Hj Hlast Hn. pose proof Hlast as Hin%last_Some_elem_of. rewrite last_lookup in Hlast. constructor.
  - rewrite Ev. apply Forall2_app; [done|by constructor].
  - assert (forall i a, cuts !! i = Some a -> (a <= last_n)%nat) as Hmax.
    { intros i a Hi. eapply (H2' i); [|exact Hi|exact Hlast]. apply lookup_lt_Some in Hi. lia. }
    intros i j a b Hij [[Hi Hil]|[-> ->]]%lookup_snoc_cases [[Hj' Hjl]|[-> ->]]%lookup_snoc_cases; [exact (H2' i j a b Hij Hi Hj')| |lia|lia].
    specialize (Hmax i a Hi). lia.
  - apply Forall_app. split; [done|]. constructor; [|done]. rewrite Forall_forall in H3'. specialize (H3' _ Hin). lia.
Qed.
Lemma done_push db db' (cuts more : list nat) R (v : Vote) : (stable db <= stable db')%nat ->
  (exists k n, (k <= stable db)%nat /\ cuts !! k = Some n /\ v ∈ (votes_of (take n R)).*2) ->
  exists k n, (k <= stable db')%nat /\ (cuts ++ more) !! k = Some n /\ v ∈ (votes_of (take n R)).*2.
Proof. intros Hs (k & n & ? & ? & ?). exists k, n. split_and!; [lia|by apply lookup_app_l_Some|done]. Qed.

(** What a new batch's goroutine knows. *)
Lemma fl_inv_new q avail rqs carried queue R D P1 P2 fl db w :
  base_inv q -> take_batch avail (q_st q) = Some (rqs, carried, queue) -> commitRequests rqs (q_db q) (s_w (q_st q)) = (fl, db, w) ->
  wf_records maxSignatures R ->
  (fl_fatal fl = None -> R = (D ++ P1) ++ P2 /\ produces rqs P1 /\ journal_ok (contents db) (D ++ P1)) -> fl_inv R db fl.
Proof.
  intros Hb Ht Hc Hwf Hok. pose proof (commitRequests_done rqs (q_db q) (s_w (q_st q))) as [Hd Hcl]. rewrite Hc in Hd, Hcl. simpl in *.
  destruct (take_batch_spec _ _ _ _ _ Ht) as [Epend [_ _ Hclass _]].
  assert (Forall known rqs) as Hk.
  { pose proof (runs_inv no_env _ _ _ _ (bi_runs _ Hb)) as [Hfifo _ _ _ _ _]. pose proof (bi_known _ Hb) as Hall.
    rewrite Hfifo, Epend in Hall. apply Forall_app in Hall as [_ Hall]. by apply Forall_app in Hall as [? _]. }
  assert (forall d r, (d, r) ∈ fl_done fl -> exists rq, rq ∈ rqs /\ rq_done rq = d) as Hrq.
  { intros d r Hin. apply (list_elem_of_fmap_2 fst) in Hin. rewrite Hd in Hin. apply list_elem_of_fmap in Hin as (rq & E & ?). by exists rq. }
  assert (fl_ready fl = false) as Hr by (unfold commitRequests in Hc; repeat case_match; by simplify_eq).
  rewrite Forall_forall in Hk, Hclass. constructor; [congruence|..].
  - intros h v r Hin. destruct (Hrq _ _ Hin) as (rq & Hrq' & Erq). rewrite Hcl, <- (Hclass rq Hrq').
    eapply known_vote; [by apply Hk|done].
  - intros Hf h v Hin. destruct (Hok Hf) as (-> & HP & Hj). destruct (Hrq _ _ Hin) as (rq & Hrq' & Erq).
    destruct (produces_vote _ _ _ _ _ _ _ HP Hrq' Erq) as [s Hs]. exists s. pose proof (wr_each _ _ Hwf) as Hall. rewrite Forall_forall in Hall.
    assert (RVote v s ∈ (D ++ P1) ++ P2) as HinR by set_solver. destruct (rec_row_some ns _ maxSignatures (Hall _ HinR)) as (k & x & Hrow).
    exists k, x. split_and!; [done..|]. apply (journal_ok_rows _ _ (RVote v s) _ _ Hj); [set_solver|done].
Qed.

Lemma main_round q avail rqs carried queue st' fl R cuts :
  base_inv q -> main_inv q R cuts ->
  take_batch avail (q_st q) = Some (rqs, carried, queue) -> writer_round avail (q_st q) = Some st' ->
  last (s_inflight st') = Some fl -> (q_failed q = true -> fl_fatal fl <> None /\ versions (s_db st') = versions (q_db q)) ->
  exists cuts', main_inv (q <| q_store := q_store q <| v_store := st' |> |>
      <| q_hist := mkHistory (h_submitted (q_hist q)) (h_batches (q_hist q) ++ [rqs]) (h_dbs (q_hist q) ++ [s_db st']) (h_ran (q_hist q)) |>
      <| q_failed := q_failed q || bool_decide (is_Some (fl_fatal fl)) |>) R cuts'.
Proof.
  intros Hb HI Ht Hw Hlast Hfail. destruct (writer_round_take _ _ _ _ _ _ Ht Hw) as (fl0 & db & w & Ec & ->).
  simpl in Hlast. rewrite last_snoc in Hlast. injection Hlast as ->. destruct (take_batch_spec _ _ _ _ _ Ht) as [Epend _].
  pose proof (runs_durable no_env _ _ _ _ (bi_runs _ Hb)
    (Forall_impl _ _ _ (bi_known _ Hb) (fun rq => known_local session ns rq))) as [Hl1 Hl2 _ _ _ _ _].
  destruct HI as [I1 I2 I3 I4 I5 I6 I7 I8 I9 I10].
  assert (forall D P1 P2, (fl_fatal fl = None -> R = (D ++ P1) ++ P2 /\ produces rqs P1 /\ journal_ok (contents db) (D ++ P1)) ->
    forall i dbi f, (h_dbs (q_hist q) ++ [db]) !! i = Some dbi -> (s_inflight (q_st q) ++ [fl]) !! i = Some f -> fl_inv R dbi f) as Hfls.
  { intros D P1 P2 Hok i dbi f [[Hi ?]|[-> ->]]%lookup_snoc_cases [[Hf ?]|[? ->]]%lookup_snoc_cases; [by eapply I8|lia|lia|].
    by eapply fl_inv_new. }
  destruct (q_failed q) eqn:Hfd.
  - destruct (Hfail eq_refl) as [Hfat Ev]. simpl in Ev. exists cuts.
    assert (extends (q_db q) db) as [_ Hst].
    { pose proof (commitRequests_extends rqs (q_db q) (s_w (q_st q))) as He. rewrite Ec in He. apply He.
      pose proof (runs_inv no_env _ _ _ _ (bi_runs _ Hb)) as [Hfifo _ _ _ _ _]. pose proof (bi_known _ Hb) as Hall.
      rewrite Hfifo, Epend in Hall. apply Forall_app in Hall as [_ Hall]. apply Forall_app in Hall as [Hall _].
      eapply Forall_impl; [exact Hall|]. intros rq. apply known_local. }
    constructor; simpl; try done.
    + by eapply cuts_ok_same.
    + by eapply (Hfls [] [] []).
    + intros v (k & n & ? & ? & ?)%I9. exists k, n. split_and!; [lia|done|done].
  - destruct (I10 eq_refl) as [(D & P & ER & HD & HcD & HP) L2 L3 L4 L5]. rewrite Epend in HP.
    apply produces_app_inv in HP as (P1 & P2 & -> & HP1 & HP2). rewrite app_assoc in ER.
    assert (wf_records maxSignatures (D ++ P1)) as Hwf1 by (rewrite ER in I1; by eapply wf_records_prefix).
    pose proof Hwf1 as [Ha Hn _].
    destruct (commit_records session ns maxSignatures Hns rqs P1 D (q_db q) (s_w (q_st q)) fl db w HP1 Ha Hn HD Ec) as ([_ Hst] & Hv & Hok).
    assert (fl_fatal fl = None -> R = (D ++ P1) ++ P2 /\ produces rqs P1 /\ journal_ok (contents db) (D ++ P1)) as Hok'.
    { intros Hf. by destruct (Hok Hf) as [? _]. }
    assert (exists more, cuts_ok db R (cuts ++ more) /\ (fl_fatal fl = None -> last (cuts ++ more) = Some (length (D ++ P1)))) as (more & Hcuts & Hlc).
    { destruct Hv as [Ev|(m & Ev & Hm)].
      - exists []. rewrite app_nil_r. split; [by eapply cuts_ok_same|]. intros Hf. destruct (Hok Hf) as [Hj _].
        rewrite (contents_same _ _ Ev) in Hj. rewrite (journal_ok_extend _ _ _ Hwf1 HD Hj), app_nil_r. done.
      - exists [length (D ++ P1)]. split; [|intros _; apply last_snoc]. eapply cuts_ok_push; [done|done| |done|].
        + by rewrite ER, take_app_length.
        + rewrite ER, !length_app. lia. }
    exists (cuts ++ more). constructor; simpl; try done.
    + by eapply Hfls.
    + intros v Hin. eapply done_push; [done|by apply I9].
    + intros Hf. apply bool_decide_eq_false in Hf. assert (fl_fatal fl = None) as Hn0 by (destruct (fl_fatal fl); [by destruct Hf|done]).
      destruct (Hok Hn0) as [Hj Hres]. constructor; simpl; try done.
      * exists (D ++ P1), P2. split_and!; [done|done|by apply Hlc|done].
      * apply Forall_app. split; [done|]. by constructor.
Qed.

Lemma main_done q i d r st' j' completion R cuts :
  base_inv q -> main_inv q R cuts -> run_callback i (q_st q) = Some ((d, r), st') -> journal_done d r (q_journal q) = (j', completion) ->
  main_inv (q <| q_store := q_store q <| v_store := st' |> |> <| q_journal := j' |>
      <| q_init := match d, q_init q with DoneInit, InitWaiting => InitResult r | _, i => i end |>
      <| q_hist := mkHistory (h_submitted (q_hist q)) (h_batches (q_hist q)) (h_dbs (q_hist q)) (h_ran (q_hist q) ++ [(i, (d, r))]) |>
      <| q_completed := q_completed q ++ option_list completion |>) R cuts.
Proof.
  intros Hb HI Hd Hj. pose proof (runs_durable no_env _ _ _ _ (bi_runs _ Hb)
    (Forall_impl _ _ _ (bi_known _ Hb) (fun rq => known_local session ns rq))) as [Hl1 Hl2 _ Hfld _ _ _].
  unfold run_callback in Hd. apply bind_Some in Hd as (fl & Hfl & E). destruct (fl_ready fl) eqn:Hr; [|done]. simpl in E.
  destruct (fl_done fl) as [|d' rest] eqn:Ed; [done|]. injection E as -> <-. pose proof (lookup_lt_Some _ _ _ Hfl) as Hlt.
  pose proof (journal_done_fields _ _ _ _ _ Hj) as (_ & _ & _ & Edel & Erd & Eie & Enx).
  destruct HI as [I1 I2 I3 I4 I5 I6 I7 I8 I9 I10]. constructor; simpl; rewrite ?Erd; try done.
  - intros Hrd. rewrite (I3 Hrd). by destruct d.
  - intros k dbi f Hdb Hf. destruct (decide (i = k)) as [->|Hne].
    + rewrite list_lookup_insert_eq in Hf by done. injection Hf as <-. destruct (I8 k dbi fl Hdb Hfl) as [F1 F2 F3]. rewrite Ed in *.
      constructor; simpl.
      * intros _ Hfat. specialize (F1 Hr Hfat). by apply Forall_cons in F1 as [_ ?].
      * intros h v r' Hin. eapply F2. by right.
      * intros Hfat h v Hin. eapply F3; [done|]. by right.
    + rewrite list_lookup_insert_ne in Hf by done. by eapply I8.
  - intros v [Hin|Hin]%elem_of_app; [by apply I9|]. destruct completion as [[call r']|]; [|by apply elem_of_nil in Hin].
    apply list_elem_of_singleton in Hin as [= <- <-]. destruct d as [h call|call| |]; simpl in Hj; simplify_eq.
    destruct (lookup_lt_is_Some_2 (h_dbs (q_hist q)) i) as [dbi Hdbi]; [lia|]. destruct (I8 i dbi fl Hdbi Hfl) as [F1 F2 F3].
    rewrite Ed in *. assert (fl_fatal fl = None) as Hfat.
    { destruct (fl_fatal fl); [|done]. specialize (F1 Hr ltac:(done)). apply Forall_cons in F1 as [F1 _]. done. }
    destruct (F3 Hfat h v) as (s & k & x & Hin & Hrow & Hk); [by left|]. pose proof (F2 h v None ltac:(by left)) as Hcl.
    destruct (Hfld i dbi fl Hdbi Hfl Hr Hcl) as [Hdisk _]. destruct (Hdisk Hfat) as (ix & Hix & Hver).
    destruct (Forall2_lookup_l _ _ _ _ _ (cu_rows _ _ _ I6) Hver) as (n & Hn & Hjn). exists ix, n. split_and!; [done|done|].
    apply (journal_ok_row_inv _ _ _ _ Hjn) in Hk as (r' & Hr' & Hrow'); [|by eapply rec_row_bounds].
    assert (r' = RVote v s) as ->.
    { eapply same_hash; [exact I1|by apply (subseteq_take n)|done|done|done]. }
    apply elem_of_votes. by exists s.
  - intros Hf. destruct (I10 Hf) as [L1 L2 L3 L4 L5]. rewrite Forall_forall in L2.
    destruct (L2 fl) as [Hfat Hres]; [by eapply list_elem_of_lookup_2|]. constructor; simpl; rewrite ?Erd; try done.
    + apply Forall_insert; [by apply Forall_forall|]. simpl. split; [done|]. intros h c r' Hin. eapply Hres. rewrite Ed. by right.
    + destruct L3 as (a & Ha & Hsv & Hend). exists a. split_and!; [done..|]. unfold refusing, is_closed, stateErrorLocked in *. simpl.
      by rewrite Eie, Edel.
    + unfold stateErrorLocked in *. rewrite Eie, Edel. intros Hrd Hse. destruct (L4 Hrd Hse) as [Er En]. rewrite Enx. split; [|done].
      destruct d as [h c|c| |]; simpl in Hj; simplify_eq; [|by destruct r|done|done].
      assert (r = None) as -> by (eapply (Hres h c); rewrite Ed; by left). done.
Qed.

Lemma step_main q call q' R cuts :
  base_inv q -> main_inv q R cuts -> step q call q' -> exists R' cuts', main_inv q' R' cuts'.
Proof.
  intros Hb HI Hs. revert Hb HI. destruct Hs as [q s' r Hi Hs|q e Hi|q err j' Hi Hs|q v r j' s' Hr Hv Hn Hl Hs|q c r j' s' Hr Hc Hl Hs
    |q w r j' s' Hr Hw Hs|q r j' Hr Hs|q rq client st' Hre Hd Hs|q avail rqs carried queue st' fl Ht Hs Hl Hf
    |q i st' fl fl' Hs H1' H2' H3'|q i d r st' j' completion Hs Hd|q]; intros Hb HI.
  - exists R, cuts. apply submitSession_cases in Hs as [Hg' Hs]; [|apply Hb].
    assert (j_ready (q_journal q) = true -> False) as Hnr by (intros E; apply (mi_init _ _ _ HI) in E; congruence).
    destruct (submit_cases _ _ _ _ Hs) as [[_ ->]|(_ & -> & Es)].
    + eapply main_silent; [exact HI| |exact Hs|done..]. split; [by apply initialize_respects|done].
    + eapply main_frame; [exact HI|..]; simpl; try done; rewrite ?Es; try done; [by apply (mi_called _ _ _ HI)|set_solver|].
      intros Hf. destruct (mi_live _ _ _ HI Hf) as [L1 L2 L3 L4 L5]. constructor; simpl; rewrite ?Es; try done.
      destruct L3 as (a & ? & ? & ?). exists a. unfold refusing, is_closed in *. simpl. by rewrite Es.
  - exists R, cuts. apply main_finish; [done| |done|intros _ He; discriminate He].
    destruct (j_ready (q_journal q)) eqn:E; [|done]. apply (mi_init _ _ _ HI) in E. congruence.
  - exists R, cuts. by apply main_recover.
  - destruct (main_vote _ _ _ _ _ _ _ Hb HI Hr Hv Hn Hl Hs) as [R' HR]. by exists R', cuts.
  - destruct (main_certificate _ _ _ _ _ _ _ Hb HI Hr Hc Hl Hs) as [R' HR]. by exists R', cuts.
  - exists R, cuts. apply SaveWindow_cases in Hs as (Hg' & -> & Hcase); [|apply Hb]. destruct Hcase as [[Hne Es]|[-> (x & Ex & Hs)]].
    + pose proof (main_unsubmitted q (CallWindow w) r (q_journal q) s' (q_called q) R cuts HI Hr Hr Es) as Hu. apply Hu; [done|by right|..]; [|done].
      intros Hf. by destruct (mi_live _ _ _ HI Hf) as [_ _ L3 _ _].
    + eapply main_silent; [exact HI|by eapply window_silent|exact Hs|done|done|intros _; by apply (mi_init _ _ _ HI)|done..].
  - exists R, cuts. apply Bootstrap_fields in Hs as [b ->]. by apply main_journal.
  - exists R, cuts. eapply main_silent; [exact HI|split; [done|by rewrite Hd]|exact Hs|done|done|apply (mi_init _ _ _ HI)|done..].
  - destruct (main_round _ _ _ _ _ _ _ _ _ Hb HI Ht Hs Hl Hf) as [cuts' Hc]. by exists R, cuts'.
  - exists R, cuts. by eapply main_wait.
  - exists R, cuts. by eapply main_done.
  - exists R, cuts. by apply main_close.
Qed.

Lemma reachable_main q :
  versions db0 = [contents db0] -> journal_ok (contents db0) R0 -> wf_records maxSignatures R0 ->
  NoDup (votes_of R0).*2 -> system_reachable session ns maxSignatures R0 db0 w0 q ->
  base_inv q /\ exists R cuts, main_inv q R cuts.
Proof.
  intros Hv Hj Hwf Hnd Hr. unfold system_reachable in Hr. remember (initial _ _ _ db0 w0) as q0 eqn:E0.
  assert (base_inv q0 /\ exists R cuts, main_inv q0 R cuts) as Hinit.
  { subst q0. split; [constructor; simpl; try done; constructor|]. exists R0, [length R0].
    assert (saved_votes R0 []) as Hsv.
    { unfold saved_votes. rewrite app_nil_r. clear -Hnd. induction (votes_of R0).*2 as [|v V IH] using rev_ind; [done|].
      apply NoDup_app in Hnd as (Hnd & Hd & _). unfold journal_of in *. rewrite foldl_app. simpl. rewrite <- IH by done.
      unfold journal_add. rewrite decide_False; [done|]. intros Hin. apply (Hd v Hin). by left. }
    constructor; simpl; try done.
    - auto.
    - constructor; [|intros [|i] [|j] a b; simpl; naive_solver|repeat constructor].
      rewrite Hv. constructor; [by rewrite take_ge|constructor].
    - exists 0%nat. split; [lia|done].
    - by intros v ?%elem_of_nil.
    - intros _. constructor; simpl; try done.
      + exists R0, []. rewrite app_nil_r. split_and!; [done..|constructor].
      + exists 0%nat. split_and!; [lia|done|by left]. }
  clear E0. induction Hr as [q|q q1 q2 [call Hs] _ IH]; [done|]. apply IH. destruct Hinit as [Hb (R & cuts & HI)].
  split; [by eapply step_base|by eapply step_main].
Qed.
End Invariant.

(** ** After a crash *)

Lemma prefix_of_snoc {A} (l k : list A) x : l `prefix_of` k ++ [x] -> l `prefix_of` k \/ l = k ++ [x].
Proof.
  intros [r E]. destruct r as [|y r _] using rev_ind; [right; by rewrite app_nil_r in E|left].
  rewrite app_assoc in E. apply app_inj_tail in E as [-> _]. by exists r.
Qed.
Lemma journal_of_prefix J V : J `prefix_of` journal_of V -> exists n, J = journal_of (take n V).
Proof.
  induction V as [|v V IH] using rev_ind.
  { intros ->%prefix_nil_inv. by exists 0%nat. }
  intros Hp. destruct (decide (J `prefix_of` journal_of V)) as [Hj|Hj].
  - destruct (IH Hj) as [n ->]. exists (n `min` length V)%nat. rewrite take_app_le by lia. f_equal.
    destruct (decide (n <= length V)%nat); [by rewrite Nat.min_l|]. rewrite Nat.min_r by lia. rewrite !take_ge by lia. done.
  - exists (length (V ++ [v])). rewrite take_ge by done. unfold journal_of in Hp |- *. rewrite foldl_app in Hp |- *. simpl in *.
    fold (journal_of V) in Hp |- *. unfold journal_add in *. case_decide; [done|]. by apply prefix_of_snoc in Hp as [|].
Qed.

Section Crash.
Context `{TLLaws} `{PebbleLaws} {W : Type} (session : SessionStorageID) (ns : bytes) (maxSignatures : nat).
Hypothesis Hns : bytes_ok ns.
Hypothesis Hsession : wf_session session.
Hypothesis Hvalid : SessionStorageID_Validate session = true.

(** A freshly opened database that holds the records [R] of the session. *)
Record holds (db : DB) (R : list record) : Prop := {
  ho_fresh : versions db = [contents db];
  ho_journal : journal_ok session ns (contents db) R;
  ho_wf : wf_records maxSignatures R }.

Lemma votes_distinct R : wf_records maxSignatures R -> NoDup (votes_of R).*2.
Proof.
  intros [_ Hnd _]. induction R as [|[v s|c] R IH]; [constructor|..]; rewrite fmap_cons in Hnd; apply NoDup_cons in Hnd as [Hn Hnd];
    unfold votes_of in *; csimpl; [|by apply IH]. apply NoDup_cons. split; [|by apply IH].
  fold (votes_of R). rewrite elem_of_votes. intros [s' Hin]. apply Hn. apply list_elem_of_fmap. by exists (RVote v s').
Qed.

(** The records a database may hold after the process reached [q]: those it held
    at the start, then the votes called up to some point, each once and in order,
    with every one reported saved. *)
Record kept (R0 : list record) (q : system W) (R : list record) : Prop := {
  ke_old : R0 `prefix_of` R;
  ke_calls : exists V, V `prefix_of` (votes_of R0).*2 ++ q_called q /\ (votes_of R).*2 = journal_of V;
  ke_saved : forall v, (CallVote v, None) ∈ q_completed q -> v ∈ (votes_of R).*2 }.

Lemma version_kept R0 db0 (w0 : W) q i m :
  holds db0 R0 -> system_reachable session ns maxSignatures R0 db0 w0 q ->
  versions (q_db q) !! i = Some m -> (stable (q_db q) <= i)%nat ->
  exists R, kept R0 q R /\ journal_ok session ns m R /\ wf_records maxSignatures R.
Proof.
  intros [Hv Hj Hwf] Hr Hm Hi.
  destruct (reachable_main session ns maxSignatures R0 db0 w0 Hns Hsession Hvalid q Hv Hj Hwf (votes_distinct R0 Hwf) Hr) as [Hb (R & cuts & HI)].
  destruct HI as [I1 [more I2] _ _ _ [C1 C2 C3] (a & Ha & Hsv) _ I9 _].
  destruct (Forall2_lookup_l _ _ _ _ _ C1 Hm) as (n & Hn & Hjn).
  assert (length R0 <= n <= length R)%nat as Hrange.
  { rewrite Forall_forall in C3. by apply C3, list_elem_of_lookup_2 with i. }
  exists (take n R). split_and!; [constructor|done|].
  - rewrite I2, take_app_ge by lia. by apply prefix_app_r.
  - destruct (journal_of_prefix (votes_of (take n R)).*2 ((votes_of R0).*2 ++ take a (q_called q))) as [k Hk].
    { rewrite <- Hsv. destruct (votes_of_take R n) as [rest ->]. rewrite fmap_app. by apply prefix_app_r. }
    exists (take k ((votes_of R0).*2 ++ take a (q_called q))). split; [|done]. transitivity ((votes_of R0).*2 ++ take a (q_called q)).
    + apply prefix_take.
    + apply prefix_app, prefix_take.
  - intros v Hin. destruct (I9 v Hin) as (k & n' & Hk & Hn' & Hvin). assert (n' <= n)%nat by (eapply (C2 k i); [lia|done..]).
    apply elem_of_votes in Hvin as [s Hs]. apply elem_of_votes. exists s.
    apply elem_of_take in Hs as (ix & Hix & Hlt). apply elem_of_take. exists ix. split; [done|lia].
  - apply (wf_records_prefix maxSignatures _ (drop n R)). by rewrite take_drop.
Qed.

Lemma reopen_kept R0 db0 (w0 : W) q db' :
  holds db0 R0 -> system_reachable session ns maxSignatures R0 db0 w0 q -> db_Reopen (q_db q) db' ->
  exists R, kept R0 q R /\ holds db' R.
Proof.
  intros Hh Hr (i & m & Hi & Hm & Ev)%law_reopen. destruct (version_kept R0 db0 w0 q i m Hh Hr Hm Hi) as (R & Hk & Hj & Hwf).
  exists R. split; [done|]. assert (contents db' = m) as Ec by (apply contents_unique; by rewrite Ev).
  constructor; [by rewrite Ev, Ec|by rewrite Ec|done].
Qed.

Lemma scan_records db R j :
  journal_ok session ns (contents db) R -> wf_records maxSignatures R ->
  j_session j = session -> j_namespace j = ns -> j_maxSignatures j = maxSignatures ->
  scan false db j = Some (Err ErrIO) \/ R = [] /\ scan false db j = Some (Err ErrRecordNotFound) \/
  exists bs reserved next, scan false db j = Some (Ok (bs, reserved, next)) /\ bs_OurVotes bs = (votes_of R).*2 /\
    (forall c, Some c ∈ bs_Certificates bs <-> RCert c ∈ R) /\ Forall (fun c => c <> None) (bs_Certificates bs).
Proof.
  intros Hj Hwf E1 E2 E3.
  destruct (scan_spec session ns maxSignatures Hsession Hvalid db j _ R E1 E2 E3 (contents_last _) Hj Hwf)
    as [?|[[Ha ?]|(r & (L & window & HL & Hp & ->) & Hs)]]; [by left| |].
  - right. left. split; [|done]. destruct Hj as [[su Ho]|[-> _]]; [|done]. pose proof (oo_desc _ _ _ _ _ Ho). pose proof (ab_desc _ _ Ha). congruence.
  - right. right. eexists _, _, _. split_and!; [exact Hs|done| |].
    + intros c. simpl. rewrite list_elem_of_fmap. unfold certs_of. split.
      * intros (c' & [= ->] & Hin). apply list_elem_of_omap in Hin as ([v s|c2] & Hin & E); simplify_eq/=. by rewrite <- HL.
      * intros Hin. exists c. split; [done|]. apply list_elem_of_omap. exists (RCert c). by rewrite HL.
    + simpl. apply Forall_fmap, Forall_true. done.
Qed.

(** ** The cached bootstrap state *)

Lemma SaveOurVote_cache v j (s : ValidatorStore W) r j' s' : SaveOurVote v j s = Some (r, j', s') ->
  j_bootstrap j' = j_bootstrap j /\ j_ready j' = j_ready j.
Proof.
  unfold SaveOurVote. intros (h & _ & Hr)%bind_Some. destruct (stateErrorLocked j); [by injection Hr as <- <- <-|].
  case_bool_decide; [by injection Hr as <- <- <-|]. apply bind_Some in Hr as (key & _ & Hr). apply bind_Some in Hr as (x & _ & Hr).
  destruct (submitSession _ _ s) as [[|] s1]; by injection Hr as <- <- <-.
Qed.
Lemma SaveCertificate_cache c j (s : ValidatorStore W) r j' s' :
  SaveCertificate c j s = Some (r, j', s') -> j_bootstrap j' = j_bootstrap j /\ j_ready j' = j_ready j.
Proof.
  unfold SaveCertificate. intros (h & _ & Hr)%bind_Some. destruct (stateErrorLocked j); [by injection Hr as <- <- <-|].
  case_bool_decide; [by injection Hr as <- <- <-|]. apply bind_Some in Hr as (key & _ & Hr). apply bind_Some in Hr as (x & _ & Hr).
  destruct (submitSession _ _ s) as [[|] s1]; by injection Hr as <- <- <-.
Qed.

Lemma SaveWindow_journal w j (s : ValidatorStore W) r j' s' : SaveFirstNonAnnouncedWindow w j s = Some (r, j', s') -> j' = j.
Proof.
  unfold SaveFirstNonAnnouncedWindow. destruct (stateErrorLocked _); [by intros [= _ <- _]|].
  case_match; [by intros [= _ <- _]|]. intros (x & _ & Hs)%bind_Some. destruct (submitSession _ _ _) as [[|] ?]; by injection Hs as _ <- _.
Qed.

(** [bs] is what a scan returned, and no vote was reported saved since. *)
Definition current (R0 : list record) (q : system W) (bs : BootstrapState) : Prop :=
  exists R, kept R0 q R /\ wf_records maxSignatures R /\ bs_OurVotes bs = (votes_of R).*2 /\
    Forall (fun c => exists cert, c = Some cert /\ RCert cert ∈ R) (bs_Certificates bs).

Lemma current_frame R0 q q' bs :
  current R0 q bs -> q_called q `prefix_of` q_called q' ->
  (forall v, (CallVote v, None) ∈ q_completed q' -> (CallVote v, None) ∈ q_completed q) -> current R0 q' bs.
Proof.
  intros (R & [K1 (V & HV & E) K3] & Hrest) Hc Hd. exists R. split; [|done]. constructor; [done| |auto].
  exists V. split; [|done]. etrans; [exact HV|]. by apply prefix_app.
Qed.

Lemma scan_current R0 db0 (w0 : W) q bs reserved next :
  holds db0 R0 -> system_reachable session ns maxSignatures R0 db0 w0 q ->
  scan (is_closed q) (q_db q) (q_journal q) = Some (Ok (bs, reserved, next)) -> current R0 q bs.
Proof.
  intros Hh Hr Hs. assert (is_closed q = false) as Hc by (by destruct (is_closed q)). rewrite Hc in Hs.
  destruct (reachable_main session ns maxSignatures R0 db0 w0 Hns Hsession Hvalid q (ho_fresh _ _ Hh) (ho_journal _ _ Hh) (ho_wf _ _ Hh)
    (votes_distinct R0 (ho_wf _ _ Hh)) Hr) as [Hb _].
  pose proof (contents_last (q_db q)) as Hl. rewrite last_lookup in Hl. pose proof (law_stable (q_db q)) as Hst.
  destruct (version_kept R0 db0 w0 q _ _ Hh Hr Hl ltac:(lia)) as (R & Hk & Hj & Hwf).
  destruct (scan_records (q_db q) R (q_journal q) Hj Hwf) as [E|[[_ E]|(bs' & ? & ? & E & Hv & Hcs & Hn)]];
    [apply Hb..|congruence|congruence|]. rewrite Hs in E. injection E as <- _ _. exists R. split_and!; [done..|].
  rewrite Forall_forall in Hn |- *. intros [c|] Hin; [|by destruct (Hn None Hin)]. exists c. split; [done|]. by apply Hcs.
Qed.

Definition cache_ok (R0 : list record) (q : system W) : Prop :=
  forall bs, j_bootstrap (q_journal q) = Some bs -> current R0 q bs.

Lemma cache_frame R0 q q' :
  cache_ok R0 q -> j_bootstrap (q_journal q') = j_bootstrap (q_journal q) -> q_called q `prefix_of` q_called q' ->
  (forall v, (CallVote v, None) ∈ q_completed q' -> (CallVote v, None) ∈ q_completed q) -> cache_ok R0 q'.
Proof. intros Hc E Hp Hd bs Hbs. rewrite E in Hbs. eapply current_frame; [by apply Hc|done..]. Qed.

Lemma Bootstrap_current R0 db0 (w0 : W) q bs j' :
  holds db0 R0 -> system_reachable session ns maxSignatures R0 db0 w0 q -> cache_ok R0 q ->
  Bootstrap (is_closed q) (q_db q) (q_journal q) = Some (Ok bs, j') -> current R0 q bs.
Proof.
  intros Hh Hr Hc. unfold Bootstrap, bootstrap_begin. destruct (stateErrorLocked (q_journal q)); [done|].
  destruct (j_bootstrap (q_journal q)) as [cached|] eqn:Ec.
  - destruct (checkLive _ _ _); cbn [and_then]; [|done]. intros [= <- _]. by apply Hc.
  - intros ([[[st res] n]|e] & Hs & Hb)%bind_Some; [|done]. injection Hb as <- _. by eapply scan_current.
Qed.

Lemma after_call_saved (q : system W) call r j' s' v :
  (CallVote v, None) ∈ q_completed (after_call q call r j' s') -> (CallVote v, None) ∈ q_completed q.
Proof. unfold after_call. simpl. destruct r; [|done]. intros [?|?%list_elem_of_singleton]%elem_of_app; [done|congruence]. Qed.

Lemma step_cache R0 db0 (w0 : W) q call q' :
  holds db0 R0 -> system_reachable session ns maxSignatures R0 db0 w0 q -> cache_ok R0 q ->
  step session ns maxSignatures R0 q call q' -> cache_ok R0 q'.
Proof.
  intros Hh Hr Hc Hs. destruct Hs as [q s' r _ Hs|q e _|q err j' _ Hs|q v r j' s' _ _ _ _ Hs|q c r j' s' _ _ _ Hs|q w r j' s' _ Hw Hs
    |q r j' _ Hs|q rq client st' Hre Hd Hs|q avail rqs carried queue st' fl Ht Hs _ _|q i st' fl fl' Hs _ _ _|q i d r st' j' completion Hs Hd|q];
    try (by apply (cache_frame R0 q)).
  - unfold recoverReservations in Hs. apply bind_Some in Hs as ([[[st res] n]|e] & Hs & E).
    + injection E as <- <-. intros bs. unfold bootstrap_end. simpl. rewrite Z.eqb_refl. intros [= <-].
      eapply current_frame; [by eapply scan_current|done..].
    + injection E as <- <-. by apply (cache_frame R0 q).
  - apply (cache_frame R0 q); [done|by apply (SaveOurVote_cache v _ _ _ _ _ Hs)|by apply prefix_app_r|]. exact (after_call_saved q (CallVote v) r j' s').
  - apply (cache_frame R0 q); [done|by apply (SaveCertificate_cache c _ _ _ _ _ Hs)|done|]. exact (after_call_saved q (CallCertificate c) r j' s').
  - apply (cache_frame R0 q); [done| |done|exact (after_call_saved q (CallWindow w) r j' s')].
    apply SaveWindow_journal in Hs as ->. done.
  - intros bs Hbs. simpl in Hbs. assert (current R0 q bs) as Hcur; [|by eapply current_frame].
    revert Hs. unfold Bootstrap. destruct (bootstrap_begin _ _ _) as [[[cached|] g]|e]; [by intros [= _ <-]; apply Hc| |by intros [= _ <-]; apply Hc].
    intros ([[[st res] n]|e] & Hs & E)%bind_Some; injection E as _ <-; [|by apply Hc]. unfold bootstrap_end in Hbs. case_match; [|by apply Hc].
    injection Hbs as <-. by eapply scan_current.
  - unfold journal_done in Hd. destruct d as [h c|w| |cl]; injection Hd as <- <-; simpl.
    + destruct r as [e|]; [|by intros bs]. apply (cache_frame R0 q); simpl; [done|by destruct e|done|].
      intros v [?|[=]%list_elem_of_singleton]%elem_of_app; done.
    + destruct r as [e|]; [|by intros bs]. apply (cache_frame R0 q); simpl; [done..|].
      intros v [?|[=]%list_elem_of_singleton]%elem_of_app; done.
    + apply (cache_frame R0 q); simpl; [done..|]. intros v. by rewrite app_nil_r.
    + apply (cache_frame R0 q); simpl; [done..|]. intros v. by rewrite app_nil_r.
Qed.

Lemma reachable_cache R0 db0 (w0 : W) q :
  holds db0 R0 -> system_reachable session ns maxSignatures R0 db0 w0 q -> cache_ok R0 q.
Proof.
  intros Hh. unfold system_reachable. revert q. apply (rtc_ind_r (cache_ok R0)); [by intros bs|].
  intros q q' Hr [call Hs] IH. by eapply step_cache.
Qed.

(** What no step takes back. *)
Lemma step_frame R0 (q : system W) call q' : step session ns maxSignatures R0 q call q' ->
  q_called q' = q_called q ++ match call with Some (CallVote v) => [v] | _ => [] end /\
  q_completed q ⊆ q_completed q' /\ (j_ready (q_journal q) = true -> j_ready (q_journal q') = true).
Proof using Type.
  destruct 1 as [q s' r _ Hs|q e _|q err j' _ Hs|q v r j' s' _ _ _ _ Hs|q c r j' s' _ _ _ Hs|q w r j' s' _ Hw Hs
    |q r j' _ Hs|q rq client st' Hre Hd Hs|q avail rqs carried queue st' fl Ht Hs _ _|q i st' fl fl' Hs _ _ _|q i d r st' j' completion Hs Hd|q];
    simpl; rewrite ?app_nil_r; (split; [done|]); try done.
  - split; [destruct r; [intros ? ?; apply elem_of_app; by left|done]|]. by apply SaveOurVote_cache in Hs as [_ ->].
  - split; [destruct r; [intros ? ?; apply elem_of_app; by left|done]|]. by apply SaveCertificate_cache in Hs as [_ ->].
  - split; [destruct r; [intros ? ?; apply elem_of_app; by left|done]|]. by apply SaveWindow_journal in Hs as ->.
  - by apply Bootstrap_fields in Hs as [b ->].
  - split; [intros ? ?; apply elem_of_app; by left|]. by apply journal_done_fields in Hd as (_ & _ & _ & _ & -> & _).
Qed.


End Crash.
