(* ===== verification/NodeRun.v ===== *)
(** * Executing a node

    [exec] runs a node on a script, a list of actions of its engine, its store and
    its environment; [exec_reachable] turns a run into a reachable state.  The
    module below it runs a node on the in-memory database of [Pebble]. *)

From S2P Require Import Prelude.
From S2P Require Import SimplexTypes.
From S2P Require Import SimplexSlots.
From S2P Require Import SimplexWire.
From S2P Require Import Sha256.
From S2P Require Import SimplexFanOut.
From S2P Require Import SimplexCert.
From S2P Require Import SimplexCandidate.
From S2P Require Import SimplexPool.
From S2P Require Import Float64.
From S2P Require Import SimplexState.
From S2P Require Import SimplexEngine.
From S2P Require Import SimplexRun.
From S2P Require Import SimplexQuorum.
From S2P Require Import SimplexVoting.
From S2P Require Import SimplexSafety.
From S2P Require Import StoreKeys.
From S2P Require Import StoreCodec.
From S2P Require Import Pebble.
From S2P Require Import StoreWriter.
From S2P Require Import StoreSession.
From S2P Require Import StoreJournal.
From S2P Require Import StoreRecovery.
From S2P Require Import StoreCrash.
From S2P Require Import Node.

#[local] Open Scope Z_scope.
#[local] Open Scope go_scope.

Inductive action :=
| DoInit
| DoRecover
| DoStart
| DoInput (i : input)
| DoVote
| DoCertificate (c : Certificate)
| DoRound (avail : nat)
| DoWait (i : nat)
| DoCallback (i : nat).

#[export] Instance journal_call_eq : EqDecision journal_call.
Proof. solve_decision. Defined.
#[export] Instance save_result_eq : EqDecision save_result.
Proof. solve_decision. Defined.
#[export] Instance store_error_eq : EqDecision store_error.
Proof. solve_decision. Defined.

Section Exec.
Context `{TLLaws} `{PebbleLaws} `{Ed25519} `{Machine} `{Environment} {W : Type}.
Context (session : SessionStorageID) (ns : bytes) (c : EngineConfig) (R0 : list record).
Implicit Types (q : system W) (n : node W).

Definition no_collision_b q (v : Vote) : bool :=
  match OurVoteRecordHash v with
  | None => true
  | Some h =>
      forallb (fun r => negb (bool_decide (rec_hash r = Some h)) || match r with RVote v' _ => bool_decide (v' = v) | RCert _ => false end) R0 &&
      forallb (fun rq => match rq_done rq with DoneReserved h' call => negb (bool_decide (h' = h)) || bool_decide (call = CallVote v) | _ => true end)
        (h_submitted (q_hist q))
  end.

Definition reported q (call : journal_call) (r : save_result) : bool :=
  existsb (fun p => bool_decide (p.1 = call) && bool_decide (r = answer_of p.2)) (q_completed q).
Definition answered_b q (e : Engine) (i : input) : bool :=
  match i with
  | InCompletion k (JournalCompletion r) =>
      match e_callbacks e !! k with
      | Some (VoteSaved v) => reported q (CallVote v) r
      | Some (CertificateSaved vc) =>
          match vc_cert vc with Some cert => reported q (CallCertificate cert) r | None => false end
      | Some (WindowSaved w) => reported q (CallWindow w) r
      | _ => true
      end
  | _ => true
  end.

(** What the store does by itself. *)
Definition store1 (a : action) q : option (system W) :=
  match a with
  | DoInit =>
      match q_init q with
      | InitNotStarted =>
          let '(r, s') := submitSession ns (mkRequest (initialize_body session ns) DoneInit 0 restartRecoverable) (q_store q) in
          Some (q <| q_store := s' |> <| q_hist := submitted q s' |>
            <| q_init := match r with Ok _ => InitWaiting | Err e => InitResult (Some e) end |>)
      | _ => None
      end
  | DoRecover =>
      match q_init q with
      | InitResult None =>
          '(err, j') ← recoverReservations (is_closed q) (q_db q) (j_writeGen (q_journal q)) (q_journal q);
          Some (q <| q_journal := finishInitialization err j' |> <| q_init := InitFinished |>)
      | _ => None
      end
  | DoRound avail =>
      '(rqs, carried, queue) ← take_batch avail (q_st q);
      st' ← writer_round avail (q_st q);
      fl ← last (s_inflight st');
      if q_failed q then None
      else Some (q <| q_store := q_store q <| v_store := st' |> |>
        <| q_hist := mkHistory (h_submitted (q_hist q)) (h_batches (q_hist q) ++ [rqs]) (h_dbs (q_hist q) ++ [s_db st']) (h_ran (q_hist q)) |>
        <| q_failed := q_failed q || bool_decide (is_Some (fl_fatal fl)) |>)
  | DoWait i =>
      st' ← wait_log i (q_st q);
      fl ← s_inflight (q_st q) !! i;
      fl' ← s_inflight st' !! i;
      if bool_decide (fl_fatal fl' = fl_fatal fl) then Some (q <| q_store := q_store q <| v_store := st' |> |>) else None
  | DoCallback i =>
      '((d, r), st') ← run_callback i (q_st q);
      let '(j', completion) := journal_done d r (q_journal q) in
      Some (q <| q_store := q_store q <| v_store := st' |> |> <| q_journal := j' |>
        <| q_init := match d, q_init q with DoneInit, InitWaiting => InitResult r | _, i => i end |>
        <| q_hist := mkHistory (h_submitted (q_hist q)) (h_batches (q_hist q)) (h_dbs (q_hist q)) (h_ran (q_hist q) ++ [(i, (d, r))]) |>
        <| q_completed := q_completed q ++ option_list completion |>)
  | _ => None
  end.
Fixpoint store_exec (l : list action) q : option (system W) :=
  match l with
  | [] => Some q
  | a :: l => q' ← store1 a q; store_exec l q'
  end.

(** The journal's client saves a vote. *)
Definition call_vote (v : Vote) q : option (system W) :=
  if j_ready (q_journal q) && no_collision_b q v && (Z.of_nat (length R0 + length (q_called q)) <? 2 ^ 63 - 1) then
    '(r, j', s') ← SaveOurVote v (q_journal q) (q_store q);
    Some (after_call q (CallVote v) r j' s' <| q_called := q_called q ++ [v] |>)
  else None.

Definition exec1 (a : action) n : option (node W) :=
  let q := n_system n in
  match a, n_engine n with
  | DoStart, None =>
      if j_ready (q_journal q) then
        '(r, j') ← Bootstrap (is_closed q) (q_db q) (q_journal q);
        match r, NewEngine c with
        | Ok bs, Some (Ok e0) =>
            match Start (Some bs) e0 with
            | Some (None, e) => Some (mkNode (Some e) (q <| q_journal := j' |>))
            | _ => None
            end
        | _, _ => None
        end
      else None
  | DoInput i, Some e =>
      if bool_decide (typed_input i) && answered_b q e i then '(_, e') ← handle i e; Some (mkNode (Some e') q) else None
  | DoVote, Some e =>
      v ← reverse (issued e) !! length (q_called q);
      mkNode (Some e) <$> call_vote v q
  | DoCertificate cert, Some e =>
      if existsb (fun ev => match ev with SimplexState.SaveCertificate cert' => bool_decide (cert' = cert) | _ => false end) (e_log e) then
        '(r, j', s') ← SaveCertificate cert (q_journal q) (q_store q);
        Some (mkNode (Some e) (after_call q (CallCertificate cert) r j' s'))
      else None
  | a, oe => mkNode oe <$> store1 a q
  end.

Fixpoint exec (l : list action) n : option (node W) :=
  match l with
  | [] => Some n
  | a :: l => n' ← exec1 a n; exec l n'
  end.

Lemma no_collision_sound q v : no_collision_b q v = true -> no_collision R0 q v.
Proof.
  unfold no_collision_b, no_collision. destruct (OurVoteRecordHash v) as [h|]; [|done].
  intros [H1' H2']%andb_prop h' [= <-]. rewrite forallb_forall in H1', H2'. split.
  - intros r Hr E. specialize (H1' r (proj1 (list_elem_of_In _ _) Hr)). rewrite bool_decide_true in H1' by done. simpl in H1'.
    destruct r as [v' s|]; [|done]. apply bool_decide_eq_true in H1' as ->. eauto.
  - intros rq call Hin E. specialize (H2' rq (proj1 (list_elem_of_In _ _) Hin)). rewrite E in H2'. rewrite bool_decide_true in H2' by done.
    by apply bool_decide_eq_true in H2'.
Qed.

Lemma reported_sound q call r : reported q call r = true -> exists err, (call, err) ∈ q_completed q /\ r = answer_of err.
Proof.
  intros ([call' err] & Hin & [E%bool_decide_eq_true ?%bool_decide_eq_true]%andb_prop)%existsb_exists. simpl in E. subst call'.
  exists err. by rewrite list_elem_of_In.
Qed.
Lemma answered_sound q e i : answered_b q e i = true -> answered q e i.
Proof.
  destruct i as [| | | | | |k [r| |]| |]; try done. unfold answered_b, answered.
  destruct (e_callbacks e !! k) as [[v|vc|w| |]|]; try done; [apply reported_sound| |apply reported_sound].
  destruct (vc_cert vc) as [cert|]; [|done]. intros (err & ? & ?)%reported_sound. eauto.
Qed.

Lemma store1_sound a q q' : store1 a q = Some q' -> step session ns (length (ec_Validators c)) R0 q None q'.
Proof.
  destruct a; simpl; try done.
  - destruct (q_init q) eqn:Ei; [|done..]. destruct (submitSession _ _ _) as [r s'] eqn:Es. intros [= <-]. by eapply st_init.
  - destruct (q_init q) as [| |[|]|] eqn:Ei; try done. intros ([err j'] & E & [= <-])%bind_Some. by eapply st_recover.
  - intros ([[rqs carried] queue] & Et & Hs)%bind_Some. apply bind_Some in Hs as (st' & Ew & Hs). apply bind_Some in Hs as (fl & Ef & Hs).
    destruct (q_failed q) eqn:Eq; [done|]. injection Hs as <-.
    pose proof (st_round session ns (length (ec_Validators c)) R0 q avail rqs carried queue st' fl Et Ew Ef) as Hst.
    rewrite Eq in Hst. by apply Hst.
  - intros (st' & Ew & Hs)%bind_Some. apply bind_Some in Hs as (fl & Ef & Hs). apply bind_Some in Hs as (fl' & Ef' & Hs).
    case_bool_decide; [|done]. injection Hs as <-. by eapply st_wait.
  - intros ([[d r] st'] & Er & Hs)%bind_Some. destruct (journal_done d r (q_journal q)) as [j' completion] eqn:Ej.
    injection Hs as <-. by eapply st_done.
Qed.
Lemma store_exec_sound l q q' : store_exec l q = Some q' ->
  rtc (fun q q' => exists call, step session ns (length (ec_Validators c)) R0 q call q') q q'.
Proof.
  revert q. induction l as [|a l IH]; simpl; intros q; [by intros [= <-]; constructor|].
  intros (q1 & E1%store1_sound & E2%IH)%bind_Some. eapply rtc_l; [by exists None|done].
Qed.
Lemma call_vote_sound v q q' : call_vote v q = Some q' ->
  j_ready (q_journal q) = true /\ no_collision R0 q v /\ Z.of_nat (length R0 + length (q_called q)) < 2 ^ 63 - 1 /\
  exists r j' s', SaveOurVote v (q_journal q) (q_store q) = Some (r, j', s') /\
    q' = after_call q (CallVote v) r j' s' <| q_called := q_called q ++ [v] |>.
Proof.
  unfold call_vote. destruct (j_ready (q_journal q)); [|done]. destruct (no_collision_b q v) eqn:En; [|done].
  destruct (Z.ltb_spec (Z.of_nat (length R0 + length (q_called q))) (2 ^ 63 - 1)); [|done]. simpl.
  intros ([[r j'] s'] & Es & [= <-])%bind_Some. split_and!; [done|by apply no_collision_sound|done|]. by eexists _, _, _.
Qed.

Lemma exec1_sound a n n' : exec1 a n = Some n' -> node_step session ns c R0 n n'.
Proof.
  destruct n as [oe q]. assert (forall b, mkNode oe <$> store1 b q = Some n' -> node_step session ns c R0 (mkNode oe q) n') as Hstore.
  { intros b (q' & E%store1_sound & ->)%fmap_Some_1. by apply ns_store. }
  destruct a; unfold exec1; cbn [n_system n_engine]; try apply Hstore.
  - destruct oe; [apply Hstore|]. destruct (j_ready (q_journal q)) eqn:Er; [|done]. intros ([r j'] & E & Hs)%bind_Some.
    destruct r as [bs|]; [|done]. destruct (NewEngine c) as [[e0|]|] eqn:En; [|done..].
    destruct (Start (Some bs) e0) as [[[|] e]|] eqn:Est; [done| |done]. injection Hs as <-. by eapply ns_start.
  - destruct oe as [e|]; [|apply Hstore]. case_bool_decide; [|done]. destruct (answered_b q e i) eqn:Ea; [|done]. simpl.
    intros ([u e'] & E & [= <-])%bind_Some. eapply ns_input; [done|by apply answered_sound|done].
  - destruct oe as [e|]; [|apply Hstore]. intros (v & Ev & Hs)%bind_Some.
    apply fmap_Some_1 in Hs as (q' & (_ & ? & ? & r & j' & s' & ? & ->)%call_vote_sound & ->). by eapply ns_vote.
  - destruct oe as [e|]; [|apply Hstore]. destruct (existsb _ (e_log e)) eqn:Ex; [|done]. intros ([[r j'] s'] & Es & [= <-])%bind_Some.
    apply existsb_exists in Ex as (ev & Hin & Hev). destruct ev; try done. apply bool_decide_eq_true in Hev as ->.
    eapply ns_certificate; [by apply list_elem_of_In|done].
Qed.

Lemma exec_reachable l db0 (w0 : W) n :
  exec l (mkNode None (initial session ns (length (ec_Validators c)) db0 w0)) = Some n -> node_reachable session ns c R0 db0 w0 n.
Proof.
  unfold node_reachable. generalize (mkNode (W := W) None (initial session ns (length (ec_Validators c)) db0 w0)) as n0.
  induction l as [|a l IH]; simpl; intros n0; [by intros [= <-]; constructor|].
  intros (n1 & E1%exec1_sound & E2%IH)%bind_Some. by eapply rtc_l.
Qed.
End Exec.

(** ** A network of nodes *)

(** The validators of [ExampleSafety], each on a database of its own. *)
Module ExampleNode.
Import ExampleTL ExampleCert ExampleRun ExampleSafety MemPebble.

Definition storage : SessionStorageID := mkSessionStorageID session (mkShardID 0 (-(2 ^ 63))) 0 true (replicate 32 5) (replicate 32 6) 1
  (mkSessionProtocol 0 0 0 false 4).
Definition space : bytes := replicate 48 7.
Definition disk : DB := mkMem [] [] 0.

(** A request reaches the database and its callback runs. *)
Definition flushed (k : nat) : list action := [DoRound 1; DoWait k; DoCallback k].
Definition slot_script (k : nat) (id : CandidateID) (parent : ParentID) (seqno : Z) : list action :=
  [DoInput (InCandidate (proposal id parent seqno)); DoInput (InCompletion 1 (StoreCompletion true));
   DoInput (InCompletion 1 (ValidationCompletion VerdictAccept)); DoVote] ++ flushed k ++
  [DoInput (certified_msg (NotarizeVote id)); DoCertificate (cert_of (NotarizeVote id) [0; 2; 3])] ++ flushed (S k) ++
  [DoInput (InCompletion 2 (JournalCompletion Saved)); DoInput (InCompletion 1 (JournalCompletion Saved)); DoVote] ++
  flushed (S (S k)) ++ [DoInput (InCompletion 1 (JournalCompletion Saved))].
Definition script : list action :=
  [DoInit] ++ flushed 0 ++ [DoRecover; DoStart] ++ slot_script 1 id0 Genesis 17 ++ slot_script 4 id1 (Parent id0) 18.
Definition start_node : node unit := mkNode None (initial storage space 4 disk tt).
Definition node_of (i : Z) : node unit := default start_node (@exec _ _ _ _ (env_of i) unit storage space (config_of i) [] script start_node).

(** The three nodes run the script to its end. *)
Lemma node_runs :
  forallb (fun i => bool_decide (is_Some (@exec _ _ _ _ (env_of i) unit storage space (config_of i) [] script start_node)) &&
    bool_decide (node_signed (node_of i) = cast) &&
    Nat.leb (mem_stable (q_db (n_system (node_of i)))) (length (mem_versions (q_db (n_system (node_of i)))))) [1; 2; 3] = true.
Proof. vm_compute. reflexivity. Qed.
Lemma node_run i : i ∈ [1; 2; 3] ->
  @node_reachable _ _ _ _ _ (env_of i) unit storage space (config_of i) [] disk tt (node_of i) /\ node_signed (node_of i) = cast /\
  (mem_stable (q_db (n_system (node_of i))) <= length (mem_versions (q_db (n_system (node_of i)))))%nat.
Proof.
  intros Hi. pose proof node_runs as Hr. rewrite forallb_forall in Hr. specialize (Hr i (proj1 (list_elem_of_In _ _) Hi)).
  apply andb_prop in Hr as [[Hc Hs]%andb_prop Hst]. split; [|split; [exact (bool_decide_eq_true_1 _ Hs)|exact (proj1 (Nat.leb_le _ _) Hst)]].
  destruct (bool_decide_eq_true_1 _ Hc) as [n Hn]. clear Hc Hs Hst. unfold node_of. rewrite Hn.
  exact (exec_reachable storage space (config_of i) [] script disk tt n Hn).
Qed.

Lemma storage_wf : wf_session storage.
Proof. constructor; try reflexivity; [split; unfold is_i32, is_i64; simpl; lia|unfold is_u32; simpl; lia..]. Qed.
Lemma space_ok : bytes_ok space.
Proof. unfold space, bytes_ok. apply Forall_replicate. unfold is_byte. lia. Qed.

Lemma disk_empty : holds storage space 4 disk [].
Proof.
  constructor; [reflexivity| |].
  - right. split; [done|]. constructor; try done. intros k x _. split; [done|]. by intros (r & ?%elem_of_nil & _).
  - constructor; [constructor|constructor|reflexivity].
Qed.

Lemma config_ok i : i ∈ [1; 2; 3] -> @configured _ _ _ (env_of i) (config_of i).
Proof.
  intros Hi. split; [simpl; lia|]. intros bs Hv Hc. destruct (setup_of i Hi). by constructor.
Qed.

(** The databases the nodes leave behind. *)
Definition left_disk (i : Z) : DB := mkMem [] (mem_last (q_db (n_system (node_of i)))) 0.
Lemma left_reopened i : i ∈ [1; 2; 3] -> db_Reopen (q_db (n_system (node_of i))) (left_disk i).
Proof.
  intros Hi. destruct (node_run i Hi) as (_ & _ & Hst).
  eexists _, _. split; [exact Hst|]. split; [apply list_lookup_middle; reflexivity|unfold left_disk; reflexivity].
Qed.
Lemma node_life i : (i < 4)%nat -> faulty i = false ->
  life storage space session roster i (left_disk (Z.of_nat i)) (node_signed (node_of (Z.of_nat i)) ++ []).
Proof.
  intros Hi Hf. destruct (validator_at i Hi Hf) as (Hin & _ & _). destruct (node_run _ Hin) as (Hr & _ & _).
  apply (life_run storage space session roster i (env_of (Z.of_nat i)) unit tt (config_of (Z.of_nat i)) [] disk);
    [apply life_new, disk_empty|reflexivity..|by apply config_ok|apply disk_empty|exact Hr|by apply left_reopened].
Qed.

(** The store of the first node. *)
Definition store1 : system unit := n_system (node_of 1).
Lemma one_honest : 1 ∈ [1; 2; 3].
Proof. apply list_elem_of_here. Qed.
Lemma store1_reachable : system_reachable storage space 4 [] disk tt store1.
Proof.
  destruct (node_run 1 one_honest) as [Hr _].
  destruct (node_invariant storage space (config_of 1) space_ok storage_wf eq_refl (config_ok 1 one_honest) [] disk tt (node_of 1)
    disk_empty (Forall_nil_2 _) Hr) as [Hs _]. exact Hs.
Qed.
Lemma store1_runs : StoreWriter.runs no_env disk tt (q_hist store1) (q_st store1) /\ Forall batch_local (h_submitted (q_hist store1)).
Proof.
  destruct (reachable_main storage space 4 [] disk tt space_ok storage_wf eq_refl store1 (ho_fresh _ _ _ _ _ disk_empty) (ho_journal _ _ _ _ _ disk_empty)
    (ho_wf _ _ _ _ _ disk_empty) (NoDup_nil_2) store1_reachable) as [[Hr _ _ _ _ _ Hk] _]. split; [exact Hr|].
  eapply Forall_impl; [exact Hk|]. intros rq. apply known_local.
Qed.

Definition disks (i : nat) : DB := left_disk (Z.of_nat i).
Definition ballots (i : nat) : list Vote := node_signed (node_of (Z.of_nat i)) ++ [].

Lemma example_deployment : deployment storage space session roster faulty disks ballots.
Proof.
  constructor; [apply example_network..|exact node_life|].
  intros i v p sig Hi Hf _ Hv. destruct (validator_at i Hi Hf) as (Hin & _ & _). destruct (node_run _ Hin) as (_ & Hs & _).
  unfold ballots. rewrite Hs, app_nil_r. by apply (signed_cast i p sig).
Qed.





Lemma bootstrap_runs : match Bootstrap (is_closed store1) (q_db store1) (q_journal store1) with
  | Some (Ok bs, _) => bool_decide (bs_OurVotes bs = reverse cast) | _ => false end = true.
Proof. vm_compute. reflexivity. Qed.

Lemma writer_fifo_witness : s_outstanding (q_st store1) = Z.of_nat (length (h_submitted (q_hist store1))) - Z.of_nat (length (h_ran (q_hist store1))).
Proof. apply (writer_fifo no_env disk tt (q_hist store1) (q_st store1) (proj1 store1_runs)). Defined.

(** The second batch of the run is a vote whose callback reported success. *)
Lemma vote_batch : match h_batches (q_hist store1) !! 1%nat, h_dbs (q_hist store1) !! 1%nat, h_ran (q_hist store1) !! 1%nat with
  | Some rqs, Some _, Some (1%nat, (_, None)) => bool_decide (first_class rqs = durableCommitment) | _, _, _ => false end = true.
Proof. vm_compute. reflexivity. Qed.
Lemma commitments_are_durable_witness : exists dbi k n, (k <= n)%nat /\
  versions (q_db store1) !! k = Some (contents dbi) /\ versions (q_db store1) !! n = Some (contents (disks 1)).
Proof.
  pose proof vote_batch as Hb. destruct (h_batches (q_hist store1) !! 1%nat) as [rqs|] eqn:E1; [|discriminate Hb].
  destruct (h_dbs (q_hist store1) !! 1%nat) as [dbi|] eqn:E2; [|discriminate Hb].
  destruct (h_ran (q_hist store1) !! 1%nat) as [[[|[|i]] [d [r|]]]|] eqn:E3; try discriminate Hb. exists dbi.
  exact (commitments_are_durable no_env disk tt (q_hist store1) (q_st store1) 1 d rqs dbi (proj1 store1_runs) (proj2 store1_runs)
    (list_elem_of_lookup_2 _ _ _ E3) E1 (bool_decide_eq_true_1 _ Hb) E2 (disks 1) (left_reopened 1 one_honest)).
Defined.
End ExampleNode.

(** ** A session restarted inside the process *)

(** The supervisor restarts a session that stopped on the journal it already has;
    the saves of the engine before may still be on their way. *)
Module ExampleRestart.
Import ExampleTL ExampleCert ExampleRun MemPebble ExampleNode.

Definition first : CandidateID := Eval vm_compute in id_of 17.
Definition second : CandidateID := Eval vm_compute in id_of 18.

Definition approved (seqno : Z) : list input :=
  [InCandidate (candidate seqno); InCompletion 1 (StoreCompletion true); InCompletion 1 (ValidationCompletion VerdictAccept)].
Definition wire_of (v : Vote) : bytes :=
  default [] (SignedVote_Serialize (mkSignedVote 1 v (mac (key 1) (default [] (vote_payload session v))))).

(** A clock on which every timeout is due. *)
Definition late : Environment := {| env_Now n := 1000 + Z.of_nat n * 10 ^ 13; env_Sign _ p := Some (mac (key 1) p) |}.

Definition sends_all (w : bytes) (ev : Effect) : bool := match ev with BroadcastToAll m => bool_decide (m = w) | _ => false end.
Definition sends_validators (w : bytes) (ev : Effect) : bool := match ev with BroadcastToValidators m => bool_decide (m = w) | _ => false end.

(** What a process that stopped leaves behind, nothing lost. *)
Definition reopened (q : system unit) : DB := mkMem [] (mem_last (q_db q)) 0.

(** The evaluations the theorem below rests on. *)
Definition start_script : list action :=
  [DoInit] ++ flushed 0 ++ [DoRecover; DoStart] ++ map DoInput (approved 17) ++ [DoVote].
Definition store_script : list action := [DoRound 9; DoWait 1; DoCallback 1; DoCallback 1].
Definition second_inputs : list input := approved 18 ++ [InCompletion 1 (JournalCompletion Saved)].
Lemma restart_evaluated :
  match exec storage space config [] start_script start_node with
   | Some n => bool_decide (q_called (n_system n) = [NotarizeVote first]) &&
     match Bootstrap (is_closed (n_system n)) (q_db (n_system n)) (q_journal (n_system n)), call_vote [] (NotarizeVote second) (n_system n) with
     | Some (Ok bs, _), Some q =>
         bool_decide (bs_OurVotes bs = []) && completes config bs second_inputs &&
         bool_decide (issued (final config bs second_inputs) = [NotarizeVote second]) &&
         existsb (sends_all (wire_of (NotarizeVote second))) (e_log (final config bs second_inputs)) &&
         match store_exec storage space store_script q with
         | Some q => bool_decide (q_called q = [NotarizeVote first; NotarizeVote second]) &&
             existsb (fun p => bool_decide (p.1 = CallVote (NotarizeVote second)) && bool_decide (p.2 = None)) (q_completed q) &&
             Nat.leb (mem_stable (q_db q)) (length (mem_versions (q_db q))) &&
             match scan false (reopened q) (newJournal storage space 4) with
             | Some (Ok (bs', _, _)) =>
                 @completes _ _ _ late config bs' [InAdvance] &&
                 existsb (sends_validators (wire_of (NotarizeVote first))) (e_log (@final _ _ _ late config bs' [InAdvance]))
             | _ => false
             end
         | None => false
         end
     | _, _ => false
     end
   | None => false
   end = true.
Proof. vm_compute. reflexivity. Qed.

Lemma second_sized : sized_vote (NotarizeVote second).
Proof. apply sized_NotarizeVote. split; [unfold is_u32; simpl; lia|reflexivity]. Qed.

(** C9: a save in flight outlives the engine that asked for it.  An engine stops
    while the save of its vote [v] is on its way; the engine that replaces it in
    the same process starts from a [Bootstrap] without [v], journals, signs and
    broadcasts a conflicting vote [w]; and after the next crash, with both votes
    durable, the recovered engine broadcasts [v]. *)
Theorem inflight_restart_equivocates :
  exists v w n1 bs1 j1 e2 q2 db' bs2 reserved next e3,
    node_reachable storage space config [] disk tt n1 /\ q_called (n_system n1) = [v] /\
    Bootstrap (is_closed (n_system n1)) (q_db (n_system n1)) (q_journal (n_system n1)) = Some (Ok bs1, j1) /\
    reachable config bs1 e2 /\ issued e2 = [w] /\ BroadcastToAll (wire_of w) ∈ e_log e2 /\
    rtc (fun q q' => exists call, step storage space 4 [] q call q') (n_system n1) q2 /\
    q_called q2 = [v; w] /\ (CallVote w, None) ∈ q_completed q2 /\
    db_Reopen (q_db q2) db' /\ scan false db' (newJournal storage space 4) = Some (Ok (bs2, reserved, next)) /\
    @reachable _ _ _ late config bs2 e3 /\ BroadcastToValidators (wire_of v) ∈ e_log e3 /\ conflicting v w.
Proof.
  pose proof restart_evaluated as H. destruct (exec storage space config [] start_script start_node) as [n1|] eqn:E1; [|discriminate H].
  apply andb_prop in H as [Hc1 H].
  destruct (Bootstrap (is_closed (n_system n1)) (q_db (n_system n1)) (q_journal (n_system n1))) as [[[bs1|] j1]|] eqn:E2; [|discriminate H..].
  destruct (call_vote [] (NotarizeVote second) (n_system n1)) as [q|] eqn:E3; [|discriminate H].
  apply andb_prop in H as [[[[_ Hr2]%andb_prop Hi2]%andb_prop Hs2]%andb_prop H].
  destruct (store_exec storage space store_script q) as [q2|] eqn:E4; [|discriminate H].
  apply andb_prop in H as [[[Hc2 Hd2]%andb_prop Hst]%andb_prop H].
  destruct (scan false (reopened q2) (newJournal storage space 4)) as [[[[bs2 res] next]|]|] eqn:E5; [|discriminate H..].
  apply andb_prop in H as [Hr3 Hs3].
  exists (NotarizeVote first), (NotarizeVote second), n1, bs1, j1, (final config bs1 second_inputs), q2, (reopened q2),
    bs2, res, next, (@final _ _ _ late config bs2 [InAdvance]).
  split; [exact (exec_reachable storage space config [] start_script disk tt n1 E1)|].
  split; [exact (bool_decide_eq_true_1 _ Hc1)|]. split; [exact E2|]. split; [exact (final_reachable config bs1 second_inputs Hr2)|].
  split; [exact (bool_decide_eq_true_1 _ Hi2)|].
  split; [apply existsb_exists in Hs2 as (ev & Hin & Hev); destruct ev; try discriminate Hev;
    rewrite <- (bool_decide_eq_true_1 _ Hev); exact (proj2 (list_elem_of_In _ _) Hin)|].
  split. { apply call_vote_sound in E3 as (? & ? & ? & r & j' & s' & Hs & ->). eapply rtc_l.
    - exists (Some (CallVote (NotarizeVote second))). apply st_vote; [assumption|exact second_sized|assumption|assumption|exact Hs].
    - exact (store_exec_sound storage space config [] store_script _ _ E4). }
  split; [exact (bool_decide_eq_true_1 _ Hc2)|].
  split; [apply existsb_exists in Hd2 as ([call err] & Hin & [Hx Hy]%andb_prop);
    pose proof (bool_decide_eq_true_1 _ Hx) as Hx'; pose proof (bool_decide_eq_true_1 _ Hy) as Hy'; cbn [fst snd] in Hx', Hy';
    rewrite <- Hx', <- Hy'; exact (proj2 (list_elem_of_In _ _) Hin)|].
  split; [eexists _, _; split; [exact (proj1 (Nat.leb_le _ _) Hst)|split; [apply list_lookup_middle; reflexivity|reflexivity]]|].
  split; [exact E5|]. split; [exact (@final_reachable _ _ _ late config bs2 [InAdvance] Hr3)|].
  split; [apply existsb_exists in Hs3 as (ev & Hin & Hev); destruct ev; try discriminate Hev;
    rewrite <- (bool_decide_eq_true_1 _ Hev); exact (proj2 (list_elem_of_In _ _) Hin)|].
  split; [reflexivity|]. simpl. discriminate.
Qed.
End ExampleRestart.
